(* ===== verification/_CoqProject ===== *)
-Q . S2P
Prelude.v
Bytes.v
Collections.v
Proto.v
Block.v
BlockIndex.v
Wal.v
TransactionLog.v
Cache.v
BlockManager.v
BlockManagerRefine.v
Entry.v
RecordIo.v
EntryRefine.v
EntryLoader.v
Recovery.v
Durability.v
Text.v
Float64.v
Value.v
Condition.v
Parser.v
ConditionRun.v
Filters.v
FilterWindow.v
Query.v
QueryRefine.v
Split.v
Pattern.v
MultiQuery.v
MultiQueryMerge.v
MultiQueryExact.v
Folders.v
FolderWalk.v
FolderLife.v
FileCache.v
FileCacheLife.v
FileCacheRun.v
FileCacheDurability.v
FileCacheEviction.v
Ip.v
Token.v
TokenRepository.v
TokenRefine.v
TokenRestart.v
TokenAuth.v
Limits.v
Lifecycle.v
Replication.v
ReplicationRefine.v
ReplicationPass.v
ReplicationTask.v
ReplicationSettings.v
ReplicationRepo.v
ReplicationRestart.v
Bucket.v
BucketQuota.v
Engine.v
EngineLife.v
Batch.v
BatchCodec.v
BatchResponse.v
BatchRoundtrip.v
BatchV1.v
WriteBatched.v
WriteRoundtrip.v
ReplicationLoss.v
