(* ===== verification/Prelude.v ===== *)
(** * ReductStore: a verification development of the storage core

    ReductStore keeps time series of blobs.  A bucket has entries; an entry has
    blocks, each a descriptor file (the records' metadata) and a data file (their
    contents); a block index summarises the blocks; a write-ahead log per block
    keeps the changes the descriptors do not have yet.  Queries walk over the
    blocks, filter records by time and by a condition in JSON, and their results
    travel in batches over HTTP.  A replication keeps a log of transactions
    and sends their records to a bucket of another server.

    ** Which file models what (sources under src/)

    - Prelude: error codes (reduct_base/src/error.rs), results, the state and error
      monad, machine integers.  [Panic] is a result of its own: [unwrap] on nothing,
      an index out of range.  Rust's release profile wraps, so a [u64] is a [Z] with
      the wrap-around written out; times are microseconds.
    - Bytes, Collections: byte strings and big-endian integers; ordered sets and maps
      ([BTreeSet], [BTreeMap]) over stdpp's; hash maps, whose order of iteration is a
      parameter ([HashIter]: any permutation).
    - Proto: the protobuf messages (storage/proto.rs).  The code that prost generates,
      the CRC-64 digest and zstd are parameters ([Prost], [Crc64], [Zstd]); the laws
      assumed are that decoding gives back what was encoded, with the lengths the
      crate reports.  [Toy] instantiates them for the witnesses.
    - Block, BlockIndex, Wal, Cache: storage/block_manager/block.rs, block_index.rs,
      wal.rs and core/cache.rs.
    - BlockManager: storage/block_manager.rs and its submodules.  A block reference
      ([Arc<RwLock<Block>>]) is an address of a heap that the write cache and the read
      cache share; files are byte strings by path.
    - BlockManagerRefine: the block manager against a map from ids to blocks.
    - Entry, RecordIo, EntryRefine: storage/entry.rs, entry/write_record.rs,
      read_record.rs, update_labels.rs, remove_records.rs and entry/io/.
    - EntryLoader, Recovery, Durability: storage/entry/entry_loader.rs, the restoration
      of an entry; [ProstMinimal] stands for the generated decoder of the short form of
      a descriptor.
    - Pattern: storage/entry/pattern.rs and entry/system.rs, and how removals, queries,
      lifecycle tasks (lifecycle/action/progress.rs has its own copy) and replications
      select entries.
    - Bucket, BucketQuota: storage/bucket.rs with bucket/settings.rs, quotas.rs and
      get_entry.rs, over an interface of entries that LiveEntry satisfies.  The shared
      read cache is a part of each entry's state: entries do not see each other's blocks
      in it, as its keys have the entry's path.
    - Folders, FolderWalk, FolderLife: storage/folder_keeper.rs and what
      bucket/get_entry.rs, remove_entry.rs, rename_entry.rs and builder.rs do with the
      directories of entries.  The order in which a directory is listed is a parameter.
      FolderWalk is about the walk over the disk, FolderLife follows a bucket over its life.
    - Engine, EngineLife: storage/engine.rs, engine/read_only.rs, bucket/builder.rs and the
      settings file of bucket/settings.rs.  What the entries keep in the directory of their
      bucket is an interface ([BucketData]), the encoding of the settings a parameter
      ([SettingsCodec]); whether the calls of the file system succeed is an argument
      ([EngineEnv]).
    - FileCache, FileCacheLife, FileCacheRun, FileCacheDurability, FileCacheEviction:
      core/file_cache.rs, backend/file.rs and backend/fs.rs, the cache of open files that
      all components use.  FileCache has the operations over inodes with the bytes in
      memory and on the disk; FileCacheLife has the invariants, FileCacheRun what each call
      does to them, the other two the theorems.
    - Ip, Token, TokenRepository, TokenRefine, TokenRestart, TokenAuth: auth/.  Ip has the
      address parser of the standard library and the allow lists, Token the data,
      policies, hashed secrets and the saved form, TokenRepository the operations of the
      primary's repository.  TokenRefine proves that its cache does not show,
      TokenRestart follows it over its life, and TokenAuth has the other repositories and
      the check of an endpoint, over the interface [TokenSource].  SHA-256 and hex
      ([Secrets]), chrono ([Chrono]) and prost ([TokenCodec]) are parameters; the clocks,
      random numbers and file errors of a call are its argument ([Env]).
    - Limits: api/limits.rs, the rate limits; clocks are arguments.
    - Lifecycle: lifecycle/action/, lifecycle_task.rs and lifecycle_repository/repo.rs, the
      policies that delete or compress old records; what a run sees of the bucket, its
      logged progress and the clock are arguments ([Sight]).
    - TransactionLog: replication/transaction_log.rs.
    - Replication, ReplicationRefine, ReplicationPass: replication/replication_sender.rs and
      the states of the remote bucket (replication/remote_bucket/).  What the network and
      the storage answer during a pass, and what is appended to the logs in the meantime,
      are arguments ([Net], [Storage], [World]); the requests made are a list in the state.
    - ReplicationTask: replication/replication_task.rs, transaction_filter.rs and
      diagnostics.rs: notifications, the turns of the worker, the counters.
    - ReplicationSettings, ReplicationRepo, ReplicationRestart:
      replication/replication_repository/repo.rs and prepend_when_conditions of
      replication.rs.  ReplicationSettings has the settings, their saved form and the
      migration of older forms, ReplicationRepo the operations of the repository and its
      file, ReplicationRestart follows it over restarts.  prost ([ReplCodec]) and url
      ([UrlParser]) are parameters; what storage, client and file system answer is an
      argument ([RepoEnv]).
    - BatchV1, WriteBatched, WriteRoundtrip: the requests that a replication makes
      (remote_bucket/client_wrapper.rs), the handler that takes them
      (api/http/entry/write_batched.rs), and that both fit.
    - ReplicationLoss: where a replication loses transactions, over all of the above.
    - Text, Split, Float64: the operations on text and the binary64 arithmetic of the
      Rust standard library.
    - Value, Condition, Parser, ConditionRun: storage/query/condition/.  The calendar
      (chrono) and the text of JSON values (serde_json) are parameters.
    - Filters, FilterWindow: storage/query/filters/.
    - Query, QueryRefine: storage/query.rs, query/historical.rs, query/continuous.rs.
    - MultiQuery, MultiQueryMerge, MultiQueryExact: storage/bucket/query.rs and the query task
      of storage/query.rs.  What the channels of the entries answer over time is an argument;
      MultiQueryExact composes the merging with the queries of the entries.
    - Batch, BatchCodec: reduct_base/src/batch/v1.rs and v2.rs; the header values of the
      http crate are a parameter ([Http]).
    - BatchResponse, BatchRoundtrip: api/http/io/read.rs, the response to a batched
      read.

    ** What the theorems show

    - Refinement: whatever is cached and whatever is on disk, the block manager behaves
      as a map of blocks ([block_manager_refines_map]), also after a flush and a restart
      ([flush_then_restart]); what was acknowledged since the flush is in the logs and
      survives a crash ([recovery_applies_logs], [acknowledged_changes_survive_crash]);
      writing and reading records behaves as on that map
      ([begin_write_refines], [begin_read_refines]); a historical query returns exactly
      the finished records of its range, in order ([historical_query_exact]), and a
      continuous one resumes behind them ([continuous_query_resumes]); a query over several
      entries returns these records of each, merged in time ([multi_entry_query_exact]); the transaction
      log is a bounded queue, the write-ahead log a list per block.  The invariant behind the
      first of these ([rep]) is that of a primary whose blocks are neither compressed nor
      marked as corrupted; queries are exact when the blocks follow each other in time, and a
      write when it does not start a block anew under the id of another one
      ([belated_record_is_not_queried] and [reused_id_loses_records] show what happens else).
    - Buckets: a FIFO quota removes the oldest blocks, only as many as needed, and ends
      ([quota_is_kept]); patterns of entry names mean what they say, but for one form
      ([entry_pattern_correct]; [inner_wildcard_selects_nothing] has the form).
    - Files: a guard of the file cache sees the bytes of the file its path names, whatever
      is cached ([guard_sees_the_file]); after a forced sync all that was written is on the
      disk ([force_sync_makes_durable]), and the worker gets there by itself
      ([worker_syncs_everything]).
    - Directories: after any creations, removals, renamings and restarts the entries of a
      bucket are those of an abstract set of names ([entries_survive_restarts]), and the
      buckets of the engine and their settings are those that a start finds
      ([buckets_survive_restarts]).
    - Authentication: a token is accepted exactly when the repository holds it, alive and
      for this client, in spite of the cache, as long as changes are saved ([validated_token_is_current]; without,
      [unsaved_removal_leaves_token_valid]); an endpoint is
      reached only with its permission ([authorized_request_has_permission]); networks in
      allow lists mean their first bits ([allowlist_entry_correct]); a restart finds the
      tokens ([restart_keeps_tokens]); someone keeps full access ([full_access_remains]).
    - Replication: the worker overlaps sending and preparing without changing the result
      ([overlapped_pass_is_sequential]); it takes only settled transactions from the logs
      ([pass_removes_only_answered]), unless a log overflows meanwhile
      ([overflow_while_sending_drops_unsent]), and with a remote bucket that answers every
      record that was notified is settled, and delivered when the remote bucket accepts it
      ([notified_record_is_replicated]); the batch arrives as it
      was sent ([replicated_batch_arrives]).  The repository finds its replications at a
      start ([restart_keeps_replications]), and filters by label of older versions keep
      their meaning ([migrated_filter_is_kept]).
    - Lifecycle policies: only records past the least age are asked for, whatever is done
      to the policies ([policies_touch_only_old_records]), and a policy that logs its
      progress gets to the end of them ([policy_catches_up]).
    - Rate limits: what a client gets in a window is bounded ([rate_limit_bounds]).
    - Invariants: the counters of a block and of the index are those of their contents;
      the caches keep their capacity and drop the least recently used.
    - Round trips: block descriptors, the index file, the log, the contents of a record,
      the text of durations, and the headers of a batch, from the records collected on
      the server to what a client parses ([batched_read_roundtrip], for names and labels that
      the headers can carry).
    - Safety: the writer of a record never leaves its region; a parsed condition never
      panics on any record; the when filter passes on exactly the windows around the
      matches.
    - Where the code does not do what it means to, a theorem shows it ("error").

    ** Bounds and fuel

    Loops that are not structural take fuel.  The loop that reads a write-ahead log has the
    result [None] while it has not ended; a turn that goes on consumes a byte or more, so one
    more turn than the file has bytes is enough ([wal_read_terminates]).
    Text loops consume a character a turn; the condition parser recurses on the JSON
    value itself.  [drain] and [poll] of a query take any number of calls greater than
    the number of records.  The loop over the chunks of a request body turns once for each
    chunk, so one more than the chunks is enough; there its result is [None] when the fuel
    is not, and [wrapped_lengths_never_end] shows a request for which no fuel is.  The walk
    over the directories of a bucket takes one from its stack a turn, so their number is
    enough ([FolderWalk] proves that it never runs out).  The merging of channels uses up an
    answer or passes on a record each turn ([channel_turns]).

    ** What is not modelled

    Threads and locks: a method of the block manager, of a repository or of the file cache
    runs under its lock, and the models interleave whole methods; a call of the file cache
    that meets a guard of another caller fails as after the timeout.  Crashes are modelled
    where a theorem says so, as states between two writes.  The models of entries, logs and
    repositories see files as byte strings by path; only the file cache tells the bytes in
    memory from those on the disk.  Remote storage with its local cache, the HTTP and Zenoh
    servers apart from the two batched requests, the transfer of a replication and the
    removal of its log files, the limiter of requests in flight, the usage counters,
    extensions, provisioning and configuration are not modelled: they are mostly calls of
    libraries and of the operating system.  Messages of errors are left out: an error is
    its status. *)

From stdpp Require Import prelude gmap strings sorting fin_map_dom.
From Stdlib Require Import ZArith Lia.
Open Scope Z_scope.

(** ** Error codes and results *)

(** [ErrorCode] of reduct_base/src/error.rs, constructor by constructor. *)
Inductive ErrorCode : Set :=
| InvalidRequest | Interrupt | UrlParseError | ConnectionError | Timeout | Unknown
| Continue | OK | Created | Accepted | NoContent
| BadRequest | Unauthorized | Forbidden | NotFound | MethodNotAllowed | NotAcceptable
| RequestTimeout | Conflict | Gone | LengthRequired | PreconditionFailed
| PayloadTooLarge | URITooLong | UnsupportedMediaType | RangeNotSatisfiable
| ExpectationFailed | ImATeapot | MisdirectedRequest | UnprocessableEntity | Locked
| FailedDependency | TooEarly | UpgradeRequired | PreconditionRequired
| TooManyRequests | RequestHeaderFieldsTooLarge | UnavailableForLegalReasons
| InternalServerError | NotImplemented | BadGateway | ServiceUnavailable
| GatewayTimeout | HTTPVersionNotSupported | VariantAlsoNegotiates
| InsufficientStorage | LoopDetected | NotExtended | NetworkAuthenticationRequired.

#[export] Instance ErrorCode_eq_dec : EqDecision ErrorCode.
Proof. solve_decision. Defined.

(** What a call does: it returns, it fails with a [ReductError] (represented by
    its [status]; the message is never inspected by the modelled code), or the
    thread panics ([unwrap] of a missing value, index out of range). *)
Inductive outcome (A : Type) : Type :=
| Ok (a : A)
| Err (e : ErrorCode)
| Panic.
Arguments Ok {A} _.
Arguments Err {A} _.
Arguments Panic {A}.

#[export] Instance outcome_ret : MRet outcome := λ A a, Ok a.
#[export] Instance outcome_bind : MBind outcome := λ A B f m,
  match m with Ok a => f a | Err e => Err e | Panic => Panic end.
#[export] Instance outcome_fmap : FMap outcome := λ A B f m,
  match m with Ok a => Ok (f a) | Err e => Err e | Panic => Panic end.

#[export] Instance outcome_eq_dec {A} `{EqDecision A} : EqDecision (outcome A).
Proof. solve_decision. Defined.

(** [Option::unwrap] and [Option::ok_or]. *)
Definition unwrap {A} (o : option A) : outcome A :=
  match o with Some a => Ok a | None => Panic end.
Definition ok_or {A} (e : ErrorCode) (o : option A) : outcome A :=
  match o with Some a => Ok a | None => Err e end.

(** Stateful fallible code: a method taking [&mut self] keeps the changes it
    made before it failed, so the state is returned on every path. *)
Definition ST (S A : Type) : Type := S → outcome A * S.
#[export] Instance ST_ret {S} : MRet (ST S) := λ A a s, (Ok a, s).
#[export] Instance ST_bind {S} : MBind (ST S) := λ A B f m s,
  match m s with
  | (Ok a, s') => f a s'
  | (Err e, s') => (Err e, s')
  | (Panic, s') => (Panic, s')
  end.
Definition st_lift {S A} (o : outcome A) : ST S A := λ s, (o, s).
Definition st_get {S} : ST S S := λ s, (Ok s, s).
Definition st_modify {S} (f : S → S) : ST S () := λ s, (Ok tt, f s).
Definition st_throw {S A} (e : ErrorCode) : ST S A := λ s, (Err e, s).

(** [for x in l { f(x)? }]. *)
Fixpoint st_for {S A} (f : A → ST S ()) (l : list A) : ST S () :=
  match l with
  | [] => mret tt
  | x :: l' => mbind (λ _, st_for f l') (f x)
  end.

Lemma st_bind_ok {S A B} (f : A → ST S B) (m : ST S A) s a s' :
  m s = (Ok a, s') → (m ≫= f) s = f a s'.
Proof. intros E. unfold mbind, ST_bind. by rewrite E. Qed.

Lemma st_bind_err {S A B} (f : A → ST S B) (m : ST S A) s e s' :
  m s = (Err e, s') → (m ≫= f) s = (Err e, s').
Proof. intros E. unfold mbind, ST_bind. by rewrite E. Qed.

Lemma st_for_cons {S A} (f : A → ST S ()) x l s s' :
  f x s = (Ok tt, s') → st_for f (x :: l) s = st_for f l s'.
Proof. intros E. simpl. by rewrite (st_bind_ok _ _ _ _ _ E). Qed.

(** [st_step E]: run the first statement, whose result is given by [E]. *)
Ltac st_step E := rewrite (st_bind_ok _ _ _ _ _ E).

(** ** Machine integers

    Rust's release profile wraps on overflow; a [u64] is a [Z] in
    [[0, 2^64)], an [i64] a [Z] in [[-2^63, 2^63)]. *)
Definition two64 : Z := 2 ^ 64.
Definition u64_max : Z := two64 - 1.
Definition is_u64 (z : Z) : Prop := 0 ≤ z < two64.
Definition u64_wrap (z : Z) : Z := z mod two64.
Definition u64_add (a b : Z) : Z := u64_wrap (a + b).
Definition u64_sub (a b : Z) : Z := u64_wrap (a - b).
Definition u64_mul (a b : Z) : Z := u64_wrap (a * b).
Definition u64_sat_add (a b : Z) : Z := a + b `min` (u64_max - a).
Definition u64_sat_sub (a b : Z) : Z := (a - b) `max` 0.
Definition i64_wrap (z : Z) : Z := (z + 2 ^ 63) mod two64 - 2 ^ 63.
Definition i32_wrap (z : Z) : Z := (z + 2 ^ 31) mod 2 ^ 32 - 2 ^ 31.
Definition is_i64 (z : Z) : Prop := - 2 ^ 63 ≤ z < 2 ^ 63.

#[export] Instance is_u64_dec z : Decision (is_u64 z).
Proof. unfold is_u64. apply _. Defined.

Create HintDb u64.

Lemma two64_pos : 0 < two64.
Proof. reflexivity. Qed.

Lemma u64_wrap_range z : is_u64 (u64_wrap z).
Proof. apply Z.mod_pos_bound, two64_pos. Qed.

Lemma u64_wrap_small z : is_u64 z → u64_wrap z = z.
Proof. apply Z.mod_small. Qed.

Lemma u64_add_small a b : 0 ≤ a + b < two64 → u64_add a b = a + b.
Proof. apply Z.mod_small. Qed.

Lemma u64_sub_small a b : 0 ≤ a - b < two64 → u64_sub a b = a - b.
Proof. apply Z.mod_small. Qed.

Lemma u64_add_range a b : is_u64 (u64_add a b).
Proof. apply u64_wrap_range. Qed.

Lemma u64_sub_range a b : is_u64 (u64_sub a b).
Proof. apply u64_wrap_range. Qed.

(** Wrapping arithmetic is arithmetic modulo [2^64]: a chain of wrapped
    additions and subtractions has the wrapped value of the exact one. *)
Lemma u64_add_wrap_l a b : u64_add (u64_wrap a) b = u64_wrap (a + b).
Proof. unfold u64_add, u64_wrap. by rewrite Zplus_mod_idemp_l. Qed.
Lemma u64_sub_wrap_l a b : u64_sub (u64_wrap a) b = u64_wrap (a - b).
Proof. unfold u64_sub, u64_wrap. by rewrite Zminus_mod_idemp_l. Qed.
Lemma u64_sub_wrap_r a b : u64_sub a (u64_wrap b) = u64_wrap (a - b).
Proof. unfold u64_sub, u64_wrap. by rewrite Zminus_mod_idemp_r. Qed.
Lemma u64_add_wrap_r a b : u64_add a (u64_wrap b) = u64_wrap (a + b).
Proof. unfold u64_add, u64_wrap. by rewrite Zplus_mod_idemp_r. Qed.

#[export] Hint Resolve two64_pos u64_wrap_range u64_add_range u64_sub_range : u64.

(** [u64_lia]: linear arithmetic with the widths and the constants unfolded. *)
Ltac u64_lia := unfold is_u64, is_i64, u64_max, two64 in *; lia.

(** [simpl_st]: unfold the monads' operations on concrete results. *)
Ltac simpl_st :=
  unfold mbind, mret, fmap, ST_bind, ST_ret, outcome_bind, outcome_ret, outcome_fmap,
    st_lift, st_get, st_modify, st_throw in *; simpl in *.

(** [case_step]: one case analysis on a [match] or [if] of the goal. *)
Ltac case_step :=
  match goal with
  | |- context [match ?x with _ => _ end] => destruct x eqn:?
  end.
