(* ===== verification/Bytes.v ===== *)
(** * Byte strings and files

    Bytes are [Z]s in [[0, 256)].  Big-endian encoding of machine integers
    ([to_be_bytes] / [from_be_bytes]), and a file as its list of bytes with the
    positional reads and writes the code performs through the file cache
    ([seek] + [write_all], [seek] + [read_exact], [set_len]). *)

From stdpp Require Import prelude gmap strings sorting fin_map_dom.
From Stdlib Require Import ZArith Lia.
From S2P Require Import Prelude.
Open Scope Z_scope.

Definition is_byte (b : Z) : Prop := 0 ≤ b < 256.

(** ** Big-endian integers *)

(** The [n] bytes of [z], most significant first: [z.to_be_bytes()]. *)
Fixpoint to_be (n : nat) (z : Z) : list Z :=
  match n with
  | O => []
  | S m => to_be m (z / 256) ++ [z mod 256]
  end.

(** [from_be_bytes]. *)
Definition from_be (l : list Z) : Z := foldl (λ acc b, acc * 256 + b) 0 l.

Definition u64_be (z : Z) : list Z := to_be 8 z.

Lemma length_to_be n z : length (to_be n z) = n.
Proof.
  revert z; induction n as [|n IH]; intros z; simpl; [done|].
  rewrite length_app, IH; simpl; lia.
Qed.

Lemma to_be_bytes n z : Forall is_byte (to_be n z).
Proof.
  revert z; induction n as [|n IH]; intros z; simpl; [constructor|].
  apply Forall_app; split; [apply IH|].
  constructor; [|constructor]. apply Z.mod_pos_bound; lia.
Qed.

Lemma from_be_snoc l b : from_be (l ++ [b]) = from_be l * 256 + b.
Proof. unfold from_be. by rewrite foldl_app. Qed.

Lemma from_be_to_be n z : from_be (to_be n z) = z mod 256 ^ Z.of_nat n.
Proof.
  revert z; induction n as [|n IH]; intros z; cbn [to_be].
  - by rewrite Z.mod_1_r.
  - rewrite from_be_snoc, IH, Nat2Z.inj_succ, Z.pow_succ_r by lia.
    rewrite (Z.rem_mul_r z 256 (256 ^ Z.of_nat n)) by lia. lia.
Qed.

Lemma from_be_u64_be z : is_u64 z → from_be (u64_be z) = z.
Proof.
  intros Hz. unfold u64_be. rewrite from_be_to_be. apply Z.mod_small. u64_lia.
Qed.

Lemma length_u64_be z : length (u64_be z) = 8%nat.
Proof. apply length_to_be. Qed.

#[global] Arguments to_be : simpl never.
#[global] Arguments u64_be : simpl never.
#[global] Arguments from_be : simpl never.

Create Rewrite HintDb bytes.
#[export] Hint Rewrite length_u64_be length_to_be : bytes.

(** ** Files *)

(** [file.set_len(n)]: truncate, or extend with zero bytes. *)
Definition set_len (n : nat) (f : list Z) : list Z :=
  take n f ++ replicate (n - length f) 0.

(** [seek(Start(pos))] then [write_all(buf)]: a write past the end extends the
    file, the gap reading as zeros. *)
Definition write_at (pos : nat) (buf f : list Z) : list Z :=
  take pos f ++ replicate (pos - length f) 0 ++ buf ++ drop (pos + length buf) f.

(** [seek(Start(pos))] then [read_exact] of [n] bytes; [None] is [UnexpectedEof]. *)
Definition read_at (pos n : nat) (f : list Z) : option (list Z) :=
  let buf := take n (drop pos f) in
  if decide (length buf = n) then Some buf else None.

(** A write of no bytes does not extend the file. *)
Definition write_all_at (pos : nat) (buf f : list Z) : list Z :=
  match buf with [] => f | _ => write_at pos buf f end.

#[global] Arguments set_len : simpl never.
#[global] Arguments write_at : simpl never.
#[global] Arguments read_at : simpl never.

Lemma length_set_len n f : length (set_len n f) = n.
Proof. unfold set_len. rewrite length_app, length_take, length_replicate. lia. Qed.

Lemma length_write_at pos buf f :
  length (write_at pos buf f) = Nat.max (length f) (pos + length buf).
Proof.
  unfold write_at. rewrite !length_app, length_take, length_replicate, length_drop. lia.
Qed.

Lemma length_write_at_inside pos buf f :
  (pos + length buf ≤ length f)%nat → length (write_at pos buf f) = length f.
Proof. rewrite length_write_at. lia. Qed.

Lemma lookup_write_at pos buf f i :
  write_at pos buf f !! i =
    if decide (i < pos)%nat then Some (default 0 (f !! i))
    else if decide (i < pos + length buf)%nat then buf !! (i - pos)%nat
    else f !! i.
Proof.
  unfold write_at. case_decide as H1; [|case_decide as H2].
  - destruct (decide (i < length f)%nat) as [Hf|Hf].
    + rewrite lookup_app_l by (rewrite length_take; lia). rewrite lookup_take_lt by lia.
      destruct (f !! i) eqn:E; [done|]. apply lookup_ge_None in E. lia.
    + rewrite lookup_app_r by (rewrite length_take; lia). rewrite length_take.
      rewrite lookup_app_l by (rewrite length_replicate; lia).
      rewrite lookup_replicate_2 by lia. by rewrite (lookup_ge_None_2 f i) by lia.
  - rewrite (app_assoc (take pos f)).
    rewrite lookup_app_r by (rewrite length_app, length_take, length_replicate; lia).
    rewrite length_app, length_take, length_replicate.
    rewrite lookup_app_l by lia. f_equal. lia.
  - rewrite (app_assoc (take pos f)).
    rewrite lookup_app_r by (rewrite length_app, length_take, length_replicate; lia).
    rewrite length_app, length_take, length_replicate.
    rewrite lookup_app_r by lia. rewrite lookup_drop. f_equal. lia.
Qed.

(** Two writes in a row are one write. *)
Lemma write_at_app pos c d f :
  write_at (pos + length c) d (write_at pos c f) = write_at pos (c ++ d) f.
Proof.
  apply list_eq. intros i. rewrite !lookup_write_at, length_app.
  repeat case_decide; try lia; try done.
  - rewrite lookup_app_l by lia. destruct (c !! (i - pos)%nat) eqn:E; [done|].
    apply lookup_ge_None in E. lia.
  - rewrite lookup_app_r by lia. f_equal. lia.
Qed.

(** What was written is what is read back. *)
Lemma read_write_same pos buf f : read_at pos (length buf) (write_at pos buf f) = Some buf.
Proof.
  unfold read_at, write_at.
  rewrite (app_assoc (take pos f)), drop_app_le by (rewrite length_app, length_take, length_replicate; lia).
  rewrite drop_ge by (rewrite length_app, length_take, length_replicate; lia).
  simpl. rewrite take_app_le by lia. rewrite take_ge by lia. by rewrite decide_True.
Qed.

Lemma read_write_len pos n buf f : length buf = n → read_at pos n (write_at pos buf f) = Some buf.
Proof. intros <-. apply read_write_same. Qed.

Lemma read_write_u64 pos z f : read_at pos 8 (write_at pos (u64_be z) f) = Some (u64_be z).
Proof. apply read_write_len, length_u64_be. Qed.

Lemma read_at_ext pos n f g :
  (∀ i, (pos ≤ i < pos + n)%nat → f !! i = g !! i) → read_at pos n f = read_at pos n g.
Proof.
  intros H. unfold read_at.
  assert (take n (drop pos f) = take n (drop pos g)) as ->; [|done].
  apply list_eq; intros i. destruct (decide (i < n)%nat).
  - rewrite !lookup_take_lt by lia. rewrite !lookup_drop. apply H; lia.
  - by rewrite !lookup_take_ge by lia.
Qed.

Lemma lookup_write_at_outside pos buf f i :
  (i < pos ∨ pos + length buf ≤ i)%nat → (pos ≤ length f)%nat →
  write_at pos buf f !! i = f !! i.
Proof.
  intros Hi Hp. unfold write_at. replace (pos - length f)%nat with 0%nat by lia. simpl.
  destruct Hi.
  - rewrite lookup_app_l by (rewrite length_take; lia). by rewrite lookup_take_lt by lia.
  - rewrite lookup_app_r by (rewrite length_take; lia). rewrite length_take.
    rewrite lookup_app_r by lia. rewrite lookup_drop. f_equal; lia.
Qed.

(** A read of a region the write does not touch sees the old bytes. *)
Lemma read_write_disjoint p n pos buf f :
  (p + n ≤ pos ∨ pos + length buf ≤ p)%nat → (pos ≤ length f)%nat →
  read_at p n (write_at pos buf f) = read_at p n f.
Proof.
  intros H1 H2. apply read_at_ext. intros i Hi.
  apply lookup_write_at_outside; lia.
Qed.

Lemma read_at_inside pos n f :
  (pos + n ≤ length f)%nat → ∃ buf, read_at pos n f = Some buf ∧ length buf = n.
Proof.
  intros H. unfold read_at. rewrite decide_True.
  - eexists; split; [done|]. rewrite length_take, length_drop. lia.
  - rewrite length_take, length_drop. lia.
Qed.

Lemma read_at_lookup pos n f buf i :
  read_at pos n f = Some buf → (i < n)%nat → f !! (pos + i)%nat = buf !! i.
Proof.
  unfold read_at. intros H Hi. case_decide; [|done]. simplify_eq.
  by rewrite lookup_take_lt, lookup_drop by lia.
Qed.
