(* ===== verification/Collections.v ===== *)
(** * Ordered and hashed collections

    A [BTreeMap<u64, V>] or [HashMap<K, V>] is a stdpp [gmap]; a [BTreeSet<u64>]
    is a [gset Z].  This file adds the ordered iteration of the B-tree
    collections ([keys], [values], [range], [first], [last]) and sums over the
    values of a map. *)

From stdpp Require Import prelude gmap strings sorting fin_map_dom.
From Stdlib Require Import ZArith Lia.
From S2P Require Import Prelude.
Open Scope Z_scope.

(** ** Ordered iteration *)

(** The elements of a [BTreeSet] in ascending order. *)
Definition bt_elements (s : gset Z) : list Z := merge_sort (≤) (elements s).

(** The keys and the values of a [BTreeMap] in ascending key order. *)
Definition bt_keys {V} (m : gmap Z V) : list Z := bt_elements (dom m).
Definition bt_values {V} (m : gmap Z V) : list V := omap (λ k, m !! k) (bt_keys m).

(** [set.range(lo..hi)]. *)
Definition bt_range (lo hi : Z) (s : gset Z) : list Z :=
  filter (λ k, lo ≤ k < hi) (bt_elements s).

Definition bt_first (s : gset Z) : option Z := list.head (bt_elements s).
Definition bt_last (s : gset Z) : option Z := list.last (bt_elements s).

Lemma bt_elements_perm s : bt_elements s ≡ₚ elements s.
Proof. apply merge_sort_Permutation. Qed.

Lemma elem_of_bt_elements s k : k ∈ bt_elements s ↔ k ∈ s.
Proof. by rewrite bt_elements_perm, elem_of_elements. Qed.

Lemma bt_elements_nodup s : NoDup (bt_elements s).
Proof. rewrite bt_elements_perm. apply NoDup_elements. Qed.

Lemma bt_elements_sorted s : StronglySorted (<) (bt_elements s).
Proof.
  assert (StronglySorted (≤) (bt_elements s)) as Hs
    by (apply StronglySorted_merge_sort; apply _).
  pose proof (bt_elements_nodup s) as Hn. revert Hs Hn.
  induction (bt_elements s) as [|x l IH]; intros Hs Hn; [constructor|].
  apply StronglySorted_inv in Hs as [Hs Hx]. apply NoDup_cons in Hn as [Hxl Hn].
  constructor; [by apply IH|].
  apply Forall_forall. intros y Hy. rewrite Forall_forall in Hx.
  specialize (Hx y Hy). destruct (decide (x = y)); [by subst|lia].
Qed.

Lemma elem_of_bt_keys {V} (m : gmap Z V) k : k ∈ bt_keys m ↔ is_Some (m !! k).
Proof. unfold bt_keys. by rewrite elem_of_bt_elements, elem_of_dom. Qed.

Lemma elem_of_bt_values {V} (m : gmap Z V) v : v ∈ bt_values m ↔ ∃ k, m !! k = Some v.
Proof.
  unfold bt_values. rewrite list_elem_of_omap. split.
  - intros (k & _ & Hk). eauto.
  - intros (k & Hk). exists k. split; [|done]. apply elem_of_bt_keys. eauto.
Qed.

Lemma elem_of_bt_range lo hi s k : k ∈ bt_range lo hi s ↔ lo ≤ k < hi ∧ k ∈ s.
Proof. unfold bt_range. by rewrite list_elem_of_filter, elem_of_bt_elements. Qed.

Lemma StronglySorted_filter {A} (R : relation A) (P : A → Prop) `{∀ x, Decision (P x)} l :
  StronglySorted R l → StronglySorted R (filter P l).
Proof.
  induction 1 as [|x l Hs IH Hx]; [constructor|]. rewrite filter_cons. case_decide; [|done].
  constructor; [done|]. apply Forall_forall. intros y [_ Hy]%list_elem_of_filter.
  rewrite Forall_forall in Hx. by apply Hx.
Qed.

Lemma bt_range_sorted lo hi s : StronglySorted (<) (bt_range lo hi s).
Proof. apply StronglySorted_filter, bt_elements_sorted. Qed.

Lemma StronglySorted_head_min l x :
  StronglySorted Z.lt l → list.head l = Some x → ∀ y, y ∈ l → x ≤ y.
Proof.
  destruct l as [|z l]; [done|]. intros [_ Hz]%StronglySorted_inv [= <-] y.
  rewrite elem_of_cons. intros [->|Hy]; [lia|]. rewrite Forall_forall in Hz.
  specialize (Hz y Hy). lia.
Qed.

Lemma StronglySorted_last_max l x :
  StronglySorted Z.lt l → list.last l = Some x → ∀ y, y ∈ l → y ≤ x.
Proof.
  induction l as [|z l IH]; [done|]. intros [Hs Hz]%StronglySorted_inv Hl y Hy.
  destruct l as [|w l].
  - simpl in Hl. simplify_eq. apply list_elem_of_singleton in Hy. lia.
  - change (list.last (w :: l) = Some x) in Hl. apply elem_of_cons in Hy as [->|Hy].
    + rewrite Forall_forall in Hz. assert (x ∈ w :: l) as Hx by by apply last_Some_elem_of.
      specialize (Hz x Hx). lia.
    + by apply IH.
Qed.

Lemma bt_first_spec s x : bt_first s = Some x → x ∈ s ∧ ∀ y, y ∈ s → x ≤ y.
Proof.
  intros H. split.
  - apply elem_of_bt_elements. unfold bt_first in H. by apply head_Some_elem_of.
  - intros y Hy. eapply StronglySorted_head_min; eauto using bt_elements_sorted.
    by apply elem_of_bt_elements.
Qed.

Lemma bt_last_spec s x : bt_last s = Some x → x ∈ s ∧ ∀ y, y ∈ s → y ≤ x.
Proof.
  intros H. split.
  - apply elem_of_bt_elements. unfold bt_last in H. by apply last_Some_elem_of.
  - intros y Hy. eapply StronglySorted_last_max; eauto using bt_elements_sorted.
    by apply elem_of_bt_elements.
Qed.

Lemma bt_last_is_Some s : s ≠ ∅ → is_Some (bt_last s).
Proof.
  intros Hs. unfold bt_last. destruct (list.last (bt_elements s)) eqn:E; [eauto|].
  apply last_None in E. exfalso. apply Hs. apply set_eq. intros x.
  rewrite <-elem_of_bt_elements, E. set_solver.
Qed.

Lemma bt_first_is_Some s : s ≠ ∅ → is_Some (bt_first s).
Proof.
  intros Hs. unfold bt_first. destruct (bt_elements s) eqn:E; [|simpl; eauto].
  exfalso. apply Hs. apply set_eq. intros x.
  rewrite <-elem_of_bt_elements, E. set_solver.
Qed.

Lemma bt_last_unique s x : x ∈ s → (∀ y, y ∈ s → y ≤ x) → bt_last s = Some x.
Proof.
  intros Hx Hmax. destruct (bt_last_is_Some s) as [z Hz]; [set_solver|].
  rewrite Hz. apply bt_last_spec in Hz as [Hzs Hzm]. f_equal.
  specialize (Hmax z Hzs). specialize (Hzm x Hx). lia.
Qed.

(** ** Sums over the values of a map *)

(** Without its first element an ordered set lists the rest. *)
Lemma bt_elements_tail s x l : bt_elements s = x :: l → bt_elements (s ∖ {[x]}) = l.
Proof.
  intros E. pose proof (bt_elements_sorted s) as Hs. pose proof (bt_elements_nodup s) as Hn.
  rewrite E in Hs, Hn. apply StronglySorted_inv in Hs as [Hs _]. apply NoDup_cons in Hn as [Hx Hn].
  apply (StronglySorted_unique_strong Z.lt); [intros; lia|apply bt_elements_sorted|done|].
  apply NoDup_Permutation; [apply bt_elements_nodup|done|]. intros y.
  rewrite elem_of_bt_elements, elem_of_difference, not_elem_of_singleton, <-elem_of_bt_elements, E, elem_of_cons.
  naive_solver.
Qed.

Section map_sum.
Context {K V : Type} `{Countable K}.
Implicit Types (m : gmap K V) (f : V → Z).

Definition map_sum (f : V → Z) (m : gmap K V) : Z :=
  map_fold (λ _ v acc, acc + f v) 0 m.

Lemma map_sum_empty f : map_sum f (∅ : gmap K V) = 0.
Proof. apply map_fold_empty. Qed.

Lemma map_sum_insert f m k v :
  m !! k = None → map_sum f (<[k:=v]> m) = map_sum f m + f v.
Proof. intros Hk. unfold map_sum. rewrite map_fold_insert_L; [done|intros; lia|done]. Qed.

Lemma map_sum_delete f m k v :
  m !! k = Some v → map_sum f m = map_sum f (delete k m) + f v.
Proof.
  intros Hk. rewrite <-(insert_delete_id m k v) at 1 by done.
  apply map_sum_insert, lookup_delete_eq.
Qed.

Lemma map_sum_update f m k v v' :
  m !! k = Some v → map_sum f (<[k:=v']> m) = map_sum f m - f v + f v'.
Proof.
  intros Hk. rewrite <-insert_delete_eq, map_sum_insert by apply lookup_delete_eq.
  rewrite (map_sum_delete f m k v Hk). lia.
Qed.

Lemma map_sum_nonneg f m : map_Forall (λ _ v, 0 ≤ f v) m → 0 ≤ map_sum f m.
Proof.
  induction m as [|k v m Hk IH] using map_ind; [by rewrite map_sum_empty|].
  rewrite map_Forall_insert by done. intros [Hv Hm].
  rewrite map_sum_insert by done. specialize (IH Hm). lia.
Qed.

Lemma map_sum_lookup_le f m k v :
  map_Forall (λ _ v, 0 ≤ f v) m → m !! k = Some v → f v ≤ map_sum f m.
Proof.
  intros Hm Hk. rewrite (map_sum_delete f m k v Hk).
  assert (0 ≤ map_sum f (delete k m)); [|lia].
  by apply map_sum_nonneg, map_Forall_delete.
Qed.

Lemma map_sum_ext f g m : map_Forall (λ _ v, f v = g v) m → map_sum f m = map_sum g m.
Proof.
  induction m as [|k v m Hk IH] using map_ind; [by rewrite !map_sum_empty|].
  rewrite map_Forall_insert by done. intros [Hv Hm].
  rewrite !map_sum_insert by done. rewrite IH by done. lia.
Qed.

(** A loop that adds up the values in any iteration order computes the sum. *)
Lemma map_sum_fold f m l :
  l ≡ₚ map_to_list m → ∀ z, foldl (λ acc '(_, v), acc + f v) z l = z + map_sum f m.
Proof.
  revert l. induction m as [|k v m Hk IH] using map_ind; intros l Hl z.
  - rewrite map_to_list_empty in Hl. apply Permutation_nil_r in Hl as ->. rewrite map_sum_empty. simpl. lia.
  - rewrite map_to_list_insert in Hl by done. rewrite map_sum_insert by done.
    assert (∀ l1 l2 : list (K * V), l1 ≡ₚ l2 → ∀ z,
      foldl (λ acc '(_, v), acc + f v) z l1 = foldl (λ acc '(_, v), acc + f v) z l2) as Hperm.
    { induction 1 as [|[? ?] ? ? ? IHp|[? ?] [? ?] ?|? ? ? ? IH1 ? IH2]; intros z'; simpl;
        [done|apply IHp|f_equal; lia|by rewrite IH1]. }
    rewrite (Hperm _ _ Hl). simpl. rewrite (IH _ (reflexivity _)). lia.
Qed.

(** Adding up over the keys, in any order. *)
Lemma map_sum_keys f m l :
  NoDup l → (∀ k, k ∈ l ↔ is_Some (m !! k)) →
  foldr Z.add 0 ((λ k, from_option f 0 (m !! k)) <$> l) = map_sum f m.
Proof.
  revert m. induction l as [|k l IH]; intros m Hn Hl.
  - assert (m = ∅) as ->; [|by rewrite map_sum_empty]. apply map_empty. intros k.
    apply eq_None_not_Some. by intros []%Hl%not_elem_of_nil.
  - apply NoDup_cons in Hn as [Hk Hn]. destruct (proj1 (Hl k)) as [v Hv]; [by left|].
    rewrite fmap_cons. cbn [foldr]. rewrite Hv, (map_sum_delete f m k v Hv), <-(IH (delete k m)).
    + simpl. rewrite Z.add_comm. f_equal. f_equal. apply list_fmap_ext. intros i j Hj%list_elem_of_lookup_2.
      rewrite lookup_delete_ne; [done|]. by intros <-.
    + done.
    + intros j. rewrite lookup_delete_is_Some, <-Hl, elem_of_cons. split; [|naive_solver].
      intros Hj. split; [by intros <-|by right].
Qed.
End map_sum.

(** ** Hash maps

    A hash map is a [gmap]; the order in which it is iterated is not specified
    by the language, so the code that depends on it is parametrised by the
    order, of which nothing is assumed but that it is a permutation. *)
Class HashIter := hash_iter : ∀ {K V : Type} `{Countable K}, gmap K V → list (K * V).
Class HashIterLaws `{HashIter} : Prop :=
  hash_iter_perm : ∀ {K V : Type} `{Countable K} (m : gmap K V), hash_iter m ≡ₚ map_to_list m.
Arguments HashIterLaws {_}.

Lemma elem_of_hash_iter `{HashIterLaws} {K V} `{Countable K} (m : gmap K V) k v :
  (k, v) ∈ hash_iter m ↔ m !! k = Some v.
Proof. rewrite hash_iter_perm. apply elem_of_map_to_list. Qed.

Lemma NoDup_fst_hash_iter `{HashIterLaws} {K V} `{Countable K} (m : gmap K V) :
  NoDup (hash_iter m).*1.
Proof. rewrite hash_iter_perm. apply NoDup_fst_map_to_list. Qed.

(** The order of stdpp's maps, and its reverse. *)
Definition std_order : HashIter := λ K V _ _ m, map_to_list m.
Lemma std_order_laws : @HashIterLaws std_order.
Proof. by intros K V ? ? m. Qed.

Lemma omap_ext_in {A B} (f g : A → option B) (l : list A) :
  (∀ x, x ∈ l → f x = g x) → omap f l = omap g l.
Proof.
  induction l as [|x l IH]; intros Hfg; csimpl; [done|].
  rewrite (Hfg x) by set_solver. rewrite IH by set_solver. done.
Qed.

Lemma filter_all {A} (P : A → Prop) `{∀ x, Decision (P x)} (l : list A) :
  (∀ x, x ∈ l → P x) → filter P l = l.
Proof.
  induction l as [|x l IH]; intros Hl; [done|].
  rewrite filter_cons_True by set_solver. f_equal. apply IH. set_solver.
Qed.

Lemma filter_none {A} (P : A → Prop) `{∀ x, Decision (P x)} (l : list A) :
  (∀ x, x ∈ l → ¬ P x) → filter P l = [].
Proof.
  induction l as [|x l IH]; intros Hl; [done|].
  rewrite filter_cons_False by (apply Hl; left). apply IH. intros y Hy. apply Hl. by right.
Qed.

(** Filters and binds that agree on the elements of a list. *)
Lemma filter_ext_in {A} (P Q : A → Prop) `{∀ x, Decision (P x)} `{∀ x, Decision (Q x)} (l : list A) :
  (∀ x, x ∈ l → P x ↔ Q x) → filter P l = filter Q l.
Proof.
  induction l as [|x l IH]; intros Hl; [done|]. rewrite !filter_cons.
  rewrite IH by (intros; apply Hl; by right). pose proof (Hl x ltac:(left)).
  do 2 case_decide; naive_solver.
Qed.

Lemma bind_ext_in {A B} (f g : A → list B) l : (∀ x, x ∈ l → f x = g x) → l ≫= f = l ≫= g.
Proof.
  induction l as [|x l IH]; intros Hl; [done|]. csimpl. rewrite (Hl x) by left.
  by rewrite IH by (intros; apply Hl; by right).
Qed.

Lemma bind_nil_in {A B} (f : A → list B) l : (∀ x, x ∈ l → f x = []) → l ≫= f = [].
Proof.
  induction l as [|x l IH]; intros Hl; [done|]. csimpl. rewrite (Hl x) by left.
  by rewrite IH by (intros; apply Hl; by right).
Qed.

(** A sorted permutation of a list in strict order is the list. *)
Lemma sorted_perm_eq {A} (f : A → Z) (l1 l2 : list A) :
  l1 ≡ₚ l2 → StronglySorted (λ x y, f x ≤ f y) l1 → StronglySorted (λ x y, f x < f y) l2 → l1 = l2.
Proof.
  revert l1. induction l2 as [|x l2 IH]; intros l1 Hp Hs1 Hs2.
  { by apply Permutation_nil_r in Hp. }
  apply StronglySorted_inv in Hs2 as [Hs2 Hx]. rewrite Forall_forall in Hx.
  destruct l1 as [|y l1]; [by apply Permutation_nil_l in Hp|].
  apply StronglySorted_inv in Hs1 as [Hs1 Hy]. rewrite Forall_forall in Hy.
  assert (y = x) as ->.
  { assert (y ∈ x :: l2) as [->|Hin]%elem_of_cons by (rewrite <- Hp; left); [done|].
    assert (x ∈ y :: l1) as [->|Hin']%elem_of_cons by (rewrite Hp; left); [done|].
    specialize (Hx y Hin). specialize (Hy x Hin'). lia. }
  f_equal. apply IH; [by apply Permutation_cons_inv in Hp|done|done].
Qed.
