(* ===== verification/Proto.v ===== *)
(** * Protobuf messages of the storage (storage/proto.rs, proto/storage.proto)

    The messages as records, the conversion between microseconds and protobuf
    timestamps, and the interface to the code that is generated by prost and to
    the CRC-64 digest, which are not part of the repository: type classes with
    the operations, and classes with the documented laws. *)

From stdpp Require Import prelude gmap strings countable.
From Stdlib Require Import Ascii ZArith Lia.
From S2P Require Import Prelude Bytes.
Open Scope Z_scope.

(** ** Messages *)

(** [google.protobuf.Timestamp]: [seconds : i64], [nanos : i32]. *)
Record Timestamp := mkTimestamp { seconds : Z; nanos : Z }.

Record Label := mkLabel { label_name : string; label_value : string }.

(** [Record.State]. *)
Inductive RecordState : Set := Started | Finished | Errored | Invalid.

Definition state_i32 (s : RecordState) : Z :=
  match s with Started => 0 | Finished => 1 | Errored => 2 | Invalid => 3 end.

Record Rec := mkRec {
  r_timestamp : option Timestamp;
  r_begin : Z;
  r_end : Z;
  r_state : Z;
  r_labels : list Label;
  r_content_type : string
}.

Record BlockProto := mkBlockProto {
  bp_begin_time : option Timestamp;
  bp_latest_record_time : option Timestamp;
  bp_size : Z;
  bp_record_count : Z;
  bp_metadata_size : Z;
  bp_records : list Rec;
  bp_version : option Z;
  bp_corrupted : option bool
}.

(** [BlockIndex.Block]: what the index keeps of a block. *)
Record BlockEntry := mkBlockEntry {
  be_block_id : Z;
  be_size : Z;
  be_record_count : Z;
  be_metadata_size : Z;
  be_latest_record_time : option Timestamp;
  be_crc64 : option Z;
  be_compression : option Z;
  be_corrupted : option bool;
  be_version : option Z
}.

Record BlockIndexProto := mkBlockIndexProto {
  bi_blocks : list BlockEntry;
  bi_crc64 : Z
}.

#[export] Instance Timestamp_eq_dec : EqDecision Timestamp.
Proof. solve_decision. Defined.
#[export] Instance Label_eq_dec : EqDecision Label.
Proof. solve_decision. Defined.
#[export] Instance Rec_eq_dec : EqDecision Rec.
Proof. solve_decision. Defined.
#[export] Instance BlockProto_eq_dec : EqDecision BlockProto.
Proof. solve_decision. Defined.
#[export] Instance BlockEntry_eq_dec : EqDecision BlockEntry.
Proof. solve_decision. Defined.
#[export] Instance BlockIndexProto_eq_dec : EqDecision BlockIndexProto.
Proof. solve_decision. Defined.

(** ** Timestamps (proto.rs) *)

(** [(ts.seconds * 1000000 + ts.nanos as i64 / 1000) as u64]: [i64] arithmetic,
    division truncating towards zero, then reinterpreted as [u64]. *)
Definition ts_to_us (ts : Timestamp) : Z :=
  u64_wrap (i64_wrap (i64_wrap (seconds ts * 1000000) + Z.quot (nanos ts) 1000)).

Definition us_to_ts (us : Z) : Timestamp :=
  mkTimestamp (i64_wrap (us / 1000000)) (i32_wrap (us mod 1000000 * 1000)).

(** The values the wire format can carry: integers within their width. *)
Definition ts_valid (ts : Timestamp) : Prop :=
  is_i64 (seconds ts) ∧ - 2 ^ 31 ≤ nanos ts < 2 ^ 31.

Lemma us_to_ts_valid us : is_u64 us → ts_valid (us_to_ts us).
Proof.
  intros Hus. unfold ts_valid, us_to_ts, is_i64, i64_wrap, i32_wrap; simpl.
  pose proof (Z.mod_pos_bound (us / 1000000 + 2 ^ 63) two64 two64_pos).
  pose proof (Z.mod_pos_bound (us mod 1000000 * 1000 + 2 ^ 31) (2 ^ 32) ltac:(lia)).
  u64_lia.
Qed.

Lemma i64_wrap_mod z : i64_wrap z mod two64 = z mod two64.
Proof.
  unfold i64_wrap. rewrite Zminus_mod_idemp_l. f_equal. lia.
Qed.

Lemma ts_to_us_range ts : is_u64 (ts_to_us ts).
Proof. apply u64_wrap_range. Qed.

(** Every [u64] number of microseconds survives the trip through a protobuf
    timestamp, also those whose [i64] products wrap around. *)
Lemma ts_us_roundtrip us : is_u64 us → ts_to_us (us_to_ts us) = us.
Proof.
  intros Hus. unfold ts_to_us, us_to_ts; simpl. unfold u64_wrap.
  rewrite i64_wrap_mod. rewrite <-Zplus_mod_idemp_l, i64_wrap_mod, Zplus_mod_idemp_l.
  assert (0 ≤ us mod 1000000 < 1000000) as Hm by (apply Z.mod_pos_bound; lia).
  assert (0 ≤ us / 1000000 < 2 ^ 45) as Hd.
  { split; [apply Z.div_pos; u64_lia|apply Z.div_lt_upper_bound; u64_lia]. }
  assert (i64_wrap (us / 1000000) = us / 1000000) as ->.
  { unfold i64_wrap. rewrite Z.mod_small by u64_lia. lia. }
  assert (i32_wrap (us mod 1000000 * 1000) = us mod 1000000 * 1000) as ->.
  { unfold i32_wrap. rewrite Z.mod_small by lia. lia. }
  rewrite Z.quot_div_nonneg, Z.div_mul by lia.
  rewrite Z.mul_comm, <-Z.div_mod by lia. by apply Z.mod_small.
Qed.

#[export] Hint Resolve ts_to_us_range : u64.

(** ** Generated code and CRC *)

(** Validity of UTF-8 (what a Rust [String] holds): the bytes of each code point
    have the shape and the range of its length. *)
Definition is_cont (c : ascii) : bool :=
  let n := nat_of_ascii c in (128 <=? n)%nat && (n <=? 191)%nat.

Fixpoint utf8 (s : string) : bool :=
  match s with
  | EmptyString => true
  | String a s1 =>
      let n := nat_of_ascii a in
      if (n <=? 127)%nat then utf8 s1
      else
        match s1 with
        | String b s2 =>
            if (194 <=? n)%nat && (n <=? 223)%nat then is_cont b && utf8 s2
            else
              match s2 with
              | String c s3 =>
                  let m := nat_of_ascii b in
                  if (n =? 224)%nat then is_cont b && (160 <=? m)%nat && is_cont c && utf8 s3
                  else if (n =? 237)%nat then is_cont b && (m <=? 159)%nat && is_cont c && utf8 s3
                  else if (225 <=? n)%nat && (n <=? 239)%nat
                       then is_cont b && is_cont c && utf8 s3
                  else
                    match s3 with
                    | String d s4 =>
                        let tail := is_cont b && is_cont c && is_cont d && utf8 s4 in
                        if (n =? 240)%nat then (144 <=? m)%nat && tail
                        else if (241 <=? n)%nat && (n <=? 243)%nat then tail
                        else (n =? 244)%nat && (m <=? 143)%nat && tail
                    | EmptyString => false
                    end
              | EmptyString => false
              end
        | EmptyString => false
        end
  end.

Definition label_valid (l : Label) : Prop :=
  utf8 (label_name l) = true ∧ utf8 (label_value l) = true.

(** Messages whose fields have the widths of the generated structs. *)
Definition rec_valid (r : Rec) : Prop :=
  (∀ ts, r_timestamp r = Some ts → ts_valid ts) ∧ is_u64 (r_begin r) ∧
  is_u64 (r_end r) ∧ - 2 ^ 31 ≤ r_state r < 2 ^ 31 ∧
  Forall label_valid (r_labels r) ∧ utf8 (r_content_type r) = true.
Definition entry_valid (e : BlockEntry) : Prop :=
  is_u64 (be_block_id e) ∧ is_u64 (be_size e) ∧ is_u64 (be_record_count e) ∧
  is_u64 (be_metadata_size e) ∧
  (∀ ts, be_latest_record_time e = Some ts → ts_valid ts) ∧
  (∀ c, be_crc64 e = Some c → is_u64 c) ∧
  (∀ c, be_compression e = Some c → - 2 ^ 31 ≤ c < 2 ^ 31) ∧
  (∀ v, be_version e = Some v → is_u64 v).

Definition block_valid (b : BlockProto) : Prop :=
  (∀ ts, bp_begin_time b = Some ts → ts_valid ts) ∧
  (∀ ts, bp_latest_record_time b = Some ts → ts_valid ts) ∧
  is_u64 (bp_size b) ∧ is_u64 (bp_record_count b) ∧ is_u64 (bp_metadata_size b) ∧
  Forall rec_valid (bp_records b) ∧ (∀ v, bp_version b = Some v → is_u64 v).

(** [prost::Message::encode_to_vec] and [decode] of the generated messages.
    [encoded_len] is the length of the encoding. *)
Class Prost := {
  encode_record : Rec → list Z;
  decode_record : list Z → option Rec;
  encode_block : BlockProto → list Z;
  decode_block : list Z → option BlockProto;
  encode_index : BlockIndexProto → list Z;
  decode_index : list Z → option BlockIndexProto
}.

Definition encoded_len `{Prost} (r : Rec) : Z := Z.of_nat (length (encode_record r)).

(** Decoding inverts encoding on valid messages, and encodings are bytes. *)
Class ProstLaws `{Prost} : Prop := {
  decode_encode_record r : rec_valid r → decode_record (encode_record r) = Some r;
  encode_record_bytes r : Forall is_byte (encode_record r);
  decode_encode_block b : block_valid b → decode_block (encode_block b) = Some b;
  decode_encode_index i :
    Forall entry_valid (bi_blocks i) → is_u64 (bi_crc64 i) → decode_index (encode_index i) = Some i
}.
Arguments ProstLaws {_}.

(** [crc64fast::Digest]: [sum64] of the bytes written so far. *)
Class Crc64 := crc64 : list Z → Z.
Class Crc64Laws `{Crc64} : Prop := crc64_range l : is_u64 (crc64 l).
Arguments Crc64Laws {_}.

Lemma encoded_len_nonneg `{Prost} r : 0 ≤ encoded_len r.
Proof. unfold encoded_len. lia. Qed.

(** ** Instances used to evaluate the model

    A codec for any countable type (the bits of its code, one per byte), and a
    digest that is position dependent.  They serve the concrete evaluations;
    nothing is proved about prost's own encoding. *)
Module Toy.
Fixpoint bits (p : positive) : list Z :=
  match p with
  | xH => []
  | xO q => 0 :: bits q
  | xI q => 1 :: bits q
  end.

Fixpoint unbits (l : list Z) : positive :=
  match l with
  | [] => xH
  | b :: l' => if b =? 0 then xO (unbits l') else xI (unbits l')
  end.

Lemma unbits_bits p : unbits (bits p) = p.
Proof. induction p as [p IH|p IH|]; simpl; by rewrite ?IH. Qed.

Lemma bits_bytes p : Forall is_byte (bits p).
Proof. induction p; simpl; constructor; try done; unfold is_byte; lia. Qed.

Definition enc {A} `{Countable A} (a : A) : list Z := bits (encode a).
Definition dec {A} `{Countable A} (l : list Z) : option A := decode (unbits l).

Lemma dec_enc {A} `{Countable A} (a : A) : dec (enc a) = Some a.
Proof. unfold dec, enc. by rewrite unbits_bits, decode_encode. Qed.

#[export] Instance Timestamp_countable : Countable Timestamp.
Proof.
  refine (inj_countable' (λ t, (seconds t, nanos t)) (λ '(s, n), mkTimestamp s n) _).
  by intros [].
Defined.
#[export] Instance Label_countable : Countable Label.
Proof.
  refine (inj_countable' (λ l, (label_name l, label_value l)) (λ '(n, v), mkLabel n v) _).
  by intros [].
Defined.
#[export] Instance Rec_countable : Countable Rec.
Proof.
  refine (inj_countable'
    (λ r, (r_timestamp r, r_begin r, r_end r, r_state r, r_labels r, r_content_type r))
    (λ '(t, b, e, s, l, c), mkRec t b e s l c) _).
  by intros [].
Defined.
#[export] Instance BlockProto_countable : Countable BlockProto.
Proof.
  refine (inj_countable'
    (λ b, (bp_begin_time b, bp_latest_record_time b, bp_size b, bp_record_count b,
           bp_metadata_size b, bp_records b, bp_version b, bp_corrupted b))
    (λ '(t, l, s, c, m, r, v, k), mkBlockProto t l s c m r v k) _).
  by intros [].
Defined.
#[export] Instance BlockEntry_countable : Countable BlockEntry.
Proof.
  refine (inj_countable'
    (λ b, (be_block_id b, be_size b, be_record_count b, be_metadata_size b,
           be_latest_record_time b, be_crc64 b, be_compression b, be_corrupted b, be_version b))
    (λ '(i, s, c, m, l, r, p, k, v), mkBlockEntry i s c m l r p k v) _).
  by intros [].
Defined.
#[export] Instance BlockIndexProto_countable : Countable BlockIndexProto.
Proof.
  refine (inj_countable' (λ b, (bi_blocks b, bi_crc64 b)) (λ '(l, c), mkBlockIndexProto l c) _).
  by intros [].
Defined.

Definition prost : Prost := {|
  encode_record := enc; decode_record := dec;
  encode_block := enc; decode_block := dec;
  encode_index := enc; decode_index := dec |}.

Lemma prost_laws : @ProstLaws prost.
Proof.
  split; intros; try apply dec_enc. apply bits_bytes.
Qed.

Definition digest : Crc64 := λ l, u64_wrap (foldl (λ acc b, u64_wrap (acc * 31 + b + 7)) 0 l).

Lemma digest_laws : @Crc64Laws digest.
Proof. intros l. apply u64_wrap_range. Qed.
End Toy.
