(* ===== verification/Block.v ===== *)
(** * Blocks (storage/block_manager/block.rs)

    A block groups the records of a time span; its [record_index] maps a
    record's timestamp (in microseconds) to the record's metadata, and the
    counters [size], [record_count] and [metadata_size] summarise it. *)

From stdpp Require Import prelude gmap strings sorting fin_map_dom.
From Stdlib Require Import ZArith Lia.
From S2P Require Import Prelude Bytes Collections Proto.
Open Scope Z_scope.

Record Block := mkBlock {
  block_id : Z;
  size : Z;
  record_count : Z;
  metadata_size : Z;
  record_index : gmap Z Rec
}.

#[export] Instance Block_eq_dec : EqDecision Block.
Proof. solve_decision. Defined.

Section Block.
Context `{Prost}.

(** [Block::new]. *)
Definition block_new (id : Z) : Block := mkBlock id 0 0 0 ∅.

(** Content length of a record, [record.end - record.begin]. *)
Definition rec_len (r : Rec) : Z := u64_sub (r_end r) (r_begin r).

(** [ts_to_us(&record.timestamp.unwrap())]. *)
Definition rec_time (r : Rec) : outcome Z := ts_to_us <$> unwrap (r_timestamp r).

(** [Block::insert_or_update_record]. *)
Definition insert_or_update_record (b : Block) (r : Rec) : outcome Block :=
  k ← rec_time r;
  match record_index b !! k with
  | Some existing =>
      let size1 := u64_sub (size b) (rec_len existing) in
      let meta1 := u64_sub (metadata_size b) (metadata_size b `min` encoded_len existing) in
      Ok (mkBlock (block_id b)
            (u64_add size1 (rec_len r))
            (record_count b)
            (u64_add meta1 (encoded_len r))
            (<[k := r]> (record_index b)))
  | None =>
      Ok (mkBlock (block_id b)
            (u64_add (size b) (rec_len r))
            (u64_add (record_count b) 1)
            (u64_add (metadata_size b) (encoded_len r))
            (<[k := r]> (record_index b)))
  end.

(** [Block::get_record]. *)
Definition get_record (b : Block) (t : Z) : option Rec := record_index b !! t.

(** [Block::remove_record]. *)
Definition remove_record (b : Block) (t : Z) : option Rec * Block :=
  match record_index b !! t with
  | Some r =>
      (Some r,
       mkBlock (block_id b)
         (u64_sub (size b) (rec_len r))
         (u64_sub (record_count b) 1)
         (u64_sub (metadata_size b) (metadata_size b `min` encoded_len r))
         (delete t (record_index b)))
  | None => (None, b)
  end.

(** [Block::latest_record_time]: the greatest key, 0 for an empty block. *)
Definition latest_record_time (b : Block) : Z :=
  default 0 (bt_last (dom (record_index b))).

Definition with_record_index (b : Block) (m : gmap Z Rec) : Block :=
  mkBlock (block_id b) (size b) (record_count b) (metadata_size b) m.

Definition with_state (s : Z) (r : Rec) : Rec :=
  mkRec (r_timestamp r) (r_begin r) (r_end r) s (r_labels r) (r_content_type r).

(** [Block::change_record_state]. *)
Definition change_record_state (b : Block) (t s : Z) : outcome Block :=
  match record_index b !! t with
  | Some r => Ok (with_record_index b (<[t := with_state s r]> (record_index b)))
  | None => Err NotFound
  end.

(** [impl From<Block> for BlockProto]. *)
Definition block_to_proto (b : Block) : BlockProto :=
  mkBlockProto (Some (us_to_ts (block_id b))) (Some (us_to_ts (latest_record_time b)))
    (size b) (record_count b) (metadata_size b) (bt_values (record_index b)) None None.

(** The loop of [impl From<BlockProto> for Block]. *)
Fixpoint index_records (l : list Rec) (m : gmap Z Rec) : outcome (gmap Z Rec) :=
  match l with
  | [] => Ok m
  | r :: l' => k ← rec_time r; index_records l' (<[k := r]> m)
  end.

(** [impl From<BlockProto> for Block]. *)
Definition block_from_proto (p : BlockProto) : outcome Block :=
  m ← index_records (bp_records p) ∅;
  bt ← unwrap (bp_begin_time p);
  Ok (mkBlock (ts_to_us bt) (bp_size p) (bp_record_count p) (bp_metadata_size p) m).

(** ** Invariant *)

(** The counters describe the index: every key is its record's timestamp,
    records do not end before they begin, [size] is the sum of the content
    lengths and [record_count] the number of records, all without wrapping. *)
Record block_wf (b : Block) : Prop := {
  wf_id : is_u64 (block_id b);
  wf_keys : map_Forall (λ k r, rec_time r = Ok k) (record_index b);
  wf_records : map_Forall (λ _ r, 0 ≤ r_begin r ≤ r_end r ∧ r_end r < two64) (record_index b);
  wf_size : size b = map_sum rec_len (record_index b);
  wf_size_bound : is_u64 (size b);
  wf_count : record_count b = Z.of_nat (base.size (record_index b));
  wf_count_bound : is_u64 (record_count b);
  wf_meta : is_u64 (metadata_size b)
}.

Lemma rec_len_range r : is_u64 (rec_len r).
Proof. apply u64_sub_range. Qed.

Lemma rec_len_exact r : 0 ≤ r_begin r ≤ r_end r → r_end r < two64 → rec_len r = r_end r - r_begin r.
Proof. intros ? ?. apply u64_sub_small. lia. Qed.

Lemma rec_len_all_nonneg (m : gmap Z Rec) : map_Forall (λ _ r, 0 ≤ rec_len r) m.
Proof. intros k r _. apply rec_len_range. Qed.

Lemma block_new_wf id : is_u64 id → block_wf (block_new id).
Proof.
  intros. split; simpl; try done; try (apply map_Forall_empty); by rewrite ?map_sum_empty.
Qed.

Lemma rec_time_with_state s r : rec_time (with_state s r) = rec_time r.
Proof. done. Qed.

Lemma rec_time_range r k : rec_time r = Ok k → is_u64 k.
Proof.
  unfold rec_time. destruct (r_timestamp r); simpl; [|done]. intros [= <-]. apply ts_to_us_range.
Qed.

(** The size of a well-formed block never falls below a record of it. *)
Lemma wf_lookup_size b t r : block_wf b → record_index b !! t = Some r → rec_len r ≤ size b.
Proof. intros Hwf Hr. rewrite (wf_size b Hwf). eapply map_sum_lookup_le; eauto using rec_len_all_nonneg. Qed.

Lemma wf_lookup_count b t r : block_wf b → record_index b !! t = Some r → 0 < record_count b.
Proof.
  intros Hwf Hr. rewrite (wf_count b Hwf).
  enough (base.size (record_index b) ≠ 0%nat) by lia.
  intros E%map_size_empty_iff. rewrite E in Hr. by rewrite lookup_empty in Hr.
Qed.
(** ** Operations on well-formed blocks *)

(** What a record must satisfy to be added without wrapping the counters. *)
Definition fits (b : Block) (r : Rec) : Prop :=
  0 ≤ r_begin r ≤ r_end r ∧ r_end r < two64 ∧
  size b + (r_end r - r_begin r) < two64 ∧ record_count b + 1 < two64.

(** The content length already stored under a timestamp. *)
Definition stored_len (b : Block) (k : Z) : Z := from_option rec_len 0 (record_index b !! k).

(** Inserting or updating succeeds, stores exactly the record under its
    timestamp, and moves [size] by the difference of the content lengths. *)
Lemma insert_or_update_record_spec b r k :
  block_wf b → rec_time r = Ok k → fits b r →
  ∃ b', insert_or_update_record b r = Ok b' ∧ block_wf b' ∧ block_id b' = block_id b ∧
    record_index b' = <[k := r]> (record_index b) ∧
    size b' = size b - stored_len b k + (r_end r - r_begin r).
Proof.
  intros Hwf Hk (Hr1 & Hr2 & Hs & Hc). unfold insert_or_update_record, stored_len. rewrite Hk; simpl.
  pose proof (wf_size_bound b Hwf) as Hsb. pose proof (wf_count_bound b Hwf) as Hcb.
  pose proof (rec_len_exact r Hr1 Hr2) as Hlen.
  assert (map_Forall (λ k r, rec_time r = Ok k) (<[k := r]> (record_index b))) as Hkeys.
  { apply map_Forall_insert_2; [done|]. apply wf_keys, Hwf. }
  assert (map_Forall (λ _ r, 0 ≤ r_begin r ≤ r_end r ∧ r_end r < two64)
            (<[k := r]> (record_index b))) as Hrecs.
  { apply map_Forall_insert_2; [done|]. apply wf_records, Hwf. }
  destruct (record_index b !! k) as [old|] eqn:E; simpl.
  - pose proof (wf_lookup_size b k old Hwf E) as Hold. pose proof (rec_len_range old) as Holdr.
    assert (u64_add (u64_sub (size b) (rec_len old)) (rec_len r)
              = size b - rec_len old + (r_end r - r_begin r)) as Hsize.
    { rewrite u64_sub_small by u64_lia. rewrite u64_add_small by u64_lia. lia. }
    eexists; split_and!; [done| |done|done|done].
    split; simpl; try done; rewrite ?Hsize; auto with u64; try apply Hwf.
    + rewrite (map_sum_update _ _ _ old) by done. rewrite <-(wf_size b Hwf). lia.
    + u64_lia.
    + rewrite map_size_insert_Some by eauto. apply Hwf.
  - assert (u64_add (size b) (rec_len r) = size b + (r_end r - r_begin r)) as Hsize.
    { rewrite u64_add_small by u64_lia. lia. }
    eexists; split_and!; [done| |done|done|simpl; lia].
    split; simpl; try done; rewrite ?Hsize; auto with u64; try apply Hwf.
    + rewrite map_sum_insert by done. rewrite <-(wf_size b Hwf). lia.
    + u64_lia.
    + rewrite map_size_insert_None by done. rewrite u64_add_small by u64_lia.
      rewrite (wf_count b Hwf). lia.
Qed.

(** Removing returns what was stored, keeps the other records, and takes its
    length off [size]; removing a missing timestamp changes nothing. *)
Lemma remove_record_spec b t :
  block_wf b →
  let '(o, b') := remove_record b t in
  o = get_record b t ∧ block_wf b' ∧ block_id b' = block_id b ∧
  record_index b' = delete t (record_index b) ∧
  size b' = size b - stored_len b t ∧
  record_count b' = record_count b - (match get_record b t with Some _ => 1 | None => 0 end).
Proof.
  intros Hwf. unfold remove_record, get_record, stored_len.
  destruct (record_index b !! t) as [r|] eqn:E; simpl.
  - pose proof (wf_lookup_size b t r Hwf E). pose proof (wf_lookup_count b t r Hwf E).
    pose proof (rec_len_range r). pose proof (wf_size_bound b Hwf). pose proof (wf_count_bound b Hwf).
    assert (u64_sub (size b) (rec_len r) = size b - rec_len r) as Hsize
      by (apply u64_sub_small; u64_lia).
    assert (u64_sub (record_count b) 1 = record_count b - 1) as Hcount
      by (apply u64_sub_small; u64_lia).
    split_and!; try done. split; simpl; try apply Hwf; rewrite ?Hsize, ?Hcount; auto with u64.
    + apply map_Forall_delete, Hwf.
    + apply map_Forall_delete, Hwf.
    + rewrite (wf_size b Hwf), (map_sum_delete _ _ t r E). lia.
    + u64_lia.
    + rewrite (wf_count b Hwf), map_size_delete_Some by eauto.
      enough (base.size (record_index b) ≠ 0%nat) by lia.
      rewrite (wf_count b Hwf) in *. lia.
    + u64_lia.
  - split_and!; try done; try lia. by rewrite delete_id.
Qed.

(** Changing a state touches nothing but that record's state. *)
Lemma change_record_state_spec b t s r :
  block_wf b → get_record b t = Some r →
  ∃ b', change_record_state b t s = Ok b' ∧ block_wf b' ∧ block_id b' = block_id b ∧
    record_index b' = <[t := with_state s r]> (record_index b) ∧
    size b' = size b ∧ record_count b' = record_count b.
Proof.
  unfold get_record, change_record_state. intros Hwf Hr. rewrite Hr.
  eexists; split_and!; [done| |done|done|done|done].
  pose proof (wf_keys b Hwf t r Hr) as Hk. pose proof (wf_records b Hwf t r Hr) as Hrr.
  split; simpl; try apply Hwf.
  - apply map_Forall_insert_2; [done|apply Hwf].
  - apply map_Forall_insert_2; [done|apply Hwf].
  - rewrite (map_sum_update _ _ _ r) by done. rewrite <-(wf_size b Hwf).
    replace (rec_len (with_state s r)) with (rec_len r) by done. lia.
  - rewrite map_size_insert_Some by eauto. apply Hwf.
Qed.

(** ** Descriptor conversion *)

Lemma index_records_omap (m : gmap Z Rec) ks m0 :
  map_Forall (λ k r, rec_time r = Ok k) m →
  ∃ m', index_records (omap (λ k, m !! k) ks) m0 = Ok m' ∧
    (∀ i r, i ∈ ks → m !! i = Some r → m' !! i = Some r) ∧
    (∀ i, i ∉ ks ∨ m !! i = None → m' !! i = m0 !! i).
Proof.
  intros Hm. revert m0. induction ks as [|k ks IH]; intros m0; simpl.
  - exists m0. split_and!; [done| |done]. by intros i r ?%not_elem_of_nil.
  - destruct (m !! k) as [r|] eqn:E; simpl.
    + rewrite (Hm k r E). simpl. destruct (IH (<[k := r]> m0)) as (m' & Heq & H1 & H2).
      exists m'. split_and!; [exact Heq| |].
      * intros i r' Hi Hr'. destruct (decide (i ∈ ks)); [by eapply H1|].
        rewrite H2 by auto. assert (i = k) as -> by set_solver.
        rewrite lookup_insert_eq. congruence.
      * intros i Hi. rewrite H2 by set_solver. rewrite lookup_insert_ne; [done|].
        intros ->. destruct Hi as [Hi|Hi]; [set_solver|congruence].
    + destruct (IH m0) as (m' & Heq & H1 & H2). exists m'. split_and!; [exact Heq| |].
      * intros i r Hi Hr. apply H1; [|done]. apply elem_of_cons in Hi as [->|]; congruence.
      * intros i Hi. apply H2. set_solver.
Qed.

Lemma index_records_bt_values (m : gmap Z Rec) :
  map_Forall (λ k r, rec_time r = Ok k) m → index_records (bt_values m) ∅ = Ok m.
Proof.
  intros Hm. destruct (index_records_omap m (bt_keys m) ∅ Hm) as (m' & Hm' & H1 & H2).
  unfold bt_values. rewrite Hm'. f_equal. apply map_eq. intros i.
  destruct (m !! i) as [r|] eqn:E.
  - apply H1; [|done]. apply elem_of_bt_keys. eauto.
  - rewrite H2 by auto. apply lookup_empty.
Qed.

Lemma block_proto_roundtrip b : block_wf b → block_from_proto (block_to_proto b) = Ok b.
Proof.
  intros Hwf. unfold block_from_proto, block_to_proto; simpl.
  rewrite index_records_bt_values by apply Hwf. simpl.
  rewrite ts_us_roundtrip by apply Hwf. by destruct b.
Qed.

(** The latest record time is the greatest timestamp of the index. *)
Lemma latest_record_time_max b t :
  is_Some (record_index b !! t) → t ≤ latest_record_time b.
Proof.
  intros Ht. unfold latest_record_time.
  assert (t ∈ dom (record_index b)) as Hd by by apply elem_of_dom.
  destruct (bt_last_is_Some (dom (record_index b))) as [x Hx]; [set_solver|].
  rewrite Hx; simpl. apply bt_last_spec in Hx as [_ Hx]. by apply Hx.
Qed.

Lemma latest_record_time_elem b :
  record_index b ≠ ∅ → is_Some (record_index b !! latest_record_time b).
Proof.
  intros Hne. unfold latest_record_time.
  destruct (bt_last_is_Some (dom (record_index b))) as [x Hx].
  { intros Hd. apply Hne. by apply dom_empty_inv_L in Hd. }
  rewrite Hx; simpl. apply bt_last_spec in Hx as [Hx _]. by apply elem_of_dom in Hx.
Qed.
(** ** Properties *)

(** The operations on a block, as steps. *)
Inductive block_step (b : Block) : Block → Prop :=
| step_insert r b' :
    fits b r → insert_or_update_record b r = Ok b' → block_step b b'
| step_remove t : block_step b (remove_record b t).2
| step_state t s b' : change_record_state b t s = Ok b' → block_step b b'.

Lemma block_step_wf b b' : block_wf b → block_step b b' → block_wf b'.
Proof.
  intros Hwf [r b1 Hf Hi|t|t s b1 Hc].
  - destruct (rec_time r) as [k| |] eqn:Hk; [|unfold insert_or_update_record in Hi; by rewrite Hk in Hi..].
    destruct (insert_or_update_record_spec b r k Hwf Hk Hf) as (b2 & Hb2 & Hwf2 & _). congruence.
  - pose proof (remove_record_spec b t Hwf) as Hs. destruct (remove_record b t). apply Hs.
  - unfold change_record_state in Hc. destruct (record_index b !! t) as [r|] eqn:Hr; [|done].
    destruct (change_record_state_spec b t s r Hwf Hr) as (b2 & Hb2 & Hwf2 & _).
    unfold change_record_state in Hb2. rewrite Hr in Hb2. congruence.
Qed.

(** The counters of a block describe its records.  Whatever insertions (of
    records that fit), removals and state changes a new block goes through,
    [record_count] is the number of records, [size] the sum of their content
    lengths (no wrap-around, no drift), and every record is filed under its own
    timestamp. *)
Theorem block_counters_exact (id : Z) (b : Block) :
  is_u64 id → rtc block_step (block_new id) b →
  record_count b = Z.of_nat (base.size (record_index b)) ∧
  size b = map_sum (λ r, r_end r - r_begin r) (record_index b) ∧
  map_Forall (λ k r, rec_time r = Ok k) (record_index b).
Proof.
  intros Hid Hrtc. assert (block_wf b) as Hwf.
  { revert Hrtc. generalize (block_new_wf id Hid). generalize (block_new id).
    intros b0 Hb0 Hrtc. induction Hrtc; eauto using block_step_wf. }
  split_and!; [apply Hwf| |apply Hwf]. rewrite (wf_size b Hwf). apply map_sum_ext.
  intros k r Hr. destruct (wf_records b Hwf k r Hr). by apply rec_len_exact.
Qed.

(** Inserting a record into a well-formed block always succeeds; the record
    replaces the one with the same timestamp if there is one and leaves all the
    others as they are; the count grows only for a new timestamp. *)
Theorem insert_or_update_correct (b : Block) (r : Rec) (k : Z) :
  block_wf b → rec_time r = Ok k → fits b r →
  ∃ b', insert_or_update_record b r = Ok b' ∧
    get_record b' k = Some r ∧
    (∀ t, t ≠ k → get_record b' t = get_record b t) ∧
    record_count b' = record_count b + (match get_record b k with Some _ => 0 | None => 1 end).
Proof.
  intros Hwf Hk Hf. destruct (insert_or_update_record_spec b r k Hwf Hk Hf) as (b' & Hb' & Hwf' & _ & Hix & _).
  exists b'. unfold get_record. rewrite Hix. split_and!; [done|apply lookup_insert_eq| |].
  - intros t Ht. by rewrite lookup_insert_ne.
  - rewrite (wf_count b' Hwf'), (wf_count b Hwf), Hix.
    destruct (record_index b !! k) eqn:E.
    + rewrite map_size_insert_Some by eauto. lia.
    + rewrite map_size_insert_None by done. lia.
Qed.

Lemma latest_record_time_range b : block_wf b → is_u64 (latest_record_time b).
Proof.
  intros Hwf. unfold latest_record_time.
  destruct (bt_last (dom (record_index b))) as [x|] eqn:E; simpl; [|u64_lia].
  apply bt_last_spec in E as [[r Hr]%elem_of_dom _]. eapply rec_time_range, (wf_keys b Hwf x r Hr).
Qed.

Lemma block_to_proto_valid b :
  block_wf b → map_Forall (λ _ r, rec_valid r) (record_index b) → block_valid (block_to_proto b).
Proof.
  intros Hwf Hv. unfold block_valid, block_to_proto; simpl. split_and!; try apply Hwf; try done.
  - intros ts [= <-]. apply us_to_ts_valid, Hwf.
  - intros ts [= <-]. by apply us_to_ts_valid, latest_record_time_range.
  - apply Forall_forall. intros r [k Hr]%elem_of_bt_values. by apply (Hv k).
Qed.

(** A block survives its descriptor: encoding a well-formed block, decoding
    the bytes and rebuilding the index gives back the block. *)
Theorem block_descriptor_roundtrip `{!ProstLaws} (b : Block) :
  block_wf b → map_Forall (λ _ r, rec_valid r) (record_index b) →
  (p ← ok_or InternalServerError (decode_block (encode_block (block_to_proto b)));
   block_from_proto p) = Ok b.
Proof.
  intros Hwf Hv. rewrite decode_encode_block by by apply block_to_proto_valid.
  by apply block_proto_roundtrip.
Qed.
End Block.

(** ** Witnesses *)
Section Witnesses.
Existing Instance Toy.prost.
Existing Instance Toy.prost_laws.

Definition rec_at (t b e : Z) : Rec :=
  mkRec (Some (us_to_ts t)) b e (state_i32 Finished) [mkLabel "k" "v"] "text/plain".

Definition demo_block : Block :=
  mkBlock 100 7 1 (encoded_len (rec_at 100 0 7)) {[ 100 := rec_at 100 0 7 ]}.

Lemma demo_block_wf : block_wf demo_block.
Proof.
  split; cbn [demo_block block_id size record_count metadata_size record_index].
  - u64_lia.
  - by apply map_Forall_singleton.
  - apply map_Forall_singleton. cbn. u64_lia.
  - reflexivity.
  - u64_lia.
  - reflexivity.
  - u64_lia.
  - split; vm_compute; congruence.
Qed.

Lemma block_counters_exact_witness :
  ∃ b, rtc block_step (block_new 100) b ∧
    record_count b = Z.of_nat (base.size (record_index b)) ∧ get_record b 100 = Some (rec_at 100 0 7).
Proof.
  assert (fits (block_new 100) (rec_at 100 0 7)) as Hf by (vm_compute; repeat split; congruence).
  destruct (insert_or_update_record (block_new 100) (rec_at 100 0 7)) as [b| |] eqn:E;
    [|by vm_compute in E..].
  assert (rtc block_step (block_new 100) b) as Hs by (eapply rtc_once, step_insert; eassumption).
  exists b. split; [exact Hs|]. split.
  - exact (proj1 (block_counters_exact 100 b ltac:(u64_lia) Hs)).
  - vm_compute in E. injection E as <-. reflexivity.
Defined.

Lemma insert_or_update_correct_witness :
  block_wf demo_block ∧ ∃ b', insert_or_update_record demo_block (rec_at 200 7 9) = Ok b' ∧
    get_record b' 200 = Some (rec_at 200 7 9).
Proof.
  split; [exact demo_block_wf|].
  destruct (insert_or_update_correct demo_block (rec_at 200 7 9) 200 demo_block_wf eq_refl)
    as (b' & H1 & H2 & _); [vm_compute; repeat split; congruence|].
  exists b'. split; [exact H1|exact H2].
Defined.

Lemma block_descriptor_roundtrip_witness :
  (p ← ok_or InternalServerError (decode_block (encode_block (block_to_proto demo_block)));
   block_from_proto p) = Ok demo_block.
Proof.
  apply block_descriptor_roundtrip; [exact demo_block_wf|].
  apply map_Forall_singleton. split_and!; cbn [rec_at r_timestamp r_begin r_end r_state state_i32];
    try u64_lia; try reflexivity.
  - intros ts [= <-]. apply us_to_ts_valid. u64_lia.
  - by repeat constructor.
Defined.
End Witnesses.
