(* ===== verification/BlockIndex.v ===== *)
(** * The block index of an entry (storage/block_manager/block_index.rs)

    [index_info] keeps a summary of every block, [index] the ordered set of the
    block ids.  The file [blocks.idx] holds the summaries with a CRC. *)

From stdpp Require Import prelude gmap strings sorting fin_map_dom.
From Stdlib Require Import Ascii ZArith Lia.
From S2P Require Import Prelude Bytes Collections Proto Block.
Open Scope Z_scope.

(** [path_buf] is an argument of the operations that do I/O. *)
Record BlockIndex := mkBlockIndex {
  index_info : gmap Z BlockEntry;
  index : gset Z
}.

(** [MinimalBlock]: a descriptor decoded without its records. *)
Record MinimalBlock := mkMinimalBlock {
  mb_begin_time : option Timestamp;
  mb_latest_record_time : option Timestamp;
  mb_size : Z;
  mb_record_count : Z;
  mb_metadata_size : Z;
  mb_version : option Z;
  mb_corrupted : option bool
}.

(** [T: Into<BlockEntry>]; the conversion panics on a missing begin time. *)
Class IntoBlockEntry (T : Type) := into_entry : T → outcome BlockEntry.

#[export] Instance minimal_into_entry : IntoBlockEntry MinimalBlock := λ b,
  bt ← unwrap (mb_begin_time b);
  Ok (mkBlockEntry (ts_to_us bt) (mb_size b) (mb_record_count b) (mb_metadata_size b)
        (mb_latest_record_time b) None None (mb_corrupted b) (mb_version b)).

#[export] Instance proto_into_entry : IntoBlockEntry BlockProto := λ b,
  bt ← unwrap (bp_begin_time b);
  Ok (mkBlockEntry (ts_to_us bt) (bp_size b) (bp_record_count b) (bp_metadata_size b)
        (bp_latest_record_time b) None None (bp_corrupted b) (bp_version b)).

#[export] Instance block_into_entry : IntoBlockEntry Block := λ b,
  Ok (mkBlockEntry (block_id b) (size b) (record_count b) (metadata_size b)
        (Some (us_to_ts (latest_record_time b))) None None None None).

#[export] Instance entry_into_entry : IntoBlockEntry BlockEntry := λ e, Ok e.

(** ** Operations *)

(** [BlockIndex::new]. *)
Definition index_new : BlockIndex := mkBlockIndex ∅ ∅.

(** [BlockIndex::insert]. *)
Definition index_insert (ix : BlockIndex) (e : BlockEntry) : BlockIndex :=
  mkBlockIndex (<[be_block_id e := e]> (index_info ix)) ({[be_block_id e]} ∪ index ix).

(** [BlockIndex::insert_or_update]. *)
Definition insert_or_update {T} `{IntoBlockEntry T} (ix : BlockIndex) (x : T) : outcome BlockIndex :=
  e ← into_entry x; Ok (index_insert ix e).

Definition with_crc (e : BlockEntry) (crc : Z) : BlockEntry :=
  mkBlockEntry (be_block_id e) (be_size e) (be_record_count e) (be_metadata_size e)
    (be_latest_record_time e) (Some crc) (be_compression e) (be_corrupted e) (be_version e).

(** [BlockIndex::insert_or_update_with_crc]. *)
Definition insert_or_update_with_crc {T} `{IntoBlockEntry T} (ix : BlockIndex) (x : T) (crc : Z)
    : outcome BlockIndex :=
  e ← into_entry x; Ok (index_insert ix (with_crc e crc)).

(** [BlockIndex::get_block]. *)
Definition get_block (ix : BlockIndex) (id : Z) : option BlockEntry := index_info ix !! id.

(** [BlockIndex::remove_block]. *)
Definition index_remove_block (ix : BlockIndex) (id : Z) : option BlockEntry * BlockIndex :=
  (index_info ix !! id, mkBlockIndex (delete id (index_info ix)) (index ix ∖ {[id]})).

(** [BlockIndex::is_corrupted]. *)
Definition is_corrupted (ix : BlockIndex) (id : Z) : bool :=
  match index_info ix !! id with
  | Some e => bool_decide (be_corrupted e = Some true)
  | None => false
  end.

Definition with_corrupted (e : BlockEntry) : BlockEntry :=
  mkBlockEntry (be_block_id e) (be_size e) (be_record_count e) (be_metadata_size e)
    (be_latest_record_time e) (be_crc64 e) (be_compression e) (Some true) (be_version e).

(** [BlockIndex::mark_corrupted]. *)
Definition mark_corrupted (ix : BlockIndex) (id : Z) : BlockIndex :=
  mkBlockIndex (alter with_corrupted id (index_info ix)) (index ix).

(** [BlockIndex::corrupted_block_ids] and [corrupted_block_count]. *)
Definition corrupted_block_ids (ix : BlockIndex) : list Z :=
  filter (λ id, is_corrupted ix id = true) (bt_elements (index ix)).
Definition corrupted_block_count (ix : BlockIndex) : nat := length (corrupted_block_ids ix).

(** [BlockIndex::active_tree]. *)
Definition active_tree (ix : BlockIndex) : gset Z :=
  filter (λ id, is_corrupted ix id = false) (index ix).

(** [BlockIndex::size] and [record_count]: folds over the pairs of the hash map
    in the order [iter] in which it yields them; the additions wrap. *)
Definition size_of (iter : list (Z * BlockEntry)) : Z :=
  foldl (λ acc '(_, e), u64_add (u64_add acc (be_size e)) (be_metadata_size e)) 0 iter.
Definition record_count_of (iter : list (Z * BlockEntry)) : Z :=
  foldl (λ acc '(_, e), u64_add acc (be_record_count e)) 0 iter.
Definition index_size (ix : BlockIndex) : Z := size_of (map_to_list (index_info ix)).
Definition index_record_count (ix : BlockIndex) : Z :=
  record_count_of (map_to_list (index_info ix)).

(** ** The index file *)
Section IndexFile.
Context `{Prost} `{Crc64}.

(** What the loops of [save] and [from_proto] write to the digest for a block. *)
Definition entry_crc_bytes (e : BlockEntry) : outcome (list Z) :=
  latest ← ts_to_us <$> unwrap (be_latest_record_time e);
  Ok (u64_be (be_block_id e) ++ u64_be (be_size e) ++ u64_be (be_record_count e) ++
      u64_be (be_metadata_size e) ++ u64_be latest ++
      from_option u64_be [] (be_crc64 e) ++
      from_option (λ c : bool, [if c then 1 else 0]) [] (be_corrupted e) ++
      from_option u64_be [] (be_version e)).

Fixpoint entries_crc_bytes (l : list BlockEntry) : outcome (list Z) :=
  match l with
  | [] => Ok []
  | e :: l' => b ← entry_crc_bytes e; bs ← entries_crc_bytes l'; Ok (b ++ bs)
  end.

(** [BlockIndex::save], the bytes it writes.  [values] is the order in which
    the hash map yields its values. *)
Definition save_bytes (values : list BlockEntry) : outcome (list Z) :=
  bs ← entries_crc_bytes values;
  Ok (encode_index (mkBlockIndexProto values (crc64 bs))).

(** [BlockIndex::from_proto]. *)
Definition index_from_proto (p : BlockIndexProto) : outcome BlockIndex :=
  bs ← entries_crc_bytes (bi_blocks p);
  if decide (crc64 bs ≠ bi_crc64 p) then Err InternalServerError
  else Ok (foldl index_insert index_new (bi_blocks p)).

(** [Path::ends_with] compares whole path components: a path ends with
    [".meta"] when its last component is [".meta"]. *)
Definition path_ends_with (file_name suffix : string) : bool := bool_decide (file_name = suffix).

(** [BlockIndex::try_load]: [file] is the content of the index file if it
    exists, [dir] the names of the files beside it. *)
Definition try_load (file : option (list Z)) (dir : list string) : outcome BlockIndex :=
  match file with
  | None => Err InternalServerError
  | Some buf =>
      let has_block_descriptors :=
        existsb (λ p, path_ends_with p ".meta" || path_ends_with p ".meta.zst") dir in
      if (Z.of_nat (length buf) =? 0) && has_block_descriptors then Err InternalServerError
      else
        match decode_index buf with
        | None => Err InternalServerError
        | Some p => index_from_proto p
        end
  end.
End IndexFile.

(** ** Invariant *)

(** Both structures hold the same ids, and an entry is filed under its id. *)
Record index_wf (ix : BlockIndex) : Prop := {
  ix_dom : index ix = dom (index_info ix);
  ix_keys : map_Forall (λ id e, be_block_id e = id) (index_info ix)
}.

Lemma index_new_wf : index_wf index_new.
Proof. split; simpl; [by rewrite dom_empty_L|apply map_Forall_empty]. Qed.

Lemma index_insert_wf ix e : index_wf ix → index_wf (index_insert ix e).
Proof.
  intros [Hd Hk]. split; simpl; [by rewrite dom_insert_L, Hd|].
  by apply map_Forall_insert_2.
Qed.

Lemma index_remove_wf ix id : index_wf ix → index_wf (index_remove_block ix id).2.
Proof.
  intros [Hd Hk]. split; simpl; [by rewrite dom_delete_L, Hd|].
  by apply map_Forall_delete.
Qed.

Lemma mark_corrupted_wf ix id : index_wf ix → index_wf (mark_corrupted ix id).
Proof.
  intros [Hd Hk]. split; simpl; [by rewrite dom_alter_L|].
  intros j e. rewrite lookup_alter_Some. intros [(<- & e' & He' & ->)|[_ He]]; simpl.
  - by apply Hk.
  - by apply Hk.
Qed.

Create HintDb index.
#[export] Hint Resolve index_new_wf index_insert_wf index_remove_wf mark_corrupted_wf : index.

Lemma elem_of_active_tree ix id :
  id ∈ active_tree ix ↔ id ∈ index ix ∧ is_corrupted ix id = false.
Proof. unfold active_tree. rewrite elem_of_filter. tauto. Qed.

Lemma is_corrupted_insert ix e id :
  is_corrupted (index_insert ix e) id =
    if decide (id = be_block_id e) then bool_decide (be_corrupted e = Some true)
    else is_corrupted ix id.
Proof.
  unfold is_corrupted, index_insert; simpl. rewrite lookup_insert.
  repeat case_decide; try done; congruence.
Qed.

Lemma is_corrupted_mark ix id : is_Some (index_info ix !! id) → is_corrupted (mark_corrupted ix id) id = true.
Proof.
  intros [e He]. unfold is_corrupted, mark_corrupted; simpl.
  by rewrite lookup_alter_eq, He.
Qed.

(** ** Sums *)

Lemma fold_wrap {K V} `{Countable K} (f : V → Z) (g : Z → V → Z) (m : gmap K V) l :
  (∀ acc v, g (u64_wrap acc) v = u64_wrap (acc + f v)) → l ≡ₚ map_to_list m →
  foldl (λ acc '(_, v), g acc v) 0 l = u64_wrap (map_sum f m).
Proof.
  intros Hg Hl. rewrite <-(Z.add_0_l (map_sum f m)), <-(map_sum_fold f m l Hl 0).
  change 0 with (u64_wrap 0) at 1. clear Hl. generalize 0.
  induction l as [|[k v] l IH]; intros z; simpl; [done|]. by rewrite Hg, IH.
Qed.

(** The sum does not depend on the iteration order of the hash map. *)
Lemma size_of_any_order ix l :
  l ≡ₚ map_to_list (index_info ix) →
  size_of l = u64_wrap (map_sum (λ e, be_size e + be_metadata_size e) (index_info ix)).
Proof.
  intros Hl. unfold size_of.
  apply (fold_wrap (λ e, be_size e + be_metadata_size e)
    (λ acc e, u64_add (u64_add acc (be_size e)) (be_metadata_size e))); [|done].
  intros acc e. rewrite u64_add_wrap_l, u64_add_wrap_l. f_equal. lia.
Qed.

Lemma record_count_of_any_order ix l :
  l ≡ₚ map_to_list (index_info ix) →
  record_count_of l = u64_wrap (map_sum be_record_count (index_info ix)).
Proof.
  intros Hl. unfold record_count_of.
  apply (fold_wrap be_record_count (λ acc e, u64_add acc (be_record_count e))); [|done].
  intros acc e. by rewrite u64_add_wrap_l.
Qed.

(** ** Round trip of the index file *)

Lemma foldl_index_insert_spec l ix0 :
  NoDup (be_block_id <$> l) →
  let ix := foldl index_insert ix0 l in
  (∀ e, e ∈ l → index_info ix !! be_block_id e = Some e) ∧
  (∀ i, i ∉ be_block_id <$> l → index_info ix !! i = index_info ix0 !! i) ∧
  index ix = list_to_set (be_block_id <$> l) ∪ index ix0.
Proof.
  revert ix0. induction l as [|e l IH]; intros ix0; simpl.
  - intros _. split_and!; [by intros ? ?%not_elem_of_nil|done|set_solver].
  - intros [He Hn]%NoDup_cons. destruct (IH (index_insert ix0 e) Hn) as (H1 & H2 & H3).
    split_and!.
    + intros e' [->|Hin]%elem_of_cons; [|by apply H1].
      rewrite H2 by done. simpl. by rewrite lookup_insert_eq.
    + intros i [Hi1 Hi2]%not_elem_of_cons. rewrite H2 by done. simpl. by rewrite lookup_insert_ne.
    + rewrite H3. simpl. set_solver.
Qed.

Lemma values_ids ix values :
  index_wf ix → values ≡ₚ (map_to_list (index_info ix)).*2 →
  be_block_id <$> values ≡ₚ (map_to_list (index_info ix)).*1.
Proof.
  intros [_ Hk] ->. rewrite <-list_fmap_compose.
  erewrite list_fmap_ext; [done|]. intros i [k e] Hi. simpl.
  apply Hk. apply elem_of_map_to_list. by eapply list_elem_of_lookup_2.
Qed.

Lemma foldl_index_insert_values ix values :
  index_wf ix → values ≡ₚ (map_to_list (index_info ix)).*2 →
  foldl index_insert index_new values = ix.
Proof.
  intros Hwf Hv. pose proof (values_ids ix values Hwf Hv) as Hids.
  assert (NoDup (be_block_id <$> values)) as Hnd by (rewrite Hids; apply NoDup_fst_map_to_list).
  destruct (foldl_index_insert_spec values index_new Hnd) as (H1 & H2 & H3).
  destruct Hwf as [Hd Hk]. destruct ix as [m d]; simpl in *.
  destruct (foldl index_insert index_new values) as [m' d']; simpl in *.
  assert (m' = m) as ->.
  { apply map_eq. intros i. destruct (m !! i) as [e|] eqn:E.
    - rewrite <-(Hk i e E). apply H1. rewrite Hv. apply list_elem_of_fmap.
      exists (i, e). split; [done|]. by apply elem_of_map_to_list.
    - rewrite H2; [by rewrite lookup_empty|]. rewrite Hids, list_elem_of_fmap.
      intros ([k e] & -> & Hin%elem_of_map_to_list). simpl in E. congruence. }
  f_equal. subst d' d. rewrite (union_empty_r_L (list_to_set (C := gset Z) (be_block_id <$> values))).
  apply set_eq. intros i. rewrite elem_of_list_to_set, Hids, list_elem_of_fmap, elem_of_dom.
  split.
  - intros ([k e] & -> & Hin%elem_of_map_to_list). by exists e.
  - intros [e He]. exists (i, e). split; [done|]. by apply elem_of_map_to_list.
Qed.

Lemma entries_crc_bytes_ok l :
  Forall (λ e, is_Some (be_latest_record_time e)) l → ∃ bs, entries_crc_bytes l = Ok bs.
Proof.
  induction 1 as [|e l [ts Hts] _ [bs IH]]; [by eexists|].
  eexists. simpl. unfold entry_crc_bytes. rewrite Hts; simpl. rewrite IH. done.
Qed.

Lemma foldl_index_insert_wf l ix : index_wf ix → index_wf (foldl index_insert ix l).
Proof. revert ix. induction l as [|e l IH]; intros ix Hwf; simpl; auto with index. Qed.

Lemma index_from_proto_wf `{Crc64} p ix : index_from_proto p = Ok ix → index_wf ix.
Proof.
  unfold index_from_proto. destruct (entries_crc_bytes (bi_blocks p)); simpl; try done.
  case_decide; [done|]. intros [= <-]. apply foldl_index_insert_wf, index_new_wf.
Qed.

(** ** Reachable indexes *)

(** The operations the block manager performs on the index, loading included. *)
Inductive index_step `{Prost} `{Crc64} : BlockIndex → BlockIndex → Prop :=
| ix_update {T} `{IntoBlockEntry T} ix (x : T) ix' :
    insert_or_update ix x = Ok ix' → index_step ix ix'
| ix_update_crc {T} `{IntoBlockEntry T} ix (x : T) crc ix' :
    insert_or_update_with_crc ix x crc = Ok ix' → index_step ix ix'
| ix_remove ix id : index_step ix (index_remove_block ix id).2
| ix_mark ix id : index_step ix (mark_corrupted ix id)
| ix_reload ix file dir ix' : try_load file dir = Ok ix' → index_step ix ix'.

Lemma index_step_wf `{Prost} `{Crc64} ix ix' : index_step ix ix' → index_wf ix → index_wf ix'.
Proof.
  destruct 1 as [T ? ix x ix' E|T ? ix x crc ix' E|ix id|ix id|ix file dir ix' E];
    intros Hwf; auto with index.
  - unfold insert_or_update in E. destruct (into_entry x); simplify_eq/=; auto with index.
  - unfold insert_or_update_with_crc in E. destruct (into_entry x); simplify_eq/=; auto with index.
  - destruct file as [buf|]; simpl in E; [|done].
    destruct (_ && _); [done|]. destruct (decode_index buf); [|done].
    by eapply index_from_proto_wf.
Qed.

Lemma active_corrupted_partition ix :
  (base.size (active_tree ix) + corrupted_block_count ix = base.size (index ix))%nat.
Proof.
  assert (index ix = active_tree ix ∪ list_to_set (corrupted_block_ids ix)) as Hu.
  { apply set_eq. intros id.
    rewrite elem_of_union, elem_of_active_tree, elem_of_list_to_set.
    unfold corrupted_block_ids. rewrite list_elem_of_filter, elem_of_bt_elements.
    destruct (is_corrupted ix id); naive_solver. }
  assert (NoDup (corrupted_block_ids ix)) as Hnd by apply NoDup_filter, bt_elements_nodup.
  rewrite Hu at 1. rewrite size_union.
  { by rewrite (size_list_to_set (C := gset Z)) by done. }
  intros id [_ Ha]%elem_of_active_tree Hc. apply elem_of_list_to_set in Hc.
  unfold corrupted_block_ids in Hc. rewrite list_elem_of_filter in Hc. destruct Hc. congruence.
Qed.

Lemma no_descriptor_component dir :
  ".meta" ∉ dir → ".meta.zst" ∉ dir →
  existsb (λ p, path_ends_with p ".meta" || path_ends_with p ".meta.zst") dir = false.
Proof.
  intros H1 H2. apply not_true_iff_false. rewrite existsb_exists.
  intros (p & Hp & Hor). apply list_elem_of_In in Hp. unfold path_ends_with in Hor.
  apply orb_true_iff in Hor as [E|E]; apply bool_decide_eq_true in E; by subst p.
Qed.

(** A block's file name starts with a digit, an extension with a dot. *)
Definition no_dot (name : string) : Prop :=
  match name with String c _ => c ≠ "."%char | EmptyString => False end.

Lemma named_after_block ids ext :
  Forall no_dot ids → ¬ no_dot ext →
  ext ∉ mjoin ((λ id, [id +:+ ".meta"; id +:+ ".blk"]) <$> ids).
Proof.
  intros Hids Hext (names & Hin & (id & -> & Hid)%list_elem_of_fmap)%list_elem_of_join.
  rewrite Forall_forall in Hids. specialize (Hids id Hid). apply Hext.
  destruct id as [|c id]; [done|]. set_unfold in Hin. naive_solver.
Qed.

(** Which blocks are active and which are corrupted, in terms of the summaries. *)
Lemma elem_of_active ix id : index_wf ix →
  id ∈ active_tree ix ↔ ∃ e, get_block ix id = Some e ∧ be_corrupted e ≠ Some true.
Proof.
  intros [Hd _]. rewrite elem_of_active_tree, Hd, elem_of_dom. unfold is_corrupted, get_block. split.
  - intros [[e He] Hc]. rewrite He in Hc. exists e. split; [done|]. by apply bool_decide_eq_false in Hc.
  - intros (e & He & Hc). rewrite He. split; [by eexists|]. by apply bool_decide_eq_false.
Qed.
Lemma elem_of_corrupted ix id : index_wf ix →
  id ∈ corrupted_block_ids ix ↔ ∃ e, get_block ix id = Some e ∧ be_corrupted e = Some true.
Proof.
  intros [Hd _]. unfold corrupted_block_ids. rewrite list_elem_of_filter, elem_of_bt_elements, Hd, elem_of_dom.
  unfold is_corrupted, get_block. split.
  - intros [Hc [e He]]. rewrite He in Hc. exists e. split; [done|]. by apply bool_decide_eq_true in Hc.
  - intros (e & He & Hc). rewrite He. split; [by apply bool_decide_eq_true|by eexists].
Qed.

(** C36: Every index reached from an empty one by updates, removals, corruption
    marks and reloads keeps its two structures in step.  The ordered set has
    exactly the ids of the summaries, each filed under its own id.  The active
    tree has exactly the blocks whose summary is not marked as corrupted and the
    list of corrupted ids exactly the marked ones, each once, so that each block
    is in one of the two and in no other; a mark moves this block from the first
    to the second and no other one.  And the totals are the sums of the summaries
    modulo [2^64], whatever order the hash map iterates in. *)
Theorem index_reachable_exact `{Prost} `{Crc64} (ix : BlockIndex) (iter : list (Z * BlockEntry)) :
  rtc index_step index_new ix → iter ≡ₚ map_to_list (index_info ix) →
  index ix = dom (index_info ix) ∧
  (∀ id e, get_block ix id = Some e → be_block_id e = id) ∧
  (∀ id, id ∈ active_tree ix ↔ ∃ e, get_block ix id = Some e ∧ be_corrupted e ≠ Some true) ∧
  (∀ id, id ∈ corrupted_block_ids ix ↔ ∃ e, get_block ix id = Some e ∧ be_corrupted e = Some true) ∧
  (NoDup (corrupted_block_ids ix) ∧ corrupted_block_count ix = length (corrupted_block_ids ix)) ∧
  (∀ id id', id' ∈ active_tree (mark_corrupted ix id) ↔ id' ∈ active_tree ix ∧ id' ≠ id) ∧
  (∀ id id', id' ∈ corrupted_block_ids (mark_corrupted ix id) ↔
     id' ∈ corrupted_block_ids ix ∨ id' = id ∧ id ∈ index ix) ∧
  (base.size (active_tree ix) + corrupted_block_count ix = base.size (index_info ix))%nat ∧
  size_of iter = u64_wrap (map_sum (λ e, be_size e + be_metadata_size e) (index_info ix)) ∧
  record_count_of iter = u64_wrap (map_sum be_record_count (index_info ix)).
Proof.
  intros Hs Hiter.
  assert (index_wf ix) as Hwf.
  { revert Hs. generalize index_new_wf. generalize index_new. intros ix0 Hwf Hs.
    induction Hs; eauto using index_step_wf. }
  pose proof Hwf as [Hd Hk].
  split_and!; [done|by apply Hk|by intros; apply elem_of_active|by intros; apply elem_of_corrupted
    |by apply NoDup_filter, bt_elements_nodup|done| | | |by apply size_of_any_order|by apply record_count_of_any_order].
  - intros id id'. rewrite !elem_of_active by auto with index. unfold get_block, mark_corrupted. simpl.
    rewrite lookup_alter. case_decide; [subst|]; [|naive_solver].
    split; [|by intros [_ ?]]. intros (e & (e0 & _ & ->)%fmap_Some & Hc). by destruct Hc.
  - intros id id'. rewrite !elem_of_corrupted, Hd, elem_of_dom by auto with index. unfold get_block, mark_corrupted. simpl.
    rewrite lookup_alter. case_decide; [subst|]; [|naive_solver].
    split; [intros (e & (e0 & -> & _)%fmap_Some & _); eauto|]. intros [(e & -> & _)|[_ [e ->]]]; by eexists.
  - rewrite active_corrupted_partition, Hd. apply size_dom.
Qed.

Lemma save_load ix values dir `{Prost} `{Crc64} `{!ProstLaws} `{!Crc64Laws} :
  index_wf ix → values ≡ₚ (map_to_list (index_info ix)).*2 →
  map_Forall (λ _ e, entry_valid e ∧ is_Some (be_latest_record_time e)) (index_info ix) →
  ".meta" ∉ dir → ".meta.zst" ∉ dir →
  ∃ bytes, save_bytes values = Ok bytes ∧ try_load (Some bytes) dir = Ok ix.
Proof.
  intros Hwf Hv Hent Hd1 Hd2.
  assert (Forall (λ e, entry_valid e ∧ is_Some (be_latest_record_time e)) values) as Hall.
  { rewrite Hv. apply Forall_fmap, Forall_forall. intros [k e] Hin%elem_of_map_to_list.
    by apply (Hent k e). }
  destruct (entries_crc_bytes_ok values) as [bs Hbs].
  { eapply Forall_impl; [done|]. by intros e [_ ?]. }
  eexists. unfold save_bytes. rewrite Hbs. split; [done|]. unfold try_load.
  rewrite (no_descriptor_component dir) by done. rewrite andb_false_r.
  rewrite decode_encode_index; [|by eapply Forall_impl; [done|]; intros e [? _]|apply crc64_range].
  unfold index_from_proto. cbn [bi_blocks bi_crc64]. rewrite Hbs. cbn [mbind outcome_bind].
  rewrite decide_False by (intros Hne; by apply Hne). f_equal.
  by apply foldl_index_insert_values.
Qed.

(** What [save] writes, [try_load] reads: for every iteration order of the
    hash map the file of a well-formed index whose summaries carry their latest
    record time loads back as the same index. *)
Theorem index_file_roundtrip `{Prost} `{Crc64} `{!ProstLaws} `{!Crc64Laws}
    (ix : BlockIndex) (values : list BlockEntry) (dir : list string) :
  index_wf ix → values ≡ₚ (map_to_list (index_info ix)).*2 →
  map_Forall (λ _ e, entry_valid e ∧ is_Some (be_latest_record_time e)) (index_info ix) →
  ".meta" ∉ dir → ".meta.zst" ∉ dir →
  ∃ bytes, save_bytes values = Ok bytes ∧ try_load (Some bytes) dir = Ok ix.
Proof. intros. by apply save_load. Qed.

(** An empty index file is accepted beside block descriptors: [ends_with]
    compares whole path components, so no file called [<id>.meta] satisfies it
    and the check meant to reject a truncated index never fires; the entry
    starts with an empty index. *)
Theorem empty_index_beside_blocks_loads `{Prost} `{Crc64} (ids : list string) :
  decode_index [] = Some (mkBlockIndexProto [] 0) → crc64 [] = 0 →
  Forall no_dot ids →
  try_load (Some []) (mjoin ((λ id, [id +:+ ".meta"; id +:+ ".blk"]) <$> ids)) = Ok index_new.
Proof.
  intros Hdec Hcrc Hids. unfold try_load. rewrite no_descriptor_component.
  - rewrite andb_false_r, Hdec. unfold index_from_proto. cbn. rewrite Hcrc.
    by rewrite decide_False by congruence.
  - apply named_after_block; [done|]. intros Hne. by apply Hne.
  - apply named_after_block; [done|]. intros Hne. by apply Hne.
Qed.

(** ** Witnesses *)
Section Witnesses.
Existing Instance Toy.prost.
Existing Instance Toy.prost_laws.
Existing Instance Toy.digest.
Existing Instance Toy.digest_laws.

Definition demo_entry (id sz : Z) : BlockEntry :=
  mkBlockEntry id sz 2 10 (Some (us_to_ts (id + 5))) None None None None.

Definition demo_index : BlockIndex :=
  index_insert (index_insert index_new (demo_entry 7 100)) (demo_entry 3 50).

Lemma index_reachable_exact_witness :
  size_of (reverse (map_to_list (index_info demo_index))) = 170 ∧ ¬ (7 ∈ active_tree (mark_corrupted demo_index 7)).
Proof.
  destruct (index_reachable_exact demo_index (reverse (map_to_list (index_info demo_index))))
    as (_ & _ & _ & _ & _ & Hmark & _ & _ & Hsz & _).
  - eapply rtc_l; [apply (ix_update _ (demo_entry 7 100)); reflexivity|].
    eapply rtc_l; [apply (ix_update _ (demo_entry 3 50)); reflexivity|]. apply rtc_refl.
  - apply reverse_Permutation.
  - rewrite Hsz. split; [reflexivity|]. intros [_ Hne]%Hmark. by apply Hne.
Defined.

Lemma demo_entry_valid id sz : is_u64 id → is_u64 (id + 5) → is_u64 sz →
  entry_valid (demo_entry id sz) ∧ is_Some (be_latest_record_time (demo_entry id sz)).
Proof.
  intros H1 H2 H3. split; [|by eexists].
  split_and!; cbn; try u64_lia; try done.
  intros ts [= <-]. by apply us_to_ts_valid.
Qed.

Lemma index_file_roundtrip_witness :
  ∃ bytes, save_bytes [demo_entry 3 50; demo_entry 7 100] = Ok bytes ∧
           try_load (Some bytes) ["3.meta"; "7.meta"; "3.blk"; "7.blk"] = Ok demo_index.
Proof.
  apply index_file_roundtrip.
  - apply index_insert_wf, index_insert_wf, index_new_wf.
  - vm_compute. apply Permutation_swap.
  - apply map_Forall_insert_2; [|apply map_Forall_insert_2; [|apply map_Forall_empty]];
      apply demo_entry_valid; u64_lia.
  - set_solver.
  - set_solver.
Defined.

(** A codec in which the empty byte string is the default message. *)
Definition proto3_prost : Prost := {|
  encode_record := encode_record; decode_record := decode_record;
  encode_block := encode_block; decode_block := decode_block;
  encode_index := encode_index;
  decode_index := λ l, match l with [] => Some (mkBlockIndexProto [] 0) | _ => decode_index l end |}.

Lemma empty_index_beside_blocks_loads_witness :
  @try_load proto3_prost Toy.digest (Some []) ["17.meta"; "17.blk"] = Ok index_new.
Proof.
  apply (@empty_index_beside_blocks_loads proto3_prost Toy.digest ["17"]); [reflexivity..|].
  by repeat constructor.
Defined.
End Witnesses.
