(* ===== verification/Wal.v ===== *)
(** * The write-ahead log of an entry (storage/block_manager/wal.rs)

    One log file per block.  A log is a sequence of frames
    [type | length | data | crc] closed by a stop marker; an append overwrites
    the marker of the previous append and writes a new one. *)

From stdpp Require Import prelude gmap strings sorting fin_map_dom.
From Stdlib Require Import ZArith Lia.
From S2P Require Import Prelude Bytes Collections Proto.
Open Scope Z_scope.

Definition WAL_FILE_SIZE : Z := 1000000.
Definition STOP_MARKER : Z := 255.

Inductive WalEntry :=
| WriteRecord (r : Rec)
| UpdateRecord (r : Rec)
| RemoveBlock
| RemoveRecord (t : Z).

#[export] Instance WalEntry_eq_dec : EqDecision WalEntry.
Proof. solve_decision. Defined.

Section Wal.
Context `{Prost} `{Crc64}.

(** ** Frames *)

Definition len_be (l : list Z) : list Z := u64_be (Z.of_nat (length l)).

(** [WalEntry::encode]. *)
Definition wal_encode (e : WalEntry) : list Z :=
  match e with
  | WriteRecord r => [0] ++ len_be (encode_record r) ++ encode_record r
  | UpdateRecord r => [1] ++ len_be (encode_record r) ++ encode_record r
  | RemoveBlock => [2] ++ u64_be 0
  | RemoveRecord t => [3] ++ u64_be 8 ++ u64_be t
  end.

(** [WalEntry::decode]; the conversions of the payload are unwrapped. *)
Definition wal_decode (type_code : Z) (buf : list Z) : outcome WalEntry :=
  if decide (type_code = 0) then WriteRecord <$> unwrap (decode_record buf)
  else if decide (type_code = 1) then UpdateRecord <$> unwrap (decode_record buf)
  else if decide (type_code = 2) then Ok RemoveBlock
  else if decide (type_code = 3) then
    (if decide (length buf = 8%nat) then Ok (RemoveRecord (from_be buf)) else Panic)
  else Err InternalServerError.

(** What [append] writes: the entry, its CRC and the stop marker. *)
Definition wal_frame (e : WalEntry) : list Z :=
  let buf := wal_encode e in buf ++ u64_be (crc64 buf).

(** ** The log files *)

(** [WalImpl], together with the log files of its directory. *)
Record Wal := mkWal {
  file_positions : gmap Z Z;
  known_blocks : gset Z;
  wal_files : gmap Z (list Z)
}.

(** The file [append] writes to and the position it seeks to: a new file is
    created at its full size, a known one continues where the last append
    stopped, and one whose position is not known is overwritten. *)
Definition wal_open (id : Z) (w : Wal) : list Z * Z :=
  match wal_files w !! id with
  | None => (set_len (Z.to_nat WAL_FILE_SIZE) [], 0)
  | Some file => (file, default 0 (file_positions w !! id))
  end.

(** [WalImpl::append]. *)
Definition wal_append (id : Z) (e : WalEntry) (w : Wal) : outcome () * Wal :=
  let '(file, pos) := wal_open id w in
  let start := if decide (pos > 0) then pos - 1 else pos in
  let buf := wal_frame e ++ [STOP_MARKER] in
  let file' := write_at (Z.to_nat start) buf file in
  (Ok tt,
   mkWal (<[id := start + Z.of_nat (length buf)]> (file_positions w))
     ({[id]} ∪ known_blocks w)
     (<[id := file']> (wal_files w))).

(** A turn of the loop of [WalImpl::read], on the bytes not read yet: the end of the log, or
    an entry and the bytes behind it.  Running out of bytes is an I/O error, which converts
    to [InternalServerError]; a length above [isize::MAX] makes the allocation of the buffer
    panic. *)
Definition wal_read_frame (f : list Z) : outcome (option (WalEntry * list Z)) :=
  match f with
  | [] => Err InternalServerError
  | t :: f1 =>
      if decide (t = STOP_MARKER) then Ok None
      else
        len_bytes ← ok_or InternalServerError (read_at 0 8 f1);
        let len := from_be len_bytes in
        if decide (2 ^ 63 ≤ len) then Panic
        else
          let f2 := drop 8 f1 in
          buf ← ok_or InternalServerError (read_at 0 (Z.to_nat len) f2);
          let f3 := drop (Z.to_nat len) f2 in
          crc_bytes ← ok_or InternalServerError (read_at 0 8 f3);
          if decide (crc64 ([t] ++ u64_be len ++ buf) ≠ from_be crc_bytes)
          then Err InternalServerError
          else
            e ← wal_decode t buf;
            Ok (Some (e, drop 8 f3))
  end.

(** The loop; [None] is a loop that has not ended after [fuel] turns. *)
Fixpoint wal_read_loop (fuel : nat) (f : list Z) : option (outcome (list WalEntry)) :=
  match fuel with
  | O => None
  | S fuel' =>
      match wal_read_frame f with
      | Ok None => Some (Ok [])
      | Ok (Some (e, rest)) => (λ r, es ← r; Ok (e :: es)) <$> wal_read_loop fuel' rest
      | Err e => Some (Err e)
      | Panic => Some Panic
      end
  end.

(** [WalImpl::read] on a file: one more turn than there are bytes is enough, as
    [wal_read_terminates] shows; the default is never taken. *)
Definition wal_read_file (f : list Z) : outcome (list WalEntry) :=
  default Panic (wal_read_loop (S (length f)) f).
Definition wal_read (id : Z) (w : Wal) : outcome (list WalEntry) :=
  match wal_files w !! id with
  | None => Err InternalServerError
  | Some f => wal_read_file f
  end.

(** [WalImpl::remove]: the file position of the block is kept. *)
Definition wal_remove (id : Z) (w : Wal) : outcome () * Wal :=
  (Ok tt, mkWal (file_positions w) (known_blocks w ∖ {[id]}) (delete id (wal_files w))).

(** [WalImpl::list]. *)
Definition wal_list (w : Wal) : list Z := bt_elements (known_blocks w).

(** [WalImpl::try_build]: the positions are not known after a restart, the
    blocks are those whose files are found. *)
Definition wal_try_build (files : gmap Z (list Z)) : Wal := mkWal ∅ (dom files) files.

(** ** Reading back *)

Definition wal_entry_valid (e : WalEntry) : Prop :=
  match e with
  | WriteRecord r | UpdateRecord r =>
      rec_valid r ∧ Z.of_nat (length (encode_record r)) < 2 ^ 63
  | RemoveBlock => True
  | RemoveRecord t => is_u64 t
  end.

Context `{!ProstLaws} `{!Crc64Laws}.

Definition wal_payload (e : WalEntry) : list Z :=
  match e with
  | WriteRecord r | UpdateRecord r => encode_record r
  | RemoveBlock => []
  | RemoveRecord t => u64_be t
  end.

Definition wal_type (e : WalEntry) : Z :=
  match e with WriteRecord _ => 0 | UpdateRecord _ => 1 | RemoveBlock => 2 | RemoveRecord _ => 3 end.

Lemma wal_encode_shape e :
  wal_encode e = [wal_type e] ++ len_be (wal_payload e) ++ wal_payload e.
Proof. destruct e; simpl; try done. Qed.

Lemma wal_payload_bound e : wal_entry_valid e → Z.of_nat (length (wal_payload e)) < 2 ^ 63.
Proof. destruct e as [r|r| |t]; simpl; try (intros [_ ?]; done); try lia. Qed.

Lemma wal_decode_payload e : wal_entry_valid e → wal_decode (wal_type e) (wal_payload e) = Ok e.
Proof.
  destruct e as [r|r| |t]; unfold wal_decode; simpl; intros Hv.
  - by rewrite decode_encode_record by apply Hv.
  - by rewrite decode_encode_record by apply Hv.
  - done.
  - by rewrite from_be_u64_be.
Qed.

Lemma read_at_0_app n l k : length l = n → read_at 0 n (l ++ k) = Some l.
Proof.
  intros <-. unfold read_at. rewrite drop_0, take_app_length. by rewrite decide_True.
Qed.

Lemma read_at_0_0 l : read_at 0 0 l = Some [].
Proof. done. Qed.

Lemma drop_app_len {A} n (l k : list A) : length l = n → drop n (l ++ k) = k.
Proof. intros <-. apply drop_app_length. Qed.

Lemma wal_frame_eq e rest :
  wal_frame e ++ rest = wal_type e :: len_be (wal_payload e) ++ wal_payload e ++
    u64_be (crc64 (wal_encode e)) ++ rest.
Proof. unfold wal_frame. rewrite wal_encode_shape. by rewrite <-!app_assoc. Qed.

(** One turn of the loop reads exactly one frame. *)
Lemma wal_read_frame_ok e rest : wal_entry_valid e → wal_read_frame (wal_frame e ++ rest) = Ok (Some (e, rest)).
Proof.
  intros Hv. rewrite wal_frame_eq. cbn [wal_read_frame].
  rewrite decide_False by (destruct e; done).
  pose proof (wal_payload_bound e Hv) as Hb.
  assert (from_be (len_be (wal_payload e)) = Z.of_nat (length (wal_payload e))) as Hlen
    by (apply from_be_u64_be; u64_lia).
  rewrite read_at_0_app by apply length_u64_be. cbn [ok_or mbind outcome_bind]. rewrite Hlen.
  rewrite decide_False by lia.
  rewrite (drop_app_len 8) by apply length_u64_be. rewrite Nat2Z.id.
  rewrite read_at_0_app by done. cbn [ok_or mbind outcome_bind]. rewrite drop_app_length.
  rewrite read_at_0_app by apply length_u64_be. cbn [ok_or mbind outcome_bind].
  rewrite from_be_u64_be by apply crc64_range.
  rewrite decide_False by (intros Hne; apply Hne; by rewrite wal_encode_shape).
  rewrite wal_decode_payload by done. cbn [ok_or mbind outcome_bind].
  by rewrite (drop_app_len 8) by apply length_u64_be.
Qed.
Lemma wal_read_loop_frame fuel e rest r :
  wal_entry_valid e → wal_read_loop fuel rest = Some r →
  wal_read_loop (S fuel) (wal_frame e ++ rest) = Some (es ← r; Ok (e :: es)).
Proof. intros Hv Hr. cbn [wal_read_loop]. by rewrite wal_read_frame_ok, Hr. Qed.

(** A turn that goes on has used up a byte at least. *)
Lemma wal_read_frame_shorter f e rest : wal_read_frame f = Ok (Some (e, rest)) → (length rest < length f)%nat.
Proof.
  destruct f as [|t f1]; [done|]. cbn [wal_read_frame length]. case_decide; [done|].
  destruct (read_at 0 8 f1); cbn [ok_or mbind outcome_bind]; [|done]. case_decide; [done|].
  destruct (read_at 0 _ (drop 8 f1)); cbn [ok_or mbind outcome_bind]; [|done].
  destruct (read_at 0 8 (drop _ _)); cbn [ok_or mbind outcome_bind]; [|done]. case_decide; [done|].
  destruct (wal_decode _ _); cbn [mbind outcome_bind]; [|done..]. intros [= _ <-]. rewrite !length_drop. lia.
Qed.

Lemma wal_frame_length_pos e : (1 ≤ length (wal_frame e))%nat.
Proof. unfold wal_frame. rewrite wal_encode_shape. simpl. lia. Qed.

Definition wal_frames (es : list WalEntry) : list Z := mjoin (wal_frame <$> es).

Lemma wal_frames_app es es' : wal_frames (es ++ es') = wal_frames es ++ wal_frames es'.
Proof. unfold wal_frames. by rewrite fmap_app, join_app. Qed.

Lemma wal_frames_one e : wal_frames [e] = wal_frame e.
Proof. unfold wal_frames. simpl. by rewrite app_nil_r. Qed.

Lemma wal_frames_cons e es : wal_frames (e :: es) = wal_frame e ++ wal_frames es.
Proof. done. Qed.

Lemma wal_read_loop_frames fuel es rest :
  Forall wal_entry_valid es → (length (wal_frames es) < fuel)%nat →
  wal_read_loop fuel (wal_frames es ++ [STOP_MARKER] ++ rest) = Some (Ok es).
Proof.
  intros Hv. revert fuel. induction Hv as [|e es He Hes IH]; intros fuel Hf.
  - destruct fuel; [simpl in *; lia|]. cbn. done.
  - rewrite wal_frames_cons in *. rewrite length_app in Hf.
    pose proof (wal_frame_length_pos e).
    destruct fuel as [|fuel]; [lia|]. rewrite <-app_assoc.
    by rewrite (wal_read_loop_frame fuel e _ (Ok es)) by (done || apply IH; lia).
Qed.

(** ** The log of a block *)

(** The log file of block [id] holds exactly the entries [es]. *)
Definition wal_rep (w : Wal) (id : Z) (es : list WalEntry) : Prop :=
  Forall wal_entry_valid es ∧
  match wal_files w !! id with
  | None => es = []
  | Some f =>
      id ∈ known_blocks w ∧
      file_positions w !! id = Some (Z.of_nat (length (wal_frames es) + 1)) ∧
      ∃ rest, f = wal_frames es ++ [STOP_MARKER] ++ rest
  end.
Lemma wal_rep_read w id es f :
  wal_rep w id es → wal_files w !! id = Some f → wal_read id w = Ok es.
Proof.
  intros [Hv Hrep] Hf. unfold wal_read, wal_read_file. rewrite Hf in *. destruct Hrep as (_ & _ & rest & ->).
  rewrite (wal_read_loop_frames _ es); [done..|]. rewrite !length_app. simpl. lia.
Qed.

Lemma write_over_marker frames e rest :
  write_at (length frames) (wal_frame e ++ [STOP_MARKER]) (frames ++ [STOP_MARKER] ++ rest) =
  (frames ++ wal_frame e) ++ [STOP_MARKER] ++ drop (length (wal_frame e)) rest.
Proof.
  unfold write_at. rewrite take_app_length.
  replace (length frames - length (frames ++ [STOP_MARKER] ++ rest))%nat with 0%nat
    by (rewrite !length_app; lia).
  rewrite <-drop_drop, drop_app_length, length_app. simpl.
  replace (length (wal_frame e) + 1)%nat with (S (length (wal_frame e))) by lia. simpl.
  by rewrite <-!app_assoc.
Qed.

Lemma write_fresh e n :
  write_at 0 (wal_frame e ++ [STOP_MARKER]) (set_len n []) =
  wal_frames [e] ++ [STOP_MARKER] ++ drop (length (wal_frame e ++ [STOP_MARKER])) (set_len n []).
Proof.
  unfold write_at. rewrite take_0, Nat.sub_0_l, Nat.add_0_l. simpl.
  rewrite wal_frames_one. by rewrite <-app_assoc.
Qed.

(** Appending keeps the other logs and extends the log of its block. *)
Lemma wal_append_rep w id es e :
  wal_rep w id es → wal_entry_valid e → wal_rep (wal_append id e w).2 id (es ++ [e]).
Proof.
  intros [Hv Hrep] He. unfold wal_append, wal_open, wal_rep.
  destruct (wal_files w !! id) as [f|] eqn:Ef.
  - destruct Hrep as (Hk & Hp & rest & ->). rewrite Hp. cbn [from_option Datatypes.id].
    rewrite decide_True by lia. cbn [snd wal_files known_blocks file_positions].
    rewrite lookup_insert_eq. split; [by apply Forall_app_2; [|constructor]|].
    split; [set_solver|]. rewrite lookup_insert_eq.
    replace (Z.of_nat (length (wal_frames es) + 1) - 1)
      with (Z.of_nat (length (wal_frames es))) by lia.
    rewrite Nat2Z.id, write_over_marker, wal_frames_app, !length_app.
    rewrite !wal_frames_one.
    split; [f_equal; simpl; lia|]. by eexists.
  - subst es. rewrite (app_nil_l [e]), decide_False by lia. cbn [snd wal_files known_blocks file_positions].
    rewrite !lookup_insert_eq, write_fresh. split; [by constructor|]. split; [set_solver|].
    split; [|by eexists]. f_equal. rewrite wal_frames_one, length_app. simpl. lia.
Qed.

Lemma wal_append_other w id id' es e :
  id ≠ id' → wal_rep w id' es → wal_rep (wal_append id e w).2 id' es.
Proof.
  intros Hne [Hv Hrep]. split; [done|]. unfold wal_append.
  destruct (wal_open id w) as [file pos].
  cbn [snd wal_files known_blocks file_positions]. rewrite !lookup_insert_ne by done.
  destruct (wal_files w !! id'); [|done]. destruct Hrep as (? & ? & ?).
  split_and!; [set_solver|done|done].
Qed.

Lemma wal_append_files w id e id' :
  is_Some (wal_files (wal_append id e w).2 !! id') ↔ id' = id ∨ is_Some (wal_files w !! id').
Proof.
  unfold wal_append. destruct (wal_open id w) as [file pos].
  cbn [snd wal_files]. rewrite lookup_insert_is_Some. destruct (decide (id = id')); naive_solver.
Qed.

Lemma wal_append_known w id e : known_blocks (wal_append id e w).2 = {[id]} ∪ known_blocks w.
Proof. unfold wal_append. by destruct (wal_open id w). Qed.

Lemma wal_remove_rep w id id' es :
  wal_rep w id' es → wal_rep (wal_remove id w).2 id' (if decide (id' = id) then [] else es).
Proof.
  intros [Hv Hrep]. unfold wal_rep, wal_remove. cbn [snd wal_files known_blocks file_positions].
  rewrite lookup_delete. destruct (decide (id' = id)) as [->|Hne].
  - rewrite decide_True by done. by split.
  - rewrite decide_False by done. split; [done|]. destruct (wal_files w !! id'); [|done].
    destruct Hrep as (? & ? & ?). split_and!; [set_solver|done|done].
Qed.

(** ** Abstract specification and refinement *)

(** What the log promises: per block, the list of the entries appended since
    the log was created or removed. *)
Inductive wal_op := OpAppend (id : Z) (e : WalEntry) | OpRemove (id : Z).

Definition wal_op_valid (o : wal_op) : Prop :=
  match o with OpAppend _ e => wal_entry_valid e | OpRemove _ => True end.

Definition wal_spec_step (o : wal_op) (a : gmap Z (list WalEntry)) : gmap Z (list WalEntry) :=
  match o with
  | OpAppend id e => <[id := default [] (a !! id) ++ [e]]> a
  | OpRemove id => delete id a
  end.

Definition wal_step (o : wal_op) (w : Wal) : Wal :=
  match o with
  | OpAppend id e => (wal_append id e w).2
  | OpRemove id => (wal_remove id w).2
  end.

(** The simulation relation between the files and the abstract logs. *)
Record wal_sim (w : Wal) (a : gmap Z (list WalEntry)) : Prop := {
  sim_rep : ∀ id, wal_rep w id (default [] (a !! id));
  sim_files : ∀ id, is_Some (wal_files w !! id) ↔ is_Some (a !! id);
  sim_known : known_blocks w = dom a
}.

Lemma wal_sim_step o w a :
  wal_op_valid o → wal_sim w a → wal_sim (wal_step o w) (wal_spec_step o a).
Proof.
  destruct o as [id e|id]; cbn [wal_op_valid wal_step wal_spec_step]; intros Hv [Hr Hf Hk].
  - split.
    + intros id'. destruct (decide (id = id')) as [<-|Hne].
      * rewrite lookup_insert_eq. cbn [from_option Datatypes.id]. by apply wal_append_rep.
      * rewrite lookup_insert_ne by done. by apply wal_append_other.
    + intros id'. rewrite wal_append_files, lookup_insert_is_Some, Hf.
      destruct (decide (id = id')); naive_solver.
    + by rewrite wal_append_known, dom_insert_L, Hk.
  - split.
    + intros id'. pose proof (wal_remove_rep w id id' _ (Hr id')) as Hrem.
      rewrite lookup_delete. destruct (decide (id' = id)) as [->|Hne].
      * by rewrite decide_True by done.
      * by rewrite decide_False by done.
    + intros id'. cbn. rewrite !lookup_delete_is_Some. by rewrite Hf.
    + cbn. by rewrite dom_delete_L, Hk.
Qed.

Lemma wal_sim_init : wal_sim (wal_try_build ∅) ∅.
Proof.
  split.
  - intros id. rewrite lookup_empty. split; [constructor|]. cbn. by rewrite lookup_empty.
  - intros id. cbn. rewrite !lookup_empty. split; by intros [].
  - cbn. by rewrite !dom_empty_L.
Qed.

Lemma wal_sim_run ops w a :
  Forall wal_op_valid ops → wal_sim w a →
  wal_sim (foldl (flip wal_step) w ops) (foldl (flip wal_spec_step) a ops).
Proof.
  intros Hv. revert w a. induction Hv as [|o ops Ho Hops IH]; intros w a Hs; simpl; [done|].
  apply IH. by apply wal_sim_step.
Qed.

Lemma wal_sim_read w a id :
  wal_sim w a → wal_read id w = ok_or InternalServerError (a !! id).
Proof.
  intros [Hr Hf _]. destruct (a !! id) as [es|] eqn:Ea.
  - destruct (proj2 (Hf id) (mk_is_Some _ _ Ea)) as [f Hfile].
    specialize (Hr id). rewrite Ea in Hr. by eapply wal_rep_read.
  - unfold wal_read. destruct (wal_files w !! id) eqn:E; [|done].
    destruct (proj1 (Hf id) (mk_is_Some _ _ E)). congruence.
Qed.

(** ** Arbitrary files *)

(** With more turns than bytes the loop ends, whatever the file holds, and further turns
    change nothing. *)
Lemma wal_read_loop_ends fuel f :
  (length f < fuel)%nat → ∃ r, ∀ fuel', (length f < fuel')%nat → wal_read_loop fuel' f = Some r.
Proof.
  revert f. induction fuel as [|fuel IH]; intros f Hf; [lia|].
  destruct (wal_read_frame f) as [[[e rest]|]|e|] eqn:E.
  - pose proof (wal_read_frame_shorter f e rest E) as Hlt. destruct (IH rest ltac:(lia)) as [r Hr].
    eexists. intros [|fuel'] Hf'; [lia|]. cbn [wal_read_loop]. by rewrite E, Hr by lia.
  - eexists. intros [|fuel'] Hf'; [lia|]. cbn [wal_read_loop]. by rewrite E.
  - eexists. intros [|fuel'] Hf'; [lia|]. cbn [wal_read_loop]. by rewrite E.
  - eexists. intros [|fuel'] Hf'; [lia|]. cbn [wal_read_loop]. by rewrite E.
Qed.

(** C9: The write-ahead log refines its specification.  After any sequence of
    appends and removals starting from an empty directory, reading the log of a
    block returns exactly the entries appended to it since its log was created
    or last removed, in order, and fails when there is none; the blocks listed
    are exactly those with a log; and both hold again for a process that is
    restarted on the files. *)
Theorem wal_refines_log (ops : list wal_op) (id : Z) :
  Forall wal_op_valid ops →
  let w := foldl (flip wal_step) (wal_try_build ∅) ops in
  let a := foldl (flip wal_spec_step) ∅ ops in
  let w' := wal_try_build (wal_files w) in
  wal_read id w = ok_or InternalServerError (a !! id) ∧ wal_list w = bt_elements (dom a) ∧
  wal_read id w' = ok_or InternalServerError (a !! id) ∧ wal_list w' = bt_elements (dom a).
Proof.
  intros Hv w a w'. assert (wal_sim w a) as Hsim by (apply wal_sim_run, wal_sim_init; done).
  pose proof (wal_sim_read w a id Hsim) as Hr. destruct Hsim as [_ Hf Hk].
  split_and!; [done|by unfold wal_list; rewrite Hk|done|].
  unfold wal_list. f_equal. cbn. apply set_eq. intros i. by rewrite !elem_of_dom.
Qed.

(** C37: Reading a log terminates on every file, damaged ones included.  The loop, which
    answers [None] as long as it has not ended, ends within one more turn than the file has
    bytes, and its answer is the answer of [wal_read], however many more turns it is given;
    each turn that goes on has used up a byte of the file at least. *)
Theorem wal_read_terminates (id : Z) (w : Wal) (f : list Z) :
  wal_files w !! id = Some f →
  (∀ fuel, (length f < fuel)%nat → wal_read_loop fuel f = Some (wal_read id w)) ∧
  (∀ e rest, wal_read_frame f = Ok (Some (e, rest)) → (length rest < length f)%nat).
Proof.
  intros Hf. split; [|apply wal_read_frame_shorter]. intros fuel Hl. unfold wal_read, wal_read_file. rewrite Hf.
  destruct (wal_read_loop_ends fuel f Hl) as [r Hr]. by rewrite !Hr by lia.
Qed.

(** A crash inside an append can make a whole log unreadable: when only the
    type byte of a new [WriteRecord] frame reached the preallocated file it has
    replaced the stop marker, and reading fails, the entries appended (and
    synchronised) before it included. *)
Theorem torn_append_hides_log (id : Z) (w : Wal) (es : list WalEntry) (n : nat) :
  Forall wal_entry_valid es → (16 ≤ n)%nat → crc64 ([0] ++ u64_be 0) ≠ 0 →
  wal_files w !! id = Some (wal_frames es ++ [0] ++ repeat 0 n) →
  wal_read id w = Err InternalServerError.
Proof.
  intros Hv Hn Hcrc Hf. unfold wal_read, wal_read_file. rewrite Hf.
  assert (wal_read_frame (0 :: repeat 0 n) = Err InternalServerError) as Htail.
  { cbn [wal_read_frame]. rewrite decide_False by done.
    replace n with (8 + (8 + (n - 16)))%nat by lia. rewrite !repeat_app.
    rewrite read_at_0_app by done. cbn [ok_or mbind outcome_bind].
    change (from_be (repeat 0 8)) with 0. rewrite decide_False by lia.
    rewrite (drop_app_len 8) by done. change (Z.to_nat 0) with 0%nat.
    rewrite read_at_0_0. cbn [ok_or mbind outcome_bind]. rewrite drop_0.
    rewrite read_at_0_app by done. cbn [ok_or mbind outcome_bind].
    by rewrite decide_True by done. }
  assert (∀ fuel, (length (wal_frames es) < fuel)%nat →
    wal_read_loop fuel (wal_frames es ++ [0] ++ repeat 0 n) = Some (Err InternalServerError)) as Hloop.
  { clear Hf. induction Hv as [|e es He Hes IH]; intros [|fuel] Hfuel; [lia| |lia|].
    - cbn [wal_read_loop]. change (wal_frames [] ++ [0] ++ repeat 0 n) with (0 :: repeat 0 n). by rewrite Htail.
    - rewrite wal_frames_cons in *. rewrite length_app in Hfuel. pose proof (wal_frame_length_pos e).
      rewrite <-app_assoc. by rewrite (wal_read_loop_frame fuel e _ (Err InternalServerError)) by (done || apply IH; lia). }
  rewrite Hloop; [done|]. rewrite !length_app. simpl. lia.
Qed.
End Wal.

(** ** Witnesses *)
Section Witnesses.
Existing Instance Toy.prost.
Existing Instance Toy.prost_laws.
Existing Instance Toy.digest.
Existing Instance Toy.digest_laws.

Definition demo_ops : list wal_op :=
  [OpAppend 5 (RemoveRecord 11); OpAppend 9 RemoveBlock; OpAppend 5 (RemoveRecord 12); OpRemove 9].

Lemma demo_ops_valid : Forall wal_op_valid demo_ops.
Proof. repeat constructor; cbn; u64_lia. Qed.

Lemma wal_refines_log_witness :
  Forall wal_op_valid demo_ops ∧
  wal_read 5 (foldl (flip wal_step) (wal_try_build ∅) demo_ops)
    = Ok [RemoveRecord 11; RemoveRecord 12] ∧
  wal_list (foldl (flip wal_step) (wal_try_build ∅) demo_ops) = [5].
Proof.
  destruct (wal_refines_log demo_ops 5 demo_ops_valid) as (Hr & Hl & _).
  split; [exact demo_ops_valid|]. split.
  - rewrite Hr. reflexivity.
  - rewrite Hl. reflexivity.
Defined.

Definition demo_file : list Z := wal_frame (RemoveRecord 11) ++ [STOP_MARKER; 0; 0].

Lemma wal_read_terminates_witness :
  wal_read_loop 100 demo_file = Some (wal_read 5 (wal_try_build {[5 := demo_file]})).
Proof. apply (wal_read_terminates 5 (wal_try_build {[5 := demo_file]}) demo_file); [reflexivity|]. apply Nat.ltb_lt. reflexivity. Defined.

Lemma torn_append_hides_log_witness :
  wal_read 5 (wal_try_build {[5 := wal_frames [RemoveRecord 11; RemoveBlock] ++ [0] ++ repeat 0 20]})
    = Err InternalServerError.
Proof.
  apply (torn_append_hides_log 5 _ [RemoveRecord 11; RemoveBlock] 20).
  - repeat constructor; cbn; u64_lia.
  - lia.
  - vm_compute. congruence.
  - reflexivity.
Defined.
End Witnesses.
