(* ===== verification/TransactionLog.v ===== *)
(** * The transaction log of a replication (replication/transaction_log.rs)

    A ring buffer in a file: two 8-byte positions, then fixed-size slots of one
    type byte and a timestamp.  [TransactionLog] carries the positions and, here,
    the content of its file. *)

From stdpp Require Import prelude.
From Stdlib Require Import ZArith Lia.
From S2P Require Import Prelude Bytes.
Open Scope Z_scope.

(** [replication::Transaction]. *)
Inductive Transaction := TxWriteRecord (ts : Z) | TxUpdateRecord (ts : Z).

#[export] Instance Transaction_eq_dec : EqDecision Transaction.
Proof. solve_decision. Defined.

(** [impl From<Transaction> for u8] and [Transaction::timestamp]. *)
Definition tx_code (t : Transaction) : Z :=
  match t with TxWriteRecord _ => 0 | TxUpdateRecord _ => 1 end.
Definition tx_timestamp (t : Transaction) : Z :=
  match t with TxWriteRecord ts | TxUpdateRecord ts => ts end.

Definition HEADER_SIZE : Z := 16.
Definition ENTRY_SIZE : Z := 9.

Record TransactionLog := mkTLog {
  tl_file : list Z;
  capacity_in_bytes : Z;
  write_pos : Z;
  read_pos : Z
}.

(** ** Operations *)

(** [TransactionLog::integrity_check]. *)
Definition check_pos (cap pos : Z) : outcome () :=
  if decide (pos < HEADER_SIZE ∨ cap ≤ pos ∨ Z.rem (u64_sub pos HEADER_SIZE) ENTRY_SIZE ≠ 0)
  then Err InternalServerError else Ok tt.

Definition integrity_check (init_cap cap wp rp : Z) : outcome () :=
  if decide (init_cap < HEADER_SIZE ∨ Z.rem (u64_sub cap HEADER_SIZE) ENTRY_SIZE ≠ 0)
  then Err InternalServerError
  else _ ← check_pos cap wp; _ ← check_pos cap rp; Ok tt.

(** [TransactionLog::try_load_or_create]: [file] is the content of the log file
    if it exists. *)
Definition try_load_or_create (file : option (list Z)) (capacity : Z) : outcome TransactionLog :=
  let init_cap := u64_add (u64_mul capacity ENTRY_SIZE) HEADER_SIZE in
  match file with
  | None =>
      let f := set_len (Z.to_nat init_cap) [] in
      let f := write_at 0 (u64_be HEADER_SIZE) f in
      let f := write_at 8 (u64_be HEADER_SIZE) f in
      Ok (mkTLog f init_cap HEADER_SIZE HEADER_SIZE)
  | Some f =>
      buf ← ok_or InternalServerError (read_at 0 16 f);
      let cap := Z.of_nat (length f) in
      let wp := from_be (take 8 buf) in
      let rp := from_be (drop 8 buf) in
      _ ← integrity_check init_cap cap wp rp;
      if decide (init_cap ≠ cap) then
        if decide (rp = wp) then Ok (mkTLog (set_len (Z.to_nat init_cap) f) init_cap wp rp)
        else Ok (mkTLog f cap wp rp)
      else Ok (mkTLog f cap wp rp)
  end.

(** The 9 bytes of a slot. *)
Definition tx_encode (t : Transaction) : list Z := tx_code t :: u64_be (tx_timestamp t).

Definition tx_decode (buf : list Z) : outcome Transaction :=
  match buf with
  | 0 :: ts => Ok (TxWriteRecord (from_be ts))
  | 1 :: ts => Ok (TxUpdateRecord (from_be ts))
  | _ => Err InternalServerError
  end.

(** A position moved by one slot, wrapping at the capacity. *)
Definition advance (cap pos : Z) : Z :=
  let pos := u64_add pos ENTRY_SIZE in if decide (cap ≤ pos) then HEADER_SIZE else pos.

(** [is_empty] and [len]. *)
Definition tl_is_empty (l : TransactionLog) : bool := bool_decide (read_pos l = write_pos l).

Definition tl_len (l : TransactionLog) : Z :=
  let len_in_bytes :=
    if decide (read_pos l ≤ write_pos l) then u64_sub (write_pos l) (read_pos l)
    else u64_add (u64_sub (u64_sub (capacity_in_bytes l) HEADER_SIZE) (read_pos l)) (write_pos l) in
  len_in_bytes / ENTRY_SIZE.

(** The loop of [unsafe_head]; it starts at [pos] and makes [n] turns at most. *)
Fixpoint head_loop (l : TransactionLog) (pos : Z) (n : nat) : outcome (list Transaction) :=
  match n with
  | O => Ok []
  | S n' =>
      buf ← ok_or InternalServerError (read_at (Z.to_nat pos) 9 (tl_file l));
      t ← tx_decode buf;
      let pos' := advance (capacity_in_bytes l) pos in
      if decide (pos' = write_pos l) then Ok [t]
      else ts ← head_loop l pos' n'; Ok (t :: ts)
  end.

Definition unsafe_head (l : TransactionLog) (n : nat) : outcome (list Transaction) :=
  head_loop l (read_pos l) n.

(** [unsafe_pop]. *)
Definition unsafe_pop (l : TransactionLog) : TransactionLog :=
  let rp := advance (capacity_in_bytes l) (read_pos l) in
  mkTLog (write_at 8 (u64_be rp) (tl_file l)) (capacity_in_bytes l) (write_pos l) rp.

(** [push_back], first the write of the slot and of the write position ... *)
Definition push_write (l : TransactionLog) (t : Transaction) : TransactionLog :=
  let f := write_at (Z.to_nat (write_pos l)) (tx_encode t) (tl_file l) in
  let wp := advance (capacity_in_bytes l) (write_pos l) in
  mkTLog (write_at 0 (u64_be wp) f) (capacity_in_bytes l) wp (read_pos l).

(** ... then, when the log is full, the oldest transaction is dropped. *)
Definition push_back (l : TransactionLog) (t : Transaction)
    : outcome (option Transaction * TransactionLog) :=
  let l := push_write l t in
  if decide (write_pos l = read_pos l) then
    ts ← unsafe_head l 1; Ok (list.head ts, unsafe_pop l)
  else Ok (None, l).

(** [front]. *)
Definition front (l : TransactionLog) (n : nat) : outcome (list Transaction) :=
  if tl_is_empty l then Ok [] else unsafe_head l n.

(** [pop_front]. *)
Fixpoint pop_front (l : TransactionLog) (n : nat) : nat * TransactionLog :=
  match n with
  | O => (O, l)
  | S n' =>
      if decide (read_pos l = write_pos l) then (O, l)
      else let '(popped, l') := pop_front (unsafe_pop l) n' in (S popped, l')
  end.

(** ** Representation *)

(** Index arithmetic of a ring of [n] slots, for indices below [2 n]. *)
Definition ring (n i : nat) : nat := if decide (i < n)%nat then i else (i - n)%nat.
Definition slot (i : nat) : Z := 16 + 9 * Z.of_nat i.

Definition tx_valid (t : Transaction) : Prop := is_u64 (tx_timestamp t).

(** The log holds the transactions [q], oldest first, in [n] slots starting at
    slot [r]; one slot stays free, so that a full log is not an empty one. *)
Record tlog_rep (l : TransactionLog) (n r : nat) (q : list Transaction) : Prop := {
  rep_slots : (r < n)%nat;
  rep_room : (length q < n)%nat;
  rep_cap : capacity_in_bytes l = slot n;
  rep_cap_bound : slot n < two64;
  rep_file : length (tl_file l) = Z.to_nat (slot n);
  rep_rp : read_pos l = slot r;
  rep_wp : write_pos l = slot (ring n (r + length q));
  rep_hdr_w : read_at 0 8 (tl_file l) = Some (u64_be (write_pos l));
  rep_hdr_r : read_at 8 8 (tl_file l) = Some (u64_be (read_pos l));
  rep_valid : Forall tx_valid q;
  rep_data : ∀ j t, q !! j = Some t →
    read_at (Z.to_nat (slot (ring n (r + j)))) 9 (tl_file l) = Some (tx_encode t)
}.

Ltac ring_lia := unfold ring, slot, HEADER_SIZE, ENTRY_SIZE in *; repeat case_decide; u64_lia.

Lemma ring_lt n i : (0 < n)%nat → (i < n + n)%nat → (ring n i < n)%nat.
Proof. intros. ring_lia. Qed.

Lemma ring_inj n i j : (i < j)%nat → (j < i + n)%nat → (j < n + n)%nat → ring n i ≠ ring n j.
Proof. intros. ring_lia. Qed.

Lemma advance_slot n i : (i < n)%nat → slot n < two64 → advance (slot n) (slot i) = slot (ring n (S i)).
Proof.
  intros Hi Hn. unfold advance, ENTRY_SIZE. rewrite u64_add_small by ring_lia. ring_lia.
Qed.

Lemma length_tx_encode t : length (tx_encode t) = 9%nat.
Proof. done. Qed.

Lemma tx_decode_encode t : tx_valid t → tx_decode (tx_encode t) = Ok t.
Proof.
  intros Ht. unfold tx_encode. destruct t as [ts|ts]; cbn [tx_code tx_decode tx_timestamp];
    by rewrite from_be_u64_be.
Qed.

(** The positions in a log that represents something are multiples of the slot
    size inside the file. *)
Lemma rep_wp_range l n r q : tlog_rep l n r q → ∃ w, (w < n)%nat ∧ write_pos l = slot w.
Proof.
  intros Hr. exists (ring n (r + length q)). split; [|apply Hr].
  pose proof (rep_slots _ _ _ _ Hr). pose proof (rep_room _ _ _ _ Hr). apply ring_lt; lia.
Qed.

(** ** Refinement of a bounded queue *)

Lemma ring_S n i : (i < n + n)%nat → (0 < n)%nat → (S i < n + n)%nat →
  ring n (S (ring n i)) = ring n (S i).
Proof. intros. ring_lia. Qed.

Lemma slot_nat_le i j : (i < j)%nat → (Z.to_nat (slot i) + 9 ≤ Z.to_nat (slot j))%nat.
Proof. unfold slot. lia. Qed.

(** Writing a header word leaves the slots and the other word alone. *)
Lemma read_slot_header pos buf f i :
  (pos + length buf ≤ 16)%nat → (16 ≤ length f)%nat →
  read_at (Z.to_nat (slot i)) 9 (write_at pos buf f) = read_at (Z.to_nat (slot i)) 9 f.
Proof. intros. apply read_write_disjoint; unfold slot; lia. Qed.

(** Writing a slot leaves the header and the other slots alone. *)
Lemma read_slot_other i j buf f :
  length buf = 9%nat → i ≠ j → (Z.to_nat (slot i) ≤ length f)%nat →
  read_at (Z.to_nat (slot j)) 9 (write_at (Z.to_nat (slot i)) buf f) =
  read_at (Z.to_nat (slot j)) 9 f.
Proof.
  intros Hb Hne Hl. apply read_write_disjoint; [|done]. rewrite Hb.
  destruct (decide (i < j)%nat); [right|left]; apply slot_nat_le; lia.
Qed.

Lemma unsafe_pop_rep l n r t q :
  tlog_rep l n r (t :: q) → tlog_rep (unsafe_pop l) n (ring n (S r)) q.
Proof.
  intros Hr. pose proof (rep_slots _ _ _ _ Hr) as Hrn. pose proof (rep_room _ _ _ _ Hr) as Hq.
  simpl in Hq. pose proof (rep_file _ _ _ _ Hr) as Hf.
  assert (advance (capacity_in_bytes l) (read_pos l) = slot (ring n (S r))) as Hadv.
  { rewrite (rep_cap _ _ _ _ Hr), (rep_rp _ _ _ _ Hr). apply advance_slot; [done|apply Hr]. }
  assert (16 ≤ length (tl_file l))%nat by (rewrite Hf; unfold slot; lia).
  unfold unsafe_pop. rewrite Hadv.
  split; simpl; try apply Hr; try done.
  - apply ring_lt; lia.
  - lia.
  - rewrite length_write_at_inside; [done|]. rewrite length_u64_be. lia.
  - rewrite (rep_wp _ _ _ _ Hr). simpl. f_equal. ring_lia.
  - rewrite read_write_disjoint by (rewrite ?length_u64_be; lia). apply Hr.
  - apply read_write_u64.
  - pose proof (rep_valid _ _ _ _ Hr) as Hv. by inversion Hv.
  - intros j t' Hj. rewrite read_slot_header by (rewrite ?length_u64_be; lia).
    rewrite <-(rep_data _ _ _ _ Hr (S j) t' Hj). do 2 f_equal.
    apply lookup_lt_Some in Hj. ring_lia.
Qed.

(** The state between the two halves of a push: all the slots may be in use,
    the write position then equals the read position. *)
Lemma push_write_rep l n r q t :
  tlog_rep l n r q → tx_valid t →
  let l' := push_write l t in
  write_pos l' = slot (ring n (r + S (length q))) ∧ read_pos l' = slot r ∧
  capacity_in_bytes l' = slot n ∧ length (tl_file l') = Z.to_nat (slot n) ∧
  read_at 0 8 (tl_file l') = Some (u64_be (write_pos l')) ∧
  read_at 8 8 (tl_file l') = Some (u64_be (read_pos l')) ∧
  ∀ j t', (q ++ [t]) !! j = Some t' →
    read_at (Z.to_nat (slot (ring n (r + j)))) 9 (tl_file l') = Some (tx_encode t').
Proof.
  intros Hr Ht. pose proof (rep_slots _ _ _ _ Hr) as Hrn. pose proof (rep_room _ _ _ _ Hr) as Hq.
  pose proof (rep_file _ _ _ _ Hr) as Hf. pose proof (rep_cap_bound _ _ _ _ Hr) as Hcb.
  set (w := ring n (r + length q)).
  assert (w < n)%nat as Hw by (apply ring_lt; lia).
  assert (advance (capacity_in_bytes l) (write_pos l) = slot (ring n (r + S (length q)))) as Hadv.
  { rewrite (rep_cap _ _ _ _ Hr), (rep_wp _ _ _ _ Hr), advance_slot by done.
    f_equal. ring_lia. }
  assert (Z.to_nat (slot w) + 9 ≤ length (tl_file l))%nat as Hin
    by (rewrite Hf; apply slot_nat_le; lia).
  assert (length (write_at (Z.to_nat (slot w)) (tx_encode t) (tl_file l)) = length (tl_file l)) as Hlen
    by (apply length_write_at_inside; rewrite length_tx_encode; lia).
  assert (16 ≤ length (tl_file l))%nat by (rewrite Hf; unfold slot; lia).
  unfold push_write. rewrite Hadv, (rep_wp _ _ _ _ Hr). fold w. cbn [tl_file write_pos read_pos capacity_in_bytes].
  split_and!; [done|apply Hr|apply Hr| | | |].
  - rewrite length_write_at_inside; [by rewrite Hlen|]. rewrite length_u64_be. lia.
  - apply read_write_u64.
  - rewrite read_write_disjoint by (rewrite ?length_u64_be, ?Hlen; lia).
    rewrite read_write_disjoint by (unfold slot in *; lia). apply Hr.
  - intros j t' Hj. rewrite read_slot_header by (rewrite ?length_u64_be, ?Hlen; lia).
    apply lookup_app_Some in Hj as [Hj|[Hj1 Hj2]].
    + rewrite read_slot_other; [by apply Hr|apply length_tx_encode| |lia].
      apply lookup_lt_Some in Hj. intros Heq. symmetry in Heq. revert Heq. apply ring_inj; lia.
    + apply list_lookup_singleton_Some in Hj2 as [Hj2 <-].
      replace j with (length q) by lia. fold w.
      apply read_write_len, length_tx_encode.
Qed.

(** One turn of [unsafe_head] on a representation of the slots. *)
Lemma head_loop_spec l n r q m pos :
  (r < n)%nat → (length q ≤ n)%nat → (0 < length q)%nat → slot n < two64 →
  capacity_in_bytes l = slot n → write_pos l = slot (ring n (r + length q)) →
  Forall tx_valid q → pos = slot r →
  (∀ j t, q !! j = Some t →
     read_at (Z.to_nat (slot (ring n (r + j)))) 9 (tl_file l) = Some (tx_encode t)) →
  (0 < m)%nat →
  head_loop l pos m = Ok (take m q).
Proof.
  revert r q pos. induction m as [|m IH]; intros r q pos Hr Hlen Hpos Hcb Hcap Hw Hv -> Hd Hm; [lia|].
  destruct q as [|t q]; simpl in Hpos; [lia|]. inversion_clear Hv as [|? ? Ht Hv'].
  cbn [head_loop]. specialize (Hd 0%nat t eq_refl) as Hd0. rewrite Nat.add_0_r in Hd0.
  replace (ring n r) with r in Hd0 by ring_lia. rewrite Hd0. cbn [ok_or mbind outcome_bind].
  rewrite tx_decode_encode by done. cbn [mbind outcome_bind].
  rewrite Hcap, advance_slot, Hw by done. cbn [length] in *.
  assert ((ring n (S r) = ring n (r + S (length q))) ↔ q = []) as Hend.
  { split; [|intros ->; simpl; f_equal; lia]. intros Heq. destruct q; [done|].
    exfalso. revert Heq. apply ring_inj; simpl in *; lia. }
  destruct (decide (slot (ring n (S r)) = slot (ring n (r + S (length q))))) as [He|He].
  - assert (ring n (S r) = ring n (r + S (length q))) as ->%Hend by (unfold slot in He; lia).
    by destruct m.
  - assert (q ≠ []) as Hq. { intros Hq. apply He. f_equal. by apply Hend. }
    destruct m as [|m]; [done|].
    rewrite (IH (ring n (S r)) q); try done; try lia.
    + apply ring_lt; lia.
    + destruct q; [done|]. simpl; lia.
    + rewrite Hw. f_equal. ring_lia.
    + intros j t' Hj. rewrite <-(Hd (S j) t' Hj). do 3 f_equal.
      apply lookup_lt_Some in Hj. ring_lia.
Qed.

(** ** The queue the log promises *)

(** What the log promises to its users: a queue of at most [n - 1] transactions
    that drops its oldest one when it would hold [n]. *)
Definition spec_push (n : nat) (q : list Transaction) (t : Transaction)
    : option Transaction * list Transaction :=
  let q' := q ++ [t] in
  if decide (length q' = n) then (list.head q', tail q') else (None, q').

Lemma push_back_rep l n r q t :
  tlog_rep l n r q → tx_valid t →
  ∃ l' r', push_back l t = Ok ((spec_push n q t).1, l') ∧ tlog_rep l' n r' (spec_push n q t).2.
Proof.
  intros Hr Ht. pose proof (push_write_rep l n r q t Hr Ht) as (Hw & Hrp & Hcap & Hf & H0 & H8 & Hd).
  pose proof (rep_slots _ _ _ _ Hr) as Hrn. pose proof (rep_room _ _ _ _ Hr) as Hq.
  pose proof (rep_cap_bound _ _ _ _ Hr) as Hcb.
  assert (Forall tx_valid (q ++ [t])) as Hv by (apply Forall_app_2; [apply Hr|by constructor]).
  assert (length (q ++ [t]) = S (length q)) as Hlen by (rewrite length_app; simpl; lia).
  unfold push_back, spec_push. set (l1 := push_write l t) in *. clearbody l1. rewrite Hlen.
  destruct (decide (S (length q) = n)) as [Hfull|Hroom].
  - rewrite decide_True by (rewrite Hw, Hrp; f_equal; ring_lia).
    unfold unsafe_head.
    rewrite (head_loop_spec l1 n r (q ++ [t]) 1) by (rewrite ?Hlen; first [done|lia]).
    destruct (q ++ [t]) as [|t0 q0] eqn:Eq; [by destruct q|]. cbn [mbind outcome_bind take list.head tail fst snd].
    eexists _, (ring n (S r)). split; [done|].
    assert (advance (capacity_in_bytes l1) (read_pos l1) = slot (ring n (S r))) as Hadv
      by (rewrite Hcap, Hrp; by apply advance_slot).
    assert (16 ≤ length (tl_file l1))%nat by (rewrite Hf; unfold slot; lia).
    unfold unsafe_pop. rewrite Hadv. simpl in Hlen.
    split; cbn [tl_file capacity_in_bytes write_pos read_pos]; try done; try lia.
    + apply ring_lt; lia.
    + rewrite length_write_at_inside; [done|]. rewrite length_u64_be. lia.
    + rewrite Hw. f_equal. ring_lia.
    + rewrite read_write_disjoint by (rewrite ?length_u64_be; lia). done.
    + apply read_write_u64.
    + by inversion Hv.
    + intros j t' Hj. rewrite read_slot_header by (rewrite ?length_u64_be; lia).
      rewrite <-(Hd (S j) t' Hj). do 2 f_equal. apply lookup_lt_Some in Hj. ring_lia.
  - rewrite decide_False by (rewrite Hw, Hrp; ring_lia).
    eexists _, r. split; [done|]. cbn [snd].
    split; try done; try (rewrite ?Hlen; lia).
Qed.

Lemma pop_front_rep l n r q m :
  tlog_rep l n r q →
  ∃ l' r', pop_front l m = (Nat.min m (length q), l') ∧ tlog_rep l' n r' (drop m q).
Proof.
  revert l r q. induction m as [|m IH]; intros l r q Hr; simpl.
  - by exists l, r.
  - pose proof (rep_slots _ _ _ _ Hr). pose proof (rep_room _ _ _ _ Hr).
    rewrite (rep_rp _ _ _ _ Hr), (rep_wp _ _ _ _ Hr).
    destruct q as [|t q]; simpl in *.
    + rewrite decide_True by ring_lia. by exists l, r.
    + rewrite decide_False by ring_lia.
      destruct (IH _ _ _ (unsafe_pop_rep _ _ _ _ _ Hr)) as (l' & r' & -> & Hr'). by exists l', r'.
Qed.

Lemma front_rep l n r q m : tlog_rep l n r q → front l m = Ok (take m q).
Proof.
  intros Hr. pose proof (rep_slots _ _ _ _ Hr). pose proof (rep_room _ _ _ _ Hr).
  unfold front, tl_is_empty. rewrite (rep_rp _ _ _ _ Hr), (rep_wp _ _ _ _ Hr).
  destruct q as [|t q].
  - rewrite bool_decide_true by (simpl; ring_lia). by destruct m.
  - rewrite bool_decide_false by (simpl in *; ring_lia). destruct m as [|m]; [done|].
    unfold unsafe_head. apply (head_loop_spec _ n r); try apply Hr; simpl in *; try lia.
Qed.

Lemma tl_len_rep l n r q : tlog_rep l n r q → tl_len l = Z.of_nat (length q).
Proof.
  intros Hr. pose proof (rep_slots _ _ _ _ Hr). pose proof (rep_room _ _ _ _ Hr).
  pose proof (rep_cap_bound _ _ _ _ Hr).
  unfold tl_len. rewrite (rep_rp _ _ _ _ Hr), (rep_wp _ _ _ _ Hr), (rep_cap _ _ _ _ Hr).
  unfold ring, slot, ENTRY_SIZE, HEADER_SIZE in *.
  symmetry; apply Z.div_unique with (r := 0); [lia|].
  destruct (decide (r + length q < n)%nat).
  - rewrite decide_True by lia. rewrite u64_sub_small by lia. lia.
  - rewrite decide_False by lia.
    unfold u64_sub at 1. rewrite u64_add_wrap_l, u64_wrap_small by (rewrite u64_sub_small by lia; u64_lia).
    rewrite u64_sub_small by lia. lia.
Qed.

(** ** Opening the log *)

Lemma take_drop_header f : (16 ≤ length f)%nat →
  ∃ buf, read_at 0 16 f = Some buf ∧ read_at 0 8 f = Some (take 8 buf) ∧ read_at 8 8 f = Some (drop 8 buf).
Proof.
  intros Hl. unfold read_at. rewrite drop_0. exists (take 16 f).
  rewrite !decide_True by (rewrite ?length_take, ?length_drop; lia).
  split_and!; [done|by rewrite take_take|]. f_equal.
  rewrite take_drop_commute. done.
Qed.

Lemma integrity_check_slots init n w r :
  16 ≤ init → slot n < two64 → (w < n)%nat → (r < n)%nat →
  integrity_check init (slot n) (slot w) (slot r) = Ok tt.
Proof.
  intros Hi Hn Hw Hr. unfold integrity_check, check_pos, HEADER_SIZE, ENTRY_SIZE.
  assert (∀ i, (i ≤ n)%nat → Z.rem (u64_sub (slot i) 16) 9 = 0) as Hrem.
  { intros i Hle. rewrite u64_sub_small by (unfold slot in *; lia).
    replace (slot i - 16) with (Z.of_nat i * 9) by (unfold slot; lia). apply Z.rem_mul. lia. }
  rewrite decide_False by (rewrite Hrem by lia; lia).
  rewrite decide_False by (rewrite Hrem by lia; unfold slot in *; lia). simpl.
  rewrite decide_False by (rewrite Hrem by lia; unfold slot in *; lia). done.
Qed.

Lemma check_pos_past cap pos : cap ≤ pos → check_pos cap pos = Err InternalServerError.
Proof. intros Hle. unfold check_pos. by rewrite decide_True by auto. Qed.

(** Loading a file whose header names the slots [w] and [r]. *)
Lemma load_slots f n w r m :
  length f = Z.to_nat (slot n) → slot n < two64 → slot m < two64 → (w < n)%nat → (r < n)%nat →
  read_at 0 8 f = Some (u64_be (slot w)) → read_at 8 8 f = Some (u64_be (slot r)) →
  try_load_or_create (Some f) (Z.of_nat m) =
    Ok (if decide (m = n ∨ w ≠ r) then mkTLog f (slot n) (slot w) (slot r)
        else mkTLog (set_len (Z.to_nat (slot m)) f) (slot m) (slot w) (slot r)).
Proof.
  intros Hf Hn Hm Hw Hr H0 H8. unfold try_load_or_create.
  assert (u64_add (u64_mul (Z.of_nat m) ENTRY_SIZE) HEADER_SIZE = slot m) as ->.
  { unfold u64_mul, ENTRY_SIZE, HEADER_SIZE. rewrite u64_add_wrap_l, u64_wrap_small; unfold slot in *; u64_lia. }
  destruct (take_drop_header f) as (buf & -> & Hb0 & Hb8); [rewrite Hf; unfold slot; lia|].
  cbn [ok_or mbind outcome_bind].
  rewrite H0 in Hb0. rewrite H8 in Hb8. injection Hb0 as <-. injection Hb8 as <-.
  rewrite !from_be_u64_be by (unfold slot in *; u64_lia).
  rewrite Hf, Z2Nat.id by (unfold slot; lia).
  rewrite integrity_check_slots by (done || unfold slot; lia). cbn [mbind outcome_bind].
  unfold slot in *. repeat case_decide; try done; exfalso; lia.
Qed.

Lemma create_rep m : (0 < m)%nat → slot m < two64 →
  ∃ l, try_load_or_create None (Z.of_nat m) = Ok l ∧ tlog_rep l m 0 [].
Proof.
  intros Hm Hb. unfold try_load_or_create.
  assert (u64_add (u64_mul (Z.of_nat m) ENTRY_SIZE) HEADER_SIZE = slot m) as ->.
  { unfold u64_mul, ENTRY_SIZE, HEADER_SIZE. rewrite u64_add_wrap_l, u64_wrap_small; unfold slot in *; u64_lia. }
  eexists. split; [done|].
  assert (16 ≤ Z.to_nat (slot m))%nat by (unfold slot; lia).
  split; cbn [tl_file capacity_in_bytes write_pos read_pos length]; try done; try lia.
  - rewrite !length_write_at, !length_u64_be, length_set_len. lia.
  - unfold HEADER_SIZE. ring_lia.
Qed.

(** Reopening a log with its capacity gives back the log. *)
Lemma reload_rep l n r q :
  tlog_rep l n r q → try_load_or_create (Some (tl_file l)) (Z.of_nat n) = Ok l.
Proof.
  intros Hr. pose proof (rep_slots _ _ _ _ Hr). pose proof (rep_room _ _ _ _ Hr).
  rewrite (load_slots _ n (ring n (r + length q)) r); try apply Hr.
  - rewrite decide_True by auto. rewrite <-(rep_wp _ _ _ _ Hr), <-(rep_rp _ _ _ _ Hr), <-(rep_cap _ _ _ _ Hr).
    by destruct l.
  - apply ring_lt; lia.
  - rewrite <-(rep_wp _ _ _ _ Hr). apply Hr.
  - rewrite <-(rep_rp _ _ _ _ Hr). apply Hr.
Qed.

(** ** Properties *)

(** The calls a replication makes on its log, and a restart of the server, which
    reopens the file. *)
Inductive tl_op := TlPush (t : Transaction) | TlPop (n : nat) | TlReload.
Inductive tl_obs := ObsPush (dropped : option Transaction) | ObsPop (popped : nat) | ObsReload.

Definition tl_op_valid (o : tl_op) : Prop :=
  match o with TlPush t => tx_valid t | _ => True end.

Definition tl_step (n : nat) (o : tl_op) (l : TransactionLog) : outcome (tl_obs * TransactionLog) :=
  match o with
  | TlPush t => '(d, l') ← push_back l t; Ok (ObsPush d, l')
  | TlPop m => let '(p, l') := pop_front l m in Ok (ObsPop p, l')
  | TlReload => l' ← try_load_or_create (Some (tl_file l)) (Z.of_nat n); Ok (ObsReload, l')
  end.

Fixpoint tl_run (n : nat) (ops : list tl_op) (l : TransactionLog)
    : outcome (list tl_obs * TransactionLog) :=
  match ops with
  | [] => Ok ([], l)
  | o :: ops' =>
      '(b, l') ← tl_step n o l; '(bs, l'') ← tl_run n ops' l'; Ok (b :: bs, l'')
  end.

Definition spec_step (n : nat) (o : tl_op) (q : list Transaction) : tl_obs * list Transaction :=
  match o with
  | TlPush t => let '(d, q') := spec_push n q t in (ObsPush d, q')
  | TlPop m => (ObsPop (Nat.min m (length q)), drop m q)
  | TlReload => (ObsReload, q)
  end.

Fixpoint spec_run (n : nat) (ops : list tl_op) (q : list Transaction)
    : list tl_obs * list Transaction :=
  match ops with
  | [] => ([], q)
  | o :: ops' =>
      let '(b, q') := spec_step n o q in let '(bs, q'') := spec_run n ops' q' in (b :: bs, q'')
  end.

Lemma tl_step_rep n o l r q :
  tlog_rep l n r q → tl_op_valid o →
  ∃ l' r', tl_step n o l = Ok ((spec_step n o q).1, l') ∧ tlog_rep l' n r' (spec_step n o q).2.
Proof.
  intros Hr Ho. destruct o as [t|m|]; cbn [tl_step spec_step].
  - destruct (push_back_rep l n r q t Hr Ho) as (l' & r' & -> & Hr').
    exists l', r'. by destruct (spec_push n q t).
  - destruct (pop_front_rep l n r q m Hr) as (l' & r' & -> & Hr'). by exists l', r'.
  - rewrite (reload_rep l n r q Hr). by exists l, r.
Qed.

Lemma tl_run_rep n ops l r q :
  tlog_rep l n r q → Forall tl_op_valid ops →
  ∃ l' r', tl_run n ops l = Ok ((spec_run n ops q).1, l') ∧ tlog_rep l' n r' (spec_run n ops q).2.
Proof.
  intros Hr Hv. revert l r q Hr. induction Hv as [|o ops Ho Hops IH]; intros l r q Hr.
  - by exists l, r.
  - cbn [tl_run spec_run]. destruct (tl_step_rep n o l r q Hr Ho) as (l1 & r1 & -> & Hr1).
    cbn [mbind outcome_bind]. destruct (spec_step n o q) as [b q1]. cbn [fst snd] in *.
    destruct (IH _ _ _ Hr1) as (l2 & r2 & -> & Hr2). exists l2, r2.
    cbn [mbind outcome_bind]. by destruct (spec_run n ops q1).
Qed.

(** C8: A transaction log with room for [n] slots behaves as a bounded queue.
    For every sequence of pushes, pops and restarts on a new log, every call
    succeeds and returns what the queue returns (the transaction dropped by a
    push on a full log, the number of popped ones), and afterwards [front],
    [len] and [is_empty] describe exactly the transactions of the queue. *)
Theorem transaction_log_refines_queue (n : nat) (ops : list tl_op) :
  (0 < n)%nat → slot n < two64 → Forall tl_op_valid ops →
  ∃ l0 l, try_load_or_create None (Z.of_nat n) = Ok l0 ∧
    tl_run n ops l0 = Ok ((spec_run n ops []).1, l) ∧
    (∀ m, front l m = Ok (take m (spec_run n ops []).2)) ∧
    tl_len l = Z.of_nat (length (spec_run n ops []).2) ∧
    (tl_is_empty l = true ↔ (spec_run n ops []).2 = []).
Proof.
  intros Hn Hb Hv. destruct (create_rep n Hn Hb) as (l0 & Hl0 & Hr0).
  destruct (tl_run_rep n ops l0 0 [] Hr0 Hv) as (l & r & Hrun & Hr).
  exists l0, l. split_and!; [done|done| | |].
  - intros m. by eapply front_rep.
  - by eapply tl_len_rep.
  - unfold tl_is_empty. rewrite bool_decide_eq_true, (rep_rp _ _ _ _ Hr), (rep_wp _ _ _ _ Hr).
    pose proof (rep_slots _ _ _ _ Hr). pose proof (rep_room _ _ _ _ Hr).
    destruct (spec_run n ops []) as [obs [|t q]]; cbn [snd length] in *; [|split; [ring_lia|done]].
    split; [done|intros _; ring_lia].
Qed.

Definition demo_ops : list tl_op :=
  [TlPush (TxWriteRecord 5); TlPush (TxUpdateRecord 7); TlPush (TxWriteRecord 9); TlReload; TlPop 1].

Lemma transaction_log_refines_queue_witness :
  Forall tl_op_valid demo_ops ∧
  ∃ l0 l, try_load_or_create None 3 = Ok l0 ∧
    tl_run 3 demo_ops l0 =
      Ok ([ObsPush None; ObsPush None; ObsPush (Some (TxWriteRecord 5)); ObsReload; ObsPop 1], l) ∧
    front l 10 = Ok [TxWriteRecord 9].
Proof.
  assert (Forall tl_op_valid demo_ops) as Hv
    by (repeat constructor; unfold tl_op_valid, tx_valid, tx_timestamp; u64_lia).
  split; [exact Hv|].
  destruct (transaction_log_refines_queue 3 demo_ops ltac:(lia) ltac:(unfold slot; u64_lia) Hv)
    as (l0 & l & H1 & H2 & H3 & _).
  exists l0, l. split; [exact H1|]. split; [exact H2|]. apply (H3 10%nat).
Defined.

(** A crash between the two header writes of a push on a full log empties the
    log.  [push_back] writes the slot and the new write position first and moves
    the read position afterwards; the file in between, reopened, has equal
    positions and reads as an empty log, although it held [n - 1] transactions. *)
Theorem crash_in_push_loses_log (l : TransactionLog) (n r : nat) (q : list Transaction) t :
  tlog_rep l n r q → tx_valid t → S (length q) = n →
  ∃ l', try_load_or_create (Some (tl_file (push_write l t))) (Z.of_nat n) = Ok l' ∧
    tl_is_empty l' = true ∧ ∀ m, front l' m = Ok [].
Proof.
  intros Hr Ht Hfull. pose proof (push_write_rep l n r q t Hr Ht) as (Hw & Hrp & Hcap & Hf & H0 & H8 & _).
  pose proof (rep_slots _ _ _ _ Hr) as Hrn.
  replace (ring n (r + S (length q))) with r in Hw by ring_lia.
  rewrite Hw in H0. rewrite Hrp in H8.
  rewrite (load_slots _ n r r n Hf) by (done || apply Hr). rewrite decide_True by auto.
  eexists. split; [done|]. split; [by apply bool_decide_eq_true|].
  intros m. unfold front, tl_is_empty. by rewrite bool_decide_true.
Qed.

Lemma crash_in_push_loses_log_witness :
  ∃ l l', try_load_or_create None 2 = Ok l ∧
    ∃ l1, push_back l (TxWriteRecord 5) = Ok (None, l1) ∧
    try_load_or_create (Some (tl_file (push_write l1 (TxWriteRecord 6)))) 2 = Ok l' ∧
    front l' 10 = Ok [].
Proof.
  destruct (create_rep 2 ltac:(lia) ltac:(unfold slot; u64_lia)) as (l & Hl & Hr).
  assert (tx_valid (TxWriteRecord 5)) as H5 by (unfold tx_valid, tx_timestamp; u64_lia).
  assert (tx_valid (TxWriteRecord 6)) as H6 by (unfold tx_valid, tx_timestamp; u64_lia).
  destruct (push_back_rep l 2 0 [] (TxWriteRecord 5) Hr H5) as (l1 & r1 & Hp & Hr1).
  destruct (crash_in_push_loses_log l1 2 r1 [TxWriteRecord 5] (TxWriteRecord 6) Hr1 H6 eq_refl)
    as (l' & Hl' & _ & Hfront).
  exists l, l'. split; [exact Hl|]. exists l1. split; [exact Hp|]. split; [exact Hl'|]. apply Hfront.
Defined.

(** Shrinking an empty log can make it unreadable.  When the configured size
    changes, an empty log is truncated but keeps its positions; if they lie past
    the new end, the log opens once and the next start rejects the file. *)
Theorem shrink_breaks_reload (l : TransactionLog) (n m r : nat) :
  tlog_rep l n r [] → (0 < m)%nat → (m ≤ r)%nat →
  ∃ l', try_load_or_create (Some (tl_file l)) (Z.of_nat m) = Ok l' ∧
    try_load_or_create (Some (tl_file l')) (Z.of_nat m) = Err InternalServerError.
Proof.
  intros Hr Hm Hmr. pose proof (rep_slots _ _ _ _ Hr) as Hrn. pose proof (rep_cap_bound _ _ _ _ Hr) as Hb.
  pose proof (rep_hdr_w _ _ _ _ Hr) as H0. pose proof (rep_hdr_r _ _ _ _ Hr) as H8.
  rewrite (rep_wp _ _ _ _ Hr) in H0. rewrite (rep_rp _ _ _ _ Hr) in H8.
  replace (ring n (r + length (@nil Transaction))) with r in H0 by (simpl; ring_lia).
  assert (slot m < two64) as Hbm by (unfold slot in *; lia).
  rewrite (load_slots _ n r r m) by (done || apply Hr). rewrite decide_False by lia.
  eexists. split; [done|]. cbn [tl_file].
  set (f' := set_len (Z.to_nat (slot m)) (tl_file l)).
  assert (length f' = Z.to_nat (slot m)) as Hf' by apply length_set_len.
  assert (∀ i, (i < 16)%nat → f' !! i = tl_file l !! i) as Hsame.
  { intros i Hi. unfold f', set_len.
    pose proof (rep_file _ _ _ _ Hr) as Hf.
    rewrite lookup_app_l by (rewrite length_take, Hf; unfold slot; lia).
    apply lookup_take_lt. unfold slot; lia. }
  rewrite <-(read_at_ext 0 8 f') in H0 by (intros; apply Hsame; lia).
  rewrite <-(read_at_ext 8 8 f') in H8 by (intros; apply Hsame; lia).
  unfold try_load_or_create.
  destruct (take_drop_header f') as (buf & -> & Hb0 & Hb8); [rewrite Hf'; unfold slot; lia|].
  cbn [ok_or mbind outcome_bind].
  rewrite H0 in Hb0. rewrite H8 in Hb8. injection Hb0 as <-. injection Hb8 as <-.
  rewrite !from_be_u64_be by (unfold slot in *; u64_lia).
  unfold integrity_check. destruct (decide (_ < HEADER_SIZE ∨ _)); [done|].
  rewrite check_pos_past; [done|]. rewrite Hf'. unfold slot in *. lia.
Qed.

Definition shrink_demo : TransactionLog :=
  mkTLog (write_at 0 (u64_be 34) (write_at 8 (u64_be 34) (set_len 43 []))) 43 34 34.

Lemma shrink_demo_rep : tlog_rep shrink_demo 3 2 [].
Proof. split; try done; simpl; try lia; by constructor. Qed.

Lemma shrink_breaks_reload_witness :
  tlog_rep shrink_demo 3 2 [] ∧
  ∃ l', try_load_or_create (Some (tl_file shrink_demo)) 1 = Ok l' ∧
    try_load_or_create (Some (tl_file l')) 1 = Err InternalServerError.
Proof.
  split; [exact shrink_demo_rep|].
  exact (shrink_breaks_reload shrink_demo 3 1 2 shrink_demo_rep ltac:(lia) ltac:(lia)).
Defined.
