(* ===== verification/Cache.v ===== *)
(** * The expiring cache (core/cache.rs)

    A bounded map from keys to values with the time of the last access.  An
    insertion first drops what was not accessed for longer than [ttl] and then,
    if there are still too many entries, the one accessed least recently; what
    it drops is returned to the caller, who saves it. *)

From stdpp Require Import prelude gmap strings sorting fin_map_dom.
From Stdlib Require Import ZArith Lia.
From S2P Require Import Prelude Collections.
Open Scope Z_scope.

Record ExpiringValue (V : Type) := mkEV { ev_value : V; last_access : Z }.
Arguments mkEV {V} _ _.
Arguments ev_value {V} _.
Arguments last_access {V} _.

Record Cache (K V : Type) `{Countable K} := mkCache {
  store : gmap K (ExpiringValue V);
  cache_size : Z;
  ttl : Z
}.
Arguments mkCache {K V _ _} _ _ _.
Arguments store {K V _ _} _.
Arguments cache_size {K V _ _} _.
Arguments ttl {K V _ _} _.

Section Cache.
Context `{HashIter} {K V : Type} `{Countable K}.
Implicit Types (c : Cache K V) (k : K) (v : V) (s : gmap K (ExpiringValue V)).

(** ** Operations

    [t] is the reading of the clock ([now_since_start]) an operation makes, and
    [now k] the one it makes for key [k] while it scans the entries. *)

(** [ExpiringValue::touch] and [last_access_elapsed]. *)
Definition touch (t : Z) (e : ExpiringValue V) : ExpiringValue V := mkEV (ev_value e) t.
Definition last_access_elapsed (t : Z) (e : ExpiringValue V) : Z := u64_sat_sub t (last_access e).

Definition with_store c s : Cache K V := mkCache s (cache_size c) (ttl c).

(** [Cache::new]. *)
Definition cache_new (size ttl : Z) : Cache K V := mkCache ∅ size ttl.

(** [Cache::remove]. *)
Definition cache_remove k c : option V * Cache K V :=
  (ev_value <$> store c !! k, with_store c (delete k (store c))).

(** One turn of the loop that removes the expired keys. *)
Definition remove_one (acc : list (K * V) * gmap K (ExpiringValue V)) k :=
  match acc.2 !! k with
  | Some e => (acc.1 ++ [(k, ev_value e)], delete k acc.2)
  | None => acc
  end.

(** One turn of the search for the oldest entry. *)
Definition pick_oldest (oldest : option (K * Z)) (ke : K * ExpiringValue V) : option (K * Z) :=
  match oldest with
  | Some (k, ts) => if decide (last_access ke.2 < ts) then Some (ke.1, last_access ke.2)
                    else Some (k, ts)
  | None => Some (ke.1, last_access ke.2)
  end.

(** [Cache::discard_old_descriptors]. *)
Definition discard_old_descriptors (now : K → Z) c : outcome (list (K * V) * Cache K V) :=
  let keys_to_remove :=
    (filter (λ ke, last_access_elapsed (now ke.1) ke.2 > ttl c) (hash_iter (store c))).*1 in
  let '(removed, s) := foldl remove_one ([], store c) keys_to_remove in
  if decide (Z.of_nat (base.size s) > cache_size c) then
    oldest ← unwrap (foldl pick_oldest None (hash_iter s));
    let '(removed', s') := remove_one (removed, s) oldest.1 in
    Ok (removed', with_store c s')
  else Ok (removed, with_store c s).

(** [Cache::discard_expired]. *)
Definition discard_expired (now : K → Z) c := discard_old_descriptors now c.

(** [Cache::insert]. *)
Definition cache_insert (t : Z) (now : K → Z) k v c : outcome (list (K * V) * Cache K V) :=
  discard_old_descriptors now (with_store c (<[k := mkEV v t]> (store c))).

(** [Cache::get]: touches the entry. *)
Definition cache_get (t : Z) k c : option V * Cache K V :=
  (ev_value <$> store c !! k, with_store c (alter (touch t) k (store c))).

(** [Cache::values]: touches every entry. *)
Definition cache_values (t : Z) c : list V * Cache K V :=
  ((ev_value ∘ snd) <$> hash_iter (store c), with_store c (touch t <$> store c)).

(** [Cache::keys], [len] and [clear]. *)
Definition cache_keys c : list K := (hash_iter (store c)).*1.
Definition cache_len c : nat := base.size (store c).
Definition cache_clear c : Cache K V := with_store c ∅.

(** The cached values, forgetting the access times. *)
Definition cached c : gmap K V := ev_value <$> store c.

(** ** The loops *)

Lemma remove_loop l acc :
  NoDup l →
  foldl remove_one acc l =
    (acc.1 ++ omap (λ k, (λ e, (k, ev_value e)) <$> acc.2 !! k) l,
     filter (λ ke, ke.1 ∉ l) acc.2).
Proof.
  revert acc. induction l as [|k l IH]; intros [r s] Hnd; simpl.
  - rewrite app_nil_r. f_equal. symmetry. apply map_filter_id. intros; simpl. set_solver.
  - apply NoDup_cons in Hnd as [Hk Hnd]. rewrite IH by done. unfold remove_one; simpl.
    assert (∀ s', s' = delete k s → filter (λ ke : K * ExpiringValue V, ke.1 ∉ l) s' =
                    filter (λ ke : K * ExpiringValue V, ke.1 ∉ k :: l) s) as Hf.
    { intros s' ->. apply map_eq. intros i. apply option_eq. intros e.
      rewrite !map_lookup_filter_Some, lookup_delete_Some. simpl. set_solver. }
    destruct (s !! k) as [e|] eqn:E; simpl.
    + rewrite <-app_assoc. f_equal; [|by apply Hf]. simpl. do 2 f_equal.
      apply omap_ext_in. intros k' Hi. rewrite lookup_delete_ne; [done|]. by intros ->.
    + f_equal. rewrite <-Hf with (s' := s); [done|]. by rewrite delete_id.
Qed.

Lemma pick_oldest_some l acc :
  l ≠ [] ∨ acc ≠ None → is_Some (foldl pick_oldest acc l).
Proof.
  revert acc. induction l as [|ke l IH]; intros acc Ha; simpl.
  - destruct acc; [done|]. naive_solver.
  - apply IH. right. destruct acc as [[k ts]|]; simpl; [by case_decide|done].
Qed.

(** The search returns an entry with the least access time. *)
Lemma pick_oldest_spec l acc k ts :
  foldl pick_oldest acc l = Some (k, ts) →
  (acc = Some (k, ts) ∨ ∃ e, (k, e) ∈ l ∧ last_access e = ts) ∧
  (∀ k' ts', acc = Some (k', ts') → ts ≤ ts') ∧
  Forall (λ ke, ts ≤ last_access ke.2) l.
Proof.
  revert acc. induction l as [|[k0 e0] l IH]; intros acc; simpl.
  - intros ->. split_and!; [by left|by intros ? ? [= -> ->]|constructor].
  - intros Hf. destruct (IH _ Hf) as (H1 & H2 & H3). clear IH Hf.
    destruct acc as [[ka ta]|]; simpl in *; [case_decide as Hd|].
    + split_and!.
      * right. destruct H1 as [[= <- <-]|(e & He & Hts)]; [exists e0; set_solver|exists e; set_solver].
      * intros ? ? [= <- <-]. specialize (H2 _ _ eq_refl). lia.
      * constructor; [|done]. simpl. by eapply H2.
    + split_and!.
      * destruct H1 as [H1|(e & He & Hts)]; [by left|right; exists e; set_solver].
      * intros ? ? [= <- <-]. by eapply H2.
      * constructor; [|done]. simpl. specialize (H2 _ _ eq_refl). lia.
    + split_and!.
      * right. destruct H1 as [[= <- <-]|(e & He & Hts)]; [exists e0; set_solver|exists e; set_solver].
      * done.
      * constructor; [|done]. simpl. by eapply H2.
Qed.

(** ** Specification of the eviction *)

Context `{!HashIterLaws}.

Definition expired (now : K → Z) c k : Prop :=
  ∃ e, store c !! k = Some e ∧ last_access_elapsed (now k) e > ttl c.

(** What [discard_old_descriptors] does: it always returns; what it removed and
    what it kept make up the cache; it keeps no expired entry; it removes a live
    one only when the live ones exceed the size, and then exactly one, which
    was accessed no later than any live entry. *)
Record discards (now : K → Z) c (removed : list (K * V)) c' : Prop := {
  dis_params : cache_size c' = cache_size c ∧ ttl c' = ttl c;
  dis_nodup : NoDup removed.*1;
  dis_kept k e : store c' !! k = Some e ↔ store c !! k = Some e ∧ k ∉ removed.*1;
  dis_removed k v : (k, v) ∈ removed ↔ cached c !! k = Some v ∧ k ∈ removed.*1;
  dis_expired k : expired now c k → k ∈ removed.*1;
  dis_live k e : k ∈ removed.*1 → store c !! k = Some e → ¬ expired now c k →
    cache_size c ≤ Z.of_nat (base.size (store c')) ∧
    (∀ k' e', store c !! k' = Some e' → ¬ expired now c k' → last_access e ≤ last_access e')
}.

Lemma expired_keys now c k :
  k ∈ (filter (λ ke, last_access_elapsed (now ke.1) ke.2 > ttl c) (hash_iter (store c))).*1 ↔
  expired now c k.
Proof.
  unfold expired. rewrite list_elem_of_fmap. split.
  - intros ([k' e] & -> & [Hgt Hin]%list_elem_of_filter). apply elem_of_hash_iter in Hin. by exists e.
  - intros (e & He & Hgt). exists (k, e). split; [done|].
    apply list_elem_of_filter. split; [done|]. by apply elem_of_hash_iter.
Qed.

Lemma expired_keys_nodup now c :
  NoDup (filter (λ ke, last_access_elapsed (now ke.1) ke.2 > ttl c) (hash_iter (store c))).*1.
Proof.
  apply (sublist_NoDup _ _ (NoDup_fst_hash_iter (store c))). apply fmap_sublist, sublist_filter.
Qed.

Lemma removed_fst (s : gmap K (ExpiringValue V)) (l : list K) :
  Forall (λ k, is_Some (s !! k)) l →
  (omap (λ k, (λ e, (k, ev_value e)) <$> s !! k) l).*1 = l.
Proof. induction 1 as [|k l [e He] _ IH]; csimpl; [done|]. rewrite He; csimpl. by rewrite IH. Qed.

Lemma elem_of_removed (s : gmap K (ExpiringValue V)) (l : list K) k v :
  (k, v) ∈ omap (λ k, (λ e, (k, ev_value e)) <$> s !! k) l ↔
  k ∈ l ∧ (ev_value <$> s) !! k = Some v.
Proof.
  rewrite list_elem_of_omap, lookup_fmap. split.
  - intros (k' & Hk' & Heq). destruct (s !! k') as [e|] eqn:E; simplify_eq/=. by rewrite E.
  - intros [Hk Hv]. exists k. split; [done|]. destruct (s !! k); simplify_eq/=. done.
Qed.

(** The cache after the expired entries are gone. *)
Lemma discard_expired_phase now c :
  ∃ removed s, foldl remove_one ([], store c)
      (filter (λ ke, last_access_elapsed (now ke.1) ke.2 > ttl c) (hash_iter (store c))).*1
      = (removed, s) ∧
    NoDup removed.*1 ∧ (∀ k, k ∈ removed.*1 ↔ expired now c k) ∧
    (∀ k v, (k, v) ∈ removed ↔ expired now c k ∧ cached c !! k = Some v) ∧
    (∀ k e, s !! k = Some e ↔ store c !! k = Some e ∧ ¬ expired now c k) ∧
    (base.size s ≤ base.size (store c))%nat.
Proof.
  rewrite remove_loop by apply expired_keys_nodup. do 2 eexists. split; [done|].
  cbn [fst snd]. rewrite app_nil_l, removed_fst.
  - split_and!.
    + apply expired_keys_nodup.
    + intros k. apply expired_keys.
    + intros k v. rewrite elem_of_removed, expired_keys. done.
    + intros k e. rewrite map_lookup_filter_Some. simpl. by rewrite expired_keys.
    + apply map_size_filter.
  - apply Forall_forall. intros k Hk%expired_keys. destruct Hk as (e & He & _). by exists e.
Qed.

Lemma discard_spec now c :
  0 ≤ cache_size c →
  ∃ removed c', discard_old_descriptors now c = Ok (removed, c') ∧ discards now c removed c' ∧
    (Z.of_nat (base.size (store c)) ≤ cache_size c + 1 →
     Z.of_nat (base.size (store c')) ≤ cache_size c).
Proof.
  intros Hsz. unfold discard_old_descriptors.
  destruct (discard_expired_phase now c) as (r & s & -> & Hnd & Hfst & Hin & Hs & Hle).
  case_decide as Hfull.
  - destruct (pick_oldest_some (hash_iter s) None) as [[k0 ts0] Hold].
    { left. intros Hnil. pose proof (Permutation_length (hash_iter_perm s)) as Hl.
      rewrite Hnil, length_map_to_list in Hl. simpl in Hl. lia. }
    rewrite Hold. cbn [unwrap mbind outcome_bind fst].
    destruct (pick_oldest_spec _ _ _ _ Hold) as ([?|(e0 & He0%elem_of_hash_iter & <-)] & _ & Hall);
      [done|].
    unfold remove_one; cbn [fst snd]. rewrite He0.
    assert (base.size s = S (base.size (delete k0 s))) as Hdel
      by (rewrite map_size_delete_Some by eauto;
          pose proof (map_size_ne_0_lookup_2 _ _ (mk_is_Some _ _ He0)); lia).
    pose proof (proj1 (Hs _ _) He0) as [Hc0 Hlive].
    do 2 eexists. split; [done|]. split; [|simpl; lia]. split.
    + done.
    + rewrite fmap_app. apply NoDup_app. split_and!; [done| |apply NoDup_singleton].
      intros k Hk. apply Hfst in Hk. simpl. set_solver.
    + intros k e. simpl. rewrite lookup_delete_Some, Hs, fmap_app, elem_of_app, Hfst. simpl. set_solver.
    + intros k v. rewrite fmap_app, !elem_of_app, Hin, Hfst. simpl.
      rewrite !list_elem_of_singleton. unfold cached. rewrite lookup_fmap. split.
      * intros [[? ?]|[= -> ->]]; [by auto|]. rewrite Hc0. auto.
      * intros [Hv [?| ->]]; [by auto|]. rewrite Hc0 in Hv. simplify_eq/=. auto.
    + intros k Hk. rewrite fmap_app, elem_of_app, Hfst. by left.
    + intros k e Hk Hke Hne. rewrite fmap_app, elem_of_app, Hfst in Hk.
      destruct Hk as [?| ->%list_elem_of_singleton]; [done|]. cbn [fst] in *. simplify_eq.
      split; [simpl; lia|]. intros k' e' Hk' He'. rewrite Forall_forall in Hall.
      apply (Hall (k', e')). apply elem_of_hash_iter. by apply Hs.
  - do 2 eexists. split; [done|]. split; [|simpl; lia]. split.
    + done.
    + done.
    + intros k e. simpl. by rewrite Hs, Hfst.
    + intros k v. rewrite Hin, Hfst. tauto.
    + intros k. by rewrite Hfst.
    + intros k e Hk%Hfst. done.
Qed.

Lemma cache_insert_spec t now k v c :
  0 ≤ cache_size c →
  ∃ removed c', cache_insert t now k v c = Ok (removed, c') ∧
    discards now (with_store c (<[k := mkEV v t]> (store c))) removed c' ∧
    (Z.of_nat (base.size (store c)) ≤ cache_size c → Z.of_nat (base.size (store c')) ≤ cache_size c).
Proof.
  intros Hsz.
  destruct (discard_spec now (with_store c (<[k := mkEV v t]> (store c))) Hsz)
    as (r & c' & Hd & Hdis & Hb).
  exists r, c'. split; [exact Hd|]. split; [done|]. intros Hle. apply Hb. simpl.
  rewrite map_size_insert. destruct (store c !! k); simpl; lia.
Qed.

(** A key the cache still has maps to what was inserted last; every other
    binding of the extended map is among the removed ones. *)
Lemma cache_insert_cases t now k v c removed c' k' :
  discards now (with_store c (<[k := mkEV v t]> (store c))) removed c' →
  cached c' !! k' = (if decide (k' ∈ removed.*1) then None else <[k := v]> (cached c) !! k').
Proof.
  intros Hd. unfold cached. rewrite lookup_fmap.
  assert (store c' !! k' = if decide (k' ∈ removed.*1) then None
                           else <[k := mkEV v t]> (store c) !! k') as ->.
  { apply option_eq. intros e. rewrite (dis_kept _ _ _ _ Hd). simpl. case_decide; naive_solver. }
  case_decide; [done|]. rewrite <-lookup_fmap, fmap_insert. done.
Qed.

(** Inserting into a bounded cache loses nothing and keeps the bound: the
    call returns, what it hands back and what stays cached are disjoint and
    together are exactly the old bindings with the new one, and the cache has
    no more entries than its size if it had no more before. *)
Theorem cache_insert_partition (t : Z) (now : K → Z) k v c :
  0 ≤ cache_size c →
  ∃ removed c', cache_insert t now k v c = Ok (removed, c') ∧
    cached c' ##ₘ list_to_map removed ∧
    cached c' ∪ list_to_map removed = <[k := v]> (cached c) ∧
    (Z.of_nat (cache_len c) ≤ cache_size c → Z.of_nat (cache_len c') ≤ cache_size c').
Proof.
  intros Hsz. destruct (cache_insert_spec t now k v c Hsz) as (r & c' & Hins & Hd & Hb).
  exists r, c'. split; [done|].
  assert (∀ k', list_to_map (M := gmap K V) r !! k' =
           if decide (k' ∈ r.*1) then <[k := v]> (cached c) !! k' else None) as Hr.
  { intros k'. case_decide as Hin; [|by apply not_elem_of_list_to_map_1].
    apply option_eq. intros v'. rewrite <-elem_of_list_to_map by apply Hd.
    rewrite (dis_removed _ _ _ _ Hd). unfold cached. simpl. rewrite fmap_insert. tauto. }
  split_and!.
  - apply map_disjoint_spec. intros k' v1 v2. rewrite Hr.
    rewrite (cache_insert_cases t now k v c r c' k' Hd). by case_decide.
  - apply map_eq. intros k'. rewrite lookup_union, Hr.
    rewrite (cache_insert_cases t now k v c r c' k' Hd).
    case_decide; destruct (<[k := v]> (cached c) !! k'); done.
  - unfold cache_len. destruct (dis_params _ _ _ _ Hd) as [-> _]. exact Hb.
Qed.

(** The cache evicts least recently used entries only: what an insertion
    removes either was not accessed for longer than the time to live or was
    accessed no later than every other live entry, and then the cache is full;
    and every entry that is too old is removed. *)
Theorem cache_insert_evicts_lru (t : Z) (now : K → Z) k v c removed c' :
  0 ≤ cache_size c → cache_insert t now k v c = Ok (removed, c') →
  let all := with_store c (<[k := mkEV v t]> (store c)) in
  ∀ k' e, store all !! k' = Some e →
    (last_access_elapsed (now k') e > ttl c → cached c' !! k' = None) ∧
    (cached c' !! k' = None →
      last_access_elapsed (now k') e > ttl c ∨
      (cache_size c ≤ Z.of_nat (cache_len c') ∧
       ∀ k2 e2, cached c' !! k2 ≠ None → store all !! k2 = Some e2 → last_access e ≤ last_access e2)).
Proof.
  intros Hsz Hins all k' e He.
  destruct (cache_insert_spec t now k v c Hsz) as (r & c2 & Hins2 & Hd & _).
  rewrite Hins in Hins2. injection Hins2 as <- <-.
  rewrite (cache_insert_cases t now k v c removed c' k' Hd).
  split.
  - intros Hex. rewrite decide_True; [done|]. apply Hd. by exists e.
  - destruct (decide (k' ∈ removed.*1)) as [Hin|Hnin].
    + intros _. destruct (decide (last_access_elapsed (now k') e > ttl c)) as [?|Hn]; [by left|].
      right. destruct (dis_live _ _ _ _ Hd k' e Hin He) as [Hl Hmin].
      { intros (e' & He' & Hgt). simpl in *. simplify_eq. done. }
      split; [exact Hl|]. intros k2 e2 Hk2 He2. apply (Hmin k2 e2 He2).
      intros Hex. apply Hk2. rewrite (cache_insert_cases t now k v c removed c' k2 Hd).
      rewrite decide_True; [done|]. by apply Hd.
    + intros Hnone. exfalso. revert He Hnone. cbn [all store with_store].
      rewrite !lookup_insert. unfold cached. rewrite lookup_fmap.
      case_decide; [done|]. by intros ->.
Qed.
End Cache.

(** ** The cached values after the other operations *)

Lemma cached_touch {K V} `{Countable K} t k (c : Cache K V) : cached (cache_get t k c).2 = cached c.
Proof.
  unfold cached, cache_get; simpl. apply map_eq. intros i. rewrite !lookup_fmap, lookup_alter.
  case_decide; [subst|done]. by destruct (store c !! _).
Qed.

Lemma cached_remove {K V} `{Countable K} k (c : Cache K V) :
  cached (cache_remove k c).2 = delete k (cached c).
Proof. unfold cached; simpl. by rewrite fmap_delete. Qed.

Lemma cached_clear {K V} `{Countable K} (c : Cache K V) : cached (cache_clear c) = ∅.
Proof. unfold cached; simpl. apply fmap_empty. Qed.

(** ** Witnesses *)
Section Witnesses.
Existing Instance std_order.
Existing Instance std_order_laws.

Definition demo_cache : Cache Z Z := mkCache {[1 := mkEV 10 100; 2 := mkEV 20 200]} 2 1000.

Lemma cache_insert_partition_witness :
  0 ≤ cache_size demo_cache ∧
  ∃ removed c', cache_insert 300 (λ _, 300) 3 30 demo_cache = Ok (removed, c') ∧
    cached c' ##ₘ list_to_map removed ∧
    cached c' ∪ list_to_map removed = {[1 := 10; 2 := 20; 3 := 30]}.
Proof.
  split; [by vm_compute|].
  destruct (cache_insert_partition 300 (λ _, 300) 3 30 demo_cache) as (r & c' & H1 & H2 & H3 & _);
    [by vm_compute|].
  exists r, c'. split_and!; [exact H1|exact H2|]. rewrite H3. reflexivity.
Defined.

Lemma cache_insert_evicts_lru_witness :
  cache_insert 300 (λ _, 300) 3 30 demo_cache =
    Ok ([(1, 10)], mkCache {[2 := mkEV 20 200; 3 := mkEV 30 300]} 2 1000) ∧
  (last_access_elapsed 300 (mkEV 10 100) > 1000 ∨
   2 ≤ Z.of_nat (cache_len (mkCache {[2 := mkEV 20 200; 3 := mkEV 30 300]} 2 1000 : Cache Z Z))).
Proof.
  assert (cache_insert 300 (λ _, 300) 3 30 demo_cache =
    Ok ([(1, 10)], mkCache {[2 := mkEV 20 200; 3 := mkEV 30 300]} 2 1000)) as E by reflexivity.
  split; [exact E|].
  destruct (cache_insert_evicts_lru 300 (λ _, 300) 3 30 demo_cache _ _ ltac:(by vm_compute) E 1
    (mkEV 10 100)) as [_ H2]; [reflexivity|].
  destruct (H2 ltac:(reflexivity)) as [?|[? _]]; [by left|by right].
Defined.
End Witnesses.
