(* ===== verification/BlockManager.v ===== *)
(** * The block manager of an entry (storage/block_manager/*.rs)

    The manager keeps the blocks of an entry: descriptors ([<id>.meta]) and data
    ([<id>.blk]) on disk, recently used blocks in memory behind shared
    references, a write cache and a process-wide read cache of those references,
    the block index and the write-ahead log.

    The state passed from operation to operation holds the files of the entry's
    directory, the blocks behind the references (so that two holders of a
    reference see each other's changes), the caches, the index and the log.
    File operations fail only when a file is missing; [flush] and [sync] have no
    effect on the model's files. *)

From stdpp Require Import prelude gmap strings sorting fin_map_dom pretty.
From Stdlib Require Import ZArith Lia.
From S2P Require Import Prelude Bytes Collections Proto Block BlockIndex Wal Cache.
Open Scope Z_scope.

(** ** State *)

(** The files of an entry: [<id>.meta], [<id>.blk], [<id>.meta.zst],
    [<id>.blk.zst], [<id>.blk.tmp], [blocks.idx], and the temporary files of the
    decompression cache. *)
Inductive path :=
| Desc (id : Z) | Data (id : Z) | CDesc (id : Z) | CData (id : Z)
| TmpData (id : Z) | IndexFile | Temp (n : Z).

#[export] Instance path_eq_dec : EqDecision path.
Proof. solve_decision. Defined.
#[export] Instance path_countable : Countable path.
Proof.
  refine (inj_countable'
    (λ p, match p with
          | Desc i => (0, i) | Data i => (1, i) | CDesc i => (2, i) | CData i => (3, i)
          | TmpData i => (4, i) | IndexFile => (5, 0) | Temp i => (6, i)
          end)
    (λ '(k, i), if decide (k = 0) then Desc i else if decide (k = 1) then Data i
       else if decide (k = 2) then CDesc i else if decide (k = 3) then CData i
       else if decide (k = 4) then TmpData i else if decide (k = 5) then IndexFile
       else Temp i) _).
  by intros [].
Defined.

(** A [BlockRef] ([Arc<AsyncRwLock<Block>>]) is the number of a cell of [blocks]. *)
Record BM := mkBM {
  files : gmap path (list Z);
  blocks : gmap Z Block;
  next_ref : Z;
  block_index : BlockIndex;
  write_cache : Cache Z Z;
  read_cache : Cache string Z;
  decompress_cache : Cache string path;
  wal : Wal;
  ticks : nat
}.

Definition set_files f s := mkBM f (blocks s) (next_ref s) (block_index s) (write_cache s)
  (read_cache s) (decompress_cache s) (wal s) (ticks s).
Definition set_blocks m s := mkBM (files s) m (next_ref s) (block_index s) (write_cache s)
  (read_cache s) (decompress_cache s) (wal s) (ticks s).
Definition set_next_ref n s := mkBM (files s) (blocks s) n (block_index s) (write_cache s)
  (read_cache s) (decompress_cache s) (wal s) (ticks s).
Definition set_index ix s := mkBM (files s) (blocks s) (next_ref s) ix (write_cache s)
  (read_cache s) (decompress_cache s) (wal s) (ticks s).
Definition set_write_cache c s := mkBM (files s) (blocks s) (next_ref s) (block_index s) c
  (read_cache s) (decompress_cache s) (wal s) (ticks s).
Definition set_read_cache c s := mkBM (files s) (blocks s) (next_ref s) (block_index s)
  (write_cache s) c (decompress_cache s) (wal s) (ticks s).
Definition set_decompress_cache c s := mkBM (files s) (blocks s) (next_ref s) (block_index s)
  (write_cache s) (read_cache s) c (wal s) (ticks s).
Definition set_wal w s := mkBM (files s) (blocks s) (next_ref s) (block_index s)
  (write_cache s) (read_cache s) (decompress_cache s) w (ticks s).
Definition set_ticks n s := mkBM (files s) (blocks s) (next_ref s) (block_index s)
  (write_cache s) (read_cache s) (decompress_cache s) (wal s) n.

(** [bm_simpl]: projections of updated states. *)
Ltac bm_simpl := cbn [files blocks next_ref block_index write_cache read_cache decompress_cache wal ticks
  set_files set_blocks set_next_ref set_index set_write_cache set_read_cache set_decompress_cache
  set_wal set_ticks] in *.

(** The parts of [Cfg] the manager reads, and the entry's path. *)
Record Cfg := mkCfg { replica : bool; filesystem_backend : bool; entry_path : string }.

(** [zstd::decode_all]. *)
Class Zstd := { zstd_decode : list Z → option (list Z) }.

(** Readings of the monotonic clock, in the order they are made. *)
Class Clock := clock : nat → Z.

Definition WRITE_BLOCK_CACHE_SIZE : Z := 2.
Definition READ_BLOCK_CACHE_SIZE : Z := 128.
Definition CACHE_TTL : Z := 30 * 1000000000.
Definition DECOMPRESS_CACHE_MAX_SIZE : Z := 64.
Definition MAX_IO_BUFFER_SIZE : Z := 1024 * 512.

Section BlockManager.
Context `{HashIter} `{Prost} `{Crc64} `{Zstd} `{Clock} (cfg : Cfg).

(** [BlockManager::build] on the files found and the index loaded from them;
    the process's read cache is shared with the other entries. *)
Definition bm_build (fs : gmap path (list Z)) (ix : BlockIndex) (wal_fs : gmap Z (list Z))
    (rc : Cache string Z) (cells : gmap Z Block) (fresh : Z) : BM :=
  mkBM fs cells fresh ix (cache_new WRITE_BLOCK_CACHE_SIZE CACHE_TTL) rc
    (cache_new DECOMPRESS_CACHE_MAX_SIZE CACHE_TTL) (wal_try_build wal_fs) 0.

(** ** Primitives *)

Definition read_clock : ST BM Z := λ s, (Ok (clock (ticks s)), set_ticks (S (ticks s)) s).

Definition deref (r : Z) : ST BM Block := λ s, (unwrap (blocks s !! r), s).
Definition assign (r : Z) (b : Block) : ST BM () := st_modify (λ s, set_blocks (<[r := b]> (blocks s)) s).
Definition alloc (b : Block) : ST BM Z := λ s,
  (Ok (next_ref s), set_next_ref (next_ref s + 1) (set_blocks (<[next_ref s := b]> (blocks s)) s)).

Definition fs_exists (p : path) : ST BM bool := λ s, (Ok (bool_decide (is_Some (files s !! p))), s).
Definition fs_read (p : path) : ST BM (list Z) := λ s, (ok_or InternalServerError (files s !! p), s).
Definition fs_remove (p : path) : ST BM () := λ s,
  match files s !! p with
  | Some _ => (Ok tt, set_files (delete p (files s)) s)
  | None => (Err InternalServerError, s)
  end.
(** [write_or_create] and an update of the content. *)
Definition fs_update (p : path) (f : list Z → list Z) : ST BM () :=
  st_modify (λ s, set_files (<[p := f (default [] (files s !! p))]> (files s)) s).

Definition wal_do (f : Wal → outcome () * Wal) : ST BM () := λ s,
  let '(o, w) := f (wal s) in (o, set_wal w s).

(** [BlockIndex::save]: [set_len(0)] and [write_all]. *)
Definition index_save : ST BM () := λ s,
  match save_bytes (hash_iter (index_info (block_index s))).*2 with
  | Ok buf => fs_update IndexFile (λ f, write_at 0 buf (set_len 0 f)) s
  | Err e => (Err e, s)
  | Panic => (Panic, s)
  end.

Definition index_put {T} `{IntoBlockEntry T} (x : T) : ST BM () := λ s,
  match insert_or_update (block_index s) x with
  | Ok ix => (Ok tt, set_index ix s) | Err e => (Err e, s) | Panic => (Panic, s)
  end.
Definition index_put_crc {T} `{IntoBlockEntry T} (x : T) (crc : Z) : ST BM () := λ s,
  match insert_or_update_with_crc (block_index s) x crc with
  | Ok ix => (Ok tt, set_index ix s) | Err e => (Err e, s) | Panic => (Panic, s)
  end.

(** ** Block cache (block_cache.rs) *)

(** [format!("{}::{}", self.namespace, block_id)]. *)
Definition read_key (id : Z) : string := entry_path cfg +:+ "::" +:+ pretty id.

(** An operation on a cache of the manager. *)
Definition on_cache {C A} (get : BM → C) (set : C → BM → BM) (f : C → outcome (A * C)) : ST BM A := λ s,
  match f (get s) with
  | Ok (a, c) => (Ok a, set c s) | Err e => (Err e, s) | Panic => (Panic, s)
  end.

(** [BlockCache::insert_read] (what it evicts is dropped) and [insert_write]. *)
Definition insert_read (id r : Z) : ST BM () :=
  t ← read_clock; now ← read_clock;
  _ ← on_cache read_cache set_read_cache (cache_insert t (λ _, now) (read_key id) r);
  mret tt.
Definition insert_write (id r : Z) : ST BM (list (Z * Z)) :=
  t ← read_clock; now ← read_clock;
  on_cache write_cache set_write_cache (cache_insert t (λ _, now) id r).

(** [BlockCache::get_write] and [get_read]. *)
Definition get_write (id : Z) : ST BM (option Z) :=
  t ← read_clock;
  on_cache write_cache set_write_cache (λ c, Ok (cache_get t id c)).
Definition get_read (id : Z) : ST BM (option Z) :=
  w ← get_write id;
  match w with
  | Some r => mret (Some r)
  | None =>
      t ← read_clock;
      on_cache read_cache set_read_cache (λ c, Ok (cache_get t (read_key id) c))
  end.

(** [BlockCache::write_values] and [remove]. *)
Definition write_values : ST BM (list Z) :=
  t ← read_clock;
  on_cache write_cache set_write_cache (λ c, Ok (cache_values t c)).
Definition block_cache_remove (id : Z) : ST BM () := st_modify (λ s,
  set_read_cache (cache_remove (read_key id) (read_cache s)).2
    (set_write_cache (cache_remove id (write_cache s)).2 s)).

(** ** Compressed blocks (accessors.rs, paths.rs, decompress_cache.rs) *)

Definition block_is_compressed (id : Z) (s : BM) : bool :=
  bool_decide (default 0 (get_block (block_index s) id ≫= be_compression) ≠ 0).

Inductive DecompressedFileType := FtData | FtDescriptor.

(** [DecompressCache::key]. *)
Definition decompress_key (id : Z) (ty : DecompressedFileType) : string :=
  entry_path cfg +:+ "::" +:+ pretty id +:+ "::" +:+
  match ty with FtData => "data" | FtDescriptor => "desc" end.

(** [cleanup_tmp]: errors are ignored. *)
Definition cleanup_tmp (p : path) : ST BM () := st_modify (λ s, set_files (delete p (files s)) s).

(** [DecompressCache::temp_path]: a name not used before. *)
Definition fresh_temp : ST BM path := λ s, (Ok (Temp (next_ref s)), set_next_ref (next_ref s + 1) s).

(** [DecompressCache::get_or_decompress]. *)
Definition get_or_decompress (id : Z) (ty : DecompressedFileType) (compressed : path) : ST BM path :=
  now ← read_clock;
  expired ← on_cache decompress_cache set_decompress_cache (discard_expired (λ _, now));
  _ ← st_for (λ kp, cleanup_tmp kp.2) expired;
  t ← read_clock;
  hit ← on_cache decompress_cache set_decompress_cache (λ c, Ok (cache_get t (decompress_key id ty) c));
  match hit with
  | Some p => mret p
  | None =>
      buf ← fs_read compressed;
      content ← st_lift (ok_or InternalServerError (zstd_decode buf));
      p ← fresh_temp;
      _ ← fs_update p (λ _, content);
      t2 ← read_clock; now2 ← read_clock;
      evicted ← on_cache decompress_cache set_decompress_cache
                  (cache_insert t2 (λ _, now2) (decompress_key id ty) p);
      _ ← st_for (λ kp, cleanup_tmp kp.2) evicted;
      mret p
  end.

(** [DecompressCache::invalidate]. *)
Definition invalidate_one (id : Z) (ty : DecompressedFileType) : ST BM () := λ s,
  let '(o, c) := cache_remove (decompress_key id ty) (decompress_cache s) in
  match o with
  | Some p => cleanup_tmp p (set_decompress_cache c s)
  | None => (Ok tt, set_decompress_cache c s)
  end.
Definition invalidate (id : Z) : ST BM () :=
  _ ← invalidate_one id FtData; invalidate_one id FtDescriptor.

(** [resolve_desc_path] and [resolve_data_path]. *)
Definition resolve_desc_path (id : Z) : ST BM path :=
  s ← st_get;
  if block_is_compressed id s then
    ex ← fs_exists (CDesc id);
    if (ex : bool) then get_or_decompress id FtDescriptor (CDesc id) else mret (Desc id)
  else mret (Desc id).
Definition resolve_data_path (id : Z) : ST BM path :=
  s ← st_get;
  if block_is_compressed id s then get_or_decompress id FtData (CData id) else mret (Data id).

(** ** Persistence (persistence.rs) *)

Definition with_version (p : BlockProto) (v : option Z) (corrupted : option bool) : BlockProto :=
  mkBlockProto (bp_begin_time p) (bp_latest_record_time p) (bp_size p) (bp_record_count p)
    (bp_metadata_size p) (bp_records p) v corrupted.
Definition with_metadata_size (p : BlockProto) (n : Z) : BlockProto :=
  mkBlockProto (bp_begin_time p) (bp_latest_record_time p) (bp_size p) (bp_record_count p)
    n (bp_records p) (bp_version p) (bp_corrupted p).

(** [set_len(buf.len())] followed by [write_all(buf)] from the start. *)
Definition rewrite_file (buf f : list Z) : list Z := write_at 0 buf (set_len (length buf) f).

(** [BlockManager::save_meta_on_disk]. *)
Definition save_meta_on_disk (r : Z) : ST BM () :=
  b ← deref r;
  s ← st_get;
  let version := u64_add (default 0 (get_block (block_index s) (block_id b) ≫= be_version)) 1 in
  let proto := with_version (block_to_proto b) (Some version) None in
  let buf := encode_block proto in
  _ ← (if replica cfg then mret tt else fs_update (Desc (block_id b)) (rewrite_file buf));
  _ ← index_put_crc (with_metadata_size proto (u64_wrap (Z.of_nat (length buf)))) (crc64 buf);
  if replica cfg then mret tt
  else _ ← index_save; wal_do (wal_remove (block_id b)).

(** [BlockManager::save_block]: blocks the write cache evicts are saved. *)
Definition save_block (r : Z) : ST BM () :=
  b ← deref r;
  evicted ← insert_write (block_id b) r;
  st_for (λ kr, save_meta_on_disk kr.2) evicted.

(** [BlockManager::save_cache_on_disk]; [sync_data_block] only synchronises. *)
Definition save_cache_on_disk : ST BM () :=
  refs ← write_values;
  st_for (λ r, _ ← deref r; save_meta_on_disk r) refs.

(** [BlockManager::save_cache_metadata_on_disk]. *)
Definition save_cache_metadata_on_disk : ST BM () :=
  s ← st_get;
  let blocks_with_wal := wal_list (wal s) in
  match blocks_with_wal with
  | [] => mret tt
  | _ =>
      refs ← write_values;
      st_for (λ r, b ← deref r;
                   if decide (block_id b ∈ blocks_with_wal) then save_meta_on_disk r else mret tt) refs
  end.

(** ** Lifecycle (lifecycle.rs) *)

(** [BlockManager::start_new_block]. *)
Definition start_new_block (id max_block_size : Z) : ST BM Z :=
  let block := block_new id in
  _ ← fs_update (Data id) (λ f, if filesystem_backend cfg then set_len (Z.to_nat max_block_size) f else f);
  _ ← index_put block;
  r ← alloc block;
  _ ← save_block r;
  mret r.

(** [BlockManager::finish_block]; the spawned task only synchronises. *)
Definition finish_block (r : Z) : ST BM () :=
  b ← deref r;
  _ ← fs_update (Data (block_id b)) (set_len (Z.to_nat (size b)));
  save_meta_on_disk r.

Definition all_block_file_paths (id : Z) : list path := [Data id; Desc id; CData id; CDesc id].

(** [BlockManager::remove_block]. *)
Definition remove_block (id : Z) : ST BM () :=
  _ ← wal_do (wal_append id RemoveBlock);
  _ ← st_for (λ p, ex ← fs_exists p; if (ex : bool) then fs_remove p else mret tt)
        (all_block_file_paths id);
  _ ← st_modify (λ s, set_index (index_remove_block (block_index s) id).2 s);
  _ ← index_save;
  _ ← block_cache_remove id;
  _ ← invalidate id;
  wal_do (wal_remove id).

(** [BlockManager::mark_block_corrupted]; failures to rewrite the descriptor are
    ignored. *)
Definition mark_block_corrupted (id : Z) : ST BM () :=
  if replica cfg then mret tt
  else
    _ ← st_modify (λ s, set_index (mark_corrupted (block_index s) id) s);
    _ ← block_cache_remove id;
    s ← st_get;
    _ ← (match files s !! Desc id ≫= decode_block with
         | Some proto =>
             fs_update (Desc id) (rewrite_file (encode_block (with_version proto (bp_version proto) (Some true))))
         | None => mret tt
         end);
    index_save.

(** [BlockManager::exist]. *)
Definition exist (id : Z) : ST BM bool := fs_exists (Desc id).

(** [invalidate_replica_block_cache]: a replica forgets its local copies. *)
Definition invalidate_replica_block_cache (id : Z) : ST BM () :=
  st_modify (λ s, set_files (delete (Data id) (delete (Desc id) (files s))) s).

(** ** Lookup (lookup.rs) *)

(** [BlockManager::find_block_id]. *)
Definition find_block_id (start : Z) (ix : BlockIndex) : outcome Z :=
  let tree := active_tree ix in
  let below := match bt_last (filter (λ i, i < start) tree) with
               | Some id => Ok id
               | None => Err NotFound
               end in
  match bt_first (filter (λ i, start ≤ i) tree) with
  | Some id => if decide (start >= id) then Ok id else below
  | None => below
  end.

(** The check of the descriptor's CRC against the index in [load_block]. *)
Definition check_crc (id : Z) (buf : list Z) : ST BM () :=
  s ← st_get;
  match get_block (block_index s) id with
  | None => st_throw InternalServerError
  | Some e =>
      match be_crc64 e with
      | None => mret tt
      | Some block_crc =>
          if decide (block_crc = crc64 buf) then mret tt
          else if replica cfg then
            _ ← invalidate_replica_block_cache id;
            _ ← st_modify (λ s, set_index (index_remove_block (block_index s) id).2 s);
            st_throw TooEarly
          else
            match decode_block buf with
            | Some decoded =>
                if decide (default 0 (bp_version decoded) > default 0 (be_version e)) then
                  _ ← index_put_crc decoded (crc64 buf);
                  index_save
                else
                  _ ← mark_block_corrupted id; st_throw InternalServerError
            | None => _ ← mark_block_corrupted id; st_throw InternalServerError
            end
      end
  end.

Definition with_begin_time (p : BlockProto) (id : Z) : BlockProto :=
  match bp_begin_time p with
  | Some _ => p
  | None => mkBlockProto (Some (us_to_ts id)) (bp_latest_record_time p) (bp_size p)
              (bp_record_count p) (bp_metadata_size p) (bp_records p) (bp_version p) (bp_corrupted p)
  end.

(** [BlockManager::load_block], the branch that reads the descriptor. *)
Definition load_from_disk (id : Z) : ST BM Z :=
  p ← resolve_desc_path id;
  s ← st_get;
  match files s !! p with
  | None =>
      if replica cfg then
        _ ← st_modify (λ s, set_index (index_remove_block (block_index s) id).2 s);
        st_throw TooEarly
      else _ ← mark_block_corrupted id; st_throw InternalServerError
  | Some buf =>
      _ ← check_crc id buf;
      match decode_block buf with
      | None => _ ← mark_block_corrupted id; st_throw InternalServerError
      | Some proto => b ← st_lift (block_from_proto (with_begin_time proto id)); alloc b
      end
  end.

(** [BlockManager::load_block]. *)
Definition load_block (id : Z) : ST BM Z :=
  cached_block ← get_read id;
  r ← (match cached_block with Some r => mret r | None => load_from_disk id end);
  _ ← insert_read id r;
  mret r.

(** [BlockManager::find_block] and [find_cached_block]. *)
Definition find_block (start : Z) : ST BM Z :=
  s ← st_get;
  id ← st_lift (find_block_id start (block_index s));
  load_block id.
Definition find_cached_block (start : Z) : ST BM (option Z) :=
  s ← st_get;
  match find_block_id start (block_index s) with
  | Ok id => get_read id
  | _ => mret None
  end.

(** ** Decompression in place (compress.rs) *)

Definition st_catch {A} (m : ST BM A) (h : ErrorCode → ST BM A) : ST BM A := λ s,
  match m s with
  | (Err e, s') => h e s'
  | other => other
  end.

(** [decompress_file_zstd]: the output is written over what the file holds. *)
Definition decompress_file_zstd (compressed output : path) : ST BM () :=
  buf ← fs_read compressed;
  content ← st_lift (ok_or InternalServerError (zstd_decode buf));
  fs_update output (write_at 0 content).

(** A failed decompression marks the block; an error while marking is ignored. *)
Definition or_mark_corrupted (id : Z) (m : ST BM ()) : ST BM () :=
  st_catch m (λ e, _ ← st_catch (mark_block_corrupted id) (λ _, mret tt); st_throw e).

Definition decompressed_entry (data desc : list Z) (proto : BlockProto) (e : BlockEntry) : BlockEntry :=
  mkBlockEntry (be_block_id e) (Z.of_nat (length data)) (be_record_count e) (Z.of_nat (length desc))
    (be_latest_record_time e) (Some (crc64 desc)) None (bp_corrupted proto) (bp_version proto).

(** [BlockManager::decompress_block]. *)
Definition decompress_block (id : Z) : ST BM () :=
  s ← st_get;
  if negb (block_is_compressed id s) then mret tt
  else
    _ ← or_mark_corrupted id (decompress_file_zstd (CData id) (Data id));
    _ ← or_mark_corrupted id (decompress_file_zstd (CDesc id) (Desc id));
    _ ← fs_remove (CData id);
    _ ← fs_remove (CDesc id);
    data ← fs_read (Data id);
    desc ← fs_read (Desc id);
    proto ← st_lift (ok_or InternalServerError (decode_block desc));
    s ← st_get;
    _ ← st_lift (ok_or NotFound (get_block (block_index s) id));
    _ ← st_modify (λ s, set_index
          (mkBlockIndex (alter (decompressed_entry data desc proto) id (index_info (block_index s)))
             (index (block_index s))) s);
    _ ← index_save;
    invalidate id.

(** ** Records (records.rs) *)

(** [for record in records { block.insert_or_update_record(record) }]. *)
Definition insert_records (b : Block) (l : list Rec) : outcome Block :=
  foldl (λ o r, b ← o; insert_or_update_record b r) (Ok b) l.

(** [BlockManager::update_records]. *)
Definition update_records (id : Z) (records : list Rec) : ST BM () :=
  _ ← decompress_block id;
  r ← load_block id;
  _ ← st_for (λ rec, wal_do (wal_append id (UpdateRecord rec))) records;
  b ← deref r;
  b' ← st_lift (insert_records b records);
  _ ← assign r b';
  save_block r.

(** [read_in_chunks] on the content of the data file: a buffer of the chunk's
    size and the number of bytes read into it. *)
Inductive chunk_read := Chunk (buf : list Z) (read : Z) | ChunkEof | ChunkMissing.
Definition read_in_chunks (file : option (list Z)) (offset content_size read_bytes : Z) : chunk_read :=
  match file with
  | None => ChunkMissing
  | Some f =>
      let chunk_size := (content_size - read_bytes) `min` MAX_IO_BUFFER_SIZE in
      let got := take (Z.to_nat chunk_size) (drop (Z.to_nat (offset + read_bytes)) f) in
      match got with
      | [] => ChunkEof
      | _ => Chunk (got ++ replicate (Z.to_nat chunk_size - length got) 0) (Z.of_nat (length got))
      end
  end.

(** The loop that copies a record to the temporary file: the bytes written. *)
Inductive copy_result := Copied (bytes : list Z) (read_bytes : Z) | CopyEof | CopyMissing.
Fixpoint copy_record (fuel : nat) (file : option (list Z)) (begin record_size read_bytes : Z)
    (written : list Z) : copy_result :=
  if decide (read_bytes < record_size) then
    match fuel with
    | O => CopyEof
    | S fuel' =>
        match read_in_chunks file begin record_size read_bytes with
        | Chunk buf read =>
            copy_record fuel' file begin record_size (read_bytes + read) (written ++ buf)
        | ChunkEof => CopyEof
        | ChunkMissing => CopyMissing
        end
    end
  else Copied written read_bytes.

(** The loop over the retained records: positions in the new file and its
    content.  A turn reads a byte at least, so as many turns as the record has
    bytes are enough. *)
Inductive copy_all := AllCopied (positions : list (Z * Z * Z)) (bytes : list Z) | AllEof | AllMissing.
Fixpoint copy_records (file : option (list Z)) (info : list (Z * Z * Z)) (total_offset : Z)
    (positions : list (Z * Z * Z)) (written : list Z) : copy_all :=
  match info with
  | [] => AllCopied positions written
  | (t, begin, record_size) :: info' =>
      match copy_record (Z.to_nat record_size) file begin record_size 0 written with
      | Copied written' read_bytes =>
          copy_records file info' (total_offset + read_bytes)
            (positions ++ [(t, total_offset, total_offset + read_bytes)]) written'
      | CopyEof => AllEof
      | CopyMissing => AllMissing
      end
  end.

Definition move_record (m : gmap Z Rec) (p : Z * Z * Z) : gmap Z Rec :=
  let '(t, b, e) := p in
  alter (λ r, mkRec (r_timestamp r) b e (r_state r) (r_labels r) (r_content_type r)) t m.

(** Collecting [(record_time, begin, end - begin)] of every record. *)
Fixpoint record_infos (l : list Rec) : outcome (list (Z * Z * Z)) :=
  match l with
  | [] => Ok []
  | r :: l' => t ← rec_time r; rest ← record_infos l'; Ok ((t, r_begin r, rec_len r) :: rest)
  end.

(** The part of [remove_records] that rewrites the data file. *)
Definition compact_block (id r : Z) : ST BM () :=
  b ← deref r;
  info ← st_lift (record_infos (bt_values (record_index b)));
  s ← st_get;
  _ ← fs_update (TmpData (block_id b)) Datatypes.id;
  match copy_records (files s !! Data (block_id b)) info 0 [] [] with
  | AllCopied positions bytes =>
      _ ← fs_update (TmpData (block_id b)) (write_at 0 bytes);
      _ ← assign r (with_record_index b (foldl move_record (record_index b) positions));
      _ ← fs_remove (Data (block_id b));
      _ ← st_modify (λ s, set_files
            (<[Data (block_id b) := default [] (files s !! TmpData (block_id b))]>
               (delete (TmpData (block_id b)) (files s))) s);
      save_meta_on_disk r
  | AllEof =>
      _ ← cleanup_tmp (TmpData (block_id b));
      _ ← mark_block_corrupted id;
      st_throw InternalServerError
  | AllMissing =>
      _ ← cleanup_tmp (TmpData (block_id b));
      st_throw InternalServerError
  end.

(** [BlockManager::remove_records]. *)
Definition remove_records (id : Z) (records : list Z) : ST BM () :=
  _ ← decompress_block id;
  r ← load_block id;
  _ ← st_for (λ t, b ← deref r; _ ← assign r (remove_record b t).2;
                   wal_do (wal_append id (RemoveRecord t))) records;
  b ← deref r;
  if decide (record_count b = 0) then remove_block (block_id b)
  else compact_block id r.

(** [BlockManager::begin_write_record] and [begin_read_record]. *)
Definition begin_write_record (b : Block) (t : Z) : outcome (path * Z) :=
  rec ← unwrap (get_record b t); Ok (Data (block_id b), r_begin rec).
Definition begin_read_record (b : Block) (t : Z) : ST BM (path * Z) :=
  p ← resolve_data_path (block_id b);
  rec ← st_lift (unwrap (get_record b t));
  mret (p, r_begin rec).

(** The reference [finish_write_record] changes: from the write cache, or loaded. *)
Definition writable_ref (id : Z) : ST BM Z :=
  w ← get_write id;
  match w with
  | Some r => b ← deref r; if decide (block_id b = id) then mret r else load_block id
  | None => load_block id
  end.

(** [BlockManager::finish_write_record]. *)
Definition finish_write_record (id : Z) (state : RecordState) (t : Z) : ST BM () :=
  r ← writable_ref id;
  b ← deref r;
  b' ← st_lift (change_record_state b t (state_i32 state));
  _ ← assign r b';
  rec ← st_lift (unwrap (get_record b' t));
  _ ← wal_do (wal_append id (WriteRecord rec));
  save_block r.
End BlockManager.
