(* ===== verification/BlockManagerRefine.v ===== *)
(** * The block manager implements a map of blocks

    The abstract state is a map from block ids to blocks.  The relation [rep]
    says where the current content of a block is: behind the reference of the
    write cache, or else in its descriptor on disk; what the read cache holds
    agrees with it.  Every operation returns what the map has and changes the
    map as specified, whatever the caches evict. *)

From stdpp Require Import prelude gmap strings sorting fin_map_dom pretty.
From Stdlib Require Import ZArith Lia.
From S2P Require Import Prelude Bytes Collections Proto Block BlockIndex Wal Cache BlockManager.
Open Scope Z_scope.

Section Refine.
Context `{HashIter} `{Prost} `{Crc64} `{Zstd} `{Clock} (cfg : Cfg).
Context `{!HashIterLaws} `{!ProstLaws} `{!Crc64Laws}.
Context (Hprimary : replica cfg = false).
Implicit Types (s : BM) (a : gmap Z Block) (id r : Z) (b : Block).

(** ** States that differ in access times only *)

Record bm_equiv s s' : Prop := {
  eq_files : files s' = files s;
  eq_blocks : blocks s' = blocks s;
  eq_next : next_ref s' = next_ref s;
  eq_index : block_index s' = block_index s;
  eq_wal : wal s' = wal s;
  eq_write : cached (write_cache s') = cached (write_cache s);
  eq_decompress : decompress_cache s' = decompress_cache s;
  eq_read : cached (read_cache s') = cached (read_cache s);
  eq_wsize : cache_size (write_cache s') = cache_size (write_cache s);
  eq_rsize : cache_size (read_cache s') = cache_size (read_cache s)
}.

#[local] Instance bm_equiv_refl : Reflexive bm_equiv.
Proof. by intros s. Qed.
#[local] Instance bm_equiv_trans : Transitive bm_equiv.
Proof. intros s1 s2 s3 [] []. split; etrans; eauto. Qed.

Lemma get_write_spec id s :
  ∃ s', get_write id s = (Ok (cached (write_cache s) !! id), s') ∧ bm_equiv s s'.
Proof.
  unfold get_write, on_cache. eexists. split.
  - rewrite (st_bind_ok _ _ s (clock (ticks s)) (set_ticks (S (ticks s)) s)) by done.
    simpl. unfold cached. by rewrite lookup_fmap.
  - split; try done. apply cached_touch.
Qed.

Lemma get_read_spec id s :
  ∃ s', get_read cfg id s =
    (Ok (match cached (write_cache s) !! id with
         | Some r => Some r
         | None => cached (read_cache s) !! read_key cfg id
         end), s') ∧ bm_equiv s s'.
Proof.
  unfold get_read. destruct (get_write_spec id s) as (s1 & E & He).
  st_step E. destruct (cached (write_cache s) !! id) as [r|]; [by exists s1|].
  eexists. split.
  - rewrite (st_bind_ok _ _ s1 (clock (ticks s1)) (set_ticks (S (ticks s1)) s1)) by done.
    unfold on_cache; simpl. rewrite <-(eq_read _ _ He). unfold cached. by rewrite lookup_fmap.
  - etrans; [exact He|]. split; try done. apply cached_touch.
Qed.

(** The caches after an insertion. *)
Lemma insert_read_spec id r s :
  0 ≤ cache_size (read_cache s) →
  ∃ s', insert_read cfg id r s = (Ok tt, s') ∧
    files s' = files s ∧ blocks s' = blocks s ∧ next_ref s' = next_ref s ∧
    block_index s' = block_index s ∧ wal s' = wal s ∧ write_cache s' = write_cache s ∧ decompress_cache s' = decompress_cache s ∧
    cache_size (read_cache s') = cache_size (read_cache s) ∧
    cached (read_cache s') ⊆ <[read_key cfg id := r]> (cached (read_cache s)).
Proof.
  intros Hsz. unfold insert_read, on_cache.
  rewrite (st_bind_ok _ _ s (clock (ticks s)) (set_ticks (S (ticks s)) s)) by done.
  rewrite (st_bind_ok _ _ (set_ticks (S (ticks s)) s) (clock (S (ticks s)))
             (set_ticks (S (S (ticks s))) s)) by done.
  destruct (cache_insert_spec (clock (ticks s)) (λ _, clock (S (ticks s))) (read_key cfg id) r
              (read_cache s) Hsz) as (l & c & E & Hd & _).
  eexists. split; [unfold mbind, ST_bind; simpl; rewrite E; done|]. simpl.
  split_and!; try done; [apply (dis_params _ _ _ _ Hd)|].
  apply map_subseteq_spec. intros k v. erewrite cache_insert_cases by done. by case_decide.
Qed.

Lemma insert_write_spec id r s :
  0 ≤ cache_size (write_cache s) →
  ∃ l s', insert_write id r s = (Ok l, s') ∧
    files s' = files s ∧ blocks s' = blocks s ∧ next_ref s' = next_ref s ∧
    block_index s' = block_index s ∧ wal s' = wal s ∧ read_cache s' = read_cache s ∧ decompress_cache s' = decompress_cache s ∧
    cache_size (write_cache s') = cache_size (write_cache s) ∧
    NoDup l.*1 ∧
    (∀ k v, (k, v) ∈ l → <[id := r]> (cached (write_cache s)) !! k = Some v) ∧
    (∀ k, cached (write_cache s') !! k =
       if decide (k ∈ l.*1) then None else <[id := r]> (cached (write_cache s)) !! k).
Proof.
  intros Hsz. unfold insert_write, on_cache.
  rewrite (st_bind_ok _ _ s (clock (ticks s)) (set_ticks (S (ticks s)) s)) by done.
  rewrite (st_bind_ok _ _ (set_ticks (S (ticks s)) s) (clock (S (ticks s)))
             (set_ticks (S (S (ticks s))) s)) by done.
  destruct (cache_insert_spec (clock (ticks s)) (λ _, clock (S (ticks s))) id r
              (write_cache s) Hsz) as (l & c & E & Hd & _).
  do 2 eexists. split; [simpl; rewrite E; done|]. simpl.
  split_and!; try done; [apply (dis_params _ _ _ _ Hd)|apply Hd| |].
  - intros k v. rewrite (dis_removed _ _ _ _ Hd). unfold cached; simpl. rewrite fmap_insert. by intros [].
  - intros k. by apply (cache_insert_cases (clock (ticks s)) (λ _, clock (S (ticks s)))).
Qed.

(** ** Saving a descriptor *)

Lemma rewrite_file_eq buf f : rewrite_file buf f = buf.
Proof.
  unfold rewrite_file, write_at. rewrite take_0, Nat.sub_0_l. simpl.
  rewrite drop_ge; [by rewrite app_nil_r|]. by rewrite length_set_len.
Qed.

Lemma write_truncated buf f : write_at 0 buf (set_len 0 f) = buf.
Proof.
  unfold write_at. rewrite take_0, Nat.sub_0_l. simpl.
  rewrite drop_ge; [by rewrite app_nil_r|]. rewrite length_set_len. lia.
Qed.

Definition entries_ok (ix : BlockIndex) : Prop :=
  map_Forall (λ _ e, is_Some (be_latest_record_time e) ∧ be_compression e = None ∧
                     be_corrupted e = None ∧ entry_valid e) (index_info ix).

(** The index file has the summaries the index has now. *)
Definition index_current s : Prop :=
  ∃ buf, save_bytes (hash_iter (index_info (block_index s))).*2 = Ok buf ∧
    files s !! IndexFile = Some buf.

Lemma index_save_spec s :
  entries_ok (block_index s) →
  ∃ buf, index_save s = (Ok tt, set_files (<[IndexFile := buf]> (files s)) s) ∧
    save_bytes (hash_iter (index_info (block_index s))).*2 = Ok buf.
Proof.
  intros Hok. unfold index_save, save_bytes.
  destruct (entries_crc_bytes_ok (hash_iter (index_info (block_index s))).*2) as [bs ->].
  { apply Forall_fmap, Forall_forall. intros [k e] Hin%elem_of_hash_iter. by apply (Hok k e). }
  eexists. split; [|reflexivity]. cbn [mbind outcome_bind]. unfold fs_update, st_modify.
  by rewrite write_truncated.
Qed.

(** The descriptor of [b] in its [v]-th version, and the summary of the index. *)
Definition desc_proto b (v : Z) : BlockProto := with_version (block_to_proto b) (Some v) None.
Definition next_version s id : Z := u64_add (default 0 (get_block (block_index s) id ≫= be_version)) 1.
Definition saved_entry b (v : Z) : BlockEntry :=
  let buf := encode_block (desc_proto b v) in
  mkBlockEntry (ts_to_us (us_to_ts (block_id b))) (size b) (record_count b) (u64_wrap (Z.of_nat (length buf)))
    (Some (us_to_ts (latest_record_time b))) (Some (crc64 buf)) None None (Some v).

Lemma index_insert_entries_ok ix e :
  is_Some (be_latest_record_time e) → be_compression e = None → be_corrupted e = None →
  entry_valid e → entries_ok ix → entries_ok (index_insert ix e).
Proof. intros ? ? ? ? Hok. by apply map_Forall_insert_2. Qed.

Lemma saved_entry_valid b v : block_wf b → is_u64 v → entry_valid (saved_entry b v).
Proof.
  intros Hwf Hv. unfold saved_entry, entry_valid; cbn -[us_to_ts ts_to_us].
  split_and!; try apply Hwf; auto with u64.
  - intros ts [= <-]. by apply us_to_ts_valid, latest_record_time_range.
  - intros c [= <-]. apply crc64_range.
  - done.
  - by intros v' [= <-].
Qed.

Lemma save_meta_spec s r b :
  blocks s !! r = Some b → block_wf b → entries_ok (block_index s) →
  ∃ ixbuf, save_bytes (hash_iter (index_info (index_insert (block_index s)
          (saved_entry b (next_version s (block_id b)))))).*2 = Ok ixbuf ∧
    save_meta_on_disk cfg r s =
    (Ok tt,
     set_wal (wal_remove (block_id b) (wal s)).2
       (set_files (<[IndexFile := ixbuf]>
          (<[Desc (block_id b) := encode_block (desc_proto b (next_version s (block_id b)))]> (files s)))
       (set_index (index_insert (block_index s)
          (saved_entry b (next_version s (block_id b)))) s))).
Proof.
  intros Hr Hwf Hok. unfold save_meta_on_disk.
  rewrite (st_bind_ok _ _ s b s) by (unfold deref; by rewrite Hr).
  rewrite (st_bind_ok _ _ s s s) by done. rewrite Hprimary. fold (next_version s (block_id b)).
  fold (desc_proto b (next_version s (block_id b))).
  set (v := next_version s (block_id b)). set (buf := encode_block (desc_proto b v)).
  rewrite (st_bind_ok _ _ s tt (set_files (<[Desc (block_id b) := buf]> (files s)) s))
    by (unfold fs_update, st_modify; by rewrite rewrite_file_eq).
  rewrite (st_bind_ok _ _ _ tt (set_index (index_insert (block_index s) (saved_entry b v))
    (set_files (<[Desc (block_id b) := buf]> (files s)) s))) by done.
  destruct (index_save_spec (set_index (index_insert (block_index s) (saved_entry b v))
    (set_files (<[Desc (block_id b) := buf]> (files s)) s))) as (ixbuf & E & Hsave).
  { apply index_insert_entries_ok; try done. apply saved_entry_valid; [done|apply u64_add_range]. }
  exists ixbuf. split; [exact Hsave|]. st_step E. done.
Qed.

(** ** The representation *)

Definition block_ok id b : Prop :=
  block_wf b ∧ block_id b = id ∧ map_Forall (λ _ rec, rec_valid rec) (record_index b).

(** The reference [r] leads to the current content of block [id]. *)
Definition holds s a id r : Prop := ∃ b, a !! id = Some b ∧ blocks s !! r = Some b.

(** The descriptor on disk has the content [b] and the CRC the index expects. *)
Definition on_disk s id b : Prop :=
  ∃ buf v e, files s !! Desc id = Some buf ∧ decode_block buf = Some (desc_proto b v) ∧
    index_info (block_index s) !! id = Some e ∧
    (be_crc64 e = None ∨ be_crc64 e = Some (crc64 buf)).

(** [D] are the blocks taken out of the write cache that are still to be saved. *)
Record rep (D : list (Z * Z)) s a : Prop := {
  rep_index : index_wf (block_index s);
  rep_dom : dom (index_info (block_index s)) = dom a;
  rep_entries : entries_ok (block_index s);
  rep_blocks : map_Forall block_ok a;
  rep_write : map_Forall (holds s a) (cached (write_cache s));
  rep_pending : Forall (λ kr, holds s a kr.1 kr.2) D;
  rep_read id r : cached (read_cache s) !! read_key cfg id = Some r →
    holds s a id r ∧ (∀ r', cached (write_cache s) !! id = Some r' → r' = r);
  rep_disk id b : a !! id = Some b → cached (write_cache s) !! id = None → id ∉ D.*1 →
    on_disk s id b;
  rep_fresh r : next_ref s ≤ r → blocks s !! r = None;
  rep_temps : map_Forall (λ _ p, ∃ n, p = Temp n) (cached (decompress_cache s));
  rep_sizes : 0 ≤ cache_size (write_cache s) ∧ 0 ≤ cache_size (read_cache s)
}.

(** Both caches lead to [r] for block [id], if they have it at all. *)
Definition sole s id r : Prop :=
  (∀ r', cached (write_cache s) !! id = Some r' → r' = r) ∧
  (∀ r', cached (read_cache s) !! read_key cfg id = Some r' → r' = r).

Lemma rep_equiv D s s' a : bm_equiv s s' → rep D s a → rep D s' a.
Proof.
  intros [Ef Eb En Ei Ew Ewc Edc Erc Ews Ers] [].
  split; unfold holds, on_disk in *; rewrite ?Ef, ?Eb, ?En, ?Ei, ?Ewc, ?Erc, ?Edc, ?Ews, ?Ers; auto.
Qed.

Lemma holds_inj D s a id id' r :
  rep D s a → holds s a id r → holds s a id' r → id = id'.
Proof.
  intros Hrep (b & Hb & Hr) (b' & Hb' & Hr'). simplify_eq.
  destruct (rep_blocks _ _ _ Hrep id b Hb) as (_ & <- & _).
  by destruct (rep_blocks _ _ _ Hrep id' b Hb') as (_ & <- & _).
Qed.

Lemma desc_proto_valid id b v : block_ok id b → is_u64 v → block_valid (desc_proto b v).
Proof.
  intros (Hwf & _ & Hv) Hver. destruct (block_to_proto_valid b Hwf Hv) as (? & ? & ? & ? & ? & ? & _).
  split_and!; try done. by intros v' [= <-].
Qed.

(** The data files are the same. *)
Definition data_same s s' : Prop := ∀ i, files s' !! Data i = files s !! Data i.
#[local] Instance data_same_refl : Reflexive data_same.
Proof. by intros s i. Qed.
#[local] Instance data_same_trans : Transitive data_same.
Proof. intros s1 s2 s3 H12 H23 i. by rewrite H23. Qed.

Lemma data_same_files s s' : files s' = files s → data_same s s'.
Proof. intros E i. by rewrite E. Qed.

(** Saving a block of the manager, pending or not, keeps the representation and
    makes the block durable. *)
Lemma save_meta_rep D s a id r :
  rep D s a → holds s a id r →
  ∃ s', save_meta_on_disk cfg r s = (Ok tt, s') ∧
    rep (filter (λ kr, kr.1 ≠ id) D) s' a ∧
    ((∀ i b, (if decide (i = id) then a !! i = Some b else on_disk s i b) → on_disk s' i b) ∧
      index_current s') ∧
    blocks s' = blocks s ∧ write_cache s' = write_cache s ∧ read_cache s' = read_cache s ∧
    data_same s s'.
Proof.
  intros Hrep (b & Hb & Hr). destruct (rep_blocks _ _ _ Hrep id b Hb) as (Hwf & Hid & Hv).
  destruct (save_meta_spec s r b Hr Hwf (rep_entries _ _ _ Hrep)) as (ixbuf & Hixbuf & E).
  rewrite E. eexists. split; [done|]. subst id.
  set (v := next_version s (block_id b)) in *. set (buf := encode_block (desc_proto b v)) in *.
  match goal with |- rep _ ?s' _ ∧ _ => set (s1 := s') end.
  assert (be_block_id (saved_entry b v) = block_id b) as Hbid by (apply ts_us_roundtrip, Hwf).
  assert (∀ b', a !! block_id b = Some b' → on_disk s1 (block_id b) b') as Hdisk.
  { intros b' [= <-]%(λ x, eq_trans (eq_sym Hb) x). exists buf, v, (saved_entry b v).
    unfold s1, index_insert. cbn [files block_index index_info set_wal set_files set_index].
    rewrite lookup_insert_ne by done. rewrite Hbid, !lookup_insert_eq. split_and!; [done| |done|by right].
    apply decode_encode_block. eapply desc_proto_valid; [by split_and!|]. apply u64_add_range. }
  assert (∀ i b', i ≠ block_id b → on_disk s i b' → on_disk s1 i b') as Hother.
  { intros i b' Hne (buf' & v' & e & Hf & Hdec & He & Hcrc).
    exists buf', v', e. unfold s1, index_insert.
    cbn [files block_index index_info set_wal set_files set_index].
    rewrite lookup_insert_ne by done. rewrite Hbid, !lookup_insert_ne by congruence. done. }
  split_and!; [|intros i b' Hd; case_decide; [subst i; by apply Hdisk|by apply Hother]|by exists ixbuf; unfold s1; bm_simpl; rewrite lookup_insert_eq|done..|
    by intros i; unfold s1; bm_simpl; rewrite !lookup_insert_ne by done].
  destruct Hrep as [Hix Hdom Hent Hbl Hwr Hpe Hrd Hdi Hfr Htm Hsz].
  split; unfold holds in *;
    cbn [s1 files blocks next_ref block_index write_cache read_cache decompress_cache wal set_wal set_files set_index] in *;
    auto.
  - by apply index_insert_wf.
  - unfold index_insert. cbn [index_info]. rewrite dom_insert_L, Hbid, Hdom. apply elem_of_dom_2 in Hb. set_solver.
  - apply index_insert_entries_ok; try done. apply saved_entry_valid; [done|apply u64_add_range].
  - apply Forall_forall. intros kr [_ Hin]%list_elem_of_filter. rewrite Forall_forall in Hpe. by apply Hpe.
  - intros id' b' Hb' Hnw Hnd. destruct (decide (id' = block_id b)) as [->|Hne]; [by apply Hdisk|].
    apply Hother; [done|]. apply Hdi; [done|done|].
    intros (kr & -> & Hin)%list_elem_of_fmap. apply Hnd, list_elem_of_fmap.
    exists kr. split; [done|]. by apply list_elem_of_filter.
Qed.

Lemma filter_first (id r : Z) (D : list (Z * Z)) :
  NoDup ((id, r) :: D).*1 → filter (λ kr, kr.1 ≠ id) ((id, r) :: D) = D.
Proof.
  rewrite fmap_cons. intros [Hni Hnd]%NoDup_cons.
  rewrite filter_cons_False by (intros Hne; by apply Hne).
  apply filter_all. intros kr Hin Heq. apply Hni, list_elem_of_fmap. by exists kr.
Qed.

(** The loop of [save_block] over what the write cache evicted. *)
Lemma save_pending D s a :
  NoDup D.*1 → rep D s a →
  ∃ s', st_for (λ kr, save_meta_on_disk cfg kr.2) D s = (Ok tt, s') ∧ rep [] s' a ∧
    blocks s' = blocks s ∧ write_cache s' = write_cache s ∧ read_cache s' = read_cache s ∧
    data_same s s'.
Proof.
  revert s. induction D as [|[id r] D IH]; intros s Hnd Hrep.
  - exists s. by split_and!.
  - pose proof (rep_pending _ _ _ Hrep) as Hp. apply Forall_cons in Hp as [Hh _]. simpl in Hh.
    destruct (save_meta_rep _ s a id r Hrep Hh) as (s1 & E & Hrep1 & _ & Hb & Hw & Hr & Hd1).
    rewrite (filter_first id r D Hnd) in Hrep1.
    destruct (IH s1 ltac:(by inv Hnd) Hrep1) as (s2 & E2 & Hrep2 & Hb2 & Hw2 & Hr2 & Hd2).
    exists s2. rewrite (st_for_cons (λ kr, save_meta_on_disk cfg kr.2) (id, r) D s s1 E).
    split_and!; [done|done|congruence..|by transitivity s1].
Qed.

Lemma rep_weaken s a id r : rep [] s a → holds s a id r → rep [(id, r)] s a.
Proof.
  intros [Hix Hdom Hent Hbl Hwr Hpe Hrd Hdi Hfr Htm Hsz] Hh. split; try done.
  - by apply Forall_singleton.
  - intros id' b' Hb' Hw _. apply Hdi; [done|done|]. by apply not_elem_of_nil.
Qed.

(** The first half of [save_block]: what the write cache evicts is pending. *)
Lemma insert_write_rep s a id r :
  rep [(id, r)] s a → (∀ r', cached (read_cache s) !! read_key cfg id = Some r' → r' = r) →
  ∃ l s1, insert_write id r s = (Ok l, s1) ∧ rep l s1 a ∧ NoDup l.*1 ∧
    (∀ r', cached (write_cache s1) !! id = Some r' → r' = r) ∧ files s1 = files s ∧ blocks s1 = blocks s ∧
    block_index s1 = block_index s ∧ wal s1 = wal s ∧ read_cache s1 = read_cache s ∧
    ∀ k, k = id ∨ is_Some (cached (write_cache s) !! k) → is_Some (cached (write_cache s1) !! k) ∨ k ∈ l.*1.
Proof.
  intros Hrep Hsr.
  pose proof (rep_pending _ _ _ Hrep) as Hp. apply Forall_cons in Hp as [Hh _]. simpl in Hh.
  destruct Hh as (b & Hb & Hr).
  destruct (insert_write_spec id r s) as
    (l & s1 & E & Hf & Hbl & Hn & Hi & Hwal & Hrc & Hdc & Hsz & Hnd & Hl & Hc); [apply Hrep|].
  exists l, s1. split_and!; try done.
  - destruct Hrep as [Hix Hdom Hent Hblk Hwr Hpe Hrd Hdi Hfr Htm [Hs1 Hs2]].
    assert (∀ k v, <[id := r]> (cached (write_cache s)) !! k = Some v → holds s1 a k v) as Hall.
    { intros k v. rewrite lookup_insert. unfold holds. rewrite Hbl.
      case_decide as Hk; [intros [= <-]; subst k; by exists b|]. intros Hkv. by apply Hwr. }
    split; unfold holds, on_disk in *; rewrite ?Hf, ?Hbl, ?Hn, ?Hi, ?Hrc, ?Hdc; auto.
    + intros k v. rewrite Hc. case_decide; [done|]. rewrite <-Hbl. apply Hall.
    + apply Forall_forall. intros [k v] Hin. rewrite <-Hbl. apply Hall. by apply Hl.
    + intros k v Hkv. destruct (Hrd k v Hkv) as [Hh Hw']. split; [done|].
      intros v'. rewrite Hc. case_decide; [done|]. rewrite lookup_insert.
      case_decide as Hk; [intros [= <-]; subst k; symmetry; by apply Hsr|]. apply Hw'.
    + intros k b' Hb' Hnone Hnl. rewrite Hc, decide_False in Hnone by done.
      rewrite lookup_insert in Hnone. case_decide as Hk; [done|]. apply Hdi; [done|done|].
      simpl. intros ->%list_elem_of_singleton. done.
    + rewrite Hsz. done.
  - intros r'. rewrite Hc. case_decide; [done|]. rewrite lookup_insert_eq. congruence.
  - intros k Hk. rewrite Hc. case_decide; [by right|left]. rewrite lookup_insert_is_Some'. naive_solver.
Qed.

(** Putting a block into the write cache, whatever falls out of it. *)
Lemma save_block_rep s a id r :
  rep [(id, r)] s a → (∀ r', cached (read_cache s) !! read_key cfg id = Some r' → r' = r) →
  ∃ s', save_block cfg r s = (Ok tt, s') ∧ rep [] s' a ∧ holds s' a id r ∧ sole s' id r ∧
    blocks s' = blocks s ∧ read_cache s' = read_cache s ∧ data_same s s'.
Proof.
  intros Hrep Hsr.
  pose proof (rep_pending _ _ _ Hrep) as Hp. apply Forall_cons in Hp as [Hh _]. simpl in Hh.
  destruct Hh as (b & Hb & Hr). destruct (rep_blocks _ _ _ Hrep id b Hb) as (Hwf & Hid & Hv).
  unfold save_block. rewrite (st_bind_ok _ _ s b s) by (unfold deref; by rewrite Hr). rewrite Hid.
  destruct (insert_write_rep s a id r Hrep Hsr)
    as (l & s1 & E & Hrep1 & Hnd & Hw & Hf & Hbl & _ & _ & Hrc & _). st_step E.
  destruct (save_pending l s1 a Hnd Hrep1) as (s2 & E2 & Hrep2 & Hb2 & Hw2 & Hr2 & Hd2).
  exists s2. split_and!; [done|done| | |congruence|congruence|transitivity s1; [by apply data_same_files|done]].
  - exists b. split; [done|]. by rewrite Hb2, Hbl.
  - split; [by rewrite Hw2|]. intros r'. rewrite Hr2, Hrc. apply Hsr.
Qed.

(** ** Loading *)

Lemma not_compressed D s a id : rep D s a → block_is_compressed id s = false.
Proof.
  intros Hrep. unfold block_is_compressed. apply bool_decide_eq_false. intros Hne. apply Hne.
  unfold get_block. destruct (index_info (block_index s) !! id) as [e|] eqn:E; [|done].
  destruct (rep_entries _ _ _ Hrep id e E) as (_ & Hc & _). simpl. by rewrite Hc.
Qed.

Lemma check_crc_ok s id buf e :
  index_info (block_index s) !! id = Some e → be_crc64 e = None ∨ be_crc64 e = Some (crc64 buf) →
  check_crc cfg id buf s = (Ok tt, s).
Proof.
  intros He Hcrc. unfold check_crc. rewrite (st_bind_ok _ _ s s s) by done.
  unfold get_block. rewrite He. destruct Hcrc as [-> | ->]; [done|]. by rewrite decide_True.
Qed.

(** Reading the descriptor of a block that is in no cache. *)
Lemma load_from_disk_spec D s a id b :
  rep D s a → block_ok id b → on_disk s id b →
  load_from_disk cfg id s =
    (Ok (next_ref s), set_next_ref (next_ref s + 1) (set_blocks (<[next_ref s := b]> (blocks s)) s)).
Proof.
  intros Hrep (Hwf & Hid & Hv) (buf & v & e & Hf & Hdec & He & Hcrc). unfold load_from_disk.
  rewrite (st_bind_ok _ _ s (Desc id) s).
  2:{ unfold resolve_desc_path. rewrite (st_bind_ok _ _ s s s) by done.
      by rewrite (not_compressed D s a id Hrep). }
  rewrite (st_bind_ok _ _ s s s) by done. rewrite Hf.
  rewrite (st_bind_ok _ _ _ _ _ (check_crc_ok s id buf e He Hcrc)). rewrite Hdec.
  rewrite (st_bind_ok _ _ s b s); [done|]. unfold st_lift. f_equal.
  exact (block_proto_roundtrip b Hwf).
Qed.

Lemma rep_alloc s a b :
  rep [] s a →
  rep [] (set_next_ref (next_ref s + 1) (set_blocks (<[next_ref s := b]> (blocks s)) s)) a.
Proof.
  intros [Hix Hdom Hent Hbl Hwr Hpe Hrd Hdi Hfr Htm Hsz].
  assert (∀ id r, holds s a id r →
    holds (set_next_ref (next_ref s + 1) (set_blocks (<[next_ref s := b]> (blocks s)) s)) a id r) as Hh.
  { intros id r (b' & Hb' & Hr). exists b'. split; [done|]. simpl. rewrite lookup_insert_ne; [done|].
    intros <-. by rewrite Hfr in Hr. }
  split; try done.
  - intros id r Hr. by apply Hh, Hwr.
  - intros id r Hr. destruct (Hrd id r Hr) as [? ?]. split; [by apply Hh|done].
  - intros r Hr. simpl in *. rewrite lookup_insert_ne by lia. apply Hfr. lia.
Qed.

(** Putting a current reference into the read cache. *)
Lemma insert_read_rep s a id r :
  rep [] s a → holds s a id r → (∀ r', cached (write_cache s) !! id = Some r' → r' = r) →
  (cached (write_cache s) !! id = None → ∀ r', cached (read_cache s) !! read_key cfg id = Some r' → r' = r) →
  ∃ s', insert_read cfg id r s = (Ok tt, s') ∧ rep [] s' a ∧ holds s' a id r ∧ sole s' id r ∧
    blocks s' = blocks s ∧ files s' = files s ∧ block_index s' = block_index s ∧ wal s' = wal s.
Proof.
  intros Hrep Hh Hw Hr.
  destruct (insert_read_spec id r s) as (s1 & E & Hf & Hbl & Hn & Hi & Hwal & Hwc & Hdc & Hsz & Hsub);
    [apply Hrep|].
  assert (∀ r', cached (read_cache s1) !! read_key cfg id = Some r' → r' = r) as Hsole.
  { intros r' Hr'. eapply lookup_weaken in Hr'; [|exact Hsub]. rewrite lookup_insert_eq in Hr'. congruence. }
  exists s1. split_and!; try done.
  - destruct Hrep as [Hix Hdom Hent Hblk Hwr Hpe Hrd Hdi Hfr Htm [Hs1 Hs2]].
    split; unfold holds, on_disk in *; rewrite ?Hf, ?Hbl, ?Hn, ?Hi, ?Hwc, ?Hdc; auto.
    + intros id' r' Hr'. destruct (decide (id' = id)) as [->|Hne].
      * rewrite (Hsole r' Hr'). split; [done|]. intros r2 Hr2. by apply Hw.
      * eapply lookup_weaken in Hr'; [|exact Hsub]. rewrite lookup_insert in Hr'.
        case_decide as Hk; [|by apply Hrd]. exfalso. apply Hne.
        unfold read_key in Hk. by apply (inj _), (inj _), (inj _) in Hk.
    + rewrite Hsz. done.
  - unfold holds in *. by rewrite Hbl.
  - split; [by rewrite Hwc|done].
Qed.

(** A block of the map is found wherever its current content is. *)
Lemma load_block_rep s a id b :
  rep [] s a → a !! id = Some b →
  ∃ r s', load_block cfg id s = (Ok r, s') ∧ rep [] s' a ∧ holds s' a id r ∧ sole s' id r ∧
    files s' = files s ∧ block_index s' = block_index s ∧ wal s' = wal s.
Proof.
  intros Hrep Hb. unfold load_block.
  destruct (get_read_spec id s) as (s1 & E & He). st_step E.
  pose proof (rep_equiv _ _ _ _ He Hrep) as Hrep1.
  destruct (cached (write_cache s) !! id) as [r|] eqn:Ew.
  - rewrite (st_bind_ok _ _ s1 r s1) by done.
    assert (cached (write_cache s1) !! id = Some r) as Ew1 by by rewrite (eq_write _ _ He).
    destruct (insert_read_rep s1 a id r Hrep1) as (s2 & E2 & Hrep2 & Hh2 & Hs2 & _ & ? & ? & ?).
    + by apply Hrep1.
    + congruence.
    + congruence.
    + exists r, s2. st_step E2. destruct He. split_and!; try done; congruence.
  - assert (cached (write_cache s1) !! id = None) as Ew1 by by rewrite (eq_write _ _ He).
    destruct (cached (read_cache s) !! read_key cfg id) as [r|] eqn:Er.
    + rewrite (st_bind_ok _ _ s1 r s1) by done.
      assert (cached (read_cache s1) !! read_key cfg id = Some r) as Er1 by by rewrite (eq_read _ _ He).
      destruct (insert_read_rep s1 a id r Hrep1) as (s2 & E2 & Hrep2 & Hh2 & Hs2 & _ & ? & ? & ?).
      * by apply (rep_read _ _ _ Hrep1).
      * congruence.
      * congruence.
      * exists r, s2. st_step E2. destruct He. split_and!; try done; congruence.
    + assert (cached (read_cache s1) !! read_key cfg id = None) as Er1 by by rewrite (eq_read _ _ He).
      assert (on_disk s1 id b) as Hd
        by (apply (rep_disk _ _ _ Hrep1); [done|done|apply not_elem_of_nil]).
      st_step (load_from_disk_spec [] s1 a id b Hrep1 (rep_blocks _ _ _ Hrep1 id b Hb) Hd).
      destruct (insert_read_rep (set_next_ref (next_ref s1 + 1)
        (set_blocks (<[next_ref s1 := b]> (blocks s1)) s1)) a id (next_ref s1) (rep_alloc s1 a b Hrep1))
        as (s2 & E2 & Hrep2 & Hh2 & Hs2 & _ & ? & ? & ?).
      * exists b. split; [done|]. simpl. by rewrite lookup_insert_eq.
      * simpl. congruence.
      * simpl. congruence.
      * exists (next_ref s1), s2. cbn beta. st_step E2. destruct He. simpl in *. split_and!; try done; congruence.
Qed.

(** ** Changing a block in place *)

Lemma assign_rep s a id r b' :
  rep [] s a → holds s a id r → sole s id r → block_ok id b' →
  rep [(id, r)] (set_blocks (<[r := b']> (blocks s)) s) (<[id := b']> a).
Proof.
  intros Hrep Hh [Hsw Hsr] Hok. pose proof Hrep as [Hix Hdom Hent Hbl Hwr Hpe Hrd Hdi Hfr Htm Hsz].
  assert (∀ k v, holds s a k v → (k = id → v = r) →
    holds (set_blocks (<[r := b']> (blocks s)) s) (<[id := b']> a) k v) as Hmove.
  { intros k v Hkv Heq. unfold holds in *. simpl. destruct (decide (k = id)) as [->|Hne].
    - rewrite (Heq eq_refl). exists b'. by rewrite !lookup_insert_eq.
    - assert (v ≠ r) as Hvr by (intros ->; apply Hne; by eapply holds_inj).
      by rewrite !lookup_insert_ne. }
  destruct Hh as (b0 & Hb0 & Hr0).
  split; try done.
  - rewrite dom_insert_L. apply elem_of_dom_2 in Hb0. set_solver.
  - by apply map_Forall_insert_2.
  - intros k v Hkv. apply Hmove; [by apply Hwr|]. intros ->. by apply Hsw.
  - apply Forall_singleton. apply Hmove; [by exists b0|done].
  - intros k v Hkv. destruct (Hrd k v Hkv) as [Hk1 Hk2]. split; [|done].
    apply Hmove; [done|]. intros ->. by apply Hsr.
  - intros k bk Hk Hw Hnd. simpl in *.
    assert (k ≠ id) as Hne by (intros ->; apply Hnd; by apply list_elem_of_singleton).
    rewrite lookup_insert_ne in Hk by done. apply Hdi; [done|done|apply not_elem_of_nil].
  - intros v Hv. simpl. rewrite lookup_insert_ne; [by apply Hfr|]. intros <-.
    by rewrite Hfr in Hr0.
Qed.

Lemma rep_set_wal D s a w : rep D s a → rep D (set_wal w s) a.
Proof. intros []. by split. Qed.

(** What the operations of the block manager do to the map. *)

(** A block that is new to the map is in no cache. *)
Lemma sole_new s a id r : rep [] s a → a !! id = None → sole s id r.
Proof.
  intros Hrep Hnone. split; intros r' Hr'; exfalso.
  - destruct (rep_write _ _ _ Hrep id r' Hr') as (b & ? & _). congruence.
  - destruct (rep_read _ _ _ Hrep id r' Hr') as [(b & ? & _) _]. congruence.
Qed.

Lemma rep_read_new s a id :
  rep [] s a → a !! id = None → cached (read_cache s) !! read_key cfg id = None.
Proof.
  intros Hrep Hnone. destruct (cached (read_cache s) !! read_key cfg id) as [r|] eqn:E; [|done].
  destruct (rep_read _ _ _ Hrep id r E) as [(b & ? & _) _]. congruence.
Qed.

Lemma block_new_ok id : is_u64 id → block_ok id (block_new id).
Proof. intros Hid. split_and!; [by apply block_new_wf|done|]. apply map_Forall_empty. Qed.

Definition new_block_entry id : BlockEntry :=
  mkBlockEntry id 0 0 0 (Some (us_to_ts 0)) None None None None.

Lemma new_block_entry_valid id : is_u64 id → entry_valid (new_block_entry id).
Proof.
  intros Hid. unfold new_block_entry, entry_valid; cbn -[us_to_ts]. split_and!; try done.
  intros ts [= <-]. apply us_to_ts_valid. u64_lia.
Qed.

Lemma add_block_rep s a id b f' :
  rep [] s a → (∀ b0, a !! id = Some b0 → b0 = b) → block_ok id b →
  (∀ i, f' !! Desc i = files s !! Desc i) →
  let s' := set_next_ref (next_ref s + 1) (set_blocks (<[next_ref s := b]> (blocks s))
              (set_index (index_insert (block_index s) (new_block_entry id)) (set_files f' s))) in
  rep [(id, next_ref s)] s' (<[id := b]> a).
Proof.
  intros Hrep Hold Hok Hf s'. pose proof Hrep as [Hix Hdom Hent Hbl Hwr Hpe Hrd Hdi Hfr Htm Hsz].
  assert (∀ k v, holds s a k v → holds s' (<[id := b]> a) k v) as Hmove.
  { intros k v (b0 & Hb & Hv). exists b0. simpl. split.
    - rewrite lookup_insert. case_decide; [subst k|done]. by rewrite (Hold b0 Hb).
    - rewrite lookup_insert_ne; [done|]. intros <-. by rewrite Hfr in Hv. }
  split; try done.
  - by apply index_insert_wf.
  - simpl. by rewrite !dom_insert_L, Hdom.
  - apply index_insert_entries_ok; try done. apply new_block_entry_valid. by destruct Hok as (Hwf & <- & _); apply Hwf.
  - apply map_Forall_insert_2; done.
  - intros k v Hkv. by apply Hmove, Hwr.
  - apply Forall_singleton. exists b. simpl. by rewrite !lookup_insert_eq.
  - intros k v Hkv. destruct (Hrd k v Hkv) as [? ?]. split; [by apply Hmove|done].
  - intros k b0 Hk Hw Hnd. assert (k ≠ id) as Hne by (intros ->; apply Hnd; by apply list_elem_of_singleton).
    rewrite lookup_insert_ne in Hk by done.
    destruct (Hdi k b0 Hk Hw (not_elem_of_nil _)) as (buf & v & e & ? & ? & ? & ?).
    exists buf, v, e. simpl. rewrite Hf, lookup_insert_ne by done. done.
  - intros v Hv. simpl in *. rewrite lookup_insert_ne by lia. apply Hfr. lia.
Qed.

Lemma start_new_block_rep s a id max :
  rep [] s a → (∀ b, a !! id = Some b → b = block_new id) →
  cached (read_cache s) !! read_key cfg id = None → is_u64 id →
  ∃ r s', start_new_block cfg id max s = (Ok r, s') ∧ rep [] s' (<[id := block_new id]> a) ∧
    holds s' (<[id := block_new id]> a) id r ∧ sole s' id r ∧ read_cache s' = read_cache s.
Proof.
  intros Hrep Hold Hrc Hid. unfold start_new_block.
  set (f' := <[Data id := (λ f, if filesystem_backend cfg then set_len (Z.to_nat max) f else f)
                            (default [] (files s !! Data id))]> (files s)).
  rewrite (st_bind_ok _ _ s tt (set_files f' s)) by done.
  rewrite (st_bind_ok _ _ _ tt
    (set_index (index_insert (block_index s) (new_block_entry id)) (set_files f' s))) by done.
  rewrite (st_bind_ok _ (alloc _) _ (next_ref s) (set_next_ref (next_ref s + 1)
    (set_blocks (<[next_ref s := block_new id]> (blocks s))
      (set_index (index_insert (block_index s) (new_block_entry id)) (set_files f' s))))) by done.
  pose proof (add_block_rep s a id (block_new id) f' Hrep Hold (block_new_ok id Hid)) as Hadd.
  destruct (save_block_rep _ _ id (next_ref s) (Hadd ltac:(intros i; by apply lookup_insert_ne)))
    as (s2 & E & Hrep2 & Hh & Hs & _ & Hrc2 & _); [bm_simpl; congruence|].
  exists (next_ref s), s2. cbn beta. st_step E. done.
Qed.

(** ** Unknown blocks *)

(** Rewriting the index file, or dropping caches' entries, keeps the map. *)
Lemma rep_set_files D s a f' :
  (∀ i, f' !! Desc i = files s !! Desc i) → rep D s a → rep D (set_files f' s) a.
Proof.
  intros Hf [Hix Hdom Hent Hbl Hwr Hpe Hrd Hdi Hfr Htm Hsz]. split; try done.
  intros id b Hb Hw Hd. destruct (Hdi id b Hb Hw Hd) as (buf' & v & e & ? & ? & ? & ?).
  exists buf', v, e. simpl. by rewrite Hf.
Qed.

Lemma rep_index_file D s a buf : rep D s a → rep D (set_files (<[IndexFile := buf]> (files s)) s) a.
Proof. apply rep_set_files. intros i. by apply lookup_insert_ne. Qed.

(** Refreshing the summary of a block that is about to be saved. *)
Lemma index_put_rep s a id r b :
  rep [(id, r)] s a → a !! id = Some b →
  ∃ ix, index_put b s = (Ok tt, set_index ix s) ∧ rep [(id, r)] (set_index ix s) a.
Proof.
  intros Hrep Hb. pose proof Hrep as [Hix Hdom Hent Hbl Hwr Hpe Hrd Hdi Hfr Htm Hsz].
  destruct (Hbl id b Hb) as (Hwf & Hid & Hv). eexists. split; [reflexivity|].
  split; try done; bm_simpl.
  - by apply index_insert_wf.
  - unfold index_insert. cbn [index_info be_block_id]. rewrite dom_insert_L, Hdom, Hid.
    apply elem_of_dom_2 in Hb. set_solver.
  - apply index_insert_entries_ok; try done. unfold entry_valid; cbn -[us_to_ts].
    split_and!; try apply Hwf; try done.
    intros ts [= <-]. by apply us_to_ts_valid, latest_record_time_range.
  - intros k b' Hk Hw Hnd. assert (k ≠ id) as Hne by (intros ->; apply Hnd; by apply list_elem_of_singleton).
    destruct (Hdi k b' Hk Hw Hnd) as (buf & v & e & ? & ? & ? & ?). exists buf, v, e.
    unfold index_insert. bm_simpl. cbn [index_info be_block_id]. rewrite Hid.
    by rewrite lookup_insert_ne.
Qed.

Lemma mark_corrupted_absent ix id : index_info ix !! id = None → mark_corrupted ix id = ix.
Proof.
  intros Hn. unfold mark_corrupted. destruct ix as [m d]; simpl in *. f_equal.
  apply map_eq. intros i. rewrite lookup_alter. case_decide; [subst|done]. by rewrite Hn.
Qed.

(** The block's entries of the caches are gone. *)
Definition uncached id s : BM :=
  set_read_cache (cache_remove (read_key cfg id) (read_cache s)).2
    (set_write_cache (cache_remove id (write_cache s)).2 s).

Lemma uncached_rep s a id : rep [] s a → a !! id = None → rep [] (uncached id s) a.
Proof.
  intros Hrep Hnone. pose proof Hrep as [Hix Hdom Hent Hbl Hwr Hpe Hrd Hdi Hfr Htm Hsz].
  split; try done; unfold uncached; bm_simpl.
  - intros k v. rewrite cached_remove, lookup_delete_Some. intros [_ Hk]. by apply Hwr.
  - intros k v. rewrite !cached_remove, lookup_delete_Some. intros [_ Hk].
    destruct (Hrd k v Hk) as [? Hw]. split; [done|]. intros r'. rewrite lookup_delete_Some.
    intros [_ ?]. by apply Hw.
  - intros k b Hk. rewrite cached_remove. intros [[= <-]|Hw]%lookup_delete_None Hd; [congruence|].
    by apply Hdi.
Qed.

(** The descriptors, the logs and the index are the same. *)
Definition same_store s s' : Prop :=
  (∀ i, files s' !! Desc i = files s !! Desc i) ∧ wal s' = wal s ∧ block_index s' = block_index s ∧
  (index_current s → index_current s').

Lemma same_store_eq s s' :
  files s' = files s → wal s' = wal s → block_index s' = block_index s → same_store s s'.
Proof. intros Hf Hw Hi. split_and!; try done; unfold index_current; by rewrite Hf, ?Hi. Qed.

#[local] Instance same_store_trans : Transitive same_store.
Proof. intros s1 s2 s3 (Hf & Hw & Hi & Hc) (Hf' & Hw' & Hi' & Hc'). split_and!; [congruence..|auto]. Qed.

Lemma load_block_unknown s a id :
  rep [] s a → a !! id = None →
  ∃ s', load_block cfg id s = (Err InternalServerError, s') ∧ rep [] s' a ∧ same_store s s' ∧
    cached (write_cache s') = cached (write_cache s).
Proof.
  intros Hrep Hnone. unfold load_block.
  destruct (get_read_spec id s) as (s1 & E & He). st_step E.
  pose proof (rep_equiv _ _ _ _ He Hrep) as Hrep1.
  destruct (sole_new s a id 0 Hrep Hnone) as [Hw Hr].
  destruct (cached (write_cache s) !! id) as [r|] eqn:Ew.
  { destruct (rep_write _ _ _ Hrep id r Ew) as (b & ? & _). congruence. }
  destruct (cached (read_cache s) !! read_key cfg id) as [r|] eqn:Er.
  { destruct (rep_read _ _ _ Hrep id r Er) as [(b & ? & _) _]. congruence. }
  assert (index_info (block_index s1) !! id = None) as Hix.
  { apply not_elem_of_dom. rewrite (rep_dom _ _ _ Hrep1). by apply not_elem_of_dom. }
  enough (∃ s', load_from_disk cfg id s1 = (Err InternalServerError, s') ∧ rep [] s' a ∧ same_store s1 s' ∧
      cached (write_cache s') = cached (write_cache s1)) as (s2 & E2 & Hrep2 & Hs2 & Hw2).
  { exists s2. rewrite (st_bind_err _ _ _ _ _ E2). split; [done|]. split; [done|]. destruct He.
    split; [transitivity s1; [by apply same_store_eq|done]|congruence]. }
  unfold load_from_disk. rewrite (st_bind_ok _ _ s1 (Desc id) s1).
  2:{ unfold resolve_desc_path. rewrite (st_bind_ok _ _ s1 s1 s1) by done.
      by rewrite (not_compressed [] s1 a id Hrep1). }
  rewrite (st_bind_ok _ _ s1 s1 s1) by done. destruct (files s1 !! Desc id) as [buf|] eqn:Ef.
  - exists s1. split; [|split; [done|split; [by apply same_store_eq|done]]]. apply st_bind_err. unfold check_crc.
    rewrite (st_bind_ok _ _ s1 s1 s1) by done. unfold get_block. by rewrite Hix.
  - rewrite Hprimary.
    enough (∃ s', mark_block_corrupted cfg id s1 = (Ok tt, s') ∧ rep [] s' a ∧ same_store s1 s' ∧
        cached (write_cache s') = cached (write_cache s1)) as (s2 & E2 & ?) by (exists s2; by rewrite (st_bind_ok _ _ _ _ _ E2)).
    unfold mark_block_corrupted. rewrite Hprimary.
    rewrite (st_bind_ok _ _ _ tt s1)
      by (unfold st_modify; rewrite mark_corrupted_absent by done; by destruct s1).
    rewrite (st_bind_ok _ _ _ tt (uncached id s1)) by done.
    rewrite (st_bind_ok _ _ _ (uncached id s1) (uncached id s1)) by done.
    replace (files (uncached id s1) !! Desc id ≫= decode_block) with (@None BlockProto)
      by (simpl; by rewrite Ef).
    rewrite (st_bind_ok _ _ _ tt (uncached id s1)) by done.
    pose proof (uncached_rep s1 a id Hrep1 Hnone) as Hrep2.
    destruct (index_save_spec (uncached id s1) (rep_entries _ _ _ Hrep2)) as (buf & E2 & Hbuf).
    eexists. split; [exact E2|]. split; [by apply rep_index_file|].
    split; [split_and!; [|done..|]|].
    + intros i. bm_simpl. by rewrite lookup_insert_ne.
    + intros _. exists buf. split; [exact Hbuf|]. bm_simpl. apply lookup_insert_eq.
    + unfold uncached. bm_simpl. rewrite cached_remove. apply delete_id. by rewrite (eq_write _ _ He).
Qed.

(** ** Removing a block *)

Lemma remove_files_spec l s :
  ∃ f', st_for (λ p, ex ← fs_exists p; if (ex : bool) then fs_remove p else mret tt) l s
          = (Ok tt, set_files f' s) ∧
    (∀ p, p ∉ l → f' !! p = files s !! p).
Proof.
  revert s. induction l as [|p l IH]; intros s.
  - exists (files s). split; [by destruct s|done].
  - assert (∃ f1, (ex ← fs_exists p; if (ex : bool) then fs_remove p else mret tt) s
              = (Ok tt, set_files f1 s) ∧ ∀ q, q ≠ p → f1 !! q = files s !! q) as (f1 & E & Hf1).
    { rewrite (st_bind_ok _ _ s (bool_decide (is_Some (files s !! p))) s) by done.
      destruct (files s !! p) as [c|] eqn:Ep.
      - exists (delete p (files s)). split; [|intros q Hq; by rewrite lookup_delete_ne].
        rewrite bool_decide_true by eauto. unfold fs_remove. by rewrite Ep.
      - exists (files s). split; [|done]. rewrite bool_decide_false; [by destruct s|].
        by intros []. }
    destruct (IH (set_files f1 s)) as (f2 & E2 & Hf2). exists f2.
    rewrite (st_for_cons (λ p, ex ← fs_exists p; if (ex : bool) then fs_remove p else mret tt) p l s
      (set_files f1 s) E), E2.
    split; [done|]. intros q Hq. rewrite Hf2 by set_solver. apply Hf1. set_solver.
Qed.

Lemma invalidate_one_spec id ty s :
  map_Forall (λ _ p, ∃ n, p = Temp n) (cached (decompress_cache s)) →
  ∃ f' c', invalidate_one cfg id ty s = (Ok tt, set_files f' (set_decompress_cache c' s)) ∧
    (∀ i, f' !! Desc i = files s !! Desc i) ∧ f' !! IndexFile = files s !! IndexFile ∧
    map_Forall (λ _ p, ∃ n, p = Temp n) (cached c').
Proof.
  intros Htm. unfold invalidate_one.
  pose proof (cached_remove (decompress_key cfg id ty) (decompress_cache s)) as Hc.
  destruct (cache_remove (decompress_key cfg id ty) (decompress_cache s)) as [o c'] eqn:E. simpl in Hc.
  assert (map_Forall (λ _ p, ∃ n, p = Temp n) (cached c')) as Htm'
    by (rewrite Hc; by apply map_Forall_delete).
  assert (o = cached (decompress_cache s) !! decompress_key cfg id ty) as Ho.
  { injection E as <- _. unfold cached. by rewrite lookup_fmap. }
  destruct o as [p|].
  - destruct (Htm _ p (eq_sym Ho)) as [n ->].
    exists (delete (Temp n) (files s)), c'. split_and!; [done|intros i|..|done]; by rewrite lookup_delete_ne.
  - exists (files s), c'. by split_and!.
Qed.

Lemma invalidate_spec id s :
  map_Forall (λ _ p, ∃ n, p = Temp n) (cached (decompress_cache s)) →
  ∃ f' c', invalidate cfg id s = (Ok tt, set_files f' (set_decompress_cache c' s)) ∧
    (∀ i, f' !! Desc i = files s !! Desc i) ∧ f' !! IndexFile = files s !! IndexFile ∧
    map_Forall (λ _ p, ∃ n, p = Temp n) (cached c').
Proof.
  intros Htm. unfold invalidate.
  destruct (invalidate_one_spec id FtData s Htm) as (f1 & c1 & E1 & Hf1 & Hi1 & Htm1). st_step E1.
  destruct (invalidate_one_spec id FtDescriptor (set_files f1 (set_decompress_cache c1 s)) Htm1)
    as (f2 & c2 & E2 & Hf2 & Hi2 & Htm2).
  exists f2, c2. split_and!; [exact E2| |by rewrite Hi2|done]. intros i. rewrite Hf2. apply Hf1.
Qed.

(** The map without a block, once its summary and its cached references are gone. *)
Lemma drop_block_rep D s a id f' dc' w' :
  rep D s a → Forall (λ kr, kr.1 = id) D → (∀ i, i ≠ id → f' !! Desc i = files s !! Desc i) →
  map_Forall (λ _ p, ∃ n, p = Temp n) (cached dc') →
  rep [] (set_wal w' (set_files f' (set_decompress_cache dc'
    (uncached id (set_index (index_remove_block (block_index s) id).2 s))))) (delete id a).
Proof.
  intros Hrep HD Hf Hdc. pose proof Hrep as [Hix Hdom Hent Hbl Hwr Hpe Hrd Hdi Hfr Htm Hsz].
  assert (HnD : ∀ k, k ≠ id → k ∉ D.*1).
  { intros k Hne (kr & -> & Hin)%list_elem_of_fmap. rewrite Forall_forall in HD. by apply Hne, HD. }
  assert (∀ k v, holds s a k v → k ≠ id → ∃ b, delete id a !! k = Some b ∧ blocks s !! v = Some b) as Hm.
  { intros k v (b & Hb & Hv) Hne. exists b. by rewrite lookup_delete_ne. }
  split; try done; unfold holds, on_disk, uncached; bm_simpl.
  - by apply index_remove_wf.
  - simpl. by rewrite !dom_delete_L, Hdom.
  - by apply map_Forall_delete.
  - by apply map_Forall_delete.
  - intros k v. rewrite cached_remove, lookup_delete_Some. intros [Hne Hk].
    apply Hm; [by apply Hwr|done].
  - intros k v. rewrite !cached_remove, lookup_delete_Some. intros [Hne Hk].
    destruct (Hrd k v Hk) as [Hh Hw]. split.
    + apply Hm; [done|]. by intros ->.
    + intros r'. rewrite lookup_delete_Some. intros [_ ?]. by apply Hw.
  - intros k b [Hne Hk]%lookup_delete_Some. rewrite cached_remove.
    intros [?|Hw]%lookup_delete_None Hd; [done|].
    destruct (Hdi k b Hk Hw (HnD k ltac:(congruence))) as (buf & v & e & ? & ? & ? & ?). exists buf, v, e. simpl.
    rewrite Hf by done. by rewrite lookup_delete_ne.
Qed.

Lemma remove_block_rep D s a id :
  rep D s a → Forall (λ kr, kr.1 = id) D →
  ∃ s', remove_block cfg id s = (Ok tt, s') ∧ rep [] s' (delete id a) ∧
    (wal s' = (wal_remove id (wal_append id RemoveBlock (wal s)).2).2 ∧
     block_index s' = (index_remove_block (block_index s) id).2 ∧ index_current s' ∧
     cached (write_cache s') = delete id (cached (write_cache s))) ∧
    ∀ i, i ≠ id → files s' !! Desc i = files s !! Desc i.
Proof.
  intros Hrep HD. unfold remove_block.
  set (w1 := (wal_append id RemoveBlock (wal s)).2).
  rewrite (st_bind_ok _ _ s tt (set_wal w1 s))
    by (unfold wal_do, w1, wal_append; by destruct (wal_open id (wal s))).
  destruct (remove_files_spec (all_block_file_paths id) (set_wal w1 s)) as (f1 & E1 & Hf1). st_step E1.
  set (ix1 := (index_remove_block (block_index s) id).2).
  rewrite (st_bind_ok _ _ _ tt (set_index ix1 (set_files f1 (set_wal w1 s)))) by done.
  destruct (index_save_spec (set_index ix1 (set_files f1 (set_wal w1 s)))) as (buf & E2 & Hbuf).
  { apply map_Forall_delete. apply Hrep. }
  st_step E2.
  match type of E2 with _ = (_, ?s3) => set (s4 := s3) in * end.
  rewrite (st_bind_ok _ (block_cache_remove cfg id) s4 tt (uncached id s4)) by done.
  destruct (invalidate_spec id (uncached id s4)) as (f2 & c2 & E3 & Hf2 & Hi2 & Htm2).
  { apply (rep_temps _ _ _ Hrep). }
  assert (Hf : ∀ i, i ≠ id → f2 !! Desc i = files s !! Desc i).
  { intros i Hne. rewrite Hf2. unfold s4, uncached. bm_simpl. rewrite lookup_insert_ne by done.
    rewrite Hf1; [done|]. unfold all_block_file_paths. set_solver. }
  st_step E3. eexists. split_and!; [reflexivity| |done|done| |apply cached_remove|exact Hf].
  2:{ exists buf. split; [exact Hbuf|]. bm_simpl. rewrite Hi2. unfold s4, uncached. bm_simpl.
      apply lookup_insert_eq. }
  by apply (drop_block_rep D s a id f2 c2 _ Hrep HD).
Qed.

(** ** Updating records *)

(** The records can be stored one after the other without wrapping a counter. *)
Fixpoint insertable b (l : list Rec) : Prop :=
  match l with
  | [] => True
  | rec :: l' =>
      rec_valid rec ∧ fits b rec ∧ is_Some (r_timestamp rec) ∧
      ∀ b', insert_or_update_record b rec = Ok b' → insertable b' l'
  end.

Lemma insert_records_cons b rec l b1 :
  insert_or_update_record b rec = Ok b1 → insert_records b (rec :: l) = insert_records b1 l.
Proof. intros E. unfold insert_records. simpl. by rewrite E. Qed.

Lemma insert_one_ok id b rec :
  block_ok id b → rec_valid rec → fits b rec → is_Some (r_timestamp rec) →
  ∃ b', insert_or_update_record b rec = Ok b' ∧ block_ok id b'.
Proof.
  intros (Hwf & Hid & Hv) Hrv Hfit [ts Hts].
  destruct (insert_or_update_record_spec b rec (ts_to_us ts) Hwf) as (b' & E & Hwf' & Hid' & Hix & _);
    [unfold rec_time; by rewrite Hts|done|].
  exists b'. split; [done|]. split_and!; [done|congruence|]. rewrite Hix. by apply map_Forall_insert_2.
Qed.

Lemma insert_records_ok id b l :
  block_ok id b → insertable b l → ∃ b', insert_records b l = Ok b' ∧ block_ok id b'.
Proof.
  revert b. induction l as [|rec l IH]; intros b Hok Hi.
  - by exists b.
  - destruct Hi as (Hrv & Hfit & Hts & Hrest).
    destruct (insert_one_ok id b rec Hok Hrv Hfit Hts) as (b1 & E & Hok1).
    rewrite (insert_records_cons b rec l b1 E). by apply IH, Hrest.
Qed.

Lemma append_all_spec id (f : Rec → WalEntry) l s :
  ∃ w, st_for (λ rec, wal_do (wal_append id (f rec))) l s = (Ok tt, set_wal w s).
Proof.
  revert s. induction l as [|rec l IH]; intros s.
  - exists (wal s). by destruct s.
  - set (w1 := (wal_append id (f rec) (wal s)).2). destruct (IH (set_wal w1 s)) as [w E]. exists w.
    rewrite (st_for_cons (λ rec, wal_do (wal_append id (f rec))) rec l s (set_wal w1 s)); [exact E|].
    unfold wal_do, w1, wal_append. by destruct (wal_open id (wal s)).
Qed.

Lemma decompress_block_spec s a id : rep [] s a → decompress_block cfg id s = (Ok tt, s).
Proof.
  intros Hrep. unfold decompress_block. rewrite (st_bind_ok _ _ s s s) by done.
  by rewrite (not_compressed [] s a id Hrep).
Qed.

(** Assigning through a current reference and saving the block. *)
Lemma assign_save_rep s a id r b' :
  rep [] s a → holds s a id r → sole s id r → block_ok id b' →
  ∃ s', save_block cfg r (set_blocks (<[r := b']> (blocks s)) s) = (Ok tt, s') ∧
    rep [] s' (<[id := b']> a) ∧ data_same s s'.
Proof.
  intros Hrep Hh Hs Hok.
  destruct (save_block_rep _ _ id r (assign_rep s a id r b' Hrep Hh Hs Hok) (proj2 Hs))
    as (s' & E & ? & _ & _ & _ & _ & ?).
  by exists s'.
Qed.

Lemma update_records_rep s a id b recs :
  rep [] s a → a !! id = Some b → insertable b recs →
  ∃ b' s', insert_records b recs = Ok b' ∧ update_records cfg id recs s = (Ok tt, s') ∧
    rep [] s' (<[id := b']> a).
Proof.
  intros Hrep Hb Hi. destruct (insert_records_ok id b recs (rep_blocks _ _ _ Hrep id b Hb) Hi)
    as (b' & Eb & Hok).
  unfold update_records. st_step (decompress_block_spec s a id Hrep).
  destruct (load_block_rep s a id b Hrep Hb) as (r & s1 & E1 & Hrep1 & Hh1 & Hs1 & _). st_step E1.
  destruct (append_all_spec id UpdateRecord recs s1) as [w Ew]. st_step Ew.
  assert (blocks s1 !! r = Some b) as Hr by (destruct Hh1 as (? & ? & ?); congruence).
  rewrite (st_bind_ok _ (deref r) (set_wal w s1) b (set_wal w s1))
    by (unfold deref; bm_simpl; by rewrite Hr).
  rewrite (st_bind_ok _ _ (set_wal w s1) b' (set_wal w s1)) by (unfold st_lift; by rewrite Eb).
  rewrite (st_bind_ok _ (assign r b') (set_wal w s1) tt
    (set_blocks (<[r := b']> (blocks (set_wal w s1))) (set_wal w s1))) by done.
  destruct (assign_save_rep (set_wal w s1) a id r b' (rep_set_wal _ _ _ w Hrep1) Hh1 Hs1 Hok)
    as (s2 & E2 & Hrep2 & _).
  exists b', s2. by split_and!.
Qed.

(** ** Finishing a record *)

Lemma writable_ref_rep s a id b :
  rep [] s a → a !! id = Some b →
  ∃ r s', writable_ref cfg id s = (Ok r, s') ∧ rep [] s' a ∧ blocks s' !! r = Some b ∧ sole s' id r ∧
    files s' = files s ∧ wal s' = wal s ∧ block_index s' = block_index s.
Proof.
  intros Hrep Hb. unfold writable_ref. destruct (get_write_spec id s) as (s1 & E & He). st_step E.
  pose proof (rep_equiv _ _ _ _ He Hrep) as Hrep1.
  destruct (cached (write_cache s) !! id) as [r|] eqn:Ew.
  - assert (cached (write_cache s1) !! id = Some r) as Ew1 by by rewrite (eq_write _ _ He).
    destruct (rep_write _ _ _ Hrep1 id r Ew1) as (b0 & Hb0 & Hr).
    assert (b0 = b) as -> by congruence.
    destruct (rep_blocks _ _ _ Hrep1 id b Hb) as (_ & Hid & _).
    rewrite (st_bind_ok _ _ s1 b s1) by (unfold deref; by rewrite Hr). rewrite decide_True by done.
    exists r, s1. split_and!; try done; [|apply He..]. split; [congruence|].
    intros r' Hr'. symmetry. by apply (rep_read _ _ _ Hrep1 id r' Hr').
  - destruct (load_block_rep s1 a id b Hrep1 Hb) as (r & s2 & E2 & Hrep2 & (b0 & ? & ?) & Hs2 & Hf2 & ? & ?).
    exists r, s2. destruct He. split_and!; try done; congruence.
Qed.

Lemma change_state_ok id b t st rec :
  block_ok id b → get_record b t = Some rec →
  ∃ b', change_record_state b t (state_i32 st) = Ok b' ∧ block_ok id b' ∧
    get_record b' t = Some (with_state (state_i32 st) rec).
Proof.
  intros (Hwf & Hid & Hv) Hrec.
  destruct (change_record_state_spec b t (state_i32 st) rec Hwf Hrec)
    as (b' & Eb & Hwf' & Hid' & Hix & _).
  exists b'. split_and!; [done| |unfold get_record; by rewrite Hix, lookup_insert_eq].
  split_and!; [done|congruence|]. rewrite Hix. apply map_Forall_insert_2; [|done].
  destruct (Hv t rec Hrec) as (? & ? & ? & ? & ? & ?). split_and!; try done; by destruct st.
Qed.

Lemma finish_write_record_rep s a id b st t rec :
  rep [] s a → a !! id = Some b → get_record b t = Some rec →
  ∃ b' s', change_record_state b t (state_i32 st) = Ok b' ∧
    finish_write_record cfg id st t s = (Ok tt, s') ∧ rep [] s' (<[id := b']> a) ∧ data_same s s'.
Proof.
  intros Hrep Hb Hrec.
  destruct (change_state_ok id b t st rec (rep_blocks _ _ _ Hrep id b Hb) Hrec) as (b' & Eb & Hok & Hg).
  destruct (writable_ref_rep s a id b Hrep Hb) as (r & s1 & E1 & Hrep1 & Hr & Hs1 & Hf1 & _).
  exists b'. unfold finish_write_record. st_step E1.
  rewrite (st_bind_ok _ (deref r) s1 b s1) by (unfold deref; by rewrite Hr).
  rewrite (st_bind_ok _ _ s1 b' s1) by (unfold st_lift; by rewrite Eb).
  set (s2 := set_blocks (<[r := b']> (blocks s1)) s1).
  rewrite (st_bind_ok _ (assign r b') s1 tt s2) by done.
  rewrite (st_bind_ok _ _ s2 (with_state (state_i32 st) rec) s2) by (unfold st_lift; by rewrite Hg).
  set (w := (wal_append id (WriteRecord (with_state (state_i32 st) rec)) (wal s2)).2).
  rewrite (st_bind_ok _ _ s2 tt (set_wal w s2))
    by (unfold wal_do, w, wal_append; by destruct (wal_open id (wal s2))).
  destruct (assign_save_rep (set_wal w s1) a id r b' (rep_set_wal _ _ _ w Hrep1)) as (s3 & E3 & Hrep3 & Hd3).
  - by exists b.
  - done.
  - done.
  - exists s3. split_and!; try done. transitivity s1; [by apply data_same_files|done].
Qed.

Lemma finish_write_missing s a id b st t :
  rep [] s a → a !! id = Some b → get_record b t = None →
  ∃ s', finish_write_record cfg id st t s = (Err NotFound, s') ∧ rep [] s' a.
Proof.
  intros Hrep Hb Hrec. destruct (writable_ref_rep s a id b Hrep Hb) as (r & s1 & E1 & Hrep1 & Hr & Hs1 & Hf1 & _).
  unfold finish_write_record. st_step E1.
  rewrite (st_bind_ok _ (deref r) s1 b s1) by (unfold deref; by rewrite Hr).
  exists s1. split; [|done]. apply st_bind_err. unfold st_lift, change_record_state.
  unfold get_record in Hrec. by rewrite Hrec.
Qed.

(** A block that is not in the map: loading it for an update or a finish fails. *)
Lemma unknown_update s a id recs :
  rep [] s a → a !! id = None →
  ∃ s', update_records cfg id recs s = (Err InternalServerError, s') ∧ rep [] s' a.
Proof.
  intros Hrep Hn. unfold update_records. st_step (decompress_block_spec s a id Hrep).
  destruct (load_block_unknown s a id Hrep Hn) as (s1 & E & Hrep1 & _).
  exists s1. by rewrite (st_bind_err _ _ _ _ _ E).
Qed.

Lemma unknown_finish s a id st t :
  rep [] s a → a !! id = None →
  ∃ s', finish_write_record cfg id st t s = (Err InternalServerError, s') ∧ rep [] s' a.
Proof.
  intros Hrep Hn. unfold finish_write_record, writable_ref.
  destruct (get_write_spec id s) as (s0 & E0 & He).
  pose proof (rep_equiv _ _ _ _ He Hrep) as Hrep0.
  destruct (load_block_unknown s0 a id Hrep0 Hn) as (s1 & E & Hrep1 & _).
  exists s1. split; [|done]. apply st_bind_err. rewrite (st_bind_ok _ _ _ _ _ E0).
  destruct (cached (write_cache s) !! id) as [r|] eqn:Ew; [|done].
  destruct (rep_write _ _ _ Hrep id r Ew) as (b & ? & _). congruence.
Qed.

(** Flushing the write cache. *)
Lemma save_refs_rep s a l :
  rep [] s a → Forall (λ r, ∃ id, holds s a id r) l →
  ∃ s', st_for (λ r, _ ← deref r; save_meta_on_disk cfg r) l s = (Ok tt, s') ∧ rep [] s' a ∧
    (∀ i b, a !! i = Some b → on_disk s i b ∨ (∃ r, r ∈ l ∧ holds s a i r) → on_disk s' i b) ∧
    (l = [] ∨ index_current s').
Proof.
  revert s. induction l as [|r l IH]; intros s Hrep Hl.
  { exists s. split_and!; try done; [|by left]. intros i b Hb [?|(r & Hr & _)]; [done|].
    by apply not_elem_of_nil in Hr. }
  apply Forall_cons in Hl as [[id Hh] Hl].
  destruct (save_meta_rep [] s a id r Hrep Hh) as (s1 & E & Hrep1 & [Hd1 Hc1] & Hb1 & _).
  assert (∀ i r', holds s a i r' → holds s1 a i r') as Hsame
    by (intros i r'; unfold holds; by rewrite Hb1).
  destruct (IH s1 Hrep1) as (s2 & E2 & Hrep2 & Hd2 & Hc2).
  { eapply Forall_impl; [exact Hl|]. intros r' [id' Hh']. exists id'. by apply Hsame. }
  exists s2. split_and!; [|done| |].
  - rewrite (st_for_cons (λ r, _ ← deref r; save_meta_on_disk cfg r) r l s s1); [exact E2|].
    destruct Hh as (b & _ & Hr). by rewrite (st_bind_ok _ (deref r) s b s) by (unfold deref; by rewrite Hr).
  - intros i b Hb Hor. apply Hd2; [done|]. destruct Hor as [?|(r' & Hr' & Hh')].
    + left. apply Hd1. by case_decide.
    + apply elem_of_cons in Hr' as [->|Hr']; [|right; eauto].
      left. apply Hd1. rewrite decide_True; [done|]. exact (holds_inj [] s a i id r Hrep Hh' Hh).
  - right. destruct Hc2 as [->|?]; [|done]. simpl in E2. by injection E2 as <-.
Qed.

Lemma write_values_spec s :
  ∃ l s1, write_values s = (Ok l, s1) ∧ bm_equiv s s1 ∧
    ∀ r, r ∈ l ↔ ∃ i, cached (write_cache s) !! i = Some r.
Proof.
  exists (cache_values (clock (ticks s)) (write_cache s)).1.
  eexists. split; [reflexivity|]. split.
  - split; try done. unfold cached; simpl. rewrite <-map_fmap_compose. apply map_fmap_ext. done.
  - intros r. simpl. rewrite list_elem_of_fmap. unfold cached. split.
    + intros ([i e] & -> & Hi%elem_of_hash_iter). exists i. by rewrite lookup_fmap, Hi.
    + intros [i Hr]. rewrite lookup_fmap in Hr. apply fmap_Some in Hr as (e & Hi & ->).
      exists (i, e). split; [done|]. by apply elem_of_hash_iter.
Qed.

Lemma save_cache_rep s a :
  rep [] s a → ∃ s', save_cache_on_disk cfg s = (Ok tt, s') ∧ rep [] s' a ∧
    (∀ i b, a !! i = Some b → on_disk s' i b) ∧
    (cached (write_cache s) = ∅ ∨ index_current s').
Proof.
  intros Hrep. unfold save_cache_on_disk.
  destruct (write_values_spec s) as (l & s1 & E1 & He & Hl). st_step E1.
  pose proof (rep_equiv _ _ _ _ He Hrep) as Hrep1.
  assert (∀ i r, cached (write_cache s) !! i = Some r → holds s1 a i r) as Hw
    by (intros i r Hr; apply (rep_write _ _ _ Hrep1); by rewrite (eq_write _ _ He)).
  destruct (save_refs_rep s1 a l Hrep1) as (s2 & E & Hrep2 & Hd2 & Hc2).
  { apply Forall_forall. intros r [i Hr]%Hl. exists i. by apply Hw. }
  exists s2. split_and!; [done|done| |].
  - intros i b Hb. apply Hd2; [done|].
    destruct (cached (write_cache s) !! i) as [r|] eqn:Ew; [right; exists r; split; [apply Hl; eauto|auto]|].
    left. apply (rep_disk _ _ _ Hrep1); [done| |apply not_elem_of_nil]. by rewrite (eq_write _ _ He).
  - destruct Hc2 as [->|?]; [left|by right]. apply map_empty. intros i.
    destruct (cached (write_cache s) !! i) as [r|] eqn:Ew; [|done].
    destruct (not_elem_of_nil r). apply Hl. by exists i.
Qed.

(** Finishing a block truncates its data file and saves it. *)
Lemma finish_block_rep D s a id r :
  rep D s a → holds s a id r →
  ∃ s', finish_block cfg r s = (Ok tt, s') ∧ rep (filter (λ kr, kr.1 ≠ id) D) s' a ∧
    read_cache s' = read_cache s ∧ wal_files (wal s') = delete id (wal_files (wal s)) ∧
    is_Some (files s' !! Desc id) ∧ ∀ i, i ≠ id → files s' !! Desc i = files s !! Desc i.
Proof.
  intros Hrep Hh. pose proof Hh as (b & Hb & Hr). unfold finish_block.
  rewrite (st_bind_ok _ (deref r) s b s) by (unfold deref; by rewrite Hr).
  set (f' := <[Data (block_id b) := set_len (Z.to_nat (size b)) (default [] (files s !! Data (block_id b)))]>
               (files s)).
  rewrite (st_bind_ok _ _ s tt (set_files f' s)) by done.
  destruct (rep_blocks _ _ _ Hrep id b Hb) as (Hwf & Hid & _).
  destruct (save_meta_rep D (set_files f' s) a id r) as (s' & E & Hrep' & _ & _ & _ & Hrc & _).
  - apply rep_set_files; [|done]. intros i. by apply lookup_insert_ne.
  - by exists b.
  - exists s'. split_and!; [done..| | |];
      (destruct (save_meta_spec (set_files f' s) r b Hr Hwf (rep_entries _ _ _ Hrep)) as (ixbuf & _ & E');
       rewrite E in E'; injection E' as ->; bm_simpl; rewrite ?Hid).
    + done.
    + rewrite lookup_insert_ne, lookup_insert_eq by done. by eexists.
    + intros i Hne. rewrite !lookup_insert_ne by congruence. unfold f'. by rewrite lookup_insert_ne.
Qed.

(** The healthy blocks are those of the map. *)
Lemma active_tree_rep D s a : rep D s a → active_tree (block_index s) = dom a.
Proof.
  intros Hrep. rewrite <-(rep_dom _ _ _ Hrep). apply set_eq. intros i.
  rewrite elem_of_active_tree, (ix_dom _ (rep_index _ _ _ Hrep)). split; [by intros []|].
  intros Hi. split; [done|]. apply elem_of_dom in Hi as [e He]. unfold is_corrupted. rewrite He.
  destruct (rep_entries _ _ _ Hrep i e He) as (_ & _ & -> & _). done.
Qed.

(** ** Simulation *)

(** The requests an entry makes of its block manager.  [OpLoad] returns the
    block behind the reference. *)
Inductive bm_op :=
| OpStart (id max : Z)
| OpLoad (id : Z)
| OpUpdate (id : Z) (recs : list Rec)
| OpFinish (id : Z) (st : RecordState) (t : Z)
| OpRemove (id : Z)
| OpFlush.

Definition bm_run (o : bm_op) : ST BM (option Block) :=
  match o with
  | OpStart id max => _ ← start_new_block cfg id max; mret None
  | OpLoad id => r ← load_block cfg id; b ← deref r; mret (Some b)
  | OpUpdate id recs => _ ← update_records cfg id recs; mret None
  | OpFinish id st t => _ ← finish_write_record cfg id st t; mret None
  | OpRemove id => _ ← remove_block cfg id; mret None
  | OpFlush => _ ← save_cache_on_disk cfg; mret None
  end.

(** The specification: a map of blocks, no caches and no files. *)
Definition map_update a id (o : outcome Block) : outcome (option Block) * gmap Z Block :=
  match o with
  | Ok b' => (Ok None, <[id := b']> a)
  | Err e => (Err e, a)
  | Panic => (Panic, a)
  end.

Definition bm_spec (o : bm_op) a : outcome (option Block) * gmap Z Block :=
  match o with
  | OpStart id _ => (Ok None, <[id := block_new id]> a)
  | OpLoad id => (Some <$> ok_or InternalServerError (a !! id), a)
  | OpUpdate id recs =>
      match a !! id with
      | Some b => map_update a id (insert_records b recs)
      | None => (Err InternalServerError, a)
      end
  | OpFinish id st t =>
      match a !! id with
      | Some b => map_update a id (change_record_state b t (state_i32 st))
      | None => (Err InternalServerError, a)
      end
  | OpRemove id => (Ok None, delete id a)
  | OpFlush => (Ok None, a)
  end.

(** A block is started under an id that is not in use; records fit their block. *)
Definition op_ok (o : bm_op) a : Prop :=
  match o with
  | OpStart id _ => a !! id = None ∧ is_u64 id
  | OpUpdate id recs => ∀ b, a !! id = Some b → insertable b recs
  | _ => True
  end.

Lemma bm_run_sim o s a :
  rep [] s a → op_ok o a →
  (bm_run o s).1 = (bm_spec o a).1 ∧ rep [] (bm_run o s).2 (bm_spec o a).2.
Proof.
  intros Hrep Hok. destruct o as [id max|id|id recs|id st t|id|]; simpl in *.
  - destruct Hok as [Hn Hid]. destruct (start_new_block_rep s a id max Hrep) as (r & s' & E & ? & _);
      [congruence|by eapply rep_read_new|done|].
    by st_step E.
  - destruct (a !! id) as [b|] eqn:Hb.
    + destruct (load_block_rep s a id b Hrep Hb) as (r & s' & E & ? & (b0 & ? & Hr) & _). st_step E.
      assert (b0 = b) as -> by congruence.
      by rewrite (st_bind_ok _ (deref r) s' b s') by (unfold deref; by rewrite Hr).
    + destruct (load_block_unknown s a id Hrep Hb) as (s' & E & ? & _).
      by rewrite (st_bind_err _ _ _ _ _ E).
  - destruct (a !! id) as [b|] eqn:Hb.
    + destruct (update_records_rep s a id b recs Hrep Hb (Hok b eq_refl)) as (b' & s' & Eb & E & ?).
      st_step E. by rewrite Eb.
    + destruct (unknown_update s a id recs Hrep Hb) as (s' & E & ?). by rewrite (st_bind_err _ _ _ _ _ E).
  - destruct (a !! id) as [b|] eqn:Hb.
    + destruct (get_record b t) as [rec|] eqn:Hrec.
      * destruct (finish_write_record_rep s a id b st t rec Hrep Hb Hrec) as (b' & s' & Eb & E & ? & _).
        st_step E. by rewrite Eb.
      * destruct (finish_write_missing s a id b st t Hrep Hb Hrec) as (s' & E & ?).
        rewrite (st_bind_err _ _ _ _ _ E). unfold change_record_state.
        unfold get_record in Hrec. by rewrite Hrec.
    + destruct (unknown_finish s a id st t Hrep Hb) as (s' & E & ?). by rewrite (st_bind_err _ _ _ _ _ E).
  - destruct (remove_block_rep [] s a id Hrep) as (s' & E & ? & _); [done|]. by st_step E.
  - destruct (save_cache_rep s a Hrep) as (s' & E & ? & _). by st_step E.
Qed.

(** Requests one after the other, with their answers. *)
Fixpoint run_all (ops : list bm_op) s : list (outcome (option Block)) * BM :=
  match ops with
  | [] => ([], s)
  | o :: ops' => let '(x, s1) := bm_run o s in let '(xs, s2) := run_all ops' s1 in (x :: xs, s2)
  end.
Fixpoint spec_all (ops : list bm_op) a : list (outcome (option Block)) * gmap Z Block :=
  match ops with
  | [] => ([], a)
  | o :: ops' => let '(x, a1) := bm_spec o a in let '(xs, a2) := spec_all ops' a1 in (x :: xs, a2)
  end.
Fixpoint ops_ok (ops : list bm_op) a : Prop :=
  match ops with
  | [] => True
  | o :: ops' => op_ok o a ∧ ops_ok ops' (bm_spec o a).2
  end.

Lemma run_all_sim ops s a :
  rep [] s a → ops_ok ops a →
  (run_all ops s).1 = (spec_all ops a).1 ∧ rep [] (run_all ops s).2 (spec_all ops a).2.
Proof.
  revert s a. induction ops as [|o ops IH]; intros s a Hrep Hok; [done|].
  destruct Hok as [Ho Hops]. destruct (bm_run_sim o s a Hrep Ho) as [H1' H2']. simpl.
  destruct (bm_run o s) as [x s1]. destruct (bm_spec o a) as [y a1]. simpl in *. subst y.
  destruct (IH s1 a1 H2' Hops) as [H3' H4'].
  destruct (run_all ops s1) as [xs s2]. destruct (spec_all ops a1) as [ys a2]. simpl in *.
  by subst ys.
Qed.

(** A read cache that has nothing of this entry. *)
Definition foreign (rc : Cache string Z) : Prop :=
  0 ≤ cache_size rc ∧ ∀ id, cached rc !! read_key cfg id = None.

Lemma rep_init fs rc cells fresh wal_fs :
  foreign rc → (∀ r, fresh ≤ r → cells !! r = None) →
  rep [] (bm_build fs index_new wal_fs rc cells fresh) ∅.
Proof.
  intros [Hsz Hrc] Hfr. split; unfold bm_build; bm_simpl; try done.
  intros id r Hr. by rewrite Hrc in Hr.
Qed.

(** C1: The block manager implements a map of blocks.  A manager of a primary built
    on an empty index, whatever else the shared read cache holds and whatever the
    caches evict (by size, by age, in any hash order), answers every sequence of
    requests exactly as a plain map from ids to blocks would: starting a block under
    an unused id, loading, updating records, finishing a record, removing a block and
    flushing.  In particular no update is lost when a block leaves the write cache,
    and a block read back from its descriptor is the block that was written.  Loading,
    updating or finishing in a block that is not there fails, and so does finishing a
    record that is not there, without changing the map; removing a block that is not
    there succeeds, and an update inserts records that were not in the block.  The
    records of an update are well formed and fit the widths of the counters; blocks
    are not compressed or marked as corrupted by these requests. *)
Theorem block_manager_refines_map
    (ops : list bm_op) (fs : gmap path (list Z)) (wal_fs : gmap Z (list Z))
    (rc : Cache string Z) (cells : gmap Z Block) (fresh : Z) :
  foreign rc → (∀ r, fresh ≤ r → cells !! r = None) → ops_ok ops ∅ →
  (run_all ops (bm_build fs index_new wal_fs rc cells fresh)).1 = (spec_all ops ∅).1.
Proof.
  intros Hrc Hfr Hok. apply run_all_sim; [by apply rep_init|done].
Qed.

(** ** Restart *)

Lemma restart_rep s a wal_fs rc cells fresh :
  rep [] s a → (∀ i b, a !! i = Some b → on_disk s i b) → foreign rc →
  (∀ r, fresh ≤ r → cells !! r = None) →
  rep [] (bm_build (files s) (block_index s) wal_fs rc cells fresh) a.
Proof.
  intros [Hix Hdom Hent Hbl Hwr Hpe Hrd Hdi Hfr Htm Hsz] Hdisk [Hs Hrc] Hcells.
  split; unfold bm_build; bm_simpl; try done.
  - intros id r Hr. by rewrite Hrc in Hr.
  - intros id b Hb _ _. by apply Hdisk.
Qed.

Lemma index_current_load s a dir :
  rep [] s a → index_current s → ".meta" ∉ dir → ".meta.zst" ∉ dir →
  try_load (files s !! IndexFile) dir = Ok (block_index s).
Proof.
  intros Hrep (buf & Hsave & Hf) Hd1 Hd2. rewrite Hf.
  destruct (save_load (block_index s) (hash_iter (index_info (block_index s))).*2 dir)
    as (buf' & Hsave' & Hload); try done.
  - apply Hrep.
  - by rewrite hash_iter_perm.
  - intros id e He. destruct (rep_entries _ _ _ Hrep id e He) as (? & _ & _ & ?). done.
  - by rewrite Hsave in Hsave'; injection Hsave' as <-.
Qed.

(** C2: What is flushed survives a restart.  After any sequence of requests to the manager of
    a primary, whose blocks are neither compressed nor marked as corrupted, that leaves
    something in the write cache, flush the cache, lose everything in
    memory, load the index file and build a new manager on the files: every
    block is loaded back exactly as it was before the restart, and blocks that
    did not exist are still unknown. *)
Theorem flush_then_restart
    (ops : list bm_op) (fs : gmap path (list Z)) (wal_fs wal_fs' : gmap Z (list Z))
    (rc rc' : Cache string Z) (cells cells' : gmap Z Block) (fresh fresh' : Z) (dir : list string) :
  foreign rc → (∀ r, fresh ≤ r → cells !! r = None) →
  foreign rc' → (∀ r, fresh' ≤ r → cells' !! r = None) →
  ops_ok ops ∅ → ".meta" ∉ dir → ".meta.zst" ∉ dir →
  let s := (run_all ops (bm_build fs index_new wal_fs rc cells fresh)).2 in
  let a := (spec_all ops ∅).2 in
  let s' := (save_cache_on_disk cfg s).2 in
  cached (write_cache s) ≠ ∅ →
  ∃ ix, try_load (files s' !! IndexFile) dir = Ok ix ∧
    ∀ id, (bm_run (OpLoad id) (bm_build (files s') ix wal_fs' rc' cells' fresh')).1
          = Some <$> ok_or InternalServerError (a !! id).
Proof.
  intros Hrc Hcells Hrc' Hcells' Hok Hd1 Hd2 s a s' Hne.
  destruct (run_all_sim ops _ ∅ (rep_init fs rc cells fresh wal_fs Hrc Hcells) Hok) as [_ Hrep].
  fold s a in Hrep. destruct (save_cache_rep s a Hrep) as (s1 & E & Hrep1 & Hdisk & [?|Hcur]); [done|].
  unfold s'. rewrite E. cbn [snd]. exists (block_index s1). split; [by eapply index_current_load|].
  intros id. pose proof (restart_rep s1 a wal_fs' rc' cells' fresh' Hrep1 Hdisk Hrc' Hcells') as Hrep2.
  by destruct (bm_run_sim (OpLoad id) _ a Hrep2 I) as [-> _].
Qed.

(** ** Lookup *)

Lemma find_block_id_spec (ix : BlockIndex) (start : Z) :
  match find_block_id start ix with
  | Ok id => id ∈ active_tree ix ∧ id ≤ start ∧ ∀ i, i ∈ active_tree ix → i ≤ start → i ≤ id
  | Err e => e = NotFound ∧ ∀ i, i ∈ active_tree ix → start < i
  | Panic => False
  end.
Proof.
  unfold find_block_id.
  set (tree := active_tree ix).
  assert (match (match bt_last (filter (λ i, i < start) tree) with
                 | Some id => Ok id | None => Err NotFound end) with
          | Ok id => id ∈ tree ∧ id < start ∧ ∀ i, i ∈ tree → i < start → i ≤ id
          | Err e => e = NotFound ∧ ∀ i, i ∈ tree → start ≤ i
          | Panic => False
          end) as Hbelow.
  { destruct (bt_last (filter (λ i, i < start) tree)) as [id|] eqn:E.
    - apply bt_last_spec in E as [[Hlt Hin]%elem_of_filter Hmax]. split_and!; [done|done|].
      intros i Hi Hlt'. apply Hmax. by apply elem_of_filter.
    - split; [done|]. intros i Hi. destruct (decide (i < start)); [|lia].
      destruct (bt_last_is_Some (filter (λ i, i < start) tree)) as [x Hx]; [|congruence].
      intros Hemp. apply (not_elem_of_empty (C := gset Z) i). rewrite <-Hemp. by apply elem_of_filter. }
  destruct (bt_first (filter (λ i, start ≤ i) tree)) as [id|] eqn:E.
  - apply bt_first_spec in E as [[Hle Hin]%elem_of_filter Hmin].
    destruct (decide (start >= id)) as [Hge|Hlt].
    + split_and!; [done|lia|]. intros; lia.
    + assert (∀ i, i ∈ tree → start ≤ i → start < i) as Habove.
      { intros i Hi Hs. enough (id ≤ i) by lia. apply Hmin. by apply elem_of_filter. }
      destruct (bt_last _) as [x|].
      * destruct Hbelow as (? & ? & Hm). split_and!; [done|lia|]. intros i Hi Hs.
        destruct (decide (i < start)); [by apply Hm|]. specialize (Habove i Hi). lia.
      * destruct Hbelow as [? Hm]. split; [done|]. intros i Hi. by apply Habove, Hm.
  - assert (∀ i, i ∈ tree → i < start) as Hall.
    { intros i Hi. destruct (decide (start ≤ i)); [|lia].
      destruct (bt_first_is_Some (filter (λ i, start ≤ i) tree)) as [x Hx]; [|congruence].
      intros Hemp. apply (not_elem_of_empty (C := gset Z) i). rewrite <-Hemp. by apply elem_of_filter. }
    destruct (bt_last _) as [x|].
    + destruct Hbelow as (? & ? & Hm). split_and!; [done|lia|]. intros i Hi Hs. by apply Hm, Hall.
    + destruct Hbelow as [? Hm]. split; [done|]. intros i Hi. specialize (Hall i Hi). specialize (Hm i Hi). lia.
Qed.

Lemma find_block_id_greatest (ix : BlockIndex) (start : Z) :
  find_block_id start ix = ok_or NotFound (bt_last (filter (λ i, i ≤ start) (active_tree ix))).
Proof.
  pose proof (find_block_id_spec ix start) as Hs. destruct (find_block_id start ix) as [id|e|]; [| |done].
  - destruct Hs as (Hin & Hle & Hmax). rewrite (bt_last_unique _ id); [done| |].
    + by apply elem_of_filter.
    + intros y [? ?]%elem_of_filter. by apply Hmax.
  - destruct Hs as [-> Hall]. destruct (bt_last _) as [x|] eqn:E; [|done].
    apply bt_last_spec in E as [[? Hin]%elem_of_filter _]. specialize (Hall x Hin). lia.
Qed.

(** [find_block_id] returns the block whose span contains the timestamp: the
    greatest id of a healthy block that is not above it; it fails with
    [NotFound] exactly when every healthy block starts later. *)
Theorem find_block_id_correct (ix : BlockIndex) (start : Z) :
  match find_block_id start ix with
  | Ok id => id ∈ active_tree ix ∧ id ≤ start ∧ ∀ i, i ∈ active_tree ix → i ≤ start → i ≤ id
  | Err e => e = NotFound ∧ ∀ i, i ∈ active_tree ix → start < i
  | Panic => False
  end.
Proof. apply find_block_id_spec. Qed.
End Refine.

(** ** Witnesses *)
Section Witnesses.
Existing Instance std_order.
Existing Instance std_order_laws.
Existing Instance Toy.prost.
Existing Instance Toy.prost_laws.
Existing Instance Toy.digest.
Existing Instance Toy.digest_laws.

Definition demo_zstd : Zstd := {| zstd_decode := λ l, Some l |}.
Definition demo_clock : Clock := λ n, Z.of_nat n * 10.
Existing Instance demo_zstd.
Existing Instance demo_clock.

Definition demo_cfg : Cfg := mkCfg false true "/data/bucket/entry".
Definition demo_rc : Cache string Z := cache_new READ_BLOCK_CACHE_SIZE CACHE_TTL.

Lemma demo_rc_foreign : foreign demo_cfg demo_rc.
Proof. split; [by vm_compute|done]. Qed.

Definition demo_requests : list bm_op :=
  [OpStart 100 16; OpUpdate 100 [rec_at 100 0 7]; OpStart 200 16; OpStart 300 16; OpRemove 200;
   OpLoad 100; OpLoad 200; OpFinish 100 Errored 5].

Lemma demo_rec_valid : rec_valid (rec_at 100 0 7).
Proof.
  split_and!; cbn [rec_at r_timestamp r_begin r_end r_state state_i32]; try u64_lia; try reflexivity.
  - intros ts [= <-]. apply us_to_ts_valid. u64_lia.
  - by repeat constructor.
Qed.

Lemma demo_requests_ok : ops_ok demo_requests ∅.
Proof.
  cbn [demo_requests ops_ok op_ok bm_spec snd]. split_and!;
    try match goal with
        | |- True => exact I | |- is_u64 _ => u64_lia | |- _ = None => vm_compute; reflexivity
        end.
  intros b Hb. vm_compute in Hb. injection Hb as <-. cbn [insertable]. split_and!.
  - exact demo_rec_valid.
  - unfold fits. cbn [rec_at r_begin r_end size record_count]. u64_lia.
  - by eexists.
  - done.
Qed.

Lemma block_manager_refines_map_witness :
  ops_ok demo_requests ∅ ∧
  (run_all demo_cfg demo_requests (bm_build ∅ index_new ∅ demo_rc ∅ 0)).1 =
    (spec_all demo_requests ∅).1.
Proof.
  split; [exact demo_requests_ok|].
  apply (block_manager_refines_map demo_cfg eq_refl demo_requests); [exact demo_rc_foreign|done|].
  exact demo_requests_ok.
Defined.

Definition demo_starts : list bm_op := [OpStart 100 16; OpStart 300 16].

Lemma demo_starts_ok : ops_ok demo_starts ∅.
Proof. repeat split; vm_compute; congruence. Qed.

Lemma flush_then_restart_witness :
  let s := (run_all demo_cfg demo_starts (bm_build ∅ index_new ∅ demo_rc ∅ 0)).2 in
  let s' := (save_cache_on_disk demo_cfg s).2 in
  ∃ ix, try_load (files s' !! IndexFile) ["100.meta"; "100.blk"] = Ok ix ∧
    (bm_run demo_cfg (OpLoad 300) (bm_build (files s') ix ∅ demo_rc ∅ 0)).1 = Ok (Some (block_new 300)).
Proof.
  destruct (flush_then_restart demo_cfg eq_refl demo_starts ∅ ∅ ∅ demo_rc demo_rc ∅ ∅ 0 0
    ["100.meta"; "100.blk"] demo_rc_foreign ltac:(done) demo_rc_foreign ltac:(done) demo_starts_ok
    ltac:(set_solver) ltac:(set_solver)) as (ix & Hload & Hids).
  - vm_compute. intros Heq. discriminate Heq.
  - exists ix. split; [exact Hload|]. rewrite (Hids 300). vm_compute. reflexivity.
Defined.
End Witnesses.
