(* ===== verification/Entry.v ===== *)
(** * Entry operations (storage/entry.rs, storage/entry/*.rs)

    Writing, reading, updating and removing records of an entry on top of the
    block manager.  Each operation is modelled as one task running alone: the
    locks it takes and releases do not appear.  Admission (the deleting flag, the
    in-flight limiter, the validation of labels of system entries), the usage
    counters and the channels between tasks are left out; a record's content
    arrives as the list of the chunks sent. *)

From stdpp Require Import prelude gmap strings sorting fin_map_dom pretty.
From Stdlib Require Import ZArith Lia.
From S2P Require Import Prelude Bytes Collections Proto Block BlockIndex Wal Cache BlockManager.
Open Scope Z_scope.

(** [EntrySettings]. *)
Record EntrySettings := mkEntrySettings { max_block_size : Z; max_block_records : Z }.

(** [WriteContext]: where the content of the record goes. *)
Record WriteContext := mkWriteContext {
  ctx_block_id : Z;
  ctx_timestamp : Z;
  ctx_file : path;
  ctx_offset : Z;
  ctx_content_size : Z
}.

(** [WriteChunk = Result<Option<Bytes>, ReductError>]. *)
Inductive WriteChunk := ChunkData (bytes : list Z) | ChunkStop | ChunkErr (e : ErrorCode).

(** [RecordReader]. *)
Record RecordReader := mkReader {
  rd_file : option path;
  rd_offset : Z;
  rd_content_size : Z;
  rd_pos : Z
}.

Section Entry.
Context `{HashIter} `{Prost} `{Crc64} `{Zstd} `{Clock} (cfg : Cfg).

(** ** Writing (write_record.rs, io/record_writer.rs) *)

(** [labels.into_iter().map(|(name, value)| Label { name, value }).collect()]. *)
Definition labels_to_proto (labels : gmap string string) : list Label :=
  (λ kv, mkLabel kv.1 kv.2) <$> hash_iter labels.

(** [Entry::prepare_block_for_writing]. *)
Definition prepare_block_for_writing (r time content_size : Z) (content_type : string)
    (labels : gmap string string) : ST BM () :=
  b ← deref r;
  let rec := mkRec (Some (us_to_ts time)) (size b) (u64_add (size b) content_size)
               (state_i32 Started) (labels_to_proto labels) content_type in
  b' ← st_lift (insert_or_update_record b rec);
  assign r b'.

(** [RecordWriter::try_new]. *)
Definition writer_try_new (r time : Z) : ST BM WriteContext :=
  b ← deref r;
  _ ← index_put b;
  fo ← st_lift (begin_write_record b time);
  _ ← save_block cfg r;
  b ← deref r;
  rec ← st_lift (unwrap (get_record b time));
  mret (mkWriteContext (block_id b) time fo.1 fo.2 (rec_len rec)).

(** The block a record of timestamp [time] is meant for, and whether an errored
    record is overwritten in it: the part of [begin_write] before the space
    check. *)
Inductive write_target := WriteTo (r : Z) | Overwrite (r : Z) (rec : Rec).

Definition choose_block (st : EntrySettings) (time content_size : Z) : ST BM write_target :=
  s ← st_get;
  r ← (match bt_last (active_tree (block_index s)) with
       | None => start_new_block cfg time (max_block_size st)
       | Some id => _ ← decompress_block cfg id; load_block cfg id
       end);
  b ← deref r;
  if decide (record_count b > 0 ∧ latest_record_time b >= time) then
    s ← st_get;
    first ← st_lift (unwrap (bt_first (active_tree (block_index s))));
    if decide (first > time) then
      r' ← start_new_block cfg time (max_block_size st); mret (WriteTo r')
    else
      r' ← find_block cfg time;
      b' ← deref r';
      _ ← decompress_block cfg (block_id b');
      match get_record b' time with
      | Some rec =>
          if decide (r_state rec ≠ state_i32 Errored ∨ rec_len rec ≠ content_size)
          then st_throw Conflict
          else mret (Overwrite r' rec)
      | None => mret (WriteTo r')
      end
  else mret (WriteTo r).

(** [Entry::begin_write]. *)
Definition begin_write (st : EntrySettings) (time content_size : Z) (content_type : string)
    (labels : gmap string string) : ST BM WriteContext :=
  target ← choose_block st time content_size;
  match target with
  | Overwrite r rec =>
      b ← deref r;
      b' ← st_lift (insert_or_update_record b
             (mkRec (r_timestamp rec) (r_begin rec) (r_end rec) (state_i32 Started)
                (labels_to_proto labels) content_type));
      _ ← assign r b';
      writer_try_new r time
  | WriteTo r =>
      b ← deref r;
      r' ← (if decide (u64_add (size b) content_size > max_block_size st ∨
                       u64_add (record_count b) 1 > max_block_records st)
            then _ ← finish_block cfg r; start_new_block cfg time (max_block_size st)
            else mret r);
      _ ← prepare_block_for_writing r' time content_size content_type labels;
      writer_try_new r' time
  end.

(** The receiving loop of [RecordWriter::receive]. *)
Fixpoint recv (ctx : WriteContext) (chunks : list WriteChunk) (written : Z) : ST BM () :=
  let finish := if decide (written < ctx_content_size ctx) then st_throw BadRequest else mret tt in
  match chunks with
  | [] | ChunkStop :: _ => finish
  | ChunkErr e :: _ => st_throw e
  | ChunkData bytes :: chunks' =>
      let written' := u64_add written (Z.of_nat (length bytes)) in
      if decide (written' > ctx_content_size ctx) then st_throw BadRequest
      else
        _ ← fs_update (ctx_file ctx)
              (write_all_at (Z.to_nat (u64_sub (u64_add (ctx_offset ctx) written') (Z.of_nat (length bytes))))
                 bytes);
        recv ctx chunks' written'
  end.

(** [RecordWriter::receive]: the record is finished or marked as errored; a
    failure to do so is only logged. *)
Definition receive (ctx : WriteContext) (chunks : list WriteChunk) : ST BM () := λ s,
  let '(o, s1) := recv ctx chunks 0 s in
  match o with
  | Panic => (Panic, s1)
  | _ =>
      let st := match o with Ok _ => Finished | _ => Errored end in
      match finish_write_record cfg (ctx_block_id ctx) st (ctx_timestamp ctx) s1 with
      | (Err _, s2) => (Ok tt, s2)
      | other => other
      end
  end.

(** ** Reading (read_record.rs, io/record_reader.rs) *)

(** [Entry::find_record_for_read]. *)
Definition find_record_for_read (time : Z) : ST BM (Z * Rec) :=
  r ← find_block cfg time;
  b ← deref r;
  rec ← st_lift (ok_or NotFound (get_record b time));
  mret (r, rec).

(** [RecordReader::try_new]. *)
Definition reader_try_new (r time : Z) : ST BM RecordReader :=
  b ← deref r;
  fo ← begin_read_record cfg b time;
  rec ← st_lift (unwrap (get_record b time));
  if decide (rec_len rec > 0) then
    ex ← fs_exists fo.1;
    if (ex : bool) then mret (mkReader (Some fo.1) fo.2 (rec_len rec) 0)
    else st_throw (if replica cfg then TooEarly else NotFound)
  else mret (mkReader None fo.2 (rec_len rec) 0).

(** [Entry::begin_read]. *)
Definition begin_read (time : Z) : ST BM RecordReader :=
  hit ← find_cached_block cfg time;
  br ← (match hit with
        | Some r =>
            b ← deref r;
            match get_record b time with
            | Some rec => mret (r, rec)
            | None => find_record_for_read time
            end
        | None => find_record_for_read time
        end);
  if decide (r_state br.2 = state_i32 Started) then st_throw TooEarly
  else if decide (r_state br.2 = state_i32 Errored) then st_throw InternalServerError
  else reader_try_new br.1 time.

(** [RecordReader::read_chunk] with [read_sync]: [None] at the end. *)
Definition read_chunk (rd : RecordReader) (fs : gmap path (list Z))
    : option (outcome (list Z)) * RecordReader :=
  let n := (rd_content_size rd - rd_pos rd) `min` MAX_IO_BUFFER_SIZE in
  if decide (n = 0) then (None, rd)
  else
    match rd_file rd with
    | None => (Some (Err InternalServerError), rd)
    | Some p =>
        match fs !! p with
        | None => (Some (Err InternalServerError), rd)
        | Some f =>
            let got := take (Z.to_nat n) (drop (Z.to_nat (rd_offset rd + rd_pos rd)) f) in
            let rd' := mkReader (rd_file rd) (rd_offset rd) (rd_content_size rd)
                         (rd_pos rd + Z.of_nat (length got)) in
            match got with
            | [] => (Some (Err InternalServerError), rd')
            | _ => (Some (Ok got), rd')
            end
        end
    end.

(** Reading chunk after chunk until the end, as the consumers do. *)
Fixpoint read_all (fuel : nat) (rd : RecordReader) (fs : gmap path (list Z)) : outcome (list Z) :=
  match fuel with
  | O => Panic
  | S fuel' =>
      match read_chunk rd fs with
      | (None, _) => Ok []
      | (Some (Ok c), rd') => rest ← read_all fuel' rd' fs; Ok (c ++ rest)
      | (Some (Err e), _) => Err e
      | (Some Panic, _) => Panic
      end
  end.

Inductive SeekFrom := SeekStart (offset : Z) | SeekEnd (offset : Z) | SeekCurrent (offset : Z).

(** [RecordReader::seek]; [None] is the error of an invalid position. *)
Definition reader_seek (pos : SeekFrom) (rd : RecordReader) : option RecordReader :=
  let new_pos := match pos with
                 | SeekStart o => i64_wrap o
                 | SeekEnd o => i64_wrap (i64_wrap (rd_content_size rd) + o)
                 | SeekCurrent o => i64_wrap (i64_wrap (rd_pos rd) + o)
                 end in
  if decide (new_pos > i64_wrap (rd_content_size rd) ∨ new_pos < 0) then None
  else Some (mkReader (rd_file rd) (rd_offset rd) (rd_content_size rd) (u64_wrap new_pos)).

(** ** Updating labels (update_labels.rs) *)

(** The loop of [Entry::update_single_label] over the existing labels. *)
Fixpoint merge_labels (labels : list Label) (update : gmap string string) (remove : gset string)
    : list Label * gmap string string :=
  match labels with
  | [] => ([], update)
  | l :: labels' =>
      if decide (label_name l ∈ remove) then merge_labels labels' update remove
      else
        let l' := match update !! label_name l with
                  | Some v => mkLabel (label_name l) v
                  | None => l
                  end in
        let '(rest, update') := merge_labels labels' (delete (label_name l) update) remove in
        (l' :: rest, update')
  end.

(** [Entry::update_single_label]. *)
Definition update_single_label (rec : Rec) (update : gmap string string) (remove : gset string) : Rec :=
  let '(kept, rest) := merge_labels (r_labels rec) update remove in
  mkRec (r_timestamp rec) (r_begin rec) (r_end rec) (r_state rec)
    (kept ++ labels_to_proto rest) (r_content_type rec).

Record UpdateLabels := mkUpdateLabels {
  ul_time : Z; ul_update : gmap string string; ul_remove : gset string
}.

(** Finding the records to update: the results by timestamp and the new records
    by block. *)
Fixpoint locate_updates (updates : list UpdateLabels) (result : gmap Z (outcome (list Label)))
    (per_block : gmap Z (list Rec)) : ST BM (gmap Z (outcome (list Label)) * gmap Z (list Rec)) :=
  match updates with
  | [] => mret (result, per_block)
  | u :: updates' => λ s,
      match find_block cfg (ul_time u) s with
      | (Err e, s1) => locate_updates updates' (<[ul_time u := Err e]> result) per_block s1
      | (Panic, s1) => (Panic, s1)
      | (Ok r, s1) =>
          match blocks s1 !! r with
          | None => (Panic, s1)
          | Some b =>
              match get_record b (ul_time u) with
              | None => locate_updates updates' (<[ul_time u := Err NotFound]> result) per_block s1
              | Some rec =>
                  let rec' := update_single_label rec (ul_update u) (ul_remove u) in
                  locate_updates updates' (<[ul_time u := Ok (r_labels rec')]> result)
                    (<[block_id b := default [] (per_block !! block_id b) ++ [rec']]> per_block) s1
              end
          end
      end
  end.

(** [Entry::update_labels]; the tasks it spawns take the manager in turn. *)
Definition update_labels (updates : list UpdateLabels) : ST BM (gmap Z (outcome (list Label))) :=
  res ← locate_updates updates ∅ ∅;
  _ ← st_for (λ id, update_records cfg id (default [] (res.2 !! id))) (bt_elements (dom res.2));
  mret res.1.

(** ** Removing records (remove_records.rs) *)

Fixpoint locate_removals (times : list Z) (errors : gmap Z ErrorCode) (per_block : gmap Z (list Z))
    : ST BM (gmap Z ErrorCode * gmap Z (list Z)) :=
  match times with
  | [] => mret (errors, per_block)
  | t :: times' => λ s,
      match find_block cfg t s with
      | (Err e, s1) => locate_removals times' (<[t := e]> errors) per_block s1
      | (Panic, s1) => (Panic, s1)
      | (Ok r, s1) =>
          match blocks s1 !! r with
          | None => (Panic, s1)
          | Some b =>
              match get_record b t with
              | None => locate_removals times' (<[t := NotFound]> errors) per_block s1
              | Some _ =>
                  locate_removals times' errors
                    (<[block_id b := default [] (per_block !! block_id b) ++ [t]]> per_block) s1
              end
          end
      end
  end.

(** [Entry::inner_remove_records]. *)
Definition inner_remove_records (times : list Z) : ST BM (gmap Z ErrorCode * list Z) :=
  res ← locate_removals times ∅ ∅;
  let ids := bt_elements (dom res.2) in
  _ ← st_for (λ id, remove_records cfg id (default [] (res.2 !! id))) ids;
  mret (res.1, ids).

(** ** The entry as a whole (entry.rs) *)

Record EntryInfo := mkEntryInfo {
  ei_size : Z; ei_record_count : Z; ei_block_count : Z; ei_oldest_record : Z; ei_latest_record : Z
}.

(** The first id of the list whose block has records. *)
Fixpoint first_nonempty (ix : BlockIndex) (ids : list Z) : option (Z * BlockEntry) :=
  match ids with
  | [] => None
  | id :: ids' =>
      match get_block ix id with
      | Some e => if decide (be_record_count e > 0) then Some (id, e) else first_nonempty ix ids'
      | None => first_nonempty ix ids'
      end
  end.

(** [Entry::info]. *)
Definition entry_info (ix : BlockIndex) : outcome EntryInfo :=
  let tree := bt_elements (active_tree ix) in
  let oldest := from_option fst 0 (first_nonempty ix tree) in
  latest ← (match first_nonempty ix (reverse tree) with
            | Some (_, e) => ts_to_us <$> unwrap (be_latest_record_time e)
            | None => Ok 0
            end);
  Ok (mkEntryInfo (size_of (hash_iter (index_info ix))) (record_count_of (hash_iter (index_info ix)))
        (Z.of_nat (base.size (index ix))) oldest latest).

(** [Entry::get_query_time_range]. *)
Definition get_query_time_range (ix : BlockIndex) (start stop : option Z) (continuous : bool)
    : outcome (Z * Z) :=
  info ← entry_info ix;
  let b := default (ei_oldest_record info) start in
  let e := default (u64_add (ei_latest_record info) 1) stop in
  if decide (b > e) then if continuous then Ok (b, e) else Err UnprocessableEntity
  else Ok (b, e).

(** [Entry::try_remove_oldest_block] and [remove_all_blocks]. *)
Definition try_remove_oldest_block : ST BM () :=
  s ← st_get;
  match bt_first (index (block_index s)) with
  | None => st_throw InternalServerError
  | Some id => remove_block cfg id
  end.
Definition remove_all_blocks : ST BM () :=
  s ← st_get;
  st_for (remove_block cfg) (bt_elements (index (block_index s))).
End Entry.
