(* ===== verification/RecordIo.v ===== *)
(** * The content of a record (io/record_writer.rs, io/record_reader.rs)

    The writer puts the chunks it receives one after the other into the region
    reserved for the record, never outside it; the reader returns the region. *)

From stdpp Require Import prelude gmap strings sorting fin_map_dom pretty.
From Stdlib Require Import ZArith Lia.
From S2P Require Import Prelude Bytes Collections Proto Block BlockIndex Wal Cache BlockManager Entry.
Open Scope Z_scope.

Section RecordIo.
Context `{HashIter} `{Prost} `{Crc64} `{Zstd} `{Clock} (cfg : Cfg).
Implicit Types (s : BM) (ctx : WriteContext).

(** The region of a record lies within 64-bit offsets, and no buffer is longer
    than [isize::MAX]. *)
Definition ctx_ok ctx : Prop :=
  0 ≤ ctx_offset ctx ∧ 0 ≤ ctx_content_size ctx < 2 ^ 63 ∧
  ctx_offset ctx + ctx_content_size ctx < two64.
Definition chunk_ok (c : WriteChunk) : Prop :=
  match c with ChunkData bytes => Z.of_nat (length bytes) < 2 ^ 63 | _ => True end.

(** Where a chunk goes. *)
Lemma chunk_pos ctx written (n : Z) :
  ctx_ok ctx → 0 ≤ written → 0 ≤ n → written + n ≤ ctx_content_size ctx →
  u64_sub (u64_add (ctx_offset ctx) (written + n)) n = ctx_offset ctx + written.
Proof.
  intros (H1' & H2' & H3') Hw Hn Hle.
  rewrite u64_add_small by u64_lia. rewrite u64_sub_small by u64_lia. lia.
Qed.

Lemma chunk_count ctx written (n : Z) :
  ctx_ok ctx → 0 ≤ written ≤ ctx_content_size ctx → 0 ≤ n < 2 ^ 63 →
  u64_add written n = written + n.
Proof. intros (H1' & H2' & H3') Hw Hn. apply u64_add_small. u64_lia. Qed.

(** [f'] agrees with [f] outside the region [[lo, hi)] of a file. *)
Definition same_outside (lo hi : nat) (f f' : list Z) : Prop :=
  (length f ≤ length f')%nat ∧
  ∀ i, (i < length f)%nat → (i < lo ∨ hi ≤ i)%nat → f' !! i = f !! i.

Lemma same_outside_write lo hi pos buf f0 f :
  same_outside lo hi f0 f → (lo ≤ pos)%nat → (pos + length buf ≤ hi)%nat →
  same_outside lo hi f0 (write_all_at pos buf f).
Proof.
  intros [Hl Hs] Hlo Hhi. unfold write_all_at. destruct buf as [|x buf]; [done|].
  split; [rewrite length_write_at; lia|].
  intros i Hi Hout. rewrite <-(Hs i Hi Hout), lookup_write_at.
  destruct (f !! i) as [y|] eqn:E; [|apply lookup_ge_None in E; lia].
  repeat case_decide; try done; lia.
Qed.

Definition region_lo ctx : nat := Z.to_nat (ctx_offset ctx).
Definition region_hi ctx : nat := Z.to_nat (ctx_offset ctx + ctx_content_size ctx).
Definition content_of (p : path) s : list Z := default [] (files s !! p).

Lemma set_files_same s : set_files (files s) s = s.
Proof. by destruct s. Qed.

Lemma recv_data ctx bytes chunks written s :
  ctx_ok ctx → 0 ≤ written ≤ ctx_content_size ctx → Z.of_nat (length bytes) < 2 ^ 63 →
  recv ctx (ChunkData bytes :: chunks) written s =
    (if decide (written + Z.of_nat (length bytes) > ctx_content_size ctx) then (Err BadRequest, s)
     else recv ctx chunks (written + Z.of_nat (length bytes))
            (set_files (<[ctx_file ctx := write_all_at (Z.to_nat (ctx_offset ctx + written)) bytes
                            (content_of (ctx_file ctx) s)]> (files s)) s)).
Proof.
  intros Hctx Hw Hb. cbn [recv]. rewrite (chunk_count ctx) by (try done; lia).
  case_decide as Hbig; [done|]. rewrite (chunk_pos ctx) by (try done; lia). done.
Qed.

Lemma recv_region ctx chunks written s f0 :
  ctx_ok ctx → Forall chunk_ok chunks → 0 ≤ written ≤ ctx_content_size ctx →
  same_outside (region_lo ctx) (region_hi ctx) f0 (content_of (ctx_file ctx) s) →
  ∃ o f', recv ctx chunks written s = (o, set_files f' s) ∧ o ≠ Panic ∧
    (∀ p, p ≠ ctx_file ctx → f' !! p = files s !! p) ∧
    same_outside (region_lo ctx) (region_hi ctx) f0 (default [] (f' !! ctx_file ctx)).
Proof.
  intros Hctx Hok. revert written s.
  induction Hok as [|c chunks Hc Hchunks IH]; intros written s Hw Hs.
  - cbn [recv]. exists (if decide (written < ctx_content_size ctx) then Err BadRequest else Ok tt), (files s).
    rewrite set_files_same. case_decide; by split_and!.
  - destruct c as [bytes| |e].
    + rewrite recv_data by done. case_decide as Hbig.
      { exists (Err BadRequest), (files s). rewrite set_files_same. by split_and!. }
      set (f1 := <[ctx_file ctx := _]> (files s)).
      destruct (IH (written + Z.of_nat (length bytes)) (set_files f1 s)) as (o & f' & E & Ho & Hp & Hs').
      * lia.
      * unfold content_of. bm_simpl. unfold f1. rewrite lookup_insert_eq. simpl.
        destruct Hctx as (? & ? & ?). apply same_outside_write; [done|unfold region_lo; lia|].
        unfold region_hi. lia.
      * exists o, f'. split_and!; try done. intros p Hne. rewrite Hp by done. bm_simpl. unfold f1.
        by rewrite lookup_insert_ne.
    + cbn [recv]. exists (if decide (written < ctx_content_size ctx) then Err BadRequest else Ok tt), (files s).
      rewrite set_files_same. case_decide; by split_and!.
    + cbn [recv]. exists (Err e), (files s). rewrite set_files_same. by split_and!.
Qed.

Definition chunks_of (cs : list (list Z)) : list WriteChunk := (ChunkData <$> cs) ++ [ChunkStop].

Lemma write_all_app pos c d f :
  write_all_at (pos + length c) d (write_all_at pos c f) = write_all_at pos (c ++ d) f.
Proof.
  destruct c as [|x c]; simpl; [f_equal; lia|]. destruct d as [|y d]; [by rewrite app_nil_r|].
  exact (write_at_app pos (x :: c) (y :: d) f).
Qed.

(** The chunks of a complete record end up next to each other. *)
Lemma recv_complete ctx cs written s :
  ctx_ok ctx → 0 ≤ written → written + Z.of_nat (length (mjoin cs)) = ctx_content_size ctx →
  ∃ f', recv ctx (chunks_of cs) written s = (Ok tt, set_files f' s) ∧
    (∀ p, p ≠ ctx_file ctx → f' !! p = files s !! p) ∧
    default [] (f' !! ctx_file ctx) =
      write_all_at (Z.to_nat (ctx_offset ctx + written)) (mjoin cs) (content_of (ctx_file ctx) s).
Proof.
  intros Hctx. revert written s. induction cs as [|c cs IH]; intros written s Hw Htot.
  - exists (files s). rewrite set_files_same. cbn in *. rewrite decide_False by lia. by split_and!.
  - change (mjoin (c :: cs)) with (c ++ mjoin cs) in *. rewrite length_app in Htot.
    change (chunks_of (c :: cs)) with (ChunkData c :: chunks_of cs).
    pose proof Hctx as (Ho & Hc & Hoc).
    rewrite recv_data by (try exact Hctx; lia). rewrite decide_False by lia.
    set (f1 := <[ctx_file ctx := _]> (files s)).
    destruct (IH (written + Z.of_nat (length c)) (set_files f1 s)) as (f' & E & Hp & Hf); [lia|lia|].
    exists f'. split_and!; [done| |].
    + intros p Hne. rewrite Hp by done. bm_simpl. unfold f1. by rewrite lookup_insert_ne.
    + rewrite Hf. unfold content_of. bm_simpl. unfold f1. rewrite lookup_insert_eq. simpl.
      replace (Z.to_nat (ctx_offset ctx + (written + Z.of_nat (length c))))
        with (Z.to_nat (ctx_offset ctx + written) + length c)%nat by lia.
      apply write_all_app.
Qed.

(** ** Reading back *)

Lemma take_drop_read (f data : list Z) (off len pos n : nat) :
  read_at off len f = Some data → (pos + n ≤ len)%nat →
  take n (drop (off + pos) f) = take n (drop pos data).
Proof.
  unfold read_at. intros Hr Hle. case_decide as Hl; [|done]. injection Hr as <-.
  rewrite skipn_firstn_comm, firstn_firstn, drop_drop.
  by replace (Nat.min n (len - pos)) with n by lia.
Qed.

Lemma read_at_length f off len data : read_at off len f = Some data → length data = len.
Proof. unfold read_at. case_decide; [|done]. by intros [= <-]. Qed.

(** The reader returns the rest of the region, whatever the chunk size. *)
Lemma read_all_spec fuel p off len pos fs f data :
  fs !! p = Some f → 0 ≤ off → 0 ≤ pos ≤ len →
  read_at (Z.to_nat off) (Z.to_nat len) f = Some data → (Z.to_nat (len - pos) < fuel)%nat →
  read_all fuel (mkReader (Some p) off len pos) fs = Ok (drop (Z.to_nat pos) data).
Proof.
  intros Hp Hoff. revert pos. induction fuel as [|fuel IH]; intros pos Hpos Hr Hf; [lia|].
  pose proof (read_at_length _ _ _ _ Hr) as Hdl.
  cbn [read_all]. unfold read_chunk. cbn [rd_file rd_offset rd_content_size rd_pos].
  destruct (decide ((len - pos) `min` MAX_IO_BUFFER_SIZE = 0)) as [Hz|Hnz].
  - rewrite drop_ge; [done|]. unfold MAX_IO_BUFFER_SIZE in Hz. lia.
  - rewrite Hp. set (n := (len - pos) `min` MAX_IO_BUFFER_SIZE) in *.
    assert (0 < n ≤ len - pos) as Hn by (unfold n, MAX_IO_BUFFER_SIZE in *; lia).
    replace (Z.to_nat (off + pos)) with (Z.to_nat off + Z.to_nat pos)%nat by lia.
    rewrite (take_drop_read f data _ _ _ _ Hr) by lia.
    assert (length (take (Z.to_nat n) (drop (Z.to_nat pos) data)) = Z.to_nat n) as Hgl
      by (rewrite length_take, length_drop; lia).
    destruct (take (Z.to_nat n) (drop (Z.to_nat pos) data)) as [|x got] eqn:Eg; [simpl in Hgl; lia|].
    rewrite Hgl, IH by first [lia|exact Hr]. cbn [mbind outcome_bind]. rewrite <-Eg. f_equal.
    replace (Z.to_nat (pos + Z.of_nat (Z.to_nat n))) with (Z.to_nat pos + Z.to_nat n)%nat by lia.
    rewrite <-drop_drop. apply take_drop.
Qed.

(** C10: A writer stays in its region: whatever chunks arrive, too much, too
    little or an error in the middle, receiving them returns, changes no other
    file, and in the data file no byte outside the region reserved for the
    record; so records written at the same time do not damage each other. *)
Theorem recv_stays_in_region ctx chunks s :
  ctx_ok ctx → Forall chunk_ok chunks →
  ∃ o f', recv ctx chunks 0 s = (o, set_files f' s) ∧ o ≠ Panic ∧
    (∀ p, p ≠ ctx_file ctx → f' !! p = files s !! p) ∧
    ∀ i, (i < length (content_of (ctx_file ctx) s))%nat →
      (i < region_lo ctx ∨ region_hi ctx ≤ i)%nat →
      default [] (f' !! ctx_file ctx) !! i = content_of (ctx_file ctx) s !! i.
Proof.
  intros Hctx Hok. pose proof Hctx as (? & ? & ?).
  destruct (recv_region ctx chunks 0 s (content_of (ctx_file ctx) s) Hctx Hok) as (o & f' & E & Ho & Hp & _ & Hs);
    [lia|by split|].
  by exists o, f'.
Qed.

(** C11: What was written is what is read: once the chunks of a record have been
    received completely, reading the record's region through a reader returns
    their concatenation, in however many chunks it was sent and is read. *)
Theorem written_content_is_read ctx (cs : list (list Z)) s :
  ctx_ok ctx → Z.of_nat (length (mjoin cs)) = ctx_content_size ctx → mjoin cs ≠ [] →
  ∃ s', recv ctx (chunks_of cs) 0 s = (Ok tt, s') ∧
    ∀ fuel, (length (mjoin cs) < fuel)%nat →
      read_all fuel (mkReader (Some (ctx_file ctx)) (ctx_offset ctx) (ctx_content_size ctx) 0) (files s')
      = Ok (mjoin cs).
Proof.
  intros Hctx Hlen Hne. pose proof Hctx as (Ho & Hc & _).
  destruct (recv_complete ctx cs 0 s Hctx ltac:(lia) ltac:(lia)) as (f' & E & _ & Hf).
  eexists. split; [exact E|]. intros fuel Hfuel. bm_simpl.
  unfold write_all_at in Hf. destruct (mjoin cs) as [|x data] eqn:Ed; [done|]. rewrite <-Ed in *.
  destruct (f' !! ctx_file ctx) as [f|] eqn:Ef.
  - simpl in Hf. subst f.
    rewrite (read_all_spec fuel (ctx_file ctx) (ctx_offset ctx) (ctx_content_size ctx) 0 f'
      (write_at (Z.to_nat (ctx_offset ctx + 0)) (mjoin cs) (content_of (ctx_file ctx) s)) (mjoin cs));
      try done; try lia.
    rewrite Z.add_0_r. apply read_write_len. lia.
  - exfalso. simpl in Hf. apply (f_equal length) in Hf. rewrite length_write_at in Hf.
    rewrite Ed in Hf. simpl in Hf. lia.
Qed.
End RecordIo.

(** ** Witnesses *)
Definition demo_ctx : WriteContext := mkWriteContext 100 100 (Data 100) 2 3.
Definition demo_state : BM :=
  bm_build {[Data 100 := [9; 9; 9; 9; 9; 9]]} index_new ∅ (cache_new 0 0) ∅ 0.

Lemma demo_ctx_ok : ctx_ok demo_ctx.
Proof. unfold ctx_ok, demo_ctx; cbn [ctx_offset ctx_content_size]. u64_lia. Qed.

Lemma recv_stays_in_region_witness :
  ctx_ok demo_ctx ∧
  ∃ o f', recv demo_ctx [ChunkData [1; 2]; ChunkData [3; 4]] 0 demo_state = (o, set_files f' demo_state) ∧
    default [] (f' !! Data 100) !! 5%nat = Some 9.
Proof.
  split; [exact demo_ctx_ok|].
  destruct (recv_stays_in_region demo_ctx [ChunkData [1; 2]; ChunkData [3; 4]] demo_state demo_ctx_ok)
    as (o & f' & E & _ & _ & Hs).
  - repeat constructor; vm_compute; reflexivity.
  - exists o, f'. split; [exact E|]. apply (Hs 5%nat); [vm_compute; lia|right; vm_compute; lia].
Defined.

Lemma written_content_is_read_witness :
  ∃ s', recv demo_ctx (chunks_of [[1]; [2; 3]]) 0 demo_state = (Ok tt, s') ∧
    read_all 4 (mkReader (Some (Data 100)) 2 3 0) (files s') = Ok [1; 2; 3].
Proof.
  destruct (written_content_is_read demo_ctx [[1]; [2; 3]] demo_state demo_ctx_ok) as (s' & E & Hr).
  - reflexivity.
  - discriminate.
  - exists s'. split; [exact E|]. apply (Hr 4%nat). vm_compute. lia.
Defined.
