(* ===== verification/EntryRefine.v ===== *)
(** * Writing and reading records against the map of blocks

    What [begin_write] does to the map of blocks ([abs_begin_write]), that the
    detailed operation implements it, and what it means for readers: which block
    the record lands in and whether it and the other records are found again. *)

From stdpp Require Import prelude gmap strings sorting fin_map_dom pretty.
From Stdlib Require Import ZArith Lia.
From S2P Require Import Prelude Bytes Collections Proto Block BlockIndex Wal Cache.
From S2P Require Import BlockManager BlockManagerRefine Entry.
Open Scope Z_scope.

Section EntryRefine.
Context `{HashIter} `{Prost} `{Crc64} `{Zstd} `{Clock} (cfg : Cfg).
Context `{!HashIterLaws} `{!ProstLaws} `{!Crc64Laws}.
Context (Hprimary : replica cfg = false).
Implicit Types (s : BM) (a : gmap Z Block) (id r : Z) (b : Block).

(** ** The abstract write *)

(** The block a timestamp belongs to: the one with the greatest id not above it. *)
Definition home a (time : Z) : option Z := bt_last (filter (λ i, i ≤ time) (dom a)).

Definition belated b (time : Z) : Prop := record_count b > 0 ∧ latest_record_time b >= time.
#[global] Instance belated_dec b time : Decision (belated b time).
Proof. unfold belated. apply _. Defined.

(** The block to write to; [None]: a new one. *)
Definition target a (time : Z) : option Z :=
  match bt_last (dom a) with
  | None => None
  | Some last =>
      match a !! last with
      | Some b => if decide (belated b time) then home a time else Some last
      | None => None
      end
  end.

Definition full (st : EntrySettings) (len : Z) b : Prop :=
  u64_add (size b) len > max_block_size st ∨ u64_add (record_count b) 1 > max_block_records st.
#[global] Instance full_dec st len b : Decision (full st len b).
Proof. unfold full. apply _. Defined.

(** The record [prepare_block_for_writing] adds to a block. *)
Definition new_record (time len : Z) (ct : string) (labels : list Label) b : Rec :=
  mkRec (Some (us_to_ts time)) (size b) (u64_add (size b) len) (state_i32 Started) labels ct.

Definition place a id b (rec : Rec) : outcome (Z * Rec) * gmap Z Block :=
  match insert_or_update_record b rec with
  | Ok b' => (Ok (id, rec), <[id := b']> a)
  | Err e => (Err e, a)
  | Panic => (Panic, a)
  end.

Definition restarted (rec : Rec) (ct : string) (labels : list Label) : Rec :=
  mkRec (r_timestamp rec) (r_begin rec) (r_end rec) (state_i32 Started) labels ct.

(** Starting a block for the record and placing it there. *)
Definition place_new a (time len : Z) ct labels : outcome (Z * Rec) * gmap Z Block :=
  place (<[time := block_new time]> a) time (block_new time)
    (new_record time len ct labels (block_new time)).

Definition abs_begin_write (st : EntrySettings) (time len : Z) ct labels a
    : outcome (Z * Rec) * gmap Z Block :=
  match target a time with
  | None => place_new a time len ct labels
  | Some id =>
      match a !! id with
      | None => (Panic, a)
      | Some b =>
          match get_record b time with
          | Some rec =>
              if decide (r_state rec ≠ state_i32 Errored ∨ rec_len rec ≠ len) then (Err Conflict, a)
              else place a id b (restarted rec ct labels)
          | None =>
              if decide (full st len b) then place_new a time len ct labels
              else place a id b (new_record time len ct labels b)
          end
      end
  end.

(** What the request must satisfy: widths, room in the counters, strings that
    are UTF-8, and that no block is started under the id of another one. *)
Record write_ok (st : EntrySettings) (time len : Z) ct labels a : Prop := {
  wo_time : is_u64 time;
  wo_len : 0 ≤ len < two64;
  wo_labels : Forall label_valid labels;
  wo_ct : utf8 ct = true;
  wo_room id b : a !! id = Some b → size b + len < two64 ∧ record_count b + 1 < two64;
  wo_new id b : target a time = Some id → a !! id = Some b → get_record b time = None →
    full st len b → a !! time = None
}.

(** ** The pieces of [begin_write] *)

Lemma us_to_ts_time time : is_u64 time → ts_to_us (us_to_ts time) = time.
Proof. apply ts_us_roundtrip. Qed.

Lemma new_record_fits id b time len ct labels :
  block_ok id b → 0 ≤ len → size b + len < two64 → record_count b + 1 < two64 →
  Forall label_valid labels → utf8 ct = true → is_u64 time →
  rec_valid (new_record time len ct labels b) ∧ fits b (new_record time len ct labels b).
Proof.
  intros (Hwf & _ & _) Hlen Hsz Hcnt Hl Hct Ht.
  pose proof (wf_size_bound b Hwf) as [Hs0 Hs1]. unfold new_record, rec_valid, fits.
  cbn [r_timestamp r_begin r_end r_state r_labels r_content_type state_i32].
  rewrite u64_add_small by u64_lia.
  split; split_and!; try done; try u64_lia. intros ts [= <-]. by apply us_to_ts_valid.
Qed.

Lemma new_block_fits time len ct labels :
  is_u64 time → 0 ≤ len < two64 → Forall label_valid labels → utf8 ct = true →
  fits (block_new time) (new_record time len ct labels (block_new time)).
Proof.
  intros Ht Hlen Hl Hct.
  apply (new_record_fits time (block_new time) time len ct labels);
    first [done|by apply block_new_ok|simpl; u64_lia].
Qed.

(** Opening the writer of a record that is already in its block. *)
Lemma writer_rep s a id r b time rec :
  rep cfg [(id, r)] s a → sole cfg s id r → a !! id = Some b → get_record b time = Some rec →
  ∃ s', writer_try_new cfg r time s
      = (Ok (mkWriteContext id time (Data id) (r_begin rec) (rec_len rec)), s') ∧ rep cfg [] s' a.
Proof.
  intros Hrep [_ Hsr] Hb Hrec.
  pose proof (rep_pending _ _ _ _ Hrep) as Hp. apply Forall_cons in Hp as [(b0 & Hb0 & Hr) _].
  cbn [fst snd] in *. assert (b0 = b) as -> by congruence.
  destruct (rep_blocks _ _ _ _ Hrep id b Hb) as (_ & Hid & _).
  unfold writer_try_new. rewrite (st_bind_ok _ (deref r) s b s) by (unfold deref; by rewrite Hr).
  destruct (index_put_rep cfg Hprimary s a id r b Hrep Hb) as (ix & E & Hrep1). st_step E.
  set (s1 := set_index ix s) in *.
  rewrite (st_bind_ok _ _ s1 (Data id, r_begin rec) s1)
    by (unfold st_lift, begin_write_record; rewrite Hrec; simpl; by rewrite Hid).
  destruct (save_block_rep cfg Hprimary s1 a id r Hrep1 Hsr) as (s2 & E2 & Hrep2 & _ & _ & Hbl & _).
  st_step E2.
  rewrite (st_bind_ok _ (deref r) s2 b s2) by (unfold deref; rewrite Hbl; unfold s1; bm_simpl; by rewrite Hr).
  rewrite (st_bind_ok _ _ s2 rec s2) by (unfold st_lift; by rewrite Hrec).
  exists s2. split; [|done]. by rewrite Hid.
Qed.

(** Storing a record through the current reference of its block. *)
Lemma store_rep s a id r b time rec :
  rep cfg [] s a → holds s a id r → sole cfg s id r → a !! id = Some b →
  rec_valid rec → fits b rec → rec_time rec = Ok time →
  ∃ b' s', insert_or_update_record b rec = Ok b' ∧
    writer_try_new cfg r time (set_blocks (<[r := b']> (blocks s)) s)
      = (Ok (mkWriteContext id time (Data id) (r_begin rec) (rec_len rec)), s') ∧
    rep cfg [] s' (<[id := b']> a).
Proof.
  intros Hrep Hh Hs Hb Hrv Hfit Hk.
  destruct (rep_blocks _ _ _ _ Hrep id b Hb) as (Hwf & Hid & Hv).
  destruct (insert_or_update_record_spec b rec time Hwf Hk Hfit) as (b' & E & Hwf' & Hid' & Hix & _).
  assert (block_ok id b') as Hok.
  { split_and!; [done|congruence|]. rewrite Hix. by apply map_Forall_insert_2. }
  exists b'. destruct (writer_rep (set_blocks (<[r := b']> (blocks s)) s) (<[id := b']> a) id r b' time rec)
    as (s' & Ew & Hrep').
  - by apply (assign_rep cfg Hprimary).
  - done.
  - by rewrite lookup_insert_eq.
  - unfold get_record. by rewrite Hix, lookup_insert_eq.
  - by exists s'.
Qed.

Lemma rec_time_new time len ct labels b :
  is_u64 time → rec_time (new_record time len ct labels b) = Ok time.
Proof. intros Ht. unfold rec_time, new_record; simpl. by rewrite us_to_ts_time. Qed.

(** A record for a block with room. *)
Lemma place_new_record s a id r b time len ct (labels : gmap string string) :
  rep cfg [] s a → holds s a id r → sole cfg s id r → a !! id = Some b →
  is_u64 time → 0 ≤ len → size b + len < two64 → record_count b + 1 < two64 →
  Forall label_valid (labels_to_proto labels) → utf8 ct = true →
  ∃ b' s', insert_or_update_record b (new_record time len ct (labels_to_proto labels) b) = Ok b' ∧
    (_ ← prepare_block_for_writing r time len ct labels; writer_try_new cfg r time) s
      = (Ok (mkWriteContext id time (Data id) (size b) len), s') ∧
    rep cfg [] s' (<[id := b']> a).
Proof.
  intros Hrep Hh Hs Hb Ht Hlen Hsz Hcnt Hl Hct.
  destruct (new_record_fits id b time len ct (labels_to_proto labels)
    (rep_blocks _ _ _ _ Hrep id b Hb) Hlen Hsz Hcnt Hl Hct Ht) as [Hrv Hfit].
  destruct (store_rep s a id r b time _ Hrep Hh Hs Hb Hrv Hfit (rec_time_new _ _ _ _ _ Ht))
    as (b' & s' & E & Ew & Hrep').
  exists b', s'. split; [done|]. split; [|done].
  rewrite (st_bind_ok _ (prepare_block_for_writing r time len ct labels) s tt
    (set_blocks (<[r := b']> (blocks s)) s)).
  - rewrite Ew. do 3 f_equal. unfold rec_len, new_record; cbn [r_begin r_end].
    destruct (rep_blocks _ _ _ _ Hrep id b Hb) as (Hwf & _). pose proof (wf_size_bound b Hwf) as [? ?].
    rewrite u64_add_small, u64_sub_small by u64_lia. lia.
  - unfold prepare_block_for_writing. destruct Hh as (b0 & Hb0 & Hr).
    assert (b0 = b) as -> by congruence.
    rewrite (st_bind_ok _ (deref r) s b s) by (unfold deref; by rewrite Hr).
    rewrite (st_bind_ok _ _ s b' s); [done|]. unfold st_lift. f_equal. exact E.
Qed.

(** Starting a block for the record, twice when the record is larger than a block. *)
Lemma place_in_new_block s a time st len ct (labels : gmap string string) :
  rep cfg [] s a → (∀ b, a !! time = Some b → b = block_new time) →
  cached (read_cache s) !! read_key cfg time = None → is_u64 time → 0 ≤ len < two64 →
  Forall label_valid (labels_to_proto labels) → utf8 ct = true →
  ∃ x a' s', place_new a time len ct (labels_to_proto labels) = (Ok (time, x), a') ∧
    (r ← start_new_block cfg time (max_block_size st);
     _ ← prepare_block_for_writing r time len ct labels; writer_try_new cfg r time) s
      = (Ok (mkWriteContext time time (Data time) (r_begin x) len), s') ∧
    rep cfg [] s' a'.
Proof.
  intros Hrep Hold Hrc Ht Hlen Hl Hct.
  destruct (start_new_block_rep cfg Hprimary s a time (max_block_size st) Hrep Hold Hrc Ht)
    as (r & s1 & E & Hrep1 & Hh1 & Hs1 & _). st_step E.
  destruct (place_new_record s1 (<[time := block_new time]> a) time r (block_new time) time len ct labels
    Hrep1 Hh1 Hs1 (lookup_insert_eq _ _ _)) as (b' & s2 & Eb & E2 & Hrep2); try done; try (simpl; u64_lia).
  unfold place_new, place. rewrite Eb. by do 3 eexists.
Qed.

(** The part of [begin_write] after a block was chosen. *)
Definition write_to (st : EntrySettings) (r time len : Z) (ct : string) (labels : gmap string string)
    : ST BM WriteContext :=
  b ← deref r;
  r' ← (if decide (full st len b)
        then _ ← finish_block cfg r; start_new_block cfg time (max_block_size st)
        else mret r);
  _ ← prepare_block_for_writing r' time len ct labels;
  writer_try_new cfg r' time.

Definition ctx_of (time len : Z) (x : Z * Rec) : WriteContext :=
  mkWriteContext x.1 time (Data x.1) (r_begin x.2) len.

(** The concrete operation and the abstract one agree. *)
Definition agrees (time len : Z) s (o : outcome WriteContext * BM)
    (p : outcome (Z * Rec) * gmap Z Block) : Prop :=
  o.1 = ctx_of time len <$> p.1 ∧ rep cfg [] o.2 p.2.

Lemma write_to_rep s a id r b st time len ct (labels : gmap string string) :
  rep cfg [] s a → holds s a id r → sole cfg s id r → a !! id = Some b →
  is_u64 time → 0 ≤ len < two64 → size b + len < two64 → record_count b + 1 < two64 →
  Forall label_valid (labels_to_proto labels) → utf8 ct = true →
  (full st len b → (∀ b', a !! time = Some b' → b' = block_new time) ∧
                   cached (read_cache s) !! read_key cfg time = None) →
  agrees time len s (write_to st r time len ct labels s)
    (if decide (full st len b) then place_new a time len ct (labels_to_proto labels)
     else place a id b (new_record time len ct (labels_to_proto labels) b)).
Proof.
  intros Hrep Hh Hs Hb Ht Hlen Hsz Hcnt Hl Hct Hfull. unfold write_to.
  assert (blocks s !! r = Some b) as Hr by (destruct Hh as (? & ? & ?); congruence).
  rewrite (st_bind_ok _ (deref r) s b s) by (unfold deref; by rewrite Hr).
  case_decide as Hf.
  - destruct (Hfull Hf) as [Hold Hrc].
    destruct (finish_block_rep cfg Hprimary [] s a id r Hrep Hh) as (s1 & E & Hrep1 & Hrc1 & _).
    destruct (place_in_new_block s1 a time st len ct labels Hrep1 Hold) as (x & a' & s2 & Ep & E2 & Hrep2);
      try done; [by rewrite Hrc1|].
    rewrite Ep. destruct (start_new_block cfg time (max_block_size st) s1) as [[r1| |] s1'] eqn:E1;
      [|by rewrite (st_bind_err _ _ _ _ _ E1) in E2|unfold mbind, ST_bind in E2; by rewrite E1 in E2].
    rewrite (st_bind_ok _ _ s r1 s1') by (by rewrite (st_bind_ok _ _ _ _ _ E)).
    rewrite (st_bind_ok _ _ _ _ _ E1) in E2. split; [|by rewrite E2]. by rewrite E2.
  - rewrite (st_bind_ok _ _ s r s) by done.
    destruct (place_new_record s a id r b time len ct labels) as (b' & s2 & Eb & E2 & Hrep2); try done; [lia|].
    unfold place. rewrite Eb, E2. done.
Qed.

Lemma not_belated_fresh id b time : block_ok id b → ¬ belated b time → get_record b time = None.
Proof.
  intros (Hwf & _) Hn. destruct (get_record b time) as [rec|] eqn:E; [|done]. exfalso. apply Hn.
  split; [pose proof (wf_lookup_count b time rec Hwf E); lia|].
  pose proof (latest_record_time_max b time (mk_is_Some _ _ E)). lia.
Qed.

(** Storing the restarted record over the errored one. *)
Lemma overwrite_rep s a id r b time len rec ct (labels : gmap string string) :
  rep cfg [] s a → holds s a id r → sole cfg s id r → a !! id = Some b → get_record b time = Some rec →
  rec_len rec = len → size b + len < two64 → record_count b + 1 < two64 →
  Forall label_valid (labels_to_proto labels) → utf8 ct = true →
  agrees time len s
    ((b ← deref r;
      b' ← st_lift (insert_or_update_record b (restarted rec ct (labels_to_proto labels)));
      _ ← assign r b';
      writer_try_new cfg r time) s)
    (place a id b (restarted rec ct (labels_to_proto labels))).
Proof.
  intros Hrep Hh Hs Hb Hrec Hlen Hsz Hcnt Hl Hct.
  destruct (rep_blocks _ _ _ _ Hrep id b Hb) as (Hwf & Hid & Hv).
  pose proof (wf_keys b Hwf time rec Hrec) as Hk. pose proof (wf_records b Hwf time rec Hrec) as [Hr1 Hr2].
  rewrite rec_len_exact in Hlen by done.
  destruct (Hv time rec Hrec) as (? & ? & ? & _ & _ & _).
  destruct (store_rep s a id r b time (restarted rec ct (labels_to_proto labels)) Hrep Hh Hs Hb)
    as (b' & s' & E & Ew & Hrep').
  - unfold rec_valid, restarted; cbn [r_timestamp r_begin r_end r_state r_labels r_content_type state_i32].
    split_and!; try done; lia.
  - unfold fits, restarted; cbn [r_begin r_end]. split_and!; try done; lia.
  - done.
  - assert (blocks s !! r = Some b) as Hr by (destruct Hh as (? & ? & ?); congruence).
    rewrite (st_bind_ok _ (deref r) s b s) by (unfold deref; by rewrite Hr).
    rewrite (st_bind_ok _ _ s b' s) by (unfold st_lift; by rewrite E).
    rewrite (st_bind_ok _ (assign r b') s tt (set_blocks (<[r := b']> (blocks s)) s)) by done.
    unfold place. rewrite E, Ew. split; [|done]. unfold ctx_of; simpl. do 2 f_equal.
    unfold rec_len, restarted; cbn [r_begin r_end]. rewrite u64_sub_small by u64_lia. lia.
Qed.

(** ** Choosing the block *)

Definition chosen a (time len : Z) (o : outcome write_target) s' : Prop :=
  match target a time with
  | None =>
      ∃ r, o = Ok (WriteTo r) ∧ rep cfg [] s' (<[time := block_new time]> a) ∧
        holds s' (<[time := block_new time]> a) time r ∧ sole cfg s' time r ∧
        cached (read_cache s') !! read_key cfg time = None
  | Some id =>
      ∃ b r, a !! id = Some b ∧ rep cfg [] s' a ∧ holds s' a id r ∧ sole cfg s' id r ∧
        o = match get_record b time with
            | None => Ok (WriteTo r)
            | Some rec =>
                if decide (r_state rec ≠ state_i32 Errored ∨ rec_len rec ≠ len) then Err Conflict
                else Ok (Overwrite r rec)
            end
  end.

(** A new block for a timestamp below every block of the map. *)
Lemma choose_new s a st time len :
  rep cfg [] s a → target a time = None → a !! time = None → is_u64 time →
  ∃ r s', start_new_block cfg time (max_block_size st) s = (Ok r, s') ∧
    chosen a time len (Ok (WriteTo r)) s' ∧ blocks s' !! r = Some (block_new time).
Proof.
  intros Hrep Ht Hnone Hid.
  destruct (start_new_block_rep cfg Hprimary s a time (max_block_size st) Hrep) as
    (r & s' & E & Hrep' & Hh & Hs & Hrc);
    [congruence|by eapply rep_read_new|done|].
  exists r, s'. split_and!; [done| |].
  - unfold chosen. rewrite Ht. exists r. split_and!; try done. rewrite Hrc. by eapply rep_read_new.
  - destruct Hh as (b & Hb & Hr). rewrite lookup_insert_eq in Hb. congruence.
Qed.

Lemma home_none a time : home a time = None → ∀ i b, a !! i = Some b → time < i.
Proof.
  unfold home. intros Hn i b Hi. destruct (decide (i ≤ time)); [|lia].
  destruct (bt_last_is_Some (filter (λ i, i ≤ time) (dom a))) as [x Hx]; [|congruence].
  apply elem_of_dom_2 in Hi. intros Hemp. apply (not_elem_of_empty (C := gset Z) i).
  rewrite <-Hemp. by apply elem_of_filter.
Qed.

Lemma home_some a time id : home a time = Some id → is_Some (a !! id) ∧ id ≤ time.
Proof. intros [[? ?%elem_of_dom]%elem_of_filter _]%bt_last_spec. done. Qed.

Lemma first_above a time first :
  bt_first (dom a) = Some first → (first > time ↔ home a time = None).
Proof.
  intros Hf%bt_first_spec. destruct Hf as [[b Hb]%elem_of_dom Hmin]. split.
  - intros Hgt. destruct (home a time) as [id|] eqn:E; [|done].
    apply home_some in E as [Hid Hle]. specialize (Hmin id ltac:(by apply elem_of_dom)). lia.
  - intros Hn. pose proof (home_none a time Hn first b Hb). lia.
Qed.

Lemma find_block_rep s a time id b :
  rep cfg [] s a → home a time = Some id → a !! id = Some b →
  ∃ r s', find_block cfg time s = (Ok r, s') ∧ rep cfg [] s' a ∧ holds s' a id r ∧ sole cfg s' id r.
Proof.
  intros Hrep Hhome Hb. unfold find_block. rewrite (st_bind_ok _ _ s s s) by done.
  rewrite (st_bind_ok _ _ s id s).
  - destruct (load_block_rep cfg s a id b Hrep Hb) as (r & s' & E & ? & ? & ? & _). by exists r, s'.
  - unfold st_lift. rewrite find_block_id_greatest, (active_tree_rep cfg [] s a Hrep).
    fold (home a time). by rewrite Hhome.
Qed.

Lemma deref_holds s a id r b : holds s a id r → a !! id = Some b → deref r s = (Ok b, s).
Proof. intros (b0 & Hb0 & Hr) Hb. unfold deref. rewrite Hr. simpl. congruence. Qed.

Lemma belated_case s a st time len r last b :
  rep cfg [] s a → is_u64 time → bt_last (dom a) = Some last → a !! last = Some b → belated b time →
  ∃ o s', (s ← st_get;
     first ← st_lift (unwrap (bt_first (active_tree (block_index s))));
     if decide (first > time) then
       r' ← start_new_block cfg time (max_block_size st); mret (WriteTo r')
     else
       r' ← find_block cfg time;
       b' ← deref r';
       _ ← decompress_block cfg (block_id b');
       match get_record b' time with
       | Some rec =>
           if decide (r_state rec ≠ state_i32 Errored ∨ rec_len rec ≠ len)
           then st_throw Conflict
           else mret (Overwrite r' rec)
       | None => mret (WriteTo r')
       end) s = (o, s') ∧ chosen a time len o s'.
Proof.
  intros Hrep Ht Hlast Hb Hbel.
  assert (target a time = home a time) as Htg
    by (unfold target; rewrite Hlast, Hb; by rewrite decide_True).
  rewrite (st_bind_ok _ _ s s s) by done. rewrite (active_tree_rep cfg [] s a Hrep).
  destruct (bt_first_is_Some (dom a)) as [first Hfirst].
  { intros Hemp. apply elem_of_dom_2 in Hb. rewrite Hemp in Hb. set_solver. }
  rewrite (st_bind_ok _ _ s first s) by (unfold st_lift; by rewrite Hfirst).
  pose proof (first_above a time first Hfirst) as Hfa. case_decide as Hgt.
  - assert (a !! time = None) as Hnone.
    { destruct (a !! time) as [b0|] eqn:E; [|done].
      pose proof (home_none a time (proj1 Hfa Hgt) time b0 E). lia. }
    destruct (choose_new s a st time len Hrep) as (r1 & s1 & E1 & Hch & _);
      [rewrite Htg; by apply Hfa|done|done|].
    do 2 eexists. st_step E1. done.
  - destruct (home a time) as [id|] eqn:Eh; [|by exfalso; apply Hgt, Hfa].
    destruct (home_some a time id Eh) as [[b1 Hb1] _].
    destruct (find_block_rep s a time id b1 Hrep Eh Hb1) as (r1 & s1 & E1 & Hrep1 & Hh1 & Hs1).
    st_step E1. rewrite (st_bind_ok _ _ _ _ _ (deref_holds s1 a id r1 b1 Hh1 Hb1)).
    rewrite (st_bind_ok _ _ _ _ _ (decompress_block_spec cfg s1 a (block_id b1) Hrep1)).
    eexists _, s1. split.
    + instantiate (1 := match get_record b1 time with
        | None => Ok (WriteTo r1)
        | Some rec =>
            if decide (r_state rec ≠ state_i32 Errored ∨ rec_len rec ≠ len) then Err Conflict
            else Ok (Overwrite r1 rec)
        end). destruct (get_record b1 time); [by case_decide|done].
    + unfold chosen. rewrite Htg. by exists b1, r1.
Qed.

Lemma choose_block_rep s a st time len :
  rep cfg [] s a → is_u64 time →
  ∃ o s', choose_block cfg st time len s = (o, s') ∧ chosen a time len o s'.
Proof.
  intros Hrep Ht. unfold choose_block. rewrite (st_bind_ok _ _ s s s) by done.
  rewrite (active_tree_rep cfg [] s a Hrep).
  destruct (bt_last (dom a)) as [last|] eqn:Hlast.
  - pose proof Hlast as [[b Hb]%elem_of_dom _]%bt_last_spec.
    destruct (load_block_rep cfg s a last b Hrep Hb) as (r & s1 & E1 & Hrep1 & Hh1 & Hs1 & _).
    rewrite (st_bind_ok _ _ s r s1)
      by (by rewrite (st_bind_ok _ _ _ _ _ (decompress_block_spec cfg s a last Hrep))).
    rewrite (st_bind_ok _ _ _ _ _ (deref_holds s1 a last r b Hh1 Hb)).
    fold (belated b time). case_decide as Hbel.
    + by apply (belated_case s1 a st time len r last b).
    + eexists _, s1. split; [reflexivity|]. unfold chosen, target. rewrite Hlast, Hb.
      rewrite decide_False by done. exists b, r. split_and!; try done.
      by rewrite (not_belated_fresh last b time (rep_blocks _ _ _ _ Hrep last b Hb) Hbel).
  - assert (a = ∅) as ->.
    { apply dom_empty_inv_L. destruct (decide (dom a = ∅)) as [?|Hne]; [done|].
      apply bt_last_is_Some in Hne as [x Hx]. congruence. }
    destruct (choose_new s ∅ st time len Hrep) as (r & s1 & E1 & Hch & Hr);
      [by unfold target; rewrite Hlast|done|done|].
    rewrite (st_bind_ok _ _ _ _ _ E1).
    rewrite (st_bind_ok _ (deref r) s1 (block_new time) s1) by (unfold deref; by rewrite Hr).
    rewrite decide_False by (intros [Hgt _]; simpl in Hgt; lia). by eexists _, s1.
Qed.

(** ** The write as a whole *)

Lemma insert_place_new a time len ct labels :
  place_new (<[time := block_new time]> a) time len ct labels = place_new a time len ct labels.
Proof.
  unfold place_new, place. rewrite insert_insert_eq.
  by destruct (insert_or_update_record _ _) as [b'| |].
Qed.

Lemma begin_write_rep s a st time len ct (labels : gmap string string) :
  rep cfg [] s a → write_ok st time len ct (labels_to_proto labels) a →
  agrees time len s (begin_write cfg st time len ct labels s)
    (abs_begin_write st time len ct (labels_to_proto labels) a).
Proof.
  intros Hrep [Ht Hlen Hl Hct Hroom Hnew].
  destruct (choose_block_rep s a st time len Hrep Ht) as (o & s1 & E & Hch).
  unfold begin_write, abs_begin_write. unfold chosen in Hch.
  destruct (target a time) as [id|] eqn:Etg.
  - destruct Hch as (b & r & Hb & Hrep1 & Hh1 & Hs1 & ->). rewrite Hb.
    destruct (Hroom id b Hb) as [Hr1 Hr2].
    destruct (get_record b time) as [rec|] eqn:Erec.
    + case_decide as Hd; [by rewrite (st_bind_err _ _ _ _ _ E)|].
      rewrite (st_bind_ok _ _ _ _ _ E). apply (overwrite_rep s1 a id r b time len rec ct labels); try done.
      destruct (decide (rec_len rec = len)); [done|]. exfalso. apply Hd. by right.
    + rewrite (st_bind_ok _ _ _ _ _ E).
      apply (write_to_rep s1 a id r b st time len ct labels); try done.
      intros Hf. assert (a !! time = None) as Hn by by apply (Hnew id b).
      split; [congruence|]. by apply (rep_read_new cfg s1 a).
  - destruct Hch as (r & -> & Hrep1 & Hh1 & Hs1 & Hrc1). rewrite (st_bind_ok _ _ _ _ _ E).
    pose proof (write_to_rep s1 (<[time := block_new time]> a) time r (block_new time) st time len ct labels
      Hrep1 Hh1 Hs1 (lookup_insert_eq _ _ _) Ht Hlen) as Hw.
    rewrite insert_place_new in Hw.
    assert (place_new a time len ct (labels_to_proto labels) =
      (if decide (full st len (block_new time)) then place_new a time len ct (labels_to_proto labels)
       else place (<[time := block_new time]> a) time (block_new time)
              (new_record time len ct (labels_to_proto labels) (block_new time)))) as ->
      by by case_decide.
    apply Hw; try done; try (simpl; u64_lia).
    intros _. split; [|done]. intros b'. rewrite lookup_insert_eq. congruence.
Qed.

(** C4: [begin_write] implements the abstract write: it picks the last block for
    a new latest timestamp, otherwise the block whose span contains it, starts
    a block when the timestamp precedes them all or the block has no room,
    refuses a timestamp that is taken unless the record failed and has the same
    length, and reserves the next [len] bytes of the block's data file for the
    record; the caches and files change nothing else about the blocks.  This is
    for the entry of a primary with blocks that are neither compressed nor marked
    as corrupted, sizes and counts that stay below [2^64], texts that are UTF-8,
    and a request that does not start a block under the id of another one.  The
    last condition fails when the first record of a full block was removed and is
    written again; then the code replaces the block ([reused_id_loses_records]). *)
Theorem begin_write_refines s a st time len ct (labels : gmap string string) :
  rep cfg [] s a → write_ok st time len ct (labels_to_proto labels) a →
  let o := begin_write cfg st time len ct labels s in
  let p := abs_begin_write st time len ct (labels_to_proto labels) a in
  o.1 = ctx_of time len <$> p.1 ∧ rep cfg [] o.2 p.2.
Proof. apply begin_write_rep. Qed.

(** ** What readers find *)

(** The record found for a timestamp, as [begin_read] looks it up. *)
Definition lookup_record a (time : Z) : option Rec :=
  id ← home a time; b ← a !! id; get_record b time.

(** No block of the map starts after one of its own records. *)
Definition spans_ok a : Prop :=
  map_Forall (λ id b, ∀ t rec, get_record b t = Some rec → id ≤ t) a.

Lemma home_intro a time id b :
  a !! id = Some b → id ≤ time → (∀ i b', a !! i = Some b' → i ≤ time → i ≤ id) → home a time = Some id.
Proof.
  intros Hb Hle Hmax. apply bt_last_unique.
  - apply elem_of_filter. split; [done|]. by apply elem_of_dom_2 in Hb.
  - intros y [Hy [b' Hb']%elem_of_dom]%elem_of_filter. by apply (Hmax y b').
Qed.

Lemma home_max a time id : home a time = Some id → ∀ i b', a !! i = Some b' → i ≤ time → i ≤ id.
Proof.
  intros [_ Hm]%bt_last_spec i b' Hi Hle. apply Hm, elem_of_filter. split; [done|].
  by apply elem_of_dom_2 in Hi.
Qed.

Lemma target_home a time id :
  spans_ok a → (∀ i b, a !! i = Some b → record_count b > 0 ∧ block_ok i b) →
  target a time = Some id → home a time = Some id.
Proof.
  intros Hsp Hne. unfold target. destruct (bt_last (dom a)) as [last|] eqn:Hlast; [|done].
  pose proof Hlast as [[b Hb]%elem_of_dom Hmax]%bt_last_spec. rewrite Hb. case_decide as Hbel; [done|].
  intros [= <-]. destruct (Hne last b Hb) as [Hc (Hwf & _)].
  destruct (latest_record_time_elem b) as [rec Hrec].
  { intros Hemp. rewrite (wf_count b Hwf), Hemp, map_size_empty in Hc. simpl in Hc. lia. }
  pose proof (Hsp last b Hb _ rec Hrec) as Hle.
  apply (home_intro a time last b Hb).
  - destruct (decide (latest_record_time b >= time)); [exfalso; by apply Hbel|]. lia.
  - intros i b' Hi _. apply Hmax. by apply elem_of_dom_2 in Hi.
Qed.

Lemma place_lookup a id b rec x a' time :
  place a id b rec = (Ok x, a') → block_wf b → fits b rec → rec_time rec = Ok time →
  x = (id, rec) ∧ ∃ b', a' = <[id := b']> a ∧ block_wf b' ∧ block_id b' = block_id b ∧
    record_index b' = <[time := rec]> (record_index b).
Proof.
  unfold place. intros Hp Hwf Hfit Hk.
  destruct (insert_or_update_record_spec b rec time Hwf Hk Hfit) as (b' & E & Hwf' & Hid' & Hix & _).
  rewrite E in Hp. injection Hp as <- <-. split; [done|]. by exists b'.
Qed.

Lemma home_same_dom a a' t : dom a = dom a' → home a t = home a' t.
Proof. intros E. unfold home. by rewrite E. Qed.

(** The map of an entry whose blocks have records, none before its block's id. *)
Definition entry_ok a : Prop :=
  spans_ok a ∧ map_Forall block_ok a ∧ map_Forall (λ _ b, record_count b > 0) a.

(** Where the abstract write puts the record: in the home block of the
    timestamp, or in a block of its own. *)
Lemma abs_write_cases st time len ct labels a x a' :
  entry_ok a → write_ok st time len ct labels a →
  abs_begin_write st time len ct labels a = (Ok x, a') →
  ∃ id b b' rec, x = (id, rec) ∧ a' = <[id := b']> a ∧ block_ok id b ∧
    record_index b' = <[time := rec]> (record_index b) ∧ block_wf b' ∧ block_id b' = id ∧
    ((home a time = Some id ∧ a !! id = Some b) ∨
     (id = time ∧ b = block_new time ∧ a !! time = None)).
Proof.
  intros (Hsp & Hok & Hne) [Ht Hlen Hl Hct Hroom Hnew].
  assert (∀ x a', place_new a time len ct labels = (Ok x, a') → a !! time = None →
    ∃ id b b' rec, x = (id, rec) ∧ a' = <[id := b']> a ∧ block_ok id b ∧
    record_index b' = <[time := rec]> (record_index b) ∧ block_wf b' ∧ block_id b' = id ∧
    ((home a time = Some id ∧ a !! id = Some b) ∨
     (id = time ∧ b = block_new time ∧ a !! time = None))) as Hpn.
  { intros x0 a0 Hp Hn. unfold place_new in Hp.
    pose proof (new_block_fits time len ct labels Ht Hlen Hl Hct) as Hfit.
    apply place_lookup with (time := time) in Hp as (-> & b' & -> & Hwf' & Hid' & Hix);
      [|by apply block_new_wf|done|by apply rec_time_new].
    exists time, (block_new time), b'. eexists. rewrite insert_insert_eq.
    split_and!; first [done|by right]. }
  unfold abs_begin_write. destruct (target a time) as [id|] eqn:Etg.
  - assert (home a time = Some id) as Hhome.
    { apply (target_home a time id Hsp); [|done]. intros i b Hi. split; [by apply (Hne i)|by apply Hok]. }
    destruct (home_some a time id Hhome) as [[b Hb] _]. rewrite Hb.
    destruct (Hok id b Hb) as (Hwf & Hid & Hv). destruct (Hroom id b Hb) as [Hr1 Hr2].
    destruct (get_record b time) as [rec|] eqn:Erec.
    + case_decide as Hd; [done|]. intros Hp.
      pose proof (wf_records b Hwf time rec Erec) as [Hrr1 Hrr2].
      apply place_lookup with (time := time) in Hp as (-> & b' & -> & Hwf' & Hid' & Hix);
        [|done| |exact (wf_keys b Hwf time rec Erec)].
      * exists id, b, b'. eexists. split_and!; try done; [congruence|by left].
      * assert (rec_len rec = len) as Hll by (destruct (decide (rec_len rec = len)); [done|exfalso; auto]).
        rewrite rec_len_exact in Hll by done. unfold fits, restarted; cbn [r_begin r_end].
        split_and!; try done; lia.
    + case_decide as Hf; intros Hp; [apply Hpn; [done|by apply (Hnew id b)]|].
      destruct (new_record_fits id b time len ct labels) as [_ Hfit]; try done; [lia|].
      apply place_lookup with (time := time) in Hp as (-> & b' & -> & Hwf' & Hid' & Hix);
        [|done|done|by apply rec_time_new].
      exists id, b, b'. eexists. split_and!; try done; [congruence|by left].
  - intros Hp. apply Hpn; [done|]. destruct (a !! time) as [b0|] eqn:E0; [|done]. exfalso.
    unfold target in Etg. destruct (bt_last (dom a)) as [last|] eqn:Hlast.
    + pose proof Hlast as [[b Hb]%elem_of_dom _]%bt_last_spec. rewrite Hb in Etg.
      case_decide; [|done]. pose proof (home_none a time Etg time b0 E0). lia.
    + apply elem_of_dom_2 in E0. destruct (bt_last_is_Some (dom a)) as [y Hy]; [|congruence].
      intros Hemp. rewrite Hemp in E0. by apply not_elem_of_empty in E0.
Qed.

(** A record is found where it was written: after a successful write the
    lookup a reader performs finds exactly the record that was stored, and the
    entry's blocks still start no later than their records. *)
Theorem written_record_is_found st time len ct labels a x a' :
  entry_ok a → write_ok st time len ct labels a →
  abs_begin_write st time len ct labels a = (Ok x, a') →
  lookup_record a' time = Some x.2 ∧ spans_ok a'.
Proof.
  intros Hok Hwo Hw. destruct (abs_write_cases st time len ct labels a x a' Hok Hwo Hw)
    as (id & b & b' & rec & -> & -> & (Hwf & Hid & Hv) & Hix & Hwf' & Hid' & Hcase).
  assert (id ≤ time) as Hle by (destruct Hcase as [[Hh _]|(-> & _)]; [by apply home_some in Hh as [_ ?]|lia]).
  split.
  - unfold lookup_record. rewrite (home_intro _ time id b'); simpl.
    + rewrite lookup_insert_eq. simpl. unfold get_record. by rewrite Hix, lookup_insert_eq.
    + apply lookup_insert_eq.
    + done.
    + intros i b1 Hi Hile. rewrite lookup_insert in Hi. case_decide as Hd; [lia|].
      destruct Hcase as [[Hh _]|(-> & _)]; [by eapply home_max|lia].
  - destruct Hok as (Hsp & _). apply map_Forall_insert_2; [|done].
    intros t r'. unfold get_record. rewrite Hix, lookup_insert. case_decide as Hd; [by subst t|].
    destruct Hcase as [[_ Hb]|(-> & -> & _)]; [by apply (Hsp id b Hb)|done].
Qed.

(** Replacing a block of the map by one with one more record. *)
Lemma lookup_after_insert a id b b' rec time t :
  a !! id = Some b → record_index b' = <[time := rec]> (record_index b) → t ≠ time →
  lookup_record (<[id := b']> a) t = lookup_record a t.
Proof.
  intros Hb Hix Hne. unfold lookup_record.
  rewrite (home_same_dom (<[id := b']> a) a t)
    by (by apply dom_insert_lookup_L).
  destruct (home a t) as [i|]; simpl; [|done].
  rewrite lookup_insert. case_decide as Hd; [subst i|done]. rewrite Hb. simpl.
  unfold get_record. rewrite Hix. by rewrite lookup_insert_ne.
Qed.

(** A new block takes over the timestamps from its id on, up to the next block. *)
Definition takes_over a (time t : Z) : bool :=
  (time <=? t) && match home a t with Some i => i <? time | None => true end.

Lemma takes_over_true a time t :
  takes_over a time t = true ↔ time ≤ t ∧ ∀ i, home a t = Some i → i < time.
Proof.
  unfold takes_over. rewrite andb_true_iff, Z.leb_le. destruct (home a t) as [i|]; [|naive_solver].
  rewrite Z.ltb_lt. naive_solver.
Qed.

Lemma home_after_new a time b' t :
  a !! time = None →
  home (<[time := b']> a) t = if takes_over a time t then Some time else home a t.
Proof.
  intros Hnone. destruct (takes_over a time t) eqn:Hd;
    [apply takes_over_true in Hd|rewrite <-not_true_iff_false, takes_over_true in Hd].
  - destruct Hd as [Hle Hlt]. apply (home_intro _ t time b'); [apply lookup_insert_eq|done|].
    intros j bj Hj Hjle. rewrite lookup_insert in Hj. case_decide; [lia|].
    destruct (home a t) as [i|] eqn:E.
    + pose proof (home_max a t i E j bj Hj Hjle). specialize (Hlt i eq_refl). lia.
    + pose proof (home_none a t E j bj Hj). lia.
  - destruct (home a t) as [i|] eqn:E.
    + destruct (home_some a t i E) as [[bi Hbi] Hile]. assert (i ≠ time) as Hin by congruence.
      apply (home_intro _ t i bi); [by rewrite lookup_insert_ne by done|done|].
      intros j bj Hj Hjle. rewrite lookup_insert in Hj. case_decide as Hjt; [|by eapply home_max].
      subst j. destruct (decide (time ≤ i)); [done|]. exfalso. apply Hd. split; [done|].
      intros i' [= <-]. lia.
    + assert (¬ time ≤ t) as Hgt by (intros ?; apply Hd; split; [done|congruence]).
      unfold home in *. rewrite <-E. f_equal. apply set_eq. intros i.
      rewrite !elem_of_filter, dom_insert_L, elem_of_union, elem_of_singleton.
      split; [intros [? [->|?]]; [lia|done]|]. intros [? ?]. auto.
Qed.

Lemma lookup_after_new a time b' rec t :
  a !! time = None → record_index b' = {[time := rec]} → t ≠ time →
  (∀ i b t' rec, a !! i = Some b → i < time → get_record b t' = Some rec → t' < time) →
  lookup_record (<[time := b']> a) t = lookup_record a t.
Proof.
  intros Hnone Hix Hne Hsafe. unfold lookup_record. rewrite home_after_new by done.
  destruct (takes_over a time t) eqn:Hd;
    [apply takes_over_true in Hd|rewrite <-not_true_iff_false, takes_over_true in Hd].
  - destruct Hd as [Hle Hlt]. simpl. rewrite lookup_insert_eq. simpl. unfold get_record at 1.
    rewrite Hix, lookup_singleton_ne by done.
    destruct (home a t) as [i|] eqn:E; simpl; [|done]. destruct (a !! i) as [bi|] eqn:Ei; simpl; [|done].
    destruct (get_record bi t) as [ri|] eqn:Er; [|done].
    specialize (Hsafe i bi t ri Ei (Hlt i eq_refl) Er). lia.
  - destruct (home a t) as [i|] eqn:E; simpl; [|done]. rewrite lookup_insert_ne; [done|].
    intros <-. apply home_some in E as [[? ?] _]. congruence.
Qed.

(** A write leaves the other records alone: every record of another
    timestamp is still found, unchanged, after the write, as long as the write
    does not start a block in front of later records of an earlier block. *)
Theorem write_keeps_other_records st time len ct labels a x a' t :
  entry_ok a → write_ok st time len ct labels a →
  abs_begin_write st time len ct labels a = (Ok x, a') →
  (dom a' = dom a ∨
   ∀ i b t' rec, a !! i = Some b → i < time → get_record b t' = Some rec → t' < time) →
  t ≠ time → lookup_record a' t = lookup_record a t.
Proof.
  intros Hok Hwo Hw Hsafe Hne. destruct (abs_write_cases st time len ct labels a x a' Hok Hwo Hw)
    as (id & b & b' & rec & -> & -> & (Hwf & Hid & Hv) & Hix & Hwf' & Hid' & Hcase).
  destruct Hcase as [[Hh Hb]|(-> & -> & Hnone)]; [by eapply lookup_after_insert|].
  destruct Hsafe as [Hdom|Hsafe]; [|by apply (lookup_after_new a time b' rec)].
  rewrite dom_insert_L in Hdom. exfalso. assert (time ∈ dom a) as Hin
    by (rewrite <-Hdom; by apply elem_of_union_l, elem_of_singleton).
  apply elem_of_dom in Hin as [? ?]. congruence.
Qed.

(** A belated record can hide others: when the block whose span contains the
    timestamp has no room, the record gets a block of its own, and every later
    record of the old block, which was found before the write, is not found any
    more: its timestamp now belongs to the new block. *)
Theorem belated_write_hides_records st time len ct labels a id b t rec :
  entry_ok a → write_ok st time len ct labels a →
  target a time = Some id → a !! id = Some b → get_record b time = None → full st len b →
  time < t → home a t = Some id → get_record b t = Some rec →
  lookup_record a t = Some rec ∧
  ∃ x a', abs_begin_write st time len ct labels a = (Ok x, a') ∧ lookup_record a' t = None.
Proof.
  intros (Hsp & Hok & Hcnt) Hwo Htg Hb Hrec Hf Hlt Hh Hr. split.
  { unfold lookup_record. rewrite Hh. simpl. rewrite Hb. done. }
  pose proof Hwo as [Ht Hlen Hl Hct Hroom Hnew]. pose proof (Hnew id b Htg Hb Hrec Hf) as Hnone.
  unfold abs_begin_write. rewrite Htg, Hb, Hrec, decide_True by done. unfold place_new, place.
  pose proof (new_block_fits time len ct labels Ht Hlen Hl Hct) as Hfit.
  destruct (insert_or_update_record_spec (block_new time) _ time (block_new_wf time Ht)
    (rec_time_new time len ct labels (block_new time) Ht) Hfit) as (b' & E & _ & _ & Hix & _).
  rewrite E. do 2 eexists. split; [done|]. rewrite insert_insert_eq.
  unfold lookup_record. rewrite home_after_new by done.
  destruct (takes_over a time t) eqn:Hd;
    [clear Hd|rewrite <-not_true_iff_false, takes_over_true in Hd].
  - simpl. rewrite lookup_insert_eq. simpl. unfold get_record. rewrite Hix.
    by rewrite lookup_insert_ne by lia.
  - exfalso. apply Hd. split; [lia|]. intros i [= <-]%(λ x, eq_trans (eq_sym Hh) x).
    destruct (decide (id < time)) as [?|Hge]; [done|].
    assert (home a time = Some id) as Hht.
    { apply (target_home a time id Hsp); [|done]. intros j bj Hj. split; [by apply (Hcnt j)|by apply Hok]. }
    apply home_some in Hht as [_ ?]. assert (id = time) as -> by lia. congruence.
Qed.

(** ** Reading *)

Definition abs_begin_read a (fs : gmap path (list Z)) (time : Z) : outcome RecordReader :=
  match home a time with
  | None => Err NotFound
  | Some id =>
      match a !! id ≫= λ b, get_record b time with
      | None => Err NotFound
      | Some rec =>
          if decide (r_state rec = state_i32 Started) then Err TooEarly
          else if decide (r_state rec = state_i32 Errored) then Err InternalServerError
          else if decide (rec_len rec > 0) then
            (if decide (is_Some (fs !! Data id))
             then Ok (mkReader (Some (Data id)) (r_begin rec) (rec_len rec) 0) else Err NotFound)
          else Ok (mkReader None (r_begin rec) (rec_len rec) 0)
      end
  end.

Lemma reader_try_new_rep s a id r b time rec :
  rep cfg [] s a → holds s a id r → a !! id = Some b → get_record b time = Some rec →
  reader_try_new cfg r time s =
    (if decide (rec_len rec > 0) then
       (if decide (is_Some (files s !! Data id))
        then Ok (mkReader (Some (Data id)) (r_begin rec) (rec_len rec) 0) else Err NotFound)
     else Ok (mkReader None (r_begin rec) (rec_len rec) 0), s).
Proof.
  intros Hrep Hh Hb Hrec. destruct (rep_blocks _ _ _ _ Hrep id b Hb) as (_ & Hid & _).
  unfold reader_try_new. rewrite (st_bind_ok _ _ _ _ _ (deref_holds s a id r b Hh Hb)).
  rewrite (st_bind_ok _ _ s (Data id, r_begin rec) s).
  2:{ unfold begin_read_record, resolve_data_path. rewrite (st_bind_ok _ _ s (Data id) s).
      - rewrite (st_bind_ok _ _ s rec s) by (unfold st_lift; by rewrite Hrec). done.
      - rewrite (st_bind_ok _ _ s s s) by done. rewrite Hid.
        by rewrite (not_compressed cfg [] s a id Hrep). }
  rewrite (st_bind_ok _ _ s rec s) by (unfold st_lift; by rewrite Hrec).
  case_decide; [|done]. cbn [fst snd].
  rewrite (st_bind_ok _ _ s (bool_decide (is_Some (files s !! Data id))) s) by done.
  case_decide as Hex; [by rewrite bool_decide_true by done|].
  rewrite bool_decide_false by done. by rewrite Hprimary.
Qed.

(** Looking the record up: from a cached block, or through [find_block]. *)
Definition locate (time : Z) : ST BM (Z * Rec) :=
  hit ← find_cached_block cfg time;
  match hit with
  | Some r =>
      b ← deref r;
      match get_record b time with
      | Some rec => mret (r, rec)
      | None => find_record_for_read cfg time
      end
  | None => find_record_for_read cfg time
  end.

Lemma find_record_rep s a time id b :
  rep cfg [] s a → home a time = Some id → a !! id = Some b →
  ∃ r s', find_record_for_read cfg time s = ((r,.) <$> ok_or NotFound (get_record b time), s') ∧
    rep cfg [] s' a ∧ holds s' a id r ∧ files s' = files s.
Proof.
  intros Hrep Hh Hb. unfold find_record_for_read, find_block.
  destruct (load_block_rep cfg s a id b Hrep Hb) as (r & s1 & E & Hrep1 & Hh1 & _ & Hf & _).
  exists r, s1. split_and!; try done.
  rewrite (st_bind_ok _ _ s r s1).
  - rewrite (st_bind_ok _ _ _ _ _ (deref_holds s1 a id r b Hh1 Hb)).
    unfold mbind, ST_bind, st_lift. by destruct (get_record b time).
  - rewrite (st_bind_ok _ _ s s s) by done. rewrite (st_bind_ok _ _ s id s); [done|].
    unfold st_lift. rewrite find_block_id_greatest, (active_tree_rep cfg [] s a Hrep).
    fold (home a time). by rewrite Hh.
Qed.

Lemma locate_rep s a time id b :
  rep cfg [] s a → home a time = Some id → a !! id = Some b →
  ∃ r s', locate time s = ((r,.) <$> ok_or NotFound (get_record b time), s') ∧
    rep cfg [] s' a ∧ holds s' a id r ∧ files s' = files s.
Proof.
  intros Hrep Hh Hb. unfold locate, find_cached_block.
  destruct (get_read_spec cfg id s) as (s1 & E & He).
  pose proof (rep_equiv cfg _ _ _ _ He Hrep) as Hrep1.
  rewrite (st_bind_ok _ _ s (match cached (write_cache s) !! id with
         | Some r => Some r | None => cached (read_cache s) !! read_key cfg id end) s1).
  2:{ rewrite (st_bind_ok _ _ s s s) by done.
      rewrite find_block_id_greatest, (active_tree_rep cfg [] s a Hrep). fold (home a time). by rewrite Hh. }
  assert (∀ r, match cached (write_cache s) !! id with
         | Some r => Some r | None => cached (read_cache s) !! read_key cfg id end = Some r → holds s1 a id r) as Hcur.
  { intros r. rewrite <-(eq_write _ _ He), <-(eq_read _ _ He).
    destruct (cached (write_cache s1) !! id) eqn:Ew; [intros [= <-]; by apply (rep_write _ _ _ _ Hrep1)|].
    intros Hr. by apply (rep_read _ _ _ _ Hrep1). }
  destruct (find_record_rep s1 a time id b Hrep1 Hh Hb) as (r2 & s2 & E2 & Hrep2 & Hh2 & Hf2).
  rewrite (eq_files _ _ He) in Hf2.
  destruct (match cached (write_cache s) !! id with
         | Some r => Some r | None => cached (read_cache s) !! read_key cfg id end) as [r|]; [|by exists r2, s2].
  rewrite (st_bind_ok _ _ _ _ _ (deref_holds s1 a id r b (Hcur r eq_refl) Hb)).
  destruct (get_record b time) as [rec|]; [|by exists r2, s2].
  exists r, s1. split_and!; first [done|by apply Hcur|apply He].
Qed.

(** C5: [begin_read] reads the map, on a primary whose blocks are neither compressed nor
    marked as corrupted: it finds the record of a timestamp in the
    block whose span contains it, from whichever cache or file has the block;
    it answers [NotFound] when there is none, [TooEarly] while the record is
    being written, and an internal error for a record whose write failed;
    otherwise the reader is placed on exactly the record's region. *)
Theorem begin_read_refines s a time :
  rep cfg [] s a →
  (begin_read cfg time s).1 = abs_begin_read a (files s) time ∧ rep cfg [] (begin_read cfg time s).2 a.
Proof.
  intros Hrep.
  assert (begin_read cfg time s = (br ← locate time;
    if decide (r_state br.2 = state_i32 Started) then st_throw TooEarly
    else if decide (r_state br.2 = state_i32 Errored) then st_throw InternalServerError
    else reader_try_new cfg br.1 time) s) as ->.
  { unfold begin_read, locate. unfold mbind, ST_bind.
    destruct (find_cached_block cfg time s) as [[[r|]| |] s1]; try done. }
  unfold abs_begin_read. destruct (home a time) as [id|] eqn:Hh.
  - destruct (home_some a time id Hh) as [[b Hb] _]. rewrite Hb. cbn [mbind option_bind].
    destruct (locate_rep s a time id b Hrep Hh Hb) as (r & s1 & E & Hrep1 & Hh1 & Hf).
    destruct (get_record b time) as [rec|] eqn:Hrec; [|by rewrite (st_bind_err _ _ _ _ _ E)].
    rewrite (st_bind_ok _ _ _ _ _ E). cbn [fst snd].
    case_decide; [done|]. case_decide; [done|].
    rewrite (reader_try_new_rep s1 a id r b time rec Hrep1 Hh1 Hb Hrec), Hf. done.
  - rewrite (st_bind_err _ _ s NotFound s); [done|].
    assert (find_block_id time (block_index s) = Err NotFound) as Hnf.
    { rewrite find_block_id_greatest, (active_tree_rep cfg [] s a Hrep). fold (home a time). by rewrite Hh. }
    unfold locate. rewrite (st_bind_ok _ _ s None s).
    + unfold find_record_for_read, find_block. apply st_bind_err.
      rewrite (st_bind_ok _ _ s s s) by done. apply st_bind_err. unfold st_lift. by rewrite Hnf.
    + unfold find_cached_block. rewrite (st_bind_ok _ _ s s s) by done. by rewrite Hnf.
Qed.

(** ** The version of a descriptor *)

Lemma index_save_total s :
  map_Forall (λ _ e, is_Some (be_latest_record_time e)) (index_info (block_index s)) →
  ∃ s', index_save s = (Ok tt, s') ∧ block_index s' = block_index s.
Proof.
  intros Hok. unfold index_save, save_bytes.
  destruct (entries_crc_bytes_ok (hash_iter (index_info (block_index s))).*2) as [bs ->].
  { apply Forall_fmap, Forall_forall. intros [k e] Hin%elem_of_hash_iter. by apply (Hok k e). }
  cbn [mbind outcome_bind]. by eexists.
Qed.

(** Marking a block of the index as corrupted. *)
Lemma mark_block_corrupted_spec s id e :
  map_Forall (λ _ e, is_Some (be_latest_record_time e)) (index_info (block_index s)) →
  index_info (block_index s) !! id = Some e →
  ∃ s', mark_block_corrupted cfg id s = (Ok tt, s') ∧ is_corrupted (block_index s') id = true.
Proof.
  intros Hlat He. unfold mark_block_corrupted. rewrite Hprimary.
  set (ix := mark_corrupted (block_index s) id).
  assert (map_Forall (λ _ e, is_Some (be_latest_record_time e)) (index_info ix)) as Hlat'.
  { intros k e' Hk. unfold ix, mark_corrupted in Hk; simpl in Hk.
    apply lookup_alter_Some in Hk as [(<- & e0 & H0' & ->)|[_ Hk]]; [by apply (Hlat id e0)|by apply (Hlat k)]. }
  rewrite (st_bind_ok _ _ s tt (set_index ix s)) by done.
  rewrite (st_bind_ok _ (block_cache_remove cfg id) _ tt (uncached cfg id (set_index ix s))) by done.
  rewrite (st_bind_ok _ _ _ (uncached cfg id (set_index ix s)) (uncached cfg id (set_index ix s))) by done.
  assert (∃ f', (match files (uncached cfg id (set_index ix s)) !! Desc id ≫= decode_block with
         | Some proto => fs_update (Desc id)
             (rewrite_file (encode_block (with_version proto (bp_version proto) (Some true))))
         | None => mret tt end) (uncached cfg id (set_index ix s))
       = (Ok tt, set_files f' (uncached cfg id (set_index ix s)))) as (f' & E).
  { destruct (files (uncached cfg id (set_index ix s)) !! Desc id ≫= decode_block) as [p|].
    - by eexists.
    - exists (files s). by destruct s. }
  rewrite (st_bind_ok _ _ _ _ _ E).
  destruct (index_save_total (set_files f' (uncached cfg id (set_index ix s)))) as (s' & Es & Hix); [done|].
  exists s'. split; [done|]. rewrite Hix. unfold uncached. bm_simpl.
  apply is_corrupted_mark. by exists e.
Qed.

(** A block whose descriptor does not have the CRC of the index and is not newer
    than the index knows is given up. *)
Lemma load_block_mismatch s a id b e v c p buf :
  rep cfg [] s a → a !! id = Some b → cached (write_cache s) !! id = None →
  cached (read_cache s) !! read_key cfg id = None →
  index_info (block_index s) !! id = Some e → be_crc64 e = Some c → be_version e = Some v →
  crc64 buf ≠ c → decode_block buf = Some p → default 0 (bp_version p) ≤ v →
  let s0 := set_files (<[Desc id := buf]> (files s)) s in
  (load_block cfg id s0).1 = Err InternalServerError ∧
  is_corrupted (block_index (load_block cfg id s0).2) id = true.
Proof.
  intros Hrep Hb Hw Hr He Hc Hv Hne Hdec Hver s0. unfold load_block.
  destruct (get_read_spec cfg id s0) as (s1 & E & Heq). unfold s0 in E at 2 3. bm_simpl.
  rewrite Hw, Hr in E. st_step E.
  assert (map_Forall (λ _ e, is_Some (be_latest_record_time e)) (index_info (block_index s1))) as Hlat.
  { rewrite (eq_index _ _ Heq). intros k e' Hk. by destruct (rep_entries _ _ _ _ Hrep k e' Hk). }
  destruct (mark_block_corrupted_spec s1 id e Hlat) as (s2 & E2 & Hcor).
  { by rewrite (eq_index _ _ Heq). }
  assert (block_is_compressed id s1 = false) as Hnc.
  { unfold block_is_compressed. rewrite (eq_index _ _ Heq). exact (not_compressed cfg [] s a id Hrep). }
  assert (load_from_disk cfg id s1 = (Err InternalServerError, s2)) as E3;
    [|by rewrite (st_bind_err _ _ _ _ _ E3)].
  unfold load_from_disk. rewrite (st_bind_ok _ _ s1 (Desc id) s1).
  2:{ unfold resolve_desc_path. rewrite (st_bind_ok _ _ s1 s1 s1) by done. by rewrite Hnc. }
  rewrite (st_bind_ok _ _ s1 s1 s1) by done.
  replace (files s1 !! Desc id) with (Some buf)
    by (rewrite (eq_files _ _ Heq); unfold s0; bm_simpl; by rewrite lookup_insert_eq).
  apply st_bind_err. unfold check_crc. rewrite (st_bind_ok _ _ s1 s1 s1) by done.
  replace (get_block (block_index s1) id) with (Some e)
    by (rewrite (eq_index _ _ Heq); unfold s0; bm_simpl; by rewrite <-He).
  rewrite Hc, decide_False by congruence. rewrite Hprimary, Hdec.
  rewrite decide_False by (rewrite Hv; simpl; lia). by rewrite (st_bind_ok _ _ _ _ _ E2).
Qed.

(** The version counter does not protect a block that was written again.
    Opening a writer replaces the block's summary and forgets its version, so
    the next save writes version 1 again.  If the process stops after that
    descriptor reached the disk and before the index did, the index on disk
    still has the old CRC and a version at least as high, and the restarted
    process takes the newer, intact descriptor for a damaged one: loading fails
    and the block is marked as corrupted. *)
Theorem rewritten_block_is_given_up s a s_old id b b' e v c buf :
  rep cfg [] s_old a → a !! id = Some b →
  cached (write_cache s_old) !! id = None → cached (read_cache s_old) !! read_key cfg id = None →
  index_info (block_index s_old) !! id = Some e → be_crc64 e = Some c → be_version e = Some v → 1 ≤ v →
  block_ok id b' →
  (let s1 := (index_put b' s).2 in buf = encode_block (desc_proto b' (next_version s1 id))) →
  crc64 buf ≠ c →
  let crashed := set_files (<[Desc id := buf]> (files s_old)) s_old in
  decode_block buf = Some (desc_proto b' 1) ∧
  (load_block cfg id crashed).1 = Err InternalServerError ∧
  is_corrupted (block_index (load_block cfg id crashed).2) id = true.
Proof.
  intros Hrep Hb Hw Hr He Hc Hv Hv1 Hok Hbuf Hne crashed. pose proof Hok as (Hwf' & Hid' & _).
  assert (decode_block buf = Some (desc_proto b' 1)) as Hdec.
  { rewrite Hbuf. replace (next_version (index_put b' s).2 id) with 1.
    - apply decode_encode_block. eapply desc_proto_valid; [exact Hok|u64_lia].
    - unfold next_version, get_block, index_put, insert_or_update, index_insert. simpl.
      rewrite Hid'. by rewrite lookup_insert_eq. }
  split; [done|].
  apply (load_block_mismatch s_old a id b e v c (desc_proto b' 1) buf); try done.
Qed.
End EntryRefine.

(** ** Witnesses *)
Section Witnesses.
Existing Instance std_order.
Existing Instance std_order_laws.
Existing Instance Toy.prost.
Existing Instance Toy.prost_laws.
Existing Instance Toy.digest.
Existing Instance Toy.digest_laws.
Existing Instance demo_zstd.
Existing Instance demo_clock.

Definition demo_settings : EntrySettings := mkEntrySettings 64 2.
Definition demo_labels : gmap string string := {["k" := "v"]}.
Definition demo_empty : BM := bm_build ∅ index_new ∅ demo_rc ∅ 0.

Lemma demo_empty_rep : rep demo_cfg [] demo_empty ∅.
Proof. apply rep_init; [exact demo_rc_foreign|done]. Qed.

Lemma demo_labels_valid : Forall label_valid (labels_to_proto demo_labels).
Proof.
  assert (labels_to_proto demo_labels = [mkLabel "k" "v"]) as -> by reflexivity. by repeat constructor.
Qed.

Lemma demo_write_ok : write_ok demo_settings 5 3 "text/plain" (labels_to_proto demo_labels) ∅.
Proof.
  split; try u64_lia; try done. exact demo_labels_valid.
Qed.

Lemma begin_write_refines_witness :
  (begin_write demo_cfg demo_settings 5 3 "text/plain" demo_labels demo_empty).1
    = Ok (mkWriteContext 5 5 (Data 5) 0 3).
Proof.
  destruct (begin_write_refines demo_cfg eq_refl demo_empty ∅ demo_settings 5 3 "text/plain" demo_labels
    demo_empty_rep demo_write_ok) as [Ho _].
  rewrite Ho. vm_compute. reflexivity.
Defined.

Lemma begin_read_refines_witness : (begin_read demo_cfg 5 demo_empty).1 = Err NotFound.
Proof.
  destruct (begin_read_refines demo_cfg eq_refl demo_empty ∅ 5 demo_empty_rep) as [Ho _].
  rewrite Ho. reflexivity.
Defined.

(** A full block with records at 0 and 1000. *)
Definition demo_full : Block :=
  mkBlock 0 9 2 (encoded_len (rec_at 0 0 7) + encoded_len (rec_at 1000 7 9))
    {[0 := rec_at 0 0 7; 1000 := rec_at 1000 7 9]}.

Lemma rec_at_valid t b e : is_u64 t → is_u64 b → is_u64 e → rec_valid (rec_at t b e).
Proof.
  intros Ht Hb He. split_and!; cbn [rec_at r_timestamp r_begin r_end r_state state_i32];
    try apply Hb; try apply He; try lia; try reflexivity.
  - intros ts [= <-]. by apply us_to_ts_valid.
  - by repeat constructor.
Qed.

Lemma demo_full_ok : block_ok 0 demo_full.
Proof.
  split_and!.
  - split; cbn [demo_full block_id size record_count metadata_size record_index].
    + u64_lia.
    + apply map_Forall_insert_2; [done|]. by apply map_Forall_singleton.
    + apply map_Forall_insert_2; [cbn; u64_lia|]. apply map_Forall_singleton. cbn. u64_lia.
    + reflexivity.
    + u64_lia.
    + reflexivity.
    + u64_lia.
    + split; vm_compute; congruence.
  - done.
  - apply map_Forall_insert_2; [apply rec_at_valid; u64_lia|].
    apply map_Forall_singleton. apply rec_at_valid; u64_lia.
Qed.

Definition demo_map : gmap Z Block := {[0 := demo_full]}.

Lemma demo_map_ok : entry_ok demo_map.
Proof.
  split_and!; apply map_Forall_singleton.
  - intros t rec Hrec. unfold get_record in Hrec. cbn [demo_full record_index] in Hrec.
    apply lookup_insert_Some in Hrec as [[<- _]|[_ [<- _]%lookup_singleton_Some]]; lia.
  - exact demo_full_ok.
  - cbn. lia.
Qed.

Lemma demo_map_write_ok (t : Z) : t = 500 ∨ t = 2000 →
  write_ok demo_settings t 3 "text/plain" (labels_to_proto demo_labels) demo_map.
Proof.
  intros Ht. split; try done; try (destruct Ht; subst; u64_lia).
  - exact demo_labels_valid.
  - unfold demo_map. intros id b [<- <-]%lookup_singleton_Some. cbn [demo_full size record_count]. u64_lia.
  - intros id b _ _ _ _. destruct Ht as [-> | ->]; reflexivity.
Qed.

Definition demo_new (t : Z) : Rec :=
  new_record t 3 "text/plain" (labels_to_proto demo_labels) (block_new t).

Definition demo_after (t : Z) : gmap Z Block :=
  (abs_begin_write demo_settings t 3 "text/plain" (labels_to_proto demo_labels) demo_map).2.

Lemma written_record_is_found_witness :
  entry_ok demo_map ∧ lookup_record (demo_after 2000) 2000 = Some (demo_new 2000).
Proof.
  split; [exact demo_map_ok|].
  destruct (written_record_is_found demo_settings 2000 3 "text/plain" (labels_to_proto demo_labels)
    demo_map (2000, demo_new 2000) (demo_after 2000) demo_map_ok (demo_map_write_ok 2000 (or_intror eq_refl)))
    as [Hl _]; [vm_compute; reflexivity|exact Hl].
Defined.

Lemma write_keeps_other_records_witness :
  lookup_record (demo_after 2000) 1000 = Some (rec_at 1000 7 9).
Proof.
  rewrite (write_keeps_other_records demo_settings 2000 3 "text/plain" (labels_to_proto demo_labels)
    demo_map (2000, demo_new 2000) (demo_after 2000) 1000 demo_map_ok
    (demo_map_write_ok 2000 (or_intror eq_refl))).
  - vm_compute. reflexivity.
  - vm_compute. reflexivity.
  - right. unfold demo_map. intros i b t' rec [<- <-]%lookup_singleton_Some _ Hrec. unfold get_record in Hrec.
    cbn [demo_full record_index] in Hrec.
    apply lookup_insert_Some in Hrec as [[<- _]|[_ [<- _]%lookup_singleton_Some]]; lia.
  - lia.
Defined.

Lemma belated_write_hides_records_witness :
  lookup_record demo_map 1000 = Some (rec_at 1000 7 9) ∧
  ∃ x a', abs_begin_write demo_settings 500 3 "text/plain" (labels_to_proto demo_labels) demo_map
            = (Ok x, a') ∧ lookup_record a' 1000 = None.
Proof.
  apply (belated_write_hides_records demo_settings 500 3 "text/plain" (labels_to_proto demo_labels)
    demo_map 0 demo_full 1000 (rec_at 1000 7 9) demo_map_ok (demo_map_write_ok 500 (or_introl eq_refl))).
  - vm_compute. reflexivity.
  - reflexivity.
  - reflexivity.
  - right. vm_compute. reflexivity.
  - lia.
  - vm_compute. reflexivity.
  - reflexivity.
Defined.

(** An entry with one saved block, restarted. *)
Definition demo_saved : BM := (run_all demo_cfg [OpStart 0 16; OpFlush] demo_empty).2.
Definition demo_restarted : BM :=
  bm_build (files demo_saved) (block_index demo_saved) ∅ demo_rc ∅ 0.

Lemma demo_restarted_rep : rep demo_cfg [] demo_restarted {[0 := block_new 0]}.
Proof.
  destruct (run_all_sim demo_cfg eq_refl [OpStart 0 16; OpFlush] demo_empty ∅ demo_empty_rep) as [_ Hrep].
  { cbn [ops_ok op_ok bm_spec snd]. split_and!; try exact I; [reflexivity|u64_lia]. }
  apply (restart_rep demo_cfg); [exact Hrep| |exact demo_rc_foreign|done].
  intros i b [<- <-]%lookup_singleton_Some.
  eexists _, 1, _. split_and!; [vm_compute; reflexivity|vm_compute; reflexivity|vm_compute; reflexivity|].
  right. vm_compute. reflexivity.
Qed.

Lemma rewritten_block_is_given_up_witness :
  let buf := encode_block (desc_proto demo_full 1) in
  let crashed := set_files (<[Desc 0 := buf]> (files demo_restarted)) demo_restarted in
  (load_block demo_cfg 0 crashed).1 = Err InternalServerError ∧
  is_corrupted (block_index (load_block demo_cfg 0 crashed).2) 0 = true.
Proof.
  destruct (index_info (block_index demo_restarted) !! 0) as [e|] eqn:He;
    [|vm_compute in He; discriminate He].
  destruct (be_crc64 e) as [c|] eqn:Hc; [|vm_compute in He; injection He as <-; discriminate Hc].
  assert (be_version e = Some 1) as Hv by (vm_compute in He; injection He as <-; reflexivity).
  apply (rewritten_block_is_given_up demo_cfg eq_refl demo_restarted {[0 := block_new 0]} demo_restarted
    0 (block_new 0) demo_full e 1 c (encode_block (desc_proto demo_full 1)) demo_restarted_rep).
  - reflexivity.
  - reflexivity.
  - reflexivity.
  - exact He.
  - exact Hc.
  - exact Hv.
  - lia.
  - exact demo_full_ok.
  - reflexivity.
  - vm_compute in He. injection He as <-. vm_compute in Hc. injection Hc as <-.
    apply Z.eqb_neq. vm_compute. reflexivity.
Defined.
End Witnesses.
