(* ===== verification/EntryLoader.v ===== *)
(** * EntryLoader: restoring an entry after a start
    (storage/entry/entry_loader.rs)

    An entry is restored from its index file or, when that cannot be used, from the
    descriptors of its blocks; then the changes of the write-ahead logs are applied
    and the logs removed, and the files are checked against the index. *)

From stdpp Require Import prelude gmap strings sorting fin_map_dom pretty.
From Stdlib Require Import ZArith Lia.
From S2P Require Import Prelude Bytes Collections Proto Block BlockIndex Wal Cache BlockManager.
Open Scope Z_scope.

(** [MinimalBlock::decode], generated by prost like the other messages. *)
Class ProstMinimal := decode_minimal : list Z → option MinimalBlock.

(** What the process brings to a restored entry: the shared read cache and the
    references in use. *)
Record Process := mkProcess {
  proc_read_cache : Cache string Z;
  proc_cells : gmap Z Block;
  proc_fresh : Z
}.

Section Loader.
Context `{HashIter} `{Prost} `{ProstMinimal} `{Crc64} `{Zstd} `{Clock} (cfg : Cfg).

Definition build (proc : Process) (fs : gmap path (list Z)) (ix : BlockIndex) (wal_fs : gmap Z (list Z)) : BM :=
  bm_build fs ix wal_fs (proc_read_cache proc) (proc_cells proc) (proc_fresh proc).

(** ** Replaying the logs *)

(** The loop over the entries of a log: the block, and whether it was removed. *)
Fixpoint replay (b : Block) (es : list WalEntry) : outcome (Block * bool) :=
  match es with
  | [] => Ok (b, false)
  | WriteRecord rec :: es' | UpdateRecord rec :: es' =>
      b' ← insert_or_update_record b rec; replay b' es'
  | RemoveBlock :: _ => Ok (b, true)
  | RemoveRecord t :: es' => replay (remove_record b t).2 es'
  end.

(** The log of a block that cannot be read is removed; the loader has a log object
    of its own on the same files. *)
Definition drop_log (id : Z) : ST BM () := st_modify (λ s,
  set_wal (mkWal (file_positions (wal s)) (known_blocks (wal s)) (delete id (wal_files (wal s)))) s).

(** The block the log applies to: the block as it is on disk, or a new one. *)
Definition block_for_log (id : Z) : ST BM Z :=
  ex ← exist id;
  if (ex : bool) then st_catch (load_block cfg id) (λ _, alloc (block_new id)) else alloc (block_new id).

Definition restore_log (id : Z) : ST BM () := λ s,
  match wal_read id (wal s) with
  | Ok es =>
      (r ← block_for_log id;
       b ← deref r;
       '(b', removed) ← st_lift (replay b es);
       _ ← assign r b';
       if (removed : bool) then remove_block cfg id else finish_block cfg r) s
  | Err _ => drop_log id s
  | Panic => (Panic, s)
  end.

(** [EntryLoader::restore_uncommitted_changes]. *)
Definition restore_uncommitted_changes : ST BM () := λ s,
  match bt_elements (dom (wal_files (wal s))) with
  | [] => (Ok tt, s)
  | ids => (_ ← st_for restore_log ids; save_cache_on_disk cfg) s
  end.

(** ** From the descriptors *)

(** [remove_block_files]. *)
Definition remove_block_files (p : path) : ST BM () :=
  _ ← fs_remove p;
  match p with
  | CDesc id => fs_remove (CData id)
  | Desc id => fs_remove (Data id)
  | _ => mret tt
  end.

(** The migration of a descriptor without a count of records: the summary, and the
    digest of what is written back. *)
Definition migrated (full : BlockProto) : BlockProto :=
  let counted := mkBlockProto (bp_begin_time full) (bp_latest_record_time full) (bp_size full)
                   (Z.of_nat (length (bp_records full))) (bp_metadata_size full) (bp_records full)
                   (bp_version full) (bp_corrupted full) in
  with_metadata_size counted (Z.of_nat (length (encode_block counted))).

Definition migrated_summary (block : MinimalBlock) (full : BlockProto) : MinimalBlock :=
  mkMinimalBlock (mb_begin_time block) (mb_latest_record_time block) (mb_size block)
    (bp_record_count full) (bp_metadata_size full) (mb_version block) (mb_corrupted block).

Definition compressed_entry (data desc : list Z) (e : BlockEntry) : BlockEntry :=
  mkBlockEntry (be_block_id e) (Z.of_nat (length data)) (be_record_count e) (Z.of_nat (length desc))
    (be_latest_record_time e) (be_crc64 e) (Some 1) (be_corrupted e) (be_version e).

(** The end of the loop body: the block enters the index; a compressed one needs
    its data file and has the sizes of its files. *)
Definition index_descriptor (p : path) (compressed : bool) (block : MinimalBlock) (crc : Z) : ST BM () :=
  match mb_begin_time block with
  | None => remove_block_files p
  | Some ts =>
      let id := ts_to_us ts in
      _ ← index_put_crc block crc;
      if compressed then
        ex ← fs_exists (CData id);
        if (ex : bool) then
          data ← fs_read (CData id);
          desc ← fs_read p;
          st_modify (λ s, set_index (mkBlockIndex
            (alter (compressed_entry data desc) id (index_info (block_index s)))
            (index (block_index s))) s)
        else
          _ ← st_modify (λ s, set_index (index_remove_block (block_index s) id).2 s);
          remove_block_files p
      else mret tt
  end.

(** One file of the directory. *)
Definition restore_descriptor (p : path) : ST BM () :=
  match p with
  | Desc _ | CDesc _ =>
      let compressed := match p with CDesc _ => true | _ => false end in
      raw ← fs_read p;
      buf ← (if compressed then st_lift (ok_or InternalServerError (zstd_decode raw)) else mret raw);
      match decode_minimal buf with
      | None => remove_block_files p
      | Some block =>
          if decide (mb_record_count block = 0) then
            match decode_block buf with
            | None => remove_block_files p
            | Some full =>
                let full' := migrated full in
                _ ← fs_update p (λ _, encode_block full');
                index_descriptor p compressed (migrated_summary block full') (crc64 (encode_block full'))
            end
          else index_descriptor p compressed block (crc64 buf)
      end
  | _ => mret tt
  end.

(** The files of the directory, in the order the file system lists them. *)
Definition read_dir (s : BM) : list path := (hash_iter (files s)).*1.

(** [EntryLoader::restore_entry_from_blocks] on the files of [s]; the manager is
    built anew. *)
Definition restore_entry_from_blocks (proc : Process) : ST BM () := λ s,
  match (_ ← st_for restore_descriptor (read_dir s); index_save) (set_index index_new s) with
  | (Ok _, s') => (Ok tt, build proc (files s') (block_index s') (wal_files (wal s')))
  | (Err e, s') => (Err e, s')
  | (Panic, s') => (Panic, s')
  end.

(** ** Checks *)

Definition is_descriptor (p : path) : bool := match p with Desc _ | CDesc _ => true | _ => false end.

(** [check_descriptor_count]. *)
Definition check_descriptor_count (dir : list path) (ix : BlockIndex) : bool :=
  bool_decide (length (filter (λ p, is_descriptor p = true) dir) = base.size (index ix)).

(** [check_if_block_files_exist]: a descriptor without data is removed. *)
Definition check_block_files (dir : list path) (id : Z) (good : bool) : ST BM bool :=
  s ← st_get;
  e ← st_lift (unwrap (get_block (block_index s) id));
  let compressed := bool_decide (default 0 (be_compression e) ≠ 0) in
  let desc := if compressed then CDesc id else Desc id in
  let data := if compressed then CData id else Data id in
  if decide (desc ∈ dir) then
    if decide (data ∈ dir) then mret good else _ ← fs_remove desc; mret false
  else mret false.

Fixpoint check_all (dir : list path) (ids : list Z) (good : bool) : ST BM bool :=
  match ids with
  | [] => mret good
  | id :: ids' => good' ← check_block_files dir id good; check_all dir ids' good'
  end.

Definition check_if_block_files_exist (dir : list path) : ST BM bool := λ s,
  check_all dir (bt_elements (index (block_index s))) true s.

(** The check after the logs were applied; an error of the first check counts as a
    failed one, and ends it. *)
Definition needs_rebuild : ST BM bool := λ s,
  let dir := read_dir s in
  match check_if_block_files_exist dir s with
  | (Ok true, s') => (Ok (negb (check_descriptor_count dir (block_index s'))), s')
  | (Ok false, s') | (Err _, s') => (Ok true, s')
  | (Panic, s') => (Panic, s')
  end.

(** What follows once there is a block manager; a replica changes nothing. *)
Definition settle (proc : Process) (enable_integrity_checks : bool) : ST BM () :=
  if replica cfg then mret tt
  else
    _ ← restore_uncommitted_changes;
    if enable_integrity_checks then
      rebuild ← needs_rebuild;
      if (rebuild : bool) then restore_entry_from_blocks proc else mret tt
    else mret tt.

(** [EntryLoader::restore_entry_with_names]: false when a replica cannot use its
    index, and the entry is left out; [listing] are the names [BlockIndex::try_load]
    sees in the directory. *)
Definition restore_entry (proc : Process) (enable_integrity_checks : bool) (listing : list string)
    (fs : gmap path (list Z)) (wal_fs : gmap Z (list Z)) : outcome bool * BM :=
  let bare := build proc fs index_new wal_fs in
  match try_load (fs !! IndexFile) listing with
  | Ok ix => (_ ← settle proc enable_integrity_checks; mret true) (build proc fs ix wal_fs)
  | Err _ =>
      if replica cfg then (Ok false, bare)
      else (_ ← restore_entry_from_blocks proc; _ ← settle proc enable_integrity_checks; mret true) bare
  | Panic => (Panic, bare)
  end.
End Loader.
