(* ===== verification/Recovery.v ===== *)
(** * Recovery: the logs are applied after a crash (storage/entry/entry_loader.rs)

    [restore_uncommitted_changes] brings every block with a log to the state the
    log describes and leaves no log behind; what the entry held before is the map
    the manager represents when it is built on the files. *)

From stdpp Require Import prelude gmap strings sorting fin_map_dom pretty.
From Stdlib Require Import ZArith Lia.
From S2P Require Import Prelude Bytes Collections Proto Block BlockIndex Wal Cache BlockManager.
From S2P Require Import BlockManagerRefine EntryLoader.
Open Scope Z_scope.

Section Recovery.
Context `{HashIter} `{Prost} `{ProstMinimal} `{Crc64} `{Zstd} `{Clock} (cfg : Cfg).
Context `{!HashIterLaws} `{!ProstLaws} `{!Crc64Laws}.
Context (Hprimary : replica cfg = false).
Implicit Types (s : BM) (a : gmap Z Block) (id r : Z) (b : Block) (f : list Z).

(** ** What a log does to a block *)

(** The records of a log can be stored one after the other without wrapping a
    counter of the block. *)
Fixpoint replayable b (es : list WalEntry) : Prop :=
  match es with
  | [] => True
  | WriteRecord rec :: es' | UpdateRecord rec :: es' =>
      rec_valid rec ∧ fits b rec ∧ is_Some (r_timestamp rec) ∧
      ∀ b', insert_or_update_record b rec = Ok b' → replayable b' es'
  | RemoveBlock :: _ => True
  | RemoveRecord t :: es' => replayable (remove_record b t).2 es'
  end.

Lemma remove_record_ok id b t : block_ok id b → block_ok id (remove_record b t).2.
Proof.
  intros (Hwf & Hid & Hv). pose proof (remove_record_spec b t Hwf) as Hs.
  destruct (remove_record b t) as [o b']. destruct Hs as (_ & Hwf' & Hid' & Hix & _). simpl.
  split_and!; [done|congruence|]. rewrite Hix. by apply map_Forall_delete.
Qed.

Lemma replay_ok id b es :
  block_ok id b → replayable b es → ∃ b' removed, replay b es = Ok (b', removed) ∧ block_ok id b'.
Proof.
  revert b. induction es as [|e es IH]; intros b Hok Hr; [by exists b, false|].
  assert (∀ rec, rec_valid rec ∧ fits b rec ∧ is_Some (r_timestamp rec) ∧
      (∀ b', insert_or_update_record b rec = Ok b' → replayable b' es) →
    ∃ b' removed, (b1 ← insert_or_update_record b rec; replay b1 es) = Ok (b', removed) ∧ block_ok id b')
    as Hput.
  { intros rec (Hv & Hf & Hts & Hrest).
    destruct (insert_one_ok id b rec Hok Hv Hf Hts) as (b1 & E & Hok1). rewrite E. by apply IH, Hrest. }
  destruct e as [rec|rec| |t]; simpl in *; [by apply Hput|by apply Hput|by exists b, true|].
  by apply IH; [apply remove_record_ok|].
Qed.

(** The entries of a log file. *)
Definition log_entries f : outcome (list WalEntry) := wal_read_file f.

(** What is left of a block once its log is applied: a log that cannot be read
    changes nothing, a block that is not there is started anew. *)
Definition after_log id f (o : option Block) : option Block :=
  match log_entries f with
  | Ok es =>
      match replay (default (block_new id) o) es with
      | Ok (b, false) => Some b
      | Ok (_, true) => None
      | _ => o
      end
  | _ => o
  end.

(** A log the loader can work with. *)
Definition log_ok id f (o : option Block) : Prop :=
  is_u64 id ∧
  match log_entries f with
  | Ok es => replayable (default (block_new id) o) es
  | Err _ => True
  | Panic => False
  end.

(** Every block of the map has its descriptor. *)
Definition described s a : Prop := ∀ id, is_Some (a !! id) → is_Some (files s !! Desc id).

Definition put_block a id (o : option Block) : gmap Z Block :=
  match o with Some b => <[id := b]> a | None => delete id a end.

Lemma lookup_put_block a id o i : put_block a id o !! i = if decide (i = id) then o else a !! i.
Proof.
  destruct o; simpl.
  - rewrite lookup_insert. repeat case_decide; congruence.
  - rewrite lookup_delete. repeat case_decide; congruence.
Qed.

(** ** A block the index does not know *)

Lemma index_insert_twice ix e e' :
  be_block_id e = be_block_id e' → index_insert (index_insert ix e) e' = index_insert ix e'.
Proof.
  intros Heq. unfold index_insert. simpl. rewrite Heq, insert_insert_eq. f_equal. set_solver.
Qed.

(** Saving a block gives the same state whether it was announced to the index or
    not. *)
Lemma save_meta_new s r b :
  blocks s !! r = Some b → block_wf b → entries_ok (block_index s) →
  index_info (block_index s) !! block_id b = None →
  save_meta_on_disk cfg r s = save_meta_on_disk cfg r
    (set_index (index_insert (block_index s) (new_block_entry (block_id b))) s).
Proof.
  intros Hr Hwf Hok Hn.
  set (s1 := set_index (index_insert (block_index s) (new_block_entry (block_id b))) s).
  destruct (save_meta_spec cfg Hprimary s r b Hr Hwf Hok) as (buf & Hbuf & E).
  destruct (save_meta_spec cfg Hprimary s1 r b Hr Hwf) as (buf1 & Hbuf1 & E1).
  { apply index_insert_entries_ok; try done. apply new_block_entry_valid, Hwf. }
  assert (next_version s1 (block_id b) = next_version s (block_id b)) as Hver.
  { unfold next_version, get_block, s1, index_insert. bm_simpl. cbn [index_info be_block_id new_block_entry].
    by rewrite lookup_insert_eq, Hn. }
  assert (be_block_id (saved_entry b (next_version s (block_id b))) = block_id b) as Hid
    by (apply ts_us_roundtrip, Hwf).
  rewrite Hver in *. unfold s1 in Hbuf1, E1 |- *. bm_simpl.
  rewrite index_insert_twice in Hbuf1, E1 by done. rewrite Hbuf in Hbuf1. injection Hbuf1 as <-.
  rewrite E, E1. done.
Qed.

Lemma finish_new_block s a id b :
  rep cfg [] s a → a !! id = None → block_ok id b →
  let s1 := set_next_ref (next_ref s + 1) (set_blocks (<[next_ref s := b]> (blocks s)) s) in
  ∃ s', finish_block cfg (next_ref s) s1 = (Ok tt, s') ∧ rep cfg [] s' (<[id := b]> a) ∧
    wal_files (wal s') = delete id (wal_files (wal s)) ∧
    is_Some (files s' !! Desc id) ∧ ∀ i, i ≠ id → files s' !! Desc i = files s !! Desc i.
Proof.
  intros Hrep Hn Hok s1. pose proof Hok as (Hwf & Hid & Hv).
  pose proof (add_block_rep cfg s a id b (files s) Hrep ltac:(congruence) Hok ltac:(done)) as Hrep2.
  match type of Hrep2 with let s' := ?x in _ => set (s2 := x) in * end. cbv zeta in Hrep2.
  destruct (finish_block_rep cfg Hprimary _ s2 _ id (next_ref s) Hrep2) as (s' & E & Hrep' & _ & Hw & Hd & Ho).
  { exists b. unfold s2. bm_simpl. by rewrite !lookup_insert_eq. }
  exists s'. split_and!; try done.
  - rewrite <-E. unfold finish_block.
    assert (∀ x, blocks x !! next_ref s = Some b → deref (next_ref s) x = (Ok b, x)) as Hde
      by (intros x Hx; unfold deref; by rewrite Hx).
    rewrite (st_bind_ok _ (deref (next_ref s)) s1 b s1) by (apply Hde; unfold s1; bm_simpl; apply lookup_insert_eq).
    rewrite (st_bind_ok _ (deref (next_ref s)) s2 b s2) by (apply Hde; unfold s2; bm_simpl; apply lookup_insert_eq).
    set (f' := <[Data (block_id b) := set_len (Z.to_nat (size b)) (default [] (files s !! Data (block_id b)))]>
                 (files s)).
    rewrite (st_bind_ok _ _ s1 tt (set_files f' s1)) by done.
    rewrite (st_bind_ok _ _ s2 tt (set_files f' s2)) by done.
    rewrite (save_meta_new (set_files f' s1) (next_ref s) b); [by rewrite Hid| |done|apply Hrep|].
    + unfold s1. bm_simpl. by rewrite lookup_insert_eq.
    + unfold s1. bm_simpl. rewrite Hid. apply not_elem_of_dom. rewrite (rep_dom _ _ _ _ Hrep).
      by apply not_elem_of_dom.
  - rewrite filter_cons_False in Hrep' by (intros Hne; by apply Hne). done.
Qed.

(** ** One log *)

(** Removing a block removes its log. *)
Lemma remove_logs id w :
  wal_files (wal_remove id (wal_append id RemoveBlock w).2).2 = delete id (wal_files w).
Proof. unfold wal_remove, wal_append. destruct (wal_open id w). simpl. by rewrite delete_insert_eq. Qed.

(** The block the log is applied to: a reference to the block of the map, or a new
    cell the map does not know. *)
Lemma block_for_log_known s a id b :
  rep cfg [] s a → described s a → a !! id = Some b →
  ∃ r s', block_for_log cfg id s = (Ok r, s') ∧ rep cfg [] s' a ∧ holds s' a id r ∧ sole cfg s' id r ∧
    same_store s s'.
Proof.
  intros Hrep Hdesc Hb.
  destruct (load_block_rep cfg s a id b Hrep Hb) as (r & s' & E & Hrep' & Hh & Hs & Hf & Hi & Hw).
  exists r, s'. unfold block_for_log. rewrite (st_bind_ok _ (exist id) s true s).
  2:{ unfold exist, fs_exists. by rewrite bool_decide_true by (apply Hdesc; eauto). }
  split_and!; try done; [unfold st_catch; by rewrite E|].
  by apply same_store_eq.
Qed.

Lemma block_for_log_new s a id :
  rep cfg [] s a → a !! id = None →
  ∃ s', block_for_log cfg id s = alloc (block_new id) s' ∧ rep cfg [] s' a ∧ same_store s s'.
Proof.
  intros Hrep Hn. unfold block_for_log.
  rewrite (st_bind_ok _ (exist id) s (bool_decide (is_Some (files s !! Desc id))) s) by done.
  case_bool_decide; [|by exists s].
  destruct (load_block_unknown cfg Hprimary s a id Hrep Hn) as (s' & E & ? & ? & _).
  exists s'. split_and!; [|done|done]. unfold st_catch. by rewrite E.
Qed.

(** The loop body once the log was read. *)
Definition apply_entries id (es : list WalEntry) : ST BM () :=
  r ← block_for_log cfg id;
  b ← deref r;
  '(b', removed) ← st_lift (replay b es);
  _ ← assign r b';
  if (removed : bool) then remove_block cfg id else finish_block cfg r.

(** What a step of the recovery leaves: the map with the new state of the block,
    and no log for it. *)
Definition restored s s' a id (o : option Block) : Prop :=
  rep cfg [] s' (put_block a id o) ∧ described s' (put_block a id o) ∧
  wal_files (wal s') = delete id (wal_files (wal s)).

Lemma described_put s s' a id o :
  described s a → (is_Some o → is_Some (files s' !! Desc id)) →
  (∀ i, i ≠ id → files s' !! Desc i = files s !! Desc i) → described s' (put_block a id o).
Proof.
  intros Hd Hid Ho i. rewrite lookup_put_block. case_decide as Hi; [subst i; done|].
  intros Hs. rewrite Ho by done. by apply Hd.
Qed.

Lemma apply_entries_known s a id b es b' removed :
  rep cfg [] s a → described s a → a !! id = Some b →
  replay b es = Ok (b', removed) → block_ok id b' →
  ∃ s', apply_entries id es s = (Ok tt, s') ∧ restored s s' a id (if removed then None else Some b').
Proof.
  intros Hrep Hdesc Hb Hre Hok.
  destruct (block_for_log_known s a id b Hrep Hdesc Hb) as (r & s1 & E & Hrep1 & Hh & Hs & (Hf & Hw & _)).
  assert (blocks s1 !! r = Some b) as Hr by (destruct Hh as (b0 & ? & ?); congruence).
  unfold apply_entries. st_step E.
  rewrite (st_bind_ok _ (deref r) s1 b s1) by (unfold deref; by rewrite Hr).
  rewrite (st_bind_ok _ (st_lift (replay b es)) s1 (b', removed) s1) by (unfold st_lift; by rewrite Hre).
  set (s2 := set_blocks (<[r := b']> (blocks s1)) s1).
  rewrite (st_bind_ok _ (assign r b') s1 tt s2) by done.
  pose proof (assign_rep cfg Hprimary s1 a id r b' Hrep1 Hh Hs Hok) as Hrep2. fold s2 in Hrep2.
  destruct removed.
  - destruct (remove_block_rep cfg Hprimary _ s2 _ id Hrep2) as (s' & E' & Hrep' & (Hw' & _ & _) & Ho); [by apply Forall_singleton|].
    exists s'. split; [done|]. rewrite delete_insert_eq in Hrep'.
    split_and!; [done| |by rewrite Hw', remove_logs; simpl; rewrite Hw].
    apply (described_put s); [done|by intros []|]. intros i Hi. rewrite Ho by done. apply Hf.
  - destruct (finish_block_rep cfg Hprimary _ s2 _ id r Hrep2) as (s' & E' & Hrep' & _ & Hw' & Hd & Ho).
    { exists b'. unfold s2. bm_simpl. by rewrite !lookup_insert_eq. }
    rewrite filter_cons_False in Hrep' by (intros Hne; by apply Hne).
    exists s'. split; [done|]. split_and!; [done| |by rewrite Hw'; simpl; rewrite Hw].
    apply (described_put s); [done..|]. intros i Hi. rewrite Ho by done. apply Hf.
Qed.

Lemma apply_entries_new s a id es b' removed :
  rep cfg [] s a → described s a → a !! id = None →
  replay (block_new id) es = Ok (b', removed) → block_ok id b' →
  ∃ s', apply_entries id es s = (Ok tt, s') ∧ restored s s' a id (if removed then None else Some b').
Proof.
  intros Hrep Hdesc Hn Hre Hok.
  destruct (block_for_log_new s a id Hrep Hn) as (s1 & E & Hrep1 & (Hf & Hw & _)).
  set (s2 := set_next_ref (next_ref s1 + 1) (set_blocks (<[next_ref s1 := block_new id]> (blocks s1)) s1)).
  set (s3 := set_next_ref (next_ref s1 + 1) (set_blocks (<[next_ref s1 := b']> (blocks s1)) s1)).
  unfold apply_entries. rewrite (st_bind_ok _ (block_for_log cfg id) s (next_ref s1) s2) by done.
  rewrite (st_bind_ok _ (deref (next_ref s1)) s2 (block_new id) s2)
    by (unfold deref, s2; bm_simpl; by rewrite lookup_insert_eq).
  rewrite (st_bind_ok _ (st_lift (replay (block_new id) es)) s2 (b', removed) s2)
    by (unfold st_lift; by rewrite Hre).
  rewrite (st_bind_ok _ (assign (next_ref s1) b') s2 tt s3)
    by (unfold assign, st_modify, s2, s3; bm_simpl; by rewrite insert_insert_eq).
  destruct removed.
  - destruct (remove_block_rep cfg Hprimary [] s3 a id) as (s' & E' & Hrep' & (Hw' & _ & _) & Ho); [by apply rep_alloc|done|].
    exists s'. split; [done|]. split_and!; [done| |by rewrite Hw', remove_logs; simpl; rewrite Hw].
    apply (described_put s); [done|by intros []|]. intros i Hi. rewrite Ho by done. apply Hf.
  - destruct (finish_new_block s1 a id b' Hrep1 Hn Hok) as (s' & E' & Hrep' & Hw' & Hd & Ho).
    exists s'. split; [done|]. split_and!; [done| |by rewrite Hw'; simpl; rewrite Hw].
    apply (described_put s); [done..|]. intros i Hi. rewrite Ho by done. apply Hf.
Qed.

Lemma restore_log_rep s a id f :
  rep cfg [] s a → described s a → wal_files (wal s) !! id = Some f → log_ok id f (a !! id) →
  ∃ s', restore_log cfg id s = (Ok tt, s') ∧ restored s s' a id (after_log id f (a !! id)).
Proof.
  intros Hrep Hdesc Hf [Hid Hlog]. unfold restore_log, after_log, wal_read. rewrite Hf.
  fold (log_entries f). destruct (log_entries f) as [es|e|]; [| |done].
  - change (∃ s', apply_entries id es s = (Ok tt, s') ∧ restored s s' a id
      (match replay (default (block_new id) (a !! id)) es with
       | Ok (b, false) => Some b | Ok (_, true) => None | _ => a !! id end)).
    destruct (replay_ok id (default (block_new id) (a !! id)) es) as (b' & removed & Hre & Hok); [|done|].
    { destruct (a !! id) as [b|] eqn:Hb; [by apply (rep_blocks _ _ _ _ Hrep)|by apply block_new_ok]. }
    rewrite Hre. destruct (a !! id) as [b|] eqn:Hb; simpl in Hre.
    + destruct (apply_entries_known s a id b es b' removed Hrep Hdesc Hb Hre Hok) as (s' & E & ?).
      exists s'. by destruct removed.
    + destruct (apply_entries_new s a id es b' removed Hrep Hdesc Hb Hre Hok) as (s' & E & ?).
      exists s'. by destruct removed.
  - eexists. split; [reflexivity|].
    assert (put_block a id (a !! id) = a) as Hsame.
    { apply map_eq. intros i. rewrite lookup_put_block. case_decide; congruence. }
    unfold restored. rewrite Hsame. split_and!; [by apply rep_set_wal|done|done].
Qed.

(** ** All logs *)

(** The map after the logs [ids] of the files [logs]. *)
Fixpoint after_logs (logs : gmap Z (list Z)) (ids : list Z) a : gmap Z Block :=
  match ids with
  | [] => a
  | id :: ids' =>
      after_logs logs ids' (put_block a id (from_option (λ f, after_log id f (a !! id)) (a !! id) (logs !! id)))
  end.

Lemma lookup_after_logs logs ids a i :
  NoDup ids → after_logs logs ids a !! i =
    if decide (i ∈ ids) then from_option (λ f, after_log i f (a !! i)) (a !! i) (logs !! i) else a !! i.
Proof.
  intros Hnd. revert a. induction Hnd as [|id ids Hni Hnd IH]; intros a; simpl; [done|].
  rewrite IH, lookup_put_block. destruct (decide (i = id)) as [->|Hne].
  - by rewrite decide_False, decide_True by set_solver.
  - destruct (decide (i ∈ ids)).
    + by rewrite decide_True by set_solver.
    + by rewrite decide_False by set_solver.
Qed.

Lemma restore_logs_rep logs ids s a :
  NoDup ids → rep cfg [] s a → described s a → (∀ i, i ∈ ids → wal_files (wal s) !! i = logs !! i) →
  (∀ i, i ∈ ids → ∃ f, logs !! i = Some f ∧ log_ok i f (a !! i)) →
  ∃ s', st_for (restore_log cfg) ids s = (Ok tt, s') ∧ rep cfg [] s' (after_logs logs ids a) ∧
    described s' (after_logs logs ids a) ∧
    ∀ i, wal_files (wal s') !! i = if decide (i ∈ ids) then None else wal_files (wal s) !! i.
Proof.
  intros Hnd. revert s a. induction Hnd as [|id ids Hni Hnd IH]; intros s a Hrep Hdesc Hfs Hok.
  { exists s. split_and!; try done. }
  destruct (Hok id ltac:(set_solver)) as (f & Hf & Hlog).
  destruct (restore_log_rep s a id f Hrep Hdesc) as (s1 & E & Hrep1 & Hd1 & Hw1); [|done|].
  { rewrite Hfs by set_solver. done. }
  destruct (IH s1 _ Hrep1 Hd1) as (s2 & E2 & Hrep2 & Hd2 & Hw2).
  { intros i Hi. rewrite Hw1, lookup_delete_ne by set_solver. apply Hfs. set_solver. }
  { intros i Hi. destruct (Hok i ltac:(set_solver)) as (f' & ? & ?). exists f'. split; [done|].
    rewrite lookup_put_block, decide_False by set_solver. done. }
  exists s2. split_and!.
  - by rewrite (st_for_cons (restore_log cfg) id ids s s1 E).
  - simpl. by rewrite Hf.
  - simpl. by rewrite Hf.
  - intros i. rewrite Hw2, Hw1, lookup_delete. repeat case_decide; set_solver.
Qed.

(** The map the entry has after the recovery. *)
Definition recovered (logs : gmap Z (list Z)) a : gmap Z Block := after_logs logs (bt_elements (dom logs)) a.

Lemma lookup_recovered logs a i :
  recovered logs a !! i =
    match logs !! i with Some f => after_log i f (a !! i) | None => a !! i end.
Proof.
  unfold recovered. rewrite lookup_after_logs by apply bt_elements_nodup.
  destruct (logs !! i) as [f|] eqn:E; simpl; [|by destruct (decide _)].
  rewrite decide_True; [done|]. apply elem_of_bt_elements, elem_of_dom. by eexists.
Qed.

(** ** The flush at the end *)

(** Saving a block removes its log. *)
Lemma save_meta_wal D s a id r :
  rep cfg D s a → holds s a id r → wal (save_meta_on_disk cfg r s).2 = (wal_remove id (wal s)).2.
Proof.
  intros Hrep (b & Hb & Hr). destruct (rep_blocks _ _ _ _ Hrep id b Hb) as (Hwf & <- & _).
  destruct (save_meta_spec cfg Hprimary s r b Hr Hwf (rep_entries _ _ _ _ Hrep)) as (ixbuf & _ & E).
  by rewrite E.
Qed.

(** An invariant of the saved state holds after a flush if saving a block keeps it. *)
Lemma save_refs_invariant (P : BM → Prop) s a l :
  (∀ s1 id r, rep cfg [] s1 a → holds s1 a id r → P s1 → P (save_meta_on_disk cfg r s1).2) →
  rep cfg [] s a → Forall (λ r, ∃ id, holds s a id r) l → P s →
  P (st_for (λ r, _ ← deref r; save_meta_on_disk cfg r) l s).2.
Proof.
  intros Hstep. revert s. induction l as [|r l IH]; intros s Hrep Hl HP; [done|].
  apply Forall_cons in Hl as [[id Hh] Hl].
  destruct (save_meta_rep cfg Hprimary [] s a id r Hrep Hh) as (s1 & E & Hrep1 & _ & Hb1 & _).
  rewrite (st_for_cons (λ r, _ ← deref r; save_meta_on_disk cfg r) r l s s1).
  2:{ destruct Hh as (b & _ & Hr). by rewrite (st_bind_ok _ (deref r) s b s) by (unfold deref; by rewrite Hr). }
  pose proof (Hstep s id r Hrep Hh HP) as HP1. rewrite E in HP1. simpl in Hrep1.
  apply IH; [done| |done]. eapply Forall_impl; [exact Hl|]. intros r' [i (b & ? & ?)].
  exists i, b. by rewrite Hb1.
Qed.

Lemma save_cache_invariant (P : BM → Prop) s a :
  (∀ s1 s2, bm_equiv s1 s2 → P s1 → P s2) →
  (∀ s1 id r, rep cfg [] s1 a → holds s1 a id r → P s1 → P (save_meta_on_disk cfg r s1).2) →
  rep cfg [] s a → P s → P (save_cache_on_disk cfg s).2.
Proof.
  intros Hequiv Hstep Hrep HP. unfold save_cache_on_disk.
  destruct (write_values_spec s) as (l & s1 & E1 & He & Hl). st_step E1.
  pose proof (rep_equiv _ _ _ _ _ He Hrep) as Hrep1.
  apply (save_refs_invariant P s1 a); [done|done| |by apply (Hequiv s)].
  apply Forall_forall. intros r [i Hr]%Hl. exists i. apply (rep_write _ _ _ _ Hrep1).
  by rewrite (eq_write _ _ He).
Qed.

Lemma save_cache_no_logs s a :
  rep cfg [] s a → wal_files (wal s) = ∅ → wal_files (wal (save_cache_on_disk cfg s).2) = ∅.
Proof.
  intros Hrep Hw. apply (save_cache_invariant (λ s, wal_files (wal s) = ∅) s a); [| |done|done].
  - intros s1 s2 He. by rewrite (eq_wal _ _ He).
  - intros s1 id r Hrep1 Hh Hw1. rewrite (save_meta_wal [] s1 a id r Hrep1 Hh). simpl.
    rewrite Hw1. apply delete_empty.
Qed.

Lemma restore_uncommitted_rep s a :
  rep cfg [] s a → described s a →
  (∀ id f, wal_files (wal s) !! id = Some f → log_ok id f (a !! id)) →
  ∃ s', restore_uncommitted_changes cfg s = (Ok tt, s') ∧
    rep cfg [] s' (recovered (wal_files (wal s)) a) ∧ wal_files (wal s') = ∅.
Proof.
  intros Hrep Hdesc Hlogs. set (logs := wal_files (wal s)) in *.
  destruct (restore_logs_rep logs (bt_elements (dom logs)) s a) as (s1 & E & Hrep1 & _ & Hw1); try done.
  { apply bt_elements_nodup. }
  { intros i Hi%elem_of_bt_elements. apply elem_of_dom in Hi as [f Hf]. eauto. }
  assert (wal_files (wal s1) = ∅) as Hempty.
  { apply map_empty. intros i. rewrite Hw1. case_decide as Hi; [done|].
    apply not_elem_of_dom. by rewrite <-elem_of_bt_elements. }
  destruct (save_cache_rep cfg Hprimary s1 _ Hrep1) as (s2 & E2 & Hrep2 & _).
  pose proof (save_cache_no_logs s1 _ Hrep1 Hempty) as Hw2. rewrite E2 in Hw2. simpl in Hw2.
  unfold restore_uncommitted_changes. fold logs. unfold recovered in *.
  destruct (bt_elements (dom logs)) as [|id ids] eqn:Eids.
  - simpl in E, Hrep1. exists s. split_and!; [done|done|]. by injection E as <-.
  - exists s2. split_and!; [|done|done]. by st_step E.
Qed.

(** Recovery brings every block to the state its log describes.  When the
    loader starts on an entry whose blocks are [a], with any log files (readable,
    or cut off and corrupt), it returns, leaves no log behind, and every block is
    then loaded with the changes of its log applied in order: a block without a
    log, or with a log that cannot be read, is as before; a block whose log ends
    in its removal is gone; a log of a block that is not there starts the block
    anew. *)
Theorem recovery_applies_logs s a :
  rep cfg [] s a → described s a →
  (∀ id f, wal_files (wal s) !! id = Some f → log_ok id f (a !! id)) →
  ∃ s', restore_uncommitted_changes cfg s = (Ok tt, s') ∧ wal_files (wal s') = ∅ ∧
    ∀ id, (bm_run cfg (OpLoad id) s').1 = Some <$> ok_or InternalServerError
      (match wal_files (wal s) !! id with Some f => after_log id f (a !! id) | None => a !! id end).
Proof.
  intros Hrep Hdesc Hlogs.
  destruct (restore_uncommitted_rep s a Hrep Hdesc Hlogs) as (s' & E & Hrep' & Hw).
  exists s'. split_and!; [done|done|]. intros id.
  rewrite <-lookup_recovered. by destruct (bm_run_sim cfg Hprimary (OpLoad id) s' _ Hrep' I) as [-> _].
Qed.
End Recovery.

(** ** Witness *)
Section Witness.
Existing Instance std_order.
Existing Instance std_order_laws.
Existing Instance Toy.prost.
Existing Instance Toy.prost_laws.
Existing Instance Toy.digest.
Existing Instance Toy.digest_laws.
Existing Instance demo_zstd.
Existing Instance demo_clock.

(** The log of a block that was never saved, and one cut off in its length. *)
Definition demo_log : list Z := wal_frames [WriteRecord (rec_at 100 0 7)] ++ [STOP_MARKER].
Definition demo_logs : gmap Z (list Z) := {[100 := demo_log; 200 := [0; 0; 0]]}.

Lemma demo_log_entries : log_entries demo_log = Ok [WriteRecord (rec_at 100 0 7)].
Proof. by vm_compute. Qed.

Lemma demo_logs_ok id f : demo_logs !! id = Some f → log_ok id f None.
Proof.
  unfold demo_logs. intros [[<- <-]|[_ [<- <-]%lookup_singleton_Some]]%lookup_insert_Some.
  - split; [u64_lia|]. rewrite demo_log_entries. cbn [replayable from_option default]. split; [exact demo_rec_valid|].
    split; [unfold fits; cbn [rec_at r_begin r_end size record_count block_new]; u64_lia|].
    split; [by eexists|done].
  - split; [u64_lia|]. by vm_compute.
Qed.

Lemma demo_torn : after_log 200 [0; 0; 0] None = None.
Proof. by vm_compute. Qed.

Lemma recovery_applies_logs_witness :
  ∃ s', restore_uncommitted_changes demo_cfg (bm_build ∅ index_new demo_logs demo_rc ∅ 0) = (Ok tt, s') ∧
    wal_files (wal s') = ∅ ∧
    (bm_run demo_cfg (OpLoad 100) s').1 = Some <$> ok_or InternalServerError (after_log 100 demo_log None) ∧
    (bm_run demo_cfg (OpLoad 200) s').1 = Err InternalServerError.
Proof.
  destruct (recovery_applies_logs demo_cfg eq_refl (bm_build ∅ index_new demo_logs demo_rc ∅ 0) ∅)
    as (s' & E & Hw & Hload).
  - apply rep_init; [exact demo_rc_foreign|done].
  - intros id [? Hn]. by rewrite lookup_empty in Hn.
  - intros id f Hf. by apply demo_logs_ok.
  - exists s'. split; [exact E|]. split; [exact Hw|].
    pose proof (Hload 100) as H1. pose proof (Hload 200) as H2.
    cbn [wal wal_files bm_build wal_try_build] in H1, H2. unfold demo_logs in H1, H2.
    rewrite lookup_insert_eq in H1. rewrite lookup_insert_ne, lookup_singleton_eq in H2 by done.
    rewrite lookup_empty in H1, H2. rewrite demo_torn in H2. split; [exact H1|exact H2].
Defined.
End Witness.
