(* ===== verification/Durability.v ===== *)
(** * Durability: an acknowledged change survives a crash

    At any moment the descriptor of a block together with its log determines the
    block: what the write cache holds and the disk does not is in the log.  So a
    process that is killed between two requests and restarted on its files finds
    every block as it was, up to the estimate of its metadata. *)

From stdpp Require Import prelude gmap strings sorting fin_map_dom pretty.
From Stdlib Require Import ZArith Lia.
From S2P Require Import Prelude Bytes Collections Proto Block BlockIndex Wal Cache BlockManager.
From S2P Require Import BlockManagerRefine EntryLoader Recovery.
Open Scope Z_scope.

(** ** Blocks up to their metadata estimate

    A change of a record's state keeps [metadata_size]; its replay, which stores
    the record again, adjusts it. *)

#[export] Instance Block_equiv : Equiv Block := λ b c,
  block_id b = block_id c ∧ size b = size c ∧ record_count b = record_count c ∧
  record_index b = record_index c.

#[export] Instance Block_equivalence : Equivalence (≡@{Block}).
Proof.
  split.
  - by intros b.
  - intros b c (? & ? & ? & ?). by split_and!.
  - intros b c d (? & ? & ? & ?) (? & ? & ? & ?). split_and!; congruence.
Qed.

Section Replay.
Context `{Prost}.
Implicit Types (b c : Block) (es : list WalEntry).

#[local] Instance fits_proper : Proper ((≡) ==> (=) ==> iff) fits.
Proof. intros b c (_ & Hs & Hc & _) r _ <-. unfold fits. by rewrite Hs, Hc. Qed.

(** Two results are blocks that agree, or the same failure. *)
Definition outcome_agree (o o' : outcome Block) : Prop :=
  match o, o' with Ok b, Ok c => b ≡ c | Err e, Err e' => e = e' | Panic, Panic => True | _, _ => False end.

Lemma insert_agree b c r :
  b ≡ c → outcome_agree (insert_or_update_record b r) (insert_or_update_record c r).
Proof.
  intros (Hi & Hs & Hc & Hr). unfold insert_or_update_record. rewrite Hi, Hs, Hc, Hr.
  destruct (rec_time r) as [k| |]; simpl; [|done..].
  destruct (record_index c !! k); simpl; by split_and!.
Qed.

Lemma insert_agree_ok b c r b' :
  b ≡ c → insert_or_update_record b r = Ok b' → ∃ c', insert_or_update_record c r = Ok c' ∧ b' ≡ c'.
Proof.
  intros Heq E. pose proof (insert_agree b c r Heq) as Ha. rewrite E in Ha.
  destruct (insert_or_update_record c r) as [c'| |]; [by exists c'|done..].
Qed.

#[local] Instance remove_record_proper : Proper ((≡) ==> (=) ==> (≡)) (λ b t, (remove_record b t).2).
Proof.
  intros b c (Hi & Hs & Hc & Hr) t _ <-. unfold remove_record. rewrite Hi, Hs, Hc, Hr.
  destruct (record_index c !! t); simpl; by split_and!.
Qed.

Lemma replayable_agree b c es : b ≡ c → replayable b es → replayable c es.
Proof.
  revert b c. induction es as [|e es IH]; intros b c Heq Hr; [done|].
  assert (∀ rec, rec_valid rec ∧ fits b rec ∧ is_Some (r_timestamp rec) ∧
      (∀ b', insert_or_update_record b rec = Ok b' → replayable b' es) →
    rec_valid rec ∧ fits c rec ∧ is_Some (r_timestamp rec) ∧
      (∀ c', insert_or_update_record c rec = Ok c' → replayable c' es)) as Hput.
  { intros rec (Hv & Hf & Hts & Hrest). rewrite <-Heq. split; [done|]. split; [done|]. split; [done|].
    intros c' E. destruct (insert_agree_ok c b rec c' (symmetry Heq) E) as (b' & Eb & Heq').
    by apply (IH b' c' (symmetry Heq')), Hrest. }
  destruct e as [rec|rec| |t]; simpl in *; [by apply Hput|by apply Hput|done|].
  eapply IH; [|exact Hr]. by apply (remove_record_proper b c Heq t t).
Qed.

(** A log that does not remove the block can be continued. *)
Lemma replay_app b es es' c :
  replay b es = Ok (c, false) → replay b (es ++ es') = replay c es'.
Proof.
  revert b. induction es as [|e es IH]; intros b; simpl; [by intros [= <-]|].
  destruct e as [rec|rec| |t]; simpl; [| |done|apply IH].
  all: destruct (insert_or_update_record b rec) as [b1| |]; simpl; [apply IH|done..].
Qed.

Lemma replayable_app b es es' c :
  replay b es = Ok (c, false) → replayable b es → replayable c es' → replayable b (es ++ es').
Proof.
  revert b. induction es as [|e es IH]; intros b; simpl; [by intros [= <-]|].
  destruct e as [rec|rec| |t]; simpl; [| |done|apply IH].
  all: intros E (? & ? & ? & Hrest) Hc; split; [done|]; split; [done|]; split; [done|]; intros b' Eb;
    rewrite Eb in E; simpl in E; by apply IH; [|apply Hrest|].
Qed.
End Replay.

Section Durability.
Context `{HashIter} `{Prost} `{ProstMinimal} `{Crc64} `{Zstd} `{Clock} (cfg : Cfg).
Context `{!HashIterLaws} `{!ProstLaws} `{!Crc64Laws}.
Context (Hprimary : replica cfg = false).
Implicit Types (s : BM) (a : gmap Z Block) (id r : Z) (b c : Block).

(** ** What the files of an entry determine *)

(** The descriptor of block [id] with its log amounts to [b]. *)
Definition logged s id b : Prop :=
  ∃ b0 es c, on_disk s id b0 ∧ block_ok id b0 ∧ wal_rep (wal s) id es ∧ replayable b0 es ∧
    replay b0 es = Ok (c, false) ∧ c ≡ b.

Record durable s a : Prop := {
  dur_index : index_current s;
  dur_blocks id b : a !! id = Some b → logged s id b;
  dur_logs id : a !! id = None → wal_files (wal s) !! id = None
}.

Lemma on_disk_store s s' id b : same_store s s' → on_disk s id b → on_disk s' id b.
Proof.
  intros (Hf & _ & Hi & _) (buf & v & e & ? & ? & ? & ?). exists buf, v, e. by rewrite Hf, Hi.
Qed.

Lemma durable_store s s' a : same_store s s' → durable s a → durable s' a.
Proof.
  intros Hst [Hc Hb Hl]. pose proof Hst as (Hf & Hw & Hi & Hcur). split; [auto| |by rewrite Hw].
  intros id b Hid. destruct (Hb id b Hid) as (b0 & es & c & Hd & Hrest). exists b0, es, c.
  rewrite Hw. split; [by eapply on_disk_store|done].
Qed.

Lemma durable_equiv s s' a : bm_equiv s s' → durable s a → durable s' a.
Proof. intros []. apply durable_store. by apply same_store_eq. Qed.

(** Saving a block replaces its descriptor and drops its log. *)
Lemma save_meta_durable D s a id r :
  rep cfg D s a → holds s a id r → durable s a → durable (save_meta_on_disk cfg r s).2 a.
Proof.
  intros Hrep Hh [Hc Hb Hl]. pose proof (save_meta_wal cfg Hprimary D s a id r Hrep Hh) as Hw.
  destruct (save_meta_rep cfg Hprimary D s a id r Hrep Hh) as (s' & E & _ & [Hd Hcur] & _).
  rewrite E in Hw |- *. simpl in *. split; [done| |].
  - intros i b Hi. destruct (decide (i = id)) as [->|Hne].
    + exists b, [], b. split; [apply Hd; by rewrite decide_True|].
      split; [by apply (rep_blocks _ _ _ _ Hrep)|]. split; [|done].
      rewrite Hw. split; [done|]. simpl. by rewrite lookup_delete_eq.
    + destruct (Hb i b Hi) as (b0 & es & c & Hd0 & Hok & Hlog & Hrest). exists b0, es, c.
      split; [apply Hd; by rewrite decide_False|]. split; [done|]. split; [|done]. rewrite Hw.
      pose proof (wal_remove_rep (wal s) id i es Hlog) as Hrem. by rewrite decide_False in Hrem.
  - intros i Hi. rewrite Hw. simpl. rewrite lookup_delete. case_decide; [done|]. by apply Hl.
Qed.

Lemma save_pending_durable D s a :
  NoDup D.*1 → rep cfg D s a → durable s a →
  durable (st_for (λ kr, save_meta_on_disk cfg kr.2) D s).2 a.
Proof.
  revert s. induction D as [|[id r] D IH]; intros s Hnd Hrep Hdur; [done|].
  pose proof (rep_pending _ _ _ _ Hrep) as Hp. apply Forall_cons in Hp as [Hh _]. simpl in Hh.
  pose proof (save_meta_durable _ s a id r Hrep Hh Hdur) as Hdur1.
  destruct (save_meta_rep cfg Hprimary _ s a id r Hrep Hh) as (s1 & E & Hrep1 & _).
  rewrite (filter_first id r D Hnd) in Hrep1. rewrite E in Hdur1.
  rewrite (st_for_cons (λ kr, save_meta_on_disk cfg kr.2) (id, r) D s s1 E).
  apply IH; [by inv Hnd|done|done].
Qed.

Lemma save_block_durable s a id r :
  rep cfg [(id, r)] s a → (∀ r', cached (read_cache s) !! read_key cfg id = Some r' → r' = r) →
  durable s a → durable (save_block cfg r s).2 a.
Proof.
  intros Hrep Hsr Hdur.
  pose proof (rep_pending _ _ _ _ Hrep) as Hp. apply Forall_cons in Hp as [Hh _].
  destruct Hh as (b & Hb & Hr). simpl in Hb, Hr.
  destruct (rep_blocks _ _ _ _ Hrep id b Hb) as (_ & Hid & _).
  unfold save_block. rewrite (st_bind_ok _ _ s b s) by (unfold deref; by rewrite Hr). rewrite Hid.
  destruct (insert_write_rep cfg s a id r Hrep Hsr) as (l & s1 & E & Hrep1 & Hnd & _ & Hf & _ & Hi & Hw & _).
  st_step E. apply save_pending_durable; [done|done|].
  eapply durable_store; [|exact Hdur]. by apply same_store_eq.
Qed.

(** ** Logging a change *)

(** An entry of the log that stores a record. *)
Definition puts (e : WalEntry) (rec : Rec) : Prop := e = WriteRecord rec ∨ e = UpdateRecord rec.

Lemma log_put s id b b' c' rec e :
  logged s id b → puts e rec → wal_entry_valid e → rec_valid rec → fits b rec → is_Some (r_timestamp rec) →
  insert_or_update_record b rec = Ok c' → c' ≡ b' →
  logged (set_wal (wal_append id e (wal s)).2 s) id b'.
Proof.
  intros (b0 & es & c & Hd & Hok & Hlog & Hrb & Hre & Heq) Hputs He Hv Hf Hts Hins Heq'.
  destruct (insert_agree_ok b c rec c' (symmetry Heq) Hins) as (c1 & Ec & Heq1).
  assert (replay c [e] = Ok (c1, false)) as Hlast by (destruct Hputs as [-> | ->]; simpl; by rewrite Ec).
  assert (replayable c [e]) as Hrc.
  { apply (replayable_agree b c); [done|]. destruct Hputs as [-> | ->]; simpl; exact (conj Hv (conj Hf (conj Hts (λ _ _, I)))). }
  exists b0, (es ++ [e]), c1. split; [done|]. split; [done|]. split; [by apply wal_append_rep|].
  split; [by eapply replayable_app|]. split; [by rewrite (replay_app _ _ _ _ Hre)|].
  rewrite <-Heq', Heq1. done.
Qed.

Lemma append_durable s a id b b' c' rec e :
  durable s a → a !! id = Some b → puts e rec → wal_entry_valid e → rec_valid rec → fits b rec →
  is_Some (r_timestamp rec) → insert_or_update_record b rec = Ok c' → c' ≡ b' →
  durable (set_wal (wal_append id e (wal s)).2 s) (<[id := b']> a).
Proof.
  intros [Hc Hb Hl] Hid Hputs He Hv Hf Hts Hins Heq. split; [done| |].
  - intros i bi. rewrite lookup_insert. case_decide as Hi.
    + intros [= <-]. subst i. exact (log_put s id b b' c' rec e (Hb id b Hid) Hputs He Hv Hf Hts Hins Heq).
    + intros Hbi. destruct (Hb i bi Hbi) as (b0 & es & c & Hd & Hok & Hlog & Hrest).
      exists b0, es, c. split; [done|]. split; [done|]. split; [|done]. by apply wal_append_other.
  - intros i [Hi Hne]%lookup_insert_None. bm_simpl.
    destruct (wal_files (wal_append id e (wal s)).2 !! i) as [f|] eqn:E; [|done].
    destruct (proj1 (wal_append_files (wal s) id e i)) as [->|[f' Hf']]; [by rewrite E|done|].
    by rewrite Hl in Hf'.
Qed.

(** The updates of [update_records], one log entry per record. *)
Lemma append_updates_durable s a id b b' recs :
  durable s a → a !! id = Some b → insertable b recs → insert_records b recs = Ok b' →
  Forall (λ rec, wal_entry_valid (UpdateRecord rec)) recs →
  durable (st_for (λ rec, wal_do (wal_append id (UpdateRecord rec))) recs s).2 (<[id := b']> a).
Proof.
  intros Hdur Hid Hins Hall Hv. revert s a b Hdur Hid Hins Hall.
  induction Hv as [|rec recs He Hv IH]; intros s a b Hdur Hid Hins Hall.
  { injection Hall as <-. by rewrite insert_id. }
  destruct Hins as (Hrv & Hf & Hts & Hrest).
  destruct (insert_or_update_record b rec) as [b1| |] eqn:E1.
  2,3: unfold insert_records in Hall; simpl in Hall; rewrite E1 in Hall; exfalso; revert Hall;
    clear; induction recs; simpl; [done|by apply IHrecs].
  rewrite (insert_records_cons b rec recs b1 E1) in Hall.
  rewrite (st_for_cons (λ rec, wal_do (wal_append id (UpdateRecord rec))) rec recs s
    (set_wal (wal_append id (UpdateRecord rec) (wal s)).2 s))
    by (unfold wal_do, wal_append; by destruct (wal_open id (wal s))).
  rewrite <-(insert_insert_eq a id b' b1). apply (IH _ _ b1); [|apply lookup_insert_eq|by apply Hrest|done].
  eapply append_durable; try done. by right.
Qed.

(** ** The requests *)

(** The records of a request can be written to the log.  A new block is not logged
    before its first record, so [full] excludes starting one. *)
Definition op_logged (full : bool) (o : bm_op) a : Prop :=
  match o with
  | OpStart _ _ => full = false
  | OpUpdate _ recs => Forall (λ rec, wal_entry_valid (UpdateRecord rec)) recs
  | OpFinish id st t => ∀ b rec, a !! id = Some b → get_record b t = Some rec →
      fits b rec ∧ Z.of_nat (length (encode_record (with_state (state_i32 st) rec))) < 2 ^ 63
  | _ => True
  end.

(** ** Only blocks of the write cache have logs *)

(** [D] are the blocks about to be saved. *)
Definition covered (D : list (Z * Z)) s : Prop :=
  ∀ i, is_Some (wal_files (wal s) !! i) → is_Some (cached (write_cache s) !! i) ∨ i ∈ D.*1.

Lemma covered_eq D s s' :
  wal s' = wal s → cached (write_cache s') = cached (write_cache s) → covered D s → covered D s'.
Proof. intros Hw Hc Hcov i. rewrite Hw, Hc. apply Hcov. Qed.

Lemma save_pending_covered D s a :
  NoDup D.*1 → rep cfg D s a → covered D s →
  covered [] (st_for (λ kr, save_meta_on_disk cfg kr.2) D s).2.
Proof.
  revert s. induction D as [|[id r] D IH]; intros s Hnd Hrep Hcov; [done|].
  pose proof (rep_pending _ _ _ _ Hrep) as Hp. apply Forall_cons in Hp as [Hh _]. simpl in Hh.
  pose proof (save_meta_wal cfg Hprimary _ s a id r Hrep Hh) as Hw.
  destruct (save_meta_rep cfg Hprimary _ s a id r Hrep Hh) as (s1 & E & Hrep1 & _ & _ & Hwc & _).
  rewrite (filter_first id r D Hnd) in Hrep1. rewrite E in Hw. simpl in Hw.
  rewrite (st_for_cons (λ kr, save_meta_on_disk cfg kr.2) (id, r) D s s1 E).
  apply IH; [by inv Hnd|done|]. intros i. rewrite Hw, Hwc. simpl.
  rewrite lookup_delete_is_Some. intros [Hne Hi]. destruct (Hcov i Hi) as [?|Hin]; [by left|right].
  rewrite fmap_cons in Hin. simpl in Hin. set_solver.
Qed.

Lemma save_block_covered s a id r :
  rep cfg [(id, r)] s a → (∀ r', cached (read_cache s) !! read_key cfg id = Some r' → r' = r) →
  covered [(id, r)] s → covered [] (save_block cfg r s).2.
Proof.
  intros Hrep Hsr Hcov.
  pose proof (rep_pending _ _ _ _ Hrep) as Hp. apply Forall_cons in Hp as [Hh _].
  destruct Hh as (b & Hb & Hr). simpl in Hb, Hr.
  destruct (rep_blocks _ _ _ _ Hrep id b Hb) as (_ & Hid & _).
  unfold save_block. rewrite (st_bind_ok _ _ s b s) by (unfold deref; by rewrite Hr). rewrite Hid.
  destruct (insert_write_rep cfg s a id r Hrep Hsr)
    as (l & s1 & E & Hrep1 & Hnd & _ & _ & _ & _ & Hw & _ & Hk).
  st_step E. apply (save_pending_covered l s1 a); [done|done|].
  intros i. rewrite Hw. intros Hi. apply Hk. destruct (Hcov i Hi) as [?|Hin]; [by right|left].
  by apply list_elem_of_singleton in Hin.
Qed.

(** Loading a block takes none out of the write cache. *)
Lemma load_keeps s a id :
  rep cfg [] s a → cached (write_cache (load_block cfg id s).2) = cached (write_cache s).
Proof.
  intros Hrep. destruct (a !! id) as [b|] eqn:Hb.
  2:{ destruct (load_block_unknown cfg Hprimary s a id Hrep Hb) as (s' & E & _ & _ & Hw). by rewrite E. }
  unfold load_block. destruct (get_read_spec cfg id s) as (s1 & E & He). st_step E.
  pose proof (rep_equiv _ _ _ _ _ He Hrep) as Hrep1. rewrite <-(eq_write _ _ He).
  assert (∀ r x, 0 ≤ cache_size (read_cache x) →
    cached (write_cache ((_ ← insert_read cfg id r; mret r) x).2) = cached (write_cache x)) as Hins.
  { intros r x Hx. destruct (insert_read_spec cfg id r x Hx) as (x1 & E1 & _ & _ & _ & _ & _ & Hwc & _).
    st_step E1. simpl. by rewrite Hwc. }
  assert (0 ≤ cache_size (read_cache s1)) as Hsz by apply Hrep1.
  rewrite <-(eq_read _ _ He).
  destruct (cached (write_cache s1) !! id) as [r|] eqn:Ew; [by apply Hins|].
  destruct (cached (read_cache s1) !! read_key cfg id) as [r|] eqn:Er; [by apply Hins|].
  st_step (load_from_disk_spec cfg [] s1 a id b Hrep1 (rep_blocks _ _ _ _ Hrep1 id b Hb)
    (rep_disk _ _ _ _ Hrep1 id b Hb Ew (not_elem_of_nil _))). etrans; [by apply Hins|done].
Qed.

Lemma append_covered id e r s :
  covered [] s → covered [(id, r)] (set_wal (wal_append id e (wal s)).2 s).
Proof.
  intros Hcov i. bm_simpl. intros [->|Hi]%wal_append_files; [right; by left|].
  destruct (Hcov i Hi) as [?|[]%not_elem_of_nil]. by left.
Qed.

Lemma append_updates_covered id r recs s :
  covered [(id, r)] s →
  covered [(id, r)] (st_for (λ rec, wal_do (wal_append id (UpdateRecord rec))) recs s).2.
Proof.
  revert s. induction recs as [|rec recs IH]; intros s Hcov; [done|].
  rewrite (st_for_cons (λ rec, wal_do (wal_append id (UpdateRecord rec))) rec recs s
    (set_wal (wal_append id (UpdateRecord rec) (wal s)).2 s))
    by (unfold wal_do, wal_append; by destruct (wal_open id (wal s))).
  apply IH. intros i. bm_simpl. intros [->|Hi]%wal_append_files; [right; by left|]. by apply Hcov.
Qed.

(** ** Both invariants through the requests

    [covered] holds always, [durable] from a flush on until a block is started. *)
Definition inv (full : bool) (D : list (Z * Z)) s a : Prop := covered D s ∧ (full = true → durable s a).

Lemma inv_eq full D s s' a :
  same_store s s' → cached (write_cache s') = cached (write_cache s) → inv full D s a → inv full D s' a.
Proof.
  intros Hst Hc [Hcov Hdur]. split; [by apply (covered_eq D s); [apply Hst|..]|].
  intros Hfull. eapply durable_store; [exact Hst|by apply Hdur].
Qed.

Lemma save_block_inv full s a id r :
  rep cfg [(id, r)] s a → (∀ r', cached (read_cache s) !! read_key cfg id = Some r' → r' = r) →
  inv full [(id, r)] s a → inv full [] (save_block cfg r s).2 a.
Proof.
  intros Hrep Hsr [Hcov Hdur]. split; [by eapply save_block_covered|].
  intros Hfull. eapply save_block_durable; [done|done|by apply Hdur].
Qed.

Lemma load_inv full s a id : rep cfg [] s a → inv full [] s a → inv full [] (load_block cfg id s).2 a.
Proof.
  intros Hrep. apply inv_eq; [|by eapply load_keeps]. destruct (a !! id) as [b|] eqn:Hb.
  - destruct (load_block_rep cfg s a id b Hrep Hb) as (r & s' & E & _ & _ & _ & Hf & Hi & Hw).
    rewrite E. by apply same_store_eq.
  - destruct (load_block_unknown cfg Hprimary s a id Hrep Hb) as (s' & E & _ & Hs & _). by rewrite E.
Qed.

Lemma append_inv full s a id r b b' c' rec e :
  inv full [] s a → a !! id = Some b → puts e rec → wal_entry_valid e → rec_valid rec → fits b rec →
  is_Some (r_timestamp rec) → insert_or_update_record b rec = Ok c' → c' ≡ b' →
  inv full [(id, r)] (set_wal (wal_append id e (wal s)).2 s) (<[id := b']> a).
Proof.
  intros [Hcov Hdur] Hid Hputs He Hv Hf Hts Hins Heq. split; [by apply append_covered|].
  intros Hfull. exact (append_durable s a id b b' c' rec e (Hdur Hfull) Hid Hputs He Hv Hf Hts Hins Heq).
Qed.

Lemma append_updates_inv full s a id r b b' recs :
  inv full [] s a → a !! id = Some b → insertable b recs → insert_records b recs = Ok b' →
  Forall (λ rec, wal_entry_valid (UpdateRecord rec)) recs →
  inv full [(id, r)] (st_for (λ rec, wal_do (wal_append id (UpdateRecord rec))) recs s).2 (<[id := b']> a).
Proof.
  intros [Hcov Hdur] Hid Hi Hall Hv. split.
  - apply append_updates_covered. intros i Hin. left. by destruct (Hcov i Hin) as [?|[]%not_elem_of_nil].
  - intros Hfull. by apply (append_updates_durable s a id b b' recs (Hdur Hfull)).
Qed.

Lemma update_inv full s a id b b' recs :
  rep cfg [] s a → inv full [] s a → a !! id = Some b → insertable b recs → insert_records b recs = Ok b' →
  Forall (λ rec, wal_entry_valid (UpdateRecord rec)) recs →
  inv full [] (update_records cfg id recs s).2 (<[id := b']> a).
Proof.
  intros Hrep Hdur Hb Hi Eb Hv. unfold update_records. st_step (decompress_block_spec cfg s a id Hrep).
  pose proof (load_inv full s a id Hrep Hdur) as Hinv1.
  destruct (load_block_rep cfg s a id b Hrep Hb) as (r & s1 & E1 & Hrep1 & Hh1 & Hs1 & _).
  rewrite E1 in Hinv1. simpl in Hinv1. st_step E1.
  pose proof (append_updates_inv full s1 a id r b b' recs Hinv1 Hb Hi Eb Hv) as Hinv2.
  destruct (append_all_spec id UpdateRecord recs s1) as [w Ew]. rewrite Ew in Hinv2. simpl in Hinv2. st_step Ew.
  assert (blocks s1 !! r = Some b) as Hr by (destruct Hh1 as (? & ? & ?); congruence).
  rewrite (st_bind_ok _ (deref r) (set_wal w s1) b (set_wal w s1))
    by (unfold deref; bm_simpl; by rewrite Hr).
  rewrite (st_bind_ok _ _ (set_wal w s1) b' (set_wal w s1)) by (unfold st_lift; by rewrite Eb).
  set (s2 := set_blocks (<[r := b']> (blocks s1)) (set_wal w s1)).
  rewrite (st_bind_ok _ (assign r b') (set_wal w s1) tt s2) by done.
  destruct (insert_records_ok id b recs (rep_blocks _ _ _ _ Hrep id b Hb) Hi) as (b1 & Eb1 & Hok).
  assert (b1 = b') as -> by congruence.
  apply (save_block_inv full s2 _ id r); [|exact (proj2 Hs1)|].
  - exact (assign_rep cfg Hprimary (set_wal w s1) a id r b' (rep_set_wal cfg [] s1 a w Hrep1) Hh1 Hs1 Hok).
  - apply (inv_eq full _ (set_wal w s1)); [by apply same_store_eq|done|exact Hinv2].
Qed.

(** The replay of a finished record stores it again. *)
Lemma replay_finished id b t st rec b' :
  block_ok id b → get_record b t = Some rec → fits b rec →
  change_record_state b t (state_i32 st) = Ok b' →
  ∃ c', insert_or_update_record b (with_state (state_i32 st) rec) = Ok c' ∧ c' ≡ b' ∧
    rec_valid (with_state (state_i32 st) rec) ∧ is_Some (r_timestamp (with_state (state_i32 st) rec)) ∧
    fits b (with_state (state_i32 st) rec).
Proof.
  intros (Hwf & Hid & Hv) Hrec Hf Hch. unfold get_record in Hrec.
  pose proof (wf_keys b Hwf t rec Hrec) as Hk. change (rec_time (with_state (state_i32 st) rec) = Ok t) in Hk.
  destruct (insert_or_update_record_spec b (with_state (state_i32 st) rec) t Hwf Hk Hf)
    as (c' & Ec & _ & Hid' & Hix & Hsz).
  unfold change_record_state in Hch. rewrite Hrec in Hch. injection Hch as <-.
  pose proof (wf_records b Hwf t rec Hrec) as [Hr1 Hr2].
  exists c'. split; [done|]. split; [|split; [|split; [|done]]].
  - split_and!; [done| | |done].
    + rewrite Hsz. unfold stored_len. rewrite Hrec. simpl. rewrite (rec_len_exact rec) by lia. lia.
    + unfold insert_or_update_record in Ec. rewrite Hk in Ec. simpl in Ec. rewrite Hrec in Ec.
      by injection Ec as <-.
  - destruct (Hv t rec Hrec) as (? & ? & ? & ? & ? & ?). split_and!; try done; by destruct st.
  - unfold rec_time in Hk. simpl in *. destruct (r_timestamp rec); [by eexists|done].
Qed.

(** The reference for [finish_write_record] is found without touching the store. *)
Lemma writable_ref_store s a id b :
  rep cfg [] s a → a !! id = Some b →
  ∃ r s', writable_ref cfg id s = (Ok r, s') ∧ rep cfg [] s' a ∧ blocks s' !! r = Some b ∧ sole cfg s' id r ∧
    same_store s s' ∧ cached (write_cache s') = cached (write_cache s).
Proof.
  intros Hrep Hb. destruct (writable_ref_rep cfg s a id b Hrep Hb)
    as (r & s' & E & Hrep' & Hr & Hs & Hf & Hw & Hi).
  exists r, s'. split; [done|]. split; [done|]. split; [done|]. split; [done|].
  split; [by apply same_store_eq|]. unfold writable_ref in E.
  destruct (get_write_spec id s) as (s1 & E1 & He). rewrite (st_bind_ok _ _ _ _ _ E1) in E.
  pose proof (rep_equiv _ _ _ _ _ He Hrep) as Hrep1. rewrite <-(eq_write _ _ He).
  pose proof (load_keeps s1 a id Hrep1) as Hk.
  destruct (cached (write_cache s) !! id) as [r1|]; [|by rewrite E in Hk].
  unfold mbind, ST_bind, deref in E. destruct (blocks s1 !! r1) as [b1|]; [|done].
  cbn [unwrap] in E. destruct (decide (block_id b1 = id)); [by injection E as _ <-|by rewrite E in Hk].
Qed.

Lemma finish_inv full s a id b b' st t rec :
  rep cfg [] s a → inv full [] s a → a !! id = Some b → get_record b t = Some rec → fits b rec →
  Z.of_nat (length (encode_record (with_state (state_i32 st) rec))) < 2 ^ 63 →
  change_record_state b t (state_i32 st) = Ok b' →
  inv full [] (finish_write_record cfg id st t s).2 (<[id := b']> a).
Proof.
  intros Hrep Hdur Hb Hrec Hf Hlen Eb. pose proof (rep_blocks _ _ _ _ Hrep id b Hb) as Hbok.
  destruct (change_state_ok id b t st rec Hbok Hrec) as (b1 & Eb1 & Hok & Hg).
  assert (b1 = b') as -> by congruence.
  destruct (replay_finished id b t st rec b' Hbok Hrec Hf Eb) as (c' & Ec & Heq & Hv & Hts & Hf').
  destruct (writable_ref_store s a id b Hrep Hb) as (r & s1 & E1 & Hrep1 & Hr & Hs1 & Hst1 & Hwc1).
  pose proof (inv_eq full [] s s1 a Hst1 Hwc1 Hdur) as Hinv1.
  unfold finish_write_record. st_step E1.
  rewrite (st_bind_ok _ (deref r) s1 b s1) by (unfold deref; by rewrite Hr).
  rewrite (st_bind_ok _ _ s1 b' s1) by (unfold st_lift; by rewrite Eb).
  set (s2 := set_blocks (<[r := b']> (blocks s1)) s1).
  rewrite (st_bind_ok _ (assign r b') s1 tt s2) by done.
  rewrite (st_bind_ok _ _ s2 (with_state (state_i32 st) rec) s2) by (unfold st_lift; by rewrite Hg).
  set (w := (wal_append id (WriteRecord (with_state (state_i32 st) rec)) (wal s2)).2).
  rewrite (st_bind_ok _ _ s2 tt (set_wal w s2))
    by (unfold wal_do, w, wal_append; by destruct (wal_open id (wal s2))).
  apply (save_block_inv full (set_wal w s2) _ id r); [|exact (proj2 Hs1)|].
  - apply rep_set_wal. apply (assign_rep cfg Hprimary s1 a id r b' Hrep1); [by exists b|done|done].
  - apply (inv_eq full _ (set_wal w s1)); [by apply same_store_eq|done|].
    apply (append_inv full s1 a id r b b' c' (with_state (state_i32 st) rec)); try done. by left.
Qed.

Lemma remove_inv full s a id :
  rep cfg [] s a → inv full [] s a → inv full [] (remove_block cfg id s).2 (delete id a).
Proof.
  intros Hrep [Hcov Hdur].
  destruct (remove_block_rep cfg Hprimary [] s a id Hrep) as (s' & E & _ & (Hw & Hi & Hcur & Hwc) & Hd); [done|].
  rewrite E. simpl. split.
  { intros i. rewrite Hw, remove_logs, Hwc, !lookup_delete_is_Some. intros [Hne Hs].
    destruct (Hcov i Hs) as [?|[]%not_elem_of_nil]. by left. }
  intros Hfull. destruct (Hdur Hfull) as [Hc Hb Hl]. split; [done| |].
  - intros i b [Hne Hib]%lookup_delete_Some.
    destruct (Hb i b Hib) as (b0 & es & c & (buf & v & e & Hf & Hdec & He & Hcrc) & Hok & Hlog & Hrest).
    exists b0, es, c. split.
    { exists buf, v, e. rewrite Hd by done. rewrite Hi. simpl. by rewrite lookup_delete_ne. }
    split; [done|]. split; [|done]. rewrite Hw.
    pose proof (wal_remove_rep _ id i es (wal_append_other (wal s) id i es RemoveBlock Hne Hlog)) as Hrem.
    by rewrite decide_False in Hrem.
  - intros i Hn. rewrite Hw, remove_logs, lookup_delete. case_decide; [done|].
    apply Hl. by rewrite lookup_delete_ne in Hn.
Qed.

Lemma start_inv s a id max :
  rep cfg [] s a → a !! id = None → is_u64 id → inv false [] s a →
  inv false [] (start_new_block cfg id max s).2 (<[id := block_new id]> a).
Proof.
  intros Hrep Hn Hid [Hcov _]. split; [|done]. unfold start_new_block.
  set (f' := <[Data id := (λ f, if filesystem_backend cfg then set_len (Z.to_nat max) f else f)
                            (default [] (files s !! Data id))]> (files s)).
  rewrite (st_bind_ok _ _ s tt (set_files f' s)) by done.
  rewrite (st_bind_ok _ _ _ tt
    (set_index (index_insert (block_index s) (new_block_entry id)) (set_files f' s))) by done.
  set (s2 := set_next_ref (next_ref s + 1) (set_blocks (<[next_ref s := block_new id]> (blocks s))
      (set_index (index_insert (block_index s) (new_block_entry id)) (set_files f' s)))).
  rewrite (st_bind_ok _ (alloc _) _ (next_ref s) s2) by done.
  assert (rep cfg [(id, next_ref s)] s2 (<[id := block_new id]> a)) as Hrep2.
  { apply add_block_rep; [done|congruence|by apply block_new_ok|]. intros i. by apply lookup_insert_ne. }
  pose proof (save_block_covered s2 _ id (next_ref s) Hrep2) as Hc2.
  destruct (save_block_rep cfg Hprimary s2 _ id (next_ref s) Hrep2) as (s3 & E & _).
  { intros r' Hr'. change (cached (read_cache s) !! read_key cfg id = Some r') in Hr'.
    by rewrite (rep_read_new cfg s a id Hrep Hn) in Hr'. }
  rewrite E in Hc2. st_step E. apply Hc2.
  - intros r' Hr'. change (cached (read_cache s) !! read_key cfg id = Some r') in Hr'.
    by rewrite (rep_read_new cfg s a id Hrep Hn) in Hr'.
  - intros i Hi. left. by destruct (Hcov i Hi) as [?|[]%not_elem_of_nil].
Qed.

(** Saving a block of the write cache keeps both. *)
Lemma save_meta_inv full s a id r :
  rep cfg [] s a → holds s a id r → inv full [] s a → inv full [] (save_meta_on_disk cfg r s).2 a.
Proof.
  intros Hrep Hh [Hcov Hdur]. split; [|intros Hfull; eapply (save_meta_durable []); eauto].
  pose proof (save_meta_wal cfg Hprimary [] s a id r Hrep Hh) as Hw.
  destruct (save_meta_rep cfg Hprimary [] s a id r Hrep Hh) as (s1 & E & _ & _ & _ & Hwc & _).
  rewrite E in Hw |- *. simpl in *. intros i. rewrite Hw, Hwc. simpl. rewrite lookup_delete_is_Some.
  intros [_ Hi]. by apply Hcov.
Qed.

Lemma finish_failed_inv full s a id st t :
  rep cfg [] s a → inv full [] s a → (a !! id ≫= λ b, get_record b t) = None →
  inv full [] (finish_write_record cfg id st t s).2 a.
Proof.
  intros Hrep Hinv Hnone. unfold finish_write_record. destruct (a !! id) as [b|] eqn:Hb; simpl in Hnone.
  - destruct (writable_ref_store s a id b Hrep Hb) as (r & s1 & E1 & _ & Hr & _ & Hst & Hwc). st_step E1.
    rewrite (st_bind_ok _ (deref r) s1 b s1) by (unfold deref; by rewrite Hr).
    rewrite (st_bind_err _ _ s1 NotFound s1); [by eapply inv_eq|].
    unfold st_lift, change_record_state. unfold get_record in Hnone. by rewrite Hnone.
  - destruct (get_write_spec id s) as (s0 & E0 & He). pose proof (rep_equiv _ _ _ _ _ He Hrep) as Hrep0.
    assert (inv full [] s0 a) as Hinv0 by (destruct He; eapply inv_eq; [by apply same_store_eq|done|done]).
    pose proof (load_inv full s0 a id Hrep0 Hinv0) as Hl.
    destruct (load_block_unknown cfg Hprimary s0 a id Hrep0 Hb) as (s1 & E & _). rewrite E in Hl.
    rewrite (st_bind_err _ _ s InternalServerError s1); [done|]. unfold writable_ref. st_step E0.
    destruct (cached (write_cache s) !! id) as [r|] eqn:Ew; [|done].
    destruct (rep_write _ _ _ _ Hrep id r Ew) as (b & ? & _). congruence.
Qed.

Lemma run_inv full o s a :
  rep cfg [] s a → op_ok o a → op_logged full o a → inv full [] s a →
  inv full [] (bm_run cfg o s).2 (bm_spec o a).2.
Proof.
  intros Hrep Hok Hlog Hinv.
  assert (∀ A (m : ST BM A) (k : A → ST BM (option Block)) a',
    inv full [] (m s).2 a' → (∀ x s1, (k x s1).2 = s1) → inv full [] (mbind k m s).2 a') as Hret.
  { intros A m k a' Hm Hk. unfold mbind, ST_bind. destruct (m s) as [[x|e|] s1]; simpl in *; try done.
    by rewrite Hk. }
  destruct o as [id max|id|id recs|id st t|id|]; simpl in *.
  - apply Hret; [|done]. subst full. destruct Hok. by apply start_inv.
  - apply Hret; [by apply load_inv|]. intros r s1. unfold mbind, ST_bind, deref.
    by destruct (blocks s1 !! r).
  - apply Hret; [|done]. destruct (a !! id) as [b|] eqn:Hb.
    + destruct (insert_records_ok id b recs (rep_blocks _ _ _ _ Hrep id b Hb) (Hok b eq_refl)) as (b' & Eb & _).
      rewrite Eb. simpl. by apply (update_inv full s a id b b' recs); auto.
    + pose proof (load_inv full s a id Hrep Hinv) as Hl. simpl.
      destruct (load_block_unknown cfg Hprimary s a id Hrep Hb) as (s1 & E & _).
      unfold update_records. st_step (decompress_block_spec cfg s a id Hrep).
      rewrite E in Hl. by rewrite (st_bind_err _ _ _ _ _ E).
  - apply Hret; [|done]. destruct (a !! id ≫= λ b, get_record b t) as [rec|] eqn:Hrec.
    + apply bind_Some in Hrec as (b & Hb & Hrec). rewrite Hb.
      destruct (change_state_ok id b t st rec (rep_blocks _ _ _ _ Hrep id b Hb) Hrec) as (b' & Eb & _).
      destruct (Hlog b rec Hb Hrec). rewrite Eb. by apply (finish_inv full s a id b b' st t rec).
    + replace (match a !! id with Some b => map_update a id (change_record_state b t (state_i32 st))
               | None => (Err InternalServerError, a) end).2 with a; [by apply finish_failed_inv|].
      destruct (a !! id) as [b|]; [|done]. simpl in Hrec. unfold get_record in Hrec.
      unfold change_record_state. by rewrite Hrec.
  - apply Hret; [by apply remove_inv|done].
  - apply Hret; [|done]. apply (save_cache_invariant cfg Hprimary (λ s, inv full [] s a) s a); try done.
    + intros s1 s2 []. by apply inv_eq; [apply same_store_eq|].
    + intros s1 id r Hrep1 Hh. by apply (save_meta_inv full s1 a id r).
Qed.

(** ** The crash *)

Fixpoint ops_logged (full : bool) (ops : list bm_op) a : Prop :=
  match ops with
  | [] => True
  | o :: ops' => op_logged full o a ∧ ops_logged full ops' (bm_spec o a).2
  end.

Lemma ops_ok_app ops ops' a :
  ops_ok (ops ++ ops') a → ops_ok ops a ∧ ops_ok ops' (spec_all ops a).2.
Proof.
  revert a. induction ops as [|o ops IH]; intros a; simpl; [done|]. intros [Ho Hr].
  destruct (bm_spec o a) as [x a1]. simpl in *. destruct (IH a1 Hr) as [? ?].
  by destruct (spec_all ops a1).
Qed.

Lemma spec_all_app ops ops' a : (spec_all (ops ++ ops') a).2 = (spec_all ops' (spec_all ops a).2).2.
Proof.
  revert a. induction ops as [|o ops IH]; intros a; simpl; [done|].
  destruct (bm_spec o a) as [x a1]. specialize (IH a1).
  destruct (spec_all (ops ++ ops') a1). by destruct (spec_all ops a1).
Qed.

Lemma run_all_inv full ops s a :
  rep cfg [] s a → ops_ok ops a → ops_logged full ops a → inv full [] s a →
  inv full [] (run_all cfg ops s).2 (spec_all ops a).2.
Proof.
  revert s a. induction ops as [|o ops IH]; intros s a Hrep Hok Hlog Hinv; [done|].
  destruct Hok as [Ho Hops]. destruct Hlog as [Hl Hls].
  pose proof (run_inv full o s a Hrep Ho Hl Hinv) as Hinv1.
  destruct (bm_run_sim cfg Hprimary o s a Hrep Ho) as [_ Hrep1]. simpl.
  destruct (bm_run cfg o s) as [x s1]. destruct (bm_spec o a) as [y a1]. simpl in *.
  specialize (IH s1 a1 Hrep1 Hops Hls Hinv1).
  destruct (run_all cfg ops s1). by destruct (spec_all ops a1).
Qed.

(** A flush removes the log of every block of the write cache. *)
Lemma save_refs_logs s a l :
  rep cfg [] s a → Forall (λ r, ∃ id, holds s a id r) l →
  ∀ i, is_Some (wal_files (wal (st_for (λ r, _ ← deref r; save_meta_on_disk cfg r) l s).2) !! i) →
    is_Some (wal_files (wal s) !! i) ∧ ∀ r, r ∈ l → holds s a i r → False.
Proof.
  revert s. induction l as [|r l IH]; intros s Hrep Hl i.
  { intros Hi. split; [done|]. by intros r []%not_elem_of_nil. }
  apply Forall_cons in Hl as [[id Hh] Hl].
  pose proof (save_meta_wal cfg Hprimary [] s a id r Hrep Hh) as Hw.
  destruct (save_meta_rep cfg Hprimary [] s a id r Hrep Hh) as (s1 & E & Hrep1 & _ & Hb1 & _).
  assert (∀ i r', holds s1 a i r' ↔ holds s a i r') as Hsame by (intros j r'; unfold holds; by rewrite Hb1).
  rewrite (st_for_cons (λ r, _ ← deref r; save_meta_on_disk cfg r) r l s s1).
  2:{ destruct Hh as (b & _ & Hr). by rewrite (st_bind_ok _ (deref r) s b s) by (unfold deref; by rewrite Hr). }
  rewrite E in Hw. simpl in Hw. intros Hi. apply IH in Hi as [Hi Hno]; [|done|].
  2:{ eapply Forall_impl; [exact Hl|]. intros r' [id' Hh']. exists id'. by apply Hsame. }
  rewrite Hw in Hi. simpl in Hi. apply lookup_delete_is_Some in Hi as [Hne Hi]. split; [done|].
  intros r' [->|Hr']%elem_of_cons Hh'.
  - apply Hne. exact (holds_inj cfg [] s a id i r Hrep Hh Hh').
  - apply (Hno r' Hr'). by apply Hsame.
Qed.

Lemma flush_no_logs s a :
  rep cfg [] s a → covered [] s → wal_files (wal (save_cache_on_disk cfg s).2) = ∅.
Proof.
  intros Hrep Hcov. unfold save_cache_on_disk.
  destruct (write_values_spec s) as (l & s1 & E1 & He & Hl). st_step E1.
  pose proof (rep_equiv _ _ _ _ _ He Hrep) as Hrep1.
  assert (∀ i r, cached (write_cache s) !! i = Some r → holds s1 a i r) as Hw
    by (intros i r Hr; apply (rep_write _ _ _ _ Hrep1); by rewrite (eq_write _ _ He)).
  apply map_empty. intros i. apply eq_None_not_Some. intros Hi.
  apply (save_refs_logs s1 a) in Hi as [Hi Hno]; [|done|].
  - rewrite (eq_wal _ _ He) in Hi. destruct (Hcov i Hi) as [[r Hr]|[]%not_elem_of_nil].
    apply (Hno r); [apply Hl; eauto|by apply Hw].
  - apply Forall_forall. intros r [k Hr]%Hl. exists k. by apply Hw.
Qed.

(** Right after a flush. *)
Lemma flushed_inv s a :
  rep cfg [] s a → (∀ i b, a !! i = Some b → on_disk s i b) → index_current s →
  wal_files (wal s) = ∅ → inv true [] s a.
Proof.
  intros Hrep Hd Hc Hw. split; [by intros i; rewrite Hw; intros []|].
  intros _. split; [done| |by intros; rewrite Hw].
  intros id b Hb. exists b, [], b. split; [by apply Hd|]. split; [by apply (rep_blocks _ _ _ _ Hrep)|].
  split; [|done]. split; [done|]. by rewrite Hw.
Qed.

(** The blocks as the descriptors have them. *)
Definition disk_block s id : option Block :=
  p ← files s !! Desc id ≫= decode_block;
  match block_from_proto (with_begin_time p id) with Ok b => Some b | _ => None end.

Lemma disk_block_on_disk s id b : block_ok id b → on_disk s id b → disk_block s id = Some b.
Proof.
  intros (Hwf & _ & _) (buf & v & e & Hf & Hdec & _). unfold disk_block. rewrite Hf. simpl. rewrite Hdec. simpl.
  change (with_begin_time (desc_proto b v) id) with (desc_proto b v).
  pose proof (block_proto_roundtrip b Hwf) as Hrt.
  change (block_from_proto (desc_proto b v)) with (block_from_proto (block_to_proto b)). by rewrite Hrt.
Qed.

Definition disk_blocks s a : gmap Z Block := map_imap (λ id _, disk_block s id) a.

Lemma lookup_disk_blocks s a id b :
  durable s a → a !! id = Some b → ∃ b0 es c, disk_blocks s a !! id = Some b0 ∧ on_disk s id b0 ∧
    block_ok id b0 ∧ wal_rep (wal s) id es ∧ replayable b0 es ∧ replay b0 es = Ok (c, false) ∧ c ≡ b.
Proof.
  intros Hdur Hb. destruct (dur_blocks _ _ Hdur id b Hb) as (b0 & es & c & Hd & Hok & Hrest).
  exists b0, es, c. split; [|done]. unfold disk_blocks. rewrite map_lookup_imap, Hb. simpl.
  by apply disk_block_on_disk.
Qed.

Lemma disk_blocks_none s a id : a !! id = None → disk_blocks s a !! id = None.
Proof. intros Hn. unfold disk_blocks. by rewrite map_lookup_imap, Hn. Qed.

(** A manager built on the files represents what the descriptors have. *)
Lemma crash_rep s a wal_fs rc cells fresh :
  rep cfg [] s a → durable s a → foreign cfg rc → (∀ r, fresh ≤ r → cells !! r = None) →
  rep cfg [] (bm_build (files s) (block_index s) wal_fs rc cells fresh) (disk_blocks s a) ∧
  described (bm_build (files s) (block_index s) wal_fs rc cells fresh) (disk_blocks s a).
Proof.
  intros Hrep Hdur [Hs Hrc] Hcells.
  assert (∀ id b0, disk_blocks s a !! id = Some b0 → on_disk s id b0 ∧ block_ok id b0) as Hall.
  { intros id b0 Hb0. destruct (a !! id) as [b|] eqn:Hb; [|by rewrite disk_blocks_none in Hb0].
    destruct (lookup_disk_blocks s a id b Hdur Hb) as (b1 & es & c & Hb1 & ? & ? & _). split; congruence. }
  split.
  - split; unfold bm_build; bm_simpl; try done; try apply Hrep.
    + rewrite (rep_dom _ _ _ _ Hrep). apply set_eq. intros id. rewrite !elem_of_dom. split.
      * intros [b Hb]. destruct (lookup_disk_blocks s a id b Hdur Hb) as (b1 & _ & _ & Hb1 & _). by eexists.
      * intros [b Hb]. destruct (a !! id) eqn:Ha; [by eexists|]. by rewrite disk_blocks_none in Hb.
    + intros id b0 Hb0. by apply Hall.
    + intros id r Hr. by rewrite Hrc in Hr.
    + intros id b0 Hb0 _ _. destruct (Hall id b0 Hb0) as [? _]. done.
  - intros id [b0 Hb0]. destruct (Hall id b0 Hb0) as [(buf & ? & ? & Hf & _) _]. by exists buf.
Qed.

Lemma logged_log_ok s a id f :
  rep cfg [] s a → durable s a → wal_files (wal s) !! id = Some f →
  ∃ b, a !! id = Some b ∧ log_ok id f (disk_blocks s a !! id) ∧
    ∃ c, after_log id f (disk_blocks s a !! id) = Some c ∧ c ≡ b.
Proof.
  intros Hrep Hdur Hf. destruct (a !! id) as [b|] eqn:Hb; [|by rewrite (dur_logs _ _ Hdur id Hb) in Hf].
  exists b. split; [done|].
  destruct (lookup_disk_blocks s a id b Hdur Hb) as (b0 & es & c & -> & _ & Hok & Hlog & Hrb & Hre & Heq).
  pose proof (wal_rep_read (wal s) id es f Hlog Hf) as Hread. unfold wal_read in Hread. rewrite Hf in Hread.
  unfold log_ok, after_log, log_entries. rewrite Hread. simpl. rewrite Hre. split.
  - split; [|done]. destruct Hok as (Hwf & <- & _). apply Hwf.
  - by exists c.
Qed.

(** The load of a block, compared with what it was. *)
Definition loads_as (o : outcome (option Block)) (expected : option Block) : Prop :=
  match expected with
  | Some b => ∃ c, o = Ok (Some c) ∧ c ≡ b
  | None => o = Err InternalServerError
  end.

Lemma crash_recovers s a rc cells fresh :
  rep cfg [] s a → durable s a → foreign cfg rc → (∀ r, fresh ≤ r → cells !! r = None) →
  ∃ s', restore_uncommitted_changes cfg (bm_build (files s) (block_index s) (wal_files (wal s)) rc cells fresh)
          = (Ok tt, s') ∧ wal_files (wal s') = ∅ ∧
    ∀ id, loads_as (bm_run cfg (OpLoad id) s').1 (a !! id).
Proof.
  intros Hrep Hdur Hrc Hcells.
  destruct (crash_rep s a (wal_files (wal s)) rc cells fresh Hrep Hdur Hrc Hcells) as [Hrep0 Hdesc].
  destruct (restore_uncommitted_rep cfg Hprimary _ _ Hrep0 Hdesc) as (s' & E & Hrep' & Hw).
  { intros id f Hf. by destruct (logged_log_ok s a id f Hrep Hdur Hf) as (b & _ & ? & _). }
  exists s'. split; [done|]. split; [done|]. intros id.
  destruct (bm_run_sim cfg Hprimary (OpLoad id) s' _ Hrep' I) as [-> _]. simpl.
  rewrite (lookup_recovered cfg Hprimary). cbn [bm_build wal wal_try_build wal_files].
  destruct (wal_files (wal s) !! id) as [f|] eqn:Hf.
  - destruct (logged_log_ok s a id f Hrep Hdur Hf) as (b & -> & _ & c & -> & ?). by exists c.
  - destruct (a !! id) as [b|] eqn:Hb.
    + destruct (lookup_disk_blocks s a id b Hdur Hb) as (b0 & es & c & -> & _ & _ & [_ Hlog] & _ & Hre & ?).
      rewrite Hf in Hlog. subst es. injection Hre as <-. by exists b0.
    + by rewrite disk_blocks_none.
Qed.

(** C3: Acknowledged changes survive a crash.  Let the manager of a primary serve any requests
    (its blocks are neither compressed nor marked as corrupted), flush
    its write cache, and go on serving loads, updates of records, finished
    records, removals of blocks and further flushes; then kill the process, so
    that only the files and the log files remain.  The new process loads the
    index file, the recovery returns with no log left, and every block is then
    loaded with exactly the records, the record count and the size it had at the
    crash (only the estimate of the metadata size may differ); blocks that were
    removed, or never there, are unknown. *)
Theorem acknowledged_changes_survive_crash
    (ops0 ops : list bm_op) (fs : gmap path (list Z)) (rc rc' : Cache string Z)
    (cells cells' : gmap Z Block) (fresh fresh' : Z) (dir : list string) :
  foreign cfg rc → (∀ r, fresh ≤ r → cells !! r = None) →
  foreign cfg rc' → (∀ r, fresh' ≤ r → cells' !! r = None) →
  ".meta" ∉ dir → ".meta.zst" ∉ dir →
  ops_ok (ops0 ++ ops) ∅ → ops_logged false ops0 ∅ → ops_logged true ops (spec_all ops0 ∅).2 →
  let s0 := (run_all cfg ops0 (bm_build fs index_new ∅ rc cells fresh)).2 in
  let s := (run_all cfg ops (save_cache_on_disk cfg s0).2).2 in
  let a := (spec_all (ops0 ++ ops) ∅).2 in
  cached (write_cache s0) ≠ ∅ →
  ∃ ix s', try_load (files s !! IndexFile) dir = Ok ix ∧
    restore_uncommitted_changes cfg (bm_build (files s) ix (wal_files (wal s)) rc' cells' fresh')
      = (Ok tt, s') ∧ wal_files (wal s') = ∅ ∧
    ∀ id, loads_as (bm_run cfg (OpLoad id) s').1 (a !! id).
Proof.
  intros Hrc Hcells Hrc' Hcells' Hd1 Hd2 [Hok0 Hok]%ops_ok_app Hlog0 Hlog s0 s a Hne.
  pose proof (rep_init cfg fs rc cells fresh ∅ Hrc Hcells) as Hinit.
  destruct (run_all_sim cfg Hprimary ops0 _ ∅ Hinit Hok0) as [_ Hrep0].
  assert (inv false [] (bm_build fs index_new ∅ rc cells fresh) ∅) as Hinv0.
  { split; [|done]. intros i. cbn. rewrite lookup_empty. by intros []. }
  destruct (run_all_inv false ops0 _ ∅ Hinit Hok0 Hlog0 Hinv0) as [Hcov0 _].
  fold s0 in Hrep0, Hcov0. pose proof (flush_no_logs s0 _ Hrep0 Hcov0) as Hw1.
  destruct (save_cache_rep cfg Hprimary s0 _ Hrep0) as (s1 & E & Hrep1 & Hdisk & [?|Hcur]); [done|].
  unfold s. rewrite E in Hw1 |- *. cbn [snd] in Hw1 |- *.
  pose proof (flushed_inv s1 _ Hrep1 Hdisk Hcur Hw1) as Hinv1.
  destruct (run_all_inv true ops s1 _ Hrep1 Hok Hlog Hinv1) as [_ Hdur]. specialize (Hdur eq_refl).
  destruct (run_all_sim cfg Hprimary ops s1 _ Hrep1 Hok) as [_ Hrep2].
  unfold a. rewrite spec_all_app.
  destruct (crash_recovers _ _ rc' cells' fresh' Hrep2 Hdur Hrc' Hcells') as (s' & E' & Hw' & Hload).
  exists (block_index (run_all cfg ops s1).2), s'. split; [|done].
  eapply (index_current_load cfg); [exact Hrep2|apply Hdur|done|done].
Qed.
End Durability.

(** ** A removal that was not completed *)
Section Truncation.
Context `{HashIter} `{Prost} `{ProstMinimal} `{Crc64} `{Zstd} `{Clock} (cfg : Cfg).
Context `{!HashIterLaws} `{!ProstLaws} `{!Crc64Laws}.
Context (Hprimary : replica cfg = false).
Implicit Types (s : BM) (a : gmap Z Block) (id r : Z) (b : Block) (f : list Z).

(** Saving a descriptor leaves the data files alone. *)
Lemma save_meta_data D s a id r i :
  rep cfg D s a → holds s a id r → files (save_meta_on_disk cfg r s).2 !! Data i = files s !! Data i.
Proof.
  intros Hrep (b & Hb & Hr). destruct (rep_blocks _ _ _ _ Hrep id b Hb) as (Hwf & _ & _).
  destruct (save_meta_spec cfg Hprimary s r b Hr Hwf (rep_entries _ _ _ _ Hrep)) as (ixbuf & _ & ->).
  cbn [snd]. bm_simpl. by rewrite !lookup_insert_ne by done.
Qed.

Lemma save_cache_data s a i : rep cfg [] s a → files (save_cache_on_disk cfg s).2 !! Data i = files s !! Data i.
Proof.
  intros Hrep. apply (save_cache_invariant cfg Hprimary (λ s', files s' !! Data i = files s !! Data i) s a); [| |done|done].
  - intros s1 s2 He. by rewrite (eq_files _ _ He).
  - intros s1 id r Hrep1 Hh Hd. by rewrite (save_meta_data [] s1 a id r i).
Qed.

(** Finishing a block cuts its data file to the size of the block. *)
Lemma finish_block_data D s a id r b :
  rep cfg D s a → blocks s !! r = Some b → a !! id = Some b →
  files (finish_block cfg r s).2 !! Data id = Some (set_len (Z.to_nat (size b)) (default [] (files s !! Data id))).
Proof.
  intros Hrep Hr Hb. destruct (rep_blocks _ _ _ _ Hrep id b Hb) as (_ & Hid & _).
  unfold finish_block. rewrite (st_bind_ok _ (deref r) s b s) by (unfold deref; by rewrite Hr).
  set (f' := <[Data (block_id b) := set_len (Z.to_nat (size b)) (default [] (files s !! Data (block_id b)))]> (files s)).
  rewrite (st_bind_ok _ _ s tt (set_files f' s)) by done.
  rewrite (save_meta_data D (set_files f' s) a id r id).
  - bm_simpl. unfold f'. by rewrite Hid, lookup_insert_eq.
  - apply rep_set_files; [|done]. intros i. by apply lookup_insert_ne.
  - by exists b.
Qed.

Lemma apply_entries_data s a id b es b' :
  rep cfg [] s a → described s a → a !! id = Some b → replay b es = Ok (b', false) → block_ok id b' →
  files (apply_entries cfg id es s).2 !! Data id =
    Some (set_len (Z.to_nat (size b')) (default [] (files s !! Data id))).
Proof.
  intros Hrep Hdesc Hb Hre Hok.
  destruct (load_block_rep cfg s a id b Hrep Hb) as (r & s1 & E & Hrep1 & Hh & Hs & Hf & _ & _).
  assert (blocks s1 !! r = Some b) as Hr by (destruct Hh as (b0 & ? & ?); congruence).
  unfold apply_entries. rewrite (st_bind_ok _ (block_for_log cfg id) s r s1).
  2:{ unfold block_for_log. rewrite (st_bind_ok _ (exist id) s true s).
      - unfold st_catch. by rewrite E.
      - unfold exist, fs_exists. by rewrite bool_decide_true by (apply Hdesc; eauto). }
  rewrite (st_bind_ok _ (deref r) s1 b s1) by (unfold deref; by rewrite Hr).
  rewrite (st_bind_ok _ (st_lift (replay b es)) s1 (b', false) s1) by (unfold st_lift; by rewrite Hre).
  set (s2 := set_blocks (<[r := b']> (blocks s1)) s1).
  rewrite (st_bind_ok _ (assign r b') s1 tt s2) by done.
  pose proof (assign_rep cfg Hprimary s1 a id r b' Hrep1 Hh Hs Hok) as Hrep2. fold s2 in Hrep2.
  rewrite (finish_block_data _ s2 _ id r b' Hrep2).
  - unfold s2. bm_simpl. by rewrite Hf.
  - unfold s2. bm_simpl. by rewrite lookup_insert_eq.
  - by rewrite lookup_insert_eq.
Qed.

(** The only log. *)
Lemma recovered_data s a id b f es b' :
  rep cfg [] s a → described s a → wal_files (wal s) = {[id := f]} → log_entries f = Ok es → a !! id = Some b →
  replayable b es → replay b es = Ok (b', false) → block_ok id b' →
  ∃ s', restore_uncommitted_changes cfg s = (Ok tt, s') ∧ (bm_run cfg (OpLoad id) s').1 = Ok (Some b') ∧
    files s' !! Data id = Some (set_len (Z.to_nat (size b')) (default [] (files s !! Data id))).
Proof.
  intros Hrep Hdesc Hw Hes Hb Hable Hre Hok.
  assert (∀ i f', wal_files (wal s) !! i = Some f' → log_ok i f' (a !! i)) as Hlogs.
  { intros i f'. rewrite Hw. intros [<- <-]%lookup_singleton_Some. rewrite Hb. split; [|by rewrite Hes].
    destruct Hok as (Hwf & <- & _). apply Hwf. }
  destruct (restore_uncommitted_rep cfg Hprimary s a Hrep Hdesc Hlogs) as (s' & E & Hrep' & _).
  exists s'. split_and!; [done| |].
  - destruct (bm_run_sim cfg Hprimary (OpLoad id) s' _ Hrep' I) as [-> _]. simpl.
    rewrite (lookup_recovered cfg Hprimary), Hw, lookup_singleton_eq, Hb. unfold after_log. rewrite Hes. simpl. by rewrite Hre.
  - unfold restore_uncommitted_changes in E. rewrite Hw in E.
    assert (bt_elements (dom ({[id := f]} : gmap Z (list Z))) = [id]) as Hids.
    { apply Permutation_length_1_inv. symmetry. apply NoDup_Permutation; [apply bt_elements_nodup|apply NoDup_singleton|].
      intros i. rewrite elem_of_bt_elements. set_solver. }
    rewrite Hids in E.
    destruct (restore_log_rep cfg Hprimary s a id f Hrep Hdesc) as (s1 & E1 & Hrep1 & _).
    { by rewrite Hw, lookup_singleton_eq. }
    { apply Hlogs. by rewrite Hw, lookup_singleton_eq. }
    assert (apply_entries cfg id es s = (Ok tt, s1)) as Ea.
    { rewrite <- E1. unfold restore_log, wal_read. rewrite Hw, lookup_singleton_eq. fold (log_entries f). by rewrite Hes. }
    rewrite (st_bind_ok _ (st_for (restore_log cfg) [id]) s tt s1) in E
      by (by rewrite (st_for_cons (restore_log cfg) id [] s s1 E1)).
    pose proof (save_cache_data s1 _ id Hrep1) as Hd. rewrite E in Hd. simpl in Hd. rewrite Hd.
    rewrite <- (apply_entries_data s a id b es b' Hrep Hdesc Hb Hre Hok). by rewrite Ea.
Qed.

(** What the removals of a log leave: the other records, where they were. *)
Lemma replay_removals id b (ts : list Z) :
  block_ok id b → ∃ b', replay b (RemoveRecord <$> ts) = Ok (b', false) ∧ block_ok id b' ∧
    replayable b (RemoveRecord <$> ts) ∧ size b' ≤ size b ∧
    (∀ t (x : Rec), t ∉ ts → record_index b !! t = Some x → record_index b' !! t = Some x) ∧
    (∀ t (x : Rec), t ∈ ts → record_index b !! t = Some x → r_begin x < r_end x → size b' < size b).
Proof.
  revert b. induction ts as [|t0 ts IH]; intros b Hok.
  { exists b. split_and!; [done..|]. by intros t r ?%not_elem_of_nil. }
  pose proof Hok as (Hwf & _ & _). pose proof (remove_record_spec b t0 Hwf) as Hs.
  destruct (IH _ (remove_record_ok id b t0 Hok)) as (b' & E & Hok' & Hable & Hle & Hkept & Hless).
  destruct (remove_record b t0) as [o b1] eqn:E1. destruct Hs as (_ & _ & _ & Hix & Hsz & _). simpl in *.
  assert (0 ≤ stored_len b t0) as Hpos.
  { unfold stored_len. destruct (record_index b !! t0) as [r|]; [apply rec_len_range|done]. }
  exists b'. rewrite E1. split_and!; [done..|lia| |].
  - intros t r Ht Hr. apply Hkept; [set_solver|]. rewrite Hix, lookup_delete_ne by set_solver. done.
  - intros t r Ht Hr Hlen. destruct (decide (t = t0)) as [->|Hne].
    + assert (stored_len b t0 = r_end r - r_begin r); [|lia].
      unfold stored_len. rewrite Hr. destruct (wf_records _ Hwf _ _ Hr). by apply rec_len_exact.
    + assert (size b' < size b1); [|lia]. apply (Hless t r); [set_solver| |done].
      by rewrite Hix, lookup_delete_ne by done.
Qed.

(** C38: Recovering a removal of records that was not completed destroys the content of
    records that stay.  The removals of a block are logged before its data file is
    rewritten; when the process stops in between, and the log of the block is the only one,
    the recovery takes the records out of the block and leaves the others at their
    positions, but cuts the data file to the size of what is left.  So when a record that is
    removed was not empty, and another one ends at the size of the block or behind it (as
    the last record of a block does), that record is still in the block at its old position,
    and the data file ends before it does.  This is shown for uncompressed and uncorrupted
    blocks of a primary. *)
Theorem replayed_removal_truncates_data s a id b f ts t rec t2 rec2 :
  rep cfg [] s a → described s a → wal_files (wal s) = {[id := f]} → log_entries f = Ok (RemoveRecord <$> ts) →
  a !! id = Some b → t ∈ ts → record_index b !! t = Some rec → r_begin rec < r_end rec →
  t2 ∉ ts → record_index b !! t2 = Some rec2 → size b ≤ r_end rec2 →
  ∃ s' b' data, restore_uncommitted_changes cfg s = (Ok tt, s') ∧ (bm_run cfg (OpLoad id) s').1 = Ok (Some b') ∧
    record_index b' !! t2 = Some rec2 ∧
    files s' !! Data id = Some data ∧ Z.of_nat (length data) = size b' ∧ size b' < r_end rec2.
Proof.
  intros Hrep Hdesc Hw Hes Hb Ht Hrec Hlen Ht2 Hrec2 Hend.
  pose proof (rep_blocks _ _ _ _ Hrep id b Hb) as Hok.
  destruct (replay_removals id b ts Hok) as (b' & Hre & Hok' & Hable & _ & Hkept & Hless).
  destruct (recovered_data s a id b f _ b' Hrep Hdesc Hw Hes Hb Hable Hre Hok') as (s' & E & Hload & Hdata).
  eexists s', b', _. split_and!; [done|done|by eapply Hkept|exact Hdata| |].
  - rewrite length_set_len. destruct Hok' as (Hwf & _). pose proof (wf_size_bound _ Hwf). u64_lia.
  - specialize (Hless t rec Ht Hrec Hlen). lia.
Qed.
End Truncation.

(** ** Witness *)
Section Witness.
Existing Instance std_order.
Existing Instance std_order_laws.
Existing Instance Toy.prost.
Existing Instance Toy.prost_laws.
Existing Instance Toy.digest.
Existing Instance Toy.digest_laws.
Existing Instance demo_zstd.
Existing Instance demo_clock.

Definition demo_changes : list bm_op := [OpUpdate 100 [rec_at 100 0 7]; OpRemove 300].

Lemma demo_changes_ok : ops_ok (demo_starts ++ demo_changes) ∅.
Proof.
  cbn [demo_starts demo_changes app ops_ok op_ok bm_spec snd].
  split; [split; [done|u64_lia]|]. split; [split; [by vm_compute|u64_lia]|]. split; [|by split].
  intros b Hb. vm_compute in Hb. injection Hb as <-. split; [exact demo_rec_valid|].
  split; [unfold fits; cbn [rec_at r_begin r_end size record_count]; u64_lia|]. split; [by eexists|done].
Qed.

Lemma demo_changes_logged : ops_logged true demo_changes (spec_all demo_starts ∅).2.
Proof.
  split; [|by split]. apply Forall_singleton. split; [exact demo_rec_valid|]. by vm_compute.
Qed.

Lemma demo_starts_cached :
  cached (write_cache (run_all demo_cfg demo_starts (bm_build ∅ index_new ∅ demo_rc ∅ 0)).2) ≠ ∅.
Proof. vm_compute. intros Heq. discriminate Heq. Qed.

Lemma acknowledged_changes_survive_crash_witness :
  let s0 := (run_all demo_cfg demo_starts (bm_build ∅ index_new ∅ demo_rc ∅ 0)).2 in
  let s := (run_all demo_cfg demo_changes (save_cache_on_disk demo_cfg s0).2).2 in
  ∃ ix s', try_load (files s !! IndexFile) ["100.meta"; "100.blk"] = Ok ix ∧
    restore_uncommitted_changes demo_cfg (bm_build (files s) ix (wal_files (wal s)) demo_rc ∅ 0) = (Ok tt, s') ∧
    loads_as (bm_run demo_cfg (OpLoad 300) s').1 None.
Proof.
  destruct (acknowledged_changes_survive_crash demo_cfg eq_refl demo_starts demo_changes ∅ demo_rc demo_rc
    ∅ ∅ 0 0 ["100.meta"; "100.blk"] demo_rc_foreign ltac:(done) demo_rc_foreign ltac:(done)
    ltac:(set_solver) ltac:(set_solver) demo_changes_ok ltac:(by repeat split) demo_changes_logged
    demo_starts_cached) as (ix & s' & Hload & E & _ & Hids).
  exists ix, s'. split; [exact Hload|]. split; [exact E|].
  pose proof (Hids 300) as H3. rewrite spec_all_app in H3.
  cbn [demo_changes spec_all bm_spec snd] in H3. exact H3.
Defined.

(** Two records of a byte each are on disk; the removal of the first was logged, and
    the process stopped before the data file was rewritten. *)
Definition bare_record (t b e : Z) : Rec := mkRec (Some (us_to_ts t)) b e (state_i32 Finished) [] "".
Definition two_records : Block :=
  mkBlock 0 2 2 0 {[0 := bare_record 0 0 1; 1000000 := bare_record 1000000 1 2]}.
Definition half_removed : BM :=
  bm_build {[Desc 0 := encode_block (desc_proto two_records 1); Data 0 := [10; 20]]}
    (index_insert index_new (saved_entry two_records 1))
    {[0 := wal_frames [RemoveRecord 0] ++ [STOP_MARKER]]} demo_rc ∅ 0.

Lemma bare_record_valid t b e :
  is_u64 t → 0 ≤ b ≤ e → e < two64 → rec_valid (bare_record t b e).
Proof.
  intros Ht Hb He. split_and!; cbn [bare_record r_timestamp r_begin r_end r_state state_i32]; try u64_lia; try reflexivity.
  - intros ts [= <-]. by apply us_to_ts_valid.
  - by constructor.
Qed.

Lemma two_records_ok : block_ok 0 two_records.
Proof.
  split_and!; [|done|].
  - split; cbn [two_records block_id size record_count metadata_size record_index]; try u64_lia.
    + by apply map_Forall_insert_2; [|apply map_Forall_singleton].
    + apply map_Forall_insert_2; [|apply map_Forall_singleton]; cbn; u64_lia.
    + by vm_compute.
    + by vm_compute.
  - apply map_Forall_insert_2; [|apply map_Forall_singleton]; apply bare_record_valid; u64_lia.
Qed.

Lemma half_removed_rep : rep demo_cfg [] half_removed {[0 := two_records]} ∧ described half_removed {[0 := two_records]}.
Proof.
  split.
  2:{ intros id [b [<- _]%lookup_singleton_Some]. unfold half_removed, bm_build. bm_simpl. by rewrite lookup_insert_eq. }
  split; unfold half_removed, bm_build; bm_simpl; try done.
  - auto with index.
  - apply index_insert_entries_ok; [by eexists|reflexivity|reflexivity| |apply map_Forall_empty]. apply saved_entry_valid; [apply two_records_ok|u64_lia].
  - apply map_Forall_singleton, two_records_ok.
  - intros id b [<- <-]%lookup_singleton_Some _ _. eexists _, 1, _. bm_simpl. split_and!.
    + by rewrite lookup_insert_eq.
    + apply decode_encode_block, (desc_proto_valid 0); [apply two_records_ok|u64_lia].
    + by vm_compute.
    + by right; vm_compute.
Qed.

Lemma replayed_removal_truncates_data_witness :
  ∃ s' b' data, restore_uncommitted_changes demo_cfg half_removed = (Ok tt, s') ∧
    (bm_run demo_cfg (OpLoad 0) s').1 = Ok (Some b') ∧
    record_index b' !! 1000000 = Some (bare_record 1000000 1 2) ∧
    files s' !! Data 0 = Some data ∧ Z.of_nat (length data) < 2.
Proof.
  destruct half_removed_rep as [Hrep Hdesc].
  destruct (replayed_removal_truncates_data demo_cfg eq_refl half_removed {[0 := two_records]} 0 two_records
    (wal_frames [RemoveRecord 0] ++ [STOP_MARKER]) [0] 0 (bare_record 0 0 1) 1000000 (bare_record 1000000 1 2) Hrep Hdesc)
    as (s' & b' & data & E & Hload & Hrec & Hdata & Hlen & Hlt).
  - reflexivity.
  - by vm_compute.
  - reflexivity.
  - set_solver.
  - by vm_compute.
  - cbn. lia.
  - set_solver.
  - by vm_compute.
  - cbn. lia.
  - exists s', b', data. split; [exact E|]. split; [exact Hload|]. split; [exact Hrec|]. split; [exact Hdata|].
    cbn in Hlt. lia.
Defined.
End Witness.
