(* ===== verification/Text.v ===== *)
(** * Text: the string operations of the Rust standard library that the query
    language uses

    A [&str] is its UTF-8 bytes, a [string].  Decimal integers ([str::parse] and
    [Display] of [i64]), white space ([trim], [split_whitespace]), prefixes,
    suffixes and substrings. *)

From stdpp Require Import prelude strings pretty.
From Stdlib Require Import Ascii ZArith Lia.
From S2P Require Import Prelude.
Open Scope Z_scope.

(** ** Decimal integers *)

Definition digit (c : ascii) : option Z :=
  let n := Z.of_N (N_of_ascii c) in
  if decide (48 ≤ n ≤ 57) then Some (n - 48) else None.

(** The value of a string of digits, read after [acc]. *)
Fixpoint digits (s : string) (acc : Z) : option Z :=
  match s with
  | EmptyString => Some acc
  | String c s' => match digit c with Some d => digits s' (acc * 10 + d) | None => None end
  end.

Definition i64_range (z : Z) : option Z := if decide (is_i64 z) then Some z else None.

#[export] Instance is_i64_dec z : Decision (is_i64 z).
Proof. unfold is_i64. apply _. Defined.

(** [str::parse::<i64>]: an optional sign and at least one digit, in range. *)
Definition parse_i64 (s : string) : option Z :=
  match s with
  | EmptyString => None
  | String c s' =>
      if decide (c = "-"%char) then
        if decide (s' = EmptyString) then None
        else match digits s' 0 with Some n => i64_range (- n) | None => None end
      else if decide (c = "+"%char) then
        if decide (s' = EmptyString) then None
        else match digits s' 0 with Some n => i64_range n | None => None end
      else match digits s 0 with Some n => i64_range n | None => None end
  end.

(** [Display] of an integer. *)
Definition show (z : Z) : string := pretty z.

Lemma digits_go n s :
  (0 < n)%N → digits (pretty_N_go n s) 0 = digits s (Z.of_N n).
Proof.
  revert s. induction n as [n IH] using (well_founded_induction N.lt_wf_0). intros s Hn.
  rewrite pretty_N_go_step by done.
  assert (Hd : digit (pretty_N_char (n `mod` 10)%N) = Some (Z.of_N (n `mod` 10))).
  { assert (n `mod` 10 < 10)%N as Hm by (apply N.mod_lt; done).
    generalize dependent (n `mod` 10)%N. intros m Hm.
    assert (m = 0 ∨ m = 1 ∨ m = 2 ∨ m = 3 ∨ m = 4 ∨ m = 5 ∨ m = 6 ∨ m = 7 ∨ m = 8 ∨ m = 9)%N
      as Hc by lia.
    destruct_or! Hc; subst m; reflexivity. }
  destruct (decide (n / 10 = 0)%N) as [E|E].
  - rewrite E, pretty_N_go_0. simpl. rewrite Hd. f_equal.
    pose proof (N.div_mod n 10 ltac:(done)). lia.
  - rewrite IH; [|apply N.div_lt; lia|by apply N.neq_0_lt_0]. simpl. rewrite Hd. f_equal.
    pose proof (N.div_mod n 10 ltac:(done)). lia.
Qed.

Lemma digits_pretty_N n : digits (pretty n) 0 = Some (Z.of_N n).
Proof.
  destruct (decide (n = 0%N)) as [->|Hn]; [reflexivity|].
  unfold pretty, pretty_N. rewrite decide_False by done. rewrite digits_go by lia. done.
Qed.

(** The characters of a decimal number: an optional minus sign, then digits. *)
Definition numeric (c : ascii) : bool :=
  match digit c with Some _ => true | None => bool_decide (c = "-"%char) end.

Fixpoint all_chars (P : ascii → bool) (s : string) : bool :=
  match s with EmptyString => true | String c s' => P c && all_chars P s' end.

Lemma all_chars_app P s1 s2 : all_chars P (s1 +:+ s2) = all_chars P s1 && all_chars P s2.
Proof.
  induction s1 as [|c s1 IH]; [done|].
  change (P c && all_chars P (s1 +:+ s2) = P c && all_chars P s1 && all_chars P s2).
  by rewrite IH, andb_assoc.
Qed.

Lemma all_chars_impl (P Q : ascii → bool) s :
  (∀ c, P c = true → Q c = true) → all_chars P s = true → all_chars Q s = true.
Proof.
  intros HPQ. induction s as [|c s IH]; simpl; [done|].
  rewrite !andb_true_iff. intros [??]. auto.
Qed.

Lemma digits_numeric s acc n : digits s acc = Some n → all_chars numeric s = true.
Proof.
  revert acc. induction s as [|c s IH]; intros acc; simpl; [done|].
  destruct (digit c) eqn:E; [|done]. intros H. rewrite (IH _ H). unfold numeric. by rewrite E.
Qed.

Lemma pretty_N_nonempty (n : N) : pretty n ≠ EmptyString.
Proof.
  intros E. assert (pretty n = pretty 0%N → False) as Hz.
  { rewrite E. done. }
  assert (digits (pretty n) 0 = Some 0) as H by (by rewrite E).
  rewrite digits_pretty_N in H. apply Hz. f_equal. injection H. lia.
Qed.

Lemma show_eq z :
  show z = match z with
           | 0 => "0"%string
           | Zpos p => pretty (Npos p)
           | Zneg p => "-" +:+ pretty (Npos p)
           end.
Proof. by destruct z. Qed.

Lemma show_numeric z : all_chars numeric (show z) = true.
Proof.
  rewrite show_eq.
  destruct z as [|p|p]; [done|eapply digits_numeric, digits_pretty_N|].
  simpl. eapply digits_numeric, digits_pretty_N.
Qed.

Lemma show_nonempty z : show z ≠ EmptyString.
Proof. rewrite show_eq. destruct z; try done. apply pretty_N_nonempty. Qed.

Lemma digit_not_sign s n acc c s' :
  digits s acc = Some n → s = String c s' → c ≠ "-"%char ∧ c ≠ "+"%char.
Proof. intros H ->. simpl in H. split; intros ->; discriminate. Qed.

(** Printing an integer and parsing the text gives the integer back. *)
Lemma parse_show z : is_i64 z → parse_i64 (show z) = Some z.
Proof.
  intros Hz. rewrite show_eq. unfold i64_range.
  assert (Hpos : ∀ p, parse_i64 (pretty (Npos p)) = i64_range (Zpos p)).
  { intros p. pose proof (digits_pretty_N (Npos p)) as Hd.
    destruct (pretty (Npos p)) as [|c s] eqn:E; [by apply pretty_N_nonempty in E|].
    destruct (digit_not_sign _ _ _ _ _ Hd eq_refl).
    unfold parse_i64. rewrite !decide_False by done. by rewrite Hd. }
  destruct z as [|p|p].
  - reflexivity.
  - rewrite Hpos. unfold i64_range. by rewrite decide_True.
  - unfold parse_i64. simpl. rewrite decide_False by apply pretty_N_nonempty.
    change ("" +:+ pretty (Npos p)) with (pretty (Npos p)). rewrite digits_pretty_N.
    unfold i64_range. by rewrite decide_True.
Qed.

(** ** White space *)

Definition byte (c : ascii) : Z := Z.of_N (N_of_ascii c).

(** The one, two and three byte encodings of the characters with the Unicode
    property [White_Space]. *)
Definition is_ws1 (c : ascii) : bool :=
  bool_decide (9 ≤ byte c ≤ 13) || bool_decide (byte c = 32).
Definition is_ws2 (c1 c2 : ascii) : bool :=
  bool_decide (byte c1 = 194) && (bool_decide (byte c2 = 133) || bool_decide (byte c2 = 160)).
Definition is_ws3 (c1 c2 c3 : ascii) : bool :=
  (bool_decide (byte c1 = 225) && bool_decide (byte c2 = 154) && bool_decide (byte c3 = 128))
  || (bool_decide (byte c1 = 226) && bool_decide (byte c2 = 128)
      && (bool_decide (128 ≤ byte c3 ≤ 138) || bool_decide (byte c3 = 168)
          || bool_decide (byte c3 = 169) || bool_decide (byte c3 = 175)))
  || (bool_decide (byte c1 = 226) && bool_decide (byte c2 = 129) && bool_decide (byte c3 = 159))
  || (bool_decide (byte c1 = 227) && bool_decide (byte c2 = 128) && bool_decide (byte c3 = 128)).

(** The rest of the string if it begins with a white space character. *)
Definition strip_ws (s : string) : option string :=
  match s with
  | EmptyString => None
  | String c1 s1 =>
      if is_ws1 c1 then Some s1
      else match s1 with
           | EmptyString => None
           | String c2 s2 =>
               if is_ws2 c1 c2 then Some s2
               else match s2 with
                    | EmptyString => None
                    | String c3 s3 => if is_ws3 c1 c2 c3 then Some s3 else None
                    end
           end
  end.

(** [str::trim] and [str::split_whitespace]; the fuel is the length of the
    string, each turn consumes a character. *)
Fixpoint trim_start (fuel : nat) (s : string) : string :=
  match fuel with
  | O => s
  | S fuel => match strip_ws s with Some s' => trim_start fuel s' | None => s end
  end.

Fixpoint trim_end (s : string) : string :=
  match s with
  | EmptyString => EmptyString
  | String c s' =>
      match strip_ws s with
      | Some rest =>
          if decide (trim_start (String.length rest) rest = EmptyString) then EmptyString
          else String c (trim_end s')
      | None => String c (trim_end s')
      end
  end.

Definition trim (s : string) : string := trim_end (trim_start (String.length s) s).

Definition push_word (w : string) (l : list string) : list string :=
  if decide (w = EmptyString) then l else w :: l.

Fixpoint split_ws_go (fuel : nat) (word s : string) : list string :=
  match fuel with
  | O => push_word word []
  | S fuel =>
      match strip_ws s with
      | Some rest => push_word word (split_ws_go fuel EmptyString rest)
      | None =>
          match s with
          | EmptyString => push_word word []
          | String c s' => split_ws_go fuel (word +:+ String c EmptyString) s'
          end
      end
  end.

Definition split_whitespace (s : string) : list string :=
  split_ws_go (String.length s) EmptyString s.

(** [plain]: a printable ASCII character that is no white space; strings of such
    characters are one word, and words joined by blanks are split again. *)
Definition plain (c : ascii) : bool := bool_decide (33 ≤ byte c < 127).

Lemma plain_strip c s : plain c = true → strip_ws (String c s) = None.
Proof.
  unfold plain. intros Hc%bool_decide_eq_true. unfold strip_ws.
  assert (is_ws1 c = false) as ->.
  { unfold is_ws1. rewrite !bool_decide_eq_false_2 by lia. done. }
  destruct s as [|c2 s]; [done|].
  assert (is_ws2 c c2 = false) as ->.
  { unfold is_ws2. rewrite bool_decide_eq_false_2 by lia. done. }
  destruct s as [|c3 s]; [done|].
  assert (is_ws3 c c2 c3 = false) as ->; [|done].
  unfold is_ws3. rewrite !(bool_decide_eq_false_2 (byte c = _)) by lia. done.
Qed.

Lemma trim_plain s : all_chars plain s = true → trim s = s.
Proof.
  intros Hs. unfold trim.
  assert (trim_start (String.length s) s = s) as ->.
  { destruct s as [|c s]; [done|]. simpl in Hs. apply andb_true_iff in Hs as [Hc _].
    cbn [String.length trim_start]. by rewrite plain_strip. }
  induction s as [|c s IH]; [done|]. simpl in Hs. apply andb_true_iff in Hs as [Hc Hs].
  cbn [trim_end]. rewrite plain_strip by done. by rewrite IH.
Qed.

Lemma string_app_cons s c s' : (s +:+ String c EmptyString) +:+ s' = s +:+ String c s'.
Proof. induction s as [|d s IH]; [done|]. exact (f_equal (String d) IH). Qed.

Lemma string_app_nil_r s : s +:+ EmptyString = s.
Proof. induction s as [|d s IH]; [done|]. exact (f_equal (String d) IH). Qed.

Lemma string_length_app s s' : String.length (s +:+ s') = (String.length s + String.length s')%nat.
Proof. induction s as [|d s IH]; [done|]. exact (f_equal S IH). Qed.

(** A word in front of the text is collected whole. *)
Lemma split_word w s word fuel :
  all_chars plain w = true →
  split_ws_go (String.length w + fuel) word (w +:+ s) = split_ws_go fuel (word +:+ w) s.
Proof.
  revert word. induction w as [|c w IH]; intros word Hw.
  { by rewrite string_app_nil_r. }
  simpl in Hw. apply andb_true_iff in Hw as [Hc Hw].
  change (String c w +:+ s) with (String c (w +:+ s)). cbn [String.length Nat.add split_ws_go].
  rewrite plain_strip by done. rewrite IH by done. by rewrite string_app_cons.
Qed.

(** [parts.join(" ")]. *)
Fixpoint join (l : list string) : string :=
  match l with
  | [] => EmptyString
  | w :: l' => match l' with [] => w | _ => w +:+ " " +:+ join l' end
  end.

Lemma split_join l :
  Forall (λ w, all_chars plain w = true ∧ w ≠ EmptyString) l → split_whitespace (join l) = l.
Proof.
  unfold split_whitespace. induction l as [|w l IH]; intros Hl; [done|].
  inversion_clear Hl as [|? ? [Hw Hne] Hl']. destruct l as [|w' l'].
  - pose proof (split_word w EmptyString EmptyString 0 Hw) as E.
    rewrite string_app_nil_r, Nat.add_0_r in E. cbn [join]. rewrite E. simpl.
    unfold push_word. by rewrite decide_False.
  - change (join (w :: w' :: l')) with (w +:+ String " " (join (w' :: l'))).
    rewrite string_length_app, split_word by done. cbn [String.length split_ws_go strip_ws].
    change (is_ws1 " ") with true. cbv iota. rewrite IH by done.
    unfold push_word. by rewrite decide_False.
Qed.

(** ** Prefixes, suffixes and substrings *)

(** [str::starts_with], [ends_with] and [contains]. *)
Fixpoint starts_with (s p : string) : bool :=
  match p, s with
  | EmptyString, _ => true
  | String c p', String d s' => bool_decide (c = d) && starts_with s' p'
  | String _ _, EmptyString => false
  end.

Fixpoint ends_with (s p : string) : bool :=
  bool_decide (s = p) || match s with EmptyString => false | String _ s' => ends_with s' p end.

Fixpoint contains (s p : string) : bool :=
  starts_with s p || match s with EmptyString => false | String _ s' => contains s' p end.

(** [&value[n..]]. *)
Fixpoint drop_str (n : nat) (s : string) : string :=
  match n, s with
  | S n', String _ s' => drop_str n' s'
  | _, _ => s
  end.

(** Byte order, which is the order of [str] and [String]. *)
Fixpoint str_cmp (s t : string) : comparison :=
  match s, t with
  | EmptyString, EmptyString => Eq
  | EmptyString, String _ _ => Lt
  | String _ _, EmptyString => Gt
  | String c s', String d t' =>
      match byte c ?= byte d with Eq => str_cmp s' t' | o => o end
  end.

Lemma str_cmp_eq s t : str_cmp s t = Eq ↔ s = t.
Proof.
  revert t. induction s as [|c s IH]; destruct t as [|d t]; simpl; try done.
  destruct (byte c ?= byte d) eqn:E.
  - rewrite IH. apply Z.compare_eq in E. unfold byte in E.
    assert (c = d) as -> by (rewrite <- (ascii_N_embedding c), <- (ascii_N_embedding d); f_equal; lia).
    split; [by intros ->|by injection 1].
  - split; [done|]. intros [= -> _]. by rewrite Z.compare_refl in E.
  - split; [done|]. intros [= -> _]. by rewrite Z.compare_refl in E.
Qed.

Lemma str_cmp_opp s t : str_cmp t s = CompOpp (str_cmp s t).
Proof.
  revert t. induction s as [|c s IH]; destruct t as [|d t]; simpl; try done.
  rewrite Z.compare_antisym. destruct (byte c ?= byte d); simpl; auto.
Qed.

(** The order of the bytes, as [sort] uses it. *)
Definition str_le (s t : string) : Prop := str_cmp s t ≠ Gt.
#[export] Instance str_le_dec : RelDecision str_le.
Proof. intros s t. unfold str_le. apply _. Defined.

Lemma str_cmp_trans s t u : str_le s t → str_le t u → str_le s u.
Proof.
  unfold str_le. revert t u. induction s as [|c s IH]; intros [|d t] [|e u]; simpl; try done.
  destruct (Z.compare_spec (byte c) (byte d)) as [Ecd|?|?], (Z.compare_spec (byte d) (byte e)) as [Ede|?|?];
    try done; intros; destruct (Z.compare_spec (byte c) (byte e)); try done; try lia; by eapply IH.
Qed.

Lemma str_le_antisym s t : str_le s t → str_le t s → s = t.
Proof.
  unfold str_le. intros Hst Hts. rewrite str_cmp_opp in Hts. apply str_cmp_eq.
  by destruct (str_cmp s t).
Qed.

Lemma str_le_total s t : str_le s t ∨ str_le t s.
Proof. unfold str_le. rewrite (str_cmp_opp s t). destruct (str_cmp s t); simpl; auto. Qed.
