(* ===== verification/Float64.v ===== *)
(** * Float64: the [f64] operations of the query language

    An [f64] is Flocq's [spec_float] at precision 53 and maximal exponent 1024,
    as the Standard Library specifies IEEE 754 binary64: arithmetic, comparison,
    the [as] casts between [f64] and the integers (saturating, towards zero),
    [%], and the correctly rounded [FromStr] and shortest [Display] of Rust. *)

From stdpp Require Import prelude strings pretty.
From Stdlib Require Import Ascii ZArith Lia SpecFloat.
From S2P Require Import Prelude Text.
Open Scope Z_scope.

Abbreviation f64 := spec_float.

Definition prec : Z := 53.
Definition emax : Z := 1024.

Definition f64_add : f64 → f64 → f64 := SFadd prec emax.
Definition f64_sub : f64 → f64 → f64 := SFsub prec emax.
Definition f64_mul : f64 → f64 → f64 := SFmul prec emax.
Definition f64_div : f64 → f64 → f64 := SFdiv prec emax.
Definition f64_eqb : f64 → f64 → bool := SFeqb.
Definition f64_cmp : f64 → f64 → option comparison := SFcompare.
Definition f64_abs : f64 → f64 := SFabs.

(** [z as f64], rounded to the nearest, ties to even. *)
Definition f64_of_Z (z : Z) : f64 := binary_normalize prec emax z 0 false.

Definition clamp (lo hi z : Z) : Z := lo `max` (hi `min` z).

(** [x as i64] and [x as u64]: towards zero, saturating, [NaN] is 0. *)
Definition f64_to (lo hi : Z) (x : f64) : Z :=
  match x with
  | S754_nan => 0
  | S754_zero _ => 0
  | S754_infinity s => if s then lo else hi
  | S754_finite s m e =>
      let a := if decide (0 ≤ e) then Zpos m * 2 ^ e else Zpos m / 2 ^ (- e) in
      clamp lo hi (if s then - a else a)
  end.
Definition f64_to_i64 : f64 → Z := f64_to (- 2 ^ 63) (2 ^ 63 - 1).
Definition f64_to_u64 : f64 → Z := f64_to 0 u64_max.

(** [x % y]: the exact remainder with the sign of [x]. *)
Definition f64_rem (x y : f64) : f64 :=
  match x, y with
  | S754_nan, _ | _, S754_nan | S754_infinity _, _ | _, S754_zero _ => S754_nan
  | S754_zero _, _ | _, S754_infinity _ => x
  | S754_finite s m e, S754_finite _ m' e' =>
      let d := e `min` e' in
      let r := (Zpos m * 2 ^ (e - d)) mod (Zpos m' * 2 ^ (e' - d)) in
      binary_normalize prec emax (if s then - r else r) d s
  end.

(** ** Decimal to binary *)

(** The [f64] nearest to [± m * 10^e10].  The two cuts answer decimals far out
    of the range at once; a quotient is computed to at least 63 bits with a
    sticky bit, so that rounding it is rounding the exact value. *)
Definition dec_to_f64 (neg : bool) (m e10 : Z) : f64 :=
  let signed z := if neg then - z else z in
  if decide (m = 0) then S754_zero neg
  else if decide (400 < e10) then S754_infinity neg
  else if decide (0 ≤ e10) then binary_normalize prec emax (signed (m * 10 ^ e10)) 0 neg
  else if decide (Z.log2 m + 1 + 3 * e10 < - 1100) then S754_zero neg
  else
    let d := 10 ^ (- e10) in
    let k := 0 `max` (64 + Z.log2 d - Z.log2 m) in
    let q := (m * 2 ^ k) / d in
    let sticky := if decide ((m * 2 ^ k) mod d = 0) then 0 else 1 in
    binary_normalize prec emax (signed (2 * q + sticky)) (- k - 1) neg.

(** The digits in front: their value after [acc], their number, and the rest. *)
Fixpoint take_digits (s : string) (acc : Z) (n : Z) : Z * Z * string :=
  match s with
  | EmptyString => (acc, n, s)
  | String c s' =>
      match digit c with
      | Some d => take_digits s' (acc * 10 + d) (n + 1)
      | None => (acc, n, s)
      end
  end.

Definition lower (c : ascii) : ascii :=
  let n := N_of_ascii c in
  if decide (65 ≤ n ≤ 90)%N then ascii_of_N (n + 32) else c.
Fixpoint lower_str (s : string) : string :=
  match s with EmptyString => EmptyString | String c s' => String (lower c) (lower_str s') end.

(** An optional sign in front. *)
Definition take_sign (s : string) : bool * string :=
  match s with
  | String c s' =>
      if decide (c = "-"%char) then (true, s')
      else if decide (c = "+"%char) then (false, s') else (false, s)
  | EmptyString => (false, s)
  end.

(** The exponent: nothing, or [e], a sign and digits up to the end. *)
Definition parse_exponent (s : string) : option Z :=
  match s with
  | EmptyString => Some 0
  | String c s' =>
      if decide (lower c = "e"%char) then
        let '(neg, s'') := take_sign s' in
        let '(v, n, rest) := take_digits s'' 0 0 in
        if decide (n = 0 ∨ rest ≠ EmptyString) then None
        else Some (if neg then - v else v)
      else None
  end.

(** [str::parse::<f64>]. *)
Definition parse_f64 (s : string) : option f64 :=
  let '(neg, body) := take_sign s in
  let word := lower_str body in
  if decide (word = "inf"%string ∨ word = "infinity"%string) then Some (S754_infinity neg)
  else if decide (word = "nan"%string) then Some S754_nan
  else
    let '(v1, n1, r1) := take_digits body 0 0 in
    let '(v2, n2, r2) :=
      match r1 with
      | String c r => if decide (c = "."%char) then take_digits r v1 0 else (v1, 0, r1)
      | EmptyString => (v1, 0, r1)
      end in
    if decide (n1 + n2 = 0) then None
    else match parse_exponent r2 with
         | Some e => Some (dec_to_f64 neg v2 (e - n2))
         | None => None
         end.

(** ** Binary to decimal *)

Fixpoint zeros (n : nat) : string :=
  match n with O => EmptyString | S n' => String "0" (zeros n') end.

(** The first power of ten above [num / den], from a guess not above it. *)
Fixpoint magnitude (fuel : nat) (num den k : Z) : Z :=
  match fuel with
  | O => k
  | S fuel =>
      let above := if decide (0 ≤ k) then num <? den * 10 ^ k else num * 10 ^ (- k) <? den in
      if above then k else magnitude fuel num den (k + 1)
  end.

(** The decimal with [n] digits that is nearest to [num / den] among those that
    read back as [x]: its digits and the power of ten they are scaled by. *)
Definition candidate (x : f64) (neg : bool) (num den k n : Z) : option (Z * Z) :=
  let p := n - k in
  let a := if decide (0 ≤ p) then num * 10 ^ p else num in
  let b := if decide (0 ≤ p) then den else den * 10 ^ (- p) in
  let q := a / b in
  let reads c := f64_eqb (dec_to_f64 neg c (- p)) x in
  let near := if decide (2 * (a mod b) < b) then q else q + 1 in
  let far := if decide (2 * (a mod b) < b) then q + 1 else q in
  if reads near then Some (near, - p) else if reads far then Some (far, - p) else None.

Fixpoint shortest (fuel : nat) (x : f64) (neg : bool) (num den k n : Z) : Z * Z :=
  match fuel with
  | O => (0, 0)
  | S fuel =>
      match candidate x neg num den k n with
      | Some r => r
      | None => shortest fuel x neg num den k (n + 1)
      end
  end.

(** Digits times a power of ten, written without an exponent. *)
Definition layout (c e10 : Z) : string :=
  let ds := show c in
  let len := Z.of_nat (String.length ds) in
  if decide (0 ≤ e10) then ds +:+ zeros (Z.to_nat e10)
  else if decide (- e10 < len) then
    let n := Z.to_nat (len + e10) in
    String.substring 0 n ds +:+ "." +:+ drop_str n ds
  else "0." +:+ zeros (Z.to_nat (- e10 - len)) +:+ ds.

(** [Display] of an [f64]: the shortest decimal that reads back. *)
Definition show_f64 (x : f64) : string :=
  match x with
  | S754_nan => "NaN"
  | S754_zero s => if s then "-0" else "0"
  | S754_infinity s => if s then "-inf" else "inf"
  | S754_finite s m e =>
      let num := Zpos m * 2 ^ (0 `max` e) in
      let den := 2 ^ (0 `max` (- e)) in
      let guess := (Z.log2 num - Z.log2 den) * 30103 / 100000 - 2 in
      let k := magnitude 8 num den guess in
      let '(c, e10) := shortest 17 x s num den k 1 in
      (if s then "-" else "")%string +:+ layout c e10
  end.

(** Sanity checks against values of the standard library's documentation. *)
Example parse_f64_decimal : parse_f64 "-0.1" = Some (f64_div (f64_of_Z (-1)) (f64_of_Z 10)).
Proof. vm_compute. reflexivity. Qed.
Example parse_f64_exponent : parse_f64 "2.5E2" = Some (f64_of_Z 250) ∧ parse_f64 "." = None.
Proof. split; vm_compute; reflexivity. Qed.
Example show_f64_decimal :
  option_map show_f64 (parse_f64 "3.14") = Some "3.14"%string ∧
  show_f64 (f64_of_Z 1000) = "1000"%string ∧
  option_map show_f64 (parse_f64 "1.25e-3") = Some "0.00125"%string.
Proof. split_and!; vm_compute; reflexivity. Qed.
Example rem_f64 : f64_rem (f64_of_Z (-7)) (f64_of_Z 3) = f64_of_Z (-1).
Proof. vm_compute. reflexivity. Qed.

(** Every cast ends in the range of its type. *)
Lemma f64_to_range lo hi x : lo ≤ 0 → 0 ≤ hi → lo ≤ f64_to lo hi x ≤ hi.
Proof. intros ??. destruct x as [[]|[]| |s m e]; simpl; try lia; unfold clamp; case_match; lia. Qed.

Lemma f64_to_i64_range x : is_i64 (f64_to_i64 x).
Proof.
  pose proof (f64_to_range (- 2 ^ 63) (2 ^ 63 - 1) x ltac:(lia) ltac:(lia)).
  unfold f64_to_i64. u64_lia.
Qed.

(** [partial_cmp] of floats: reversing the operands reverses the answer. *)
Lemma f64_cmp_opp x y : f64_cmp y x = CompOpp <$> f64_cmp x y.
Proof.
  unfold f64_cmp. destruct x as [[]|[]| |[] m e], y as [[]|[]| |[] m' e']; try done; simpl;
    rewrite (Z.compare_antisym e e'); destruct (e ?= e') eqn:E; simpl; try done;
    f_equal; change (Pcompare m' m Eq) with (Pos.compare m' m);
    change (Pcompare m m' Eq) with (Pos.compare m m');
    rewrite (Pos.compare_antisym m m'); by destruct (Pos.compare m m').
Qed.

(** Rounding an integer never gives [NaN]: the mantissas stay non-negative. *)
Lemma shr_nonneg mrs e n : 0 ≤ shr_m mrs → 0 ≤ shr_m (shr mrs e n).1.
Proof.
  assert (H1 : ∀ r, 0 ≤ shr_m r → 0 ≤ shr_m (shr_1 r)).
  { intros [m r s] Hm. simpl in *. destruct m as [|p|p]; [done|by destruct p|lia]. }
  intros Hm. unfold shr. destruct n as [|p|p]; try done. simpl.
  revert mrs Hm. induction p as [p IH|p IH|]; intros mrs Hm; simpl; auto.
Qed.

Lemma round_aux_not_nan s m e l : 0 ≤ m → binary_round_aux prec emax s m e l ≠ S754_nan.
Proof.
  intros Hm. unfold binary_round_aux, shr_fexp.
  set (n := fexp _ _ _ - e). clearbody n.
  pose proof (shr_nonneg (shr_record_of_loc m l) e n) as H.
  destruct (shr (shr_record_of_loc m l) e n) as [mrs e1]. simpl in H.
  specialize (H ltac:(by destruct l as [|[]])).
  set (m2 := round_nearest_even _ _).
  assert (0 ≤ m2) by (subst m2; unfold round_nearest_even; repeat case_match; lia).
  clearbody m2. set (n2 := fexp _ _ _ - e1). clearbody n2.
  pose proof (shr_nonneg (shr_record_of_loc m2 loc_Exact) e1 n2 ltac:(done)) as H2.
  destruct (shr _ e1 n2) as [mrs2 e2]. simpl in H2.
  destruct (shr_m mrs2); [done|by case_match|lia].
Qed.

Lemma f64_of_Z_not_nan z : f64_of_Z z ≠ S754_nan.
Proof.
  unfold f64_of_Z, binary_normalize, binary_round. destruct z; [done|..];
    destruct (shl_align _ _ _); by apply round_aux_not_nan.
Qed.

Lemma f64_cmp_none x y : f64_cmp x y = None → x = S754_nan ∨ y = S754_nan.
Proof.
  unfold f64_cmp. destruct x as [[]|[]| |[] m e], y as [[]|[]| |[] m' e']; simpl; try by auto;
    repeat case_match; done.
Qed.
