(* ===== verification/Value.v ===== *)
(** * Value: the values of the condition language
    (storage/query/condition/value.rs, value/*.rs, core/duration.rs)

    A condition computes on booleans, 64-bit integers, floats, strings and
    durations.  The file has the conversions and every operation on values, on
    every pair of types, and the text format of durations. *)

From stdpp Require Import prelude strings pretty.
From Stdlib Require Import Ascii ZArith Lia SpecFloat.
From S2P Require Import Prelude Text Float64.
Open Scope Z_scope.

Inductive Value :=
| VBool (b : bool)
| VInt (i : Z)
| VFloat (f : f64)
| VString (s : string)
| VDuration (us : Z).

Definition b2z (b : bool) : Z := if b then 1 else 0.
Definition f64_of_bool (b : bool) : f64 := f64_of_Z (b2z b).

(** [Value::parse]. *)
Definition value_parse (s : string) : Value :=
  if decide (s = "true"%string) then VBool true
  else if decide (s = "false"%string) then VBool false
  else match parse_i64 s with
       | Some i => VInt i
       | None => match parse_f64 s with Some f => VFloat f | None => VString s end
       end.

Definition as_bool (v : Value) : outcome bool :=
  Ok match v with
     | VBool b => b
     | VInt i | VDuration i => bool_decide (i ≠ 0)
     | VFloat f => negb (f64_eqb f (S754_zero false))
     | VString s => bool_decide (s ≠ EmptyString)
     end.

Definition as_int (v : Value) : outcome Z :=
  match v with
  | VBool b => Ok (b2z b)
  | VInt i | VDuration i => Ok i
  | VFloat f => Ok (f64_to_i64 f)
  | VString s => ok_or UnprocessableEntity (parse_i64 s)
  end.

Definition as_float (v : Value) : outcome f64 :=
  match v with
  | VBool b => Ok (f64_of_bool b)
  | VInt i | VDuration i => Ok (f64_of_Z i)
  | VFloat f => Ok f
  | VString s => ok_or UnprocessableEntity (parse_f64 s)
  end.

Definition is_string (v : Value) : bool := match v with VString _ => true | _ => false end.
Definition is_duration (v : Value) : bool := match v with VDuration _ => true | _ => false end.

(** ** Durations (duration_format.rs, core/duration.rs) *)

(** [i64::abs] and [/] of the release profile: the one overflowing case of
    [abs] wraps. *)
Definition i64_abs (i : Z) : Z := i64_wrap (Z.abs i).

Definition duration_units : list (string * Z) :=
  [("d", 86400000000); ("h", 3600000000); ("m", 60000000); ("s", 1000000); ("ms", 1000);
   ("us", 1)]%string.

(** The loop over the units: the texts pushed for what is left. *)
Fixpoint duration_parts (units : list (string * Z)) (us : Z) : list string :=
  match units with
  | [] => []
  | (unit, n) :: units' =>
      if decide (n ≤ i64_abs us) then
        let value := Z.quot us n in
        (show value +:+ unit) :: duration_parts units' (us - value * n)
      else duration_parts units' us
  end.

Definition fmt_duration (us : Z) : string :=
  match duration_parts duration_units us with
  | [] => "0us"
  | parts => join parts
  end.

Definition in_num_part (c : ascii) : bool :=
  match digit c with Some _ => true | None => bool_decide (c = "."%char ∨ c = "-"%char) end.

(** [chars().partition(..)]. *)
Fixpoint partition_str (P : ascii → bool) (s : string) : string * string :=
  match s with
  | EmptyString => (EmptyString, EmptyString)
  | String c s' =>
      let '(a, b) := partition_str P s' in
      if P c then (String c a, b) else (a, String c b)
  end.

Fixpoint unit_micros (units : list (string * Z)) (u : string) : option Z :=
  match units with
  | [] => None
  | (unit, n) :: units' => if decide (u = unit) then Some n else unit_micros units' u
  end.

Definition parse_single_duration_to_micros (part : string) : outcome Z :=
  let part := trim part in
  if decide (part = EmptyString) then Err UnprocessableEntity
  else
    let '(num_part, unit_part) := partition_str in_num_part part in
    match parse_i64 num_part with
    | None => Err UnprocessableEntity
    | Some value =>
        match unit_micros duration_units unit_part with
        | Some n => Ok (i64_wrap (value * n))
        | None => Err UnprocessableEntity
        end
    end.

Fixpoint sum_parts (parts : list string) (total : Z) : outcome Z :=
  match parts with
  | [] => Ok total
  | p :: parts' =>
      us ← parse_single_duration_to_micros p;
      sum_parts parts' (i64_wrap (total + us))
  end.

Definition parse_duration_to_micros (s : string) : outcome Z :=
  if decide (trim s = EmptyString) then Err UnprocessableEntity
  else sum_parts (split_whitespace s) 0.

Definition parse_duration (s : string) : outcome Value := VDuration <$> parse_duration_to_micros s.

(** [Display] of a value. *)
Definition value_to_string (v : Value) : string :=
  match v with
  | VBool b => if b then "true" else "false"
  | VInt i => show i
  | VFloat f => show_f64 f
  | VString s => s
  | VDuration us => fmt_duration us
  end.

(** ** Comparison (cmp.rs) *)

Definition value_eqb (l r : Value) : bool :=
  match l, r with
  | VBool a, VBool b => bool_decide (a = b)
  | VBool a, (VInt b | VDuration b) => bool_decide (b2z a = b)
  | VBool a, VFloat b => f64_eqb (f64_of_bool a) b
  | (VInt a | VDuration a), (VInt b | VDuration b) => bool_decide (a = b)
  | (VInt a | VDuration a), VBool b => bool_decide (a = b2z b)
  | (VInt a | VDuration a), VFloat b => f64_eqb (f64_of_Z a) b
  | VFloat a, VFloat b => f64_eqb a b
  | VFloat a, (VInt b | VDuration b) => f64_eqb a (f64_of_Z b)
  | VFloat a, VBool b => f64_eqb a (f64_of_bool b)
  | VString a, VString b => bool_decide (a = b)
  | VString _, _ | _, VString _ => false
  end.

Definition value_cmp (l r : Value) : option comparison :=
  match l, r with
  | VBool a, VBool b => Some (b2z a ?= b2z b)
  | VBool a, (VInt b | VDuration b) => Some (b2z a ?= b)
  | VBool a, VFloat b => f64_cmp (f64_of_bool a) b
  | (VInt a | VDuration a), (VInt b | VDuration b) => Some (a ?= b)
  | (VInt a | VDuration a), VBool b => Some (a ?= b2z b)
  | (VInt a | VDuration a), VFloat b => f64_cmp (f64_of_Z a) b
  | VFloat a, VFloat b => f64_cmp a b
  | VFloat a, (VInt b | VDuration b) => f64_cmp a (f64_of_Z b)
  | VFloat a, VBool b => f64_cmp a (f64_of_bool b)
  | VString a, VString b => Some (str_cmp a b)
  | VString _, _ | _, VString _ => None
  end.

(** The provided operators of [PartialOrd]. *)
Definition value_ltb l r := bool_decide (value_cmp l r = Some Lt).
Definition value_leb l r := bool_decide (value_cmp l r = Some Lt ∨ value_cmp l r = Some Eq).
Definition value_gtb l r := bool_decide (value_cmp l r = Some Gt).
Definition value_geb l r := bool_decide (value_cmp l r = Some Gt ∨ value_cmp l r = Some Eq).

(** ** Arithmetic (arithmetic/*.rs)

    Integer overflow wraps in the release profile; [%] and [/] of integers
    panic on a zero divisor and on [i64::MIN] by [-1] in every profile. *)

Definition i64_add a b := i64_wrap (a + b).
Definition i64_sub a b := i64_wrap (a - b).
Definition i64_mul a b := i64_wrap (a * b).
Definition i64_rem (a b : Z) : outcome Z :=
  if decide (b = 0) then Panic
  else if decide (a = - 2 ^ 63 ∧ b = -1) then Panic
  else Ok (Z.rem a b).
Definition i64_div (a b : Z) : outcome Z :=
  if decide (b = 0) then Panic
  else if decide (a = - 2 ^ 63 ∧ b = -1) then Panic
  else Ok (Z.quot a b).

Definition value_add (l r : Value) : outcome Value :=
  match l, r with
  | VBool a, VBool b => Ok (VInt (i64_add (b2z a) (b2z b)))
  | VBool a, (VInt b | VDuration b) => Ok (VInt (i64_add (b2z a) b))
  | VBool a, VFloat b => Ok (VFloat (f64_add (f64_of_bool a) b))
  | (VInt a | VDuration a), VBool b => Ok (VInt (i64_add a (b2z b)))
  | (VInt a | VDuration a), (VInt b | VDuration b) => Ok (VInt (i64_add a b))
  | (VInt a | VDuration a), VFloat b => Ok (VFloat (f64_add (f64_of_Z a) b))
  | VFloat a, VBool b => Ok (VFloat (f64_add a (f64_of_bool b)))
  | VFloat a, (VInt b | VDuration b) => Ok (VFloat (f64_add a (f64_of_Z b)))
  | VFloat a, VFloat b => Ok (VFloat (f64_add a b))
  | VString a, VString b => Ok (VString (a +:+ b))
  | VString _, _ | _, VString _ => Err UnprocessableEntity
  end.

Definition value_subtract (l r : Value) : outcome Value :=
  match l, r with
  | VBool a, VBool b => Ok (VInt (i64_sub (b2z a) (b2z b)))
  | VBool a, (VInt b | VDuration b) => Ok (VInt (i64_sub (b2z a) b))
  | VBool a, VFloat b => Ok (VFloat (f64_sub (f64_of_bool a) b))
  | (VInt a | VDuration a), VBool b => Ok (VInt (i64_sub a (b2z b)))
  | (VInt a | VDuration a), (VInt b | VDuration b) => Ok (VInt (i64_sub a b))
  | (VInt a | VDuration a), VFloat b => Ok (VFloat (f64_sub (f64_of_Z a) b))
  | VFloat a, VBool b => Ok (VFloat (f64_sub a (f64_of_bool b)))
  | VFloat a, (VInt b | VDuration b) => Ok (VFloat (f64_sub a (f64_of_Z b)))
  | VFloat a, VFloat b => Ok (VFloat (f64_sub a b))
  | VString _, _ | _, VString _ => Err UnprocessableEntity
  end.

Definition value_multiply (l r : Value) : outcome Value :=
  match l, r with
  | VBool a, VBool b => Ok (VInt (i64_mul (b2z a) (b2z b)))
  | VBool a, (VInt b | VDuration b) => Ok (VInt (i64_mul (b2z a) b))
  | VBool a, VFloat b => Ok (VFloat (f64_mul (f64_of_bool a) b))
  | (VInt a | VDuration a), VBool b => Ok (VInt (i64_mul a (b2z b)))
  | (VInt a | VDuration a), (VInt b | VDuration b) => Ok (VInt (i64_mul a b))
  | (VInt a | VDuration a), VFloat b => Ok (VFloat (f64_mul (f64_of_Z a) b))
  | VFloat a, VBool b => Ok (VFloat (f64_mul a (f64_of_bool b)))
  | VFloat a, (VInt b | VDuration b) => Ok (VFloat (f64_mul a (f64_of_Z b)))
  | VFloat a, VFloat b => Ok (VFloat (f64_mul a b))
  | VString _, _ | _, VString _ => Err UnprocessableEntity
  end.

Definition value_remainder (l r : Value) : outcome Value :=
  match l, r with
  | VBool a, VBool b => VInt <$> i64_rem (b2z a) (b2z b)
  | VBool a, (VInt b | VDuration b) => VInt <$> i64_rem (b2z a) b
  | VBool a, VFloat b => Ok (VFloat (f64_rem (f64_of_bool a) b))
  | (VInt a | VDuration a), VBool b => VInt <$> i64_rem a (b2z b)
  | (VInt a | VDuration a), (VInt b | VDuration b) => VInt <$> i64_rem a b
  | (VInt a | VDuration a), VFloat b => Ok (VFloat (f64_rem (f64_of_Z a) b))
  | VFloat a, VBool b => Ok (VFloat (f64_rem a (f64_of_bool b)))
  | VFloat a, (VInt b | VDuration b) => Ok (VFloat (f64_rem a (f64_of_Z b)))
  | VFloat a, VFloat b => Ok (VFloat (f64_rem a b))
  | VString _, _ | _, VString _ => Err UnprocessableEntity
  end.

Definition value_divide (l r : Value) : outcome Value :=
  if is_string l then Err UnprocessableEntity
  else if is_string r then Err UnprocessableEntity
  else
    divisor ← as_float r;
    if f64_eqb divisor (S754_zero false) then Err UnprocessableEntity
    else dividend ← as_float l; Ok (VFloat (f64_div dividend divisor)).

Definition value_divide_num (l r : Value) : outcome Value :=
  if is_string l then Err UnprocessableEntity
  else if is_string r then Err UnprocessableEntity
  else
    divisor ← as_int r;
    if decide (divisor = 0) then Err UnprocessableEntity
    else dividend ← as_int l; VInt <$> i64_div dividend divisor.

Definition value_abs (v : Value) : outcome Value :=
  match v with
  | VBool b => Ok (VInt (b2z b))
  | VInt i | VDuration i => Ok (VInt (i64_abs i))
  | VFloat f => Ok (VFloat (f64_abs f))
  | VString _ => Err UnprocessableEntity
  end.

(** ** Strings and casts (string/*.rs, misc/cast.rs) *)

Definition value_contains (l r : Value) : outcome bool :=
  Ok (contains (value_to_string l) (value_to_string r)).
Definition value_starts_with (l r : Value) : outcome bool :=
  Ok (starts_with (value_to_string l) (value_to_string r)).
Definition value_ends_with (l r : Value) : outcome bool :=
  Ok (ends_with (value_to_string l) (value_to_string r)).

Definition value_cast (v : Value) (type_name : string) : outcome Value :=
  if decide (type_name = "bool"%string) then VBool <$> as_bool v
  else if decide (type_name = "int"%string) then VInt <$> as_int v
  else if decide (type_name = "float"%string) then VFloat <$> as_float v
  else if decide (type_name = "string"%string) then Ok (VString (value_to_string v))
  else if decide (type_name = "duration"%string) then VDuration <$> as_int v
  else Err UnprocessableEntity.

(** ** Every value stays in its type *)

Definition value_ok (v : Value) : Prop :=
  match v with VInt i | VDuration i => is_i64 i | _ => True end.

Lemma i64_wrap_range z : is_i64 (i64_wrap z).
Proof. unfold i64_wrap. pose proof (Z.mod_pos_bound (z + 2 ^ 63) two64 two64_pos). u64_lia. Qed.

Lemma i64_wrap_small z : is_i64 z → i64_wrap z = z.
Proof. intros Hz. unfold i64_wrap. rewrite Z.mod_small; u64_lia. Qed.

Lemma b2z_i64 b : is_i64 (b2z b).
Proof. destruct b; unfold is_i64, b2z; lia. Qed.

Lemma parse_i64_range s z : parse_i64 s = Some z → is_i64 z.
Proof.
  unfold parse_i64, i64_range. intros H. repeat case_match; simplify_eq; done.
Qed.

Lemma value_parse_ok s : value_ok (value_parse s).
Proof.
  unfold value_parse. repeat case_match; simpl; try done. by eapply parse_i64_range.
Qed.

Lemma as_int_ok v i : value_ok v → as_int v = Ok i → is_i64 i.
Proof.
  destruct v; simpl; intros Hv H; simplify_eq; auto using b2z_i64, f64_to_i64_range.
  destruct (parse_i64 s) eqn:E; simplify_eq/=. by eapply parse_i64_range.
Qed.

Lemma i64_rem_range a b z : is_i64 b → i64_rem a b = Ok z → is_i64 z.
Proof.
  unfold i64_rem. intros Hb H. repeat case_decide; simplify_eq.
  pose proof (Z.rem_bound_abs a b ltac:(done)). u64_lia.
Qed.

Lemma i64_div_range a b z : is_i64 a → i64_div a b = Ok z → is_i64 z.
Proof.
  unfold i64_div, is_i64. intros Ha H. repeat case_decide; simplify_eq.
  assert (b = -1 ∨ b = 1 ∨ 2 ≤ Z.abs b) as [->|[->|Hb]] by lia.
  - change (-1) with (- (1)). rewrite Z.quot_opp_r, Z.quot_1_r by done. lia.
  - rewrite Z.quot_1_r. lia.
  - destruct (decide (a = 0)) as [->|Ha0]; [by rewrite Z.quot_0_l|].
    assert (Z.abs (Z.quot a b) < Z.abs a); [|lia].
    rewrite <- Z.quot_abs by done. apply Z.quot_lt; lia.
Qed.

(** The operations keep 64-bit integers in range, on every pair of types. *)
Lemma value_ops_ok l r v :
  value_ok l → value_ok r →
  value_add l r = Ok v ∨ value_subtract l r = Ok v ∨ value_multiply l r = Ok v ∨
  value_remainder l r = Ok v ∨ value_divide l r = Ok v ∨ value_divide_num l r = Ok v →
  value_ok v.
Proof.
  intros Hl Hr H.
  assert (Hrem : ∀ a b, is_i64 b → VInt <$> i64_rem a b = Ok v → value_ok v).
  { intros a b Hb E. destruct (i64_rem a b) eqn:E'; simplify_eq/=. by eapply i64_rem_range. }
  destruct_or! H.
  - destruct l, r; simplify_eq/=; first [exact I|apply i64_wrap_range].
  - destruct l, r; simplify_eq/=; first [exact I|apply i64_wrap_range].
  - destruct l, r; simplify_eq/=; first [exact I|apply i64_wrap_range].
  - destruct l, r; simpl in *; eauto using b2z_i64; simplify_eq/=; exact I.
  - unfold value_divide in H. repeat case_match; simplify_eq.
    destruct (as_float r) as [f| |]; simplify_eq/=. case_match; simplify_eq.
    destruct (as_float l) as [f'| |]; simplify_eq/=. done.
  - unfold value_divide_num in H. repeat case_match; simplify_eq.
    destruct (as_int r) as [b| |] eqn:Eb; simplify_eq/=. case_decide; simplify_eq.
    destruct (as_int l) as [a| |] eqn:Ea; simplify_eq/=.
    destruct (i64_div a b) eqn:E; simplify_eq/=. eapply i64_div_range; [|done].
    by apply (as_int_ok l).
Qed.

Lemma value_abs_ok v v' : value_abs v = Ok v' → value_ok v'.
Proof. destruct v; simpl; intros; simplify_eq; simpl; first [exact I|apply i64_wrap_range|apply b2z_i64]. Qed.

Lemma value_cast_ok v ty v' : value_ok v → value_cast v ty = Ok v' → value_ok v'.
Proof.
  unfold value_cast. intros Hv H. repeat case_decide; simplify_eq/=; try done.
  - destruct (as_int v) eqn:E; simplify_eq/=. by eapply as_int_ok.
  - destruct (as_float v) eqn:E; simplify_eq/=. done.
  - destruct (as_int v) eqn:E; simplify_eq/=. by eapply as_int_ok.
Qed.

(** ** Durations are printed and read back *)

Lemma numeric_in_num_part c : numeric c = true → in_num_part c = true.
Proof.
  unfold numeric, in_num_part. destruct (digit c); [done|].
  rewrite !bool_decide_eq_true. tauto.
Qed.

Lemma in_num_part_plain c : in_num_part c = true → plain c = true.
Proof.
  unfold in_num_part, plain, digit, byte. rewrite bool_decide_eq_true.
  case_decide; [lia|]. rewrite bool_decide_eq_true. intros [-> | ->]; vm_compute; split; congruence.
Qed.

Lemma partition_num_unit a b :
  all_chars in_num_part a = true → all_chars (λ c, negb (in_num_part c)) b = true →
  partition_str in_num_part (a +:+ b) = (a, b).
Proof.
  intros Ha Hb. induction a as [|c a IH].
  - change ("" +:+ b) with b. induction b as [|d b IH]; [done|].
    simpl in Hb. apply andb_true_iff in Hb as [Hd Hb]. cbn [partition_str].
    rewrite IH by done. apply negb_true_iff in Hd. by rewrite Hd.
  - simpl in Ha. apply andb_true_iff in Ha as [Hc Ha].
    change (String c a +:+ b) with (String c (a +:+ b)). cbn [partition_str].
    rewrite IH by done. by rewrite Hc.
Qed.

Lemma duration_unit_chars unit n :
  (unit, n) ∈ duration_units →
  all_chars (λ c, negb (in_num_part c)) unit = true ∧ all_chars plain unit = true ∧
  unit_micros duration_units unit = Some n ∧ 0 < n < 2 ^ 63.
Proof.
  unfold duration_units. rewrite !elem_of_cons. intros Hin.
  destruct_or! Hin; try (by apply elem_of_nil in Hin); injection Hin as -> ->;
    split_and!; try (vm_compute; reflexivity); lia.
Qed.

Lemma part_plain value unit n :
  (unit, n) ∈ duration_units →
  all_chars plain (show value +:+ unit) = true ∧ show value +:+ unit ≠ EmptyString.
Proof.
  intros Hu. destruct (duration_unit_chars _ _ Hu) as (_ & Hp & _). split.
  - rewrite all_chars_app, Hp, andb_true_r.
    eapply all_chars_impl, show_numeric. auto using numeric_in_num_part, in_num_part_plain.
  - pose proof (show_nonempty value). by destruct (show value).
Qed.

(** A part that was printed is read as its share of the duration. *)
Lemma parse_part value unit n :
  (unit, n) ∈ duration_units → is_i64 value →
  parse_single_duration_to_micros (show value +:+ unit) = Ok (i64_wrap (value * n)).
Proof.
  intros Hu Hv. destruct (part_plain value _ _ Hu) as [Hp Hne].
  destruct (duration_unit_chars _ _ Hu) as (Hn & _ & Hm & _).
  unfold parse_single_duration_to_micros. rewrite trim_plain by done.
  rewrite decide_False by done. rewrite partition_num_unit; [|eapply all_chars_impl, show_numeric; apply numeric_in_num_part|done].
  by rewrite parse_show, Hm.
Qed.

(** What the loop prints for the units it is given adds up to the duration up
    to a rest below the smallest unit. *)
Lemma parts_sum units us total :
  (∀ u n, (u, n) ∈ units → (u, n) ∈ duration_units) →
  - 2 ^ 63 < us < 2 ^ 63 → last units = Some ("us"%string, 1) → is_i64 total → is_i64 (total + us) →
  (0 ≤ total ∧ 0 ≤ us ∨ total ≤ 0 ∧ us ≤ 0) →
  sum_parts (duration_parts units us) total = Ok (total + us).
Proof.
  revert us total. induction units as [|[u n] units IH]; intros us total Hin Hus Hlast Ht Hsum Hsign.
  { done. }
  assert (Hu : (u, n) ∈ duration_units) by (apply Hin; left).
  destruct (duration_unit_chars _ _ Hu) as (_ & _ & _ & Hn).
  assert (Habs : i64_abs us = Z.abs us) by (apply i64_wrap_small; unfold is_i64; lia).
  cbn [duration_parts]. rewrite Habs. destruct (decide (n ≤ Z.abs us)) as [Hge|Hlt].
  - assert (Hq : 0 ≤ us ∧ 0 ≤ Z.quot us n * n ≤ us ∨ us ≤ 0 ∧ us ≤ Z.quot us n * n ≤ 0).
    { pose proof (Z.quot_rem' us n). pose proof (Z.rem_bound_abs us n ltac:(lia)).
      destruct (Z.le_gt_cases 0 us) as [Hp|Hp].
      - left. pose proof (Z.rem_nonneg us n ltac:(lia) Hp).
        pose proof (Z.quot_pos us n Hp ltac:(lia)). nia.
      - right. pose proof (Z.rem_nonpos us n ltac:(lia) ltac:(lia)).
        pose proof (Z.quot_opp_l us n ltac:(lia)). pose proof (Z.quot_pos (- us) n ltac:(lia) ltac:(lia)).
        nia. }
    assert (Hv : is_i64 (Z.quot us n)) by (unfold is_i64; nia).
    assert (Hvn : is_i64 (Z.quot us n * n)) by (unfold is_i64; lia).
    cbn [sum_parts]. rewrite (parse_part _ _ _ Hu Hv). simpl.
    rewrite (i64_wrap_small (Z.quot us n * n)) by done.
    rewrite i64_wrap_small by (unfold is_i64 in *; lia).
    destruct units as [|un units'] eqn:E.
    + simpl in Hlast. injection Hlast as -> ->. rewrite Z.quot_1_r. simpl. f_equal. lia.
    + rewrite IH; [f_equal; lia|..]; unfold is_i64 in *; try lia; [|done].
      intros u' n' H. apply Hin. by right.
  - destruct units as [|un units'] eqn:E.
    + simpl in Hlast. injection Hlast as -> ->. simpl. f_equal. lia.
    + apply IH; try done. intros u' n' H. apply Hin. by right.
Qed.

Lemma parts_plain units us :
  (∀ u n, (u, n) ∈ units → (u, n) ∈ duration_units) →
  Forall (λ w, all_chars plain w = true ∧ w ≠ EmptyString) (duration_parts units us).
Proof.
  revert us. induction units as [|[u n] units IH]; intros us Hin; simpl; [constructor|].
  assert (∀ u n, (u, n) ∈ units → (u, n) ∈ duration_units) by (intros; apply Hin; by right).
  case_decide; [constructor|]; auto. eapply part_plain. apply Hin. left.
Qed.

Lemma join_not_blank l :
  l ≠ [] → Forall (λ w, all_chars plain w = true ∧ w ≠ EmptyString) l → trim (join l) ≠ EmptyString.
Proof.
  destruct l as [|w l]; [done|]. intros _ Hl. inversion_clear Hl as [|? ? [Hw Hne] _].
  destruct w as [|c w]; [done|]. simpl in Hw. apply andb_true_iff in Hw as [Hc _].
  assert (∃ s, join (String c w :: l) = String c s) as [s ->].
  { destruct l; [by eexists|]. by exists (w +:+ " " +:+ join (s :: l)). }
  unfold trim. cbn [String.length trim_start]. rewrite plain_strip by done.
  cbn [trim_end]. by rewrite plain_strip.
Qed.

(** A duration survives its text: printing any duration but [i64::MIN]
    microseconds and parsing the text gives the duration back, negative
    durations included. *)
Theorem duration_text_roundtrip us :
  - 2 ^ 63 < us < 2 ^ 63 → parse_duration (fmt_duration us) = Ok (VDuration us).
Proof.
  intros Hus. unfold parse_duration, fmt_duration.
  assert (Hplain := parts_plain duration_units us ltac:(auto)).
  assert (Hsum : sum_parts (duration_parts duration_units us) 0 = Ok us).
  { rewrite parts_sum; unfold is_i64; auto; lia. }
  destruct (duration_parts duration_units us) as [|p ps] eqn:E.
  { simpl in Hsum. injection Hsum as <-. by vm_compute. }
  unfold parse_duration_to_micros. rewrite decide_False by (by apply join_not_blank).
  rewrite split_join by done. by rewrite Hsum.
Qed.

Lemma duration_text_roundtrip_witness :
  fmt_duration (-90061000002) = "-1d -1h -1m -1s -2us"%string ∧
  parse_duration (fmt_duration (-90061000002)) = Ok (VDuration (-90061000002)).
Proof. split; [by vm_compute|]. apply duration_text_roundtrip. lia. Defined.

(** ** Comparison is consistent *)

Lemma f64_eqb_cmp a b : f64_eqb a b = bool_decide (f64_cmp a b = Some Eq).
Proof. unfold f64_eqb, SFeqb, f64_cmp. by destruct (SFcompare a b) as [[]|]. Qed.

Lemma cmp_eq_decide a b : bool_decide (Some (a ?= b) = Some Eq) = bool_decide (a = b).
Proof. apply bool_decide_ext. rewrite <- Z.compare_eq_iff. split; congruence. Qed.

(** The comparisons of the condition language agree with each other: on any
    two values, of the same type or not, [==] holds exactly when the ordering
    says equal, swapping the operands reverses the ordering (so [$lt] one way is
    [$gt] the other way), and values are incomparable only when a string meets
    another type or a float is not a number. *)
Theorem value_comparison_consistent l r :
  value_eqb l r = bool_decide (value_cmp l r = Some Eq) ∧
  value_cmp r l = CompOpp <$> value_cmp l r ∧
  value_gtb r l = value_ltb l r ∧ value_geb r l = value_leb l r ∧
  (is_Some (value_cmp l r) ∨
   is_string l ≠ is_string r ∨ l = VFloat S754_nan ∨ r = VFloat S754_nan).
Proof.
  assert (Hopp : value_cmp r l = CompOpp <$> value_cmp l r).
  { destruct l, r; simpl; try done; try apply f64_cmp_opp;
      f_equal; auto using Z.compare_antisym, str_cmp_opp. }
  split_and!.
  - destruct l, r; simpl; rewrite ?f64_eqb_cmp, ?cmp_eq_decide; try done.
    + by destruct b, b0.
    + symmetry. apply bool_decide_ext. rewrite <- str_cmp_eq. split; congruence.
  - done.
  - unfold value_gtb, value_ltb. rewrite Hopp. by destruct (value_cmp l r) as [[]|].
  - unfold value_geb, value_leb. rewrite Hopp. by destruct (value_cmp l r) as [[]|].
  - pose proof f64_of_Z_not_nan as Hz.
    destruct (value_cmp l r) as [o|] eqn:Hn; [by left; eexists|right].
    destruct l, r; simpl in *; simplify_eq; auto;
      apply f64_cmp_none in Hn as [Hn|Hn]; try (by apply Hz in Hn); subst; auto.
Qed.
