(* ===== verification/Condition.v ===== *)
(** * Condition: the tree of a [when] condition and its evaluation
    (storage/query/condition.rs, constant.rs, reference.rs,
    computed_reference.rs, operators/*/*.rs)

    A node is evaluated in the context of a record and may keep state between
    records; [apply] returns the value and the node afterwards, also when the
    evaluation fails. *)

From stdpp Require Import prelude gmap strings sorting.
From Stdlib Require Import ZArith Lia SpecFloat.
From S2P Require Import Prelude Text Float64 Value.
Open Scope Z_scope.

Record Context := mkContext {
  ctx_timestamp : Z;
  ctx_labels : gmap string string;
  ctx_computed : gmap string string
}.

(** ** The calendar

    [chrono] and [chrono-tz]: which numbers of microseconds are a [DateTime],
    the known time zones, and the fields of an instant in a zone. *)
Inductive DateField := Second | Minute | Hour | Day | Month | Year | Weekday.

Class Chrono := {
  DateTime : Type;
  Tz : Type;
  tz_utc : Tz;
  tz_from_str : string → option Tz;
  from_timestamp_micros : Z → option DateTime;
  date_field : DateField → Tz → DateTime → Z
}.
(** The fields are [u32] and [i32] numbers. *)
Class ChronoLaws `{Chrono} : Prop :=
  date_field_range f z t : - 2 ^ 31 ≤ date_field f z t < 2 ^ 32.

(** ** Nodes *)

(** The operators without state. *)
Inductive Operator :=
| Add | Sub | Mult | Div | DivNum | Rem | Abs
| AllOf | AnyOf | NoneOf | OneOf | In | Nin
| EqOp | GtOp | GteOp | LtOp | LteOp | NeOp
| Date (f : DateField)
| Contains | StartsWith | EndsWith
| Exists | Cast | Ref | Timestamp.

#[warnings="-register-all"]
Inductive Node :=
| Constant (v : Value)
| Reference (name : string)
| ComputedReference (name : string)
| EachN (operands : list Node) (count : Z)
| EachT (operands : list Node) (last_timestamp : option Z)
| Gate (operands : list Node) (gate_deadline : option Z) (previous_input reset_required : bool)
    (last_timestamp : option Z)
| Limit (operands : list Node) (count : Z)
| Op (o : Operator) (operands : list Node).

(** ** Evaluation *)

Section Operands.
Context `{Chrono} (ap : Node → outcome Value * Node) (ctx : Context).

(** A loop over the operands: evaluate one, then [k] goes on with a new
    accumulator, returns a value early, or fails. *)
Fixpoint visit {A} (k : A → Value → outcome (A + Value)) (acc : A) (ops : list Node)
    : outcome (A + Value) * list Node :=
  match ops with
  | [] => (Ok (inl acc), [])
  | n :: rest =>
      match ap n with
      | (Ok v, n') =>
          match k acc v with
          | Ok (inl acc') => let '(r, rest') := visit k acc' rest in (r, n' :: rest')
          | Ok (inr v') => (Ok (inr v'), n' :: rest)
          | Err e => (Err e, n' :: rest)
          | Panic => (Panic, n' :: rest)
          end
      | (Err e, n') => (Err e, n' :: rest)
      | (Panic, n') => (Panic, n' :: rest)
      end
  end.

(** The result of such a loop, [final] being what follows it. *)
Definition loop {A} (k : A → Value → outcome (A + Value)) (acc : A) (final : A → Value)
    (ops : list Node) : outcome Value * list Node :=
  let '(r, ops') := visit k acc ops in
  (match r with Ok (inl a) => Ok (final a) | Ok (inr v) => Ok v | Err e => Err e | Panic => Panic end,
   ops').

(** [self.operands[0].apply(context)?] and the same for two operands; a missing
    operand is an index out of range. *)
Definition unary (f : Value → outcome Value) (ops : list Node) : outcome Value * list Node :=
  match ops with
  | [] => (Panic, [])
  | n :: rest =>
      match ap n with
      | (Ok v, n') => (f v, n' :: rest)
      | (r, n') => (r, n' :: rest)
      end
  end.

Definition binary (f : Value → Value → outcome Value) (ops : list Node)
    : outcome Value * list Node :=
  match ops with
  | [] => (Panic, [])
  | n1 :: ops1 =>
      match ap n1 with
      | (Ok v1, n1') =>
          match ops1 with
          | [] => (Panic, [n1'])
          | n2 :: rest =>
              match ap n2 with
              | (Ok v2, n2') => (f v1 v2, n1' :: n2' :: rest)
              | (r, n2') => (r, n1' :: n2' :: rest)
              end
          end
      | (r, n1') => (r, n1' :: ops1)
      end
  end.

(** [$add] and [$mult]: a fold that starts with the first value. *)
Definition fold_values (f : Value → Value → outcome Value) (ops : list Node)
    : outcome Value * list Node :=
  loop (λ acc v, match acc with
                 | Some s => r ← f s v; Ok (inl (Some r))
                 | None => Ok (inl (Some v))
                 end) None (default (VInt 0)) ops.

(** [$all_of], [$any_of], [$none_of]: stop with [stop_value] at the first operand
    whose truth is [stop]. *)
Definition until (stop stop_value : bool) (ops : list Node) : outcome Value * list Node :=
  loop (λ (_ : ()) v, b ← as_bool v;
                      Ok (if bool_decide (b = stop) then inr (VBool stop_value) else inl ()))
    () (λ _, VBool (negb stop_value)) ops.

Definition one_of (ops : list Node) : outcome Value * list Node :=
  loop (λ (count : Z) v, b ← as_bool v; Ok (inl (if b : bool then count + 1 else count)))
    0 (λ count, VBool (bool_decide (count = 1))) ops.

(** [$in] and [$nin]: [found] is the answer when an operand equals the first. *)
Definition membership (found : bool) (ops : list Node) : outcome Value * list Node :=
  match ops with
  | [] => (Panic, [])
  | n :: rest =>
      match ap n with
      | (Ok op_value, n') =>
          let '(r, rest') :=
            loop (λ (_ : ()) item, Ok (if value_eqb item op_value then inr (VBool found) else inl tt))
              tt (λ _, VBool (negb found)) rest in
          (r, n' :: rest')
      | (r, n') => (r, n' :: rest)
      end
  end.

Definition exists_labels (ops : list Node) : outcome Value * list Node :=
  loop (λ (_ : ()) v, Ok (if bool_decide (is_Some (ctx_labels ctx !! value_to_string v))
                   then inl tt else inr (VBool false)))
    tt (λ _, VBool true) ops.

(** [parse_timestamp_and_timezone] and the field of the date. *)
Definition parse_timestamp_and_timezone (ops : list Node) : outcome (DateTime * Tz) * list Node :=
  match ops with
  | [] => (Err UnprocessableEntity, [])
  | n1 :: rest =>
      if decide (1 < length rest)%nat then (Err UnprocessableEntity, ops)
      else
        match ap n1 with
        | (Ok v, n1') =>
            let date := i ← as_int v; ok_or UnprocessableEntity (from_timestamp_micros i) in
            match date with
            | Ok d =>
                match rest with
                | [] => (Ok (d, tz_utc), [n1'])
                | n2 :: rest' =>
                    match ap n2 with
                    | (Ok z, n2') =>
                        ((if is_string z then
                            tz ← ok_or UnprocessableEntity (tz_from_str (value_to_string z));
                            Ok (d, tz)
                          else Err UnprocessableEntity), n1' :: n2' :: rest')
                    | (Err e, n2') => (Err e, n1' :: n2' :: rest')
                    | (Panic, n2') => (Panic, n1' :: n2' :: rest')
                    end
                end
            | Err e => (Err e, n1' :: rest)
            | Panic => (Panic, n1' :: rest)
            end
        | (Err e, n1') => (Err e, n1' :: rest)
        | (Panic, n1') => (Panic, n1' :: rest)
        end
  end.

(** [Node::apply] of each operator without state. *)
Definition add_apply := fold_values value_add.
Definition sub_apply := binary value_subtract.
Definition mult_apply := fold_values value_multiply.
Definition div_apply := binary value_divide.
Definition div_num_apply := binary value_divide_num.
Definition rem_apply := binary value_remainder.
Definition abs_apply := unary value_abs.
Definition all_of_apply := until false false.
Definition any_of_apply := until true true.
Definition none_of_apply := until true false.
Definition in_apply := membership true.
Definition nin_apply := membership false.
Definition eq_apply := binary (λ a b, Ok (VBool (value_eqb a b))).
Definition gt_apply := binary (λ a b, Ok (VBool (value_gtb a b))).
Definition gte_apply := binary (λ a b, Ok (VBool (value_geb a b))).
Definition lt_apply := binary (λ a b, Ok (VBool (value_ltb a b))).
Definition lte_apply := binary (λ a b, Ok (VBool (value_leb a b))).
Definition ne_apply := binary (λ a b, Ok (VBool (negb (value_eqb a b)))).
Definition contains_apply := binary (λ a b, VBool <$> value_contains a b).
Definition starts_with_apply := binary (λ a b, VBool <$> value_starts_with a b).
Definition ends_with_apply := binary (λ a b, VBool <$> value_ends_with a b).
Definition cast_apply := binary (λ a b, value_cast a (value_to_string b)).
Definition ref_apply :=
  unary (λ a, value_parse <$> ok_or NotFound (ctx_labels ctx !! value_to_string a)).
Definition timestamp_apply (ops : list Node) : outcome Value * list Node :=
  (Ok (VInt (i64_wrap (ctx_timestamp ctx))), ops).

(** The date operators differ in the field they take. *)
Definition date_apply (f : DateField) (ops : list Node) : outcome Value * list Node :=
  let '(r, ops') := parse_timestamp_and_timezone ops in
  ((λ '(d, z), VInt (date_field f z d)) <$> r, ops').
Definition second_apply := date_apply Second.
Definition minute_apply := date_apply Minute.
Definition hour_apply := date_apply Hour.
Definition day_apply := date_apply Day.
Definition month_apply := date_apply Month.
Definition year_apply := date_apply Year.
Definition weekday_apply := date_apply Weekday.

Definition eval_op (o : Operator) : list Node → outcome Value * list Node :=
  match o with
  | Add => add_apply
  | Sub => sub_apply
  | Mult => mult_apply
  | Div => div_apply
  | DivNum => div_num_apply
  | Rem => rem_apply
  | Abs => abs_apply
  | AllOf => all_of_apply
  | AnyOf => any_of_apply
  | NoneOf => none_of_apply
  | OneOf => one_of
  | In => in_apply
  | Nin => nin_apply
  | EqOp => eq_apply
  | GtOp => gt_apply
  | GteOp => gte_apply
  | LtOp => lt_apply
  | LteOp => lte_apply
  | NeOp => ne_apply
  | Date Second => second_apply
  | Date Minute => minute_apply
  | Date Hour => hour_apply
  | Date Day => day_apply
  | Date Month => month_apply
  | Date Year => year_apply
  | Date Weekday => weekday_apply
  | Contains => contains_apply
  | StartsWith => starts_with_apply
  | EndsWith => ends_with_apply
  | Exists => exists_labels
  | Cast => cast_apply
  | Ref => ref_apply
  | Timestamp => timestamp_apply
  end.

(** The operators with state.  [$each_n] counts before it looks at its operand;
    [count % n] of the counter by [-1] cannot overflow, the counter starts at 0. *)
Definition eval_each_n (ops : list Node) (count : Z) : outcome Value * (list Node * Z) :=
  let count := i64_add count 1 in
  let '(r, ops') := unary Ok ops in
  (v ← r; n ← as_int v;
   if decide (n = 0) then Err UnprocessableEntity
   else m ← i64_rem count n; Ok (VBool (bool_decide (m = 0))), (ops', count)).

Definition million : f64 := f64_of_Z 1000000.

Definition eval_each_t (ops : list Node) (last : option Z) : outcome Value * (list Node * option Z) :=
  let now := ctx_timestamp ctx in
  let last_time := default now last in
  let '(r, ops') := unary Ok ops in
  let s := v ← r; f ← as_float v; Ok (if is_duration v then f64_div f million else f) in
  match s with
  | Ok s =>
      if decide (now < last_time) then (Ok (VBool false), (ops', Some now))
      else
        let ret := bool_decide (f64_to_u64 (f64_mul s million) ≤ now - last_time) in
        (Ok (VBool ret), (ops', Some (if ret then now else last_time)))
  | Err e => (Err e, (ops', Some last_time))
  | Panic => (Panic, (ops', Some last_time))
  end.

(** [Gate::duration_us]. *)
Definition duration_us (v : Value) : outcome Z :=
  d ← (if is_duration v then as_int v
       else f ← as_float v; Ok (f64_to_i64 (f64_mul f million)));
  Ok (0 `max` d).

Definition eval_limit (ops : list Node) (count : Z) : outcome Value * (list Node * Z) :=
  let count := i64_add count 1 in
  let '(r, ops') := unary Ok ops in
  (v ← r; n ← as_int v; if decide (n < count) then Err Interrupt else Ok (VBool true),
   (ops', count)).
End Operands.

(** The state of a gate after its operands were evaluated: the window expires,
    the latch holds the output until the input is seen false, a rising edge opens
    a window, and the output mirrors the input while it is open. *)
Definition gate_step (now duration : Z) (input : bool) (deadline : option Z) (prev reset : bool)
    : bool * (option Z * bool * bool) :=
  let expired := match deadline with Some d => bool_decide (d ≤ now) | None => false end in
  let deadline := if expired then None else deadline in
  let reset := if expired then true else reset in
  if reset then (false, (deadline, input, input))
  else
    let deadline := match deadline with
                    | None => if negb prev && input then Some (u64_sat_add now duration) else None
                    | d => d
                    end in
    let output := match deadline with
                  | Some d => if decide (now < d) then input else false
                  | None => false
                  end in
    (output, (deadline, input, false)).

(** Time that went backwards resets the gate. *)
Definition gate_rewind (now : Z) (last : option Z) (st : option Z * bool * bool)
    : option Z * bool * bool :=
  match last with
  | Some l => if decide (now < l) then (None, false, false) else st
  | None => st
  end.

Fixpoint apply `{Chrono} (ctx : Context) (n : Node) : outcome Value * Node :=
  match n with
  | Constant v => (Ok v, n)
  | Reference name => (value_parse <$> ok_or NotFound (ctx_labels ctx !! name), n)
  | ComputedReference name => (value_parse <$> ok_or NotFound (ctx_computed ctx !! name), n)
  | EachN ops count =>
      let '(r, (ops', count')) := eval_each_n (apply ctx) ops count in (r, EachN ops' count')
  | EachT ops last =>
      let '(r, (ops', last')) := eval_each_t (apply ctx) ctx ops last in (r, EachT ops' last')
  | Limit ops count =>
      let '(r, (ops', count')) := eval_limit (apply ctx) ops count in (r, Limit ops' count')
  | Gate ops deadline prev reset last =>
      let now := ctx_timestamp ctx in
      let '(deadline, prev, reset) := gate_rewind now last (deadline, prev, reset) in
      match ops with
      | [] => (Panic, Gate [] deadline prev reset (Some now))
      | n0 :: ops0 =>
          let '(r0, n0') := apply ctx n0 in
          match (v ← r0; duration_us v) with
          | Ok duration =>
              match ops0 with
              | [] => (Panic, Gate [n0'] deadline prev reset (Some now))
              | n1 :: rest =>
                  let '(r1, n1') := apply ctx n1 in
                  match (v ← r1; as_bool v) with
                  | Ok input =>
                      let '(out, (deadline', prev', reset')) :=
                        gate_step now duration input deadline prev reset in
                      (Ok (VBool out), Gate (n0' :: n1' :: rest) deadline' prev' reset' (Some now))
                  | Err e => (Err e, Gate (n0' :: n1' :: rest) deadline prev reset (Some now))
                  | Panic => (Panic, Gate (n0' :: n1' :: rest) deadline prev reset (Some now))
                  end
              end
          | Err e => (Err e, Gate (n0' :: ops0) deadline prev reset (Some now))
          | Panic => (Panic, Gate (n0' :: ops0) deadline prev reset (Some now))
          end
      end
  | Op o ops => let '(r, ops') := eval_op (apply ctx) ctx o ops in (r, Op o ops')
  end.
