(* ===== verification/Parser.v ===== *)
(** * Parser: from the JSON of a query to a condition tree
    (storage/query/condition/parser.rs and the [boxed] constructors)

    A condition is JSON: an object maps operators to operand lists, an operand
    to an object with one operator, or an operator to a single operand; members
    whose name begins with [#] are directives for the execution of the query. *)

From stdpp Require Import prelude gmap strings sorting.
From Stdlib Require Import ZArith Lia SpecFloat.
From S2P Require Import Prelude Text Float64 Value Condition.
Open Scope Z_scope.

(** ** JSON ([serde_json::Value] with [preserve_order]) *)

Inductive Number :=
| PosInt (n : Z)   (* u64 *)
| NegInt (n : Z)   (* a negative i64 *)
| JFloat (f : f64).

#[warnings="-register-all"]
Inductive Json :=
| JNull
| JBool (b : bool)
| JNumber (n : Number)
| JString (s : string)
| JArray (l : list Json)
| JObject (members : list (string * Json)).

(** A [Number] as serde_json builds it. *)
Definition number_ok (n : Number) : Prop :=
  match n with PosInt z => is_u64 z | NegInt z => - 2 ^ 63 ≤ z < 0 | JFloat _ => True end.

(** The text of a value, which the [#ext] directive passes on. *)
Class JsonText := json_to_string : Json → string.

Definition number_is_i64 (n : Number) : bool :=
  match n with PosInt z => bool_decide (z < 2 ^ 63) | NegInt _ => true | JFloat _ => false end.
Definition number_is_u64 (n : Number) : bool :=
  match n with PosInt _ => true | _ => false end.
Definition number_as_i64 (n : Number) : option Z :=
  match n with
  | PosInt z => if decide (z < 2 ^ 63) then Some z else None
  | NegInt z => Some z
  | JFloat _ => None
  end.
Definition number_as_f64 (n : Number) : option f64 :=
  Some match n with PosInt z | NegInt z => f64_of_Z z | JFloat f => f end.

(** ** Operators *)

(** How many operands the [boxed] constructor of an operator accepts. *)
Definition arity (o : Operator) (len : nat) : bool :=
  match o with
  | Add | Mult | AllOf | AnyOf | NoneOf | OneOf => true
  | Abs | Ref => bool_decide (len = 1%nat)
  | Sub | Div | DivNum | Rem | EqOp | GtOp | GteOp | LtOp | LteOp | NeOp
  | Contains | StartsWith | EndsWith | Cast => bool_decide (len = 2%nat)
  | In | Nin => bool_decide (2 ≤ len)%nat
  | Date _ => bool_decide (len = 1%nat ∨ len = 2%nat)
  | Exists => bool_decide (len ≠ 0%nat)
  | Timestamp => bool_decide (len = 0%nat)
  end.

Definition boxed (o : Operator) (operands : list Node) : outcome Node :=
  if arity o (length operands) then Ok (Op o operands) else Err UnprocessableEntity.

Definition boxed_state (len : nat) (mk : list Node → Node) (operands : list Node) : outcome Node :=
  if decide (length operands = len) then Ok (mk operands) else Err UnprocessableEntity.

Local Open Scope string_scope.

(** The names of the stateless operators. *)
Definition operator_names : list (string * Operator) :=
  [("$add", Add); ("$sub", Sub); ("$mult", Mult); ("$div", Div); ("$div_num", DivNum);
   ("$rem", Rem); ("$abs", Abs);
   ("$and", AllOf); ("$all_of", AllOf); ("$or", AnyOf); ("$any_of", AnyOf);
   ("$not", NoneOf); ("$none_of", NoneOf); ("$xor", OneOf); ("$one_of", OneOf);
   ("$in", In); ("$nin", Nin);
   ("$eq", EqOp); ("$gt", GtOp); ("$gte", GteOp); ("$lt", LtOp); ("$lte", LteOp); ("$ne", NeOp);
   ("$second", Date Second); ("$minute", Date Minute); ("$hour", Date Hour); ("$day", Date Day);
   ("$month", Date Month); ("$year", Date Year); ("$weekday", Date Weekday);
   ("$contains", Contains); ("$starts_with", StartsWith); ("$ends_with", EndsWith);
   ("$exists", Exists); ("$has", Exists); ("$cast", Cast); ("$ref", Ref);
   ("$timestamp", Timestamp); ("$id", Timestamp)].

Fixpoint assoc {A} (k : string) (l : list (string * A)) : option A :=
  match l with
  | [] => None
  | (k', a) :: l' => if decide (k = k') then Some a else assoc k l'
  end.

Definition parse_operator (operator : string) (operands : list Node) : outcome Node :=
  if negb (starts_with operator "$") then Err UnprocessableEntity
  else if decide (operator = "$each_n") then boxed_state 1 (λ l, EachN l 0) operands
  else if decide (operator = "$each_t") then boxed_state 1 (λ l, EachT l None) operands
  else if decide (operator = "$gate") then boxed_state 2 (λ l, Gate l None false false None) operands
  else if decide (operator = "$limit") then boxed_state 1 (λ l, Limit l 0) operands
  else match assoc operator operator_names with
       | Some o => boxed o operands
       | None => Err UnprocessableEntity
       end.

(** ** Literals and expressions *)

Definition parse_number (n : Number) : outcome (list Node) :=
  if number_is_i64 n || number_is_u64 n then i ← unwrap (number_as_i64 n); Ok [Constant (VInt i)]
  else f ← unwrap (number_as_f64 n); Ok [Constant (VFloat f)].

Definition parse_literal (value : string) : outcome (list Node) :=
  if starts_with value "&" then Ok [Reference (drop_str 1 value)]
  else if starts_with value "@" then Ok [ComputedReference (drop_str 1 value)]
  else if starts_with value "$$" then Ok [Constant (VString ("$" +:+ drop_str 2 value))]
  else if starts_with value "$" then
    match parse_operator value [] with
    | Ok operator => Ok [operator]
    | Err _ => Err UnprocessableEntity
    | Panic => Panic
    end
  else match parse_duration value with
       | Ok duration => Ok [Constant duration]
       | _ => Ok [Constant (VString value)]
       end.

(** [parse_recursively] with the functions it calls for objects: array notation
    ([parse_array_syntax]), object notation ([parse_object_syntax]), and a single
    operand. *)
Fixpoint parse_recursively (json : Json) : outcome (list Node) :=
  match json with
  | JBool b => Ok [Constant (VBool b)]
  | JNumber n => parse_number n
  | JString s => parse_literal s
  | JArray _ | JNull => Err UnprocessableEntity
  | JObject map =>
      (fix parse_object (map : list (string * Json)) : outcome (list Node) :=
         match map with
         | [] => Ok []
         | (key, value) :: map' =>
             e ← match value with
                 | JArray operand_list =>
                     operands ← (fix parse_operands (l : list Json) : outcome (list Node) :=
                                   match l with
                                   | [] => Ok []
                                   | j :: l' =>
                                       a ← parse_recursively j;
                                       b ← parse_operands l';
                                       Ok (a ++ b)%list
                                   end) operand_list;
                     parse_operator key operands
                 | JObject op_right_operand =>
                     left_operand ← parse_literal key;
                     match op_right_operand with
                     | [(operator, operand)] =>
                         right_operand ← parse_recursively operand;
                         parse_operator operator (left_operand ++ right_operand)%list
                     | _ => Err UnprocessableEntity
                     end
                 | _ => operands ← parse_recursively value; parse_operator key operands
                 end;
             rest ← parse_object map';
             Ok (e :: rest)
         end) map
  end.

(** The same functions by their names, and that [parse_recursively] uses them. *)
Fixpoint parse_operands (l : list Json) : outcome (list Node) :=
  match l with
  | [] => Ok []
  | j :: l' => a ← parse_recursively j; b ← parse_operands l'; Ok (a ++ b)%list
  end.

Definition parse_array_syntax (operator : string) (json_operands : list Json) : outcome Node :=
  operands ← parse_operands json_operands; parse_operator operator operands.

Definition parse_object_syntax (left : string) (op_right_operand : list (string * Json))
    : outcome Node :=
  left_operand ← parse_recursively (JString left);
  match op_right_operand with
  | [(operator, operand)] =>
      right_operand ← parse_recursively operand;
      parse_operator operator (left_operand ++ right_operand)%list
  | _ => Err UnprocessableEntity
  end.

Definition parse_member (key : string) (value : Json) : outcome Node :=
  match value with
  | JArray operand_list => parse_array_syntax key operand_list
  | JObject op_right_operand => parse_object_syntax key op_right_operand
  | _ => operands ← parse_recursively value; parse_operator key operands
  end.

Fixpoint parse_object (map : list (string * Json)) : outcome (list Node) :=
  match map with
  | [] => Ok []
  | (key, value) :: map' =>
      e ← parse_member key value; rest ← parse_object map'; Ok (e :: rest)
  end.

Lemma parse_recursively_object map : parse_recursively (JObject map) = parse_object map.
Proof.
  induction map as [|[key value] map IH]; [done|]. cbn [parse_object]. rewrite <- IH.
  cbn [parse_recursively]. by destruct value.
Qed.

(** ** Directives *)

Abbreviation Directives := (gmap string (list Value)).

Definition DIRECTIVES : list string :=
  ["#ctx_before"; "#ctx_after"; "#select_labels"; "#ext"; "#batch_size"; "#batch_records";
   "#batch_metadata_size"; "#batch_timeout"; "#record_timeout"; "#io_timeout"].

Definition parse_primitive (v : Json) : outcome Value :=
  match v with
  | JBool b => Ok (VBool b)
  | JNumber n =>
      match number_as_i64 n with
      | Some i => Ok (VInt i)
      | None => if number_is_u64 n then Err UnprocessableEntity
                else VFloat <$> unwrap (number_as_f64 n)
      end
  | JString s => match parse_duration s with Ok d => Ok d | _ => Ok (VString s) end
  | _ => Err UnprocessableEntity
  end.

Section Directives.
Context `{JsonText}.

Fixpoint parse_items (key : string) (items : list Json) : outcome (list Value) :=
  match items with
  | [] => Ok []
  | item :: items' =>
      v ← match item with
          | JObject _ => if decide (key = "#ext") then Ok (VString (json_to_string item))
                         else Err UnprocessableEntity
          | _ => parse_primitive item
          end;
      vs ← parse_items key items';
      Ok (v :: vs)
  end.

Definition parse_directive (key : string) (value : Json) : outcome (list Value) :=
  match value with
  | JNull => Err UnprocessableEntity
  | JObject _ => Ok [VString (json_to_string value)]
  | JArray items => parse_items key items
  | _ => v ← parse_primitive value; Ok [v]
  end.

(** The directives of an object, collected into the map, and the members that
    are left. *)
Fixpoint collect_directives (members : list (string * Json)) (ds : Directives)
    : outcome (Directives * list (string * Json)) :=
  match members with
  | [] => Ok (ds, [])
  | (key, value) :: members' =>
      if starts_with key "#" then
        if decide (key ∈ DIRECTIVES) then
          vs ← parse_directive key value;
          collect_directives members' (<[key := vs]> ds)
        else Err UnprocessableEntity
      else
        '(ds', rest) ← collect_directives members' ds;
        Ok (ds', (key, value) :: rest)
  end.

Definition parse_directives (json : Json) : outcome (Directives * Json) :=
  match json with
  | JObject members => '(ds, rest) ← collect_directives members ∅; Ok (ds, JObject rest)
  | _ => Ok (∅, json)
  end.

Definition parse (json : Json) : outcome (Node * Directives) :=
  '(directives, json) ← parse_directives json;
  expressions ← parse_recursively json;
  node ← boxed AllOf expressions;
  Ok (node, directives).
End Directives.
