(* ===== verification/ConditionRun.v ===== *)
(** * ConditionRun: parsed conditions run without panics

    A condition built by the parser has the operands its operators index, keeps
    its integers in range, and can be evaluated record after record; the two
    integer divisions and numbers beyond [i64] are the exceptions, and they are
    shown to be. *)

From stdpp Require Import prelude gmap strings sorting.
From Stdlib Require Import ZArith Lia SpecFloat.
From S2P Require Import Prelude Text Float64 Value Condition Parser.
Open Scope Z_scope.

(** Induction over nodes and JSON values, with the hypothesis for every operand. *)
Section NodeInd.
Variable P : Node → Prop.
Hypothesis HC : ∀ v, P (Constant v).
Hypothesis HR : ∀ s, P (Reference s).
Hypothesis HK : ∀ s, P (ComputedReference s).
Hypothesis HN : ∀ l c, Forall P l → P (EachN l c).
Hypothesis HT : ∀ l t, Forall P l → P (EachT l t).
Hypothesis HG : ∀ l d p r t, Forall P l → P (Gate l d p r t).
Hypothesis HL : ∀ l c, Forall P l → P (Limit l c).
Hypothesis HO : ∀ o l, Forall P l → P (Op o l).

Fixpoint node_ind (n : Node) : P n :=
  let all := fix all (l : list Node) : Forall P l :=
    match l with [] => Forall_nil_2 _ | x :: l' => Forall_cons_2 _ _ _ (node_ind x) (all l') end in
  match n with
  | Constant v => HC v
  | Reference s => HR s
  | ComputedReference s => HK s
  | EachN l c => HN l c (all l)
  | EachT l t => HT l t (all l)
  | Gate l d p r t => HG l d p r t (all l)
  | Limit l c => HL l c (all l)
  | Op o l => HO o l (all l)
  end.
End NodeInd.

#[export] Instance value_ok_dec v : Decision (value_ok v).
Proof. destruct v; simpl; apply _. Defined.

(** [check P k n]: operand counts allowed by [P], constants in range, counters
    of at most [k] records. *)
Fixpoint check (P : Operator → nat → bool) (k : Z) (n : Node) : bool :=
  match n with
  | Constant v => bool_decide (value_ok v)
  | Reference _ | ComputedReference _ => true
  | EachN l c | Limit l c =>
      bool_decide (length l = 1%nat) && bool_decide (0 ≤ c ≤ k) && forallb (check P k) l
  | EachT l _ => bool_decide (length l = 1%nat) && forallb (check P k) l
  | Gate l _ _ _ _ => bool_decide (length l = 2%nat) && forallb (check P k) l
  | Op o l => P o (length l) && forallb (check P k) l
  end.

(** The integer divisions, which can panic. *)
Definition divides (o : Operator) : bool :=
  match o with Rem | DivNum => true | _ => false end.
Definition safe_op (o : Operator) (len : nat) : bool := arity o len && negb (divides o).

Fixpoint uses_division (n : Node) : bool :=
  match n with
  | Constant _ | Reference _ | ComputedReference _ => false
  | EachN l _ | Limit l _ | EachT l _ | Gate l _ _ _ _ => existsb uses_division l
  | Op o l => divides o || existsb uses_division l
  end.

Lemma forallb_Forall' {A} (f : A → bool) l : forallb f l = true ↔ Forall (λ x, f x = true) l.
Proof. rewrite forallb_forall, Forall_forall. setoid_rewrite list_elem_of_In. done. Qed.

Lemma Forall_imp_In {A} (P Q : A → Prop) l : Forall (λ x, P x → Q x) l → Forall P l → Forall Q l.
Proof. rewrite !Forall_forall. auto. Qed.

Lemma check_mono P k k' n : k ≤ k' → check P k n = true → check P k' n = true.
Proof.
  intros Hk. assert (Hl : ∀ l, Forall (λ n, check P k n = true → check P k' n = true) l →
                              forallb (check P k) l = true → forallb (check P k') l = true).
  { intros l Hl. rewrite !forallb_Forall'. by apply Forall_imp_In. }
  induction n using node_ind; simpl; try done;
    rewrite ?andb_true_iff, ?bool_decide_eq_true; intros; destruct_and?; split_and?; auto; lia.
Qed.

Lemma check_safe k n :
  check arity k n = true → uses_division n = false → check safe_op k n = true.
Proof.
  assert (Hl : ∀ l, Forall (λ n, check arity k n = true → uses_division n = false →
                                 check safe_op k n = true) l →
               forallb (check arity k) l = true → existsb uses_division l = false →
               forallb (check safe_op k) l = true).
  { intros l Hl. rewrite !forallb_Forall'. induction Hl; intros Hc Hu; [constructor|].
    inversion_clear Hc. simpl in Hu. apply orb_false_iff in Hu as []. constructor; auto. }
  induction n using node_ind; simpl; try done; rewrite ?andb_true_iff, ?orb_false_iff;
    intros; destruct_and?; split_and?; auto.
  unfold safe_op. rewrite andb_true_iff. split; [done|]. by apply negb_true_iff.
Qed.

(** ** Evaluation of checked nodes *)

Definition good_result (r : outcome Value) : Prop :=
  match r with Ok v => value_ok v | Err _ => True | Panic => False end.

Lemma as_int_total v : as_int v ≠ Panic.
Proof. destruct v; simpl; try done. by destruct (parse_i64 s). Qed.
Lemma as_float_total v : as_float v ≠ Panic.
Proof. destruct v; simpl; try done. by destruct (parse_f64 s). Qed.

Section Sound.
Context `{ChronoLaws} (ap : Node → outcome Value * Node) (ctx : Context) (Q : Node → Prop).

(** An operand that can be evaluated: the result is good and [Q] holds after. *)
Definition ready (n : Node) : Prop := good_result (ap n).1 ∧ Q (ap n).2 ∧ Q n.

Definition good_ops (ops : list Node) (x : outcome Value * list Node) : Prop :=
  good_result x.1 ∧ Forall Q x.2 ∧ length x.2 = length ops.

Lemma ready_Q ops : Forall ready ops → Forall Q ops.
Proof. intros Hl. eapply Forall_impl; [done|]. by intros n (_ & _ & ?). Qed.
Local Hint Resolve ready_Q : core.

Lemma loop_sound {A} (I : A → Prop) (k : A → Value → outcome (A + Value)) acc final ops :
  (∀ a v, I a → value_ok v →
     match k a v with Ok (inl a') => I a' | Ok (inr v') => value_ok v' | Err _ => True
     | Panic => False end) →
  (∀ a, I a → value_ok (final a)) → I acc → Forall ready ops →
  good_ops ops (loop ap k acc final ops).
Proof.
  intros Hk Hf. revert acc. unfold good_ops, loop.
  induction ops as [|n ops IH]; intros acc Ha Hops; simpl; [auto|].
  inversion_clear Hops as [|? ? (Hr & Hq & _) Hrest].
  destruct (ap n) as [[v|e|] n'] eqn:E; simpl in *; [| |done].
  - specialize (Hk acc v Ha Hr).
    destruct (k acc v) as [[a'|v']|e|]; simpl; [|by auto..].
    specialize (IH a' Hk Hrest). destruct (visit ap k a' ops) as [r ops'] eqn:E'. simpl in *.
    destruct IH as (? & ? & ?). auto.
  - auto.
Qed.

Lemma unary_sound f ops :
  (∀ v, value_ok v → good_result (f v)) → length ops = 1%nat → Forall ready ops →
  good_ops ops (unary ap f ops).
Proof.
  intros Hf Hlen Hops. destruct ops as [|n [|??]]; try done.
  inversion_clear Hops as [|? ? (Hr & Hq & _) Hrest]. unfold good_ops, unary.
  destruct (ap n) as [[v|e|] n']; simpl in *; auto.
Qed.

Lemma binary_sound f ops :
  (∀ v w, value_ok v → value_ok w → good_result (f v w)) → length ops = 2%nat →
  Forall ready ops → good_ops ops (binary ap f ops).
Proof.
  intros Hf Hlen Hops. destruct ops as [|n1 [|n2 [|??]]]; try done.
  inversion_clear Hops as [|? ? (Hr & Hq & _) Hrest].
  inversion_clear Hrest as [|? ? (Hr2 & Hq2 & HQ2) _]. unfold good_ops, binary.
  destruct (ap n1) as [[v1|e|] n1']; simpl in *; auto.
  destruct (ap n2) as [[v2|e|] n2']; simpl in *; auto.
Qed.

Lemma membership_sound found ops :
  (2 ≤ length ops)%nat → Forall ready ops → good_ops ops (membership ap found ops).
Proof.
  intros Hlen Hops. destruct ops as [|n ops]; [simpl in Hlen; lia|].
  inversion_clear Hops as [|? ? (Hr & Hq & _) Hrest]. unfold membership.
  destruct (ap n) as [[v|e|] n']; simpl in *; [| |done].
  - pose proof (loop_sound (λ _, True)
      (λ (_ : ()) item, Ok (if value_eqb item v then inr (VBool found) else inl ())) ()
      (λ _, VBool (negb found)) ops) as (H1 & H2 & H3);
      [intros ? w _ _; by destruct (value_eqb w v)|done|done|done|].
    destruct (loop _ _ _ _ ops) as [r ops']. unfold good_ops. simpl in *. auto.
  - unfold good_ops. simpl. auto.
Qed.

Lemma date_sound f ops :
  length ops = 1%nat ∨ length ops = 2%nat → Forall ready ops →
  good_ops ops (date_apply ap f ops).
Proof.
  intros Hlen Hops. unfold good_ops, date_apply, parse_timestamp_and_timezone.
  destruct ops as [|n1 rest]; [simpl in Hlen; lia|]. simpl in Hlen.
  rewrite decide_False by lia. inversion_clear Hops as [|? ? (Hr & Hq & _) Hrest].
  assert (HQ := ready_Q _ Hrest).
  assert (Hd : ∀ d z, good_result (Ok (VInt (date_field f z d)))).
  { intros d z. simpl. pose proof (date_field_range f z d). unfold is_i64. lia. }
  destruct (ap n1) as [[v|e|] n1']; simpl in *; auto.
  destruct (as_int v) as [i|e|] eqn:Ei; simpl; auto; [|by apply as_int_total in Ei].
  destruct (from_timestamp_micros i) as [d|]; simpl; auto.
  destruct rest as [|n2 [|??]]; simpl in *; [auto| |lia].
  inversion_clear Hrest as [|? ? (Hr2 & Hq2 & _) _].
  destruct (ap n2) as [[z|e|] n2']; simpl in *; auto.
  destruct (is_string z); simpl; auto. destruct (tz_from_str (value_to_string z)); simpl; auto.
Qed.

(** The operators that do not divide integers are sound. *)
Lemma value_op_good l r f :
  value_ok l → value_ok r → f ∈ [value_add; value_subtract; value_multiply; value_divide] →
  good_result (f l r).
Proof.
  intros Hl Hr Hf. destruct (f l r) as [v|e|] eqn:E; simpl; [|done|].
  - eapply (value_ops_ok l r); [done..|]. set_unfold. naive_solver.
  - set_unfold. destruct_or! Hf; subst f; try (by destruct l, r).
    unfold value_divide in E. repeat case_match; try done.
    destruct (as_float r) eqn:Er; simpl in E; try done; [|by apply as_float_total in Er].
    case_match; try done. destruct (as_float l) eqn:El; try done. by apply as_float_total in El.
Qed.

Lemma cast_good v ty : value_ok v → good_result (value_cast v ty).
Proof.
  intros Hv. destruct (value_cast v ty) eqn:E; simpl; [by eapply value_cast_ok|done|].
  unfold value_cast in E. repeat case_decide; try done;
    destruct (as_int v) eqn:E1, (as_float v) eqn:E2; try done;
    by first [apply as_int_total in E1|apply as_float_total in E2].
Qed.

Lemma fold_sound f ops :
  f ∈ [value_add; value_subtract; value_multiply; value_divide] → Forall ready ops →
  good_ops ops (fold_values ap f ops).
Proof.
  intros Hf. apply (loop_sound (λ acc, ∀ v, acc = Some v → value_ok v)).
  - intros [s|] v Hs Hv; simpl; [|by intros ? [= <-]].
    pose proof (value_op_good s v f (Hs _ eq_refl) Hv Hf) as G.
    destruct (f s v); simpl in *; [by intros ? [= <-]|done..].
  - intros [s|] Hs; simpl; [by apply Hs|unfold is_i64; lia].
  - done.
Qed.

Lemma eval_op_sound o ops :
  is_u64 (ctx_timestamp ctx) → safe_op o (length ops) = true → Forall ready ops →
  good_ops ops (eval_op ap ctx o ops).
Proof.
  unfold safe_op. rewrite andb_true_iff. intros Hctx [Ha Hd] Hops.
  destruct o; simpl in Ha, Hd; try done; rewrite ?bool_decide_eq_true in Ha; simpl;
    try (apply binary_sound; [|done|done]; intros v w ??;
         first [done|apply value_op_good; [done..|set_solver]|by apply cast_good]);
    try (by apply membership_sound); try (destruct f; by apply date_sound);
    try (apply fold_sound; [set_solver|done]).
  - apply unary_sound; [|done..]. intros v Hv.
    destruct (value_abs v) eqn:E; simpl; [by eapply value_abs_ok|done|by destruct v].
  - apply (loop_sound (λ _, True)); try done. intros [] v _ _. simpl. by destruct (bool_decide _).
  - apply (loop_sound (λ _, True)); try done. intros [] v _ _. simpl. by destruct (bool_decide _).
  - apply (loop_sound (λ _, True)); try done. intros [] v _ _. simpl. by destruct (bool_decide _).
  - apply (loop_sound (λ _, True)); try done.
  - apply (loop_sound (λ _, True)); try done. intros [] v _ _. simpl. by destruct (bool_decide _).
  - apply unary_sound; [|done..]. intros v Hv.
    destruct (ctx_labels ctx !! value_to_string v); simpl; [apply value_parse_ok|done].
  - unfold good_ops. simpl. split_and!; auto. apply i64_wrap_range.
Qed.
End Sound.

(** ** Nodes with state *)

Section Stateful.
Context `{ChronoLaws} (ctx : Context) (k : Z).
Hypothesis Hk : k < 2 ^ 63 - 1.

(** The next record's check, and operands that reach it. *)
Abbreviation next := (check safe_op (k + 1)).
Abbreviation operand_ready := (ready (apply ctx) (λ n, next n = true)).
Abbreviation sound n := (good_result (apply ctx n).1 ∧ next (apply ctx n).2 = true).

Lemma good_ops_next l (x : outcome Value * list Node) :
  good_ops (λ n, next n = true) l x →
  good_result x.1 ∧ forallb next x.2 = true ∧ length x.2 = length l.
Proof. intros (? & ? & ?). by rewrite forallb_Forall'. Qed.

Lemma single_operand l :
  length l = 1%nat → Forall operand_ready l →
  good_result (unary (apply ctx) Ok l).1 ∧ forallb next (unary (apply ctx) Ok l).2 = true ∧
  length (unary (apply ctx) Ok l).2 = 1%nat.
Proof. intros Hlen Hl. rewrite <- Hlen. by apply good_ops_next, unary_sound. Qed.

Lemma counter_next c : 0 ≤ c ≤ k → i64_add c 1 = c + 1 ∧ 0 ≤ c + 1 ≤ k + 1.
Proof. intros Hc. split; [apply i64_wrap_small; unfold is_i64; lia|lia]. Qed.

Lemma each_n_sound l c :
  length l = 1%nat → 0 ≤ c ≤ k → Forall operand_ready l → sound (EachN l c).
Proof.
  intros Hlen Hc Hl. destruct (single_operand l Hlen Hl) as (Hr & Hf & Hlen').
  destruct (counter_next c Hc) as [Hadd Hc'].
  simpl. unfold eval_each_n. destruct (unary _ _ l) as [r l']. simpl in *.
  rewrite Hadd, Hf, !bool_decide_eq_true_2 by done. split; [|done].
  destruct r as [v|e|]; simpl; try done.
  destruct (as_int v) as [i|e|] eqn:Ei; simpl; try done; [|by apply as_int_total in Ei].
  destruct (decide (i = 0)); simpl; try done.
  unfold i64_rem. rewrite decide_False by done. rewrite decide_False by lia. done.
Qed.

Lemma limit_sound l c :
  length l = 1%nat → 0 ≤ c ≤ k → Forall operand_ready l → sound (Limit l c).
Proof.
  intros Hlen Hc Hl. destruct (single_operand l Hlen Hl) as (Hr & Hf & Hlen').
  destruct (counter_next c Hc) as [Hadd Hc'].
  simpl. unfold eval_limit. destruct (unary _ _ l) as [r l']. simpl in *.
  rewrite Hadd, Hf, !bool_decide_eq_true_2 by done. split; [|done].
  destruct r as [v|e|]; simpl; try done.
  destruct (as_int v) as [i|e|] eqn:Ei; simpl; try done; [|by apply as_int_total in Ei].
  by case_decide.
Qed.

Lemma each_t_sound l t : length l = 1%nat → Forall operand_ready l → sound (EachT l t).
Proof.
  intros Hlen Hl. destruct (single_operand l Hlen Hl) as (Hr & Hf & Hlen').
  simpl. unfold eval_each_t. destruct (unary _ _ l) as [r l']. simpl in *.
  assert (Hc : bool_decide (length l' = 1%nat) && forallb next l' = true)
    by (by rewrite Hf, bool_decide_eq_true_2).
  destruct r as [v|e|]; simpl; try done.
  destruct (as_float v) as [i|e|] eqn:Ei; simpl; try done; [|by apply as_float_total in Ei].
  destruct (decide (_ < _)); by split.
Qed.

Lemma duration_us_total v : duration_us v ≠ Panic.
Proof.
  unfold duration_us. destruct (is_duration v).
  - destruct (as_int v) eqn:E; try done. by apply as_int_total in E.
  - destruct (as_float v) eqn:E; try done. by apply as_float_total in E.
Qed.

Lemma gate_sound l d p r t :
  length l = 2%nat → Forall operand_ready l → sound (Gate l d p r t).
Proof.
  intros Hlen Hl. simpl. destruct (gate_rewind _ _ _) as [[d' p'] r'].
  destruct l as [|n0 [|n1 [|??]]]; try done.
  inversion_clear Hl as [|? ? (Hr0 & Hq0 & _) Hrest].
  inversion_clear Hrest as [|? ? (Hr1 & Hq1 & HQ1) _].
  destruct (apply ctx n0) as [r0 n0']. simpl in *.
  destruct r0 as [v0|e|]; simpl in *; [|by rewrite Hq0, HQ1|done].
  destruct (duration_us v0) as [du|e|] eqn:Ed; simpl;
    [|by rewrite Hq0, HQ1|by apply duration_us_total in Ed].
  destruct (apply ctx n1) as [r1 n1']. simpl in *.
  destruct r1 as [v1|e|]; simpl in *; [|by rewrite Hq0, Hq1|done].
  destruct (gate_step _ _ _ _ _ _) as [out [[d2 p2] r2]]. simpl. by rewrite Hq0, Hq1.
Qed.

(** Evaluating a checked node: the result is a value in range or an error, and
    the node is checked for one record more. *)
Lemma apply_sound n : is_u64 (ctx_timestamp ctx) → check safe_op k n = true → sound n.
Proof.
  intros Hctx.
  assert (Hready : ∀ l, Forall (λ n, check safe_op k n = true → sound n) l →
            forallb (check safe_op k) l = true → Forall operand_ready l).
  { intros l Hl Hc. apply forallb_Forall' in Hc. eapply Forall_imp_In; [|exact Hc].
    eapply Forall_impl; [exact Hl|]. intros x IH Hx. destruct (IH Hx). split_and!; try done.
    eapply check_mono; [|done]. lia. }
  induction n using node_ind; simpl check; rewrite ?andb_true_iff, ?bool_decide_eq_true; intros Hc;
    destruct_and?; auto using each_n_sound, each_t_sound, gate_sound, limit_sound.
  - simpl. split; [|done]. destruct (ctx_labels ctx !! s); simpl; [apply value_parse_ok|done].
  - simpl. split; [|done]. destruct (ctx_computed ctx !! s); simpl; [apply value_parse_ok|done].
  - pose proof (eval_op_sound (apply ctx) ctx _ o l Hctx ltac:(done) (Hready _ ltac:(done) ltac:(done)))
      as (Hr & Hf & Hlen')%good_ops_next.
    simpl. destruct (eval_op _ _ o l) as [res l']. simpl in *. rewrite Hf, Hlen', andb_true_r. done.
Qed.
End Stateful.

(** A condition evaluated on one record after the other. *)
Fixpoint run `{Chrono} (ctxs : list Context) (n : Node) : list (outcome Value) :=
  match ctxs with
  | [] => []
  | ctx :: ctxs' => let '(r, n') := apply ctx n in r :: run ctxs' n'
  end.

Lemma run_sound `{ChronoLaws} ctxs k n :
  Forall (λ ctx, is_u64 (ctx_timestamp ctx)) ctxs → check safe_op k n = true →
  0 ≤ k → k + Z.of_nat (length ctxs) < 2 ^ 63 → Forall good_result (run ctxs n).
Proof.
  intros Hctxs. revert k n. induction Hctxs as [|ctx ctxs Hctx _ IH]; intros k n Hn Hk Hlen; simpl.
  { constructor. }
  simpl in Hlen. destruct (apply_sound ctx k ltac:(lia) n Hctx Hn) as [Hr Hn'].
  destruct (apply ctx n) as [r n']. simpl in *. constructor; [done|].
  apply (IH (k + 1)); [done|lia..].
Qed.

(** ** What the parser builds is checked *)

Section JsonInd.
Variable P : Json → Prop.
Hypothesis HNull : P JNull.
Hypothesis HBool : ∀ b, P (JBool b).
Hypothesis HNum : ∀ n, P (JNumber n).
Hypothesis HStr : ∀ s, P (JString s).
Hypothesis HArr : ∀ l, Forall P l → P (JArray l).
Hypothesis HObj : ∀ m, Forall (λ kv, P kv.2) m → P (JObject m).

Fixpoint json_ind (j : Json) : P j :=
  match j with
  | JNull => HNull
  | JBool b => HBool b
  | JNumber n => HNum n
  | JString s => HStr s
  | JArray l =>
      HArr l ((fix all (l : list Json) : Forall P l :=
        match l with [] => Forall_nil_2 _ | x :: l' => Forall_cons_2 _ _ _ (json_ind x) (all l') end) l)
  | JObject m =>
      HObj m ((fix all (m : list (string * Json)) : Forall (λ kv, P kv.2) m :=
        match m with
        | [] => Forall_nil_2 _
        | x :: m' => Forall_cons_2 _ _ _ (json_ind x.2) (all m')
        end) m)
  end.
End JsonInd.

Abbreviation built := (λ n, check arity 0 n = true).

Lemma parse_operator_built op l n : Forall built l → parse_operator op l = Ok n → built n.
Proof.
  intros Hl. apply forallb_Forall' in Hl. unfold parse_operator, boxed_state, boxed.
  repeat case_decide || case_match; intros; simplify_eq/=; try done;
    rewrite ?Hl, ?bool_decide_eq_true_2 by done; try done.
  by rewrite andb_true_r.
Qed.

Lemma i64_constant i : is_i64 i → Forall built [Constant (VInt i)].
Proof. intros Hi. repeat constructor. by apply bool_decide_eq_true_2. Qed.

(** The numbers of a JSON value are what serde_json can hold. *)
#[export] Instance number_ok_dec n : Decision (number_ok n).
Proof. destruct n; simpl; apply _. Defined.

Fixpoint json_ok (j : Json) : bool :=
  match j with
  | JNumber n => bool_decide (number_ok n)
  | JArray l => forallb json_ok l
  | JObject m => forallb (λ kv, json_ok kv.2) m
  | _ => true
  end.

Lemma sum_parts_range parts total us : is_i64 total → sum_parts parts total = Ok us → is_i64 us.
Proof.
  revert total. induction parts as [|p parts IH]; intros total Ht; simpl; [by intros [= <-]|].
  destruct (parse_single_duration_to_micros p); simpl; [|done..]. apply IH, i64_wrap_range.
Qed.

Lemma parse_duration_ok s v : parse_duration s = Ok v → value_ok v.
Proof.
  unfold parse_duration, parse_duration_to_micros. case_decide; [done|].
  destruct (sum_parts _ 0) eqn:E; simpl; [|done..]. intros [= <-].
  eapply sum_parts_range; [|done]. unfold is_i64. lia.
Qed.

Lemma parse_literal_built s l : parse_literal s = Ok l → Forall built l.
Proof.
  unfold parse_literal. repeat case_match; intros; simplify_eq; repeat constructor.
  - by apply (parse_operator_built s []).
  - apply bool_decide_eq_true_2. by apply (parse_duration_ok s).
Qed.

Lemma parse_number_built n l : number_ok n → parse_number n = Ok l → Forall built l.
Proof.
  unfold parse_number. intros Hn H. destruct n as [z|z|f]; simpl in *.
  - rewrite orb_true_r in H. case_decide; simplify_eq/=. apply i64_constant.
    unfold is_u64, is_i64 in *. lia.
  - simplify_eq/=. apply i64_constant. unfold is_i64. lia.
  - simplify_eq/=. by repeat constructor.
Qed.

Abbreviation parses_built :=
  (λ j, ∀ l, json_ok j = true → parse_recursively j = Ok l → Forall built l).

Lemma parse_operands_built js l :
  Forall parses_built js → forallb json_ok js = true → parse_operands js = Ok l → Forall built l.
Proof.
  intros Hjs. revert l. induction Hjs as [|j js Hj _ IH]; intros l Hok; simpl; [by intros [= <-]|].
  simpl in Hok. apply andb_true_iff in Hok as [Hj' Hok].
  destruct (parse_recursively j) as [a| |] eqn:Ea; simpl; try done.
  destruct (parse_operands js) as [b| |]; simpl; try done. intros [= <-].
  apply Forall_app. split; [by apply Hj|by apply IH].
Qed.

(** Operands of a JSON value: its items or the values of its members. *)
Definition children (j : Json) : list Json :=
  match j with JArray l => l | JObject m => m.*2 | _ => [] end.

Lemma parse_member_built key j n :
  parses_built j → Forall parses_built (children j) → json_ok j = true →
  parse_member key j = Ok n → built n.
Proof.
  intros Hj Hc Hok H. destruct j as [| | | |js|m]; cbn [parse_member children] in *;
    try (match type of H with context [parse_recursively ?j] =>
           destruct (parse_recursively j) as [l| |] eqn:E; simpl in H; [|done|done];
           eapply parse_operator_built; [|done]; by apply Hj
         end).
  - unfold parse_array_syntax in H.
    destruct (parse_operands js) as [l| |] eqn:E; simpl in H; try done.
    eapply parse_operator_built; [|done]. by eapply parse_operands_built.
  - unfold parse_object_syntax in H. simpl in H.
    destruct (parse_literal key) as [lo| |] eqn:El; simpl in H; try done.
    destruct m as [|[op operand] [|]]; try done.
    destruct (parse_recursively operand) as [ro| |] eqn:Er; simpl in H; try done.
    eapply parse_operator_built; [|done]. apply Forall_app. split; [by eapply parse_literal_built|].
    simpl in Hok. rewrite andb_true_r in Hok. inversion_clear Hc as [|? ? Ho]. by apply Ho.
Qed.

Lemma parse_recursively_built j : parses_built j ∧ Forall parses_built (children j).
Proof.
  induction j as [| | | |l IH|m IH] using json_ind; (split; [|try done]).
  - done.
  - intros ? _ [= <-]. by repeat constructor.
  - intros l Hn. apply parse_number_built. by apply bool_decide_eq_true in Hn.
  - intros l _. apply parse_literal_built.
  - done.
  - eapply Forall_impl; [done|]. by intros ? [? _].
  - intros l. rewrite parse_recursively_object. revert l.
    induction IH as [|[key value] m [Hv Hc] _ IHm]; intros l Hok; simpl; [by intros [= <-]|].
    simpl in Hok. apply andb_true_iff in Hok as [Hok1 Hok2].
    destruct (parse_member key value) as [e| |] eqn:E; simpl; try done.
    destruct (parse_object m) as [rest| |]; simpl; try done. intros [= <-].
    constructor; [by eapply parse_member_built|by apply IHm].
  - simpl. apply Forall_fmap. eapply Forall_impl; [done|]. by intros [k v] [? _].
Qed.

Lemma collect_directives_ok `{JsonText} m ds ds' rest :
  forallb (λ kv, json_ok kv.2) m = true → collect_directives m ds = Ok (ds', rest) →
  forallb (λ kv, json_ok kv.2) rest = true.
Proof.
  revert ds rest. induction m as [|[key value] m IH]; intros ds rest Hm; simpl.
  { by intros [= <- <-]. }
  simpl in Hm. apply andb_true_iff in Hm as [Hv Hm].
  destruct (starts_with key "#").
  - case_decide; [|done]. destruct (parse_directive key value); simpl; [|done..]. by apply IH.
  - destruct (collect_directives m ds) as [[d r]| |] eqn:E; simpl; [|done..]. intros [= <- <-].
    simpl. rewrite Hv. by eapply IH.
Qed.

Lemma parse_built `{JsonText} json cond ds :
  json_ok json = true → parse json = Ok (cond, ds) → check arity 0 cond = true.
Proof.
  unfold parse. intros Hok Hp.
  assert (∃ j l, json_ok j = true ∧ parse_recursively j = Ok l ∧ cond = Op AllOf l)
    as (j & l & Hj & Hl & ->).
  { unfold parse_directives in Hp.
    destruct json as [| | | | |members]; cbn -[parse_recursively] in Hp;
      try (match type of Hp with context [parse_recursively ?j] =>
             destruct (parse_recursively j) eqn:E; [|done..];
             injection Hp as <- <-; do 2 eexists; split_and!; [exact Hok|exact E|done]
           end).
    destruct (collect_directives members ∅) as [[d r]| |] eqn:E;
      cbn -[parse_recursively] in Hp; [|done..].
    destruct (parse_recursively (JObject r)) eqn:E'; [|done..]. injection Hp as <- <-.
    exists (JObject r). eexists. split_and!; [|done|done]. by eapply collect_directives_ok. }
  simpl. apply forallb_Forall'. by apply (proj1 (parse_recursively_built j)).
Qed.

(** C34: A condition the parser accepts never takes the query down: unless it
    divides integers, evaluating it on any sequence of records gives a value in
    range or an error on each of them, and never panics; in particular no
    operator indexes a missing operand, whatever the JSON was. *)
Theorem parsed_condition_never_panics `{JsonText} `{ChronoLaws} json cond ds ctxs :
  json_ok json = true → parse json = Ok (cond, ds) → uses_division cond = false →
  Forall (λ ctx, is_u64 (ctx_timestamp ctx)) ctxs → Z.of_nat (length ctxs) < 2 ^ 63 →
  Forall good_result (run ctxs cond).
Proof.
  intros Hok Hp Hd Hctxs Hlen. apply (run_sound ctxs 0); [done| |lia..].
  apply check_safe; [|done]. by eapply parse_built.
Qed.

(** The condition language can take the process down: [$rem] by an integer
    zero is accepted by the parser and panics on every record, and an integer
    that needs all 64 bits panics while the condition is parsed. *)
Theorem rem_by_zero_panics `{JsonText} `{Chrono} (a n : Z) ctx :
  - 2 ^ 63 ≤ a < 0 → 2 ^ 63 ≤ n < two64 →
  (∃ cond ds, parse (JObject [("$rem"%string, JArray [JNumber (NegInt a); JNumber (PosInt 0)])])
                = Ok (cond, ds) ∧ (apply ctx cond).1 = Panic) ∧
  parse (JObject [("$rem"%string, JArray [JNumber (NegInt a); JNumber (PosInt n)])]) = Panic.
Proof.
  intros Ha Hn. split; [by do 2 eexists|].
  unfold parse, parse_directives. simpl. unfold parse_number. simpl.
  rewrite orb_true_r, decide_False by lia. done.
Qed.

Section Witnesses.
(** A calendar of seconds since the epoch, in one zone. *)
Local Instance demo_chrono : Chrono := {|
  DateTime := Z; Tz := (); tz_utc := (); tz_from_str s := None;
  from_timestamp_micros us := Some (us / 1000000);
  date_field f _ s := match f with Second => s mod 60 | _ => 0 end
|}.
Local Instance demo_chrono_laws : ChronoLaws.
Proof. intros f z t. destruct f; simpl; try lia. pose proof (Z.mod_pos_bound t 60). lia. Qed.
Local Instance demo_json_text : JsonText := λ _, "{}"%string.

Local Open Scope string_scope.

Definition demo_when : Json :=
  JObject [("&score", JObject [("$gte", JNumber (PosInt 10))]); ("$each_n", JNumber (PosInt 2));
           ("#ctx_before", JString "5s")].
Definition demo_context (t : Z) (score : string) : Context :=
  mkContext t {["score" := score]} ∅.
Definition demo_contexts : list Context := [demo_context 1 "10"; demo_context 2 "11.5"].

Definition demo_condition : Node :=
  Op AllOf [Op GteOp [Reference "score"; Constant (VInt 10)]; EachN [Constant (VInt 2)] 0].

Lemma parsed_condition_never_panics_witness :
  parse demo_when = Ok (demo_condition, {["#ctx_before" := [VDuration 5000000]]}) ∧
  run demo_contexts demo_condition = [Ok (VBool false); Ok (VBool true)] ∧
  Forall good_result (run demo_contexts demo_condition).
Proof.
  split_and!; [by vm_compute|by vm_compute|].
  apply (parsed_condition_never_panics demo_when _ {["#ctx_before" := [VDuration 5000000]]});
    [by vm_compute|by vm_compute|done| |simpl; lia].
  repeat constructor; simpl; unfold two64; lia.
Defined.

Lemma rem_by_zero_panics_witness :
  parse (JObject [("$rem", JArray [JNumber (NegInt (-7)); JNumber (PosInt (2 ^ 63))])]) = Panic.
Proof.
  apply (rem_by_zero_panics (-7) (2 ^ 63) (demo_context 1 "1")); unfold two64; lia.
Defined.
End Witnesses.
