(* ===== verification/Filters.v ===== *)
(** * Filters: the record filters of a query
    (storage/query/filters.rs, filters/*.rs, filters/when/*.rs)

    A filter takes a record and passes on any number of records, or interrupts
    the query.  The [when] filter evaluates a condition, keeps the records in
    front of a match in a buffer and lets records behind a match through. *)

From stdpp Require Import prelude gmap strings sorting.
From Stdlib Require Import ZArith Lia SpecFloat.
From S2P Require Import Prelude Collections Proto Text Float64 Value Condition Parser.
Open Scope Z_scope.

(** The trait [FilterRecord]. *)
Class FilterRecord (R : Type) := {
  fr_state : R → Z;
  fr_timestamp : R → Z;
  fr_labels : R → gmap string string;
  fr_set_labels : gmap string string → R → R;
  fr_computed_labels : R → gmap string string
}.

(** [impl FilterRecord for Record] (historical.rs). *)
#[export] Instance record_filter `{HashIter} : FilterRecord Rec := {|
  fr_state := r_state;
  fr_timestamp rec := match r_timestamp rec with Some ts => ts_to_us ts | None => 0 end;
  fr_labels rec := foldl (λ m l, <[label_name l := label_value l]> m) ∅ (r_labels rec);
  fr_set_labels m rec :=
    mkRec (r_timestamp rec) (r_begin rec) (r_end rec) (r_state rec)
      ((λ kv, mkLabel kv.1 kv.2) <$> hash_iter m) (r_content_type rec);
  fr_computed_labels _ := ∅
|}.

(** [ByteSize::from_str] of the crate bytesize. *)
Class ByteSize := byte_size_from_str : string → option Z.

(** [IoConfig] (cfg/io.rs); times in microseconds. *)
Record IoConfig := mkIoConfig {
  batch_max_size : Z;
  batch_max_records : Z;
  batch_max_metadata_size : Z;
  batch_timeout : Z;
  batch_records_timeout : Z;
  operation_timeout : Z;
  max_writers_in_flight : option Z
}.

Inductive Padding := Records (n : Z) | DurationUs (us : Z).

Record CtxAfter := mkCtxAfter { after : Padding; ca_count : Z; last_ts : option Z }.

Record WhenFilter (R : Type) := mkWhen {
  wf_condition : Node;
  wf_strict : bool;
  wf_before : Padding;
  wf_after : CtxAfter;
  wf_buffer : list R;
  wf_labels : gset string;
  wf_io : IoConfig
}.
Arguments mkWhen {R} _ _ _ _ _ _ _.
Arguments wf_condition {R} _. Arguments wf_strict {R} _. Arguments wf_before {R} _.
Arguments wf_after {R} _. Arguments wf_buffer {R} _. Arguments wf_labels {R} _. Arguments wf_io {R} _.

Inductive Filter (R : Type) :=
| TimeRangeFilter (start stop : Z)
| RecordStateFilter (state : RecordState)
| When (w : WhenFilter R).
Arguments TimeRangeFilter {R} _ _. Arguments RecordStateFilter {R} _. Arguments When {R} _.

(** ** Directives of a query *)

(** [CtxBefore::try_new] and [CtxAfter::try_new] read their directive alike. *)
Definition parse_padding (directive : option (list Value)) : outcome Padding :=
  match directive with
  | None => Ok (Records 0)
  | Some [v] =>
      match as_int v with
      | Ok val =>
          if decide (val < 0) then Err UnprocessableEntity
          else Ok (if is_duration v then DurationUs val else Records val)
      | Err _ => Err UnprocessableEntity
      | Panic => Panic
      end
  | Some _ => Err UnprocessableEntity
  end.

Definition ctx_after_try_new (directive : option (list Value)) : outcome CtxAfter :=
  p ← parse_padding directive; Ok (mkCtxAfter p 0 None).

(** [LabelSelector::try_new]. *)
Definition label_selector_try_new (directive : option (list Value)) : outcome (gset string) :=
  match directive with
  | None => Ok ∅
  | Some [] => Err UnprocessableEntity
  | Some labels =>
      if forallb is_string labels then Ok (list_to_set (value_to_string <$> labels))
      else Err UnprocessableEntity
  end.

Section IoDirectives.
Context `{ByteSize}.

Definition parse_size (directive : option (list Value)) (dflt : Z) : outcome Z :=
  match directive with
  | None => Ok dflt
  | Some [VInt i] => if decide (0 ≤ i) then Ok i else Err UnprocessableEntity
  | Some [VString s] => ok_or UnprocessableEntity (byte_size_from_str s)
  | Some _ => Err UnprocessableEntity
  end.

Definition parse_io_duration (directive : option (list Value)) (dflt : Z) : outcome Z :=
  match directive with
  | None => Ok dflt
  | Some [VInt i] => if decide (0 ≤ i) then Ok (i * 1000000) else Err UnprocessableEntity
  | Some [VDuration i] => if decide (0 ≤ i) then Ok i else Err UnprocessableEntity
  | Some _ => Err UnprocessableEntity
  end.

Definition parse_count (directive : option (list Value)) (dflt : Z) : outcome Z :=
  match directive with
  | None => Ok dflt
  | Some [VInt i] => if decide (0 ≤ i) then Ok i else Err UnprocessableEntity
  | Some _ => Err UnprocessableEntity
  end.

Local Open Scope string_scope.

Definition merge_io_config_from_directives (dirs : Directives) (df : IoConfig) : outcome IoConfig :=
  size ← parse_size (dirs !! "#batch_size") (batch_max_size df);
  records ← parse_count (dirs !! "#batch_records") (batch_max_records df);
  metadata ← parse_size (dirs !! "#batch_metadata_size") (batch_max_metadata_size df);
  timeout ← parse_io_duration (dirs !! "#batch_timeout") (batch_timeout df);
  record_timeout ← parse_io_duration (dirs !! "#record_timeout") (batch_records_timeout df);
  io_timeout ← parse_io_duration (dirs !! "#io_timeout") (operation_timeout df);
  Ok (mkIoConfig size records metadata timeout record_timeout io_timeout (max_writers_in_flight df)).

(** [WhenFilter::try_new]. *)
Definition when_try_new {R} (condition : Node) (directives : Directives) (io_config : IoConfig)
    (strict : bool) : outcome (WhenFilter R) :=
  before ← parse_padding (directives !! "#ctx_before");
  after ← ctx_after_try_new (directives !! "#ctx_after");
  labels ← label_selector_try_new (directives !! "#select_labels");
  io ← merge_io_config_from_directives directives io_config;
  Ok (mkWhen condition strict before after [] labels io).
End IoDirectives.

(** ** Filtering *)

Section Filters.
Context {R : Type} `{FilterRecord R} `{Chrono}.
Implicit Types r : R.

(** The [while] loop of [queue_record]: the records too old for the buffer. *)
Fixpoint drop_old (us last : Z) (buffer : list R) : outcome (list R) :=
  match buffer with
  | [] => if decide (us < u64_sub last 0) then Panic else Ok []
  | r :: buffer' =>
      if decide (us < u64_sub last (fr_timestamp r)) then drop_old us last buffer' else Ok buffer
  end.

(** [CtxBefore::queue_record]. *)
Definition queue_record (before : Padding) (buffer : list R) r : outcome (list R) :=
  let buffer := buffer ++ [r] in
  match before with
  | Records n => Ok (if decide (n + 1 < Z.of_nat (length buffer)) then tail buffer else buffer)
  | DurationUs us => drop_old us (fr_timestamp r) buffer
  end.

(** [CtxAfter::check]. *)
Definition ctx_after_check (c : CtxAfter) (condition : bool) (time : Z) : bool * CtxAfter :=
  match after c with
  | Records n =>
      let count := i64_sub (ca_count c) 1 in
      let count := if condition then i64_wrap n else count in
      (bool_decide (0 ≤ count), mkCtxAfter (after c) count (last_ts c))
  | DurationUs us =>
      let last := if condition then Some time else last_ts c in
      (match last with Some l => bool_decide (time ≤ u64_add l us) | None => false end,
       mkCtxAfter (after c) (ca_count c) last)
  end.

(** [LabelSelector::select_labels]. *)
Definition select_labels (labels : gset string) r : R :=
  if decide (labels = ∅) then r
  else fr_set_labels (filter (λ kv, kv.1 ∈ labels) (fr_labels r)) r.

Definition record_context r : Context :=
  mkContext (fr_timestamp r) (fr_labels r) (fr_computed_labels r).

(** What the [when] filter makes of the condition's answer: interrupt, fail, or
    a truth value; an error counts as false unless the query is strict. *)
Inductive verdict := VInterrupt | VFail (e : ErrorCode) | VPanic | VTruth (b : bool).
Definition judge (strict : bool) (o : outcome Value) : verdict :=
  match o with
  | Ok v => match as_bool v with Ok b => VTruth b | Err e => VFail e | Panic => VPanic end
  | Err e =>
      if decide (e = Interrupt) then VInterrupt else if strict then VFail e else VTruth false
  | Panic => VPanic
  end.

(** [WhenFilter::filter]. *)
Definition when_filter (w : WhenFilter R) r : outcome (option (list R)) * WhenFilter R :=
  match queue_record (wf_before w) (wf_buffer w) r with
  | Ok buffer =>
      match last buffer with
      | None => (Panic, w)
      | Some r =>
          let '(o, condition) := apply (record_context r) (wf_condition w) in
          let w' := mkWhen condition (wf_strict w) (wf_before w) (wf_after w) buffer
                      (wf_labels w) (wf_io w) in
          match judge (wf_strict w) o with
          | VInterrupt => (Ok None, w')
          | VFail e => (Err e, w')
          | VPanic => (Panic, w')
          | VTruth result =>
              let '(pass, ca) := ctx_after_check (wf_after w) result (fr_timestamp r) in
              if pass then
                (Ok (Some (select_labels (wf_labels w) <$> buffer)),
                 mkWhen condition (wf_strict w) (wf_before w) ca [] (wf_labels w) (wf_io w))
              else
                (Ok (Some []),
                 mkWhen condition (wf_strict w) (wf_before w) ca buffer (wf_labels w) (wf_io w))
          end
      end
  | Err e => (Err e, w)
  | Panic => (Panic, w)
  end.

(** [RecordFilter::filter] of the three filters. *)
Definition filter_record (f : Filter R) r : outcome (option (list R)) * Filter R :=
  match f with
  | TimeRangeFilter start stop =>
      let ts := fr_timestamp r in
      if decide (start ≤ ts ∧ ts < stop) then
        (Ok (Some [r]), TimeRangeFilter (u64_add ts 1) stop)
      else (Ok (Some []), f)
  | RecordStateFilter state =>
      (Ok (Some (if decide (fr_state r = state_i32 state) then [r] else [])), f)
  | When w => let '(o, w') := when_filter w r in (o, When w')
  end.

(** [apply_filters_recursively]: the first record for which a filter passes
    something on goes to the next filter, and the call ends there. *)
Fixpoint apply_filters (fs : list (Filter R)) (rs : list R)
    : outcome (option (list R)) * list (Filter R) :=
  match fs with
  | [] => (Ok (Some rs), [])
  | f :: fs' =>
      (fix go (f : Filter R) (rs : list R) : outcome (option (list R)) * list (Filter R) :=
         match rs with
         | [] => (Ok (Some []), f :: fs')
         | r :: rs' =>
             match filter_record f r with
             | (Ok (Some []), f') => go f' rs'
             | (Ok (Some l), f') =>
                 let '(o, fs'') := apply_filters fs' l in (o, f' :: fs'')
             | (Ok None, f') => (Ok None, f' :: fs')
             | (Err e, f') => (Err e, f' :: fs')
             | (Panic, f') => (Panic, f' :: fs')
             end
         end) f rs
  end.
End Filters.
