(* ===== verification/FilterWindow.v ===== *)
(** * FilterWindow: what [#ctx_before] and [#ctx_after] select

    The [when] filter works record by record with a buffer and a countdown; the
    specification looks at the whole stream: a record is passed on when a match
    lies at most [n] records behind it or at most [m] records in front of it. *)

From stdpp Require Import prelude gmap strings sorting.
From Stdlib Require Import ZArith Lia SpecFloat.
From S2P Require Import Prelude Collections Proto Text Float64 Value Condition Parser Filters.
Open Scope Z_scope.

(** The records of a stream selected by flags. *)
Fixpoint mask {A} (flags : list bool) (l : list A) : list A :=
  match flags, l with
  | b :: flags', x :: l' => if b then x :: mask flags' l' else mask flags' l'
  | _, _ => []
  end.

(** The flag of each record: it matches, [left] records are still wanted after
    an earlier match, or one of the next [n] records matches. *)
Fixpoint window_flags (n m left : nat) (ms : list bool) : list bool :=
  match ms with
  | [] => []
  | b :: ms' =>
      (b || bool_decide (0 < left)%nat || existsb id (take n ms'))
        :: window_flags n m (if b then m else pred left) ms'
  end.

Lemma existsb_take n ms :
  existsb id (take n ms) = true ↔ ∃ j, ms !! j = Some true ∧ (j < n)%nat.
Proof.
  rewrite existsb_exists. setoid_rewrite <- list_elem_of_In. split.
  - intros (x & (i & Hi & Hn)%elem_of_take & Hx). destruct x; [|done]. eauto.
  - intros (j & Hj & Hn). exists true. split; [|done]. apply elem_of_take. eauto.
Qed.

(** The flags by position: a match at most [m] before or at most [n] after. *)
Lemma window_flags_spec n m left ms i :
  window_flags n m left ms !! i = Some true ↔
  (i < length ms)%nat ∧
  ((∃ j, ms !! j = Some true ∧ (i ≤ j + m)%nat ∧ (j ≤ i + n)%nat) ∨
   ((i < left)%nat ∧ ∀ j, (j ≤ i)%nat → ms !! j ≠ Some true)).
Proof.
  revert left i. induction ms as [|b ms IH]; intros left i; simpl.
  { split; [done|]. lia. }
  destruct i as [|i]; simpl.
  - split.
    + intros [= Hb]. split; [lia|]. destruct b; simpl in Hb.
      * left. exists 0%nat. split_and!; [done|lia..].
      * destruct (existsb id (take n ms)) eqn:E.
        -- left. apply existsb_take in E as (j & Hj & Hn). exists (S j). split_and!; [done|lia..].
        -- rewrite orb_false_r in Hb. apply bool_decide_eq_true in Hb. right. split; [done|].
           intros [|j]; [done|lia].
    + intros [_ [(j & Hj & Hm & Hn)|[Hl Hno]]]; f_equal.
      * destruct j as [|j]; simpl in Hj; [by simplify_eq|].
        assert (existsb id (take n ms) = true) as ->; [|by rewrite orb_true_r].
        apply existsb_take. exists j. split; [done|lia].
      * rewrite (bool_decide_eq_true_2 (0 < left)%nat) by lia. by destruct b.
  - rewrite IH. rewrite <- Nat.succ_lt_mono.
    apply and_iff_compat_l. split.
    + intros [(j & Hj & Hm & Hn)|[Hl Hno]].
      * left. exists (S j). split_and!; [done|lia..].
      * destruct b.
        -- left. exists 0%nat. split_and!; [done|lia..].
        -- right. split; [lia|]. intros [|j] Hj; [done|]. simpl. apply Hno. lia.
    + intros [(j & Hj & Hm & Hn)|[Hl Hno]].
      * destruct j as [|j]; simpl in Hj; [|left; exists j; split_and!; [done|lia..]].
        injection Hj as ->. destruct (existsb id (take (S i) ms)) eqn:E.
        -- apply existsb_take in E as (j & Hj & Hji). left.
           destruct (decide (j ≤ i + n)%nat); [|lia]. exists j. split_and!; [done|lia..].
        -- right. split; [lia|]. intros j Hj Ht.
           assert (existsb id (take (S i) ms) = true); [|congruence].
           apply existsb_take. exists j. split; [done|lia].
      * right. pose proof (Hno 0%nat ltac:(lia)) as H0. destruct b; [done|]. split; [lia|].
        intros j Hj. apply (Hno (S j)). lia.
Qed.

Section Window.
Context {R : Type} `{FilterRecord R} `{Chrono}.
Implicit Types (w : WhenFilter R) (rs B : list R).

(** The filter applied to a stream of records; an interrupt ends the stream. *)
Fixpoint when_run w rs : outcome (list R) :=
  match rs with
  | [] => Ok []
  | r :: rs' =>
      match when_filter w r with
      | (Ok (Some l), w') => rest ← when_run w' rs'; Ok (l ++ rest)
      | (Ok None, _) => Ok []
      | (Err e, _) => Err e
      | (Panic, _) => Panic
      end
  end.

(** The condition's answers on the stream. *)
Fixpoint verdicts (strict : bool) (cond : Node) rs : list verdict :=
  match rs with
  | [] => []
  | r :: rs' =>
      let '(o, cond') := apply (record_context r) cond in
      judge strict o :: verdicts strict cond' rs'
  end.

(** A filter in the middle of a stream: [c] is the countdown behind a match, [B]
    the records kept back. *)
Definition counting (n m : nat) (c : Z) B (cond : Node) strict labels io : WhenFilter R :=
  mkWhen cond strict (Records (Z.of_nat n)) (mkCtxAfter (Records (Z.of_nat m)) c None) B labels io.

Lemma existsb_take_false n k ms :
  existsb id (take n (replicate k false ++ true :: ms)) = bool_decide (k < n)%nat.
Proof.
  apply eq_true_iff_eq. rewrite existsb_take, bool_decide_eq_true. split.
  - intros (j & Hj & Hn). apply lookup_app_Some in Hj as [Hj|[Hk Hj]].
    + by apply lookup_replicate in Hj as [? _].
    + rewrite length_replicate in Hk. lia.
  - intros Hk. exists k. split; [|done].
    rewrite lookup_app_r by (by rewrite length_replicate). by rewrite length_replicate, Nat.sub_diag.
Qed.

(** A match lets the last [n] records of the buffer through, and itself. *)
Lemma mask_match n m B r rs ms :
  mask (window_flags n m 0 (replicate (length B) false ++ true :: ms)) (B ++ r :: rs) =
  drop (length B - n) B ++ r :: mask (window_flags n m m ms) rs.
Proof.
  induction B as [|x B IH]; [done|]. cbn [length replicate app window_flags mask Nat.pred].
  rewrite existsb_take_false, IH, (bool_decide_eq_false_2 (0 < 0)%nat) by lia. cbn [orb].
  case_bool_decide.
  - replace (length B - n)%nat with 0%nat by lia. by replace (S (length B) - n)%nat with 0%nat by lia.
  - by replace (S (length B) - n)%nat with (S (length B - n)) by lia.
Qed.

(** A full buffer loses its oldest record: no match can reach it any more. *)
Lemma mask_pop n m x B r rs ms :
  length B = n →
  mask (window_flags n m 0 (replicate (S n) false ++ false :: ms)) ((x :: B) ++ r :: rs) =
  mask (window_flags n m 0 (replicate (S n) false ++ ms)) ((B ++ [r]) ++ rs).
Proof.
  intros Hlen. rewrite <- (app_assoc B).
  assert (replicate (S n) false ++ ms = replicate n false ++ false :: ms) as ->
    by (by rewrite replicate_S_end, <- app_assoc).
  cbn [replicate app window_flags mask].
  assert (existsb id (take n (replicate n false ++ false :: ms)) = false) as ->.
  { rewrite take_app_le by (by rewrite length_replicate). apply not_true_is_false.
    intros (j & Hj & _)%existsb_take. by apply lookup_replicate in Hj as [? _]. }
  by rewrite (bool_decide_eq_false_2 (0 < 0)%nat) by lia.
Qed.

Lemma queue_eq (n : nat) B r :
  (length B ≤ S n)%nat →
  queue_record (Records (Z.of_nat n)) B r = Ok (drop (length B - n) B ++ [r]) ∧
  last (drop (length B - n) B ++ [r]) = Some r.
Proof.
  intros Hlen. split; [|by rewrite last_snoc]. unfold queue_record. rewrite length_app. simpl.
  f_equal. destruct (decide (length B = S n)) as [E|E].
  - rewrite decide_True by lia. destruct B as [|x B]; [done|]. simpl in *.
    by replace (S (length B) - n)%nat with 1%nat by lia.
  - rewrite decide_False by lia. by replace (length B - n)%nat with 0%nat by lia.
Qed.

(** Keeping a record back leaves the selection as it is. *)
Lemma mask_keep n m B r rs ms :
  (length B ≤ S n)%nat →
  mask (window_flags n m 0 (replicate (length B) false ++ false :: ms)) (B ++ r :: rs) =
  let B' := drop (length B - n) B ++ [r] in
  mask (window_flags n m 0 (replicate (length B') false ++ ms)) (B' ++ rs).
Proof.
  intros Hlen. destruct (decide (length B = S n)) as [E|E].
  - cbn zeta. destruct B as [|x B]; [done|]. rewrite E.
    replace (S n - n)%nat with 1%nat by lia. cbn [drop]. rewrite drop_0, length_app.
    simpl in E. replace (length B + length [r])%nat with (S n) by (simpl; lia).
    apply mask_pop. lia.
  - replace (length B - n)%nat with 0%nat by lia. cbn zeta. rewrite drop_0, length_app.
    rewrite Nat.add_1_r, replicate_S_end, <- !app_assoc. done.
Qed.

(** Records kept back at the end of the stream are not passed on. *)
Lemma mask_rest n m B : mask (window_flags n m 0 (replicate (length B) false)) B = [].
Proof.
  induction B as [|x B IH]; [done|]. cbn [length replicate window_flags mask Nat.pred]. rewrite IH.
  assert (existsb id (take n (replicate (length B) false)) = false) as ->; [|done].
  apply not_true_is_false. intros (j & Hj & _)%existsb_take. by apply lookup_replicate in Hj as [? _].
Qed.

(** One record: what the filter passes on and how it goes on. *)
Lemma when_filter_counting n m c B cond strict labels io r o cond' b :
  Z.of_nat m < 2 ^ 63 → - 2 ^ 63 < c < 2 ^ 63 → (length B ≤ S n)%nat →
  apply (record_context r) cond = (o, cond') → judge strict o = VTruth b →
  when_filter (counting n m c B cond strict labels io) r =
  let c' := if b then Z.of_nat m else c - 1 in
  let B' := drop (length B - n) B ++ [r] in
  if decide (0 ≤ c') then
    (Ok (Some (select_labels labels <$> B')), counting n m c' [] cond' strict labels io)
  else (Ok (Some []), counting n m c' B' cond' strict labels io).
Proof.
  intros Hm Hc Hlen Eo Hj. destruct (queue_eq n B r Hlen) as [Hq Hl].
  unfold when_filter. cbn [wf_before wf_buffer counting wf_condition wf_strict wf_after wf_labels wf_io].
  rewrite Hq, Hl, Eo, Hj. unfold ctx_after_check. cbn [after ca_count last_ts].
  unfold i64_sub. rewrite !i64_wrap_small by (unfold is_i64; lia). cbn zeta.
  destruct b; case_decide; by rewrite ?bool_decide_eq_true_2, ?bool_decide_eq_false_2 by done.
Qed.

(** The filter in the middle of a stream passes on what the flags select from
    the records kept back and the records to come. *)
Lemma when_run_window n m c B cond strict labels io rs ms :
  Z.of_nat m < 2 ^ 63 → Z.of_nat (length rs) < 2 ^ 63 →
  c < 2 ^ 63 → - 2 ^ 63 ≤ c - Z.of_nat (length rs) →
  (B = [] ∨ c ≤ 0) → (length B ≤ S n)%nat → verdicts strict cond rs = VTruth <$> ms →
  when_run (counting n m c B cond strict labels io) rs =
  Ok (select_labels labels <$>
      mask (window_flags n m (Z.to_nat c) (replicate (length B) false ++ ms)) (B ++ rs)).
Proof.
  intros Hm. revert c B cond ms. induction rs as [|r rs IH]; intros c B cond ms Hrs Hc Hlow HB Hlen Hv.
  { simpl in Hv. destruct ms; [|done]. simpl. f_equal. rewrite !app_nil_r.
    destruct HB as [->|Hneg]; [done|]. replace (Z.to_nat c) with 0%nat by lia. by rewrite mask_rest. }
  simpl in Hv. destruct (apply (record_context r) cond) as [o cond'] eqn:Eo.
  destruct ms as [|b ms]; simpl in Hv; [done|]. injection Hv as Hj Hv. simpl length in *.
  cbn [when_run]. rewrite (when_filter_counting n m c B cond strict labels io r o cond' b Hm ltac:(lia) Hlen Eo Hj).
  cbn zeta. destruct b.
  - rewrite decide_True by lia. rewrite (IH _ _ _ ms) by (first [done|by left|simpl; lia]). simpl.
    rewrite Nat2Z.id, <- fmap_app, <- app_assoc. simpl. do 2 f_equal. destruct HB as [->|Hneg]; [done|].
    replace (Z.to_nat c) with 0%nat by lia. by rewrite mask_match.
  - case_decide as Hd.
    + destruct HB as [->|]; [|lia]. rewrite (IH _ _ _ ms) by (first [done|by left|simpl; lia]). simpl.
      rewrite (bool_decide_eq_true_2 (0 < Z.to_nat c)%nat) by lia. simpl.
      by replace (pred (Z.to_nat c)) with (Z.to_nat (c - 1)) by lia.
    + assert (c ≤ 0) as Hneg by lia. replace (Z.to_nat c) with 0%nat by lia.
      rewrite (IH _ _ _ ms); [|lia|lia|lia|by right; lia|rewrite length_app, length_drop; simpl; lia|done].
      replace (Z.to_nat (c - 1)) with 0%nat by lia. simpl. by rewrite mask_keep.
Qed.
End Window.

(** C32: [#ctx_before: n] and [#ctx_after: m] select exactly the records around
    the matches.  Whatever the condition, as long as it neither interrupts nor
    fails, the filter passes on, in order and each once, the records that have a
    match at most [n] records later or at most [m] records earlier, with the
    selected labels. *)
Theorem when_filter_selects_windows {R} `{FilterRecord R} `{Chrono}
    (n m : nat) cond strict (labels : gset string) io (rs : list R) (ms : list bool) :
  Z.of_nat m < 2 ^ 63 → Z.of_nat (length rs) < 2 ^ 63 →
  verdicts strict cond rs = VTruth <$> ms →
  ∃ flags,
    when_run (counting n m 0 [] cond strict labels io) rs = Ok (select_labels labels <$> mask flags rs) ∧
    length flags = length ms ∧
    ∀ i, flags !! i = Some true ↔
      (i < length ms)%nat ∧ ∃ j, ms !! j = Some true ∧ (i ≤ j + m)%nat ∧ (j ≤ i + n)%nat.
Proof.
  intros Hm Hrs Hv. exists (window_flags n m 0 ms). split_and!.
  - rewrite (when_run_window _ _ _ _ _ _ _ _ _ ms); [done|done|done|lia|lia|by left|simpl; lia|done].
  - clear. generalize 0%nat. induction ms as [|b ms IH]; intros l; simpl; [done|]. by rewrite IH.
  - intros i. rewrite window_flags_spec. intuition lia.
Qed.

Section Witnesses.
(** Numbers as records: the multiples of three carry the label [hit]. *)
Local Instance demo_records : FilterRecord Z := {|
  fr_state _ := 1; fr_timestamp t := t;
  fr_labels t := if decide (t mod 3 = 0) then {["hit"%string := "true"%string]} else ∅;
  fr_set_labels _ t := t; fr_computed_labels _ := ∅
|}.
Local Instance demo_calendar : Chrono := {|
  DateTime := (); Tz := (); tz_utc := (); tz_from_str s := None;
  from_timestamp_micros us := None; date_field _ _ _ := 0
|}.
Definition demo_io : IoConfig := mkIoConfig 0 0 0 0 0 0 None.
Definition demo_stream : list Z := [1; 2; 3; 4; 5; 6; 7; 8].
Definition demo_hits : list bool := [false; false; true; false; false; true; false; false].

Lemma when_filter_selects_windows_witness :
  ∃ flags : list bool,
    when_run (counting 0 1 0 [] (Reference "hit") false ∅ demo_io) demo_stream =
      Ok (select_labels ∅ <$> mask flags demo_stream) ∧ mask flags demo_stream = [3; 4; 6; 7].
Proof.
  destruct (when_filter_selects_windows 0 1 (Reference "hit") false ∅ demo_io demo_stream demo_hits)
    as (flags & Hrun & Hlen & Hflags); [lia|simpl; lia|by vm_compute|].
  exists flags. split; [exact Hrun|].
  assert (E : when_run (counting 0 1 0 [] (Reference "hit") false ∅ demo_io) demo_stream =
              Ok [3; 4; 6; 7]) by (by vm_compute).
  rewrite E in Hrun. injection Hrun as Hrun. rewrite Hrun.
  etrans; [symmetry; apply list_fmap_id|]. apply list_fmap_ext. intros i r _.
  unfold select_labels. by rewrite decide_True.
Defined.
End Witnesses.
