(* ===== verification/Query.v ===== *)
(** * Query: historical and continuous queries
    (storage/query.rs, query/base.rs, query/historical.rs, query/continuous.rs)

    A query walks over the blocks of an entry, loads one block at a time, filters
    its records and hands them out one by one.  The state of a call is the block
    manager and the query. *)

From stdpp Require Import prelude gmap strings sorting fin_map_dom.
From Stdlib Require Import ZArith Lia.
From S2P Require Import Prelude Bytes Collections Proto Block BlockIndex Wal Cache BlockManager Entry.
From S2P Require Import Text Float64 Value Condition Parser Filters.
Open Scope Z_scope.

(** [QueryOptions]. *)
Record QueryOptions := mkQueryOptions {
  q_ttl : Z;
  continuous : bool;
  only_metadata : bool;
  when : option Json;
  strict : bool;
  ext : option Json
}.

(** [HistoricalQuery]; the entry's name is left out. *)
Record HistoricalQuery := mkHQ {
  start_time : Z;
  stop_time : Z;
  records_from_current_block : list Rec;
  current_block : option Z;
  filters : list (Filter Rec);
  hq_only_metadata : bool;
  is_interrupted : bool;
  io_config : IoConfig
}.

Definition set_records l q := mkHQ (start_time q) (stop_time q) l (current_block q) (filters q)
  (hq_only_metadata q) (is_interrupted q) (io_config q).
Definition set_current r q := mkHQ (start_time q) (stop_time q) (records_from_current_block q) (Some r)
  (filters q) (hq_only_metadata q) (is_interrupted q) (io_config q).
Definition set_filters fs q := mkHQ (start_time q) (stop_time q) (records_from_current_block q)
  (current_block q) fs (hq_only_metadata q) (is_interrupted q) (io_config q).
Definition set_interrupted b q := mkHQ (start_time q) (stop_time q) (records_from_current_block q)
  (current_block q) (filters q) (hq_only_metadata q) b (io_config q).

Section Query.
Context `{HashIter} `{Prost} `{Crc64} `{Zstd} `{Clock} `{Chrono} `{JsonText} `{ByteSize} (cfg : Cfg).

(** [HistoricalQuery::try_new]. *)
Definition historical_try_new (start stop : Z) (options : QueryOptions) (io_defaults : IoConfig)
    : outcome HistoricalQuery :=
  let fs := [TimeRangeFilter start stop; RecordStateFilter Finished] in
  let om := match ext options with None => only_metadata options | Some _ => false end in
  match when options with
  | None => Ok (mkHQ start stop [] None fs om false io_defaults)
  | Some json =>
      '(condition, directives) ← parse json;
      let om := if decide (is_Some (directives !! "#ext"%string)) then false else om in
      w ← when_try_new condition directives io_defaults (strict options);
      Ok (mkHQ start stop [] None (fs ++ [When w]) om false (wf_io w))
  end.

(** The state of [next]: the block manager behind its lock and the query. *)
Abbreviation QS := (BM * HistoricalQuery)%type.

Definition on_bm {A} (m : ST BM A) : ST QS A := λ s,
  let '(o, bm) := m s.1 in (o, (bm, s.2)).
Definition get_query : ST QS HistoricalQuery := λ s, (Ok s.2, s).
Definition modify_query (f : HistoricalQuery → HistoricalQuery) : ST QS () := λ s,
  (Ok tt, (s.1, f s.2)).

(** The time a record of a query stands for: [ts_to_us(rec.timestamp.unwrap())]. *)
Definition rec_us (rec : Rec) : Z := from_option ts_to_us 0 (r_timestamp rec).

Definition rec_le (a b : Rec) : Prop := rec_us a ≤ rec_us b.
#[local] Instance rec_le_dec : RelDecision rec_le.
Proof. intros a b. unfold rec_le. apply _. Defined.

(** [sort_by_key]: it looks at the keys when there are two records or more. *)
Definition sort_records (l : list Rec) : outcome (list Rec) :=
  if decide ((1 < length l)%nat ∧ existsb (λ rec, bool_decide (r_timestamp rec = None)) l = true)
  then Panic
  else Ok (merge_sort rec_le l).

(** The loop of [filter_records_from_current_block]: the records passed on, and
    whether a filter interrupted the query. *)
Fixpoint filter_records (recs : list Rec) (fs : list (Filter Rec)) (acc : list Rec)
    : outcome (list Rec * bool) * list (Filter Rec) :=
  match recs with
  | [] => (Ok (acc, false), fs)
  | rec :: recs' =>
      match apply_filters fs [rec] with
      | (Ok (Some l), fs') => filter_records recs' fs' (acc ++ l)
      | (Ok None, fs') => (Ok (acc, true), fs')
      | (Err e, fs') => (Err e, fs')
      | (Panic, fs') => (Panic, fs')
      end
  end.

Definition run_filters (b : Block) : ST QS (list Rec) := λ s,
  let '(o, fs) := filter_records (bt_values (record_index b)) (filters s.2) [] in
  let q' := set_filters fs s.2 in
  match o with
  | Ok (l, interrupted) => (Ok l, (s.1, if interrupted then set_interrupted true q' else q'))
  | Err e => (Err e, (s.1, q'))
  | Panic => (Panic, (s.1, q'))
  end.

Definition filter_records_from_current_block : ST QS (list Rec) :=
  q ← get_query;
  r ← st_lift (unwrap (current_block q));
  b ← on_bm (deref r);
  run_filters b.

(** The loop over the blocks of the range: blocks that are not there (yet) are
    skipped, the first block with records ends the loop. *)
Fixpoint scan_blocks (ids : list Z) : ST QS () :=
  match ids with
  | [] => mret tt
  | id :: ids' => λ s,
      match load_block cfg id s.1 with
      | (Ok r, bm) =>
          (_ ← modify_query (set_current r);
           found ← filter_records_from_current_block;
           sorted ← st_lift (sort_records found);
           _ ← modify_query (λ q, set_records (records_from_current_block q ++ sorted) q);
           q ← get_query;
           if decide (records_from_current_block q = []) then scan_blocks ids' else mret tt)
            (bm, s.2)
      | (Err TooEarly, bm) | (Err NotFound, bm) => scan_blocks ids' (bm, s.2)
      | (Err e, bm) => (Err e, (bm, s.2))
      | (Panic, bm) => (Panic, (bm, s.2))
      end
  end.

(** The block a search starts with: the one that holds [start], or the first. *)
Definition first_block_of (start : Z) : ST QS Z := λ s,
  match find_block cfg start s.1 with
  | (Ok r, bm) => (b ← on_bm (deref r); mret (block_id b)) (bm, s.2)
  | (Err _, bm) => (Ok 0, (bm, s.2))
  | (Panic, bm) => (Panic, (bm, s.2))
  end.

Definition refill : ST QS () :=
  q ← get_query;
  start ← (match current_block q with
           | Some r => b ← on_bm (deref r); mret (latest_record_time b)
           | None => mret (start_time q)
           end);
  first_block ← first_block_of start;
  range ← (λ s : QS, (Ok (if decide (stop_time q < first_block) then []
                          else bt_range first_block (stop_time q) (active_tree (block_index s.1))), s));
  scan_blocks range.

(** [HistoricalQuery::next]: a record and the reader of its content. *)
Definition historical_next : ST QS (Rec * RecordReader) :=
  q ← get_query;
  _ ← (if decide (records_from_current_block q = [] ∧ is_interrupted q = false)
       then refill else mret tt);
  q ← get_query;
  match records_from_current_block q with
  | [] => st_throw NoContent
  | rec :: rest =>
      _ ← modify_query (set_records rest);
      r ← st_lift (unwrap (current_block q));
      if hq_only_metadata q then mret (rec, mkReader None 0 0 0)
      else
        ts ← st_lift (unwrap (r_timestamp rec));
        reader ← on_bm (reader_try_new cfg r (ts_to_us ts));
        mret (rec, reader)
  end.

(** ** Continuous queries *)

Record ContinuousQuery := mkCQ {
  cq_query : HistoricalQuery;
  next_start : Z;
  cq_count : Z;
  cq_options : QueryOptions;
  cq_io : IoConfig
}.

Definition continuous_try_new (start : Z) (options : QueryOptions) (io_defaults : IoConfig)
    : outcome ContinuousQuery :=
  if negb (continuous options) then Panic
  else
    q ← historical_try_new start u64_max options io_defaults;
    Ok (mkCQ q start 0 options io_defaults).

(** [ContinuousQuery::next]: at the end of the records the historical query
    starts over behind the last record that was returned. *)
Definition continuous_next (c : ContinuousQuery)
    : BM → outcome (Rec * RecordReader) * (BM * ContinuousQuery) := λ bm,
  match historical_next (bm, cq_query c) with
  | (Ok (rec, reader), (bm', q')) =>
      (Ok (rec, reader),
       (bm', mkCQ q' (u64_add (fr_timestamp rec) 1) (cq_count c + 1) (cq_options c) (cq_io c)))
  | (Err e, (bm', q')) =>
      if decide (e = NoContent) then
        match historical_try_new (next_start c) u64_max (cq_options c) (cq_io c) with
        | Ok q'' => (Err NoContent, (bm', mkCQ q'' (next_start c) (cq_count c) (cq_options c) (cq_io c)))
        | Err e' => (Err e', (bm', mkCQ q' (next_start c) (cq_count c) (cq_options c) (cq_io c)))
        | Panic => (Panic, (bm', mkCQ q' (next_start c) (cq_count c) (cq_options c) (cq_io c)))
        end
      else (Err e, (bm', mkCQ q' (next_start c) (cq_count c) (cq_options c) (cq_io c)))
  | (Panic, (bm', q')) => (Panic, (bm', mkCQ q' (next_start c) (cq_count c) (cq_options c) (cq_io c)))
  end.

(** [build_query]. *)
Definition build_query (start stop : Z) (options : QueryOptions) (io_defaults : IoConfig)
    : outcome (HistoricalQuery + ContinuousQuery) :=
  if decide (stop < start ∧ continuous options = false) then Err UnprocessableEntity
  else if continuous options then inr <$> continuous_try_new start options io_defaults
  else inl <$> historical_try_new start stop options io_defaults.
End Query.
