(* ===== verification/QueryRefine.v ===== *)
(** * QueryRefine: a query returns exactly the records it asks for

    [matching] is the specification: the finished records of the time range, in
    the order of the blocks and of their timestamps.  Draining a historical
    query produces that list, record by record, from whichever caches and files
    the blocks come. *)

From stdpp Require Import prelude gmap strings sorting fin_map_dom.
From Stdlib Require Import ZArith Lia.
From S2P Require Import Prelude Bytes Collections Proto Block BlockIndex Wal Cache BlockManager.
From S2P Require Import BlockManagerRefine Entry EntryRefine.
From S2P Require Import Text Float64 Value Condition Parser Filters Query.
Open Scope Z_scope.

(** ** Lists in strict time order *)

Abbreviation ascending := (StronglySorted (λ a b : Rec, rec_us a < rec_us b)).

Lemma ascending_inv rec l : ascending (rec :: l) → ascending l ∧ ∀ x, x ∈ l → rec_us rec < rec_us x.
Proof. intros [Hs Hx]%StronglySorted_inv. split; [done|]. by rewrite Forall_forall in Hx. Qed.

Lemma sort_ascending l :
  ascending l → (∀ rec, rec ∈ l → r_timestamp rec ≠ None) → sort_records l = Ok l.
Proof.
  intros Hs Ht. unfold sort_records. rewrite decide_False.
  - f_equal. apply (sorted_perm_eq rec_us); [apply merge_sort_Permutation| |done].
    apply StronglySorted_merge_sort.
    + intros x y z. unfold rec_le. lia.
    + intros x y. unfold rec_le. lia.
  - intros [_ (rec & Hin & Hn)%existsb_exists].
    apply bool_decide_eq_true in Hn. by apply (Ht rec); [apply list_elem_of_In|].
Qed.

(** ** One block through the filters *)

Definition wanted (lo stop : Z) (rec : Rec) : Prop :=
  lo ≤ rec_us rec < stop ∧ r_state rec = state_i32 Finished.
#[global] Instance wanted_dec lo stop rec : Decision (wanted lo stop rec).
Proof. unfold wanted. apply _. Defined.

(** The time range filter after a list of records. *)
Definition next_lo (stop : Z) : Z → list Rec → Z :=
  foldl (λ lo rec, if decide (lo ≤ rec_us rec ∧ rec_us rec < stop) then rec_us rec + 1 else lo).

Lemma next_lo_mono stop lo recs : lo ≤ next_lo stop lo recs.
Proof.
  revert lo. induction recs as [|rec recs IH]; intros lo; simpl; [lia|].
  case_decide; etrans; [|apply IH| |apply IH]; lia.
Qed.

Lemma next_lo_past stop lo recs rec :
  rec ∈ recs → rec_us rec < stop → rec_us rec < next_lo stop lo recs.
Proof.
  revert lo. induction recs as [|x recs IH]; intros lo Hin Hlt; [by apply elem_of_nil in Hin|].
  simpl. apply elem_of_cons in Hin as [->|Hin]; [|by apply IH].
  case_decide; eapply Z.lt_le_trans; [|apply next_lo_mono| |apply next_lo_mono]; lia.
Qed.

Lemma next_lo_below stop lo recs m :
  lo ≤ m → (∀ rec, rec ∈ recs → rec_us rec < m) → next_lo stop lo recs ≤ m.
Proof.
  revert lo. induction recs as [|x recs IH]; intros lo Hlo Hm; simpl; [done|].
  apply IH; [|intros rec Hr; apply Hm; by right].
  assert (rec_us x < m) by (apply Hm; left). case_decide; lia.
Qed.

Section Filtering.
Context `{HashIter} `{Chrono}.

Abbreviation basic lo stop := ([TimeRangeFilter lo stop; RecordStateFilter Finished] : list (Filter Rec)).

Lemma apply_basic lo stop rec :
  is_u64 lo → is_u64 stop →
  apply_filters (basic lo stop) [rec] =
  (Ok (Some (if decide (wanted lo stop rec) then [rec] else [])), basic (next_lo stop lo [rec]) stop).
Proof.
  intros Hlo Hstop. assert (fr_timestamp rec = rec_us rec) as Hts.
  { simpl. unfold rec_us. by destruct (r_timestamp rec). }
  cbn [apply_filters filter_record]. rewrite Hts. cbn [next_lo foldl].
  destruct (decide (lo ≤ rec_us rec ∧ rec_us rec < stop)) as [Hin|Hout].
  - rewrite u64_add_small by (unfold is_u64 in *; lia). cbn [apply_filters filter_record fr_state record_filter].
    destruct (decide (r_state rec = state_i32 Finished)) as [Hf|Hf].
    + by rewrite decide_True by (by split).
    + by rewrite decide_False by (by intros [_ ?]).
  - rewrite decide_False; [done|]. intros [? _]. lia.
Qed.

Lemma filter_block lo stop recs acc :
  is_u64 lo → is_u64 stop → ascending recs →
  filter_records recs (basic lo stop) acc =
  (Ok (acc ++ filter (wanted lo stop) recs, false), basic (next_lo stop lo recs) stop).
Proof.
  intros Hlo Hstop. revert lo Hlo acc. induction recs as [|rec recs IH]; intros lo Hlo acc Hs.
  { simpl. by rewrite app_nil_r. }
  apply ascending_inv in Hs as [Hs Hlt]. cbn [filter_records]. rewrite apply_basic by done.
  set (lo1 := next_lo stop lo [rec]).
  assert (Hlo1 : is_u64 lo1 ∧ ∀ x, x ∈ recs → wanted lo1 stop x ↔ wanted lo stop x).
  { subst lo1. unfold wanted, is_u64 in *. simpl. split; [case_decide; lia|].
    intros x Hx. specialize (Hlt x Hx). case_decide; intuition lia. }
  destruct Hlo1 as [Hlo1 Hsame]. rewrite IH by done. rewrite filter_cons.
  rewrite (filter_ext_in _ _ _ Hsame), <- app_assoc. by case_decide.
Qed.
End Filtering.

(** ** The specification *)

Implicit Types (a : gmap Z Block).

Definition block_records a id : list Rec :=
  match a !! id with Some b => bt_values (record_index b) | None => [] end.

(** The finished records with [lo ≤ time < stop], block by block. *)
Definition matching a (lo stop : Z) : list Rec :=
  bt_elements (dom a) ≫= λ id, filter (wanted lo stop) (block_records a id).

(** The blocks follow each other: the records of a block lie between its id and
    the id of the next block. *)
Definition ordered_spans a : Prop :=
  ∀ id b t, a !! id = Some b → is_Some (get_record b t) →
    id ≤ t ∧ ∀ id', is_Some (a !! id') → id < id' → t < id'.

Lemma omap_keys_ascending (m : gmap Z Rec) l :
  StronglySorted Z.lt l → (∀ k rec, m !! k = Some rec → rec_us rec = k) →
  ascending (omap (λ k, m !! k) l).
Proof.
  intros Hl Hm. induction Hl as [|k l _ IH Hk]; csimpl; [constructor|].
  destruct (m !! k) as [rec|] eqn:E; [|done]. constructor; [done|].
  apply Forall_forall. intros x (k' & Hk' & Hx)%list_elem_of_omap.
  rewrite Forall_forall in Hk. specialize (Hk k' Hk'). rewrite (Hm _ _ E), (Hm _ _ Hx). done.
Qed.

Lemma rec_us_key id b t rec : block_ok id b → get_record b t = Some rec → rec_us rec = t ∧ r_timestamp rec ≠ None.
Proof.
  intros (Hwf & _) Hrec. pose proof (wf_keys _ Hwf t rec Hrec) as Hk.
  unfold rec_time, rec_us in *. destruct (r_timestamp rec) as [ts|]; [|done].
  simpl in *. by injection Hk as ->.
Qed.

Section Spec.
Variables (a : gmap Z Block) (stop : Z).
Hypothesis Hok : map_Forall block_ok a.
Hypothesis Hspans : ordered_spans a.

Lemma elem_of_block_records id rec :
  rec ∈ block_records a id ↔ ∃ b, a !! id = Some b ∧ get_record b (rec_us rec) = Some rec.
Proof.
  unfold block_records. destruct (a !! id) as [b|] eqn:E.
  - rewrite elem_of_bt_values. split.
    + intros (k & Hk). exists b. split; [done|].
      by destruct (rec_us_key id b k rec (Hok _ _ E) Hk) as [-> _].
    + intros (b' & [= <-] & Hb). eauto.
  - split; [by intros ?%elem_of_nil|]. by intros (? & ? & _).
Qed.

Lemma block_records_ascending id : ascending (block_records a id).
Proof.
  unfold block_records. destruct (a !! id) as [b|] eqn:E; [|constructor].
  apply omap_keys_ascending; [apply bt_elements_sorted|].
  intros k rec Hk. by destruct (rec_us_key id b k rec (Hok _ _ E) Hk).
Qed.

Lemma block_records_timestamp id rec : rec ∈ block_records a id → r_timestamp rec ≠ None.
Proof.
  intros (b & Hb & Hrec)%elem_of_block_records. by destruct (rec_us_key _ _ _ _ (Hok _ _ Hb) Hrec).
Qed.

(** The times of a block's records lie in its span. *)
Lemma block_records_span id rec :
  rec ∈ block_records a id →
  id ≤ rec_us rec ∧ ∀ id', is_Some (a !! id') → id < id' → rec_us rec < id'.
Proof. intros (b & Hb & Hrec)%elem_of_block_records. apply (Hspans id b); eauto. Qed.

Definition nothing (lo id : Z) : Prop := ∀ rec, rec ∈ block_records a id → ¬ wanted lo stop rec.

Lemma nothing_filter lo id : nothing lo id → filter (wanted lo stop) (block_records a id) = [].
Proof. apply filter_none. Qed.

Lemma matching_nil lo : (∀ id, is_Some (a !! id) → nothing lo id) → matching a lo stop = [].
Proof.
  intros Hn. apply bind_nil_in. intros id Hid. apply nothing_filter, Hn.
  by apply elem_of_dom, elem_of_bt_elements.
Qed.

Lemma nothing_mono lo lo' id : lo ≤ lo' → nothing lo id → nothing lo' id.
Proof. intros Hle Hn rec Hr [Hw Hs]. apply (Hn rec Hr). split; [lia|done]. Qed.

Lemma nothing_scanned lo id : nothing (next_lo stop lo (block_records a id)) id.
Proof. intros rec Hr [[Hlo Hlt] _]. pose proof (next_lo_past stop lo _ rec Hr Hlt). lia. Qed.

(** Scanning a block: its matching records come next, and what matches from the
    moved start on is the rest. *)
Lemma matching_scan lo id :
  is_Some (a !! id) → (∀ i, is_Some (a !! i) → i < id → nothing lo i) →
  matching a lo stop = filter (wanted lo stop) (block_records a id) ++
                       matching a (next_lo stop lo (block_records a id)) stop.
Proof.
  intros Hid Hbefore. set (lo' := next_lo stop lo (block_records a id)).
  assert (Hle : lo ≤ lo') by apply next_lo_mono.
  unfold matching. pose proof (bt_elements_sorted (dom a)) as Hsort.
  assert (id ∈ bt_elements (dom a)) as (l1 & l2 & E)%list_elem_of_split
    by (by apply elem_of_bt_elements, elem_of_dom).
  assert (Hdom : ∀ i, i ∈ l1 ++ id :: l2 → is_Some (a !! i))
    by (intros i Hi; apply elem_of_dom, elem_of_bt_elements; by rewrite E).
  rewrite E in *. rewrite !bind_app. cbn [mbind list_bind].
  assert (Hl1 : ∀ i, i ∈ l1 → i < id).
  { intros i Hi. apply (StronglySorted_app_1_elem_of Z.lt l1 (id :: l2)); [done|done|left]. }
  assert (Hl2 : ∀ i, i ∈ l2 → id < i).
  { apply StronglySorted_app_1_r in Hsort. apply StronglySorted_inv in Hsort as [_ Hf].
    by rewrite Forall_forall in Hf. }
  rewrite (bind_nil_in _ l1), (bind_nil_in _ l1).
  2,3: intros i Hi; apply nothing_filter; first apply (nothing_mono lo); try done;
       apply Hbefore; [apply Hdom; set_solver|by apply Hl1].
  rewrite (nothing_filter lo') by apply nothing_scanned. simpl. f_equal.
  apply bind_ext_in. intros i Hi. apply filter_ext_in. intros rec Hr.
  destruct (block_records_span i rec Hr) as [Hspan _].
  assert (lo' ≤ Z.max lo i).
  { apply next_lo_below; [lia|]. intros x Hx. destruct (block_records_span id x Hx) as [_ Hlt].
    specialize (Hlt i (Hdom i ltac:(set_solver)) (Hl2 i Hi)). lia. }
  unfold wanted. intuition lia.
Qed.
End Spec.

(** ** The query on a block manager *)

(** The same, to be decided on a concrete map. *)
Lemma ordered_spans_decided a :
  map_Forall (λ id b, map_Forall (λ t _, id ≤ t ∧ map_Forall (λ id' _, ¬ id < id' ∨ t < id') a)
                        (record_index b)) a →
  ordered_spans a.
Proof.
  intros Hall id b t Hb [rec Hrec]. destruct (Hall id b Hb t rec Hrec) as [? Hnext].
  split; [done|]. intros id' [b' Hb'] Hlt. by destruct (Hnext id' b' Hb').
Qed.

Section Drain.
Context `{HashIter} `{Prost} `{Crc64} `{Zstd} `{Clock} `{Chrono} `{JsonText} `{ByteSize} (cfg : Cfg).
Context `{!HashIterLaws} `{!ProstLaws} `{!Crc64Laws}.
Context (Hprimary : replica cfg = false).
Context (a : gmap Z Block) (Hspans : ordered_spans a).
Implicit Types (s : BM) (q : HistoricalQuery).

Abbreviation basic lo stop := ([TimeRangeFilter lo stop; RecordStateFilter Finished] : list (Filter Rec)).

(** What stays the same while a query runs. *)
Definition same_query q q' : Prop :=
  start_time q' = start_time q ∧ stop_time q' = stop_time q ∧
  hq_only_metadata q' = hq_only_metadata q ∧ is_interrupted q' = is_interrupted q.

(** The current block has been scanned up to [lo] and holds the records that are
    still to be handed out. *)
Definition current_ok s q (lo : Z) : Prop :=
  match current_block q with
  | None => lo = start_time q ∧ records_from_current_block q = []
  | Some r => ∃ id b, a !! id = Some b ∧ holds s a id r ∧ id < lo ∧ record_index b ≠ ∅ ∧
      Forall (λ rec, get_record b (rec_us rec) = Some rec) (records_from_current_block q)
  end.

Lemma scan_step s r q lo id b :
  rep cfg [] s a → holds s a id r → a !! id = Some b → is_u64 lo → is_u64 (stop_time q) →
  filters q = basic lo (stop_time q) → current_block q = Some r →
  filter_records_from_current_block (s, q) =
  (Ok (filter (wanted lo (stop_time q)) (block_records a id)),
   (s, set_filters (basic (next_lo (stop_time q) lo (block_records a id)) (stop_time q)) q)).
Proof.
  intros Hrep Hh Hb Hlo Hstop Hf Hcur. unfold filter_records_from_current_block.
  rewrite (st_bind_ok _ get_query _ q (s, q)) by done. rewrite Hcur.
  rewrite (st_bind_ok _ _ _ r (s, q)) by done.
  rewrite (st_bind_ok _ _ _ b (s, q)) by (unfold on_bm; cbn [fst snd]; by rewrite (deref_holds s a id r b Hh Hb)).
  unfold run_filters. cbn [fst snd]. rewrite Hf.
  pose proof (block_records_ascending a (rep_blocks _ _ _ _ Hrep) id) as Hasc.
  unfold block_records in *. rewrite Hb in *. by rewrite filter_block by done.
Qed.

(** Where the query stands after a search: the records found, and what is left. *)
Definition found s' q q' lo : Prop :=
  ∃ lo', is_u64 lo' ∧ rep cfg [] s' a ∧ same_query q q' ∧ filters q' = basic lo' (stop_time q) ∧
    matching a lo (stop_time q) =
      records_from_current_block q' ++ matching a lo' (stop_time q) ∧
    (records_from_current_block q' = [] ∧ matching a lo' (stop_time q) = [] ∨
     records_from_current_block q' ≠ [] ∧ current_ok s' q' lo').

Lemma next_lo_u64 stop lo recs : is_u64 lo → is_u64 stop → is_u64 (next_lo stop lo recs).
Proof.
  intros Hlo Hstop. revert lo Hlo. induction recs as [|x recs IH]; intros lo Hlo; [done|].
  simpl. apply IH. case_decide; [|done]. unfold is_u64 in *. lia.
Qed.

(** The query after the block [id] was loaded into [r] and filtered. *)
Definition hits q lo id : list Rec := filter (wanted lo (stop_time q)) (block_records a id).
Definition past q lo id : Z := next_lo (stop_time q) lo (block_records a id).
Definition scanned r q lo id : HistoricalQuery :=
  set_records (hits q lo id) (set_filters (basic (past q lo id) (stop_time q)) (set_current r q)).

Lemma scan_one s q lo id :
  rep cfg [] s a → is_u64 lo → is_u64 (stop_time q) → filters q = basic lo (stop_time q) →
  records_from_current_block q = [] → is_Some (a !! id) →
  ∃ r s1, rep cfg [] s1 a ∧ holds s1 a id r ∧ files s1 = files s ∧
    ∀ ids, scan_blocks cfg (id :: ids) (s, q) =
      if decide (hits q lo id = []) then scan_blocks cfg ids (s1, scanned r q lo id)
      else (Ok tt, (s1, scanned r q lo id)).
Proof.
  intros Hrep Hlo Hstop Hf Hnone [b Hb].
  destruct (load_block_rep cfg s a id b Hrep Hb) as (r & s1 & E & Hrep1 & Hh & _ & Hfiles & _).
  exists r, s1. split_and!; try done. intros ids. assert (Hblocks := rep_blocks _ _ _ _ Hrep).
  set (q1 := set_filters (basic (past q lo id) (stop_time q)) (set_current r q)).
  cbn [scan_blocks]. cbn [fst snd]. rewrite E.
  rewrite (st_bind_ok _ _ _ tt (s1, set_current r q)) by done.
  rewrite (st_bind_ok _ _ _ (hits q lo id) (s1, q1))
    by (apply (scan_step s1 r (set_current r q) lo id b); done).
  rewrite (st_bind_ok _ _ _ (hits q lo id) (s1, q1)).
  2:{ unfold st_lift. rewrite sort_ascending; [done| |].
      - apply StronglySorted_filter. by apply block_records_ascending.
      - intros rec [_ Hr]%list_elem_of_filter. by eapply block_records_timestamp. }
  rewrite (st_bind_ok _ _ _ tt (s1, scanned r q lo id))
    by (unfold modify_query; simpl; by rewrite Hnone).
  rewrite (st_bind_ok _ get_query _ (scanned r q lo id) (s1, scanned r q lo id)) by done.
  cbn [records_from_current_block scanned set_records]. by case_decide.
Qed.

(** A block with hits is the current one, and its start lies behind the query. *)
Lemma scanned_current s r q lo id :
  map_Forall block_ok a → holds s a id r → hits q lo id ≠ [] →
  current_ok s (scanned r q lo id) (past q lo id).
Proof.
  intros Hblocks Hh Hne. destruct Hh as (b & Hb & Hr). exists id, b.
  assert (Hfiled : ∀ rec, rec ∈ hits q lo id → get_record b (rec_us rec) = Some rec).
  { intros rec [_ Hx]%list_elem_of_filter.
    apply elem_of_block_records in Hx as (b2 & Hb2 & Hx); [|done]. congruence. }
  unfold hits in Hne. destruct (filter _ (block_records a id)) as [|x l] eqn:Eh; [done|].
  assert (Hx : x ∈ hits q lo id) by (unfold hits; rewrite Eh; left).
  pose proof (Hfiled x Hx) as Hget. apply list_elem_of_filter in Hx as [Hw Hx].
  destruct (block_records_span a Hblocks Hspans id x Hx) as [Hle _].
  pose proof (next_lo_past (stop_time q) lo _ x Hx ltac:(apply Hw)) as Hpast.
  split_and!; [done|by exists b|unfold past; lia| |].
  - intros Hemp. unfold get_record in Hget. by rewrite Hemp, lookup_empty in Hget.
  - by apply Forall_forall.
Qed.

Lemma scan_found ids s q lo :
  rep cfg [] s a → is_u64 lo → is_u64 (stop_time q) → filters q = basic lo (stop_time q) →
  records_from_current_block q = [] → StronglySorted Z.lt ids →
  (∀ id, id ∈ ids → is_Some (a !! id)) →
  (∀ id, is_Some (a !! id) → id ∉ ids → nothing a (stop_time q) lo id) →
  ∃ s' q', scan_blocks cfg ids (s, q) = (Ok tt, (s', q')) ∧ files s' = files s ∧ found s' q q' lo.
Proof.
  intros Hrep Hlo Hstop Hf Hnone Hsort. revert s q lo Hrep Hlo Hstop Hf Hnone.
  induction Hsort as [|id ids _ IH Hhead]; intros s q lo Hrep Hlo Hstop Hf Hnone Hin Hcover.
  { exists s, q. split_and!; [done|done|]. assert (matching a lo (stop_time q) = []) as Hm
      by (apply matching_nil; intros id Hid; apply Hcover; [done|by intros ?%elem_of_nil]).
    exists lo. rewrite Hnone, Hm. split_and!; try done. by left. }
  rewrite Forall_forall in Hhead. assert (Hblocks := rep_blocks _ _ _ _ Hrep).
  destruct (scan_one s q lo id Hrep Hlo Hstop Hf Hnone (Hin id ltac:(left)))
    as (r & s1 & Hrep1 & Hh & Hfiles & ->).
  assert (Hscan : matching a lo (stop_time q) = hits q lo id ++ matching a (past q lo id) (stop_time q)).
  { apply matching_scan; [done|done|by apply Hin; left|]. intros i Hi Hlt. apply Hcover; [done|].
    intros [->|Hi']%elem_of_cons; [lia|]. specialize (Hhead i Hi'). lia. }
  assert (Hlo' : is_u64 (past q lo id)) by (by apply next_lo_u64).
  case_decide as Hempty.
  - destruct (IH s1 (scanned r q lo id) (past q lo id) Hrep1 Hlo' Hstop)
      as (s' & q' & E' & Hfiles' & (lo2 & ? & ? & ? & ? & Hm & Hcase)); try done.
    + intros i Hi. apply Hin. by right.
    + intros i Hi Hni. destruct (decide (i = id)) as [->|Hne]; [by apply nothing_scanned|].
      apply (nothing_mono _ _ lo); [apply next_lo_mono|]. apply Hcover; [done|].
      by intros [?|?]%elem_of_cons.
    + exists s', q'. split_and!; [done|congruence|]. exists lo2. split_and!; try done.
      etrans; [exact Hscan|]. rewrite Hempty. exact Hm.
  - exists s1, (scanned r q lo id). split_and!; [done|done|]. exists (past q lo id).
    split_and!; try done. right. split; [done|]. by apply scanned_current.
Qed.

(** ** Searching from the right block *)

Lemma home_current id b :
  map_Forall block_ok a → a !! id = Some b → record_index b ≠ ∅ →
  home a (latest_record_time b) = Some id.
Proof.
  intros Hblocks Hb Hne. pose proof (latest_record_time_elem b Hne) as Hl.
  destruct (Hspans id b _ Hb Hl) as [Hle Hnext]. apply (home_intro a _ id b Hb Hle).
  intros i b' Hi Hile. destruct (decide (id < i)); [|lia].
  specialize (Hnext i ltac:(by eexists) ltac:(done)). lia.
Qed.

Lemma first_block_rep s q start :
  rep cfg [] s a →
  ∃ s', first_block_of cfg start (s, q) = (Ok (default 0 (home a start)), (s', q)) ∧
    rep cfg [] s' a ∧ files s' = files s.
Proof.
  intros Hrep. unfold first_block_of, find_block. cbn [fst snd].
  rewrite (st_bind_ok _ _ s s s) by done.
  assert (Hfind : find_block_id start (block_index s) = ok_or NotFound (home a start)).
  { rewrite find_block_id_greatest. by rewrite (active_tree_rep cfg [] s a Hrep). }
  destruct (home a start) as [id|] eqn:Eh.
  - rewrite (st_bind_ok _ _ s id s) by (unfold st_lift; by rewrite Hfind).
    destruct (home_some a start id Eh) as [[b Hb] _].
    destruct (load_block_rep cfg s a id b Hrep Hb) as (r & s1 & E & Hrep1 & Hh & _ & Hfiles & _).
    rewrite E. exists s1. split_and!; try done.
    rewrite (st_bind_ok _ _ _ b (s1, q))
      by (unfold on_bm; cbn [fst snd]; by rewrite (deref_holds s1 a id r b Hh Hb)).
    destruct (rep_blocks _ _ _ _ Hrep id b Hb) as (_ & <- & _). done.
  - rewrite (st_bind_err _ _ s NotFound s) by (unfold st_lift; by rewrite Hfind).
    exists s. by split_and!.
Qed.

(** No record that is left starts before the block the search begins with. *)
Lemma search_covers s q lo start id rec :
  rep cfg [] s a → current_ok s q lo →
  start = match current_block q with
          | Some r => from_option latest_record_time 0 (blocks s !! r)
          | None => start_time q
          end →
  rec ∈ block_records a id → wanted lo (stop_time q) rec → default 0 (home a start) ≤ id.
Proof.
  intros Hrep Hcur -> Hrec [[Hlo _] _]. assert (Hblocks := rep_blocks _ _ _ _ Hrep).
  destruct (block_records_span a Hblocks Hspans id rec Hrec) as [_ Hnext].
  assert (Hid : 0 ≤ id).
  { apply elem_of_block_records in Hrec as (b & Hb & _); [|done].
    destruct (Hblocks id b Hb) as (Hwf & <- & _). apply Hwf. }
  assert (Hbound : ∀ h, is_Some (a !! h) → h ≤ lo → h ≤ id).
  { intros h Hh Hle. destruct (decide (id < h)); [|lia]. specialize (Hnext h Hh ltac:(done)). lia. }
  unfold current_ok in Hcur. destruct (current_block q) as [r|].
  - destruct Hcur as (c & b & Hb & (b' & Hb' & Hr) & Hlt & Hne & _). simplify_eq. rewrite Hr. simpl.
    rewrite (home_current c b) by done. simpl. apply Hbound; [by eexists|lia].
  - destruct Hcur as [-> _]. destruct (home a (start_time q)) as [h|] eqn:Eh; simpl; [|done].
    destruct (home_some a _ h Eh). by apply Hbound.
Qed.

Lemma refill_found s q lo :
  rep cfg [] s a → is_u64 lo → is_u64 (stop_time q) → filters q = basic lo (stop_time q) →
  records_from_current_block q = [] → current_ok s q lo →
  ∃ s' q', refill cfg (s, q) = (Ok tt, (s', q')) ∧ files s' = files s ∧ found s' q q' lo.
Proof.
  intros Hrep Hlo Hstop Hf Hnone Hcur. unfold refill.
  rewrite (st_bind_ok _ get_query _ q (s, q)) by done.
  set (start := match current_block q with
                | Some r => from_option latest_record_time 0 (blocks s !! r)
                | None => start_time q
                end).
  rewrite (st_bind_ok _ _ _ start (s, q)).
  2:{ unfold start, current_ok in *. destruct (current_block q) as [r|]; [|done].
      destruct Hcur as (c & b & Hb & Hh & _). pose proof (deref_holds s a c r b Hh Hb) as E.
      rewrite (st_bind_ok _ _ _ b (s, q)) by (unfold on_bm; cbn [fst snd]; by rewrite E).
      unfold deref in E. destruct (blocks s !! r); [|done]. simpl in *. by simplify_eq. }
  destruct (first_block_rep s q start Hrep) as (s1 & E & Hrep1 & Hfiles). st_step E.
  set (ids := if decide (stop_time q < default 0 (home a start)) then []
              else bt_range (default 0 (home a start)) (stop_time q) (dom a)).
  rewrite (st_bind_ok _ _ _ ids (s1, q))
    by (cbn [fst snd]; by rewrite (active_tree_rep cfg [] s1 a Hrep1)).
  destruct (scan_found ids s1 q lo) as (s' & q' & E' & Hfiles' & Hfound); try done.
  - unfold ids. case_decide; [constructor|apply bt_range_sorted].
  - unfold ids. intros id. case_decide; [by intros ?%elem_of_nil|].
    intros [_ ?%elem_of_dom]%elem_of_bt_range. done.
  - intros id Hid Hout rec Hrec Hw.
    pose proof (search_covers s q lo start id rec Hrep Hcur eq_refl Hrec Hw) as Hge.
    destruct (block_records_span a (rep_blocks _ _ _ _ Hrep) Hspans id rec Hrec) as [Hle _].
    apply Hout. unfold ids. destruct Hw as [[_ Hlt] _]. rewrite decide_False by lia.
    apply elem_of_bt_range. split; [lia|]. by apply elem_of_dom.
  - exists s', q'. split_and!; [done|congruence|done].
Qed.

(** ** Handing out the records *)

(** The reader a record is served with: positioned on the record's region in the
    data file of its block, or without content for a query of metadata. *)
Definition served (om : bool) (x : Rec * RecordReader) : Prop :=
  ∃ id b, a !! id = Some b ∧ get_record b (rec_us x.1) = Some x.1 ∧
    x.2 = if om then mkReader None 0 0 0
          else if decide (rec_len x.1 > 0)
          then mkReader (Some (Data id)) (r_begin x.1) (rec_len x.1) 0
          else mkReader None (r_begin x.1) (rec_len x.1) 0.

(** Every block with content has its data file. *)
Definition data_present s : Prop :=
  ∀ id b t rec, a !! id = Some b → get_record b t = Some rec → rec_len rec > 0 →
    is_Some (files s !! Data id).

(** A query in progress: [todo] is what it has still to return. *)
Definition progress s q (todo : list Rec) : Prop :=
  ∃ lo, rep cfg [] s a ∧ data_present s ∧ is_u64 lo ∧ is_u64 (stop_time q) ∧
    is_interrupted q = false ∧ filters q = basic lo (stop_time q) ∧
    todo = records_from_current_block q ++ matching a lo (stop_time q) ∧ current_ok s q lo.

Lemma hand_out s q rec rest r id b :
  rep cfg [] s a → data_present s → map_Forall block_ok a →
  records_from_current_block q = rec :: rest → current_block q = Some r →
  a !! id = Some b → holds s a id r → get_record b (rec_us rec) = Some rec →
  ∃ x, x.1 = rec ∧ served (hq_only_metadata q) x ∧
    (_ ← modify_query (set_records rest);
     r ← st_lift (unwrap (current_block q));
     if hq_only_metadata q then mret (rec, mkReader None 0 0 0)
     else
       ts ← st_lift (unwrap (r_timestamp rec));
       reader ← on_bm (reader_try_new cfg r (ts_to_us ts));
       mret (rec, reader)) (s, q) = (Ok x, (s, set_records rest q)).
Proof.
  intros Hrep Hdata Hblocks Hrecs Hcur Hb Hh Hget. rewrite Hcur.
  destruct (rec_us_key id b _ rec (Hblocks _ _ Hb) Hget) as [_ Hts].
  destruct (hq_only_metadata q) eqn:Eom.
  { exists (rec, mkReader None 0 0 0). split_and!; [done|by exists id, b|done]. }
  assert (Hus : r_timestamp rec = Some (default (mkTimestamp 0 0) (r_timestamp rec)))
    by (by destruct (r_timestamp rec)).
  set (ts := default (mkTimestamp 0 0) (r_timestamp rec)) in *.
  assert (ts_to_us ts = rec_us rec) as Ets by (unfold rec_us; by rewrite Hus).
  pose proof (reader_try_new_rep cfg Hprimary s a id r b (rec_us rec) rec Hrep Hh Hb Hget) as Hread.
  assert (Hfile : rec_len rec > 0 → is_Some (files s !! Data id)) by (by apply (Hdata id b (rec_us rec) rec)).
  set (rd := if decide (rec_len rec > 0) then mkReader (Some (Data id)) (r_begin rec) (rec_len rec) 0
             else mkReader None (r_begin rec) (rec_len rec) 0).
  exists (rec, rd). split_and!; [done|by exists id, b|].
  rewrite (st_bind_ok _ _ _ tt (s, set_records rest q)) by done.
  rewrite (st_bind_ok _ _ _ r (s, set_records rest q)) by done.
  rewrite (st_bind_ok _ _ _ ts (s, set_records rest q)) by (unfold st_lift; by rewrite Hus).
  rewrite Ets. unfold on_bm, mbind, ST_bind. cbn [fst snd]. rewrite Hread. subst rd.
  destruct (decide (rec_len rec > 0)) as [Hpos|Hpos]; [|done].
  by rewrite decide_True by (by apply Hfile).
Qed.

Lemma current_rest s q lo r rec rest :
  current_block q = Some r → records_from_current_block q = rec :: rest → current_ok s q lo →
  current_ok s (set_records rest q) lo ∧
  ∃ id b, a !! id = Some b ∧ holds s a id r ∧ get_record b (rec_us rec) = Some rec.
Proof.
  unfold current_ok. cbn [current_block set_records]. intros -> ->.
  intros (id & b & Hb & Hh & Hlt & Hne & Hall). apply Forall_cons in Hall as [Hrec Hrest].
  split; exists id, b; by split_and!.
Qed.

(** The records that are filled in are handed out in their order. *)
Lemma next_filled s q rec rest :
  progress s q (rec :: rest) → records_from_current_block q ≠ [] →
  ∃ x q', historical_next cfg (s, q) = (Ok x, (s, q')) ∧ x.1 = rec ∧
    served (hq_only_metadata q) x ∧ hq_only_metadata q' = hq_only_metadata q ∧ progress s q' rest.
Proof.
  intros (lo & Hrep & Hdata & Hlo & Hstop & Hint & Hf & Htodo & Hcur) Hne.
  destruct (records_from_current_block q) as [|rec' l] eqn:Erec; [done|]. simplify_list_eq.
  destruct (current_block q) as [r|] eqn:Ecur.
  2:{ unfold current_ok in Hcur. rewrite Ecur, Erec in Hcur. by destruct Hcur as [_ ?]. }
  destruct (current_rest s q lo r rec' l Ecur Erec Hcur) as (Hcur' & id & b & Hb & Hh & Hget).
  destruct (hand_out s q rec' l r id b Hrep Hdata (rep_blocks _ _ _ _ Hrep) Erec Ecur Hb Hh Hget)
    as (x & Hx & Hserved & E).
  exists x, (set_records l q). split_and!; try done.
  - unfold historical_next. rewrite (st_bind_ok _ get_query _ q (s, q)) by done.
    rewrite decide_False by (rewrite Erec; by intros [? _]).
    rewrite (st_bind_ok _ _ _ tt (s, q)) by done.
    rewrite (st_bind_ok _ get_query _ q (s, q)) by done. by rewrite Erec.
  - exists lo. by split_and!.
Qed.

(** One call of [next]: the first record of what is left, or the end. *)
Lemma next_progress s q todo :
  progress s q todo →
  match todo with
  | [] => ∃ s' q', historical_next cfg (s, q) = (Err NoContent, (s', q')) ∧ rep cfg [] s' a ∧
      files s' = files s
  | rec :: rest => ∃ x s' q', historical_next cfg (s, q) = (Ok x, (s', q')) ∧ x.1 = rec ∧
      served (hq_only_metadata q) x ∧ hq_only_metadata q' = hq_only_metadata q ∧ progress s' q' rest ∧
      files s' = files s
  end.
Proof.
  intros Hp. destruct (decide (records_from_current_block q = [])) as [Erec|Hne].
  2:{ destruct todo as [|rec rest].
      - destruct Hp as (? & _ & _ & _ & _ & _ & _ & Htodo & _). by apply symmetry, app_nil in Htodo as [? _].
      - destruct (next_filled s q rec rest Hp Hne) as (x & q' & ? & ? & ? & ? & ?).
        exists x, s, q'. by split_and!. }
  destruct Hp as (lo & Hrep & Hdata & Hlo & Hstop & Hint & Hf & Htodo & Hcur).
  destruct (refill_found s q lo Hrep Hlo Hstop Hf Erec Hcur)
    as (s1 & q1 & E & Hfiles & (lo1 & Hlo1 & Hrep1 & (Hst & Hsp & Hom & Hin) & Hf1 & Hm & Hcase)).
  rewrite Erec in Htodo. simpl in Htodo. rewrite Hm in Htodo.
  assert (Enext : historical_next cfg (s, q) =
    if decide (records_from_current_block q1 = []) then (Err NoContent, (s1, q1))
    else historical_next cfg (s1, q1)).
  { unfold historical_next. rewrite (st_bind_ok _ get_query _ q (s, q)) by done.
    rewrite decide_True by done. rewrite (st_bind_ok _ _ _ tt (s1, q1)) by done.
    rewrite (st_bind_ok _ get_query _ q1 (s1, q1)) by done. case_decide as E1; [by rewrite E1|].
    rewrite (st_bind_ok _ get_query _ q1 (s1, q1)) by done.
    rewrite decide_False by (by intros [? _]).
    rewrite (st_bind_ok _ _ _ tt (s1, q1)) by done. by rewrite (st_bind_ok _ get_query _ q1 (s1, q1)) by done. }
  rewrite Enext. case_decide as E1.
  - destruct Hcase as [[_ Hnil]|[Hsome Hcur1]].
    + rewrite E1, Hnil in Htodo. subst todo. by eexists _, _.
    + done.
  - assert (Hp1 : progress s1 q1 todo).
    { exists lo1. rewrite Hsp. split_and!; try done.
      - intros id b t rec Hb Hr Hl. rewrite Hfiles. by eapply Hdata.
      - congruence.
      - by destruct Hcase as [[? _]|[_ ?]]. }
    destruct todo as [|rec rest].
    { destruct Hp1 as (? & _ & _ & _ & _ & _ & _ & Ht & _). by apply symmetry, app_nil in Ht as [? _]. }
    destruct (next_filled s1 q1 rec rest Hp1 E1) as (x & q' & Hx). destruct Hx as (? & ? & ? & ? & ?).
    exists x, s1, q'. rewrite <- Hom. by split_and!.
Qed.

(** [next] until it fails: the records returned and the code of the failure. *)
Fixpoint drain (n : nat) (st : BM * HistoricalQuery)
    : list (Rec * RecordReader) * option ErrorCode :=
  match n with
  | O => ([], None)
  | S n =>
      match historical_next cfg st with
      | (Ok x, st') => let '(l, e) := drain n st' in (x :: l, e)
      | (Err e, _) => ([], Some e)
      | (Panic, _) => ([], None)
      end
  end.

Lemma drain_progress n s q todo :
  progress s q todo → (length todo < n)%nat →
  let '(l, e) := drain n (s, q) in
  l.*1 = todo ∧ e = Some NoContent ∧ Forall (served (hq_only_metadata q)) l.
Proof.
  revert s q todo. induction n as [|n IH]; intros s q todo Hp Hlen; [lia|].
  pose proof (next_progress s q todo Hp) as Hn. cbn [drain]. destruct todo as [|rec rest].
  - destruct Hn as (s' & q' & -> & _). by split_and!.
  - destruct Hn as (x & s' & q' & -> & Hx & Hserved & Hom & Hp' & _). simpl in Hlen.
    specialize (IH s' q' rest Hp' ltac:(lia)). destruct (drain n (s', q')) as [l e].
    destruct IH as (<- & -> & Hall). rewrite Hom in Hall. split_and!; [by rewrite <- Hx|done|by constructor].
Qed.

Lemma drain_matching s start stop options io q n :
  rep cfg [] s a → data_present s → is_u64 start → is_u64 stop → when options = None →
  historical_try_new start stop options io = Ok q →
  (length (matching a start stop) < n)%nat →
  let '(l, e) := drain n (s, q) in
  l.*1 = matching a start stop ∧ e = Some NoContent ∧ Forall (served (hq_only_metadata q)) l.
Proof.
  intros Hrep Hdata Hstart Hstop Hwhen Hq Hn. apply drain_progress; [|done].
  unfold historical_try_new in Hq. rewrite Hwhen in Hq. injection Hq as <-.
  exists start. by split_and!.
Qed.

(** ** A continuous query *)

(** A continuous query that starts at [lo] and has nothing buffered. *)
Definition fresh (options : QueryOptions) (io : IoConfig) (lo : Z) (c : ContinuousQuery) : Prop :=
  historical_try_new lo u64_max options io = Ok (cq_query c) ∧ next_start c = lo ∧
  cq_options c = options ∧ cq_io c = io.

Fixpoint poll (n : nat) (bm : BM) (c : ContinuousQuery)
    : list (Rec * RecordReader) * option ErrorCode * (BM * ContinuousQuery) :=
  match n with
  | O => ([], None, (bm, c))
  | S n =>
      match continuous_next cfg c bm with
      | (Ok x, (bm', c')) => let '(l, e, r) := poll n bm' c' in (x :: l, e, r)
      | (Err e, r) => ([], Some e, r)
      | (Panic, r) => ([], None, r)
      end
  end.

Lemma poll_progress n s c todo options io :
  progress s (cq_query c) todo → (length todo < n)%nat → when options = None →
  cq_options c = options → cq_io c = io →
  let '(l, e, (s', c')) := poll n s c in
  l.*1 = todo ∧ e = Some NoContent ∧ rep cfg [] s' a ∧ files s' = files s ∧
  fresh options io (from_option (λ rec, u64_add (rec_us rec) 1) (next_start c) (last todo)) c'.
Proof.
  intros Hp Hn Hw Ho Hio. revert s c todo Hp Hn Ho Hio.
  induction n as [|n IH]; intros s c todo Hp Hn Ho Hio; [lia|].
  pose proof (next_progress s (cq_query c) todo Hp) as Hnext. cbn [poll]. unfold continuous_next.
  destruct todo as [|rec rest].
  - destruct Hnext as (s' & q' & -> & Hrep' & Hfiles). simpl. unfold historical_try_new. rewrite Ho, Hw.
    split_and!; try done. split_and!; try done. unfold historical_try_new. by rewrite Hw, Hio.
  - destruct Hnext as ([rec' rd] & s' & q' & -> & Hx & _ & _ & Hp' & Hfiles). simpl in Hx. subst rec'.
    set (c1 := mkCQ q' _ _ _ _). specialize (IH s' c1 rest Hp' ltac:(simpl in Hn; lia) Ho Hio).
    destruct (poll n s' c1) as [[l e] [s2 c2]]. destruct IH as (<- & -> & ? & ? & Hfresh).
    split_and!; [done|done|done|congruence|].
    replace (from_option _ _ (last (rec :: l.*1))) with
      (from_option (λ rec, u64_add (rec_us rec) 1) (next_start c1) (last l.*1)); [done|].
    rewrite last_cons. by destruct (last l.*1).
Qed.

Lemma matching_below lo stop rec : rec ∈ matching a lo stop → wanted lo stop rec.
Proof. by intros (id & [? _]%list_elem_of_filter & _)%list_elem_of_bind. Qed.

(** The records of a query are in strict order. *)
Lemma matching_ascending lo stop : map_Forall block_ok a → ascending (matching a lo stop).
Proof.
  intros Hok. unfold matching.
  assert (Hdom : ∀ id, id ∈ bt_elements (dom a) → is_Some (a !! id))
    by (intros id Hid; by apply elem_of_dom, elem_of_bt_elements).
  induction (bt_elements_sorted (dom a)) as [|id ids _ IH Hhead]; [constructor|]. cbn [mbind list_bind].
  apply StronglySorted_app_2.
  - intros x y Hx Hy. apply list_elem_of_filter in Hx as [_ Hx].
    apply list_elem_of_bind in Hy as (id' & [_ Hy]%list_elem_of_filter & Hid').
    rewrite Forall_forall in Hhead. specialize (Hhead id' Hid').
    destruct (block_records_span a Hok Hspans id x Hx) as [_ Hnext].
    destruct (block_records_span a Hok Hspans id' y Hy) as [Hle _].
    specialize (Hnext id' (Hdom id' ltac:(by right)) Hhead). lia.
  - apply StronglySorted_filter. by apply block_records_ascending.
  - apply IH. intros i Hi. apply Hdom. by right.
Qed.

Lemma ascending_last l rec x : ascending l → last l = Some rec → x ∈ l → rec_us x ≤ rec_us rec.
Proof.
  intros Hs Hl Hx. apply last_Some in Hl as [l' ->]. apply elem_of_app in Hx as [Hx|Hx].
  - apply Z.lt_le_incl. by apply (StronglySorted_app_1_elem_of _ _ _ x rec Hs Hx); left.
  - by apply list_elem_of_singleton in Hx as ->.
Qed.

(** One poll from [lo] on: its results, and where the query stands behind them. *)
Lemma poll_from s c lo options io n :
  rep cfg [] s a → data_present s → is_u64 lo → when options = None → fresh options io lo c →
  (length (matching a lo u64_max) < n)%nat →
  let '(l, e, (s', c')) := poll n s c in
  let lo' := from_option (λ rec, rec_us rec + 1) lo (last l.*1) in
  l.*1 = matching a lo u64_max ∧ e = Some NoContent ∧ fresh options io lo' c' ∧ is_u64 lo' ∧
  ascending l.*1 ∧ (∀ rec, rec ∈ l.*1 → lo ≤ rec_us rec < lo').
Proof.
  intros Hrep Hdata Hlo Hwhen (Hq & Hns & Ho & Hio) Hn.
  assert (Hp : progress s (cq_query c) (matching a lo u64_max)).
  { unfold historical_try_new in Hq. rewrite Hwhen in Hq. injection Hq as <-. exists lo. by split_and!. }
  pose proof (poll_progress n s c _ options io Hp Hn Hwhen Ho Hio) as Hpoll.
  destruct (poll n s c) as [[l e] [s' c']]. destruct Hpoll as (Hl & -> & Hrep' & Hfiles & Hfresh). simpl. rewrite Hl.
  pose proof (matching_ascending lo u64_max (rep_blocks _ _ _ _ Hrep)) as Hasc.
  assert (∀ rec, rec ∈ matching a lo u64_max → lo ≤ rec_us rec < u64_max) as Hin by (intros rec Hr; by destruct (matching_below _ _ _ Hr)).
  rewrite Hns in Hfresh. destruct (last (matching a lo u64_max)) as [rec|] eqn:Elast; simpl in *.
  - assert (lo ≤ rec_us rec < u64_max) by (apply Hin; apply last_Some in Elast as [? ->]; apply elem_of_app; right; left).
    rewrite u64_add_small in Hfresh by u64_lia. split_and!; [done..|u64_lia|done|].
    intros x Hx. pose proof (ascending_last _ _ x Hasc Elast Hx). specialize (Hin x Hx). lia.
  - apply last_None in Elast as ->. split_and!; [done..|constructor|]. by intros x ?%elem_of_nil.
Qed.
End Drain.

(** ** What the queries return *)

Section Exact.
Context `{HashIter} `{Prost} `{Crc64} `{Zstd} `{Clock} `{Chrono} `{JsonText} `{ByteSize} (cfg : Cfg).
Context `{!HashIterLaws} `{!ProstLaws} `{!Crc64Laws}.

(** C6: A historical query without a condition returns, in the order of time,
    every finished record of [start, stop) and nothing else, each with a reader on
    the record's own region of its block's data file (or without content when only
    metadata was asked for), and then ends with [NoContent]; whichever blocks are
    in a cache and whichever are on disk.  This is for an entry of a primary with
    blocks that are neither compressed nor marked as corrupted, that have their
    data files, and that follow each other in time: the records of a block are
    earlier than the id of the next one, as it is when no belated record had to
    get a block of its own.  For an entry with such a block it does not hold
    ([belated_record_is_not_queried]). *)
Theorem historical_query_exact a s start stop options io q n :
  replica cfg = false → rep cfg [] s a → ordered_spans a → data_present a s →
  is_u64 start → is_u64 stop → when options = None →
  historical_try_new start stop options io = Ok q →
  (length (matching a start stop) < n)%nat →
  let '(l, e) := drain cfg n (s, q) in
  l.*1 = matching a start stop ∧ ascending l.*1 ∧ e = Some NoContent ∧ Forall (served a (hq_only_metadata q)) l.
Proof.
  intros Hp Hrep Hspans Hdata Hstart Hstop Hwhen Hq Hn.
  pose proof (drain_matching cfg Hp a Hspans s start stop options io q n Hrep Hdata Hstart Hstop Hwhen Hq Hn) as Hd.
  destruct (drain cfg n (s, q)) as [l e]. destruct Hd as (-> & ? & ?). split_and!; [done| |done..].
  apply matching_ascending; [done|]. by eapply rep_blocks.
Qed.

(** A continuous query that is asked again and again, at each round until it has nothing
    more, while the entry changes between the rounds. *)
Fixpoint poll_rounds (rounds : list (nat * BM)) (c : ContinuousQuery) : list (list Rec * option ErrorCode) :=
  match rounds with
  | [] => []
  | (n, s) :: rounds' =>
      let '(l, e, (_, c')) := poll cfg n s c in (l.*1, e) :: poll_rounds rounds' c'
  end.

(** What each round is to return: the records behind the last one that was returned. *)
Fixpoint expected_rounds (lo : Z) (entries : list (gmap Z Block)) : list (list Rec) :=
  match entries with
  | [] => []
  | a :: entries' =>
      let l := matching a lo u64_max in
      l :: expected_rounds (from_option (λ rec, rec_us rec + 1) lo (last l)) entries'
  end.

(** A round: the entry as it is then, and enough calls. *)
Definition round_ok (round : nat * BM) (a : gmap Z Block) : Prop :=
  rep cfg [] round.2 a ∧ ordered_spans a ∧ data_present a round.2 ∧
  ∀ lo, (length (matching a lo u64_max) < round.1)%nat.

Lemma rounds_from lo options io rounds entries c :
  replica cfg = false → is_u64 lo → when options = None → fresh options io lo c → Forall2 round_ok rounds entries →
  poll_rounds rounds c = (λ l, (l, Some NoContent)) <$> expected_rounds lo entries ∧
  ascending (concat (expected_rounds lo entries)) ∧ ∀ rec, rec ∈ concat (expected_rounds lo entries) → lo ≤ rec_us rec.
Proof.
  intros Hp Hlo Hwhen Hf Hr. revert lo c Hlo Hf. induction Hr as [|[n s] a rounds entries (Hrep & Hspans & Hdata & Hn) _ IH]; intros lo c Hlo Hf.
  { split_and!; [done|constructor|]. by intros rec ?%elem_of_nil. }
  cbn [poll_rounds expected_rounds]. pose proof (poll_from cfg Hp a Hspans s c lo options io n Hrep Hdata Hlo Hwhen Hf (Hn lo)) as Hpoll.
  destruct (poll cfg n s c) as [[l e] [s' c']]. simpl in Hpoll. destruct Hpoll as (Hl & -> & Hf' & Hlo' & Hasc & Hin).
  rewrite <- Hl. destruct (IH _ c' Hlo' Hf') as (-> & Hasc' & Hge). split_and!; [done| |]; csimpl.
  - apply StronglySorted_app_2; [|done..]. intros x y Hx Hy. specialize (Hin x Hx). specialize (Hge y Hy). lia.
  - intros rec [Hrec|Hrec]%elem_of_app; [by apply Hin|]. specialize (Hge rec Hrec).
    destruct (last l.*1) as [z|] eqn:El; [|done]. simpl in Hge. assert (z ∈ l.*1) as Hz.
    { apply last_Some in El as [l' ->]. apply elem_of_app. right. by left. }
    specialize (Hin z Hz). lia.
Qed.

(** C35: A continuous query without a condition that is asked again and again while
    the entry changes returns at each round every finished record behind the last one
    it returned (from its start on at the first), in the order of time, and then
    reports [NoContent]; over all rounds the times of what it returns ascend, so that
    no record is returned twice.  At each round the entry is one of a primary, with
    blocks that are neither compressed nor marked as corrupted, have their data files
    and follow each other in time.  A record that is written belated, with a time
    before the last returned one, is not among the expected ones. *)
Theorem continuous_query_resumes rounds entries c lo options io :
  replica cfg = false → is_u64 lo → when options = None → fresh options io lo c → Forall2 round_ok rounds entries →
  poll_rounds rounds c = (λ l, (l, Some NoContent)) <$> expected_rounds lo entries ∧
  ascending (concat (expected_rounds lo entries)).
Proof. intros Hp Hlo Hwhen Hf Hr. by destruct (rounds_from lo options io rounds entries c Hp Hlo Hwhen Hf Hr) as (? & ? & _). Qed.
End Exact.

(** ** Witnesses *)
Section Witnesses.
Existing Instance std_order.
Existing Instance std_order_laws.
Existing Instance Toy.prost.
Existing Instance Toy.prost_laws.
Existing Instance Toy.digest.
Existing Instance Toy.digest_laws.
Existing Instance demo_zstd.
Existing Instance demo_clock.
Local Instance query_chrono : Chrono := {|
  DateTime := Z; Tz := (); tz_utc := (); tz_from_str s := None;
  from_timestamp_micros us := Some us; date_field f _ us := 0 |}.
Local Instance query_json_text : JsonText := λ _, "{}"%string.
Local Instance query_byte_size : ByteSize := λ _, None.

Definition two_blocks : list bm_op :=
  [OpStart 100 16; OpUpdate 100 [rec_at 100 0 7; rec_at 150 7 9]; OpStart 300 16;
   OpUpdate 300 [rec_at 300 0 4]].
Definition two_blocks_bm : BM := (run_all demo_cfg two_blocks demo_empty).2.
Definition two_blocks_map : gmap Z Block := (spec_all two_blocks ∅).2.

Lemma two_blocks_ok : ops_ok two_blocks ∅.
Proof.
  assert (Hvalid : ∀ t b e, is_u64 t → is_u64 b → is_u64 e → rec_valid (rec_at t b e)).
  { intros t b e Ht Hb He. split_and!; cbn [rec_at r_timestamp r_begin r_end r_state state_i32];
      try done; try reflexivity.
    - intros ts [= <-]. by apply us_to_ts_valid.
    - by repeat constructor. }
  cbn [two_blocks ops_ok op_ok bm_spec snd]. split_and!;
    try match goal with
        | |- True => exact I | |- is_u64 _ => u64_lia | |- _ = None => vm_compute; reflexivity
        end.
  all: intros b Hb; vm_compute in Hb; injection Hb as <-; cbn [insertable].
  all: repeat match goal with
         | |- _ ∧ _ => split
         | |- True => exact I
         | |- rec_valid _ => apply Hvalid; u64_lia
         | |- is_Some _ => by eexists
         | |- fits _ _ => unfold fits; cbn [rec_at r_begin r_end size record_count]; u64_lia
         | |- ∀ b', _ → _ => intros b' Hb'; vm_compute in Hb'; injection Hb' as <-
         end.
Qed.

Lemma two_blocks_rep : rep demo_cfg [] two_blocks_bm two_blocks_map.
Proof. by apply (run_all_sim demo_cfg eq_refl two_blocks); [exact demo_empty_rep|exact two_blocks_ok]. Qed.

Lemma two_blocks_spans : ordered_spans two_blocks_map.
Proof. apply ordered_spans_decided. apply (bool_decide_unpack _). by vm_compute. Qed.

Lemma two_blocks_data : data_present two_blocks_map two_blocks_bm.
Proof.
  assert (Hall : map_Forall (λ id _, is_Some (files two_blocks_bm !! Data id)) two_blocks_map)
    by (apply (bool_decide_unpack _); by vm_compute).
  intros id b t rec Hb _ _. by apply (Hall id b).
Qed.

Definition query_io : IoConfig := mkIoConfig 8000000 100 8000 5000000 1000000 60000000 None.
Definition plain_query : QueryOptions := mkQueryOptions 60000000 false false None false None.

Lemma historical_query_exact_witness :
  ∃ q, historical_try_new 120 400 plain_query query_io = Ok q ∧
    (drain demo_cfg 3 (two_blocks_bm, q)).1.*1 = [rec_at 150 7 9; rec_at 300 0 4].
Proof.
  eexists. split; [reflexivity|].
  pose proof (historical_query_exact demo_cfg two_blocks_map two_blocks_bm
    120 400 plain_query query_io _ 3 eq_refl two_blocks_rep two_blocks_spans two_blocks_data ltac:(u64_lia) ltac:(u64_lia)
    eq_refl eq_refl) as Hq.
  assert (Hm : matching two_blocks_map 120 400 = [rec_at 150 7 9; rec_at 300 0 4])
    by (vm_compute; reflexivity).
  rewrite Hm in Hq. specialize (Hq ltac:(simpl; lia)).
  destruct (drain demo_cfg 3 _) as [l e]. by destruct Hq.
Defined.

Definition polling : QueryOptions := mkQueryOptions 60000000 true true None false None.

(** The same entry before and after its second block is written. *)
Definition before_second : list bm_op := take 2 two_blocks.
Definition before_second_bm : BM := (run_all demo_cfg before_second demo_empty).2.
Definition before_second_map : gmap Z Block := (spec_all before_second ∅).2.
Lemma before_second_rep : rep demo_cfg [] before_second_bm before_second_map.
Proof.
  apply (run_all_sim demo_cfg eq_refl before_second); [exact demo_empty_rep|].
  pose proof two_blocks_ok as Hok. cbn [two_blocks ops_ok before_second take] in *. by destruct Hok as (? & ? & _).
Qed.
Lemma before_second_spans : ordered_spans before_second_map.
Proof. apply ordered_spans_decided. apply (bool_decide_unpack _). by vm_compute. Qed.
Lemma before_second_data : data_present before_second_map before_second_bm.
Proof.
  assert (Hall : map_Forall (λ id _, is_Some (files before_second_bm !! Data id)) before_second_map)
    by (apply (bool_decide_unpack _); by vm_compute).
  intros id b t rec Hb _ _. by apply (Hall id b).
Qed.

Lemma continuous_query_resumes_witness :
  ∃ c, continuous_try_new 120 polling query_io = Ok c ∧
    poll_rounds demo_cfg [(9%nat, before_second_bm); (9%nat, two_blocks_bm); (9%nat, two_blocks_bm)] c
      = [([rec_at 150 7 9], Some NoContent); ([rec_at 300 0 4], Some NoContent); ([], Some NoContent)].
Proof.
  eexists. split; [reflexivity|].
  assert (∀ bm a, rep demo_cfg [] bm a → ordered_spans a → data_present a bm →
    (length (bt_elements (dom a) ≫= block_records a) < 9)%nat → round_ok demo_cfg (9%nat, bm) a) as Hround.
  { intros bm a Hr Hs Hd Hl. split_and!; [done..|]. intros lo. simpl. eapply Nat.le_lt_trans; [|exact Hl].
    unfold matching. clear. induction (bt_elements (dom a)) as [|id l IH]; csimpl; [done|]. rewrite !length_app.
    pose proof (length_filter (wanted lo u64_max) (block_records a id)). lia. }
  destruct (continuous_query_resumes demo_cfg [(9%nat, before_second_bm); (9%nat, two_blocks_bm); (9%nat, two_blocks_bm)]
    [before_second_map; two_blocks_map; two_blocks_map] (mkCQ _ 120 0 polling query_io) 120 polling query_io
    eq_refl ltac:(u64_lia) eq_refl (conj eq_refl (conj eq_refl (conj eq_refl eq_refl)))) as [-> _].
  - repeat apply Forall2_cons_2; [apply Hround..|apply Forall2_nil_2];
      solve [exact before_second_rep|exact before_second_spans|exact before_second_data|exact two_blocks_rep|exact two_blocks_spans
        |exact two_blocks_data|apply Nat.ltb_lt; vm_compute; reflexivity].
  - vm_compute. reflexivity.
Defined.

(** ** Two requests a query does not serve *)

(** A record written as a client writes it. *)
Definition write_whole (label : string) (t : Z) : ST BM () :=
  ctx ← begin_write demo_cfg demo_settings t 1 "text/plain" {["k" := label]};
  receive demo_cfg ctx [ChunkData [0]; ChunkStop].

Definition ask (start stop : Z) (options : QueryOptions) (bm : BM)
    : outcome (list Z * option ErrorCode) :=
  q ← historical_try_new start stop options query_io;
  let '(l, e) := drain demo_cfg 9 (bm, q) in Ok (rec_us <$> l.*1, e).

Definition belated : BM := (st_for (write_whole "v") [100; 1000; 500] demo_empty).2.

(** [{"#ctx_before": 1, "&k": {"$eq": "x"}}] *)
Definition with_context : QueryOptions :=
  mkQueryOptions 60000000 false false
    (Some (JObject [("#ctx_before", JNumber (PosInt 1)); ("&k", JObject [("$eq", JString "x")])]%string))
    false None.
Definition labelled : BM :=
  ((_ ← write_whole "v" 100; _ ← write_whole "v" 200; write_whole "x" 300)%string demo_empty).2.

(** Blocks of two records: the record of 500 is written belated, into a block of
    its own between the records of the first block.  By then the time range filter
    has moved behind 1000, and the query leaves the record out, though it was
    written and is returned when asked for alone. *)
Example belated_record_is_not_queried :
  (st_for (write_whole "v") [100; 1000; 500] demo_empty).1 = Ok tt ∧
  ask 0 2000 plain_query belated = Ok ([100; 1000], Some NoContent) ∧
  ask 500 501 plain_query belated = Ok ([500], Some NoContent).
Proof. by vm_compute. Qed.

(** A block is known by the time of its first record.  When that record is removed, the
    block has been filled up again, and a record of that time is written once more, a new
    block is started under the same id in the place of the old one: the records of 150 and
    200 are gone. *)
Example reused_id_loses_records :
  let writes := (_ ← st_for (write_whole "v") [100; 200; 300]; _ ← remove_records demo_cfg 100 [100];
                 write_whole "v" 150)%string in
  let again := (_ ← writes; write_whole "v" 100)%string in
  (writes demo_empty).1 = Ok tt ∧ (again demo_empty).1 = Ok tt ∧
  ask 0 2000 plain_query (writes demo_empty).2 = Ok ([150; 200; 300], Some NoContent) ∧
  ask 0 2000 plain_query (again demo_empty).2 = Ok ([100; 300], Some NoContent).
Proof. by vm_compute. Qed.

(** The context before a match comes from an earlier block, but it is read
    through the block of the match, which does not have it: [next] panics. *)
Example context_of_another_block_panics :
  match historical_try_new 0 2000 with_context query_io with
  | Ok q => (historical_next demo_cfg (labelled, q)).1 = Panic
  | _ => False
  end.
Proof. by vm_compute. Qed.
End Witnesses.
