(* ===== verification/Split.v ===== *)
(** * Split: separating and joining text

    [split_once], [rsplit_once], [split], [trim_start_matches] and [parse::<u64>]
    of the Rust standard library, and that joined text is separated again. *)

From stdpp Require Import prelude strings pretty.
From Stdlib Require Import Ascii ZArith Lia.
From S2P Require Import Prelude Text.
Open Scope Z_scope.

(** ** The operations *)

(** [str::split_once] and [str::rsplit_once] at a character. *)
Fixpoint split_once (sep : ascii) (s : string) : option (string * string) :=
  match s with
  | EmptyString => None
  | String c s' =>
      if decide (c = sep) then Some (EmptyString, s')
      else match split_once sep s' with Some (a, b) => Some (String c a, b) | None => None end
  end.

Fixpoint rsplit_once (sep : ascii) (s : string) : option (string * string) :=
  match s with
  | EmptyString => None
  | String c s' =>
      match rsplit_once sep s' with
      | Some (a, b) => Some (String c a, b)
      | None => if decide (c = sep) then Some (EmptyString, s') else None
      end
  end.

(** [str::split] at a character: the pieces, at least one. *)
Fixpoint split (sep : ascii) (s : string) : list string :=
  match s with
  | EmptyString => [EmptyString]
  | String c s' =>
      if decide (c = sep) then EmptyString :: split sep s'
      else match split sep s' with
           | [] => [String c EmptyString]
           | w :: l => String c w :: l
           end
  end.

(** [str::trim_start_matches] of a character. *)
Fixpoint trim_start_matches (sep : ascii) (s : string) : string :=
  match s with
  | String c s' => if decide (c = sep) then trim_start_matches sep s' else s
  | EmptyString => EmptyString
  end.

(** [str::parse::<u64>] (and [usize], of the same width): an optional plus sign
    and at least one digit, in range. *)
Definition u64_range (z : Z) : option Z := if decide (is_u64 z) then Some z else None.
Definition parse_u64 (s : string) : option Z :=
  match s with
  | EmptyString => None
  | String c s' =>
      if decide (c = "+"%char) then
        if decide (s' = EmptyString) then None else digits s' 0 ≫= u64_range
      else digits s 0 ≫= u64_range
  end.

(** [parts.join(",")] and the like, with a separator of one character. *)
Fixpoint join_with (sep : ascii) (l : list string) : string :=
  match l with
  | [] => EmptyString
  | w :: l' => match l' with [] => w | _ => w +:+ String sep (join_with sep l') end
  end.

Lemma join_with_cons sep w w' l :
  join_with sep (w :: w' :: l) = w +:+ String sep (join_with sep (w' :: l)).
Proof. done. Qed.

(** ** Characters *)

Definition lacks (c : ascii) : string → bool := all_chars (λ d, negb (bool_decide (d = c))).

Lemma lacks_cons c d s : lacks c (String d s) = true ↔ d ≠ c ∧ lacks c s = true.
Proof. unfold lacks. simpl. rewrite andb_true_iff, negb_true_iff, bool_decide_eq_false. done. Qed.

Lemma lacks_app c s t : lacks c (s +:+ t) = lacks c s && lacks c t.
Proof. apply all_chars_app. Qed.

Lemma lacks_class (P : ascii → bool) c s :
  P c = false → all_chars P s = true → lacks c s = true.
Proof.
  intros Hc. apply all_chars_impl. intros d Hd. apply negb_true_iff, bool_decide_eq_false.
  intros ->. congruence.
Qed.

(** ** Joined text is separated again *)

Lemma split_once_app sep a b : lacks sep a = true → split_once sep (a +:+ String sep b) = Some (a, b).
Proof.
  induction a as [|c a IH]; intros Ha.
  - change ("" +:+ String sep b) with (String sep b). simpl. by rewrite decide_True.
  - apply lacks_cons in Ha as [Hc Ha]. change (String c a +:+ ?x) with (String c (a +:+ x)).
    cbn [split_once]. by rewrite decide_False, IH.
Qed.

Lemma split_once_none sep s : lacks sep s = true → split_once sep s = None.
Proof.
  induction s as [|c s IH]; intros Hs; [done|]. apply lacks_cons in Hs as [Hc Hs].
  cbn [split_once]. by rewrite decide_False, IH.
Qed.

Lemma rsplit_once_none sep s : lacks sep s = true → rsplit_once sep s = None.
Proof.
  induction s as [|c s IH]; intros Hs; [done|]. apply lacks_cons in Hs as [Hc Hs].
  cbn [rsplit_once]. by rewrite IH, decide_False.
Qed.

Lemma rsplit_once_app sep a b : lacks sep b = true → rsplit_once sep (a +:+ String sep b) = Some (a, b).
Proof.
  intros Hb. induction a as [|c a IH].
  - change ("" +:+ String sep b) with (String sep b). cbn [rsplit_once].
    by rewrite rsplit_once_none, decide_True.
  - change (String c a +:+ ?x) with (String c (a +:+ x)). cbn [rsplit_once]. by rewrite IH.
Qed.

Lemma split_piece sep w s :
  lacks sep w = true → split sep (w +:+ String sep s) = w :: split sep s.
Proof.
  induction w as [|c w IH]; intros Hw.
  - change ("" +:+ String sep s) with (String sep s). simpl. by rewrite decide_True.
  - apply lacks_cons in Hw as [Hc Hw]. change (String c w +:+ ?x) with (String c (w +:+ x)).
    cbn [split]. by rewrite decide_False, IH.
Qed.

Lemma split_single sep w : lacks sep w = true → split sep w = [w].
Proof.
  induction w as [|c w IH]; intros Hw; [done|]. apply lacks_cons in Hw as [Hc Hw].
  cbn [split]. by rewrite decide_False, IH.
Qed.

Lemma split_join_with sep l :
  l ≠ [] → Forall (λ w, lacks sep w = true) l → split sep (join_with sep l) = l.
Proof.
  intros Hne Hl. induction Hl as [|w l Hw Hl IH]; [done|]. cbn [join_with].
  destruct l as [|w' l]; [by apply split_single|]. rewrite split_piece by done. by rewrite IH.
Qed.

Lemma parse_u64_show z : is_u64 z → parse_u64 (show z) = Some z.
Proof.
  intros Hz. assert (E : show z = pretty (Z.to_N z)) by (rewrite show_eq; destruct z; try done; u64_lia).
  rewrite E. pose proof (digits_pretty_N (Z.to_N z)) as Hd.
  destruct (pretty (Z.to_N z)) as [|c s] eqn:Es; [by apply pretty_N_nonempty in Es|].
  destruct (digit_not_sign _ _ _ _ _ Hd eq_refl). unfold parse_u64. rewrite decide_False by done.
  rewrite Hd. simpl. unfold u64_range. rewrite Z2N.id by apply Hz. by rewrite decide_True.
Qed.

(** ** Text without white space at its ends *)

(** A visible character of a header: printable ASCII or a blank. *)
Definition visible (c : ascii) : bool := bool_decide (32 ≤ byte c < 127).

Fixpoint last_char (c : ascii) (s : string) : ascii :=
  match s with EmptyString => c | String d s' => last_char d s' end.

Definition edges (s : string) : bool :=
  match s with EmptyString => true | String c s' => plain c && plain (last_char c s') end.

Definition tidy (s : string) : bool := all_chars visible s && edges s.

Lemma tidy_iff s : tidy s = true ↔ all_chars visible s = true ∧ edges s = true.
Proof. apply andb_true_iff. Qed.

Lemma last_char_app c s d t : last_char c (s +:+ String d t) = last_char d t.
Proof. revert c. induction s as [|e s IH]; intros c; [done|]. apply IH. Qed.

Lemma tidy_app s t :
  tidy s = true → tidy t = true → s ≠ EmptyString → t ≠ EmptyString → tidy (s +:+ t) = true.
Proof.
  rewrite !tidy_iff, all_chars_app. intros [-> Es] [-> Et] Hs Ht. split; [done|].
  destruct s as [|c s], t as [|d t]; try done.
  change (edges (String c s +:+ String d t)) with (plain c && plain (last_char c (s +:+ String d t))).
  simpl in Es, Et. apply andb_true_iff in Es as [-> _], Et as [_ Et]. by rewrite last_char_app, Et.
Qed.

Lemma plain_visible c : plain c = true → visible c = true.
Proof. unfold plain, visible. rewrite !bool_decide_eq_true. lia. Qed.

Lemma tidy_plain s : all_chars plain s = true → tidy s = true.
Proof.
  intros Hs. apply tidy_iff. split; [by eapply all_chars_impl, Hs; apply plain_visible|].
  destruct s as [|c s]; [done|]. simpl in *. apply andb_true_iff in Hs as [Hc Hs]. rewrite Hc. simpl.
  revert c Hc. induction s as [|d s IH]; intros c Hc; [done|]. simpl in *.
  apply andb_true_iff in Hs as [Hd Hs]. by apply IH.
Qed.

(** The only visible white space is the blank. *)
Lemma visible_strip c s :
  visible c = true → strip_ws (String c s) = if plain c then None else Some s.
Proof.
  intros Hv. destruct (plain c) eqn:Hp; [by apply plain_strip|].
  unfold plain, visible in *. apply bool_decide_eq_true in Hv. apply bool_decide_eq_false in Hp.
  unfold strip_ws, is_ws1. rewrite (bool_decide_eq_true_2 (byte c = 32)) by lia. by rewrite orb_true_r.
Qed.

Lemma trim_start_keeps fuel c s :
  all_chars visible (String c s) = true → plain (last_char c s) = true →
  trim_start fuel (String c s) ≠ EmptyString.
Proof.
  revert c s. induction fuel as [|fuel IH]; intros c s Hv Hl; [done|]. cbn [trim_start].
  simpl in Hv. apply andb_true_iff in Hv as [Hc Hv]. rewrite visible_strip by done.
  destruct (plain c) eqn:Hp; [done|]. destruct s as [|d s]; simpl in Hl; [congruence|]. by apply IH.
Qed.

Lemma trim_end_visible c s :
  visible c = true →
  trim_end (String c s) =
    if plain c then String c (trim_end s)
    else if decide (trim_start (String.length s) s = EmptyString) then EmptyString
         else String c (trim_end s).
Proof. intros Hc. cbn [trim_end]. rewrite visible_strip by done. by destruct (plain c). Qed.

Lemma trim_tidy s : tidy s = true → trim s = s.
Proof.
  rewrite tidy_iff. intros [Hv He]. unfold trim. destruct s as [|c s]; [done|].
  simpl in He. apply andb_true_iff in He as [Hc Hl].
  cbn [String.length trim_start]. rewrite plain_strip by done. clear Hc.
  revert c Hv Hl. induction s as [|d s IH]; intros c Hv Hl; simpl in Hv;
    apply andb_true_iff in Hv as [Hc Hv]; rewrite trim_end_visible by done.
  - simpl in Hl. by rewrite Hl.
  - rewrite IH by done. destruct (plain c); [done|].
    by rewrite decide_False by (by apply trim_start_keeps).
Qed.

Lemma show_plain z : all_chars plain (show z) = true.
Proof.
  apply (all_chars_impl numeric); [|apply show_numeric]. intros c. unfold numeric, digit, plain.
  destruct (decide _) as [Hd|Hd]; intros Hc; [apply bool_decide_eq_true; unfold byte; lia|].
  apply bool_decide_eq_true in Hc as ->. done.
Qed.

Definition is_digit (c : ascii) : bool := bool_decide (is_Some (digit c)).

Lemma digits_are_digits s acc n : digits s acc = Some n → all_chars is_digit s = true.
Proof.
  revert acc. induction s as [|c s IH]; intros acc; simpl; [done|].
  destruct (digit c) eqn:E; [|done]. intros Hs. rewrite (IH _ Hs), andb_true_r.
  apply bool_decide_eq_true. by eexists.
Qed.

Lemma show_digits z : 0 ≤ z → all_chars is_digit (show z) = true.
Proof.
  intros Hz. rewrite show_eq. destruct z as [|p|p]; [done| |lia].
  eapply digits_are_digits, digits_pretty_N.
Qed.

Lemma string_app_assoc s t u : s +:+ t +:+ u = (s +:+ t) +:+ u.
Proof. induction s as [|c s IH]; [done|]. exact (f_equal (String c) IH). Qed.

Lemma starts_with_app p s : starts_with (p +:+ s) p = true.
Proof.
  induction p as [|c p IH]; [by destruct s|].
  change (bool_decide (c = c) && starts_with (p +:+ s) p = true). by rewrite bool_decide_eq_true_2.
Qed.

Lemma drop_str_app p s : drop_str (String.length p) (p +:+ s) = s.
Proof. induction p as [|c p IH]; [by destruct s|]. exact IH. Qed.
