(* ===== verification/Pattern.v ===== *)
(** * Pattern: selecting entries by name

    The matcher of entry patterns (storage/entry/pattern.rs), the names of system
    entries (storage/entry/system.rs), and the selections built on it: for removals
    (storage/bucket/remove_records.rs), queries (storage/bucket/query.rs), lifecycle
    tasks (lifecycle/action/progress.rs) and replications
    (replication/transaction_filter.rs). *)

From stdpp Require Import prelude strings pretty.
From Stdlib Require Import Ascii ZArith Lia.
From S2P Require Import Prelude Text Split.
Local Open Scope string_scope.

(** ** The matcher *)

(** [str::strip_prefix] and [str::strip_suffix]. *)
Fixpoint strip_prefix (p s : string) : option string :=
  match p, s with
  | EmptyString, _ => Some s
  | String c p', String d s' => if decide (c = d) then strip_prefix p' s' else None
  | String _ _, EmptyString => None
  end.
Fixpoint strip_suffix (p s : string) : option string :=
  if decide (s = p) then Some EmptyString
  else match s with
       | EmptyString => None
       | String c s' => String c <$> strip_suffix p s'
       end.

(** [rest.find(part)], and the rest behind what was found. *)
Fixpoint find_after (part rest : string) : option string :=
  match strip_prefix part rest with
  | Some t => Some t
  | None => match rest with EmptyString => None | String _ rest' => find_after part rest' end
  end.

(** The loop of [segment_matches] over the parts behind the first one. *)
Fixpoint segment_parts (pattern rest : string) (parts : list string) : bool :=
  match parts with
  | [] => ends_with pattern "*" || bool_decide (rest = EmptyString)
  | part :: parts' =>
      if decide (part = EmptyString) then segment_parts pattern rest parts'
      else match parts' with
           | [] => ends_with rest part
           | _ => match find_after part rest with
                  | None => false
                  | Some rest' => segment_parts pattern rest' parts'
                  end
           end
  end.

Definition segment_matches (entry pattern : string) : bool :=
  if decide (pattern = "**") then true
  else match split "*" pattern with
       | [] => ends_with pattern "*" || bool_decide (entry = EmptyString)
       | first :: parts =>
           if decide (first = EmptyString) then segment_parts pattern entry parts
           else match strip_prefix first entry with
                | None => false
                | Some rest => segment_parts pattern rest parts
                end
       end.

(** [matches_from]; the recursion on the pattern first, then on the entry. *)
Fixpoint matches_from (pattern_parts entry_parts : list string) : bool :=
  match pattern_parts with
  | [] => bool_decide (entry_parts = [])
  | pattern :: tail =>
      if decide (pattern = "**") then
        (fix skip (es : list string) : bool :=
           matches_from tail es || match es with [] => false | _ :: es' => skip es' end) entry_parts
      else match entry_parts with
           | [] => false
           | e :: es' => segment_matches e pattern && matches_from tail es'
           end
  end.

Definition entry_matches_pattern (entry pattern : string) : bool :=
  let pattern := trim_start_matches "/" pattern in
  if negb (contains pattern "*") then bool_decide (entry = pattern)
  else
    match (if contains pattern "/" then None else strip_suffix "*" pattern) with
    | Some prefix => starts_with entry prefix
    | None => matches_from (split "/" pattern) (split "/" entry)
    end.

(** ** System entries *)

Definition META_ENTRY_SEGMENT : string := "$meta".
Definition is_system_meta_entry (entry_name : string) : bool :=
  bool_decide (entry_name = META_ENTRY_SEGMENT) || ends_with entry_name ("/" +:+ META_ENTRY_SEGMENT).
Definition meta_entry_parent (entry_name : string) : option string :=
  base ← strip_suffix ("/" +:+ META_ENTRY_SEGMENT) entry_name;
  if decide (base = EmptyString) then None else Some base.
Definition meta_entry_name (entry_name : string) : string := entry_name +:+ "/" +:+ META_ENTRY_SEGMENT.

(** [SystemEntryBehavior]: what is left out for system entries. *)
Definition is_eligible_for_fifo_eviction (entry_name : string) : bool := negb (is_system_meta_entry entry_name).
Definition is_queryable_by_wildcard (entry_name : string) : bool := negb (is_system_meta_entry entry_name).
Definition is_removable_by_query (entry_name : string) : bool := negb (is_system_meta_entry entry_name).
Definition is_visible_in_bucket_info (entry_name : string) : bool := negb (is_system_meta_entry entry_name).
Definition validate_remove_records (entry_name : string) : outcome () :=
  if is_system_meta_entry entry_name then Err UnprocessableEntity else Ok tt.
Definition validate_remove_entry (entry_name : string) : outcome () :=
  if is_system_meta_entry entry_name then Err UnprocessableEntity else Ok tt.

(** [check_entry_name_convention] (storage/engine.rs); the regular expression
    [^[A-Za-z0-9_/-]*$] as a class of characters. *)
Definition name_char (c : ascii) : bool :=
  let n := byte c in
  bool_decide (65 ≤ n ≤ 90 ∨ 97 ≤ n ≤ 122 ∨ 48 ≤ n ≤ 57)%Z ||
  bool_decide (c = "_"%char ∨ c = "/"%char ∨ c = "-"%char).
Definition check_entry_name_convention (name : string) : outcome () :=
  if decide (name = EmptyString) then Err UnprocessableEntity
  else if starts_with name "/" || ends_with name "/" ||
          existsb (λ segment, bool_decide (segment = EmptyString)) (split "/" name)
  then Err UnprocessableEntity
  else if all_chars name_char name then Ok tt
  else if decide (name = "$meta") then Ok tt
  else match strip_suffix "/$meta" name with
       | Some parent => if all_chars name_char parent then Ok tt else Err UnprocessableEntity
       | None => Err UnprocessableEntity
       end.

(** ** Lists of patterns *)

(** [pattern.starts_with('!') && pattern.len() > 1]: an exclusion. *)
Definition is_exclusion (pattern : string) : bool :=
  starts_with pattern "!" && bool_decide (1 < String.length pattern)%nat.
Definition include_patterns (patterns : list string) : list string :=
  filter (λ p, is_exclusion p = false) patterns.
Definition exclude_patterns (patterns : list string) : list string :=
  filter (λ p, p ≠ EmptyString) (omap (strip_prefix "!") patterns).

(** [Bucket::requested_entries], [entry_matches_patterns] and [is_requested_entry]. *)
Definition requested_entries (entries : option (list string)) : option (list string) :=
  match entries with Some (p :: ps) => Some (p :: ps) | _ => None end.
Definition entry_matches_patterns (entry : string) (patterns : list string) : bool :=
  let included := match include_patterns patterns with
                  | [] => true
                  | ps => existsb (entry_matches_pattern entry) ps
                  end in
  included && negb (existsb (entry_matches_pattern entry) (exclude_patterns patterns)).
Definition is_requested_entry (entry : string) (requested : option (list string)) : bool :=
  from_option (entry_matches_patterns entry) true requested.

(** The filter of [Bucket::filter_entries]. *)
Definition is_queried (name : string) (requested : option (list string)) : bool :=
  match requested with
  | None => is_queryable_by_wildcard name
  | Some patterns =>
      let includes := include_patterns patterns in
      let included :=
        if decide ("*" ∈ includes) then is_queryable_by_wildcard name
        else if decide (includes = []) then is_queryable_by_wildcard name
        else if decide (name ∈ includes) then true
        else existsb (entry_matches_pattern name) includes && is_queryable_by_wildcard name in
      included && negb (existsb (λ p, bool_decide (p = name) || entry_matches_pattern name p)
                          (exclude_patterns patterns))
  end.

(** [TransactionFilter::entry_matches] and [entry_is_selected]. *)
Definition entry_matches (entry_filter entry_name : string) : bool :=
  let entry_filter := trim_start_matches "/" entry_filter in
  entry_matches_pattern entry_name entry_filter ||
  match meta_entry_parent entry_name with
  | Some parent => entry_matches_pattern parent entry_filter
  | None => false
  end.
Definition entry_is_selected (entries : list string) (entry_name : string) : bool :=
  match entries with
  | [] => true
  | _ =>
      let included := match include_patterns entries with
                      | [] => true
                      | ps => existsb (λ p, entry_matches p entry_name) ps
                      end in
      included && negb (existsb (λ p, entry_matches p entry_name) (exclude_patterns entries))
  end.

(** ** What a pattern means *)

(** An asterisk in a segment stands for any text. *)
Inductive glob : string → string → Prop :=
| glob_nil : glob "" ""
| glob_char c p s : c ≠ "*"%char → glob p s → glob (String c p) (String c s)
| glob_skip p s : glob p s → glob (String "*" p) s
| glob_take p c s : glob (String "*" p) s → glob (String "*" p) (String c s).

(** Two asterisks as a segment stand for any number of segments. *)
Inductive path_glob : list string → list string → Prop :=
| pg_nil : path_glob [] []
| pg_segment p ps e es : p ≠ "**" → glob p e → path_glob ps es → path_glob (p :: ps) (e :: es)
| pg_skip ps es : path_glob ps es → path_glob ("**" :: ps) es
| pg_take ps e es : path_glob ("**" :: ps) es → path_glob ("**" :: ps) (e :: es).

(** ** Strings *)

Lemma str_cons_app c s t : String c s +:+ t = String c (s +:+ t).
Proof. done. Qed.

Lemma strip_prefix_Some p s t : strip_prefix p s = Some t ↔ s = p +:+ t.
Proof.
  revert s. induction p as [|c p IH]; intros s.
  - simpl. split; [by intros [= ->]|by intros ->].
  - change (String c p +:+ t) with (String c (p +:+ t)).
    destruct s as [|d s]; simpl; [done|]. case_decide as Hd; [subst d|].
    + rewrite IH. split; [by intros ->|by intros [= ->]].
    + split; [done|by intros [= ->]].
Qed.

Lemma strip_suffix_Some p s t : strip_suffix p s = Some t ↔ s = t +:+ p.
Proof.
  revert t. induction s as [|c s IH]; intros t.
  - simpl. case_decide as Hp.
    + subst p. split; [by intros [= <-]|]. destruct t; [done|intros Heq; rewrite str_cons_app in Heq; congruence].
    + split; [done|]. destruct t; [intros Heq; by destruct Hp|intros Heq; rewrite str_cons_app in Heq; congruence].
  - cbn [strip_suffix]. case_decide as Hp.
    + subst p. split; [by intros [= <-]|]. intros Heq. destruct t as [|d t]; [done|].
      exfalso. apply (f_equal String.length) in Heq. rewrite string_length_app in Heq. simpl in Heq. lia.
    + rewrite fmap_Some. setoid_rewrite IH. split; [by intros (t' & -> & ->)|].
      destruct t as [|d t]; intros Heq; [by destruct Hp|]. rewrite str_cons_app in Heq.
      injection Heq as -> ->. by exists t.
Qed.

Lemma ends_with_iff s p : ends_with s p = true ↔ ∃ u, s = u +:+ p.
Proof.
  induction s as [|c s IH].
  - simpl. rewrite orb_false_r, bool_decide_eq_true. split; [intros <-; by exists ""|].
    intros [[|? ?] Heq]; [done|]. by rewrite str_cons_app in Heq.
  - cbn [ends_with]. rewrite orb_true_iff, bool_decide_eq_true, IH. split.
    + intros [<-|[u ->]]; [by exists ""|by exists (String c u)].
    + intros [[|d u] Heq]; [by left|]. rewrite str_cons_app in Heq. injection Heq as -> ->.
      right. by exists u.
Qed.

Lemma starts_with_iff s p : starts_with s p = true ↔ ∃ t, s = p +:+ t.
Proof.
  revert s. induction p as [|c p IH]; intros s.
  - simpl. split; [intros _; by exists s|by destruct s].
  - destruct s as [|d s]; cbn [starts_with]; [split; [done|by intros [? ?]]|]. setoid_rewrite str_cons_app.
    rewrite andb_true_iff, bool_decide_eq_true, IH. split.
    + intros [-> [t ->]]. by exists t.
    + intros [t [= -> ->]]. split; [done|]. by exists t.
Qed.

Lemma contains_single s c : contains s (String c "") = true ↔ lacks c s = false.
Proof.
  induction s as [|d s IH]; [done|]. cbn [contains starts_with].
  replace (starts_with s "") with true by (by destruct s). rewrite andb_true_r.
  unfold lacks in *. cbn [all_chars]. destruct (decide (d = c)) as [->|Hne].
  - by rewrite !bool_decide_true.
  - by rewrite !bool_decide_false by congruence.
Qed.

Lemma lacks_split c s : lacks c s = true ∨ ∃ w s', lacks c w = true ∧ s = w +:+ String c s'.
Proof.
  induction s as [|d s IH]; [by left|]. destruct (decide (d = c)) as [->|Hne].
  - right. by exists "", s.
  - destruct IH as [Hs|(w & s' & Hw & ->)]; [left; by apply lacks_cons|].
    right. exists (String d w), s'. split; [by apply lacks_cons|done].
Qed.

(** ** Segments *)

Lemma glob_star p s : glob (String "*" p) s ↔ ∃ u t, s = u +:+ t ∧ glob p t.
Proof.
  split.
  - remember (String "*" p) as q eqn:Eq. induction 1 as [|c p' s Hc H _|p' s H _|p' c s H IH]; try done.
    + by injection Eq as -> _.
    + injection Eq as ->. by exists "", s.
    + injection Eq as ->. destruct (IH eq_refl) as (u & t & -> & ?). by exists (String c u), t.
  - intros (u & t & -> & Ht). induction u as [|c u IH]; [by constructor|]. simpl. by constructor.
Qed.

Lemma glob_literal w s : lacks "*" w = true → glob w s ↔ s = w.
Proof.
  revert s. induction w as [|c w IH]; intros s Hw.
  - split; [by inversion 1|intros ->; constructor].
  - apply lacks_cons in Hw as [Hc Hw]. split.
    + inversion 1 as [|c' p s' ? Hg| |]; simplify_eq; try done. f_equal. by apply IH.
    + intros ->. constructor; [done|]. by apply IH.
Qed.

Lemma glob_prefix w p s :
  lacks "*" w = true → glob (w +:+ p) s ↔ ∃ t, strip_prefix w s = Some t ∧ glob p t.
Proof.
  setoid_rewrite strip_prefix_Some. revert s. induction w as [|c w IH]; intros s Hw.
  - split; [by exists s|by intros (t & -> & ?)].
  - apply lacks_cons in Hw as [Hc Hw]. change (String c w +:+ p) with (String c (w +:+ p)). split.
    + inversion 1 as [|c' p' s' ? Hg| |]; simplify_eq; try done.
      apply IH in Hg as (t & -> & ?); [|done]. by exists t.
    + intros (t & -> & Ht). constructor; [done|]. apply IH; [done|]. by exists t.
Qed.

(** The first occurrence leaves the longest rest. *)
Lemma find_after_longest part rest u t :
  rest = u +:+ part +:+ t → ∃ v w, find_after part rest = Some (v +:+ t) ∧ rest = w +:+ part +:+ v +:+ t.
Proof.
  revert rest. induction u as [|c u IH]; intros rest ->.
  - exists "", "". split; [|done]. change ("" +:+ ?x) with x.
    assert (strip_prefix part (part +:+ t) = Some t) as E by by apply strip_prefix_Some.
    destruct (part +:+ t); cbn [find_after]; by rewrite E.
  - change (String c u +:+ ?x) with (String c (u +:+ x)). cbn [find_after].
    destruct (strip_prefix part (String c (u +:+ part +:+ t))) as [t'|] eqn:E.
    + apply strip_prefix_Some in E.
      destruct (IH (u +:+ part +:+ t) eq_refl) as (v & w & _ & Hr).
      (* [t'] is longer than [t] and both are suffixes *)
      assert (∃ v', t' = v' +:+ t) as [v' ->].
      { assert (∀ x y a b : string, x +:+ a = y +:+ b → (String.length x ≤ String.length y)%nat → ∃ v', a = v' +:+ b)
          as Hsuf.
        { intros x. induction x as [|cx x IHx]; intros y a b Heq Hlen; [by exists y|].
          destruct y as [|cy y]; simpl in Hlen; [lia|]. injection Heq as _ Heq. apply (IHx y a b Heq). lia. }
        apply (Hsuf part (String c u +:+ part) t' t).
        - rewrite <-E. by rewrite <-string_app_assoc.
        - rewrite string_length_app. lia. }
      exists v', "". split; [done|]. done.
    + destruct (IH (u +:+ part +:+ t) eq_refl) as (v & w & Hf & Hr).
      exists v, (String c w). split; [done|]. by rewrite Hr.
Qed.

Lemma glob_star_suffix p u t : glob (String "*" p) t → glob (String "*" p) (u +:+ t).
Proof. induction u as [|c u IH]; [done|]. intros Ht. rewrite str_cons_app. apply glob_take. by apply IH. Qed.

Lemma glob_star_star p s : glob (String "*" (String "*" p)) s ↔ glob (String "*" p) s.
Proof.
  rewrite glob_star. split; [|intros Hs; by exists "", s].
  intros (u & t & -> & Ht). by apply glob_star_suffix.
Qed.

(** The loop over the parts decides the rest of the pattern, whatever precedes it. *)
Lemma segment_parts_iff n q pre rest :
  (String.length q < n)%nat →
  segment_parts (pre +:+ String "*" q) rest (split "*" q) = true ↔ glob (String "*" q) rest.
Proof.
  revert q pre rest. induction n as [|n IH]; intros q pre rest Hn; [lia|].
  destruct (lacks_split "*" q) as [Hq|(w & q' & Hw & ->)].
  - rewrite split_single by done. cbn [segment_parts]. case_decide as He.
    + subst q. rewrite (proj2 (ends_with_iff _ _)) by by exists pre. split; [|done]. intros _.
      apply glob_star. exists rest, "". split; [by rewrite string_app_nil_r|constructor].
    + rewrite ends_with_iff, glob_star. setoid_rewrite (glob_literal q); [|done]. split.
      * intros [u ->]. by exists u, q.
      * intros (u & t & -> & ->). by exists u.
  - rewrite split_piece by done. rewrite string_length_app in Hn. simpl in Hn. cbn [segment_parts].
    case_decide as He.
    + subst w. change ("" +:+ String "*" q') with (String "*" q') in *. rewrite glob_star_star.
      rewrite <-(IH q' (pre +:+ "*") rest) by (simpl in Hn; lia). by rewrite <-string_app_assoc.
    + assert (split "*" q' ≠ []) as Hne.
      { destruct q' as [|c q']; simpl; [done|]. case_decide; [done|]. by destruct (split "*" q'). }
      destruct (split "*" q') as [|x l] eqn:Es; [done|]. rewrite <-Es.
      assert (∀ r, segment_parts (pre +:+ String "*" (w +:+ String "*" q')) r (split "*" q') = true ↔
                   glob (String "*" q') r) as IH'.
      { intros r. rewrite <-(IH q' (pre +:+ String "*" w) r) by lia. by rewrite <-string_app_assoc. }
      rewrite glob_star. setoid_rewrite (glob_prefix w); [|done]. setoid_rewrite strip_prefix_Some. split.
      * destruct (find_after w rest) as [r|] eqn:Ef; [|done]. rewrite IH'. intros Hr.
        assert (∃ u, rest = u +:+ w +:+ r) as [u ->].
        { clear -Ef. induction rest as [|c rest IH]; cbn [find_after] in Ef.
          - destruct (strip_prefix w "") as [t|] eqn:E; [|done]. injection Ef as <-.
            exists "". by apply strip_prefix_Some in E.
          - destruct (strip_prefix w (String c rest)) as [t|] eqn:E.
            + injection Ef as <-. exists "". by apply strip_prefix_Some in E.
            + destruct (IH Ef) as [u ->]. by exists (String c u). }
        exists u, (w +:+ r). split; [done|]. by exists r.
      * intros (u & t & -> & r & -> & Hr).
        destruct (find_after_longest w (u +:+ w +:+ r) u r eq_refl) as (v & x' & -> & _).
        rewrite IH'. by apply glob_star_suffix.
Qed.

Lemma segment_matches_iff e p : segment_matches e p = true ↔ glob p e.
Proof.
  unfold segment_matches. case_decide as Hp.
  { subst p. split; [|done]. intros _. apply glob_star_star, glob_star. exists e, "".
    split; [by rewrite string_app_nil_r|constructor]. }
  destruct (lacks_split "*" p) as [Hl|(w & q & Hw & ->)].
  - rewrite split_single by done. rewrite glob_literal by done. case_decide as He.
    + subst p. cbn [segment_parts]. simpl. by rewrite bool_decide_eq_true.
    + destruct (strip_prefix p e) as [r|] eqn:E.
      * apply strip_prefix_Some in E as ->. cbn [segment_parts].
        assert (ends_with p "*" = false) as ->.
        { apply not_true_is_false. intros [u ->]%ends_with_iff. rewrite lacks_app in Hl.
          by apply andb_true_iff in Hl as [_ ?]. }
        simpl. rewrite bool_decide_eq_true. split; [intros ->; apply string_app_nil_r|].
        intros Heq. apply (f_equal String.length) in Heq. rewrite string_length_app in Heq.
        destruct r; [done|simpl in Heq; lia].
      * split; [done|]. intros ->. exfalso.
        assert (strip_prefix p p = Some "") as E' by (apply strip_prefix_Some; by rewrite string_app_nil_r).
        congruence.
  - rewrite split_piece by done. rewrite glob_prefix by done. case_decide as He.
    + subst w. rewrite (segment_parts_iff (S (String.length q)) q "" e) by lia.
      split; [intros Hg; by exists e|]. by intros (t & [= ->] & ?).
    + destruct (strip_prefix w e) as [r|] eqn:E.
      * rewrite (segment_parts_iff (S (String.length q)) q w r) by lia. naive_solver.
      * naive_solver.
Qed.

(** ** Paths *)

Lemma matches_from_iff ps es : matches_from ps es = true ↔ path_glob ps es.
Proof.
  revert es. induction ps as [|p ps IH]; intros es.
  - simpl. rewrite bool_decide_eq_true. split; [intros ->; constructor|by inversion 1].
  - cbn [matches_from]. case_decide as Hp.
    + subst p. induction es as [|e es IHes].
      * rewrite orb_false_r, IH. split; [by constructor|]. by inversion 1.
      * rewrite orb_true_iff, IH, IHes. split; [intros [?|?]; by constructor|]. inversion 1; naive_solver.
    + destruct es as [|e es]; [split; [done|by inversion 1]|].
      rewrite andb_true_iff, segment_matches_iff, IH. split; [intros []; by constructor|].
      inversion 1; naive_solver.
Qed.

Lemma split_nonempty sep s : ∃ w l, split sep s = w :: l.
Proof.
  destruct s as [|c s]; cbn [split]; [by eexists _, _|]. case_decide; [by eexists _, _|].
  destruct (split sep s); by eexists _, _.
Qed.

Lemma join_split sep s : join_with sep (split sep s) = s.
Proof.
  induction s as [|c s IH]; [done|]. cbn [split]. destruct (split_nonempty sep s) as (w & l & E). rewrite E in *.
  case_decide as Hc; [subst c; by rewrite join_with_cons, IH|].
  destruct l as [|w' l]; cbn [join_with] in *; by rewrite <-IH.
Qed.

Lemma literal_path ps es : Forall (λ p, lacks "*" p = true) ps → path_glob ps es ↔ es = ps.
Proof.
  intros Hps. revert es. induction Hps as [|p ps Hp Hps IH]; intros es.
  - split; [by inversion 1|intros ->; constructor].
  - split.
    + inversion 1 as [|p' ps' e es' ? Hg Hr| |]; simplify_eq; try by simpl in Hp.
      apply IH in Hr as ->. apply glob_literal in Hg as ->; done.
    + intros ->. constructor; [by intros ->|by apply glob_literal|by apply IH].
Qed.

Lemma split_lacks c sep s : lacks c s = true → Forall (λ p, lacks c p = true) (split sep s).
Proof.
  induction s as [|d s IH]; intros Hs; [by repeat constructor|]. apply lacks_cons in Hs as [Hd Hs].
  specialize (IH Hs). cbn [split]. case_decide; [by constructor|].
  destruct (split sep s) as [|w l]; [repeat constructor; by apply lacks_cons|].
  apply Forall_cons in IH as [Hw Hl]. constructor; [by apply lacks_cons|done].
Qed.

(** ** The whole pattern *)

(** A pattern without a slash whose only asterisk is at its end is a prefix, of
    the whole name; any other pattern is matched segment by segment. *)
Definition pattern_spec (entry pattern : string) : Prop :=
  let p := trim_start_matches "/" pattern in
  match strip_suffix "*" p with
  | Some w => if lacks "/" w && lacks "*" w then starts_with entry w = true
              else path_glob (split "/" p) (split "/" entry)
  | None => path_glob (split "/" p) (split "/" entry)
  end.

(** Without a slash, and with an asterisk before the one at the end. *)
Definition inner_wildcard (pattern : string) : bool :=
  match strip_suffix "*" (trim_start_matches "/" pattern) with
  | Some w => lacks "/" w && negb (lacks "*" w)
  | None => false
  end.

Lemma contains_lacks s c : contains s (String c "") = negb (lacks c s).
Proof.
  destruct (contains s (String c "")) eqn:E; [by apply contains_single in E as ->|].
  destruct (lacks c s) eqn:El; [done|]. by apply contains_single in El; rewrite E in El.
Qed.

(** C30: The patterns that select entries mean what they say.  A pattern without
    asterisks selects the entry of that name; a pattern that is a name followed by
    one asterisk, without slashes, selects every entry whose name starts so; any
    other pattern selects the entries whose path matches it segment by segment,
    where an asterisk stands for any text inside a segment and a segment of two
    asterisks for any number of segments.  The one exception are patterns without
    a slash that end in an asterisk and have another one before it. *)
Theorem entry_pattern_correct (entry pattern : string) :
  inner_wildcard pattern = false →
  entry_matches_pattern entry pattern = true ↔ pattern_spec entry pattern.
Proof.
  unfold inner_wildcard, entry_matches_pattern, pattern_spec.
  set (p := trim_start_matches "/" pattern). rewrite !contains_lacks, negb_involutive. intros Hin.
  destruct (strip_suffix "*" p) as [w|] eqn:Es.
  - apply strip_suffix_Some in Es. assert (lacks "*" p = false) as ->
      by (rewrite Es, lacks_app; by rewrite andb_false_r).
    assert (lacks "/" p = lacks "/" w) as -> by (rewrite Es, lacks_app; by rewrite andb_true_r).
    destruct (lacks "/" w); simpl in *.
    + apply negb_false_iff in Hin as ->. done.
    + apply matches_from_iff.
  - destruct (lacks "*" p) eqn:El.
    + rewrite bool_decide_eq_true, literal_path by by apply split_lacks. split; [by intros ->|].
      intros Heq. by rewrite <-(join_split "/" entry), <-(join_split "/" p), Heq.
    + replace (if negb (lacks "/" p) then None else None) with (@None string) by (by destruct (lacks "/" p)).
      apply matches_from_iff.
Qed.

Lemma starts_with_lacks c entry w : starts_with entry w = true → lacks c entry = true → lacks c w = true.
Proof. intros [t ->]%starts_with_iff Hl. rewrite lacks_app in Hl. by apply andb_true_iff in Hl as [? _]. Qed.

(** What names have not: characters outside of their class. *)
Lemma name_lacks c name :
  name_char c = false → lacks c "/$meta" = true → check_entry_name_convention name = Ok tt → lacks c name = true.
Proof.
  intros Hc Hm.
  assert (∀ s, all_chars name_char s = true → lacks c s = true) as Hchars.
  { intros s. apply all_chars_impl. intros d Hd. apply negb_true_iff, bool_decide_eq_false. congruence. }
  unfold check_entry_name_convention. case_decide; [done|]. destruct (_ || _); [done|].
  destruct (all_chars name_char name) eqn:E1; [intros _; by apply Hchars|].
  case_decide; [subst; by apply lacks_cons in Hm as [_ ?]|].
  destruct (strip_suffix "/$meta" name) as [parent|] eqn:E2; [|done].
  apply strip_suffix_Some in E2 as ->. destruct (all_chars name_char parent) eqn:E3; [|done].
  intros _. rewrite lacks_app. by rewrite Hchars, Hm.
Qed.

Lemma name_lacks_star name : check_entry_name_convention name = Ok tt → lacks "*" name = true.
Proof. by apply name_lacks. Qed.

(** A pattern without a slash that ends in an asterisk takes its other asterisks
    literally, so it selects no entry at all (a valid name has no asterisk); two
    asterisks alone, which as a segment stand for any path, select nothing. *)
Theorem inner_wildcard_selects_nothing (entry pattern : string) :
  inner_wildcard pattern = true → check_entry_name_convention entry = Ok tt →
  entry_matches_pattern entry pattern = false ∧
  inner_wildcard "**" = true ∧ path_glob (split "/" "**") (split "/" entry).
Proof.
  intros Hin Hl%name_lacks_star. split; [|split; [done|]].
  - unfold inner_wildcard, entry_matches_pattern in *. set (p := trim_start_matches "/" pattern) in *.
    destruct (strip_suffix "*" p) as [w|] eqn:Es; [|done]. apply strip_suffix_Some in Es.
    apply andb_true_iff in Hin as [Hslash Hstar]. apply negb_true_iff in Hstar.
    rewrite !contains_lacks. assert (lacks "*" p = false) as -> by (rewrite Es, lacks_app; by rewrite andb_false_r).
    assert (lacks "/" p = true) as -> by (rewrite Es, lacks_app; by rewrite Hslash).
    simpl. apply not_true_is_false. intros Hs. apply (starts_with_lacks "*") in Hs; [|done]. congruence.
  - change (path_glob ["**"] (split "/" entry)). induction (split "/" entry) as [|e es IH].
    + apply pg_skip. constructor.
    + by apply pg_take.
Qed.

(** ** Witnesses *)

Lemma entry_pattern_correct_witness :
  inner_wildcard "/a/**/s*-t" = false ∧
  (entry_matches_pattern "a/x/y/s1-t" "/a/**/s*-t" = true ↔ pattern_spec "a/x/y/s1-t" "/a/**/s*-t") ∧
  entry_matches_pattern "a/x/y/s1-t" "/a/**/s*-t" = true.
Proof.
  split; [done|]. split; [apply (entry_pattern_correct "a/x/y/s1-t" "/a/**/s*-t"); done|by vm_compute].
Defined.

Lemma inner_wildcard_selects_nothing_witness :
  inner_wildcard "cam*-rgb*" = true ∧ entry_matches_pattern "cam1-rgb2" "cam*-rgb*" = false.
Proof.
  split; [done|]. apply (inner_wildcard_selects_nothing "cam1-rgb2" "cam*-rgb*"); done.
Defined.
