(* ===== verification/MultiQuery.v ===== *)
(** * MultiQuery: queries over several entries
    (storage/bucket/query.rs, the task of storage/query.rs)

    A query of an entry runs in a task that puts the records into a channel.  A query of a
    bucket starts one for each selected entry and merges their channels in a task of its own:
    it holds at most one record of each entry, and passes the earliest of them on.

    The tasks run at the same time.  What a channel answers over time is an argument: a list
    of messages and of answers that there is none yet ([REmpty]); behind its end the channel
    is closed. *)

From stdpp Require Import prelude gmap strings sorting.
From Stdlib Require Import ZArith Lia.
From S2P Require Import Prelude Collections Text Filters Pattern.
Open Scope Z_scope.

(** ** The task of a query (storage/query.rs) *)

Definition MIN_FULL_CHANNEL_SLEEP : Z := 10.
Definition MAX_FULL_CHANNEL_SLEEP : Z := 10000.

Record QueryWatcher := mkWatcher { full_channel_sleep : Z; last_send_time : Z }.
Definition watcher_new (now : Z) : QueryWatcher := mkWatcher MIN_FULL_CHANNEL_SLEEP now.
Definition watcher_expired (ttl now : Z) (w : QueryWatcher) : bool :=
  bool_decide (ttl < Z.max 0 (now - last_send_time w)).
(** How long to sleep, and the next state. *)
Definition full_channel (w : QueryWatcher) : Z * QueryWatcher :=
  (full_channel_sleep w,
   mkWatcher ((full_channel_sleep w + MIN_FULL_CHANNEL_SLEEP) `min` MAX_FULL_CHANNEL_SLEEP) (last_send_time w)).
Definition send_success (now : Z) (w : QueryWatcher) : QueryWatcher :=
  let sleep := if decide (MIN_FULL_CHANNEL_SLEEP < full_channel_sleep w)
               then full_channel_sleep w - MIN_FULL_CHANNEL_SLEEP else full_channel_sleep w in
  mkWatcher (sleep `max` MIN_FULL_CHANNEL_SLEEP) now.

(** What a turn of the task meets: whether the receiver is gone, the time, whether the
    channel is full, and when the result is sent ([None]: the receiver is gone by then). *)
Record TaskTurn := mkTaskTurn { tt_closed : bool; tt_now : Z; tt_full : bool; tt_sent : option Z }.

Section Task.
Context {S X : Type} (next : S → outcome X * S) (continuous : bool) (ttl : Z).

(** [spawn_query_task]: the messages, and whether the task has ended. *)
Fixpoint query_task (turns : list TaskTurn) (w : QueryWatcher) (s : S) : list (outcome X) * bool :=
  match turns with
  | [] => ([], false)
  | t :: turns' =>
      if tt_closed t then ([], true)
      else if watcher_expired ttl (tt_now t) w && negb continuous then ([], true)
      else
        let w := if tt_full t then (full_channel w).2 else w in
        let '(r, s') := next s in
        match r, tt_sent t with
        | Panic, _ | _, None => ([], true)
        | Ok x, Some now =>
            let '(l, ended) := query_task turns' (send_success now w) s' in (Ok x :: l, ended)
        | Err e, Some now =>
            if bool_decide (e = NoContent) && continuous then
              let '(l, ended) := query_task turns' (send_success now w) s' in (Err e :: l, ended)
            else ([Err e], true)
        end
  end.
End Task.

(** ** The merging of the channels ([Bucket::aggregate]) *)

Section Aggregate.
Context {X : Type} (timestamp : X → Z).

(** A reader has the name of its entry ([meta().entry_name()]). *)
Abbreviation Reader := (string * X)%type.

(** The answers of [try_recv]; [RLocked] is a lock that is not had in time. *)
Inductive TryRecv : Type :=
| RRecord (r : Reader)
| RError (e : ErrorCode)
| REmpty
| RLocked.

Record Aggregator := mkAggregator {
  ag_receivers : gmap string (list TryRecv);
  ag_pending : gmap string (option Reader);
  ag_completed : gset string;
  ag_sent : list (outcome Reader)
}.
Definition with_receivers m a := mkAggregator m (ag_pending a) (ag_completed a) (ag_sent a).
Definition with_pending m a := mkAggregator (ag_receivers a) m (ag_completed a) (ag_sent a).
Definition with_completed c a := mkAggregator (ag_receivers a) (ag_pending a) c (ag_sent a).
Definition sending (m : outcome Reader) a := mkAggregator (ag_receivers a) (ag_pending a) (ag_completed a) (ag_sent a ++ [m]).

Definition pending_of (name : string) (a : Aggregator) : option Reader := mjoin (ag_pending a !! name).
Definition answers_of (name : string) (a : Aggregator) : list TryRecv := default [] (ag_receivers a !! name).
(** The first answer is used up. *)
Definition received (name : string) (a : Aggregator) : Aggregator :=
  with_receivers (alter tail name (ag_receivers a)) a.

(** One receiver, and the loop over the receivers, which an error ends. *)
Definition receive_one (name : string) (a : Aggregator) : option ErrorCode * Aggregator :=
  match pending_of name a with
  | Some _ => (None, a)
  | None =>
      if decide (name ∈ ag_completed a) then (None, a)
      else
        let a' := received name a in
        match answers_of name a with
        | RRecord r :: _ => (None, with_pending (<[name := Some r]> (ag_pending a')) a')
        | RError e :: _ => if decide (e = NoContent) then (None, a') else (Some e, a')
        | REmpty :: _ => (None, a')
        | RLocked :: _ => (Some InternalServerError, a')
        | [] => (None, with_completed ({[name]} ∪ ag_completed a) a)
        end
  end.
Fixpoint receive_all (names : list string) (a : Aggregator) : option ErrorCode * Aggregator :=
  match names with
  | [] => (None, a)
  | name :: rest =>
      match receive_one name a with
      | (None, a') => receive_all rest a'
      | (Some e, a') => (Some e, a')
      end
  end.

(** The order of the records: by time, then by the name of the entry. *)
Definition before (a b : Reader) : Prop :=
  timestamp a.2 < timestamp b.2 ∨ timestamp a.2 = timestamp b.2 ∧ str_le a.1 b.1.
#[global] Instance before_dec a b : Decision (before a b).
Proof. unfold before. apply _. Defined.

(** [min_by] over the pending readers, which are listed in any order. *)
Definition earlier (a b : string * Reader) : Prop := before (a.1, a.2.2) (b.1, b.2.2).
#[global] Instance earlier_dec a b : Decision (earlier a b).
Proof. unfold earlier. apply _. Defined.
Definition least (l : list (string * Reader)) : option (string * Reader) :=
  foldl (λ best x, match best with
                   | Some b => if decide (earlier b x) then Some b else Some x
                   | None => Some x
                   end) None l.
Definition next_entry `{HashIter} (a : Aggregator) : option (string * Reader) :=
  least (omap (λ nr, (nr.1,.) <$> nr.2) (hash_iter (ag_pending a))).

(** A turn; [sent_ok] is whether the receiver of the results is still there when something is
    sent.  The result says whether the loop goes on.  Sleeping has no effect. *)
Definition aggregate_turn `{HashIter} (names : list string) (sent_ok : bool) (a : Aggregator) : bool * Aggregator :=
  let send m a := if sent_ok then sending m a else a in
  match receive_all names a with
  | (Some e, a) => (false, send (Err e) a)
  | (None, a) =>
      if decide (size (ag_completed a) = size (ag_receivers a) ∧ map_Forall (λ _ r, r = None) (ag_pending a))
      then (false, send (Err NoContent) a)
      else
        match next_entry a with
        | Some (name, r) =>
            let a := with_pending (<[name := None]> (ag_pending a)) a in
            (sent_ok, send (Ok r) a)
        | None => (true, a)
        end
  end.

(** [aggregate]; for each turn, whether the receiver is there when the turn begins and when
    something is sent.  [None]: the loop goes on. *)
Fixpoint aggregate_loop `{HashIter} (names : list string) (turns : list (bool * bool)) (a : Aggregator) : option Aggregator :=
  match turns with
  | [] => None
  | (open, sent_ok) :: turns' =>
      if open then
        let '(go, a') := aggregate_turn names sent_ok a in
        if go then aggregate_loop names turns' a' else Some a'
      else Some a
  end.
Definition aggregate `{HashIter} (receivers : gmap string (list TryRecv)) (turns : list (bool * bool)) : option (list (outcome Reader)) :=
  ag_sent <$> aggregate_loop (hash_iter receivers).*1 turns (mkAggregator receivers ∅ ∅ []).

(** ** The queries of a bucket *)

Record MultiEntryQuery := mkMultiEntryQuery {
  mq_receivers : gmap string (list TryRecv);
  mq_io_settings : IoConfig;
  mq_ttl : Z;
  mq_last_access : Z
}.

(** The counter of [next_query_id] and the queries. *)
Record Queries := mkQueries { qs_next_id : Z; qs_queries : gmap Z MultiEntryQuery }.
Definition next_query_id : ST Queries Z := λ q, (Ok (qs_next_id q), mkQueries (u64_add (qs_next_id q) 1) (qs_queries q)).

(** [filter_entries]: the selected ones in the order of their names. *)
Definition filter_entries (requested : option (list string)) (entries : list string) : list string :=
  List.filter (λ name, is_queried name requested) entries.

(** [entry.query] for each entry; the first error ends it.  The channel of a query and its
    settings come from the entry. *)
Fixpoint query_entries (entry_query : string → ST Queries (list TryRecv * IoConfig)) (names : list string)
    (m : gmap string (list TryRecv * IoConfig)) : ST Queries (gmap string (list TryRecv * IoConfig)) :=
  match names with
  | [] => mret m
  | name :: rest => rx ← entry_query name; query_entries entry_query rest (<[name := rx]> m)
  end.

(** [init_aggregator]: the settings are those of the first query. *)
Definition init_aggregator `{HashIter} (io_default : IoConfig) (m : gmap string (list TryRecv * IoConfig)) : gmap string (list TryRecv) * IoConfig :=
  (fst <$> m, from_option (λ nx, nx.2.2) io_default (head (hash_iter m))).

(** [Bucket::query]. *)
Definition bucket_query `{HashIter} (entry_query : string → ST Queries (list TryRecv * IoConfig)) (io_default : IoConfig)
    (requested : option (list string)) (entries : list string) (ttl now : Z) : ST Queries Z :=
  id ← next_query_id;
  m ← query_entries entry_query (filter_entries requested entries) ∅;
  let '(receivers, io) := init_aggregator io_default m in
  _ ← st_modify (λ q, mkQueries (qs_next_id q) (<[id := mkMultiEntryQuery receivers io ttl now]> (qs_queries q)));
  mret id.

(** [remove_expired_query] and [get_query_receiver]. *)
Definition alive (now : Z) (q : MultiEntryQuery) : Prop := Z.max 0 (now - mq_last_access q) < mq_ttl q.
#[global] Instance alive_dec now q : Decision (alive now q).
Proof. unfold alive. apply _. Defined.
Definition remove_expired_query (now : Z) (q : Queries) : Queries :=
  mkQueries (qs_next_id q) (filter (λ iq, alive now iq.2) (qs_queries q)).
Definition get_query_receiver (now : Z) (id : Z) : ST Queries (gmap string (list TryRecv) * IoConfig) :=
  _ ← st_modify (remove_expired_query now);
  q ← st_get;
  mq ← st_lift (ok_or NotFound (qs_queries q !! id));
  _ ← st_modify (λ q, mkQueries (qs_next_id q)
        (<[id := mkMultiEntryQuery (mq_receivers mq) (mq_io_settings mq) (mq_ttl mq) now]> (qs_queries q)));
  mret (mq_receivers mq, mq_io_settings mq).
End Aggregate.
Arguments TryRecv X : clear implicits.
Arguments Aggregator X : clear implicits.
Arguments Queries X : clear implicits.
