(* ===== verification/MultiQueryMerge.v ===== *)
(** * MultiQueryMerge: what a query over several entries returns

    The state of the merging task is looked at entry by entry ([View]): the record that is
    held, what the channel will answer, whether it is closed.  A turn moves every view one
    step, and takes the earliest held record away. *)

From stdpp Require Import prelude gmap strings sorting fin_map_dom.
From Stdlib Require Import ZArith Lia.
From S2P Require Import Prelude Collections Text Filters Pattern MultiQuery.
Open Scope Z_scope.

Section Merge.
Context {X : Type} (timestamp : X → Z) `{HashIter} `{!HashIterLaws}.
Abbreviation Reader := (string * X)%type.
Abbreviation before := (before timestamp).

(** ** One entry *)

(** The records among the answers of a channel. *)
Definition channel_records (l : list (TryRecv X)) : list Reader :=
  omap (λ m, match m with RRecord r => Some r | _ => None end) l.
(** No error but [NoContent]. *)
Definition benign (l : list (TryRecv X)) : Prop :=
  Forall (λ m, match m with RError e => e = NoContent | RLocked => False | _ => True end) l.

Record View := mkView { v_pending : option Reader; v_answers : list (TryRecv X); v_done : bool }.
Definition view (a : Aggregator X) (name : string) : View :=
  mkView (pending_of name a) (answers_of name a) (bool_decide (name ∈ ag_completed a)).

Definition step_view (v : View) : View :=
  match v with
  | mkView None [] false => mkView None [] true
  | mkView None (RRecord r :: l) false => mkView (Some r) l false
  | mkView None (_ :: l) false => mkView None l false
  | _ => v
  end.
Definition content (v : View) : list Reader := option_list (v_pending v) ++ channel_records (v_answers v).
Definition weight (v : View) : nat :=
  2 * length (v_answers v) + (if v_done v then 0 else 1) + (if v_pending v then 1 else 0).
Definition view_ok (name : string) (v : View) : Prop :=
  benign (v_answers v) ∧ Forall (λ r, r.1 = name) (content v) ∧ (v_done v = true → v_pending v = None ∧ v_answers v = []).

Lemma step_content v : content (step_view v) = content v.
Proof. destruct v as [[r|] [|[]] []]; done. Qed.
Lemma step_weight v : (weight (step_view v) ≤ weight v)%nat.
Proof. destruct v as [[r|] [|[]] []]; unfold weight; simpl; lia. Qed.
Lemma step_progress v : v_pending (step_view v) = None → v_done (step_view v) = false → (weight (step_view v) < weight v)%nat.
Proof. destruct v as [[r|] [|[]] []]; unfold weight; simpl; intros; try done; lia. Qed.
Lemma step_ok name v : view_ok name v → view_ok name (step_view v).
Proof.
  intros (Hb & Ht & Hd). split_and!; [|by rewrite step_content|].
  - destruct v as [[r|] [|[]] []]; simpl in *; try done; by apply Forall_cons in Hb as [? ?].
  - destruct v as [[r|] [|[]] []]; simpl in *; try done; by destruct Hd.
Qed.

(** ** All entries *)

Lemma receive_one_view a name :
  name ∈ dom (ag_receivers a) → benign (answers_of name a) →
  ∃ a', receive_one name a = (None, a') ∧ ag_sent a' = ag_sent a ∧ dom (ag_receivers a') = dom (ag_receivers a) ∧
    (∀ n, view a' n = if decide (n = name) then step_view (view a n) else view a n).
Proof.
  intros Hin Hb. unfold receive_one. destruct (pending_of name a) as [r|] eqn:Hp.
  { eexists. split_and!; [done..|]. intros n. case_decide as E; [|done]. subst. unfold view. by rewrite Hp. }
  case_decide as Hc.
  { eexists. split_and!; [done..|]. intros n. case_decide as E; [|done]. subst. unfold view.
    rewrite Hp, bool_decide_true by done. by destruct (answers_of name a) as [|[]]. }
  assert (∀ n, answers_of n (received name a) = if decide (n = name) then tail (answers_of n a) else answers_of n a) as Hr.
  { intros n. unfold answers_of. simpl. case_decide as E; [subst; rewrite lookup_alter_eq; by destruct (ag_receivers a !! name)|].
    by rewrite lookup_alter_ne. }
  destruct (answers_of name a) as [|m l] eqn:El.
  - eexists. split_and!; [done..|]. intros n. unfold view, with_completed, pending_of, answers_of in *. simpl.
    case_decide as E.
    + subst. by rewrite Hp, El, (bool_decide_false (name ∈ ag_completed a)), bool_decide_true by set_solver.
    + f_equal. apply bool_decide_ext. set_solver.
  - assert (∀ n, view (received name a) n = if decide (n = name) then mkView None l false else view a n) as Hv.
    { intros n. unfold view. rewrite Hr. unfold received, pending_of in *. simpl. case_decide as E; [|done]. subst.
      by rewrite Hp, El, bool_decide_false. }
    apply Forall_cons in Hb as [Hm _]. destruct m as [r|e| |]; [|subst e; rewrite decide_True by done| |done].
    all: eexists; split_and!; [done..|by simpl; rewrite dom_alter_L|].
    2,3: intros n; rewrite Hv; case_decide; [subst; unfold view; by rewrite Hp, El, bool_decide_false|done].
    intros n. specialize (Hv n). unfold view, pending_of, answers_of, with_pending in *. simpl in *. case_decide as E.
    + subst. rewrite lookup_insert_eq. simpl. injection Hv as _ -> ->. by rewrite Hp, El.
    + by rewrite lookup_insert_ne.
Qed.

Lemma receive_all_view names a :
  NoDup names → (∀ n, n ∈ names → n ∈ dom (ag_receivers a) ∧ benign (answers_of n a)) →
  ∃ a', receive_all names a = (None, a') ∧ ag_sent a' = ag_sent a ∧ dom (ag_receivers a') = dom (ag_receivers a) ∧
    (∀ n, view a' n = if decide (n ∈ names) then step_view (view a n) else view a n).
Proof.
  revert a. induction names as [|name names IH]; intros a Hnd Hin.
  { eexists. split_and!; [done..|]. intros n. by rewrite decide_False by (by apply not_elem_of_nil). }
  apply NoDup_cons in Hnd as [Hn Hnd]. destruct (Hin name) as [Hdom Hb]; [by left|].
  destruct (receive_one_view a name Hdom Hb) as (a1 & E1 & Hs1 & Hd1 & Hv1). simpl. rewrite E1.
  destruct (IH a1 Hnd) as (a2 & E2 & Hs2 & Hd2 & Hv2).
  { intros n Hn'. rewrite Hd1. destruct (Hin n) as [? Hb']; [by right|]. split; [done|].
    specialize (Hv1 n). rewrite decide_False in Hv1 by (by intros ->). unfold view in Hv1. by injection Hv1 as _ -> _. }
  exists a2. rewrite E2, Hs2, Hd2. split_and!; [done..|]. intros n. rewrite Hv2, Hv1.
  destruct (decide (n = name)) as [->|Hne].
  - by rewrite (decide_False (P := name ∈ names)), (decide_True (P := name ∈ _ :: _)) by (done || by left).
  - destruct (decide (n ∈ names)); [by rewrite decide_True by (by right)|].
    rewrite decide_False; [done|]. by intros [?|?]%elem_of_cons.
Qed.

(** What is picked is the earliest of the held records. *)
Lemma before_refl r : before r r.
Proof. right. split; [done|]. by destruct (str_le_total r.1 r.1). Qed.
Lemma before_trans r1 r2 r3 : before r1 r2 → before r2 r3 → before r1 r3.
Proof. intros [?|[? Hs1]] [?|[? Hs2]]; [left; lia..|]. right. split; [lia|]. by eapply str_cmp_trans. Qed.
Lemma before_total r1 r2 : before r1 r2 ∨ before r2 r1.
Proof.
  unfold MultiQuery.before. destruct (Z.lt_total (timestamp r1.2) (timestamp r2.2)) as [?|[?|?]]; [by left; left| |by right; left].
  destruct (str_le_total r1.1 r2.1); [left|right]; right; done.
Qed.

Lemma least_spec (l : list (string * Reader)) :
  match least timestamp l with
  | Some x => x ∈ l ∧ ∀ y, y ∈ l → earlier timestamp x y
  | None => l = []
  end.
Proof.
  unfold least. induction l as [|y l IH] using rev_ind; [done|]. rewrite foldl_app. simpl.
  destruct (foldl _ _ l) as [x|].
  - destruct IH as [Hx Hmin]. case_decide as E.
    + split; [set_solver|]. intros z [Hz|Hz%list_elem_of_singleton]%elem_of_app; [by apply Hmin|by subst].
    + split; [set_solver|]. unfold earlier in *. destruct (before_total (x.1, x.2.2) (y.1, y.2.2)) as [?|Hyx]; [done|].
      intros z [Hz|Hz%list_elem_of_singleton]%elem_of_app; [|subst; apply before_refl]. eapply before_trans; [done|]. by apply Hmin.
  - subst. split; [set_solver|]. intros z Hz%list_elem_of_singleton. subst. apply before_refl.
Qed.

Lemma elem_of_pending a n r :
  (n, r) ∈ omap (λ nr : string * option Reader, (nr.1,.) <$> nr.2) (hash_iter (ag_pending a)) ↔ pending_of n a = Some r.
Proof.
  unfold pending_of. rewrite list_elem_of_omap. split.
  - intros ([n' [r'|]] & Hin & E); [|done]. simpl in E. injection E as -> ->. apply elem_of_hash_iter in Hin. by rewrite Hin.
  - destruct (ag_pending a !! n) as [o|] eqn:Ho; [|done]. simpl. intros ->. exists (n, Some r). by rewrite elem_of_hash_iter.
Qed.

Lemma next_entry_spec a :
  match next_entry timestamp a with
  | Some (n, r) => pending_of n a = Some r ∧ ∀ n' r', pending_of n' a = Some r' → before (n, r.2) (n', r'.2)
  | None => ∀ n, pending_of n a = None
  end.
Proof.
  unfold next_entry. pose proof (least_spec (omap (λ nr : string * option Reader, (nr.1,.) <$> nr.2) (hash_iter (ag_pending a)))) as Hl.
  destruct (least _ _) as [[n r]|].
  - destruct Hl as [Hin Hmin]. split; [by apply elem_of_pending|]. intros n' r' Hp. by apply (Hmin (n', r')), elem_of_pending.
  - intros n. destruct (pending_of n a) as [r|] eqn:E; [|done]. apply elem_of_pending in E. rewrite Hl in E. by apply not_elem_of_nil in E.
Qed.

Lemma sum_list_le {A} (f g : A → nat) l : (∀ x, x ∈ l → (f x ≤ g x)%nat) → (sum_list (f <$> l) ≤ sum_list (g <$> l))%nat.
Proof.
  induction l as [|y l IH]; intros Hle; csimpl; [done|].
  apply Nat.add_le_mono; [apply Hle; by left|apply IH; intros; apply Hle; by right].
Qed.
Lemma sum_list_lt {A} (f g : A → nat) l x :
  x ∈ l → (f x < g x)%nat → (∀ x, x ∈ l → (f x ≤ g x)%nat) → (sum_list (f <$> l) < sum_list (g <$> l))%nat.
Proof.
  induction l as [|y l IH]; intros Hin Hlt Hle; [by apply not_elem_of_nil in Hin|]. csimpl.
  apply elem_of_cons in Hin as [->|Hin].
  - apply Nat.add_lt_le_mono; [done|]. apply sum_list_le. intros; apply Hle; by right.
  - apply Nat.add_le_lt_mono; [apply Hle; by left|]. apply IH; [done..|]. intros; apply Hle; by right.
Qed.

(** ** A turn *)

Context (names : list string) (Hnames : NoDup names) (records : string → list Reader).

(** What was passed on, what is held and what will come are the records of each entry. *)
Record tracked (out : list Reader) (a : Aggregator X) : Prop := {
  tr_sent : ag_sent a = Ok <$> out;
  tr_dom : dom (ag_receivers a) = list_to_set names;
  tr_others n : n ∉ names → v_pending (view a n) = None ∧ v_done (view a n) = false;
  tr_views n : n ∈ names → view_ok n (view a n);
  tr_content n : n ∈ names → filter (λ r, r.1 = n) out ++ content (view a n) = records n;
  tr_out : Forall (λ r, r.1 ∈ names) out
}.
Definition measure (a : Aggregator X) : nat := sum_list ((λ n, weight (view a n)) <$> names).

Lemma tracked_received out a : tracked out a →
  ∃ a', receive_all names a = (None, a') ∧ tracked out a' ∧ (∀ n, n ∈ names → view a' n = step_view (view a n)).
Proof.
  intros [Hs Hd Ho Hv Hc Hout]. destruct (receive_all_view names a Hnames) as (a' & E & Hs' & Hd' & Hv').
  { intros n Hn. rewrite Hd. split; [set_solver|]. by destruct (Hv n Hn). }
  assert (∀ n, n ∈ names → view a' n = step_view (view a n)) as Hstep by (intros n Hn; by rewrite Hv', decide_True).
  exists a'. split_and!; [done| |done]. split; [by rewrite Hs'|by rewrite Hd'| | | |done].
  - intros n Hn. rewrite Hv', decide_False by done. by apply Ho.
  - intros n Hn. rewrite Hstep by done. apply step_ok; auto.
  - intros n Hn. rewrite Hstep, step_content by done. auto.
Qed.

Lemma tracked_end out a : tracked out a →
  (size (ag_completed a) = size (ag_receivers a) ∧ map_Forall (λ _ r, r = None) (ag_pending a)) ↔
  ∀ n, n ∈ names → v_done (view a n) = true.
Proof.
  intros [Hs Hd Ho Hv Hc Hout]. assert (ag_completed a ⊆ dom (ag_receivers a)) as Hsub.
  { intros n Hn. rewrite Hd. apply elem_of_list_to_set. destruct (decide (n ∈ names)) as [|Hn']; [done|].
    destruct (Ho n Hn') as [_ Hf]. simpl in Hf. by apply bool_decide_eq_false in Hf. }
  rewrite <- (size_dom (ag_receivers a)). split.
  - intros [Hsz _] n Hn. simpl. apply bool_decide_eq_true. assert (dom (ag_receivers a) ⊆ ag_completed a) as Hsup.
    { apply set_subseteq_size_eq in Hsub; [set_solver|lia]. }
    apply Hsup. rewrite Hd. by apply elem_of_list_to_set.
  - intros Hall. assert (ag_completed a = dom (ag_receivers a)) as ->.
    { apply leibniz_equiv. split; [apply Hsub|]. rewrite Hd. intros Hx%elem_of_list_to_set. by apply Hall, bool_decide_eq_true in Hx. }
    split; [done|]. intros n o Hp. assert (pending_of n a = o) as <- by (unfold pending_of; by rewrite Hp).
    destruct (decide (n ∈ names)) as [Hn|Hn]; [|by apply Ho]. by apply (Hv n Hn), Hall.
Qed.

(** A held record is passed on. *)
Lemma tracked_sent out a name r :
  tracked out a → name ∈ names → pending_of name a = Some r →
  let a' := sending (Ok r) (with_pending (<[name := None]> (ag_pending a)) a) in
  r.1 = name ∧ tracked (out ++ [r]) a' ∧
  (∀ n, view a' n = if decide (n = name) then mkView None (v_answers (view a n)) (v_done (view a n)) else view a n).
Proof.
  intros [Hs Hd Ho Hv Hc Hout] Hin Hp a'.
  assert (∀ n, view a' n = if decide (n = name) then mkView None (v_answers (view a n)) (v_done (view a n)) else view a n) as Hview.
  { intros n. unfold view, pending_of, a'. simpl. case_decide as E; [subst; by rewrite lookup_insert_eq|by rewrite lookup_insert_ne]. }
  assert (content (view a name) = r :: content (view a' name)) as Hr.
  { rewrite Hview, decide_True by done. unfold content. simpl. by rewrite Hp. }
  assert (r.1 = name) as Hname. { destruct (Hv name Hin) as (_ & Ht & _). rewrite Hr in Ht. by apply Forall_cons in Ht as [? _]. }
  split_and!; [done| |done]. split.
  - unfold a'. simpl. by rewrite Hs, fmap_app.
  - done.
  - intros n Hn. rewrite Hview, decide_False by (by intros ->). by apply Ho.
  - intros n Hn. destruct (Hv n Hn) as (Hb & Ht & Hdone). rewrite Hview. case_decide as E; [subst n|done].
    rewrite Hr in Ht. apply Forall_cons in Ht as [_ Ht]. rewrite Hview, decide_True in Ht by done. split_and!; [done..|].
    intros Hd'. by destruct (Hdone Hd') as [_ ?].
  - intros n Hn. rewrite filter_app, <- (Hc n Hn), <- app_assoc. f_equal. destruct (decide (n = name)) as [->|Hne].
    + rewrite Hr. by rewrite filter_cons_True, filter_nil by done.
    + rewrite filter_cons_False, filter_nil by congruence. by rewrite Hview, decide_False.
  - apply Forall_app. split; [done|]. apply Forall_singleton. by rewrite Hname.
Qed.

Lemma turn_spec out a : tracked out a →
  ∃ a', (aggregate_turn timestamp names true a = (false, a') ∧ ag_sent a' = (Ok <$> out) ++ [Err NoContent] ∧
           (∀ n, n ∈ names → filter (λ r, r.1 = n) out = records n)) ∨
        (aggregate_turn timestamp names true a = (true, a') ∧ (measure a' < measure a)%nat ∧ ∃ more, tracked (out ++ more) a' ∧
           (∀ n, n ∈ names → v_answers (view a' n) = v_answers (step_view (view a n))) ∧
           (∀ n, n ∈ names → more = [] → v_pending (step_view (view a n)) = None) ∧
           Forall (λ r, ∀ n r', n ∈ names → v_pending (step_view (view a n)) = Some r' → before r r') more ∧ (length more ≤ 1)%nat).
Proof.
  intros Ht. destruct (tracked_received out a Ht) as (a1 & E & Ht1 & Hstep). unfold aggregate_turn. rewrite E.
  case_decide as Hend.
  { rewrite (tracked_end out a1 Ht1) in Hend. eexists. left. split_and!; [done|by simpl; rewrite (tr_sent _ _ Ht1)|].
    intros n Hn. rewrite <- (tr_content _ _ Ht1 n Hn). unfold content.
    destruct (tr_views _ _ Ht1 n Hn) as (_ & _ & Hd). destruct (Hd (Hend n Hn)) as [-> ->]. by rewrite app_nil_r. }
  assert (∀ n, n ∈ names → (weight (view a1 n) ≤ weight (view a n))%nat) as Hle by (intros n Hn; rewrite Hstep by done; apply step_weight).
  pose proof (next_entry_spec a1) as Hnext. destruct (next_entry timestamp a1) as [[name r]|].
  - destruct Hnext as [Hp Hmin]. assert (name ∈ names) as Hin.
    { destruct (decide (name ∈ names)) as [|Hn]; [done|]. destruct (tr_others _ _ Ht1 name Hn) as [Hf _]. simpl in Hf. congruence. }
    destruct (tracked_sent out a1 name r Ht1 Hin Hp) as (Hr & Ht2 & Hview). eexists. right. split_and!; [done| |exists [r]].
    + unfold measure. apply (sum_list_lt _ _ _ name); [done| |].
      * rewrite Hview, decide_True by done. specialize (Hle name Hin). unfold weight in *. simpl in *. rewrite Hp in Hle. lia.
      * intros n Hn. rewrite Hview. case_decide; [|by apply Hle]. specialize (Hle n Hn). unfold weight in *. simpl in *. lia.
    + split_and!; [done| |done| |simpl; lia].
      * intros n Hn. rewrite Hview, <- Hstep by done. by case_decide.
      * apply Forall_singleton. intros n r' Hn Hp'. rewrite <- Hstep in Hp' by done. simpl in Hp'.
        specialize (Hmin n r' Hp'). assert (r'.1 = n) as Hr'.
        { destruct (tr_views _ _ Ht1 n Hn) as (_ & Htag & _). unfold content in Htag. simpl in Htag. rewrite Hp' in Htag. by apply Forall_cons in Htag as [? _]. }
        destruct r, r'; simpl in *; by subst.
  - exists a1. right. split_and!; [done| |exists []].
    + rewrite (tracked_end out a1 Ht1) in Hend. destruct (decide (Exists (λ n, v_done (view a1 n) = false) names)) as [Hex|Hno].
      * apply Exists_exists in Hex as (n & Hn & Hdone). apply (sum_list_lt _ _ _ n); [done| |done]. rewrite Hstep in * by done.
        apply step_progress; [|done]. rewrite <- Hstep by done. apply Hnext.
      * destruct Hend. intros n Hn. destruct (v_done (view a1 n)) eqn:Ed; [done|]. destruct Hno. apply Exists_exists. by exists n.
    + rewrite app_nil_r. split_and!; [done| | |done|simpl; lia].
      * intros n Hn. by rewrite Hstep.
      * intros n Hn _. rewrite <- Hstep by done. apply Hnext.
Qed.

(** ** The order of the results *)

(** A channel that has its records ready: no other answer comes before one of them. *)
Fixpoint prompt (l : list (TryRecv X)) : Prop :=
  match l with
  | [] => True
  | RRecord _ :: l' => prompt l'
  | _ :: l' => channel_records l' = []
  end.

Lemma no_records_prompt l : channel_records l = [] → prompt l.
Proof. induction l as [|[] l IH]; done. Qed.
Lemma prompt_tail m l : prompt (m :: l) → prompt l.
Proof. destruct m; simpl; auto using no_records_prompt. Qed.
Lemma prompt_step v : prompt (v_answers v) → prompt (v_answers (step_view v)).
Proof. destruct v as [[r|] [|m l] []]; [done..| |]; destruct m; simpl; auto using no_records_prompt. Qed.
Lemma prompt_holds name v : view_ok name v → prompt (v_answers v) → v_pending (step_view v) = None → content (step_view v) = [].
Proof.
  intros (_ & _ & Hd) Hp Hn. destruct v as [[r|] [|[] l] []]; simpl in *; try done; by destruct (Hd eq_refl).
Qed.

Record in_order (out : list Reader) (a : Aggregator X) : Prop := {
  io_prompt n : n ∈ names → prompt (v_answers (view a n));
  io_sorted n : n ∈ names → StronglySorted before (content (view a n));
  io_later n x y : n ∈ names → x ∈ out → y ∈ content (view a n) → before x y;
  io_out : StronglySorted before out
}.

Lemma sorted_app_r (l1 l2 : list Reader) : StronglySorted before (l1 ++ l2) → StronglySorted before l2.
Proof. induction l1 as [|x l1 IH]; [done|]. intros [? _]%StronglySorted_inv. auto. Qed.
Lemma sorted_snoc (l : list Reader) x : StronglySorted before l → (∀ y, y ∈ l → before y x) → StronglySorted before (l ++ [x]).
Proof.
  induction l as [|z l IH]; intros Hs Hx; simpl; [by repeat constructor|]. apply StronglySorted_inv in Hs as [Hs Hz].
  constructor; [apply IH; [done|]; intros; apply Hx; by right|]. apply Forall_app. split; [done|]. apply Forall_singleton, Hx. by left.
Qed.

Lemma turn_in_order out a more a' :
  tracked out a → tracked (out ++ more) a' → in_order out a →
  (∀ n, n ∈ names → v_answers (view a' n) = v_answers (step_view (view a n))) →
  (∀ n, n ∈ names → more = [] → v_pending (step_view (view a n)) = None) →
  Forall (λ r, ∀ n r', n ∈ names → v_pending (step_view (view a n)) = Some r' → before r r') more → (length more ≤ 1)%nat →
  in_order (out ++ more) a'.
Proof.
  intros Ht Ht' [Hp Hs Hl Ho] Hans _ Hmin Hlen.
  assert (∀ n, n ∈ names → content (view a n) = filter (λ r, r.1 = n) more ++ content (view a' n)) as Hc.
  { intros n Hn. pose proof (tr_content _ _ Ht n Hn) as E. rewrite <- (tr_content _ _ Ht' n Hn), filter_app, <- app_assoc in E. by apply app_inv_head in E. }
  assert (∀ n y, n ∈ names → y ∈ content (view a' n) → y ∈ content (view a n)) as Hsub by (intros n y Hn Hy; rewrite Hc by done; set_solver).
  split.
  - intros n Hn. rewrite Hans by done. by apply prompt_step, Hp.
  - intros n Hn. specialize (Hs n Hn). rewrite Hc in Hs by done. by eapply sorted_app_r.
  - intros n x y Hn [Hx|Hx]%elem_of_app Hy; [by eapply Hl; eauto|]. rewrite Forall_forall in Hmin.
    specialize (Hmin x Hx n). apply Hsub in Hy; [|done]. specialize (Hs n Hn). rewrite <- step_content in Hy, Hs.
    destruct (v_pending (step_view (view a n))) as [r'|] eqn:Epend.
    + eapply before_trans; [by apply Hmin|]. unfold content in Hs, Hy. rewrite Epend in Hs, Hy. simpl in Hs, Hy.
      apply elem_of_cons in Hy as [->|Hy]; [apply before_refl|]. apply StronglySorted_inv in Hs as [_ Hs]. rewrite Forall_forall in Hs. auto.
    + rewrite (prompt_holds n) in Hy; [by apply not_elem_of_nil in Hy|by apply (tr_views _ _ Ht)|auto|done].
  - destruct more as [|r [|]]; [by rewrite app_nil_r| |simpl in Hlen; lia]. apply sorted_snoc; [done|]. intros y Hy.
    assert (r.1 ∈ names) as Hr. { pose proof (tr_out _ _ Ht') as Hf. apply Forall_app in Hf as [_ Hf]. by apply Forall_cons in Hf as [? _]. }
    eapply (Hl r.1); [done..|]. rewrite Hc by done. rewrite filter_cons_True by done. by left.
Qed.

(** ** The whole query *)

Lemma loop_spec k out a : tracked out a → (measure a < k)%nat →
  ∃ a' out', aggregate_loop timestamp names (replicate k (true, true)) a = Some a' ∧ ag_sent a' = (Ok <$> out') ++ [Err NoContent] ∧
    (∀ n, n ∈ names → filter (λ r, r.1 = n) out' = records n) ∧ Forall (λ r, r.1 ∈ names) out' ∧
    (in_order out a → StronglySorted before out').
Proof.
  revert out a. induction k as [|k IH]; intros out a Ht Hm; [lia|]. cbn [replicate aggregate_loop].
  destruct (turn_spec out a Ht) as (a' & [(-> & Hs & Hc)|(-> & Hlt & more & Ht' & Hans & Hnil & Hmin & Hlen)]).
  - exists a', out. split_and!; [done..|by apply tr_out in Ht|]. by intros [].
  - destruct (IH (out ++ more) a' Ht' ltac:(lia)) as (a2 & out' & -> & Hs & Hc & Hf & Hord). exists a2, out'.
    split_and!; [done..|]. intros Hio. by eapply Hord, turn_in_order.
Qed.
End Merge.

(** ** Merging channels *)

Section Channels.
Context {X : Type} (timestamp : X → Z) `{HashIter} `{!HashIterLaws}.

(** The answers of a channel that belongs to an entry. *)
Definition channel_ok (name : string) (l : list (TryRecv X)) : Prop :=
  benign l ∧ Forall (λ r, r.1 = name) (channel_records l).

(** Turns that are enough. *)
Definition channel_turns (receivers : gmap string (list (TryRecv X))) : nat :=
  S (sum_list ((λ n, 2 * length (default [] (receivers !! n)) + 1)%nat <$> (hash_iter receivers).*1)).

Lemma aggregate_spec (receivers : gmap string (list (TryRecv X))) k :
  map_Forall channel_ok receivers → (channel_turns receivers ≤ k)%nat →
  ∃ out, aggregate timestamp receivers (replicate k (true, true)) = Some ((Ok <$> out) ++ [Err NoContent]) ∧
    (∀ n, filter (λ r, r.1 = n) out = channel_records (default [] (receivers !! n))) ∧
    (map_Forall (λ _ l, prompt l ∧ StronglySorted (before timestamp) (channel_records l)) receivers → StronglySorted (before timestamp) out).
Proof.
  intros Hok Hk. unfold aggregate. set (names := (hash_iter receivers).*1) in *. set (a := mkAggregator _ _ _ _).
  assert (∀ n, n ∈ names ↔ n ∈ dom receivers) as Hdom.
  { intros n. unfold names. rewrite list_elem_of_fmap, elem_of_dom. split.
    - intros ([n' l] & -> & Hin%elem_of_hash_iter). by eexists.
    - intros [l Hl]. exists (n, l). by rewrite elem_of_hash_iter. }
  assert (∀ n, view a n = mkView None (default [] (receivers !! n)) false) as Hview by (intros n; unfold view, pending_of; simpl; by rewrite lookup_empty).
  assert (∀ n, channel_ok n (default [] (receivers !! n))) as Hch.
  { intros n. destruct (receivers !! n) as [l|] eqn:E; [by apply (Hok n)|]. by repeat constructor. }
  assert (tracked names (λ n, channel_records (default [] (receivers !! n))) [] a) as Ht.
  { split; [done|apply leibniz_equiv; intros n; by rewrite elem_of_list_to_set, Hdom| | | |done].
    - intros n _. by rewrite Hview.
    - intros n Hn. rewrite Hview. by destruct (Hch n) as [? ?].
    - intros n Hn. by rewrite Hview. }
  destruct (loop_spec timestamp names (NoDup_fst_hash_iter _) _ k [] a Ht) as (a' & out & -> & Hs & Hc & Hf & Hord).
  { unfold measure, channel_turns in *. fold names in Hk. rewrite (list_fmap_ext _ (λ n, 2 * length (default [] (receivers !! n)) + 1)%nat names); [lia|].
    intros i n _. rewrite Hview. unfold weight. simpl. lia. }
  exists out. simpl. rewrite Hs. split_and!; [done| |].
  - intros n. destruct (decide (n ∈ names)) as [Hn|Hn]; [by apply Hc|].
    assert (receivers !! n = None) as -> by (apply not_elem_of_dom; by rewrite <- Hdom). simpl.
    rewrite filter_none; [done|]. rewrite Forall_forall in Hf. intros r Hr <-. by apply Hn, Hf.
  - intros Hready. apply Hord. assert (∀ n, prompt (default [] (receivers !! n)) ∧ StronglySorted (before timestamp) (channel_records (default [] (receivers !! n)))) as Hr.
    { intros n. destruct (receivers !! n) as [l|] eqn:E; [by apply (Hready n)|]. simpl. split; [done|constructor]. }
    split; [intros n _; rewrite Hview; apply Hr|intros n _; rewrite Hview; apply Hr|by intros ??? _ ?%not_elem_of_nil|constructor].
Qed.
End Channels.
