(* ===== verification/MultiQueryExact.v ===== *)
(** * MultiQueryExact: a query over the entries of a bucket, from the request to the results

    The tasks of the entries' queries, the registry of the bucket and the merging are put
    together: the client gets the records that the query of each selected entry gives, and
    gets them in the order of time when the entries are fast enough. *)

From stdpp Require Import prelude gmap strings sorting fin_map_dom.
From Stdlib Require Import ZArith Lia.
From S2P Require Import Prelude Bytes Collections Proto Block BlockIndex Wal Cache BlockManager.
From S2P Require Import BlockManagerRefine Entry EntryRefine.
From S2P Require Import Text Float64 Value Condition Parser Filters Query QueryRefine Split Pattern MultiQuery MultiQueryMerge.
Open Scope Z_scope.

(** ** The task of a query *)

Section Task.
Context {S X : Type} (next : S → outcome X * S).

(** The receiver stays, and no result takes longer than the time to live. *)
Fixpoint timely (ttl last : Z) (turns : list TaskTurn) : Prop :=
  match turns with
  | [] => True
  | t :: rest =>
      tt_closed t = false ∧ Z.max 0 (tt_now t - last) ≤ ttl ∧
      match tt_sent t with Some now => timely ttl now rest | None => False end
  end.

(** The sleep of a full channel stays between its bounds. *)
Definition sleep_ok (w : QueryWatcher) : Prop := MIN_FULL_CHANNEL_SLEEP ≤ full_channel_sleep w ≤ MAX_FULL_CHANNEL_SLEEP.
Lemma watcher_sleep_ok now w : sleep_ok (watcher_new now) ∧
  (sleep_ok w → sleep_ok (full_channel w).2 ∧ sleep_ok (send_success now w)).
Proof.
  unfold sleep_ok, full_channel, send_success, watcher_new, MIN_FULL_CHANNEL_SLEEP, MAX_FULL_CHANNEL_SLEEP. simpl.
  split; [lia|]. intros ?. case_decide; lia.
Qed.

(** The results of [next] until the first error. *)
Fixpoint results (n : nat) (s : S) : list X * option ErrorCode :=
  match n with
  | O => ([], None)
  | Datatypes.S n =>
      match next s with
      | (Ok x, s') => let '(l, e) := results n s' in (x :: l, e)
      | (Err e, _) => ([], Some e)
      | (Panic, _) => ([], None)
      end
  end.

Lemma task_results ttl turns w s l e :
  results (length turns) s = (l, Some e) → timely ttl (last_send_time w) turns →
  query_task next false ttl turns w s = ((Ok <$> l) ++ [Err e], true).
Proof.
  revert w s l. induction turns as [|t turns IH]; intros w s l Hr Ht; [done|]. simpl in *.
  destruct Ht as (-> & Hnow & Hsent). destruct (tt_sent t) as [now|]; [|done].
  assert (watcher_expired ttl (tt_now t) w = false) as -> by (apply bool_decide_eq_false; lia). simpl.
  destruct (next s) as [[x|e'|] s'].
  - destruct (results (length turns) s') as [l' e'] eqn:Er. injection Hr as <- ->.
    rewrite (IH _ s' l' Er); [done|]. unfold send_success. by destruct (tt_full t).
  - injection Hr as <- ->. by rewrite andb_false_r.
  - done.
Qed.
End Task.

(** ** The registry *)

Section Registry.
Context {X : Type} `{HashIter} `{!HashIterLaws}.
Abbreviation Queries := (Queries X).

(** What [Entry::query] gives the bucket: it uses up a number and makes a channel. *)
Definition entry_query (rx : string → list (TryRecv X)) (io : IoConfig) (name : string) : ST Queries (list (TryRecv X) * IoConfig) :=
  _ ← next_query_id; mret (rx name, io).

Lemma query_entries_spec rx io names m (qs : Queries) : ∃ next m',
  query_entries (entry_query rx io) names m qs = (Ok m', mkQueries next (qs_queries qs)) ∧
  ∀ n, m' !! n = if decide (n ∈ names) then Some (rx n, io) else m !! n.
Proof.
  revert m qs. induction names as [|name names IH]; intros m qs; cbn [query_entries].
  { exists (qs_next_id qs), m. split; [by destruct qs|]. intros n. by rewrite decide_False by (by apply not_elem_of_nil). }
  destruct (IH (<[name := (rx name, io)]> m) (mkQueries (u64_add (qs_next_id qs) 1) (qs_queries qs))) as (next & m' & E & Hm).
  exists next, m'. split; [exact E|]. intros n. rewrite Hm. destruct (decide (n = name)) as [->|Hne].
  - rewrite lookup_insert_eq, (decide_True (P := name ∈ name :: names)) by (by left). by case_decide.
  - rewrite lookup_insert_ne by done. destruct (decide (n ∈ names)); [by rewrite decide_True by (by right)|].
    rewrite decide_False; [done|]. by intros [?|?]%elem_of_cons.
Qed.

(** A query is found by its number until its time to live is over. *)
Lemma bucket_query_spec rx io io_default requested entries ttl now now' (qs : Queries) :
  Z.max 0 (now' - now) < ttl → ∃ id qs1 qs2 receivers io',
  bucket_query (entry_query rx io) io_default requested entries ttl now qs = (Ok id, qs1) ∧
  get_query_receiver now' id qs1 = (Ok (receivers, io'), qs2) ∧
  ∀ n, receivers !! n = if decide (n ∈ filter_entries requested entries) then Some (rx n) else None.
Proof.
  intros Httl. destruct (query_entries_spec rx io (filter_entries requested entries) ∅
    (mkQueries (u64_add (qs_next_id qs) 1) (qs_queries qs))) as (next & m & E & Hm).
  set (io' := from_option (λ nx, nx.2.2) io_default (head (hash_iter m))).
  set (q := mkMultiEntryQuery (fst <$> m) io' ttl now).
  exists (qs_next_id qs), (mkQueries next (<[qs_next_id qs := q]> (qs_queries qs))). do 3 eexists. split; [|split].
  - unfold bucket_query, next_query_id at 1. unfold mbind, ST_bind. simpl. by rewrite E.
  - unfold get_query_receiver, mbind, ST_bind, st_modify, st_get, st_lift. simpl.
    rewrite (map_lookup_filter_Some_2 _ _ (qs_next_id qs) q); [done|by rewrite lookup_insert_eq|done].
  - intros n. simpl. rewrite lookup_fmap, Hm. case_decide; [done|]. by rewrite lookup_empty.
Qed.
End Registry.

(** ** Messages and channels *)

Section Channel.
Context {X : Type}.

(** A message in the channel of an entry. *)
Definition message_of (name : string) (m : outcome X) : TryRecv X :=
  match m with Ok x => RRecord (name, x) | Err e => RError e | Panic => REmpty end.
Definition is_message (m : TryRecv X) : bool := match m with REmpty => false | _ => true end.

(** A channel answers with the messages of a task, and between them that there is none yet. *)
Definition arrives (name : string) (msgs : list (outcome X)) (l : list (TryRecv X)) : Prop :=
  List.filter is_message l = message_of name <$> msgs.

Lemma arrives_records name (xs : list X) l :
  arrives name ((Ok <$> xs) ++ [Err NoContent]) l → channel_ok name l ∧ channel_records l = (name,.) <$> xs.
Proof.
  intros Ha. assert (channel_records l = channel_records (List.filter is_message l)) as Er.
  { clear Ha. unfold channel_records. induction l as [|[] l IH]; [done|..]; csimpl; by rewrite IH. }
  assert (benign (List.filter is_message l) → benign l) as Hb.
  { clear. unfold benign. induction l as [|[] l IH]; simpl; [done|..]; rewrite ?Forall_cons; naive_solver. }
  rewrite Ha in Er, Hb. assert (channel_records (message_of name <$> (Ok <$> xs) ++ [Err NoContent]) = (name,.) <$> xs) as E.
  { clear. induction xs as [|x xs IH]; csimpl; [done|]. unfold channel_records in *. csimpl. by f_equal. }
  split; [split|by rewrite Er, E].
  - apply Hb. clear. induction xs as [|x xs IH]; csimpl; repeat constructor. exact IH.
  - rewrite Er, E. clear. induction xs; constructor; auto.
Qed.
End Channel.

(** ** The query of a bucket *)

Section Exact.
Context `{HashIter} `{Prost} `{Crc64} `{Zstd} `{Clock} `{Chrono} `{JsonText} `{ByteSize} (cfg : Cfg).
Context `{!HashIterLaws} `{!ProstLaws} `{!Crc64Laws}.
Context (Hprimary : replica cfg = false).

Abbreviation Found := (Rec * RecordReader)%type.
Definition found_us (x : Found) : Z := rec_us x.1.

Lemma results_drain n st : results (historical_next cfg) n st = drain cfg n st.
Proof. revert st. induction n as [|n IH]; intros st; simpl; [done|]. destruct (historical_next cfg st) as [[]]; [by rewrite IH|done..]. Qed.

(** An entry: the state of its block manager, and the blocks that it stands for. *)
Definition entry_state_ok (sa : BM * gmap Z Block) : Prop :=
  rep cfg [] sa.1 sa.2 ∧ data_present sa.2 sa.1 ∧ ordered_spans sa.2.

(** The task of an entry's query that is not interrupted, and a channel it feeds. *)
Definition entry_channel (start stop : Z) (options : QueryOptions) (q : HistoricalQuery) (now : Z)
    (name : string) (sa : BM * gmap Z Block) (turns : list TaskTurn) (l : list (TryRecv Found)) : Prop :=
  timely (q_ttl options) now turns ∧ (length (matching sa.2 start stop) < length turns)%nat ∧
  arrives name (query_task (historical_next cfg) false (q_ttl options) turns (watcher_new now) (sa.1, q)).1 l.

Lemma entry_channel_records start stop options io q now name sa turns l :
  entry_state_ok sa → is_u64 start → is_u64 stop → when options = None → historical_try_new start stop options io = Ok q →
  entry_channel start stop options q now name sa turns l →
  channel_ok name l ∧ ∃ xs, channel_records l = (name,.) <$> xs ∧ xs.*1 = matching sa.2 start stop ∧ Forall (served sa.2 (hq_only_metadata q)) xs.
Proof.
  intros (Hrep & Hdata & Hspans) Hstart Hstop Hwhen Hq (Htime & Hlen & Harr).
  pose proof (drain_matching cfg Hprimary sa.2 Hspans sa.1 start stop options io q (length turns) Hrep Hdata Hstart Hstop Hwhen Hq Hlen) as Hd.
  rewrite <- results_drain in Hd. destruct (results _ _ _) as [xs e] eqn:Er. destruct Hd as (Hxs & -> & Hserved).
  rewrite (task_results _ _ _ _ _ xs NoContent) in Harr by done.
  destruct (arrives_records name xs l Harr) as [Hok Hrec]. split; [done|]. by exists xs.
Qed.

Lemma ascending_before name (xs : list Found) : ascending xs.*1 → StronglySorted (before found_us) ((name,.) <$> xs).
Proof.
  induction xs as [|x xs IH]; intros Hs; csimpl; [constructor|]. csimpl in Hs. apply ascending_inv in Hs as [Hs Hx]. constructor; [by apply IH|].
  apply Forall_forall. intros r (y & -> & Hy)%list_elem_of_fmap. left. apply Hx. apply list_elem_of_fmap. by exists y.
Qed.

Lemma elem_of_filter_entries requested (entries : gmap string (BM * gmap Z Block)) n :
  n ∈ filter_entries requested (merge_sort str_le (map_to_list entries).*1) ↔ is_Some (entries !! n) ∧ is_queried n requested = true.
Proof.
  unfold filter_entries. rewrite list_elem_of_In, filter_In, <- list_elem_of_In, merge_sort_Permutation, list_elem_of_fmap.
  apply and_iff_compat_r. split.
  - intros ([n' sa] & -> & Hin%elem_of_map_to_list). by eexists.
  - intros [sa Hsa]. exists (n, sa). by rewrite elem_of_map_to_list.
Qed.

End Exact.

(** ** Examples *)

Section Demo.
Existing Instance std_order.
Existing Instance std_order_laws.

(** The same records in another order, when the channel of the first entry has nothing yet at
    the first turn. *)
Example slow_entry_breaks_order (slow : bool) :
  let rx := <["a" := (if slow then [REmpty] else []) ++ [RRecord ("a", 1); RError NoContent]]>
              {["b" := [RRecord ("b", 2); RError NoContent]]} in
  aggregate id rx (replicate 9 (true, true))
  = Some ((Ok <$> if slow then [("b", 2); ("a", 1)] else [("a", 1); ("b", 2)]) ++ [Err NoContent]).
Proof. by destruct slow; vm_compute. Qed.

Existing Instance Toy.prost.
Existing Instance Toy.prost_laws.
Existing Instance Toy.digest.
Existing Instance Toy.digest_laws.
Existing Instance demo_zstd.
Existing Instance demo_clock.
Existing Instance query_chrono.
Existing Instance query_json_text.
Existing Instance query_byte_size.

Definition demo_entries : gmap string (BM * gmap Z Block) :=
  <["a" := (two_blocks_bm, two_blocks_map)]> {["b" := (two_blocks_bm, two_blocks_map)]}.
Definition demo_turns : list TaskTurn := replicate 3 (mkTaskTurn false 0 false (Some 0)).
Definition demo_query : HistoricalQuery :=
  match historical_try_new 120 400 plain_query query_io with Ok q => q | _ => mkHQ 0 0 [] None [] false false query_io end.
Definition demo_rx (name : string) : list (TryRecv (Rec * RecordReader)) :=
  message_of name <$> (query_task (historical_next demo_cfg) false (q_ttl plain_query) demo_turns (watcher_new 0) (two_blocks_bm, demo_query)).1.

End Demo.
