(* ===== verification/Folders.v ===== *)
(** * Folders: the directories of a bucket and the list of its folders
    (storage/folder_keeper.rs, bucket/get_entry.rs, remove_entry.rs, rename_entry.rs,
    bucket/builder.rs)

    A bucket has a directory; an entry is a directory below it with a block index, and the
    names of entries are paths.  The folder keeper has the list of the folders, saves it, and
    finds the folders on the disk after a restart. *)

From stdpp Require Import prelude gmap strings sorting.
From Stdlib Require Import Ascii ZArith Lia.
From S2P Require Import Prelude Text Split Pattern.
Local Open Scope string_scope.
Local Open Scope list_scope.

(** ** The file system *)

(** Directories and files by their paths, which begin at the directory of the bucket. *)
Abbreviation Path := (list string).
Record Fs := mkFs { fs_dirs : gset Path; fs_files : gset Path }.

Definition is_dir (p : Path) (fs : Fs) : bool := bool_decide (p ∈ fs_dirs fs).
Definition try_exists (p : Path) (fs : Fs) : bool := bool_decide (p ∈ fs_dirs fs ∨ p ∈ fs_files fs).

(** The last part of a path below [p]. *)
Definition child_of (p q : Path) : option string :=
  match reverse q with
  | n :: r => if decide (reverse r = p) then Some n else None
  | [] => None
  end.

Definition path_prefixes (p : Path) : list Path := (λ n, take n p) <$> seq 0 (S (length p)).
Definition under (p : Path) (ps : gset Path) : gset Path := filter (λ q, p `prefix_of` q) ps.

(** [create_dir_all], [remove_dir_all] and [rename] of the operating system. *)
Definition create_dir_all (p : Path) (fs : Fs) : outcome Fs :=
  if decide (Exists (λ q, q ∈ fs_files fs) (path_prefixes p)) then Err InternalServerError
  else Ok (mkFs (list_to_set (path_prefixes p) ∪ fs_dirs fs) (fs_files fs)).

(** [FileCache::remove_dir]. *)
Definition remove_dir (p : Path) (fs : Fs) : Fs :=
  if try_exists p fs then mkFs (fs_dirs fs ∖ under p (fs_dirs fs)) (fs_files fs ∖ under p (fs_files fs)) else fs.

Definition move (old new p : Path) : Path := if decide (old `prefix_of` p) then new ++ drop (length old) p else p.
Definition rename (old new : Path) (fs : Fs) : outcome Fs :=
  if decide (old ∉ fs_dirs fs) then Err InternalServerError
  else if decide (take (pred (length new)) new ∉ fs_dirs fs) then Err InternalServerError
  else if decide (old `prefix_of` new) then Err InternalServerError
  else if decide (new ∈ fs_files fs) then Err InternalServerError
  else if decide (under new (fs_dirs fs) ∖ {[new]} ∪ under new (fs_files fs) ≠ ∅) then Err InternalServerError
  else Ok (mkFs (set_map (move old new) (fs_dirs fs ∖ {[new]})) (set_map (move old new) (fs_files fs))).

(** ** The folder keeper *)

Inductive DiscoveryDepth : Set := FirstLevel | Recursive.
#[export] Instance depth_eq_dec : EqDecision DiscoveryDepth.
Proof. solve_decision. Defined.

(** [Item] of the message [FolderMap]. *)
Record Item := mkItem { it_name : string; it_folder_name : string }.
Definition item (s : string) : Item := mkItem s s.

Definition BLOCK_INDEX_FILE : string := "blocks.idx".
Definition item_le (a b : Item) : Prop := str_le (it_folder_name a) (it_folder_name b).
#[export] Instance item_le_dec a b : Decision (item_le a b).
Proof. unfold item_le, str_le. apply _. Defined.

(** Loops over the prefixes of a name: ["a/b/c"] is ["a"], ["a/b"], ["a/b/c"]. *)
Fixpoint add_items (current : string) (segments : list string) (items : list Item) : list Item :=
  match segments with
  | [] => items
  | segment :: rest =>
      let current := (if decide (current = EmptyString) then EmptyString else current +:+ "/") +:+ segment in
      add_items current rest
        (if existsb (λ i, bool_decide (it_folder_name i = current)) items then items else items ++ [item current])
  end.

Definition retained (folder_name : string) (i : Item) : bool :=
  bool_decide (it_folder_name i ≠ folder_name) && negb (starts_with (it_folder_name i) (folder_name +:+ "/")).

Definition renamed (old_name new_name : string) (i : Item) : Item :=
  if decide (it_folder_name i = old_name) then item new_name
  else if starts_with (it_folder_name i) (old_name +:+ "/")
  then item (new_name +:+ drop_str (String.length old_name) (it_folder_name i))
  else i.

Section Keeper.
(** The operating system lists a directory in any order. *)
Context (order : list string → list string).

Definition read_dir (p : Path) (fs : Fs) : list string :=
  order (omap (child_of p) (elements (fs_dirs fs ∪ fs_files fs))).

(** A directory that is not a folder: hidden, or the log of an old layout. *)
Definition skip_dir (current : Path) (name : string) (fs : Fs) : bool :=
  starts_with name "." ||
  (bool_decide (name = "wal") && negb (try_exists (current ++ [".wal"]) fs)).

Definition child_dirs (current : Path) (fs : Fs) : list Path :=
  (λ n, current ++ [n]) <$>
  List.filter (λ n, is_dir (current ++ [n]) fs && negb (skip_dir current n fs)) (read_dir current fs).

(** The walk of [build_from_fs]; a turn takes a directory from the stack, so that as many
    turns as there are directories are enough.  [None] is a walk without an end. *)
Fixpoint walk (fuel : nat) (stack : list Path) (fs : Fs) (items : list Item) : option (list Item) :=
  match stack with
  | [] => Some items
  | current :: stack' =>
      match fuel with
      | O => None
      | S fuel' =>
          let dirs := child_dirs current fs in
          let found := bool_decide (current ≠ []) && (try_exists (current ++ [BLOCK_INDEX_FILE]) fs || bool_decide (dirs = [])) in
          walk fuel' (rev dirs ++ stack') fs
            (if found then items ++ [item (join_with "/" current)] else items)
      end
  end.

(** [build_from_fs] of the directory of the bucket. *)
Definition build_from_fs (depth : DiscoveryDepth) (fs : Fs) : option (list Item) :=
  match depth with
  | FirstLevel =>
      Some (merge_sort item_le (item <$>
        List.filter (λ n, is_dir [n] fs && negb (starts_with n ".")) (read_dir [] fs)))
  | Recursive => merge_sort item_le <$> walk (size (fs_dirs fs)) [[]] fs []
  end.

(** ** The directory of a bucket *)

(** The folder map in memory and in its file, the entries, and the disk.  Operations on files
    do not fail but for the reasons above. *)
Record BucketDir := mkBucketDir {
  bd_fs : Fs;
  bd_map : list Item;
  bd_saved : list Item;
  bd_entries : gset string
}.
Definition with_fs (fs : Fs) (b : BucketDir) : BucketDir := mkBucketDir fs (bd_map b) (bd_saved b) (bd_entries b).
(** The map is changed and saved. *)
Definition with_map (m : list Item) (b : BucketDir) : BucketDir := mkBucketDir (bd_fs b) m m (bd_entries b).
Definition with_entries (es : gset string) (b : BucketDir) : BucketDir := mkBucketDir (bd_fs b) (bd_map b) (bd_saved b) es.

Definition name_path (name : string) : Path := split "/" name.

(** [add_folder], [remove_folder], [rename_folder] and [reload]. *)
Definition add_folder (name : string) : ST BucketDir () := λ b,
  match create_dir_all (name_path name) (bd_fs b) with
  | Ok fs => (Ok tt, with_map (add_items EmptyString (split "/" name) (bd_map b)) (with_fs fs b))
  | Err e => (Err e, b)
  | Panic => (Panic, b)
  end.
Definition remove_folder (name : string) (b : BucketDir) : BucketDir :=
  with_map (List.filter (retained name) (bd_map b)) (with_fs (remove_dir (name_path name) (bd_fs b)) b).
Definition rename_folder (old_name new_name : string) : ST BucketDir () := λ b,
  match rename (name_path old_name) (name_path new_name) (bd_fs b) with
  | Ok fs => (Ok tt, with_map (renamed old_name new_name <$> bd_map b) (with_fs fs b))
  | Err e => (Err e, b)
  | Panic => (Panic, b)
  end.
Definition reload_folders (b : BucketDir) : BucketDir :=
  mkBucketDir (bd_fs b) (bd_saved b) (bd_saved b) (bd_entries b).
Definition list_folders (depth : DiscoveryDepth) (items : list Item) : list string :=
  List.filter (λ n, negb (bool_decide (depth = FirstLevel) && (contains n "/" || contains n "\")))
    (it_folder_name <$> items).

(** [EntryBuilder::build]: the index if there is none, and the directory of the log. *)
Definition entry_build (name : string) : ST BucketDir () := λ b,
  let path := name_path name in
  let fs := if try_exists (path ++ [BLOCK_INDEX_FILE]) (bd_fs b) then Ok (bd_fs b)
            else fs ← create_dir_all path (bd_fs b);
                 Ok (mkFs (fs_dirs fs) ({[path ++ [BLOCK_INDEX_FILE]]} ∪ fs_files fs)) in
  match (fs ← fs; create_dir_all (path ++ [".wal"]) fs) with
  | Ok fs => (Ok tt, with_fs fs b)
  | Err e => (Err e, b)
  | Panic => (Panic, b)
  end.

(** The loop of [get_or_create_entry] over the prefixes of the name. *)
Fixpoint create_entries (current : string) (segments : list string) : ST BucketDir () :=
  match segments with
  | [] => mret tt
  | segment :: rest =>
      let prefix := (if decide (current = EmptyString) then EmptyString else current +:+ "/") +:+ segment in
      b ← st_get;
      _ ← (if decide (prefix ∈ bd_entries b) then mret tt
           else _ ← add_folder prefix; _ ← entry_build prefix;
                st_modify (λ b, with_entries ({[prefix]} ∪ bd_entries b) b));
      create_entries prefix rest
  end.
Definition create_entry (key : string) : ST BucketDir () :=
  _ ← st_lift (check_entry_name_convention key);
  b ← st_get;
  if decide (key ∈ bd_entries b) then mret tt else create_entries EmptyString (split "/" key).

(** An entry and the entries below it. *)
Definition is_below (name entry_name : string) : bool :=
  bool_decide (entry_name = name) || starts_with entry_name (name +:+ "/").
Definition entries_below (name : string) (b : BucketDir) : list string :=
  List.filter (is_below name) (elements (bd_entries b)).

(** [sort_entries_for_removal]: meta entries first, then the deepest. *)
Definition removal_le (a b : string) : Prop :=
  let am := is_system_meta_entry a in let bm := is_system_meta_entry b in
  let da := length (split "/" a) in let db := length (split "/" b) in
  if decide (am = bm) then if decide (da = db) then str_le b a else (db < da)%nat else am = true.
#[export] Instance removal_le_dec a b : Decision (removal_le a b).
Proof. unfold removal_le, str_le. repeat case_decide; apply _. Defined.

(** [remove_entry] with the task it starts, to the end; the blocks of an entry are files of
    its directory. *)
Definition remove_one (name : string) (b : BucketDir) : BucketDir :=
  let b := remove_folder name b in with_entries (bd_entries b ∖ {[name]}) b.
Definition remove_entry (name : string) : ST BucketDir () := λ b,
  if is_system_meta_entry name then (Err Conflict, b)
  else match entries_below name b with
       | [] => (Err NotFound, b)
       | names => (Ok tt, foldl (λ b n, remove_one n b) b (merge_sort removal_le names))
       end.

(** [rebuild_entries_from_fs]; every folder of the list becomes an entry. *)
Definition rebuild_entries (b : BucketDir) : BucketDir :=
  let b := reload_folders b in with_entries (list_to_set (list_folders Recursive (bd_map b))) b.

(** [rename_entry]. *)
Definition rename_entry (old_name new_name : string) : ST BucketDir () :=
  _ ← st_lift (check_entry_name_convention new_name);
  if is_below old_name new_name then st_throw Conflict
  else
    b ← st_get;
    let affected := entries_below old_name b in
    if decide (affected = []) then st_throw NotFound
    else if try_exists (name_path new_name) (bd_fs b) then st_throw Conflict
    else
      _ ← (match rsplit_once "/" new_name with
           | Some (parent, _) => if decide (parent = EmptyString) then mret tt else create_entry parent
           | None => mret tt
           end);
      b ← st_get;
      let names := (λ e, new_name +:+ drop_str (String.length old_name) e) <$> affected in
      if existsb (λ n, bool_decide (n ∈ bd_entries b) && negb (bool_decide (n ∈ affected))) names
      then st_throw Conflict
      else _ ← rename_folder old_name new_name; st_modify rebuild_entries.

(** [BucketBuilder::restore]: the folders found on the disk are the entries. *)
Definition restart (b : BucketDir) : option BucketDir :=
  items ← build_from_fs Recursive (bd_fs b);
  Some (mkBucketDir (bd_fs b) items items (list_to_set (list_folders Recursive items))).
End Keeper.
