(* ===== verification/FolderWalk.v ===== *)
(** * FolderWalk: the entries of a bucket over its life
    (storage/folder_keeper.rs, bucket/get_entry.rs, remove_entry.rs, rename_entry.rs)

    The walk over the directories ends and finds exactly the folders that can be reached; the
    entries, the folder map and the directories stay the same set whatever is created,
    removed and renamed, so that a restart finds every entry, but for those named [wal]. *)

From stdpp Require Import prelude gmap strings sorting.
From Stdlib Require Import Ascii ZArith Lia.
From S2P Require Import Prelude Text Split Pattern Folders.
Local Open Scope string_scope.
Local Open Scope list_scope.
Local Open Scope nat_scope.

(** ** Lists *)

Lemma elem_of_bfilter {A} (f : A → bool) l x : x ∈ List.filter f l ↔ x ∈ l ∧ f x = true.
Proof. rewrite !list_elem_of_In. apply filter_In. Qed.

Lemma NoDup_bfilter {A} (f : A → bool) l : NoDup l → NoDup (List.filter f l).
Proof. rewrite !NoDup_ListNoDup. apply List.NoDup_filter. Qed.

Lemma NoDup_omap_inj {A B} (f : A → option B) l :
  (∀ x y b, f x = Some b → f y = Some b → x = y) → NoDup l → NoDup (omap f l).
Proof.
  intros Hf. induction 1 as [|x l Hx _ IH]; [constructor|]. simpl. destruct (f x) as [b|] eqn:E; [|done].
  constructor; [|done]. intros (y & Hy & Ey)%list_elem_of_omap. by rewrite (Hf _ _ _ E Ey) in Hx.
Qed.

(** ** Paths *)

Lemma child_of_Some p q n : child_of p q = Some n ↔ q = p ++ [n].
Proof.
  unfold child_of. destruct (reverse q) as [|m r] eqn:E.
  - apply (f_equal reverse) in E. rewrite reverse_involutive in E. subst. split; [done|]. by destruct p.
  - apply (f_equal reverse) in E. rewrite reverse_involutive, reverse_cons in E. subst q. case_decide as Hp.
    + subst p. split; [by intros [= ->]|]. by intros [_ [= ->]]%app_inj_tail_iff.
    + split; [done|]. intros [? _]%app_inj_tail_iff. done.
Qed.

Section Walk.
Context (order : list string → list string).
Hypothesis order_perm : ∀ l, order l ≡ₚ l.
Implicit Types (fs : Fs) (p q : Path).

Lemma elem_of_read_dir p fs n : n ∈ read_dir order p fs ↔ p ++ [n] ∈ fs_dirs fs ∪ fs_files fs.
Proof.
  unfold read_dir. rewrite order_perm, list_elem_of_omap. split.
  - intros (q & Hq & ->%child_of_Some). by apply elem_of_elements.
  - intros Hq. exists (p ++ [n]). split; [by apply elem_of_elements|by apply child_of_Some].
Qed.

Lemma NoDup_read_dir p fs : NoDup (read_dir order p fs).
Proof.
  unfold read_dir. rewrite order_perm. apply NoDup_omap_inj; [|apply NoDup_elements].
  intros x y n. rewrite !child_of_Some. congruence.
Qed.

(** Directories that the walk goes into, from the directory of the bucket. *)
Inductive discovered fs : Path → Prop :=
| discovered_root : discovered fs []
| discovered_child p n :
    discovered fs p → p ++ [n] ∈ fs_dirs fs → skip_dir p n fs = false → discovered fs (p ++ [n]).

Lemma elem_of_child_dirs p fs q :
  q ∈ child_dirs order p fs ↔ ∃ n, q = p ++ [n] ∧ q ∈ fs_dirs fs ∧ skip_dir p n fs = false.
Proof.
  unfold child_dirs, is_dir. rewrite list_elem_of_fmap. setoid_rewrite elem_of_bfilter.
  setoid_rewrite andb_true_iff. setoid_rewrite negb_true_iff. setoid_rewrite bool_decide_eq_true.
  setoid_rewrite elem_of_read_dir. split.
  - intros (n & -> & _ & Hd & Hs). by exists n.
  - intros (n & -> & Hd & Hs). exists n. set_solver.
Qed.

Lemma NoDup_child_dirs p fs : NoDup (child_dirs order p fs).
Proof.
  unfold child_dirs. apply NoDup_fmap_2; [intros ?? [_ [= ->]]%app_inj_tail_iff; done|].
  apply NoDup_bfilter, NoDup_read_dir.
Qed.

(** ** The walk *)

Definition is_found fs (p : Path) : bool :=
  bool_decide (p ≠ []) &&
  (try_exists (p ++ [BLOCK_INDEX_FILE]) fs || bool_decide (child_dirs order p fs = [])).

(** Directories that were taken from the stack, and those on it. *)
Record walk_inv fs (visited stack : list Path) : Prop := {
  wi_nodup : NoDup (visited ++ stack);
  wi_dirs : ∀ p, p ∈ visited ++ stack → discovered fs p ∧ p ∈ fs_dirs fs;
  wi_parent : ∀ p n, p ++ [n] ∈ visited ++ stack → p ∈ visited;
  wi_root : [] ∈ visited ++ stack;
  wi_closed : ∀ p n, p ∈ visited → p ++ [n] ∈ fs_dirs fs → skip_dir p n fs = false → p ++ [n] ∈ visited ++ stack
}.

Lemma walk_inv_start fs : [] ∈ fs_dirs fs → walk_inv fs [] [[]].
Proof.
  intros Hr. split; simpl; try set_solver.
  - apply NoDup_singleton.
  - intros p ->%list_elem_of_singleton. split; [constructor|done].
  - intros p n E%list_elem_of_singleton. by destruct p.
Qed.

Lemma walk_inv_step fs visited p stack :
  walk_inv fs visited (p :: stack) → walk_inv fs (visited ++ [p]) (rev (child_dirs order p fs) ++ stack).
Proof.
  intros [Hnd Hd Hp Hr Hc].
  assert (∀ q, q ∈ (visited ++ [p]) ++ rev (child_dirs order p fs) ++ stack ↔
    q ∈ visited ++ p :: stack ∨ q ∈ child_dirs order p fs) as Hin.
  { intros q. rewrite !elem_of_app, elem_of_cons, <- Permutation_rev. set_solver. }
  split.
  - rewrite <- app_assoc. simpl. rewrite cons_middle.
    assert (visited ++ [p] ++ rev (child_dirs order p fs) ++ stack
            ≡ₚ child_dirs order p fs ++ visited ++ p :: stack) as ->.
    { rewrite (Permutation_rev (child_dirs order p fs)) at 2. solve_Permutation. }
    apply NoDup_app. split_and!; [apply NoDup_child_dirs|intros q Hq1 Hq2|done].
    apply elem_of_child_dirs in Hq1 as (n & -> & _). apply Hp in Hq2.
    rewrite NoDup_app in Hnd. destruct Hnd as (_ & Hno & _). apply (Hno p Hq2). set_solver.
  - intros q [Hq|(n & -> & Hq & Hs)%elem_of_child_dirs]%Hin; [by apply Hd|]. split; [|done].
    constructor; [|done..]. apply Hd. set_solver.
  - intros q n [Hq|(m & E & _)%elem_of_child_dirs]%Hin; [apply Hp in Hq; set_solver|].
    apply app_inj_tail_iff in E as [-> _]. set_solver.
  - apply Hin. by left.
  - intros q n Hq Hq' Hs. apply Hin. apply elem_of_app in Hq as [Hq| ->%list_elem_of_singleton]; [left; by apply Hc|].
    right. apply elem_of_child_dirs. by exists n.
Qed.

Lemma walk_end fs visited p : walk_inv fs visited [] → p ∈ visited ↔ discovered fs p.
Proof.
  intros [_ Hd _ Hr Hc]. rewrite app_nil_r in *. split; [intros Hp; by apply Hd|].
  induction 1 as [|p n _ IH Hp Hs]; [done|]. by apply Hc.
Qed.

Lemma walk_spec fs fuel visited stack items :
  walk_inv fs visited stack → size (fs_dirs fs) ≤ length visited + fuel →
  ∃ rest, walk order fuel stack fs items
            = Some (items ++ ((λ p, item (join_with "/" p)) <$> List.filter (is_found fs) rest)) ∧
    NoDup (visited ++ rest) ∧ ∀ p, p ∈ visited ++ rest ↔ discovered fs p.
Proof.
  revert visited stack items. induction fuel as [|fuel IH]; intros visited stack items HI Hf.
  - destruct stack as [|p stack].
    + exists []. simpl. rewrite !app_nil_r. split_and!; [done|by destruct HI; rewrite app_nil_r in *|]. intros p. by apply walk_end.
    + exfalso. destruct HI as [Hnd Hd _ _ _].
      assert (length (visited ++ p :: stack) ≤ size (fs_dirs fs)) as Hle.
      { rewrite <- (size_list_to_set (C := gset Path) _ Hnd). apply subseteq_size. intros q Hq.
        apply elem_of_list_to_set in Hq. by apply Hd. }
      rewrite length_app in Hle. simpl in Hle. lia.
  - destruct stack as [|p stack].
    + exists []. simpl. rewrite !app_nil_r. split_and!; [done|by destruct HI; rewrite app_nil_r in *|]. intros p. by apply walk_end.
    + assert (NoDup (visited ++ p :: stack)) as Hnd by apply HI.
      destruct (IH (visited ++ [p]) _ (if is_found fs p then items ++ [item (join_with "/" p)] else items)
        (walk_inv_step _ _ _ _ HI)) as (rest & Hw & Hr & Hin).
      { rewrite length_app. simpl. lia. }
      exists (p :: rest). split_and!.
      * cbn [walk]. change (bool_decide (p ≠ []) && _) with (is_found fs p). rewrite Hw. simpl.
        destruct (is_found fs p); simpl; by rewrite <- ?app_assoc.
      * by rewrite cons_middle, app_assoc.
      * intros q. rewrite <- Hin, !elem_of_app. set_solver.
Qed.

(** The folders that a restart finds. *)
Lemma build_from_fs_spec fs :
  [] ∈ fs_dirs fs →
  ∃ items, build_from_fs order Recursive fs = Some items ∧ Sorted item_le items ∧
    ∃ ps, NoDup ps ∧ items ≡ₚ ((λ p, item (join_with "/" p)) <$> ps) ∧
      ∀ p, p ∈ ps ↔ discovered fs p ∧ is_found fs p = true.
Proof.
  intros Hr. destruct (walk_spec fs (size (fs_dirs fs)) [] [[]] [] (walk_inv_start _ Hr)) as (rest & Hw & Hnd & Hin);
    [simpl; lia|].
  unfold build_from_fs. rewrite Hw. simpl. eexists. split; [done|]. split.
  - apply Sorted_merge_sort. intros a b. unfold item_le, str_le.
    rewrite (str_cmp_opp (it_folder_name b) (it_folder_name a)). destruct (str_cmp _ _); simpl; auto.
  - exists (List.filter (is_found fs) rest). split_and!.
    + by apply NoDup_bfilter.
    + by rewrite merge_sort_Permutation.
    + intros p. rewrite elem_of_bfilter. simpl in Hin. by rewrite Hin.
Qed.
End Walk.

(** ** Names are paths *)

Lemma split_app sep a b : split sep (a +:+ String sep b) = split sep a ++ split sep b.
Proof.
  induction a as [|c a IH]; cbn [split]; simpl; [by case_decide|]. rewrite IH. case_decide; [done|].
  destruct (split_nonempty sep a) as (w & l & ->). done.
Qed.

Lemma join_with_app sep p q : p ≠ [] → q ≠ [] → join_with sep (p ++ q) = join_with sep p +:+ String sep (join_with sep q).
Proof.
  intros Hp Hq. induction p as [|w [|w' p] IH]; [done| |].
  - destruct q as [|w' q]; [done|]. apply join_with_cons.
  - cbn [app]. rewrite !join_with_cons. change (w' :: p ++ q) with ((w' :: p) ++ q). rewrite IH by done.
    by rewrite <- !string_app_assoc.
Qed.

(** A part of a name: not empty, without slash and dot. *)
Definition good_segment (s : string) : Prop := s ≠ "" ∧ lacks "/" s = true ∧ lacks "." s = true.
Definition good_path (p : Path) : Prop := p ≠ [] ∧ Forall good_segment p.

Lemma split_joined_path p : good_path p → split "/" (join_with "/" p) = p.
Proof.
  intros [Hp Hg]. apply split_join_with; [done|]. eapply Forall_impl; [done|]. by intros s (_ & ? & _).
Qed.

Lemma join_empty p : Forall good_segment p → join_with "/" p = "" → p = [].
Proof.
  intros Hg E. destruct p as [|w [|w' p]]; [done| |].
  - simpl in E. apply Forall_cons in Hg as [[? _] _]. done.
  - rewrite join_with_cons in E. by destruct w.
Qed.

Lemma join_inj p q : good_path p → good_path q → join_with "/" p = join_with "/" q → p = q.
Proof. intros Hp Hq E. rewrite <- (split_joined_path p), <- (split_joined_path q) by done. by rewrite E. Qed.

Lemma prefix_join p n :
  Forall good_segment p →
  (if decide (join_with "/" p = "") then "" else join_with "/" p +:+ "/") +:+ n = join_with "/" (p ++ [n]).
Proof.
  intros Hg. case_decide as E.
  - apply join_empty in E as ->; done.
  - destruct p as [|w p]; [done|]. rewrite join_with_app by done. by rewrite <- string_app_assoc.
Qed.

Lemma is_below_iff name e : is_below name e = true ↔ split "/" name `prefix_of` split "/" e.
Proof.
  unfold is_below. rewrite orb_true_iff, bool_decide_eq_true. rewrite starts_with_iff. split.
  - intros [->|(t & ->)]; [done|]. rewrite <- string_app_assoc.
    change ("/" +:+ t) with (String "/" t). rewrite split_app. by eexists.
  - intros [k Hk]. destruct k as [|w k].
    + left. rewrite app_nil_r in Hk. by rewrite <- (join_split "/" e), <- (join_split "/" name), Hk.
    + right. exists (join_with "/" (w :: k)). rewrite <- (join_split "/" e), Hk.
      destruct (split_nonempty "/" name) as (w' & l & E).
      rewrite join_with_app by (by rewrite E || done). rewrite join_split. by rewrite <- string_app_assoc.
Qed.

Lemma renamed_path old new e :
  split "/" old `prefix_of` split "/" e →
  split "/" (new +:+ drop_str (String.length old) e) = split "/" new ++ drop (length (split "/" old)) (split "/" e).
Proof.
  intros [k Hk]. destruct k as [|w k].
  - rewrite app_nil_r in Hk. assert (e = old) as -> by (by rewrite <- (join_split "/" e), Hk, join_split).
    rewrite drop_ge by done. rewrite app_nil_r. rewrite <- (string_app_nil_r old) at 2. rewrite drop_str_app.
    by rewrite string_app_nil_r.
  - destruct (split_nonempty "/" old) as (w' & l & E).
    assert (e = old +:+ String "/" (join_with "/" (w :: k))) as ->.
    { rewrite <- (join_split "/" e), Hk, join_with_app by (by rewrite E || done). by rewrite join_split. }
    rewrite drop_str_app, !split_app, drop_app_length. done.
Qed.

Lemma split_pieces sep s : Forall (λ w, lacks sep w = true) (split sep s).
Proof.
  induction s as [|c s IH]; cbn [split]; [by repeat constructor|]. case_decide as Hc; [by constructor|].
  destruct (split sep s) as [|w l]; [repeat constructor; by apply lacks_cons|].
  apply Forall_cons in IH as [Hw Hl]. constructor; [by apply lacks_cons|done].
Qed.

Lemma name_segments e : check_entry_name_convention e = Ok tt → good_path (split "/" e).
Proof.
  intros He. destruct (split_nonempty "/" e) as (w & l & E). split; [by rewrite E|].
  apply Forall_forall. intros s Hs. split_and!.
  - intros ->. unfold check_entry_name_convention in He. case_decide; [done|].
    assert (existsb (λ segment, bool_decide (segment = EmptyString)) (split "/" e) = true) as Hx
      by (apply existsb_exists; exists ""; split; [by apply list_elem_of_In|done]).
    by rewrite Hx, orb_true_r in He.
  - pose proof (split_pieces "/" e) as Hp. rewrite Forall_forall in Hp. by apply Hp.
  - pose proof (split_lacks "." "/" e (name_lacks "." e eq_refl eq_refl He)) as Hp. rewrite Forall_forall in Hp. by apply Hp.
Qed.
