(* ===== verification/FolderLife.v ===== *)
(** * FolderLife: entries, folder map and directories stay together
    (storage/folder_keeper.rs, bucket/get_entry.rs, remove_entry.rs, rename_entry.rs)

    The invariant of the directory of a bucket, that every operation keeps it, and what a
    restart finds. *)

From stdpp Require Import prelude gmap strings sorting.
From Stdlib Require Import Ascii ZArith Lia.
From S2P Require Import Prelude Text Split Pattern Folders FolderWalk.
Local Open Scope string_scope.
Local Open Scope list_scope.

(** ** The invariant *)

Definition paths (b : BucketDir) : gset Path := set_map name_path (bd_entries b).
Definition folder_names (b : BucketDir) : list string := it_folder_name <$> bd_map b.

(** The entries are the directories with an index, each with the directory of its log; the
    entries above an entry are there as well, and the folder map lists all of them. *)
Record dir_inv (b : BucketDir) : Prop := {
  di_good : ∀ p, p ∈ paths b → good_path p;
  di_closed : ∀ p n, p ++ [n] ∈ paths b → p = [] ∨ p ∈ paths b;
  di_dirs : ∀ p, p ∈ fs_dirs (bd_fs b) ↔ p = [] ∨ p ∈ paths b ∨ ∃ q, q ∈ paths b ∧ p = q ++ [".wal"];
  di_files : ∀ p, p ∈ fs_files (bd_fs b) ↔ ∃ q, q ∈ paths b ∧ p = q ++ [BLOCK_INDEX_FILE];
  di_nodup : NoDup (folder_names b);
  di_map : ∀ e, e ∈ folder_names b ↔ e ∈ bd_entries b;
  di_saved : bd_saved b = bd_map b
}.

#[export] Instance name_path_inj : Inj (=) (=) name_path.
Proof. intros e e' E. unfold name_path in E. by rewrite <- (join_split "/" e), E, join_split. Qed.

Lemma elem_of_paths b e : name_path e ∈ paths b ↔ e ∈ bd_entries b.
Proof. unfold paths. rewrite elem_of_map. split; [intros (e' & ->%(inj name_path) & ?); done|by exists e]. Qed.

Lemma paths_name b p : p ∈ paths b → ∃ e, e ∈ bd_entries b ∧ p = name_path e.
Proof. unfold paths. rewrite elem_of_map. naive_solver. Qed.

Lemma paths_join b p : dir_inv b → p ∈ paths b ↔ good_path p ∧ join_with "/" p ∈ bd_entries b.
Proof.
  intros HI. split.
  - intros Hp. split; [by apply (di_good b HI)|]. destruct (paths_name b p Hp) as (e & He & ->).
    by unfold name_path; rewrite join_split.
  - intros [Hg He%elem_of_paths]. unfold name_path in He. by rewrite split_joined_path in He.
Qed.

Definition empty_dir : BucketDir := mkBucketDir (mkFs {[ [] ]} ∅) [] [] ∅.

Lemma empty_inv : dir_inv empty_dir.
Proof. split; simpl; unfold paths; simpl; try set_solver. constructor. Qed.

Lemma good_not_hidden s : good_segment s → starts_with s "." = false.
Proof.
  intros (_ & _ & Hd). destruct s as [|c s]; [done|]. apply lacks_cons in Hd as [Hc _]. simpl.
  rewrite bool_decide_false; [done|congruence].
Qed.

Lemma not_good_wal p : ¬ good_path (p ++ [".wal"]).
Proof. intros [_ Hg]. apply Forall_app in Hg as [_ [(_ & _ & Hd) _]%Forall_cons]. done. Qed.
Lemma not_good_index p : ¬ good_path (p ++ [BLOCK_INDEX_FILE]).
Proof. intros [_ Hg]. apply Forall_app in Hg as [_ [(_ & _ & Hd) _]%Forall_cons]. done. Qed.

(** ** What a restart finds *)

(** The name or the first part of it is [wal]. *)
Definition first_is_wal (p : Path) : bool := bool_decide (head p = Some "wal").

Section Restart.
Context (order : list string → list string).
Hypothesis order_perm : ∀ l, order l ≡ₚ l.

Lemma skip_entry b p n :
  dir_inv b → good_segment n → p = [] ∨ p ∈ paths b →
  skip_dir p n (bd_fs b) = bool_decide (p = [] ∧ n = "wal").
Proof.
  intros HI Hn Hp. unfold skip_dir. rewrite good_not_hidden by done. simpl. unfold try_exists.
  destruct (decide (n = "wal")) as [->|Hw].
  2: { rewrite (bool_decide_false (n = _)) by done. simpl. rewrite bool_decide_false; naive_solver. }
  rewrite (bool_decide_true ("wal" = "wal")) by done. simpl. destruct Hp as [->|Hp].
  - rewrite bool_decide_false, bool_decide_true; [done|done|]. simpl.
    rewrite (di_dirs b HI), (di_files b HI). intros [[?|[Hq|(q & Hq & E)]]|(q & Hq & E)]; try done.
    + by apply (di_good b HI), (not_good_wal []) in Hq.
    + destruct q; [|by destruct q]. by apply (di_good b HI) in Hq as [? _].
    + destruct q as [|? [|??]]; simplify_eq/=.
  - rewrite bool_decide_true, bool_decide_false; [done| |].
    + intros [-> _]. by apply (di_good b HI) in Hp as [? _].
    + left. apply (di_dirs b HI). right; right. by exists p.
Qed.

Lemma discovered_iff b p :
  dir_inv b → p ≠ [] → discovered (bd_fs b) p ↔ p ∈ paths b ∧ first_is_wal p = false.
Proof.
  intros HI. unfold first_is_wal. induction p as [|n p IH] using rev_ind; [done|]. intros _.
  assert (∀ q, q ++ [n] ∈ fs_dirs (bd_fs b) → n ≠ ".wal" → q ++ [n] ∈ paths b) as Hdir.
  { intros q [E|[?|(q' & _ & E)]]%(di_dirs b HI) Hn; [by destruct q|done|].
    apply app_inj_tail in E as [_ ->]. done. }
  assert (∀ q, q ++ [n] ∈ paths b → good_segment n) as Hgood.
  { intros q Hq%(di_good b HI). destruct Hq as [_ Hq]. apply Forall_app in Hq as [_ Hq]. by inversion Hq. }
  split.
  - intros Hd. inversion Hd as [E|p' n' Hp Hdirs Hs E]; [by destruct p|].
    apply app_inj_tail in E as [-> ->]. assert (n ≠ ".wal") as Hn.
    { intros ->. by unfold skip_dir in Hs. }
    specialize (Hdir p Hdirs Hn). split; [done|].
    destruct p as [|m p]; [|simpl; by apply IH].
    rewrite (skip_entry b [] n HI (Hgood _ Hdir)) in Hs by auto. apply bool_decide_eq_false in Hs.
    apply bool_decide_eq_false. simpl. naive_solver.
  - intros [Hp Hw]. constructor.
    + destruct (di_closed b HI p n Hp) as [->|Hp']; [constructor|]. apply IH.
      * intros ->. by apply (di_good b HI) in Hp' as [? _].
      * split; [done|]. destruct p; [by apply (di_good b HI) in Hp' as [? _]|done].
    + apply (di_dirs b HI). auto.
    + rewrite (skip_entry b p n HI (Hgood _ Hp)) by (by apply (di_closed b HI) with n).
      apply bool_decide_eq_false. intros [-> ->]. by apply bool_decide_eq_false in Hw.
Qed.

Lemma list_folders_all items : list_folders Recursive items = it_folder_name <$> items.
Proof.
  unfold list_folders. induction (it_folder_name <$> items) as [|n l IH]; [done|]. simpl in *. by rewrite IH.
Qed.

Lemma restart_spec b :
  dir_inv b →
  ∃ b', restart order b = Some b' ∧ bd_fs b' = bd_fs b ∧ bd_saved b' = bd_map b' ∧ NoDup (folder_names b') ∧
    (∀ e, e ∈ folder_names b' ↔ e ∈ bd_entries b') ∧
    ∀ e, e ∈ bd_entries b' ↔ e ∈ bd_entries b ∧ first_is_wal (name_path e) = false.
Proof.
  intros HI. destruct (build_from_fs_spec order order_perm (bd_fs b)) as (items & Hb & _ & ps & Hnd & Hperm & Hin).
  { apply (di_dirs b HI). auto. }
  assert (∀ p, p ∈ ps ↔ p ∈ paths b ∧ first_is_wal p = false) as Hps.
  { intros p. rewrite Hin. split.
    - intros [Hd Hf]. apply discovered_iff; [done| |done]. intros ->. done.
    - intros [Hp Hw]. assert (p ≠ []) as Hne by (intros ->; by apply (di_good b HI) in Hp as [? _]).
      split; [by apply discovered_iff|]. unfold is_found, try_exists.
      rewrite bool_decide_true by done. simpl. rewrite bool_decide_true; [done|].
      right. apply (di_files b HI). by exists p. }
  assert (it_folder_name <$> items ≡ₚ (join_with "/" <$> ps)) as Hnames.
  { rewrite Hperm, <- list_fmap_compose. done. }
  assert (∀ e, e ∈ (it_folder_name <$> items) ↔ e ∈ bd_entries b ∧ first_is_wal (name_path e) = false) as Hes.
  { intros e. rewrite Hnames, list_elem_of_fmap. setoid_rewrite Hps. split.
    - intros (p & -> & Hp & Hw). apply paths_join in Hp as [Hg He]; [|done]. unfold name_path. by rewrite split_joined_path.
    - intros [He%elem_of_paths Hw]. exists (name_path e). unfold name_path at 1. by rewrite join_split. }
  unfold restart. rewrite Hb. eexists. split; [done|]. simpl. rewrite list_folders_all. split_and!; [done..| | |].
  - unfold folder_names. simpl. rewrite Hnames. apply NoDup_fmap_2_strong; [|done]. intros p q Hp Hq E.
    apply join_inj; [..|done]; apply (di_good b HI); by apply Hps.
  - intros e. unfold folder_names. simpl. by rewrite elem_of_list_to_set.
  - intros e. by rewrite elem_of_list_to_set.
Qed.

Lemma restart_keeps b :
  dir_inv b → (∀ e, e ∈ bd_entries b → first_is_wal (name_path e) = false) →
  ∃ b', restart order b = Some b' ∧ dir_inv b' ∧ bd_entries b' = bd_entries b.
Proof.
  intros HI Hw. destruct (restart_spec b HI) as (b' & Hr & Hfs & Hsv & Hnd & Hm & He).
  assert (bd_entries b' = bd_entries b) as Ee by (apply set_eq; intros e; rewrite He; naive_solver).
  exists b'. split_and!; [done| |done]. destruct HI as [H1 H2 H3 H4 _ _ _].
  split; unfold paths in *; rewrite ?Ee, ?Hfs; try done. intros e. by rewrite Hm, Ee.
Qed.
End Restart.

(** ** Creating entries *)

Lemma elem_of_path_prefixes x p : x ∈ path_prefixes p ↔ x `prefix_of` p.
Proof.
  unfold path_prefixes. rewrite list_elem_of_fmap. split.
  - intros (n & -> & _). apply prefix_take.
  - intros [k ->]. exists (length x). rewrite take_app_length. split; [done|].
    apply elem_of_seq. rewrite length_app. lia.
Qed.

#[local] Opaque path_prefixes.

Lemma prefix_snoc_iff (x p : Path) n : x `prefix_of` p ++ [n] ↔ x `prefix_of` p ∨ x = p ++ [n].
Proof.
  split.
  - intros [k E]. destruct k as [|m k] using rev_ind; [rewrite app_nil_r in E; auto|].
    rewrite app_assoc in E. apply app_inj_tail in E as [-> _]. left. by eexists.
  - intros [?| ->]; [by apply prefix_app_r|done].
Qed.

Lemma paths_prefix b x p : dir_inv b → p ∈ paths b → x `prefix_of` p → x = [] ∨ x ∈ paths b.
Proof.
  intros HI. induction p as [|n p IH] using rev_ind; intros Hp Hx.
  - apply prefix_nil_inv in Hx as ->. auto.
  - destruct (di_closed b HI p n Hp) as [->|Hp'].
    + destruct x as [|m x]; [auto|]. right. destruct Hx as [k E]. simplify_eq/=. by destruct x.
    + apply prefix_snoc_iff in Hx as [Hx| ->]; auto.
Qed.

Lemma good_prefix x p : good_path p → x `prefix_of` p → x = [] ∨ good_path x.
Proof. intros [_ Hg] [k ->]. apply Forall_app in Hg as [Hg _]. destruct x; [auto|right; split; done]. Qed.

Lemma index_file b p : dir_inv b → good_path p → p ∉ fs_files (bd_fs b).
Proof. intros HI Hg (q & _ & ->)%(di_files b HI). by apply not_good_index in Hg. Qed.

Lemma create_ok p fs :
  (∀ x, x `prefix_of` p → x ∉ fs_files fs) →
  create_dir_all p fs = Ok (mkFs (list_to_set (path_prefixes p) ∪ fs_dirs fs) (fs_files fs)).
Proof.
  intros Hf. unfold create_dir_all. rewrite decide_False; [done|].
  intros (x & Hx & Hx')%Exists_exists. apply elem_of_path_prefixes in Hx. by eapply Hf.
Qed.

Lemma good_not_index x p : good_path p → x `prefix_of` p → ∀ q, x ≠ q ++ [BLOCK_INDEX_FILE].
Proof.
  intros Hg Hx q ->. destruct (good_prefix _ _ Hg Hx) as [E|Hgx]; [by destruct q|by apply not_good_index in Hgx].
Qed.
Lemma wal_not_index x p : good_path p → x `prefix_of` p ++ [".wal"] → ∀ q, x ≠ q ++ [BLOCK_INDEX_FILE].
Proof.
  intros Hg [Hx|E]%prefix_snoc_iff q ->; [by eapply good_not_index|]. by apply app_inj_tail in E as [_ ?].
Qed.

(** [add_folder] puts the prefixes of a name into the list. *)
Lemma add_items_spec c segs items :
  Forall good_segment (c ++ segs) → NoDup (it_folder_name <$> items) →
  NoDup (it_folder_name <$> add_items (join_with "/" c) segs items) ∧
  ∀ e, e ∈ it_folder_name <$> add_items (join_with "/" c) segs items ↔
    e ∈ it_folder_name <$> items ∨ ∃ k, k ≠ [] ∧ k `prefix_of` segs ∧ e = join_with "/" (c ++ k).
Proof.
  revert c items. induction segs as [|n segs IH]; intros c items Hg Hnd.
  - simpl. split; [done|]. intros e. split; [auto|]. intros [?|(k & Hk & ->%prefix_nil_inv & _)]; done.
  - cbn [add_items]. apply Forall_app in Hg as Hg'. destruct Hg' as [Hc [Hn Hs]%Forall_cons_1].
    rewrite prefix_join by done. set (items' := if existsb _ items then _ else _).
    assert (NoDup (it_folder_name <$> items') ∧
            ∀ e, e ∈ it_folder_name <$> items' ↔ e ∈ it_folder_name <$> items ∨ e = join_with "/" (c ++ [n])) as [Hnd' Hin'].
    { subst items'. destruct (existsb _ items) eqn:Ex.
      - apply existsb_exists in Ex as (i & Hi & E%bool_decide_eq_true). split; [done|]. intros e.
        split; [auto|]. intros [?| ->]; [done|]. rewrite <- E. apply list_elem_of_fmap. exists i.
        by rewrite list_elem_of_In.
      - assert (join_with "/" (c ++ [n]) ∉ it_folder_name <$> items) as Hno.
        { intros (i & E & Hi)%list_elem_of_fmap. apply not_true_iff_false in Ex. apply Ex. apply existsb_exists.
          exists i. rewrite <- list_elem_of_In. split; [done|]. by apply bool_decide_eq_true. }
        rewrite fmap_app. simpl. split; [|intros e; set_solver].
        apply NoDup_app. split_and!; [done|set_solver|apply NoDup_singleton]. }
    destruct (IH (c ++ [n]) items') as [H1 H2]; [by rewrite <- app_assoc|done|]. split; [done|].
    intros e. rewrite H2, Hin'. split.
    + intros [[?| ->]|(k & Hk & [k' ->] & ->)]; [auto| |].
      * right. exists [n]. split_and!; [done| |done]. by exists segs.
      * right. exists (n :: k). split_and!; [done| |by rewrite <- app_assoc]. by exists k'.
    + intros [?|(k & Hk & [k' E] & ->)]; [auto|]. destruct k as [|m k]; [done|]. simplify_eq/=.
      destruct k as [|m' k]; [auto|]. right. exists (m' :: k). split_and!; [done|by eexists|by rewrite <- app_assoc].
Qed.

(** A folder below the directory of the bucket or of an entry becomes an entry. *)
Lemma create_step b q n :
  dir_inv b → q = [] ∨ q ∈ paths b → good_path (q ++ [n]) → q ++ [n] ∉ paths b →
  let name := join_with "/" (q ++ [n]) in
  ∃ b', (_ ← add_folder name; _ ← entry_build name;
         st_modify (λ b, with_entries ({[name]} ∪ bd_entries b) b)) b = (Ok tt, b') ∧
    dir_inv b' ∧ bd_entries b' = {[name]} ∪ bd_entries b.
Proof.
  intros HI Hq Hg Hno name. set (p := q ++ [n]) in *.
  assert (name_path name = p) as Hname by (by apply split_joined_path).
  assert (∀ x, x `prefix_of` p → x ∉ fs_files (bd_fs b)) as Hf0.
  { intros x Hx (q' & _ & E)%(di_files b HI). by eapply good_not_index. }
  set (fs1 := mkFs (list_to_set (path_prefixes p) ∪ fs_dirs (bd_fs b)) (fs_files (bd_fs b))).
  set (fs2 := mkFs (list_to_set (path_prefixes p) ∪ fs_dirs fs1) ({[p ++ [BLOCK_INDEX_FILE]]} ∪ fs_files fs1)).
  set (fs3 := mkFs (list_to_set (path_prefixes (p ++ [".wal"])) ∪ fs_dirs fs2) (fs_files fs2)).
  set (items := add_items EmptyString (split "/" name) (bd_map b)).
  assert (add_folder name b = (Ok tt, with_map items (with_fs fs1 b))) as H1.
  { unfold add_folder. rewrite Hname, create_ok by done. done. }
  assert (entry_build name (with_map items (with_fs fs1 b)) = (Ok tt, with_map items (with_fs fs3 b))) as H2.
  { unfold entry_build. rewrite Hname. simpl bd_fs. unfold try_exists. rewrite bool_decide_false.
    - rewrite create_ok by done. cbn [mbind outcome_bind]. fold fs2. rewrite create_ok; [done|].
      intros x Hx. simpl. intros [->%elem_of_singleton|(q' & _ & E)%(di_files b HI)]%elem_of_union;
        by eapply wal_not_index.
    - simpl. intros [[Hp%elem_of_list_to_set|Hd]%elem_of_union|(q' & Hq' & E)%(di_files b HI)].
      + apply elem_of_path_prefixes in Hp. by eapply good_not_index.
      + apply (di_dirs b HI) in Hd as [E|[Hx|(q' & _ & E)]]; [by destruct p|by apply (di_good b HI), not_good_index in Hx|].
        by apply app_inj_tail in E as [_ ?].
      + apply app_inj_tail in E as [<- _]. done. }
  eexists. rewrite (st_bind_ok _ _ _ _ _ H1), (st_bind_ok _ _ _ _ _ H2). split; [done|]. split; [|done].
  assert (∀ x, x ∈ paths (with_entries ({[name]} ∪ bd_entries b) (with_map items (with_fs fs3 b))) ↔ x = p ∨ x ∈ paths b) as Hp.
  { intros x. unfold paths. simpl. rewrite set_map_union_L, set_map_singleton_L, Hname. set_solver. }
  assert (∀ x, x `prefix_of` p → x = [] ∨ x = p ∨ x ∈ paths b) as Hpre.
  { intros x [Hx| ->]%prefix_snoc_iff; [|auto].
    destruct Hq as [->|Hq]; [by apply prefix_nil_inv in Hx; auto|]. destruct (paths_prefix b x _ HI Hq); auto. }
  destruct (add_items_spec [] (split "/" name) (bd_map b)) as [Hnd Hin].
  { rewrite app_nil_l. change (Forall good_segment (name_path name)). rewrite Hname. apply Hg. }
  { apply (di_nodup b HI). }
  split.
  - intros x [->|Hx]%Hp; [done|by apply (di_good b HI)].
  - intros x m [E|Hx]%Hp.
    + apply app_inj_tail in E as [-> _]. rewrite Hp. naive_solver.
    + destruct (di_closed b HI x m Hx); [auto|]. rewrite Hp. auto.
  - intros x. setoid_rewrite Hp. simpl. rewrite !elem_of_union, !elem_of_list_to_set, !elem_of_path_prefixes, (di_dirs b HI).
    rewrite prefix_snoc_iff. split.
    + assert (∀ y, y `prefix_of` p → y = [] ∨ (y = p ∨ y ∈ paths b) ∨ ∃ q, (q = p ∨ q ∈ paths b) ∧ y = q ++ [".wal"]) as Hpre'
        by (intros y Hy; destruct (Hpre y Hy) as [?|[?|?]]; auto).
      intros [[Hx| ->]|[Hx|[Hx|[->|[Hx|(q' & Hq' & ->)]]]]]; [by apply Hpre'| |by apply Hpre'..|auto|auto|];
        right; right; eauto.
    + intros [->|[[->|Hx]|(q' & [->|Hq'] & ->)]]; [auto 10..|by left; right|]. do 5 right. eauto.
  - intros x. setoid_rewrite Hp. simpl. rewrite elem_of_union, elem_of_singleton, (di_files b HI). naive_solver.
  - done.
  - intros e.
    change (folder_names _) with (it_folder_name <$> add_items (join_with "/" []) (split "/" name) (bd_map b)).
    change (bd_entries _) with ({[name]} ∪ bd_entries b). rewrite Hin, elem_of_union, elem_of_singleton.
    fold (folder_names b). rewrite (di_map b HI). split.
    + intros [?|(k & Hk & Hk' & ->)]; [auto|]. change (split "/" name) with (name_path name) in Hk'. rewrite Hname in Hk'.
      simpl. destruct (Hpre k Hk') as [?|[->|Hx]]; [done|auto|]. right. by apply paths_join in Hx as [_ ?].
    + intros [->|?]; [|auto]. right. exists p. split_and!; [apply Hg| |done].
      change (split "/" name) with (name_path name). by rewrite Hname.
  - done.
Qed.

Lemma create_entries_spec b c segs :
  dir_inv b → c = [] ∨ c ∈ paths b → Forall good_segment (c ++ segs) →
  ∃ b', create_entries (join_with "/" c) segs b = (Ok tt, b') ∧ dir_inv b' ∧
    ∀ p, p ∈ paths b' ↔ p ∈ paths b ∨ ∃ k, k ≠ [] ∧ k `prefix_of` segs ∧ p = c ++ k.
Proof.
  revert b c. induction segs as [|n segs IH]; intros b c HI Hc Hg.
  - exists b. split_and!; [done..|]. intros p. split; [auto|]. intros [?|(k & Hk & ->%prefix_nil_inv & _)]; done.
  - assert (good_path (c ++ [n])) as Hgn.
    { split; [by destruct c|]. rewrite cons_middle, app_assoc in Hg. by apply Forall_app in Hg as [? _]. }
    assert (∃ b1, (if decide (join_with "/" (c ++ [n]) ∈ bd_entries b) then mret tt
        else _ ← add_folder (join_with "/" (c ++ [n])); _ ← entry_build (join_with "/" (c ++ [n]));
             st_modify (λ b, with_entries ({[join_with "/" (c ++ [n])]} ∪ bd_entries b) b)) b = (Ok tt, b1) ∧
      dir_inv b1 ∧ ∀ p, p ∈ paths b1 ↔ p ∈ paths b ∨ p = c ++ [n]) as (b1 & H1 & HI1 & Hp1).
    { case_decide as Hin.
      - exists b. split_and!; [done..|]. intros p. split; [auto|]. intros [?| ->]; [done|]. by apply paths_join.
      - destruct (create_step b c n HI Hc Hgn) as (b1 & E & HI1 & He).
        { intros Hp. by apply paths_join in Hp as [_ ?]. }
        exists b1. split_and!; [done..|]. intros p. unfold paths. rewrite He, set_map_union_L, set_map_singleton_L.
        unfold name_path. rewrite split_joined_path by done. set_solver. }
    destruct (IH b1 (c ++ [n]) HI1) as (b' & H2 & HI2 & Hp2); [right; apply Hp1; auto|by rewrite <- app_assoc|].
    exists b'. split_and!; [|done|].
    + cbn [create_entries]. rewrite prefix_join by (by apply Forall_app in Hg as [? _]).
      unfold mbind at 1, ST_bind at 1, st_get. by rewrite (st_bind_ok _ _ _ _ _ H1).
    + intros p. rewrite Hp2, Hp1. split.
      * intros [[?| ->]|(k & Hk & [k' ->] & ->)]; [auto| |].
        -- right. exists [n]. split_and!; [done|by eexists|done].
        -- right. exists (n :: k). split_and!; [done|by eexists|by rewrite <- app_assoc].
      * intros [?|(k & Hk & [k' E] & ->)]; [auto|]. destruct k as [|m k]; [done|]. simplify_eq/=.
        destruct k as [|m' k]; [auto|]. right. exists (m' :: k). split_and!; [done|by eexists|by rewrite <- app_assoc].
Qed.

Lemma create_entry_spec b key :
  dir_inv b → check_entry_name_convention key = Ok tt →
  ∃ b', create_entry key b = (Ok tt, b') ∧ dir_inv b' ∧
    ∀ p, p ∈ paths b' ↔ p ∈ paths b ∨ p ≠ [] ∧ p `prefix_of` name_path key.
Proof.
  intros HI Hkey. pose proof (name_segments _ Hkey) as Hg. unfold create_entry. rewrite Hkey.
  rewrite (st_bind_ok _ (st_lift (Ok tt)) b tt b eq_refl), (st_bind_ok _ st_get b b b eq_refl). case_decide as Hin.
  - exists b. split_and!; [done..|]. intros p. split; [auto|]. intros [?|[Hp Hpre]]; [done|].
    by destruct (paths_prefix b p (name_path key) HI); [by apply elem_of_paths|..].
  - destruct (create_entries_spec b [] (split "/" key) HI) as (b' & H1 & HI' & Hp); [auto|apply Hg|].
    exists b'. split_and!; [done..|]. intros p. rewrite Hp. naive_solver.
Qed.

(** ** Removing entries *)

(** What is above a directory or a file is a directory. *)
Definition tree (fs : Fs) : Prop :=
  ∀ p q : Path, p `prefix_of` q → q ∈ fs_dirs fs ∨ q ∈ fs_files fs → p = q ∨ p ∈ fs_dirs fs.

Lemma inv_tree b : dir_inv b → tree (bd_fs b).
Proof.
  intros HI p q Hp Hq.
  assert (∀ r n, r ∈ paths b → p `prefix_of` r ++ [n] → p = r ++ [n] ∨ p ∈ fs_dirs (bd_fs b)) as Hsnoc.
  { intros r n Hr [Hpr| ->]%prefix_snoc_iff; [|auto]. right. apply (di_dirs b HI).
    destruct (paths_prefix b p r HI Hr Hpr); auto. }
  destruct Hq as [[->|[Hq|(r & Hr & ->)]]%(di_dirs b HI)|(r & Hr & ->)%(di_files b HI)].
  - apply prefix_nil_inv in Hp. auto.
  - right. apply (di_dirs b HI). destruct (paths_prefix b p q HI Hq Hp); auto.
  - by apply Hsnoc.
  - by apply Hsnoc.
Qed.

Lemma remove_dir_spec p fs :
  tree fs →
  (∀ x, x ∈ fs_dirs (remove_dir p fs) ↔ x ∈ fs_dirs fs ∧ ¬ p `prefix_of` x) ∧
  (∀ x, x ∈ fs_files (remove_dir p fs) ↔ x ∈ fs_files fs ∧ ¬ p `prefix_of` x) ∧ tree (remove_dir p fs).
Proof.
  intros Ht.
  assert (∀ x : Path, x ∈ fs_dirs fs ∨ x ∈ fs_files fs → p `prefix_of` x → try_exists p fs = true) as Hex.
  { intros x Hx Hp. unfold try_exists. apply bool_decide_eq_true. destruct (Ht p x Hp Hx) as [->|?]; auto. }
  assert ((∀ x, x ∈ fs_dirs (remove_dir p fs) ↔ x ∈ fs_dirs fs ∧ ¬ p `prefix_of` x) ∧
          (∀ x, x ∈ fs_files (remove_dir p fs) ↔ x ∈ fs_files fs ∧ ¬ p `prefix_of` x)) as [H1 H2].
  { unfold remove_dir, under. destruct (try_exists p fs) eqn:E; simpl.
    - split; intros x; rewrite elem_of_difference, elem_of_filter; naive_solver.
    - assert (∀ x : Path, x ∈ fs_dirs fs ∨ x ∈ fs_files fs → ¬ p `prefix_of` x) as Hn
        by (intros x Hx Hp; by specialize (Hex x Hx Hp)).
      split; intros x; naive_solver. }
  split_and!; [done..|]. intros x y Hxy Hy. destruct (Ht x y Hxy) as [?|Hx]; [naive_solver|auto|]. right.
  apply H1. split; [done|]. intros Hp. destruct Hy as [[_ Hn]%H1|[_ Hn]%H2]; apply Hn; by etrans.
Qed.

Lemma retained_iff n i : retained n i = true ↔ ¬ name_path n `prefix_of` name_path (it_folder_name i).
Proof.
  unfold name_path. rewrite <- is_below_iff. unfold retained, is_below.
  destruct (decide (it_folder_name i = n)) as [->|Hn].
  - rewrite bool_decide_false, bool_decide_true; naive_solver.
  - rewrite bool_decide_true, (bool_decide_false (_ = _)) by done. simpl. destruct (starts_with _ _); naive_solver.
Qed.

Lemma remove_all_spec names b :
  tree (bd_fs b) → bd_saved b = bd_map b →
  let b' := foldl (λ b n, remove_one n b) b names in
  let kept (x : Path) := ∀ n, n ∈ names → ¬ name_path n `prefix_of` x in
  (∀ x, x ∈ fs_dirs (bd_fs b') ↔ x ∈ fs_dirs (bd_fs b) ∧ kept x) ∧
  (∀ x, x ∈ fs_files (bd_fs b') ↔ x ∈ fs_files (bd_fs b) ∧ kept x) ∧
  (∀ e, e ∈ bd_entries b' ↔ e ∈ bd_entries b ∧ e ∉ names) ∧
  (∀ e, e ∈ folder_names b' ↔ e ∈ folder_names b ∧ kept (name_path e)) ∧
  (NoDup (folder_names b) → NoDup (folder_names b')) ∧ bd_saved b' = bd_map b'.
Proof.
  revert b. induction names as [|n names IH]; intros b Ht Hs; simpl.
  { split_and!; [set_solver..|done|done]. }
  destruct (remove_dir_spec (name_path n) _ Ht) as (Hd & Hf & Ht').
  destruct (IH (remove_one n b) Ht' eq_refl) as (H1 & H2 & H3 & H4 & H5 & H6).
  assert (∀ e, e ∈ folder_names (remove_one n b) ↔ e ∈ folder_names b ∧ ¬ name_path n `prefix_of` name_path e) as Hm.
  { intros e. unfold folder_names. simpl. rewrite !list_elem_of_fmap. setoid_rewrite elem_of_bfilter.
    setoid_rewrite retained_iff. naive_solver. }
  split_and!; [..|intros Hnd; apply H5|done].
  - intros x. rewrite H1. simpl. rewrite Hd. set_solver.
  - intros x. rewrite H2. simpl. rewrite Hf. set_solver.
  - intros e. rewrite H3. simpl. set_solver.
  - intros e. rewrite H4, Hm. set_solver.
  - unfold folder_names in *. simpl. revert Hnd. clear. induction (bd_map b) as [|i l IH]; [done|]. simpl.
    intros [Hi Hl]%NoDup_cons. specialize (IH Hl). destruct (retained n i); [|done]. simpl. constructor; [|done].
    intros (j & E & [Hj _]%elem_of_bfilter)%list_elem_of_fmap. apply Hi. rewrite E. by apply list_elem_of_fmap_2.
Qed.

Lemma elem_of_entries_below name b e :
  e ∈ entries_below name b ↔ e ∈ bd_entries b ∧ name_path name `prefix_of` name_path e.
Proof. unfold entries_below. by rewrite elem_of_bfilter, elem_of_elements, is_below_iff. Qed.

Lemma name_path_nonempty name : name_path name ≠ [].
Proof. unfold name_path. destruct (split_nonempty "/" name) as (? & ? & ->). done. Qed.

(** An entry below a name means that the name is an entry. *)
Lemma below_is_entry name b : dir_inv b → entries_below name b ≠ [] → name_path name ∈ paths b.
Proof.
  intros HI Hne. destruct (entries_below name b) as [|e l] eqn:E; [done|].
  assert (e ∈ entries_below name b) as He by (rewrite E; set_solver).
  apply elem_of_entries_below in He as [He Hp]. apply elem_of_paths in He.
  destruct (paths_prefix b _ _ HI He Hp) as [E'|?]; [by apply name_path_nonempty in E'|done].
Qed.

Lemma remove_entry_spec b name :
  dir_inv b → is_system_meta_entry name = false → entries_below name b ≠ [] →
  ∃ b', remove_entry name b = (Ok tt, b') ∧ dir_inv b' ∧
    ∀ p, p ∈ paths b' ↔ p ∈ paths b ∧ ¬ name_path name `prefix_of` p.
Proof.
  intros HI Hm Hne. pose proof (below_is_entry name b HI Hne) as Hname.
  set (names := merge_sort removal_le (entries_below name b)).
  assert (∀ e, e ∈ names ↔ e ∈ bd_entries b ∧ name_path name `prefix_of` name_path e) as Hnames.
  { intros e. unfold names. by rewrite merge_sort_Permutation, elem_of_entries_below. }
  destruct (remove_all_spec names b (inv_tree b HI) (di_saved b HI)) as (H1 & H2 & H3 & H4 & H5 & H6).
  set (b' := foldl (λ b n, remove_one n b) b names) in *.
  assert (∀ x : Path, (∀ n, n ∈ names → ¬ name_path n `prefix_of` x) ↔ ¬ name_path name `prefix_of` x) as Hkept.
  { intros x. split.
    - intros Hk. apply Hk, Hnames. split; [by apply elem_of_paths|done].
    - intros Hk n [_ Hn]%Hnames Hx. apply Hk. by etrans. }
  assert (∀ p, p ∈ paths b' ↔ p ∈ paths b ∧ ¬ name_path name `prefix_of` p) as Hp.
  { intros p. unfold paths. rewrite !elem_of_map. setoid_rewrite H3. setoid_rewrite Hnames. naive_solver. }
  exists b'. split_and!; [|split|done].
  - unfold remove_entry. rewrite Hm. subst b' names. by destruct (entries_below name b).
  - intros p [Hx _]%Hp. by apply (di_good b HI).
  - intros p n [Hx Hn]%Hp. destruct (di_closed b HI p n Hx) as [?|Hp']; [auto|]. right. apply Hp. split; [done|].
    intros ?. apply Hn. by apply prefix_app_r.
  - intros p. rewrite H1, Hkept, (di_dirs b HI). setoid_rewrite Hp. split.
    + intros [[->|[?|(q & Hq & ->)]] Hk]; [auto|auto|]. right; right. exists q. split_and!; [done| |done].
      intros ?. apply Hk. by apply prefix_app_r.
    + intros [->|[[? ?]|(q & [Hq Hn] & ->)]].
      * split; [auto|]. intros E%prefix_nil_inv. by apply name_path_nonempty in E.
      * auto.
      * split; [right; right; eauto|]. intros [?|E]%prefix_snoc_iff; [done|].
        apply (di_good b HI) in Hname. rewrite E in Hname. by apply not_good_wal in Hname.
  - intros p. rewrite H2, Hkept, (di_files b HI). setoid_rewrite Hp. split.
    + intros [(q & Hq & ->) Hk]. exists q. split_and!; [done| |done]. intros ?. apply Hk. by apply prefix_app_r.
    + intros (q & [Hq Hn] & ->). split; [eauto|]. intros [?|E]%prefix_snoc_iff; [done|].
      apply (di_good b HI) in Hname. rewrite E in Hname. by apply not_good_index in Hname.
  - apply H5, (di_nodup b HI).
  - intros e. rewrite H4, Hkept, H3, Hnames, (di_map b HI). naive_solver.
  - done.
Qed.

(** ** Renaming entries *)

Lemma move_below old new k : move old new (old ++ k) = new ++ k.
Proof. unfold move. rewrite decide_True by (by apply prefix_app_r). by rewrite drop_app_length. Qed.
Lemma move_other old new p : ¬ old `prefix_of` p → move old new p = p.
Proof. intros Hp. unfold move. by rewrite decide_False. Qed.

(** The name of a file or directory of an entry moves with the entry. *)
Lemma move_snoc old new q n : old ≠ q ++ [n] → move old new (q ++ [n]) = move old new q ++ [n].
Proof.
  intros Hne. destruct (decide (old `prefix_of` q)) as [[k ->]|Hp].
  - by rewrite <- app_assoc, !move_below, app_assoc.
  - rewrite !move_other; [done|done|]. intros [?|?]%prefix_snoc_iff; done.
Qed.

Lemma renamed_move old new i :
  name_path (it_folder_name (renamed old new i)) = move (name_path old) (name_path new) (name_path (it_folder_name i)).
Proof.
  unfold renamed. case_decide as E.
  - rewrite E. simpl. rewrite <- (app_nil_r (name_path old)) at 2. by rewrite move_below, app_nil_r.
  - destruct (starts_with _ _) eqn:Es.
    + assert (is_below old (it_folder_name i) = true) as [k Hk]%is_below_iff
        by (unfold is_below; by rewrite Es, orb_true_r).
      simpl. unfold name_path at 1. rewrite renamed_path by (by eexists). unfold name_path. rewrite Hk.
      by rewrite move_below, drop_app_length.
    + rewrite move_other; [done|]. intros Hb%is_below_iff. unfold is_below in Hb.
      rewrite Es, bool_decide_false in Hb by done. done.
Qed.

Section Rename.
Context (b : BucketDir) (old new : string).
Hypothesis HI : dir_inv b.
Hypothesis Hold : name_path old ∈ paths b.
Hypothesis Hnew : good_path (name_path new).
Hypothesis Hfree : name_path new ∉ paths b.
Hypothesis Hout : ¬ name_path old `prefix_of` name_path new.
Hypothesis Hparent : ∀ q n, name_path new = q ++ [n] → q = [] ∨ q ∈ paths b.

Abbreviation mv := (move (name_path old) (name_path new)).

Lemma nothing_below_new q : q ∈ paths b → ¬ name_path new `prefix_of` q.
Proof using All.
  intros Hq Hp. destruct (paths_prefix b _ _ HI Hq Hp) as [E|?]; [by apply name_path_nonempty in E|done].
Qed.

Lemma new_is_free x : x ∈ fs_dirs (bd_fs b) ∨ x ∈ fs_files (bd_fs b) → ¬ name_path new `prefix_of` x.
Proof using All.
  intros [[->|[Hx|(q & Hq & ->)]]%(di_dirs b HI)|(q & Hq & ->)%(di_files b HI)].
  - intros E%prefix_nil_inv. by apply name_path_nonempty in E.
  - by apply nothing_below_new.
  - intros [?|E]%prefix_snoc_iff; [by eapply nothing_below_new|]. rewrite E in Hnew. by apply not_good_wal in Hnew.
  - intros [?|E]%prefix_snoc_iff; [by eapply nothing_below_new|]. rewrite E in Hnew. by apply not_good_index in Hnew.
Qed.

Lemma mv_inj q q' : q ∈ paths b → q' ∈ paths b → mv q = mv q' → q = q'.
Proof using All.
  intros Hq Hq' E. apply nothing_below_new in Hq as Hn, Hq' as Hn'.
  destruct (decide (name_path old `prefix_of` q)) as [[k ->]|Hp], (decide (name_path old `prefix_of` q')) as [[k' ->]|Hp'].
  - rewrite !move_below in E. by apply app_inv_head in E as ->.
  - rewrite move_below, move_other in E by done. subst q'. by destruct Hn'; eexists.
  - rewrite move_below, move_other in E by done. subst q. by destruct Hn; eexists.
  - by rewrite !move_other in E.
Qed.

Lemma mv_good q : q ∈ paths b → good_path (mv q).
Proof using All.
  intros Hq%(di_good b HI). destruct (decide (name_path old `prefix_of` q)) as [[k ->]|Hp].
  - rewrite move_below. destruct Hq as [_ Hq], Hnew as [Hne Hn]. apply Forall_app in Hq as [_ Hk].
    split; [by destruct (name_path new)|]. by apply Forall_app.
  - by rewrite move_other.
Qed.

Lemma mv_file q n : q ∈ paths b → ¬ good_segment n → mv (q ++ [n]) = mv q ++ [n].
Proof using All.
  intros Hq Hn. apply move_snoc. intros E. apply (di_good b HI) in Hold. rewrite E in Hold.
  destruct Hold as [_ Hg]. apply Forall_app in Hg as [_ Hg]. by inversion Hg.
Qed.

Lemma rename_folder_spec :
  ∃ b1, rename_folder old new b = (Ok tt, b1) ∧ dir_inv (rebuild_entries b1) ∧
    ∀ p, p ∈ paths (rebuild_entries b1) ↔ ∃ q, q ∈ paths b ∧ p = mv q.
Proof using All.
  assert (name_path old ∈ fs_dirs (bd_fs b)) as Hod by (apply (di_dirs b HI); auto).
  assert (fs_dirs (bd_fs b) ∖ {[name_path new]} = fs_dirs (bd_fs b)) as Hsame.
  { apply set_eq. intros x. rewrite elem_of_difference, elem_of_singleton. split; [naive_solver|]. intros Hx.
    split; [done|]. intros ->. by eapply new_is_free; [left|]. }
  eexists. split.
  { unfold rename_folder, rename. rewrite decide_False by naive_solver. rewrite decide_False.
    2: { intros Hn. apply Hn. apply (di_dirs b HI). destruct (name_path new) as [|n q _] using rev_ind; [by destruct Hnew|].
      rewrite length_app, Nat.add_comm. simpl. rewrite take_app_length. destruct (Hparent q n eq_refl); auto. }
    rewrite decide_False by done. rewrite decide_False by (intros Hx; by eapply new_is_free; [right|]).
    rewrite decide_False, Hsame; [done|]. intros Hx. apply Hx. apply set_eq. intros x. unfold under.
    rewrite elem_of_union, elem_of_difference, !elem_of_filter. split; [|set_solver].
    intros [[[Hp Hd] _]|[Hp Hf]]; exfalso; eapply new_is_free; eauto. }
  set (b1 := with_map _ _).
  assert (∀ e, e ∈ folder_names b1 ↔ ∃ q, q ∈ paths b ∧ name_path e = mv q) as Hnames.
  { intros e. unfold folder_names, b1. simpl. rewrite <- list_fmap_compose, list_elem_of_fmap. simpl. split.
    - intros (i & -> & Hi). exists (name_path (it_folder_name i)). rewrite renamed_move. split; [|done].
      apply elem_of_paths, (di_map b HI). by apply list_elem_of_fmap_2.
    - intros (q & (e' & He' & ->)%paths_name & E). apply (di_map b HI), list_elem_of_fmap in He' as (i & -> & Hi).
      exists i. split; [|done]. apply (inj name_path). by rewrite renamed_move. }
  assert (bd_entries (rebuild_entries b1) = list_to_set (folder_names b1)) as He.
  { simpl. by rewrite list_folders_all. }
  assert (∀ p, p ∈ paths (rebuild_entries b1) ↔ ∃ q, q ∈ paths b ∧ p = mv q) as Hp.
  { intros p. split.
    - intros (e & He' & ->)%paths_name. rewrite He, elem_of_list_to_set in He'. by apply Hnames.
    - intros (q & Hq & ->).
      assert (name_path (join_with "/" (mv q)) = mv q) as E by (by apply split_joined_path, mv_good).
      rewrite <- E. apply elem_of_paths. rewrite He. apply elem_of_list_to_set, Hnames. eauto. }
  assert (∀ n, n = ".wal" ∨ n = BLOCK_INDEX_FILE → ¬ good_segment n) as Hng.
  { intros n [-> | ->] (_ & _ & ?); done. }
  split; [|done]. split.
  - intros p (q & Hq & ->)%Hp. by apply mv_good.
  - intros p n (q & Hq & E)%Hp. rewrite Hp. destruct (decide (name_path old `prefix_of` q)) as [[k ->]|Hpre].
    + rewrite move_below in E. destruct k as [|m k _] using rev_ind.
      * rewrite app_nil_r in E. destruct (Hparent p n (eq_sym E)) as [?|Hp']; [auto|]. right. exists p.
        rewrite move_other; [done|]. intros ?. apply Hout. rewrite <- E. by apply prefix_app_r.
      * rewrite app_assoc in E. apply app_inj_tail in E as [-> _]. right. exists (name_path old ++ k).
        rewrite move_below. split; [|done]. destruct (paths_prefix b (name_path old ++ k) _ HI Hq) as [E|?]; [| |done].
        { rewrite app_assoc. by apply prefix_app_r. }
        by destruct (name_path old) eqn:Eo; [apply name_path_nonempty in Eo|].
    + rewrite move_other in E by done. subst q. destruct (di_closed b HI p n Hq) as [?|Hp']; [auto|]. right. exists p.
      rewrite move_other; [done|]. intros ?. apply Hpre. by apply prefix_app_r.
  - intros p. simpl. rewrite elem_of_map. setoid_rewrite (di_dirs b HI). setoid_rewrite Hp. split.
    + intros (x & -> & [->|[Hx|(q & Hq & ->)]]).
      * left. apply move_other. intros E%prefix_nil_inv. by apply name_path_nonempty in E.
      * right; left. eauto.
      * right; right. exists (mv q). split; [eauto|]. apply mv_file; auto.
    + intros [->|[(q & Hq & ->)|(p' & (q & Hq & ->) & ->)]].
      * exists []. split; [|auto]. symmetry. apply move_other. intros E%prefix_nil_inv. by apply name_path_nonempty in E.
      * eauto.
      * exists (q ++ [".wal"]). split; [symmetry; apply mv_file; auto|]. eauto.
  - intros p. simpl. rewrite elem_of_map. setoid_rewrite (di_files b HI). setoid_rewrite Hp. split.
    + intros (x & -> & (q & Hq & ->)). exists (mv q). split; [eauto|]. apply mv_file; auto.
    + intros (p' & (q & Hq & ->) & ->). exists (q ++ [BLOCK_INDEX_FILE]). split; [symmetry; apply mv_file; auto|]. eauto.
  - change (folder_names (rebuild_entries b1)) with (it_folder_name <$> (renamed old new <$> bd_map b)).
    rewrite <- list_fmap_compose. pose proof (di_nodup b HI) as Hnd.
    assert (∀ i, i ∈ bd_map b → name_path (it_folder_name i) ∈ paths b) as Hmap.
    { intros i Hi. apply elem_of_paths, (di_map b HI). by apply list_elem_of_fmap_2. }
    revert Hnd Hmap. unfold folder_names. generalize (bd_map b). intros l. induction l as [|i l IHl]; [constructor|].
    simpl. intros [Hi Hl]%NoDup_cons Hmap. constructor; [|apply IHl; set_solver].
    intros (j & E & Hj)%list_elem_of_fmap. apply Hi. apply (f_equal name_path) in E. simpl in E. rewrite !renamed_move in E.
    apply mv_inj in E; [|apply Hmap; set_solver..]. apply (inj name_path) in E as ->. by apply list_elem_of_fmap_2.
  - intros e. rewrite He, elem_of_list_to_set. done.
  - done.
Qed.
End Rename.

Lemma rsplit_once_Some sep s a t : rsplit_once sep s = Some (a, t) → s = a +:+ String sep t ∧ lacks sep t = true.
Proof.
  revert a. induction s as [|c s IH]; intros a; cbn [rsplit_once]; [done|].
  destruct (rsplit_once sep s) as [[a' t']|] eqn:E.
  - intros [= <- <-]. destruct (IH a' eq_refl) as [-> ?]. done.
  - case_decide; [|done]. intros [= <- <-]. subst c. split; [done|]. clear IH.
    induction s as [|d s IH]; [done|]. cbn [rsplit_once] in E. destruct (rsplit_once sep s) as [[]|] eqn:E'; [done|].
    case_decide; [done|]. by apply lacks_cons; auto.
Qed.

Lemma rsplit_once_None sep s : rsplit_once sep s = None → lacks sep s = true.
Proof.
  induction s as [|c s IH]; [done|]. cbn [rsplit_once]. destruct (rsplit_once sep s) as [[]|]; [done|].
  case_decide; [done|]. intros _. by apply lacks_cons; auto.
Qed.

(** What is above a name that may be used may be used. *)
Lemma segments_edges name :
  Forall (λ s, s ≠ "") (split "/" name) → starts_with name "/" = false ∧ ends_with name "/" = false.
Proof.
  intros Hs. split; apply not_true_iff_false.
  - intros (t & ->)%starts_with_iff. simpl in Hs. by apply Forall_cons in Hs as [? _].
  - intros (u & ->)%ends_with_iff. rewrite (split_app "/" u "") in Hs. apply Forall_app in Hs as [_ Hs].
    by apply Forall_cons in Hs as [? _].
Qed.

Lemma parent_is_valid parent last :
  check_entry_name_convention (parent +:+ String "/" last) = Ok tt → lacks "/" last = true →
  check_entry_name_convention parent = Ok tt.
Proof.
  intros Hc Hl. pose proof (name_segments _ Hc) as [_ Hg]. rewrite split_app in Hg. apply Forall_app in Hg as [Hg _].
  assert (Forall (λ s, s ≠ "") (split "/" parent)) as Hne by (eapply Forall_impl; [done|by intros s []]).
  destruct (segments_edges _ Hne) as [H1 H2].
  assert (existsb (λ segment, bool_decide (segment = EmptyString)) (split "/" parent) = false) as H3.
  { apply not_true_iff_false. intros (s & Hs & E%bool_decide_eq_true)%existsb_exists. rewrite Forall_forall in Hne.
    eapply Hne; [by apply list_elem_of_In|done]. }
  assert (all_chars name_char parent = true) as H4.
  { unfold check_entry_name_convention in Hc. case_decide; [done|]. destruct (_ || _ || _); [done|].
    destruct (all_chars name_char (parent +:+ _)) eqn:Ea.
    - rewrite all_chars_app in Ea. by apply andb_true_iff in Ea as [? _].
    - case_decide as Em.
      + apply (f_equal (rsplit_once "/")) in Em. by rewrite rsplit_once_app in Em.
      + destruct (strip_suffix "/$meta" _) as [p|] eqn:Es; [|done]. apply strip_suffix_Some in Es.
        apply (f_equal (rsplit_once "/")) in Es. rewrite rsplit_once_app in Es by done.
        rewrite (rsplit_once_app "/" p "$meta") in Es by done. simplify_eq. by destruct (all_chars name_char p). }
  unfold check_entry_name_convention. rewrite H1, H2, H3, H4. case_decide; [subst|done].
  by apply Forall_cons in Hne as [? _].
Qed.

(** The entries above the new name are created first. *)
Lemma create_parent_spec b new :
  dir_inv b → check_entry_name_convention new = Ok tt →
  ∃ b', (match rsplit_once "/" new with
         | Some (parent, _) => if decide (parent = EmptyString) then mret tt else create_entry parent
         | None => mret tt
         end) b = (Ok tt, b') ∧ dir_inv b' ∧
    ∀ p, p ∈ paths b' ↔ p ∈ paths b ∨ p ≠ [] ∧ p `prefix_of` name_path new ∧ p ≠ name_path new.
Proof.
  intros HI Hc. pose proof (name_segments _ Hc) as Hg. destruct (rsplit_once "/" new) as [[parent last]|] eqn:E.
  - apply rsplit_once_Some in E as [-> Hl].
    assert (name_path (parent +:+ String "/" last) = name_path parent ++ [last]) as E
      by (unfold name_path; by rewrite split_app, (split_single "/" last)).
    destruct (create_entry_spec b parent HI (parent_is_valid _ _ Hc Hl)) as (b' & H1 & HI' & Hp').
    rewrite decide_False; [|intros ->; by pose proof (parent_is_valid _ _ Hc Hl)].
    exists b'. split_and!; [done..|]. intros p. rewrite Hp', E, prefix_snoc_iff. split; [|naive_solver].
    intros [?|[Hne Hpre]]; [auto|]. right. split_and!; [done|auto|]. intros ->.
    apply prefix_length in Hpre. rewrite length_app in Hpre. simpl in Hpre. lia.
  - apply rsplit_once_None in E. exists b. split_and!; [done..|]. intros p. split; [auto|].
    intros [?|(Hne & [k Hk] & Hno)]; [done|]. unfold name_path in Hk, Hno. rewrite split_single in Hk, Hno by done.
    destruct p as [|m p]; [done|]. simplify_eq/=. by destruct p.
Qed.

(** ** The specification: a set of paths *)

Inductive DirOp : Type := OpCreate (key : string) | OpRemove (name : string) | OpRename (old new : string) | OpRestart.

Definition valid_name (name : string) : bool := bool_decide (check_entry_name_convention name = Ok tt).
Definition above (p : Path) : gset Path := list_to_set (path_prefixes p) ∖ {[ [] ]}.

(** Creating an entry adds it and what is above it, removing one takes what is below it as
    well, renaming one moves everything below it; a restart changes nothing. *)
Definition spec_step (S : gset Path) (o : DirOp) : gset Path :=
  match o with
  | OpCreate key => if valid_name key then S ∪ above (name_path key) else S
  | OpRemove name => if is_system_meta_entry name then S else S ∖ under (name_path name) S
  | OpRename old new =>
      if valid_name new && bool_decide (name_path old ∈ S) && bool_decide (name_path new ∉ S)
         && negb (bool_decide (name_path old `prefix_of` name_path new))
      then set_map (move (name_path old) (name_path new)) (S ∪ above (name_path new) ∖ {[name_path new]})
      else S
  | OpRestart => S
  end.

Lemma elem_of_above p q : p ∈ above q ↔ p ≠ [] ∧ p `prefix_of` q.
Proof. unfold above. rewrite elem_of_difference, elem_of_list_to_set, elem_of_path_prefixes. set_solver. Qed.

Lemma rename_entry_spec b old new :
  dir_inv b →
  ∃ r b', rename_entry old new b = (r, b') ∧ dir_inv b' ∧ paths b' = spec_step (paths b) (OpRename old new).
Proof.
  intros HI. unfold rename_entry, spec_step, valid_name.
  destruct (check_entry_name_convention new) as [[]|e|] eqn:Ec.
  2: { by exists (Err e), b. }
  2: { by exists Panic, b. }
  rewrite (st_bind_ok _ (st_lift (Ok tt)) b tt b eq_refl). assert (good_path (name_path new)) as Hg by (by apply name_segments).
  rewrite (bool_decide_true (Ok tt = Ok tt)) by done. destruct (is_below old new) eqn:Eb.
  { exists (Err Conflict), b. apply is_below_iff in Eb. rewrite (bool_decide_true (_ `prefix_of` _)), andb_false_r by done. done. }
  assert (¬ name_path old `prefix_of` name_path new) as Hout by (intros H%is_below_iff; congruence).
  rewrite (bool_decide_false (_ `prefix_of` _)) by done.
  rewrite (st_bind_ok _ st_get b b b eq_refl). case_decide as Ha.
  { exists (Err NotFound), b. rewrite (bool_decide_false (name_path old ∈ _)); [done|]. intros Ho.
    assert (old ∈ entries_below old b) as Hx by (apply elem_of_entries_below; split; [by apply elem_of_paths|done]).
    rewrite Ha in Hx. set_solver. }
  pose proof (below_is_entry old b HI Ha) as Hold. rewrite (bool_decide_true (name_path old ∈ _)) by done.
  destruct (try_exists (name_path new) (bd_fs b)) eqn:Et.
  { exists (Err Conflict), b. rewrite bool_decide_false; [done|]. intros Hn. apply bool_decide_eq_true in Et.
    destruct Et as [[E|[?|(q & _ & E)]]%(di_dirs b HI)|(q & _ & E)%(di_files b HI)]; [|done|..].
    - by apply name_path_nonempty in E.
    - rewrite E in Hg. by apply not_good_wal in Hg.
    - rewrite E in Hg. by apply not_good_index in Hg. }
  apply bool_decide_eq_false in Et.
  assert (name_path new ∉ paths b) as Hn by (intros Hx; apply Et; left; apply (di_dirs b HI); auto).
  rewrite bool_decide_true by done. cbn [andb negb].
  destruct (create_parent_spec b new HI Ec) as (b1 & H1 & HI1 & Hp1).
  assert (name_path new ∉ paths b1) as Hn1 by (rewrite Hp1; naive_solver).
  rewrite (st_bind_ok _ _ _ _ _ H1), (st_bind_ok _ st_get b1 b1 b1 eq_refl).
  destruct (rename_folder_spec b1 old new HI1) as (b2 & H2 & HI2 & Hp2); [by apply Hp1; auto|done..| |].
  { intros q n E. rewrite Hp1. destruct q as [|m q]; [auto|]. right; right. rewrite E.
    split_and!; [done|by apply prefix_app_r|]. intros E'. apply (f_equal length) in E'. rewrite length_app in E'. simpl in E'. lia. }
  destruct (existsb _ _) eqn:Ex.
  { exfalso. apply existsb_exists in Ex as (n & Hin & [Hx _]%andb_true_iff). apply bool_decide_eq_true in Hx.
    apply list_elem_of_In, list_elem_of_fmap in Hin as (e & -> & [_ He]%elem_of_entries_below).
    apply elem_of_paths in Hx. unfold name_path in Hx at 1. rewrite renamed_path in Hx by done.
    destruct (paths_prefix b1 (name_path new) _ HI1 Hx) as [E|?]; [by apply prefix_app_r| |done].
    by apply name_path_nonempty in E. }
  rewrite (st_bind_ok _ _ _ _ _ H2). exists (Ok tt), (rebuild_entries b2). split_and!; [done..|].
  apply set_eq. intros p. rewrite Hp2, elem_of_map.
  setoid_rewrite elem_of_union. setoid_rewrite elem_of_difference. setoid_rewrite elem_of_above.
  setoid_rewrite Hp1. set_solver.
Qed.

(** ** The life of a bucket *)

Lemma create_step_spec b key : dir_inv b → dir_inv (create_entry key b).2 ∧ paths (create_entry key b).2 = spec_step (paths b) (OpCreate key).
Proof.
  intros HI. simpl. unfold valid_name. destruct (check_entry_name_convention key) as [[]|e|] eqn:Ec.
  2, 3: unfold create_entry; rewrite Ec; done.
  destruct (create_entry_spec b key HI Ec) as (b' & -> & HI' & Hp). split; [done|].
  rewrite bool_decide_true by done. apply set_eq. intros p. simpl. by rewrite Hp, elem_of_union, elem_of_above.
Qed.

Lemma remove_step_spec b name : dir_inv b → dir_inv (remove_entry name b).2 ∧ paths (remove_entry name b).2 = spec_step (paths b) (OpRemove name).
Proof.
  intros HI. simpl. destruct (is_system_meta_entry name) eqn:Em; [unfold remove_entry; by rewrite Em|].
  destruct (decide (entries_below name b = [])) as [E|E].
  - unfold remove_entry. rewrite Em, E. split; [done|]. simpl. apply set_eq. intros p. unfold under.
    rewrite elem_of_difference, elem_of_filter. split; [|naive_solver]. intros Hp. split; [done|]. intros [Hx _].
    destruct (paths_name b p Hp) as (e & He & ->).
    assert (e ∈ entries_below name b) as Hin by (by apply elem_of_entries_below). rewrite E in Hin. set_solver.
  - destruct (remove_entry_spec b name HI Em E) as (b' & -> & HI' & Hp). split; [done|]. simpl. apply set_eq. intros p.
    unfold under. rewrite Hp, elem_of_difference, elem_of_filter. naive_solver.
Qed.

Section Life.
Context (order : list string → list string).

Definition dir_step (b : BucketDir) (o : DirOp) : BucketDir :=
  match o with
  | OpCreate key => (create_entry key b).2
  | OpRemove name => (remove_entry name b).2
  | OpRename old new => (rename_entry old new b).2
  | OpRestart => default b (restart order b)
  end.
Definition dir_run (ops : list DirOp) : BucketDir := foldl dir_step empty_dir ops.

(** No new name begins with [wal]. *)
Definition op_avoids_wal (o : DirOp) : bool :=
  match o with
  | OpCreate name | OpRename _ name => negb (first_is_wal (name_path name))
  | OpRemove _ | OpRestart => true
  end.
Definition no_wal (S : gset Path) : Prop := ∀ p, p ∈ S → first_is_wal p = false.

Lemma spec_no_wal S o : no_wal S → op_avoids_wal o = true → no_wal (spec_step S o).
Proof.
  intros HS Ho. assert (∀ name p, first_is_wal (name_path name) = false → p ∈ above (name_path name) → first_is_wal p = false) as Ha.
  { intros name p Hn [Hne [k Hk]]%elem_of_above. unfold first_is_wal in *. rewrite Hk in Hn. by destruct p. }
  destruct o as [key|name|old new|]; simpl in *; [| | |done].
  - apply negb_true_iff in Ho. destruct (valid_name key); [|done]. intros p [?|?]%elem_of_union; [by apply HS|by eapply Ha].
  - destruct (is_system_meta_entry name); [done|]. intros p [? _]%elem_of_difference. by apply HS.
  - apply negb_true_iff in Ho. destruct (_ && _); [|done]. intros p (q & -> & Hq)%elem_of_map.
    destruct (decide (name_path old `prefix_of` q)) as [[k ->]|Hn].
    + rewrite move_below. pose proof (name_path_nonempty new) as Hne. unfold first_is_wal in *.
      destruct (name_path new) as [|m l]; [by destruct (Hne eq_refl)|done].
    + rewrite move_other by done. apply elem_of_union in Hq as [?|[? _]%elem_of_difference]; [by apply HS|by eapply Ha].
Qed.

Hypothesis order_perm : ∀ l, order l ≡ₚ l.

Lemma dir_step_spec b o :
  dir_inv b → no_wal (paths b) → dir_inv (dir_step b o) ∧ paths (dir_step b o) = spec_step (paths b) o.
Proof using order_perm.
  intros HI Hw. destruct o as [key|name|old new|]; unfold dir_step.
  - by apply create_step_spec.
  - by apply remove_step_spec.
  - by destruct (rename_entry_spec b old new HI) as (r & b' & -> & HI' & Hp).
  - destruct (restart_keeps order order_perm b HI) as (b' & -> & HI' & He).
    { intros e He. by apply Hw, elem_of_paths. }
    split; [done|]. unfold paths. simpl. by rewrite He.
Qed.

Lemma dir_run_spec ops :
  Forall (λ o, op_avoids_wal o = true) ops →
  dir_inv (dir_run ops) ∧ paths (dir_run ops) = foldl spec_step ∅ ops ∧ no_wal (paths (dir_run ops)).
Proof using order_perm.
  intros Ho. unfold dir_run. assert (paths empty_dir = ∅) as <- by done.
  assert (no_wal (paths empty_dir)) as Hw by (intros p Hp; unfold paths in Hp; set_solver).
  pose proof empty_inv as HI. revert HI Hw. generalize empty_dir.
  induction Ho as [|o ops Ho _ IH]; intros b HI Hw; [done|]. simpl.
  destruct (dir_step_spec b o HI Hw) as [HI' Hp]. rewrite <- Hp. apply IH; [done|]. rewrite Hp. by apply spec_no_wal.
Qed.

(** C15: whatever is created, removed and renamed in a bucket, and however often the server is
    restarted in between, the entries are those of the specification, a set of names that a
    restart does not change; the folder map lists exactly them, and each has its directory with
    a block index and a log.  No new name may begin with [wal]. *)
Theorem entries_survive_restarts ops :
  Forall (λ o, op_avoids_wal o = true) ops →
  let b := dir_run ops in
  (∀ e, e ∈ bd_entries b ↔ name_path e ∈ foldl spec_step ∅ ops) ∧
  (∀ e, e ∈ folder_names b ↔ e ∈ bd_entries b) ∧
  (∀ e, e ∈ bd_entries b → name_path e ∈ fs_dirs (bd_fs b) ∧ name_path e ++ [".wal"] ∈ fs_dirs (bd_fs b) ∧
                            name_path e ++ [BLOCK_INDEX_FILE] ∈ fs_files (bd_fs b)).
Proof using order_perm.
  intros Ho b. destruct (dir_run_spec ops Ho) as (HI & Hp & _). fold b in HI, Hp. rewrite <- Hp. split_and!.
  - intros e. by rewrite elem_of_paths.
  - apply (di_map b HI).
  - intros e He%elem_of_paths. split_and!; [apply (di_dirs b HI); auto|apply (di_dirs b HI)|apply (di_files b HI); eauto].
    right; right. eauto.
Qed.

(** An entry named [wal], or below it, is lost by a restart: the directory is taken for
    the log of an old layout.  It stays on the disk, and is not an entry any more. *)
Theorem entry_named_wal_is_lost ops name :
  Forall (λ o, op_avoids_wal o = true) ops →
  check_entry_name_convention name = Ok tt → first_is_wal (name_path name) = true →
  let b := dir_run (ops ++ [OpCreate name]) in
  let b' := dir_run (ops ++ [OpCreate name; OpRestart]) in
  name ∈ bd_entries b ∧ ¬ (name ∈ bd_entries b') ∧ bd_fs b' = bd_fs b ∧
  name_path name ++ [BLOCK_INDEX_FILE] ∈ fs_files (bd_fs b').
Proof using order_perm.
  intros Ho Hc Hw b b'. destruct (dir_run_spec ops Ho) as (HI & _ & _).
  unfold b, b', dir_run in *. rewrite !foldl_app. simpl. set (b0 := foldl dir_step empty_dir ops) in *.
  destruct (create_entry_spec b0 name HI Hc) as (b1 & -> & HI1 & Hp1). simpl.
  assert (name_path name ∈ paths b1) as Hin by (apply Hp1; right; split; [apply name_path_nonempty|done]).
  destruct (restart_spec order order_perm b1 HI1) as (b2 & -> & Hfs & _ & _ & _ & He). simpl. split_and!.
  - by apply elem_of_paths.
  - rewrite He. intros [_ ?]. congruence.
  - done.
  - rewrite Hfs. apply (di_files b1 HI1). eauto.
Qed.
End Life.

(** ** Witnesses *)

Section FolderWitnesses.
Definition busy_ops : list DirOp :=
  [OpCreate "a/b/c"; OpRestart; OpRename "a/b" "x/y"; OpCreate "a/wal"; OpRemove "x/y/c"; OpRestart].

Lemma entries_survive_restarts_witness :
  let b := dir_run (λ l, l) busy_ops in
  bd_entries b = list_to_set ["a"; "a/wal"; "x"; "x/y"] ∧ (∀ e, e ∈ folder_names b ↔ e ∈ bd_entries b).
Proof.
  intros b. split; [by vm_compute|].
  destruct (entries_survive_restarts (λ l, l) ltac:(done) busy_ops) as (_ & H & _); [by repeat constructor|exact H].
Defined.

Lemma entry_named_wal_is_lost_witness :
  "wal/x" ∈ bd_entries (dir_run (λ l, l) [OpCreate "a"; OpCreate "wal/x"]) ∧
  "wal/x" ∉ bd_entries (dir_run (λ l, l) [OpCreate "a"; OpCreate "wal/x"; OpRestart]).
Proof.
  destruct (entry_named_wal_is_lost (λ l, l) ltac:(done) [OpCreate "a"] "wal/x") as (H1 & H2 & _);
    [by repeat constructor|done|done|]. by split.
Defined.
End FolderWitnesses.
