(* ===== verification/FileCache.v ===== *)
(** * FileCache: the cache of open files (core/file_cache.rs, backend/file.rs, backend/fs.rs)

    All components read and write their files through one cache of open files.  A file that
    is written is in the memory of the operating system; it is on the disk when it is synced,
    which a worker, an eviction or [force_sync_all] does later.

    The files of the operating system have names, which stand for inodes, and inodes have the
    bytes that a reader sees and the bytes that are on the disk.  A lock on an open file is a
    number; the guards that the callers hold are a set of such numbers.  A call is one step;
    a call that waits for a guard until the timeout fails.  What the clock, [fsync] and the
    system calls answer during a call is an argument ([FileEnv]).  The backend is the one for
    file systems, with absolute canonical paths of files. *)

From stdpp Require Import prelude gmap strings sorting.
From Stdlib Require Import ZArith Lia.
From S2P Require Import Prelude Bytes Collections Cache Folders.
Open Scope Z_scope.

(** ** The operating system *)

Record Inode := mkInode { in_bytes : list Z; in_disk : list Z }.
Record Disk := mkDisk { dk_dirs : gset Path; dk_names : gmap Path nat; dk_inodes : gmap nat Inode }.

Definition as_fs (d : Disk) : Fs := mkFs (dk_dirs d) (dom (dk_names d)).
Definition parent (p : Path) : Path := take (pred (length p)) p.

Definition os_create_dir_all (p : Path) (d : Disk) : outcome Disk :=
  fs ← create_dir_all p (as_fs d); Ok (mkDisk (fs_dirs fs) (dk_names d) (dk_inodes d)).

(** [open]: a new file gets an inode that is not in use. *)
Definition os_open (create : bool) (p : Path) (d : Disk) : outcome (nat * Disk) :=
  match dk_names d !! p with
  | Some i => Ok (i, d)
  | None =>
      if negb create || bool_decide (p ∈ dk_dirs d) || bool_decide (parent p ∉ dk_dirs d) then Err InternalServerError
      else
        let i := fresh (dom (dk_inodes d)) in
        Ok (i, mkDisk (dk_dirs d) (<[p := i]> (dk_names d)) (<[i := mkInode [] []]> (dk_inodes d)))
  end.

Definition os_remove_file (p : Path) (d : Disk) : outcome Disk :=
  match dk_names d !! p with
  | Some _ => Ok (mkDisk (dk_dirs d) (delete p (dk_names d)) (dk_inodes d))
  | None => Err InternalServerError
  end.

Definition os_remove_dir_all (p : Path) (d : Disk) : outcome Disk :=
  if decide (p ∈ dk_dirs d)
  then Ok (mkDisk (filter (λ q, ¬ p `prefix_of` q) (dk_dirs d))
             (filter (λ qi, ¬ p `prefix_of` qi.1) (dk_names d)) (dk_inodes d))
  else Err InternalServerError.

(** [rename] of a file, or of a directory with all that is below it. *)
Definition os_rename (old new : Path) (d : Disk) : outcome Disk :=
  match dk_names d !! old with
  | Some i =>
      if bool_decide (new ∈ dk_dirs d) || bool_decide (parent new ∉ dk_dirs d) then Err InternalServerError
      else Ok (mkDisk (dk_dirs d) (<[new := i]> (delete old (dk_names d))) (dk_inodes d))
  | None =>
      fs ← rename old new (as_fs d);
      Ok (mkDisk (fs_dirs fs) (list_to_map (prod_map (move old new) id <$> map_to_list (dk_names d))) (dk_inodes d))
  end.

(** Bytes of an inode; a write into it does not reach the disk, [fsync] does. *)
Definition inode_update (i : nat) (f : list Z → list Z) (d : Disk) : Disk :=
  mkDisk (dk_dirs d) (dk_names d) (alter (λ n, mkInode (f (in_bytes n)) (in_disk n)) i (dk_inodes d)).
Definition os_fsync (i : nat) (d : Disk) : Disk :=
  mkDisk (dk_dirs d) (dk_names d) (alter (λ n, mkInode (in_bytes n) (in_bytes n)) i (dk_inodes d)).
Definition inode_bytes (i : nat) (d : Disk) : list Z := default [] (in_bytes <$> dk_inodes d !! i).

(** ** The state *)

Inductive AccessMode : Set := AccessRead | AccessReadWrite.
#[export] Instance access_eq_dec : EqDecision AccessMode.
Proof. solve_decision. Defined.

(** [File]: an open file with its position. *)
Record File := mkFile {
  f_inode : nat;
  f_pos : Z;
  f_path : Path;
  f_last_synced : Z;
  f_is_synced : bool;
  f_mode : AccessMode;
  f_ignore_write : bool
}.

Record FileCache := mkFileCache {
  fc_cache : Cache Path nat;
  fc_files : gmap nat File;
  fc_held : gset nat;
  fc_disk : Disk;
  fc_sync_interval : Z;
  fc_read_only : bool
}.

Definition with_cache (c : Cache Path nat) (s : FileCache) : FileCache :=
  mkFileCache c (fc_files s) (fc_held s) (fc_disk s) (fc_sync_interval s) (fc_read_only s).
Definition with_files (m : gmap nat File) (s : FileCache) : FileCache :=
  mkFileCache (fc_cache s) m (fc_held s) (fc_disk s) (fc_sync_interval s) (fc_read_only s).
Definition with_held (h : gset nat) (s : FileCache) : FileCache :=
  mkFileCache (fc_cache s) (fc_files s) h (fc_disk s) (fc_sync_interval s) (fc_read_only s).
Definition with_disk (d : Disk) (s : FileCache) : FileCache :=
  mkFileCache (fc_cache s) (fc_files s) (fc_held s) d (fc_sync_interval s) (fc_read_only s).

(** What a call meets: the [n]-th reading of the clock of the cache and of its scans, the
    time for [last_synced], whether [fsync] and the calls of the backend succeed. *)
Record FileEnv := mkFileEnv {
  fe_clock : nat → Z;
  fe_scan : nat → Path → Z;
  fe_instant : Z;
  fe_fsync : Path → bool;
  fe_backend : bool
}.

Definition FILE_CACHE_SYNC_INTERVAL : Z := 10000.
Definition FILE_CACHE_SYNC_BATCH_SIZE : nat := 16.

(** [FileCache::new], [set_sync_interval], [set_read_only]. *)
Definition file_cache_new (max_size ttl sync_interval : Z) (d : Disk) : FileCache :=
  mkFileCache (cache_new max_size ttl) ∅ ∅ d sync_interval false.
Definition set_sync_interval (interval : Z) (s : FileCache) : FileCache :=
  mkFileCache (fc_cache s) (fc_files s) (fc_held s) (fc_disk s) interval (fc_read_only s).
Definition set_read_only (read_only : bool) (s : FileCache) : FileCache :=
  mkFileCache (fc_cache s) (fc_files s) (fc_held s) (fc_disk s) (fc_sync_interval s) read_only.

(** ** An open file *)

(** The file behind a lock. *)
Definition the_file (h : nat) : ST FileCache File := λ s, (unwrap (fc_files s !! h), s).
Definition put_file (h : nat) (f : File) : ST FileCache () := st_modify (λ s, with_files (<[h := f]> (fc_files s)) s).

Definition with_pos (pos : Z) (f : File) : File :=
  mkFile (f_inode f) pos (f_path f) (f_last_synced f) (f_is_synced f) (f_mode f) (f_ignore_write f).
Definition unsynced (f : File) : File :=
  mkFile (f_inode f) (f_pos f) (f_path f) (f_last_synced f) false (f_mode f) (f_ignore_write f).
Definition synced (t : Z) (f : File) : File :=
  mkFile (f_inode f) (f_pos f) (f_path f) t true (f_mode f) (f_ignore_write f).

(** [File::sync_all]. *)
Definition sync_all (env : FileEnv) (h : nat) : ST FileCache () :=
  f ← the_file h;
  if f_ignore_write f || f_is_synced f then mret tt
  else if negb (fe_fsync env (f_path f)) then st_throw InternalServerError
  else
    _ ← st_modify (λ s, with_disk (os_fsync (f_inode f) (fc_disk s)) s);
    put_file h (synced (fe_instant env) f).

(** [File::flush_local]. *)
Definition flush_local (env : FileEnv) (h : nat) : ST FileCache () :=
  f ← the_file h;
  if f_ignore_write f then mret tt
  else
    _ ← put_file h (unsynced f);
    if negb (fe_fsync env (f_path f)) then st_throw InternalServerError
    else st_modify (λ s, with_disk (os_fsync (f_inode f) (fc_disk s)) s).

(** [Read::read] of at most [n] bytes, [Write::write], [Seek::seek], [File::set_len]; the
    system refuses writes and truncation of a file that is open for reading. *)
Definition file_read (n : nat) (h : nat) : ST FileCache (list Z) :=
  f ← the_file h;
  s ← st_get;
  let buf := take n (drop (Z.to_nat (f_pos f)) (inode_bytes (f_inode f) (fc_disk s))) in
  _ ← put_file h (with_pos (f_pos f + Z.of_nat (length buf)) f);
  mret buf.

Definition file_write (buf : list Z) (h : nat) : ST FileCache nat :=
  f ← the_file h;
  if f_ignore_write f then mret (length buf)
  else
    _ ← put_file h (unsynced f);
    if decide (f_mode f = AccessRead) then st_throw InternalServerError
    else
      _ ← st_modify (λ s, with_disk (inode_update (f_inode f) (write_all_at (Z.to_nat (f_pos f)) buf) (fc_disk s)) s);
      _ ← put_file h (with_pos (f_pos f + Z.of_nat (length buf)) (unsynced f));
      mret (length buf).

Definition file_set_len (len : nat) (h : nat) : ST FileCache () :=
  f ← the_file h;
  if f_ignore_write f then mret tt
  else
    _ ← put_file h (unsynced f);
    if decide (f_mode f = AccessRead) then st_throw InternalServerError
    else st_modify (λ s, with_disk (inode_update (f_inode f) (set_len len) (fc_disk s)) s).

Inductive SeekFrom : Set := SeekStart (n : Z) | SeekEnd (n : Z) | SeekCurrent (n : Z).
#[export] Instance seek_eq_dec : EqDecision SeekFrom.
Proof. solve_decision. Defined.
Definition file_seek (pos : SeekFrom) (h : nat) : ST FileCache () :=
  f ← the_file h;
  s ← st_get;
  let p := match pos with
           | SeekStart n => n
           | SeekEnd n => Z.of_nat (length (inode_bytes (f_inode f) (fc_disk s))) + n
           | SeekCurrent n => f_pos f + n
           end in
  if decide (p < 0) then st_throw InternalServerError else put_file h (with_pos p f).

(** The end of a guard. *)
Definition release (h : nat) (s : FileCache) : FileCache := with_held (fc_held s ∖ {[h]}) s.

(** [OpenOptions::open], with the options of [open_read_file] and [open_write_file]. *)
Definition open_file (env : FileEnv) (mode : AccessMode) (create : bool) (p : Path) : ST FileCache nat :=
  s ← st_get;
  let ignore_write := fc_read_only s in
  let create := create && negb ignore_write in
  d ← st_lift (if create && bool_decide (parent p ≠ []) then os_create_dir_all (parent p) (fc_disk s) else Ok (fc_disk s));
  _ ← st_modify (with_disk d);
  '(i, d) ← st_lift (os_open create p d);
  _ ← st_modify (with_disk d);
  let h := fresh (dom (fc_files s)) in
  _ ← put_file h (mkFile i 0 p (fe_instant env) true mode ignore_write);
  mret h.
Definition open_read_file env p := open_file env AccessRead false p.
Definition open_write_file env p create := open_file env AccessReadWrite create p.

(** ** The cache *)

Section FileCache.
Context `{HashIter}.

Definition fc_get (env : FileEnv) (p : Path) : ST FileCache (option nat) :=
  s ← st_get;
  let '(v, c) := cache_get (fe_clock env 0) p (fc_cache s) in
  _ ← st_modify (with_cache c);
  mret v.
Definition fc_insert (env : FileEnv) (n : nat) (p : Path) (h : nat) : ST FileCache (list (Path * nat)) :=
  s ← st_get;
  '(discarded, c) ← st_lift (cache_insert (fe_clock env n) (fe_scan env n) p h (fc_cache s));
  _ ← st_modify (with_cache c);
  mret discarded.
Definition fc_remove (p : Path) : ST FileCache (option nat) :=
  s ← st_get;
  let '(v, c) := cache_remove p (fc_cache s) in
  _ ← st_modify (with_cache c);
  mret v.

(** [unwrap_or_else(|err| debug!(..))]. *)
Definition logged (m : ST FileCache ()) : ST FileCache () := λ s,
  match m s with
  | (Err _, s') => (Ok tt, s')
  | r => r
  end.

(** A file that an insertion discarded: it is synced, or goes back if it is in use; what the
    insertion that takes it back discards is dropped. *)
Definition discarded_file (env : FileEnv) (n : nat) (ph : Path * nat) : ST FileCache (nat * nat) :=
  s ← st_get;
  if decide (ph.2 ∈ fc_held s) then
    _ ← fc_insert env n ph.1 ph.2;
    mret (0, 0)%nat
  else
    f ← the_file ph.2;
    if bool_decide (f_mode f = AccessReadWrite) && negb (f_is_synced f) then
      _ ← logged (sync_all env ph.2);
      mret (1, 1)%nat
    else mret (1, 0)%nat.
Fixpoint discarded_files (env : FileEnv) (n : nat) (l : list (Path * nat)) : ST FileCache (nat * nat) :=
  match l with
  | [] => mret (0, 0)%nat
  | ph :: rest =>
      a ← discarded_file env n ph;
      b ← discarded_files env (S n) rest;
      mret (a.1 + b.1, a.2 + b.2)%nat
  end.
Definition insert_file_cached (env : FileEnv) (p : Path) (h : nat) : ST FileCache (nat * nat) :=
  discarded ← fc_insert env 1 p h;
  discarded_files env 2 discarded.

(** [write_owned]: the guard, if nobody has it. *)
Definition lock_file (h : nat) : ST FileCache () :=
  s ← st_get;
  if decide (h ∈ fc_held s) then st_throw InternalServerError else mret tt.
Definition take_guard (pos : SeekFrom) (h : nat) : ST FileCache nat :=
  _ ← lock_file h;
  _ ← (if decide (pos = SeekCurrent 0) then mret tt else file_seek pos h);
  _ ← st_modify (λ s, with_held ({[h]} ∪ fc_held s) s);
  mret h.

Definition opened (env : FileEnv) (p : Path) (open : ST FileCache nat) : ST FileCache nat :=
  h ← open;
  _ ← insert_file_cached env p h;
  mret h.

(** [FileCache::read]. *)
Definition fc_read (env : FileEnv) (p : Path) (pos : SeekFrom) : ST FileCache nat :=
  file ← fc_get env p;
  h ← match file with
      | Some h => mret h
      | None => opened env p (open_read_file env p)
      end;
  take_guard pos h.

(** [FileCache::write_or_create]. *)
Definition write_or_create (env : FileEnv) (p : Path) (pos : SeekFrom) : ST FileCache nat :=
  file ← fc_get env p;
  h ← match file with
      | Some h =>
          _ ← lock_file h;
          f ← the_file h;
          if decide (f_mode f = AccessReadWrite) then mret h else opened env p (open_write_file env p false)
      | None => opened env p (open_write_file env p true)
      end;
  take_guard pos h.

(** A call of the backend. *)
Definition backend_call (env : FileEnv) (op : Disk → outcome Disk) : ST FileCache () :=
  s ← st_get;
  if negb (fe_backend env) then st_throw InternalServerError
  else d ← st_lift (op (fc_disk s)); st_modify (with_disk d).

Definition unless_read_only (m : ST FileCache ()) : ST FileCache () :=
  s ← st_get;
  if fc_read_only s then mret tt else m.

(** [FileCache::remove]. *)
Definition fc_remove_file (env : FileEnv) (p : Path) : ST FileCache () :=
  unless_read_only (
    file ← fc_get env p;
    match file with
    | Some h =>
        _ ← lock_file h;
        _ ← fc_remove p;
        backend_call env (os_remove_file p)
    | None => backend_call env (os_remove_file p)
    end).

(** [discard_recursive]: the files below a path leave the cache one by one. *)
Definition discard_one (env : FileEnv) (p : Path) : ST FileCache () :=
  file ← fc_remove p;
  match file with
  | Some h =>
      _ ← lock_file h;
      f ← the_file h;
      if bool_decide (f_mode f = AccessReadWrite) && negb (f_is_synced f) then logged (sync_all env h) else mret tt
  | None => mret tt
  end.
Definition discard_recursive (env : FileEnv) (p : Path) : ST FileCache () :=
  s ← st_get;
  st_for (discard_one env) (filter (λ q, p `prefix_of` q) (cache_keys (fc_cache s))).

(** [FileCache::remove_dir], [rename], [create_dir_all]. *)
Definition fc_remove_dir (env : FileEnv) (p : Path) : ST FileCache () :=
  unless_read_only (
    _ ← discard_recursive env p;
    s ← st_get;
    if try_exists p (as_fs (fc_disk s)) then backend_call env (os_remove_dir_all p) else mret tt).
Definition fc_rename (env : FileEnv) (old new : Path) : ST FileCache () :=
  unless_read_only (
    _ ← discard_recursive env old;
    _ ← fc_remove old;
    backend_call env (os_rename old new)).
Definition fc_create_dir_all (env : FileEnv) (p : Path) : ST FileCache () :=
  unless_read_only (backend_call env (os_create_dir_all p)).

(** [try_exists], [get_stats] (the size). *)
Definition fc_try_exists (p : Path) (s : FileCache) : bool := try_exists p (as_fs (fc_disk s)).
Definition fc_get_stats (p : Path) (s : FileCache) : option Z :=
  i ← dk_names (fc_disk s) !! p; Some (Z.of_nat (length (inode_bytes i (fc_disk s)))).

(** [sync_rw_and_unused_files]: what is to be synced. *)
Definition overdue (env : FileEnv) (force : bool) (interval : Z) (f : File) : bool :=
  bool_decide (f_mode f = AccessReadWrite) && negb (f_is_synced f)
  && (force || negb (bool_decide (Z.max 0 (fe_instant env - f_last_synced f) < interval))).
Fixpoint files_to_sync (env : FileEnv) (force : bool) (interval : Z) (l : list (Path * nat)) : ST FileCache (list (nat * Z)) :=
  match l with
  | [] => mret []
  | ph :: rest =>
      s ← st_get;
      if decide (ph.2 ∈ fc_held s) then
        (if force then st_throw InternalServerError else files_to_sync env force interval rest)
      else
        f ← the_file ph.2;
        l ← files_to_sync env force interval rest;
        mret (if overdue env force interval f then (ph.2, f_last_synced f) :: l else l)
  end.
Definition synced_before (a b : nat * Z) : Prop := a.2 ≤ b.2.
#[global] Instance synced_before_dec a b : Decision (synced_before a b).
Proof. unfold synced_before. apply _. Defined.

Definition sync_one (env : FileEnv) (force : bool) (h : nat) : ST FileCache () :=
  s ← st_get;
  if decide (h ∈ fc_held s) then (if force then st_throw InternalServerError else mret tt)
  else logged (sync_all env h).
Definition sync_rw_and_unused_files (env : FileEnv) (force : bool) : ST FileCache () :=
  unless_read_only (
    s ← st_get;
    let interval := if force then FILE_CACHE_SYNC_INTERVAL else fc_sync_interval s in
    l ← files_to_sync env force interval ((λ '(p, e), (p, ev_value e)) <$> hash_iter (store (fc_cache s)));
    let l := if force then l else take FILE_CACHE_SYNC_BATCH_SIZE (merge_sort synced_before l) in
    st_for (sync_one env force) l.*1).
Definition force_sync_all (env : FileEnv) : ST FileCache () := sync_rw_and_unused_files env true.
Definition sync_worker_turn (env : FileEnv) : ST FileCache () := sync_rw_and_unused_files env false.
End FileCache.
