(* ===== verification/FileCacheLife.v ===== *)
(** * FileCacheLife: what the cache of open files promises
    (core/file_cache.rs, backend/file.rs)

    A file in the cache is the file of its name, so that all readers and writers of a name
    see one content; and a content that is not on the disk has an open file in the cache that
    will be synced, so that [force_sync_all] makes everything durable. *)

From stdpp Require Import prelude gmap strings sorting.
From Stdlib Require Import ZArith Lia.
From S2P Require Import Prelude Bytes Collections Cache Folders FolderLife FileCache.
Open Scope Z_scope.

(** ** Views of the state *)

(** The files by their names, as readers see them and as they are after a power failure. *)
Definition contents (s : FileCache) : gmap Path (list Z) :=
  (λ i, inode_bytes i (fc_disk s)) <$> dk_names (fc_disk s).
Definition on_disk (s : FileCache) : gmap Path (list Z) :=
  (λ i, default [] (in_disk <$> dk_inodes (fc_disk s) !! i)) <$> dk_names (fc_disk s).

Definition in_cache (s : FileCache) : gmap Path nat := cached (fc_cache s).
Definition names (s : FileCache) : gmap Path nat := dk_names (fc_disk s).

Definition durable (s : FileCache) (i : nat) : Prop :=
  ∀ n, dk_inodes (fc_disk s) !! i = Some n → in_bytes n = in_disk n.

Definition same_file (f f' : File) : Prop :=
  f_path f' = f_path f ∧ f_inode f' = f_inode f ∧ f_mode f' = f_mode f ∧ f_ignore_write f' = f_ignore_write f.

(** A file that the worker will sync. *)
Definition dirty (s : FileCache) (h : nat) : Prop :=
  ∃ f, fc_files s !! h = Some f ∧ f_mode f = AccessReadWrite ∧ f_is_synced f = false ∧ f_ignore_write f = false.

(** ** The invariants *)

Record coherent (s : FileCache) : Prop := {
  co_size : 0 ≤ cache_size (fc_cache s);
  co_current p h : in_cache s !! p = Some h →
    ∃ f, fc_files s !! h = Some f ∧ f_path f = p ∧ names s !! p = Some (f_inode f);
  co_inode p i : names s !! p = Some i → is_Some (dk_inodes (fc_disk s) !! i);
  co_once p q i : names s !! p = Some i → names s !! q = Some i → p = q;
  co_files h f : fc_files s !! h = Some f → is_Some (dk_inodes (fc_disk s) !! f_inode f) ∧ 0 ≤ f_pos f;
  co_held : fc_held s ⊆ dom (fc_files s)
}.

Record tracked (s : FileCache) : Prop := {
  tr_held h : h ∈ fc_held s → ∃ p, in_cache s !! p = Some h;
  tr_dirty p i : names s !! p = Some i → durable s i ∨ ∃ h, in_cache s !! p = Some h ∧ dirty s h
}.

(** ** Steps that change no content *)

Record quiet (s s' : FileCache) : Prop := {
  qu_names : names s' = names s;
  qu_bytes i : in_bytes <$> dk_inodes (fc_disk s') !! i = in_bytes <$> dk_inodes (fc_disk s) !! i;
  qu_durable i : durable s i → durable s' i;
  qu_held : fc_held s' = fc_held s;
  qu_read_only : fc_read_only s' = fc_read_only s;
  qu_dom : dom (fc_files s') = dom (fc_files s);
  qu_file h f : fc_files s !! h = Some f →
    ∃ f', fc_files s' !! h = Some f' ∧ same_file f f' ∧ (0 ≤ f_pos f → 0 ≤ f_pos f') ∧
      (f_is_synced f = false → f_ignore_write f = false → f_is_synced f' = true → durable s' (f_inode f));
  qu_interval : fc_sync_interval s' = fc_sync_interval s
}.

#[export] Instance quiet_refl : Reflexive quiet.
Proof. intros s. split; try done. intros h f Hf. exists f. split_and!; [done|by split_and!|done|]. intros H1 _ H2. congruence. Qed.

#[export] Instance quiet_trans : Transitive quiet.
Proof.
  intros s1 s2 s3 [A1 A2 A3 A4 A5 A6 A7 A8] [B1 B2 B3 B4 B5 B6 B7 B8]. split; try congruence; [by auto|].
  intros h f Hf. destruct (A7 h f Hf) as (f2 & Hf2 & (P1 & P2 & P3 & P4) & Hp2 & Hd2).
  destruct (B7 h f2 Hf2) as (f3 & Hf3 & (Q1 & Q2 & Q3 & Q4) & Hp3 & Hd3).
  exists f3. split_and!; [done|split_and!; congruence|by auto|].
  intros H1 H2 H3. destruct (f_is_synced f2) eqn:E; [by auto|]. rewrite <- P2. apply Hd3; congruence.
Qed.

Lemma quiet_contents s s' : quiet s s' → contents s' = contents s.
Proof.
  intros Q. unfold contents. pose proof (qu_names _ _ Q) as En. unfold names in En. rewrite En.
  apply map_fmap_ext. intros p i _. unfold inode_bytes. by rewrite (qu_bytes _ _ Q i).
Qed.

Lemma quiet_inode s s' i : quiet s s' → is_Some (dk_inodes (fc_disk s) !! i) → is_Some (dk_inodes (fc_disk s') !! i).
Proof.
  intros Q [n Hn]. pose proof (qu_bytes _ _ Q i) as E. rewrite Hn in E. simpl in E.
  destruct (dk_inodes (fc_disk s') !! i); [eauto|done].
Qed.

Lemma quiet_file_back s s' h f' : quiet s s' → fc_files s' !! h = Some f' → ∃ f, fc_files s !! h = Some f ∧ same_file f f'.
Proof.
  intros Q Hf'. assert (h ∈ dom (fc_files s)) as [f Hf]%elem_of_dom by (rewrite <- (qu_dom _ _ Q); by eapply elem_of_dom_2).
  destruct (qu_file _ _ Q h f Hf) as (f2 & Hf2 & Hs & _). exists f. split; congruence.
Qed.

Lemma coherent_quiet s s' :
  coherent s → quiet s s' → cache_size (fc_cache s') = cache_size (fc_cache s) → in_cache s' ⊆ in_cache s → coherent s'.
Proof.
  intros [C1 C2 C3 C4 C5 C6] Q Hsz Hc. split.
  - by rewrite Hsz.
  - intros p h Hp. destruct (C2 p h) as (f & Hf & Hpath & Hn); [by eapply lookup_weaken|].
    destruct (qu_file _ _ Q h f Hf) as (f' & Hf' & (P1 & P2 & _) & _). exists f'. rewrite (qu_names _ _ Q). split_and!; congruence.
  - intros p i. rewrite (qu_names _ _ Q). intros Hp. eapply quiet_inode; [done|by eapply C3].
  - intros p q i. rewrite (qu_names _ _ Q). apply C4.
  - intros h f' Hf'. destruct (quiet_file_back _ _ _ _ Q Hf') as (f & Hf & _).
    destruct (qu_file _ _ Q h f Hf) as (f2 & Hf2 & (_ & P2 & _) & Hp & _). simplify_eq.
    destruct (C5 h f Hf) as [Hi Hpos]. split; [|by auto]. rewrite P2. by eapply quiet_inode.
  - by rewrite (qu_held _ _ Q), (qu_dom _ _ Q).
Qed.

(** What leaves the cache is durable: then nothing is lost. *)
Lemma tracked_quiet s s' :
  coherent s → tracked s → quiet s s' → in_cache s' ⊆ in_cache s →
  (∀ p h f, in_cache s !! p = Some h → in_cache s' !! p = None → fc_files s !! h = Some f →
     (h ∉ fc_held s) ∧ (dirty s h → durable s' (f_inode f))) → tracked s'.
Proof.
  intros C [T1 T2] Q Hc Hout. split.
  - rewrite (qu_held _ _ Q). intros h Hh. destruct (T1 h Hh) as (p & Hp). exists p.
    destruct (in_cache s' !! p) as [h'|] eqn:E; [f_equal; eapply lookup_weaken in E; [|exact Hc]; congruence|].
    destruct (co_current _ C p h Hp) as (f & Hf & _). by destruct (Hout p h f Hp E Hf) as [? _].
  - intros p i. rewrite (qu_names _ _ Q). intros Hi. destruct (T2 p i Hi) as [Hd|(h & Hp & Hd)]; [left; by apply (qu_durable _ _ Q)|].
    destruct (co_current _ C p h Hp) as (f & Hf & _ & Hn). assert (i = f_inode f) as -> by congruence.
    destruct (in_cache s' !! p) as [h'|] eqn:E.
    + eapply lookup_weaken in E as E2; [|exact Hc]. assert (h' = h) as -> by congruence.
      destruct Hd as (f0 & Hf0 & Hm & Hs & Hg). assert (f0 = f) as -> by congruence.
      destruct (qu_file _ _ Q h f Hf) as (f' & Hf' & (_ & _ & P3 & P4) & _ & Hdur).
      destruct (f_is_synced f') eqn:Es; [left; by apply Hdur|]. right. exists h. split; [done|]. exists f'. split_and!; congruence.
    + left. destruct (Hout p h f Hp E Hf) as [_ Hd']. by apply Hd'.
Qed.

(** ** Open files *)

Lemma quiet_put s h f f' :
  fc_files s !! h = Some f → same_file f f' → (0 ≤ f_pos f → 0 ≤ f_pos f') →
  (f_is_synced f' = true → f_is_synced f = true) → quiet s (with_files (<[h := f']> (fc_files s)) s).
Proof.
  intros Hf Hs Hp Hd. split; try done.
  - simpl. rewrite dom_insert_L. apply elem_of_dom_2 in Hf. set_solver.
  - intros h2 f2 Hf2. simpl. destruct (decide (h2 = h)) as [->|Hne].
    + assert (f2 = f) as -> by congruence. exists f'. rewrite lookup_insert_eq. split_and!; [done..|].
      intros H1 _ H2. rewrite (Hd H2) in H1. done.
    + exists f2. rewrite lookup_insert_ne by done. split_and!; [done|by split_and!|done|]. intros H1 _ H2. congruence.
Qed.

Lemma quiet_fsync s i : quiet s (with_disk (os_fsync i (fc_disk s)) s).
Proof.
  split; try done.
  - intros j. simpl. destruct (decide (j = i)) as [->|Hne]; [|by rewrite lookup_alter_ne].
    rewrite lookup_alter_eq. by destruct (dk_inodes (fc_disk s) !! i).
  - intros j Hd n. simpl. intros [(-> & n0 & Hn & ->)|[? Hn]]%lookup_alter_Some; [done|by apply Hd].
  - intros h f Hf. exists f. split_and!; [done|by split_and!|done|]. intros H1 _ H2. congruence.
Qed.

Lemma fsync_durable s i : durable (with_disk (os_fsync i (fc_disk s)) s) i.
Proof. intros n. simpl. by intros [(_ & n0 & _ & ->)|[? _]]%lookup_alter_Some. Qed.

(** The end of a [sync_all]. *)
Lemma quiet_synced s h f t :
  fc_files s !! h = Some f →
  let s' := with_files (<[h := synced t f]> (fc_files s)) (with_disk (os_fsync (f_inode f) (fc_disk s)) s) in
  quiet s s' ∧ durable s' (f_inode f).
Proof.
  intros Hf s'. split; [|by intros n Hn; apply (fsync_durable s (f_inode f))].
  destruct (quiet_fsync s (f_inode f)) as [Q1 Q2 Q3 Q4 Q5 Q6 Q7 Q8]. split; try done.
  - simpl. rewrite dom_insert_L. apply elem_of_dom_2 in Hf. set_solver.
  - intros h2 f2 Hf2. simpl. destruct (decide (h2 = h)) as [->|Hne].
    + assert (f2 = f) as -> by congruence. exists (synced t f). rewrite lookup_insert_eq. split_and!; [done|by split_and!|done|].
      intros _ _ _. apply (fsync_durable s (f_inode f)).
    + exists f2. rewrite lookup_insert_ne by done. split_and!; [done|by split_and!|done|]. intros H1 _ H2. congruence.
Qed.

Lemma sync_all_spec env h f s :
  fc_files s !! h = Some f →
  ∃ r s', sync_all env h s = (r, s') ∧ r ≠ Panic ∧ quiet s s' ∧ fc_cache s' = fc_cache s ∧
    (∀ h', h' ≠ h → fc_files s' !! h' = fc_files s !! h') ∧
    (∀ i, i ≠ f_inode f → dk_inodes (fc_disk s') !! i = dk_inodes (fc_disk s) !! i) ∧
    (fe_fsync env (f_path f) = true →
       r = Ok tt ∧ ¬ dirty s' h ∧ (f_is_synced f = false → f_ignore_write f = false → durable s' (f_inode f))).
Proof.
  intros Hf. unfold sync_all, the_file, put_file. simpl_st. rewrite Hf. simpl.
  destruct (f_ignore_write f || f_is_synced f) eqn:E.
  { eexists _, _. split_and!; [done|done|done|done|done|done|]. intros _. split_and!; [done| |].
    - intros (f0 & Hf0 & _ & E1 & E2). rewrite Hf in Hf0. simplify_eq. by rewrite E1, E2 in E.
    - intros E1 E2. by rewrite E1, E2 in E. }
  destruct (fe_fsync env (f_path f)); simpl.
  - eexists _, _. split_and!; [done|done|by apply (quiet_synced s h f)|done| | |].
    + intros h' Hne. simpl. by rewrite lookup_insert_ne.
    + intros i Hne. simpl. by rewrite lookup_alter_ne.
    + intros _. split_and!; [done| |intros _ _; by apply (quiet_synced s h f)].
      intros (f0 & Hf0 & _ & E1 & _). simpl in Hf0. rewrite lookup_insert_eq in Hf0. by simplify_eq.
  - eexists _, _. by split_and!.
Qed.

Lemma logged_sync env h f s :
  fc_files s !! h = Some f →
  ∃ s', logged (sync_all env h) s = (Ok tt, s') ∧ quiet s s' ∧ fc_cache s' = fc_cache s ∧
    (∀ h', h' ≠ h → fc_files s' !! h' = fc_files s !! h') ∧
    (∀ i, i ≠ f_inode f → dk_inodes (fc_disk s') !! i = dk_inodes (fc_disk s) !! i) ∧
    (fe_fsync env (f_path f) = true → ¬ dirty s' h ∧ (f_is_synced f = false → f_ignore_write f = false → durable s' (f_inode f))).
Proof.
  intros Hf. destruct (sync_all_spec env h f s Hf) as (r & s' & E & Hr & Q & Hc & Ho & Hi & Hd). exists s'.
  unfold logged. rewrite E. split_and!; [by destruct r as [[]|e|]|done|done|done|done|]. intros Hok. by destruct (Hd Hok).
Qed.

Lemma flush_local_spec env h f s :
  fc_files s !! h = Some f → ∃ r s', flush_local env h s = (r, s') ∧ r ≠ Panic ∧ quiet s s' ∧ fc_cache s' = fc_cache s.
Proof.
  intros Hf. unfold flush_local, the_file, put_file. simpl_st. rewrite Hf. simpl.
  destruct (f_ignore_write f) eqn:Eg; [eexists _, _; by split_and!|].
  assert (quiet s (with_files (<[h := unsynced f]> (fc_files s)) s)) as Q by (by apply (quiet_put s h f)).
  destruct (fe_fsync env (f_path f)); eexists _, _; (split_and!; [done|done| |done]); [|done].
  etrans; [exact Q|]. apply quiet_fsync.
Qed.

Lemma file_seek_spec pos h f s :
  fc_files s !! h = Some f →
  (∃ e, file_seek pos h s = (Err e, s)) ∨
  (∃ p, 0 ≤ p ∧ file_seek pos h s = (Ok tt, with_files (<[h := with_pos p f]> (fc_files s)) s) ∧ (∀ n, pos = SeekStart n → p = n)).
Proof.
  intros Hf. unfold file_seek, the_file, put_file. simpl_st. rewrite Hf. simpl. case_decide; [left; eauto|right].
  eexists. split_and!; [|done|by intros n ->]. lia.
Qed.

Lemma file_read_spec n h f s :
  fc_files s !! h = Some f →
  let buf := take n (drop (Z.to_nat (f_pos f)) (inode_bytes (f_inode f) (fc_disk s))) in
  file_read n h s = (Ok buf, with_files (<[h := with_pos (f_pos f + Z.of_nat (length buf)) f]> (fc_files s)) s).
Proof. intros Hf buf. unfold file_read, the_file, put_file. simpl_st. by rewrite Hf. Qed.

(** ** The operations of the cache *)

Section Life.
Context `{HashIterLaws}.

Lemma quiet_cache c s : quiet s (with_cache c s).
Proof. destruct (quiet_refl s) as [Q1 Q2 Q3 Q4 Q5 Q6 Q7 Q8]. by split. Qed.

Lemma in_cache_lookup s p : in_cache s !! p = ev_value <$> store (fc_cache s) !! p.
Proof. apply lookup_fmap. Qed.

Lemma fc_get_spec env p s :
  ∃ s', fc_get env p s = (Ok (in_cache s !! p), s') ∧ s' = with_cache (cache_get (fe_clock env 0) p (fc_cache s)).2 s ∧
    in_cache s' = in_cache s ∧ cache_size (fc_cache s') = cache_size (fc_cache s).
Proof.
  eexists. split_and!; [|done|apply cached_touch|done]. rewrite in_cache_lookup. done.
Qed.

Lemma fc_remove_spec p s :
  ∃ s', fc_remove p s = (Ok (in_cache s !! p), s') ∧ quiet s s' ∧ fc_files s' = fc_files s ∧ fc_disk s' = fc_disk s ∧
    in_cache s' = delete p (in_cache s) ∧ cache_size (fc_cache s') = cache_size (fc_cache s).
Proof.
  eexists. split_and!; [|apply quiet_cache|done|done|apply (cached_remove p (fc_cache s))|done].
  rewrite in_cache_lookup. done.
Qed.

Lemma fc_insert_spec env n p h s :
  0 ≤ cache_size (fc_cache s) →
  ∃ l s' c', fc_insert env n p h s = (Ok l, s') ∧ s' = with_cache c' s ∧
    cache_insert (fe_clock env n) (fe_scan env n) p h (fc_cache s) = Ok (l, c') ∧
    cache_size (fc_cache s') = cache_size (fc_cache s) ∧ NoDup l.*1 ∧
    (∀ q, in_cache s' !! q = if decide (q ∈ l.*1) then None else <[p := h]> (in_cache s) !! q) ∧
    (∀ q h', (q, h') ∈ l → <[p := h]> (in_cache s) !! q = Some h').
Proof.
  intros Hsz. destruct (cache_insert_spec (fe_clock env n) (fe_scan env n) p h (fc_cache s) Hsz) as (l & c' & Hi & Hd & _).
  exists l, (with_cache c' s), c'. split_and!; [|done|done|by apply (dis_params _ _ _ _ Hd)|apply Hd| |].
  - unfold fc_insert. simpl_st. by rewrite Hi.
  - intros q. by apply (cache_insert_cases (fe_clock env n) (fe_scan env n) p h (fc_cache s) l c' q).
  - intros q h' [Hq _]%(dis_removed _ _ _ _ Hd). unfold cached in Hq. simpl in Hq. by rewrite fmap_insert in Hq.
Qed.

(** *** Discarding *)

Lemma lock_file_spec h s :
  (h ∈ fc_held s ∧ ∃ e, lock_file h s = (Err e, s)) ∨ ((h ∉ fc_held s) ∧ lock_file h s = (Ok tt, s)).
Proof. unfold lock_file. simpl_st. case_decide; [left|right]; eauto. Qed.

(** One file leaves the cache: it is synced when nobody holds it. *)
Lemma discard_one_spec env p s :
  coherent s →
  ∃ r s', discard_one env p s = (r, s') ∧ r ≠ Panic ∧ quiet s s' ∧ in_cache s' = delete p (in_cache s) ∧
    cache_size (fc_cache s') = cache_size (fc_cache s) ∧
    (∀ h, in_cache s !! p = Some h → h ∉ fc_held s → r = Ok tt) ∧ (in_cache s !! p = None → r = Ok tt) ∧
    (∀ h f, in_cache s !! p = Some h → h ∉ fc_held s → fe_fsync env p = true → fc_files s !! h = Some f →
       dirty s h → durable s' (f_inode f)).
Proof.
  intros C. unfold discard_one. destruct (fc_remove_spec p s) as (s1 & E1 & Q1 & Ef & Ed & Ec & Es).
  rewrite (st_bind_ok _ _ _ _ _ E1). destruct (in_cache s !! p) as [h|] eqn:Ep.
  2: { exists (Ok tt), s1. by split_and!. }
  destruct (co_current _ C p h Ep) as (f & Hf & Hpath & Hn).
  destruct (lock_file_spec h s1) as [[Hh [e El]]|[Hh El]]; rewrite (qu_held _ _ Q1) in Hh.
  { rewrite (st_bind_err _ _ _ _ _ El). exists (Err e), s1. split_and!; try done; [by intros ? [= <-]|]. by intros ? ? [= <-]. }
  rewrite (st_bind_ok _ _ _ _ _ El), (st_bind_ok _ _ _ f s1) by (unfold the_file; by rewrite Ef, Hf).
  destruct (bool_decide _ && _) eqn:Eb.
  - destruct (logged_sync env h f s1) as (s' & E' & Q' & Ec' & _ & _ & Hd); [by rewrite Ef|].
    exists (Ok tt), s'. split_and!; try done; [by etrans|unfold in_cache in *; by rewrite Ec'|by rewrite Ec'|].
    intros h' f' [= <-] _ Hok Hf' (f2 & Hf2 & _ & Hs & Hg). rewrite Hf in Hf', Hf2. simplify_eq. by apply Hd.
  - exists (Ok tt), s1. split_and!; try done. intros h' f' [= <-] _ _ _ (f2 & Hf2 & Hm & Hs & _). rewrite Hf in Hf2. simplify_eq.
    rewrite Hs, bool_decide_true in Eb by done. done.
Qed.

Lemma discard_loop env ps s :
  coherent s →
  ∃ r s', st_for (discard_one env) ps s = (r, s') ∧ r ≠ Panic ∧ quiet s s' ∧ coherent s' ∧ in_cache s' ⊆ in_cache s ∧
    (r = Ok tt → ∀ p, p ∈ ps → in_cache s' !! p = None) ∧
    (∀ p, p ∉ ps → in_cache s' !! p = in_cache s !! p) ∧
    ((∀ p h, p ∈ ps → in_cache s !! p = Some h → h ∉ fc_held s) → r = Ok tt ∧
     ((∀ p, fe_fsync env p = true) → tracked s → tracked s')).
Proof.
  revert s. induction ps as [|p ps IH]; intros s C.
  { exists (Ok tt), s. split_and!; try done. intros _ p Hp. by apply not_elem_of_nil in Hp. }
  cbn [st_for]. destruct (discard_one_spec env p s C) as (r1 & s1 & E1 & Hr1 & Q1 & Ec1 & Es1 & Ho1 & Ho1' & Hd1).
  assert (in_cache s1 ⊆ in_cache s) as Hsub1 by (rewrite Ec1; apply delete_subseteq).
  assert (coherent s1) as C1 by (by eapply coherent_quiet).
  assert (∀ q, q ∉ p :: ps → in_cache s1 !! q = in_cache s !! q) as Hq1
    by (intros q Hq; rewrite Ec1; apply lookup_delete_ne; set_solver).
  destruct r1 as [[]|e|]; [|..|done].
  - rewrite (st_bind_ok _ _ _ _ _ E1). destruct (IH s1 C1) as (r & s' & E & Hr & Q & C' & Hsub & Hin & Hout & Hcalm).
    exists r, s'. split_and!; try done; [by etrans|by etrans| | |].
    + intros Hok q [->|Hq]%elem_of_cons; [|by apply Hin]. destruct (in_cache s' !! p) eqn:Ep; [|done].
      eapply lookup_weaken in Ep; [|exact Hsub]. rewrite Ec1, lookup_delete_eq in Ep. done.
    + intros q Hq. rewrite Hout by set_solver. by apply Hq1.
    + intros Hheld. destruct Hcalm as [Hok Hcalm].
      { intros q h Hq Hl. rewrite (qu_held _ _ Q1). apply (Hheld q); [set_solver|]. by eapply lookup_weaken. }
      split; [done|]. intros Hf T. apply Hcalm; [done|]. apply (tracked_quiet s s1); [done..|].
      intros q h f Hq Hq1' Hfl. destruct (decide (q = p)) as [->|Hne]; [|rewrite Ec1, lookup_delete_ne in Hq1' by congruence; congruence].
      assert (h ∉ fc_held s) as Hh by (apply (Hheld p); [set_solver|done]). split; [done|]. by apply (Hd1 h).
  - rewrite (st_bind_err _ _ _ _ _ E1). exists (Err e), s1. split_and!; try done.
    intros Hheld. destruct (in_cache s !! p) as [h|] eqn:Ep.
    + discriminate (Ho1 h eq_refl). apply (Hheld p); [set_solver|done].
    + discriminate (Ho1' eq_refl).
Qed.

Lemma elem_of_cache_keys s p : p ∈ cache_keys (fc_cache s) ↔ is_Some (in_cache s !! p).
Proof.
  unfold cache_keys, in_cache, cached. rewrite list_elem_of_fmap, lookup_fmap, fmap_is_Some. split.
  - intros ([q e] & -> & Hq%elem_of_hash_iter). eauto.
  - intros [e He]. exists (p, e). split; [done|]. by apply elem_of_hash_iter.
Qed.

Definition nobody_holds (p : Path) (s : FileCache) : Prop :=
  ∀ q h, p `prefix_of` q → in_cache s !! q = Some h → h ∉ fc_held s.

Lemma discard_recursive_spec env p s :
  coherent s →
  ∃ r s', discard_recursive env p s = (r, s') ∧ r ≠ Panic ∧ quiet s s' ∧ coherent s' ∧ in_cache s' ⊆ in_cache s ∧
    (r = Ok tt → ∀ q, p `prefix_of` q → in_cache s' !! q = None) ∧
    (∀ q, ¬ p `prefix_of` q → in_cache s' !! q = in_cache s !! q) ∧
    (nobody_holds p s → r = Ok tt ∧ ((∀ q, fe_fsync env q = true) → tracked s → tracked s')).
Proof.
  intros C. unfold discard_recursive. rewrite (st_bind_ok _ _ _ s s) by done.
  set (ps := filter _ _). destruct (discard_loop env ps s C) as (r & s' & E & Hr & Q & C' & Hsub & Hin & Hout & Hcalm).
  exists r, s'. split_and!; try done.
  - intros Hok q Hq. destruct (in_cache s' !! q) as [h|] eqn:Eq; [|done].
    rewrite (Hin Hok q) in Eq; [done|]. apply list_elem_of_filter. split; [done|]. apply elem_of_cache_keys.
    exists h. by eapply lookup_weaken.
  - intros q Hq. apply Hout. intros [? _]%list_elem_of_filter. done.
  - intros Hn. apply Hcalm. intros q h [Hp _]%list_elem_of_filter Hl. by eapply Hn.
Qed.

(** *** Opening *)

(** A file that is there, or a new one. *)
Definition created (p : Path) (m : gmap Path (list Z)) : gmap Path (list Z) :=
  match m !! p with Some _ => m | None => <[p := []]> m end.

(** The state with a newly opened file, whose name has the inode [i]. *)
Record opens (p : Path) (h : nat) (f : File) (s s' : FileCache) : Prop := {
  op_cache : fc_cache s' = fc_cache s;
  op_held : fc_held s' = fc_held s;
  op_read_only : fc_read_only s' = fc_read_only s;
  op_new : fc_files s !! h = None;
  op_files : fc_files s' = <[h := f]> (fc_files s);
  op_path : f_path f = p;
  op_inode : names s' !! p = Some (f_inode f);
  op_coherent : coherent s';
  op_contents : contents s' = created p (contents s);
  op_tracked : tracked s → tracked s'
}.

Lemma quiet_dirs ds s : quiet s (with_disk (mkDisk ds (dk_names (fc_disk s)) (dk_inodes (fc_disk s))) s).
Proof. destruct (quiet_refl s) as [Q1 Q2 Q3 Q4 Q5 Q6 Q7 Q8]. by split. Qed.

Lemma contents_lookup s p : contents s !! p = (λ i, inode_bytes i (fc_disk s)) <$> names s !! p.
Proof. apply lookup_fmap. Qed.

Lemma opens_existing s p i mode t g :
  coherent s → names s !! p = Some i →
  opens p (fresh (dom (fc_files s))) (mkFile i 0 p t true mode g) s
    (with_files (<[fresh (dom (fc_files s)) := mkFile i 0 p t true mode g]> (fc_files s)) s).
Proof.
  intros C Hi. assert (fc_files s !! fresh (dom (fc_files s)) = None) as Hfr by (apply not_elem_of_dom, is_fresh).
  split; try done.
  - destruct C as [C1 C2 C3 C4 C5 C6]. split; try done.
    + intros q h Hq. destruct (C2 q h Hq) as (f & Hf & Hrest). exists f. split; [|done]. simpl.
      rewrite lookup_insert_ne; [done|]. intros <-. congruence.
    + intros h f. simpl. intros [[<- <-]|[_ Hf]]%lookup_insert_Some; [|by eapply C5]. simpl. split; [by eapply C3|lia].
    + simpl. set_solver.
  - unfold created. rewrite contents_lookup, Hi. done.
  - intros [T1 T2]. split; [done|]. intros q j Hj. destruct (T2 q j Hj) as [Hd|(h & Hq & f & Hf & Hd)]; [by left|].
    right. exists h. split; [done|]. exists f. split; [|done]. simpl. rewrite lookup_insert_ne; [done|]. intros <-. congruence.
Qed.

Lemma opens_new s p mode t g :
  coherent s → names s !! p = None →
  let i := fresh (dom (dk_inodes (fc_disk s))) in let h := fresh (dom (fc_files s)) in
  opens p h (mkFile i 0 p t true mode g) s
    (with_files (<[h := mkFile i 0 p t true mode g]> (fc_files s))
       (with_disk (mkDisk (dk_dirs (fc_disk s)) (<[p := i]> (names s)) (<[i := mkInode [] []]> (dk_inodes (fc_disk s)))) s)).
Proof.
  intros C Hp i h. assert (fc_files s !! h = None) as Hfr by (apply not_elem_of_dom, is_fresh).
  assert (dk_inodes (fc_disk s) !! i = None) as Hi by (apply not_elem_of_dom, is_fresh).
  destruct C as [C1 C2 C3 C4 C5 C6].
  assert (∀ q j, names s !! q = Some j → j ≠ i) as Hold by (intros q j Hj ->; destruct (C3 q i Hj); congruence).
  split; try done.
  - unfold names. simpl. by rewrite lookup_insert_eq.
  - split; try done.
    + intros q h' Hq. destruct (C2 q h' Hq) as (f & Hf & Hpath & Hn). exists f. unfold names. simpl.
      rewrite !lookup_insert_ne; [done|congruence|intros <-; congruence].
    + intros q j. unfold names. simpl. intros [[_ <-]|[_ Hj]]%lookup_insert_Some; [by rewrite lookup_insert_eq|].
      rewrite lookup_insert_ne by (symmetry; by eapply Hold). by eapply C3.
    + intros q q' j. unfold names. simpl. intros [[<- <-]|[_ Hj]]%lookup_insert_Some [[<- Hj']|[_ Hj']]%lookup_insert_Some.
      1: done. 1: by destruct (Hold _ _ Hj'). 1: subst; by destruct (Hold _ _ Hj). by eapply C4.
    + intros h' f. simpl. intros [[<- <-]|[_ Hf]]%lookup_insert_Some; simpl.
      * rewrite lookup_insert_eq. split; [done|lia].
      * destruct (C5 h' f Hf) as [[n Hn] ?]. rewrite lookup_insert_ne by congruence. split; [by eexists|done].
    + simpl. set_solver.
  - apply map_eq. intros q. unfold created. rewrite (contents_lookup s p), Hp. simpl. rewrite contents_lookup. unfold names. simpl.
    destruct (decide (q = p)) as [->|Hne].
    + rewrite !lookup_insert_eq. simpl. unfold inode_bytes. simpl. by rewrite lookup_insert_eq.
    + rewrite !lookup_insert_ne, contents_lookup by done. unfold names. destruct (dk_names (fc_disk s) !! q) as [j|] eqn:Ej; [|done]. simpl.
      unfold inode_bytes. simpl. rewrite lookup_insert_ne; [done|]. symmetry. by eapply Hold.
  - intros [T1 T2]. split; [done|]. intros q j. unfold names. simpl. intros [[_ <-]|[_ Hj]]%lookup_insert_Some.
    + left. intros n. simpl. rewrite lookup_insert_eq. by intros [= <-].
    + destruct (T2 q j Hj) as [Hd|(h' & Hq & f & Hf & Hd)].
      * left. intros n. simpl. rewrite lookup_insert_ne by (symmetry; by eapply Hold). apply Hd.
      * right. exists h'. split; [done|]. exists f. split; [|done]. simpl. rewrite lookup_insert_ne; [done|]. intros <-. congruence.
Qed.

Lemma opens_after_dirs ds p h f s s' :
  let s1 := with_disk (mkDisk ds (dk_names (fc_disk s)) (dk_inodes (fc_disk s))) s in
  opens p h f s1 s' → opens p h f s s'.
Proof. intros s1 [O1 O2 O3 O4 O5 O6 O7 O8 O9 O10]. split; try done. intros [T1 T2]. apply O10. by split. Qed.

Lemma open_file_spec env mode create p s :
  coherent s →
  (∃ e s', open_file env mode create p s = (Err e, s') ∧ quiet s s' ∧ fc_cache s' = fc_cache s) ∨
  (∃ s' i, let h := fresh (dom (fc_files s)) in let f := mkFile i 0 p (fe_instant env) true mode (fc_read_only s) in
     open_file env mode create p s = (Ok h, s') ∧ opens p h f s s' ∧ (create = false → is_Some (names s !! p))).
Proof.
  intros C. unfold open_file. rewrite (st_bind_ok _ _ _ s s) by done. cbv zeta.
  set (cr := create && negb (fc_read_only s)).
  assert (∀ ds, let s1 := with_disk (mkDisk ds (dk_names (fc_disk s)) (dk_inodes (fc_disk s))) s in coherent s1) as Hco.
  { intros ds s1. eapply coherent_quiet; [done|apply quiet_dirs|done|done]. }
  assert ((∃ e, (if cr && bool_decide (parent p ≠ []) then os_create_dir_all (parent p) (fc_disk s) else Ok (fc_disk s)) = Err e) ∨
          ∃ ds, (if cr && bool_decide (parent p ≠ []) then os_create_dir_all (parent p) (fc_disk s) else Ok (fc_disk s))
                = Ok (mkDisk ds (dk_names (fc_disk s)) (dk_inodes (fc_disk s)))) as [[e ->]|[ds ->]].
  { destruct (cr && _); [|right; exists (dk_dirs (fc_disk s)); by destruct (fc_disk s)].
    unfold os_create_dir_all, create_dir_all. simpl_st. case_decide; [by left; eexists|right]. by eexists. }
  { left. exists e, s. by split_and!. }
  set (d := mkDisk ds _ _). set (s1 := with_disk d s).
  rewrite (st_bind_ok _ _ _ d s), (st_bind_ok _ _ _ tt s1) by done.
  destruct (os_open cr p d) as [[i d']|e|] eqn:Eo.
  3: { unfold os_open in Eo. by repeat case_match. }
  2: { left. exists e, s1. split_and!; [done|apply quiet_dirs|done]. }
  right. unfold os_open in Eo. destruct (dk_names d !! p) as [i0|] eqn:En; [|destruct (negb cr || _ || _) eqn:Ecr; [done|]].
  - injection Eo as <- <-. eexists _, i0. split_and!; [done| |intros _; by exists i0]. apply (opens_after_dirs ds). apply (opens_existing s1); [apply Hco|done].
  - injection Eo as <- <-. eexists _, (fresh (dom (dk_inodes d))). split_and!; [done| |by intros ->]. apply (opens_after_dirs ds). apply (opens_new s1); [apply Hco|done].
Qed.

(** *** Insertion into the cache *)

(** The insertion discards no file that is in use, and not the new one. *)
Definition insert_calm (env : FileEnv) (p : Path) (h : nat) (s : FileCache) : Prop :=
  match cache_insert (fe_clock env 1) (fe_scan env 1) p h (fc_cache s) with
  | Ok (l, _) => Forall (λ ph, ph.1 ≠ p ∧ (ph.2 ∉ fc_held s)) l
  | _ => True
  end.

Lemma insert_coherent s s' p h f :
  coherent s → quiet s s' → cache_size (fc_cache s') = cache_size (fc_cache s) →
  fc_files s !! h = Some f → f_path f = p → names s !! p = Some (f_inode f) →
  in_cache s' ⊆ <[p := h]> (in_cache s) → coherent s'.
Proof.
  intros C Q Hsz Hf Hp Hn Hsub. destruct (coherent_quiet s (with_cache (fc_cache s) s') C) as [D1 D2 D3 D4 D5 D6].
  { destruct Q as [Q1 Q2 Q3 Q4 Q5 Q6 Q7 Q8]. by split. } { done. } { done. }
  split; [by rewrite Hsz; apply C| |done..].
  intros q h' Hq. eapply lookup_weaken in Hq; [|exact Hsub]. apply lookup_insert_Some in Hq as [[<- <-]|[_ Hq]]; [|by apply D2].
  destruct (qu_file _ _ Q h f Hf) as (f' & Hf' & (P1 & P2 & _) & _). exists f'. rewrite (qu_names _ _ Q). split_and!; congruence.
Qed.

(** One discarded file: it goes back, or it is synced. *)
Lemma discarded_file_spec env n q h f s :
  coherent s → fc_files s !! h = Some f → f_path f = q → names s !! q = Some (f_inode f) → in_cache s !! q = None →
  ∃ k s', discarded_file env n (q, h) s = (Ok k, s') ∧ quiet s s' ∧ coherent s' ∧ in_cache s' ⊆ <[q := h]> (in_cache s) ∧
    (h ∉ fc_held s → fc_cache s' = fc_cache s ∧ (fe_fsync env q = true → dirty s h → durable s' (f_inode f))).
Proof.
  intros C Hf Hq Hn Hnone. unfold discarded_file. rewrite (st_bind_ok _ _ _ s s) by done. simpl. case_decide as Hh.
  - destruct (fc_insert_spec env n q h s) as (l & s' & c' & E & -> & _ & Hsz & _ & Hc & _); [apply C|].
    rewrite (st_bind_ok _ _ _ _ _ E).
    assert (in_cache (with_cache c' s) ⊆ <[q := h]> (in_cache s)) as Hsub.
    { apply map_subseteq_spec. intros p h' Hp. rewrite Hc in Hp. by case_decide. }
    eexists _, _. split_and!; [done|apply quiet_cache| |done|done]. by eapply insert_coherent; [..|exact Hsub]; [|apply quiet_cache|..].
  - rewrite (st_bind_ok _ _ _ f s) by (unfold the_file; by rewrite Hf).
    destruct (bool_decide _ && _) eqn:Eb.
    + destruct (logged_sync env h f s Hf) as (s' & E' & Q' & Ec' & _ & _ & Hd). rewrite (st_bind_ok _ _ _ _ _ E').
      assert (in_cache s' = in_cache s) as Ei by (unfold in_cache; by rewrite Ec').
      assert (in_cache s' ⊆ <[q := h]> (in_cache s)) as Hsub by (rewrite Ei; by apply insert_subseteq).
      eexists _, _. split_and!; [done|done| |done|].
      * eapply coherent_quiet; [done..| |]; by rewrite ?Ei, ?Ec'.
      * intros _. split; [done|]. intros Hok (f2 & Hf2 & _ & Hs & Hg). assert (f2 = f) as -> by congruence. apply Hd; congruence.
    + eexists _, _. split_and!; [done|done|done|by apply insert_subseteq|]. intros _. split; [done|].
      intros _ (f2 & Hf2 & Hm & Hs & _). assert (f2 = f) as -> by congruence. rewrite Hs, bool_decide_true in Eb by done. done.
Qed.

Lemma quiet_dirty s s' h f :
  quiet s s' → fc_files s !! h = Some f → dirty s h → dirty s' h ∨ durable s' (f_inode f).
Proof.
  intros Q Hf (f0 & Hf0 & Hm & Hs & Hg). assert (f0 = f) as -> by congruence.
  destruct (qu_file _ _ Q h f Hf) as (f' & Hf' & (_ & _ & P3 & P4) & _ & Hd).
  destruct (f_is_synced f') eqn:E; [right; by apply Hd|left]. exists f'. split_and!; congruence.
Qed.

(** A discarded file is out of the cache, and the file of its name. *)
Definition out_of_cache (s : FileCache) (ph : Path * nat) : Prop :=
  in_cache s !! ph.1 = None ∧ ∃ f, fc_files s !! ph.2 = Some f ∧ f_path f = ph.1 ∧ names s !! ph.1 = Some (f_inode f).

Lemma discarded_files_spec env n l s :
  coherent s → NoDup l.*1 → Forall (out_of_cache s) l →
  ∃ k s', discarded_files env n l s = (Ok k, s') ∧ quiet s s' ∧ coherent s' ∧
    (Forall (λ ph, ph.2 ∉ fc_held s) l → fc_cache s' = fc_cache s ∧
     ((∀ q, fe_fsync env q = true) → ∀ q h f, (q, h) ∈ l → fc_files s !! h = Some f → dirty s h → durable s' (f_inode f))).
Proof.
  revert n s. induction l as [|[q h] l IH]; intros n s C Hnd Hl.
  { eexists _, s. split_and!; [done..|]. intros _. split; [done|]. intros _ q h f Hq. by apply not_elem_of_nil in Hq. }
  apply Forall_cons in Hl as [(Hnone & f & Hf & Hpath & Hn) Hl]. apply NoDup_cons in Hnd as [Hq Hnd]. simpl in Hnone, Hf, Hpath, Hn.
  destruct (discarded_file_spec env n q h f s C Hf Hpath Hn Hnone) as (k1 & s1 & E1 & Q1 & C1 & Hsub & Hcalm1).
  destruct (IH (S n) s1 C1 Hnd) as (k2 & s2 & E2 & Q2 & C2 & Hcalm2).
  { apply Forall_forall. intros [q' h'] Hin. rewrite Forall_forall in Hl. destruct (Hl _ Hin) as (Hnone' & f' & Hf' & Hpath' & Hn').
    simpl in *. split; simpl.
    - destruct (in_cache s1 !! q') eqn:E; [|done]. eapply lookup_weaken in E; [|exact Hsub]. rewrite lookup_insert_ne in E; [congruence|].
      intros ->. apply Hq. apply list_elem_of_fmap. by exists (q', h').
    - destruct (qu_file _ _ Q1 h' f' Hf') as (f2 & Hf2 & (P1 & P2 & _) & _). exists f2. rewrite (qu_names _ _ Q1). split_and!; congruence. }
  cbn [discarded_files]. rewrite (st_bind_ok _ _ _ _ _ E1), (st_bind_ok _ _ _ _ _ E2).
  eexists _, s2. split_and!; [done|by etrans|done|].
  intros [Hh Hheld]%Forall_cons. destruct (Hcalm1 Hh) as [Ec1 Hd1]. rewrite (qu_held _ _ Q1) in Hcalm2.
  destruct (Hcalm2 Hheld) as [Ec2 Hd2]. split; [congruence|].
  intros Hok q' h' f' [[= -> ->]|Hin]%elem_of_cons Hf' Hdirty.
  - assert (f' = f) as -> by congruence. apply (qu_durable _ _ Q2). by apply Hd1.
  - destruct (qu_file _ _ Q1 h' f' Hf') as (f2 & Hf2 & (_ & P2 & _) & _).
    destruct (quiet_dirty _ _ _ _ Q1 Hf' Hdirty) as [Hdirty1|Hdur]; [|by apply (qu_durable _ _ Q2)].
    rewrite <- P2. by eapply Hd2.
Qed.

Lemma insert_file_cached_spec env p h f s :
  coherent s → fc_files s !! h = Some f → f_path f = p → names s !! p = Some (f_inode f) →
  ∃ k s', insert_file_cached env p h s = (Ok k, s') ∧ quiet s s' ∧ coherent s' ∧
    (insert_calm env p h s → (∀ q, fe_fsync env q = true) → tracked s →
     (∀ h0, in_cache s !! p = Some h0 → ¬ dirty s h0 ∧ (h0 ∉ fc_held s)) → tracked s' ∧ in_cache s' !! p = Some h).
Proof.
  intros C Hf Hpath Hn. unfold insert_file_cached.
  destruct (fc_insert_spec env 1 p h s) as (l & s1 & c' & E1 & -> & Ei & Hsz & Hnd & Hc & Hl); [apply C|].
  rewrite (st_bind_ok _ _ _ _ _ E1). set (s1 := with_cache c' s) in *.
  assert (quiet s s1) as Q1 by apply quiet_cache.
  assert (coherent s1) as C1.
  { eapply insert_coherent; [exact C|exact Q1|done|exact Hf|done|done|].
    apply map_subseteq_spec. intros q h' Hq. rewrite Hc in Hq. by case_decide. }
  destruct (discarded_files_spec env 2 l s1 C1 Hnd) as (k & s' & E' & Q' & C' & Hcalm).
  { apply Forall_forall. intros [q h'] Hin. split; simpl.
    - rewrite Hc, decide_True; [done|]. apply list_elem_of_fmap. by exists (q, h').
    - apply Hl in Hin. apply lookup_insert_Some in Hin as [[<- <-]|[_ Hin]]; [by exists f|]. by apply (co_current _ C). }
  exists k, s'. split_and!; [done|by etrans|done|]. unfold insert_calm. rewrite Ei. intros Hheld Hok [T1 T2] Hp.
  rewrite Forall_forall in Hheld. destruct Hcalm as [Ec Hdur]; [apply Forall_forall; intros ph Hin; by apply Hheld|].
  assert (∀ q h', in_cache s !! q = Some h' → q ≠ p → in_cache s' !! q = Some h' ∨ (q, h') ∈ l) as Hstay.
  { intros q h' Hq Hne. unfold in_cache at 1. rewrite Ec. change (cached (fc_cache s1)) with (in_cache s1). rewrite Hc.
    case_decide as Hin; [|left; by rewrite lookup_insert_ne]. right. apply list_elem_of_fmap in Hin as ([q2 h2] & -> & Hin).
    pose proof (Hl _ _ Hin) as Hl2. simpl in *. rewrite lookup_insert_ne in Hl2 by congruence. congruence. }
  split; [split|].
  - rewrite (qu_held _ _ Q'). intros h' Hh'. destruct (T1 h' Hh') as (q & Hq). exists q.
    destruct (Hstay q h' Hq) as [?|Hin]; [|done|]; [|by apply Hheld in Hin as [_ ?]].
    intros ->. by destruct (Hp h' Hq).
  - intros q i. rewrite (qu_names _ _ Q'). intros Hi. destruct (T2 q i Hi) as [Hd|(h' & Hq & Hd)]; [left; by apply (qu_durable _ _ Q')|].
    destruct (co_current _ C q h' Hq) as (f' & Hf' & _ & Hn'). assert (i = f_inode f') as -> by (unfold names in *; simpl in *; congruence).
    destruct (Hstay q h' Hq) as [Hin|Hin]; [intros ->; by destruct (Hp h' Hq)| |left; by apply (Hdur Hok q h')].
    destruct (quiet_dirty _ _ _ f' Q' Hf' Hd) as [?|?]; [right; eauto|by left].
  - unfold in_cache. rewrite Ec. change (cached (fc_cache s1)) with (in_cache s1). rewrite Hc, decide_False, lookup_insert_eq; [done|].
    intros ([q h'] & Hq & Hin)%list_elem_of_fmap. by apply Hheld in Hin as [? _].
Qed.
End Life.
