(* ===== verification/FileCacheRun.v ===== *)
(** * FileCacheRun: runs of calls of the file cache (core/file_cache.rs, backend/file.rs)

    Every call of the cache, and the reads and writes of those who hold a guard, as the steps
    of a run; what a guard sees; and what is on the disk. *)

From stdpp Require Import prelude gmap strings sorting.
From Stdlib Require Import ZArith Lia.
From S2P Require Import Prelude Bytes Collections Cache Folders FolderLife FileCache FileCacheLife.
Open Scope Z_scope.

(** ** Writing *)

(** The state after a write into an open file. *)
Definition rewritten (h : nat) (f' : File) (g : list Z → list Z) (s : FileCache) : FileCache :=
  with_files (<[h := f']> (fc_files s)) (with_disk (inode_update (f_inode f') g (fc_disk s)) s).

Lemma rewritten_inode h f' g s i n :
  dk_inodes (fc_disk (rewritten h f' g s)) !! i = Some n →
  ∃ n0, dk_inodes (fc_disk s) !! i = Some n0 ∧ in_disk n = in_disk n0 ∧ (i ≠ f_inode f' → n = n0).
Proof. simpl. intros [(-> & n0 & Hn & ->)|[Hne Hn]]%lookup_alter_Some. { exists n0. by split_and!. } exists n. by split_and!. Qed.

Lemma rewritten_contents h f' g s p :
  coherent s → names s !! p = Some (f_inode f') → contents (rewritten h f' g s) = alter g p (contents s).
Proof.
  intros C Hp. apply map_eq. intros q. rewrite contents_lookup. unfold names. simpl. destruct (decide (q = p)) as [->|Hne].
  - rewrite lookup_alter_eq, contents_lookup. unfold names in *. rewrite Hp. simpl. unfold inode_bytes. simpl.
    rewrite lookup_alter_eq. by destruct (co_inode _ C p _ Hp) as [n ->].
  - rewrite lookup_alter_ne, contents_lookup by done. unfold names. destruct (dk_names (fc_disk s) !! q) as [i|] eqn:Ei; [|done]. simpl.
    unfold inode_bytes. simpl. rewrite lookup_alter_ne; [done|]. intros <-. by destruct Hne; apply (co_once _ C q p (f_inode f')).
Qed.

Lemma rewritten_on_disk h f' g s : on_disk (rewritten h f' g s) = on_disk s.
Proof.
  unfold on_disk. simpl. apply map_fmap_ext. intros p i _. destruct (decide (i = f_inode f')) as [->|Hne].
  - rewrite lookup_alter_eq. by destruct (dk_inodes (fc_disk s) !! f_inode f').
  - by rewrite lookup_alter_ne.
Qed.

Lemma rewritten_coherent h f f' g s :
  coherent s → fc_files s !! h = Some f → same_file f f' → 0 ≤ f_pos f' → coherent (rewritten h f' g s).
Proof.
  intros [C1 C2 C3 C4 C5 C6] Hf (P1 & P2 & P3 & P4) Hpos.
  assert (∀ i, is_Some (dk_inodes (fc_disk s) !! i) → is_Some (dk_inodes (fc_disk (rewritten h f' g s)) !! i)) as Hin.
  { intros i Hi. simpl. by apply lookup_alter_is_Some. }
  split; [done| | |done| |].
  - intros p h' Hp. destruct (C2 p h' Hp) as (f2 & Hf2 & Hpath & Hn). simpl. destruct (decide (h' = h)) as [->|Hne].
    + exists f'. rewrite lookup_insert_eq. unfold names in *. simpl. split_and!; congruence.
    + exists f2. by rewrite lookup_insert_ne.
  - intros p i Hp. by apply Hin, (C3 p).
  - intros h' f2. simpl. intros [[<- <-]|[_ Hf2]]%lookup_insert_Some.
    + split; [|done]. apply Hin. rewrite P2. by eapply C5.
    + destruct (C5 h' f2 Hf2) as [? ?]. split; [by apply Hin|done].
  - simpl. set_solver.
Qed.

(** A write by the holder of a guard leaves the file in the cache as one to be synced. *)
Lemma rewritten_tracked h f f' g s :
  coherent s → tracked s → fc_files s !! h = Some f → same_file f f' → h ∈ fc_held s →
  f_mode f = AccessReadWrite → f_ignore_write f = false → f_is_synced f' = false → tracked (rewritten h f' g s).
Proof.
  intros C [T1 T2] Hf (P1 & P2 & P3 & P4) Hh Hm Hg Hs. split; [done|].
  destruct (T1 h Hh) as (p & Hp). destruct (co_current _ C p h Hp) as (f2 & Hf2 & _ & Hn). assert (f2 = f) as -> by congruence.
  assert (dirty (rewritten h f' g s) h) as Hdirty.
  { exists f'. simpl. rewrite lookup_insert_eq. split_and!; congruence. }
  intros q i Hq. destruct (decide (i = f_inode f)) as [->|Hne].
  - right. exists h. split; [|done]. by rewrite (co_once _ C q p (f_inode f)).
  - destruct (T2 q i Hq) as [Hd|(h' & Hq' & f3 & Hf3 & Hd)].
    + left. intros n Hn2. apply rewritten_inode in Hn2 as (n0 & Hn0 & _ & Hsame). rewrite Hsame by congruence. by apply Hd.
    + right. exists h'. split; [done|]. destruct (decide (h' = h)) as [->|Hne']; [done|].
      exists f3. simpl. by rewrite lookup_insert_ne.
Qed.

(** ** Reading and writing through a guard *)

Lemma file_write_spec buf h f s :
  fc_files s !! h = Some f → f_mode f = AccessReadWrite → f_ignore_write f = false →
  file_write buf h s = (Ok (length buf), rewritten h (with_pos (f_pos f + Z.of_nat (length buf)) (unsynced f))
                                           (write_all_at (Z.to_nat (f_pos f)) buf) s).
Proof.
  intros Hf Hm Hg. unfold file_write, the_file, put_file. simpl_st. rewrite Hf. simpl. rewrite Hg, decide_False by congruence.
  unfold rewritten, with_files, with_disk. simpl. by rewrite insert_insert_eq.
Qed.

Lemma file_set_len_spec n h f s :
  fc_files s !! h = Some f → f_mode f = AccessReadWrite → f_ignore_write f = false →
  file_set_len n h s = (Ok tt, rewritten h (unsynced f) (set_len n) s).
Proof. intros Hf Hm Hg. unfold file_set_len, the_file, put_file. simpl_st. rewrite Hf. simpl. by rewrite Hg, decide_False by congruence. Qed.

(** A write into a file that may not be written. *)
Lemma refused_write s h f :
  fc_files s !! h = Some f → f_mode f = AccessRead →
  let s' := with_files (<[h := unsynced f]> (fc_files s)) s in quiet s s' ∧ fc_cache s' = fc_cache s.
Proof. intros Hf Hm s'. split; [|done]. by apply (quiet_put s h f). Qed.

Section Run.
Context `{HashIterLaws}.

(** ** Getting a guard *)

(** A guard on the file of a name; with [SeekStart n] the file is at [n]. *)
Definition guards (p : Path) (mode : option AccessMode) (pos : SeekFrom) (h : nat) (s : FileCache) : Prop :=
  h ∈ fc_held s ∧ ∃ f, fc_files s !! h = Some f ∧ f_path f = p ∧ names s !! p = Some (f_inode f) ∧
    (∀ m, mode = Some m → f_mode f = m) ∧ (∀ n, pos = SeekStart n → f_pos f = n).

Lemma coherent_held s h : coherent s → is_Some (fc_files s !! h) → coherent (with_held ({[h]} ∪ fc_held s) s).
Proof. intros [C1 C2 C3 C4 C5 C6] Hh%elem_of_dom. split; try done. simpl. set_solver. Qed.

Lemma take_guard_spec p pos h f s :
  coherent s → fc_files s !! h = Some f → f_path f = p → names s !! p = Some (f_inode f) →
  ∃ r s', take_guard pos h s = (r, s') ∧ r ≠ Panic ∧ coherent s' ∧ contents s' = contents s ∧ in_cache s' = in_cache s ∧
    (∀ h', r = Ok h' → h' = h ∧ guards p (Some (f_mode f)) pos h s') ∧
    (in_cache s !! p = Some h → tracked s → tracked s').
Proof.
  intros C Hf Hp Hn. unfold take_guard.
  destruct (lock_file_spec h s) as [[Hh [e El]]|[Hh El]].
  { rewrite (st_bind_err _ _ _ _ _ El). exists (Err e), s. by split_and!. }
  rewrite (st_bind_ok _ _ _ _ _ El).
  assert (∃ r s1 f1, (if decide (pos = SeekCurrent 0) then mret tt else file_seek pos h) s = (r, s1) ∧ r ≠ Panic ∧ quiet s s1 ∧
            fc_cache s1 = fc_cache s ∧ fc_files s1 !! h = Some f1 ∧ (r = Ok tt → ∀ n, pos = SeekStart n → f_pos f1 = n))
    as (r & s1 & f1 & E & Hr & Q & Ec & Hf1 & Hpos).
  { case_decide as Hd; [exists (Ok tt), s, f; split_and!; try done; by intros _ n ->|].
    destruct (file_seek_spec pos h f s Hf) as [[e ->]|(p' & Hp' & -> & Hstart)]; [by exists (Err e), s, f|].
    eexists (Ok tt), _, (with_pos p' f). split_and!; [done|done|by apply (quiet_put s h f)|done|simpl; by rewrite lookup_insert_eq|].
    intros _ n Hs. simpl. by apply Hstart. }
  assert (in_cache s1 = in_cache s) as Ei by (unfold in_cache; by rewrite Ec).
  assert (coherent s1) as C1 by (eapply coherent_quiet; [done..| |]; by rewrite ?Ei, ?Ec).
  assert (tracked s → tracked s1) as Ht.
  { intros T. apply (tracked_quiet s s1); [done..|by rewrite Ei|]. intros q h' f' Hq. rewrite Ei. congruence. }
  destruct r as [[]|e|]; [|..|done].
  - rewrite (st_bind_ok _ _ _ _ _ E). eexists (Ok h), _. split_and!; [done|done|apply coherent_held; [done|by eexists]|exact (quiet_contents _ _ Q)|exact Ei| |].
    + intros h' [= <-]. split; [done|]. split; [simpl; set_solver|]. destruct (qu_file _ _ Q h f Hf) as (f2 & Hf2 & (P1 & P2 & P3 & _) & _).
      assert (f2 = f1) as -> by congruence. exists f1. change (names (with_held ({[h]} ∪ fc_held s1) s1)) with (names s1).
      rewrite (qu_names _ _ Q). split_and!; [done|congruence|congruence|by intros m [= <-]|by apply Hpos].
    + intros Hin T. destruct (Ht T) as [T1 T2]. split; [|done]. intros h'. simpl. intros [->%elem_of_singleton|Hh']%elem_of_union; [|by apply T1].
      exists p. change (in_cache s1 !! p = Some h). by rewrite Ei.
  - rewrite (st_bind_err _ _ _ _ _ E). exists (Err e), s1. split_and!; try done; try by apply quiet_contents.
Qed.

(** What makes an opening calm. *)
Definition open_calm (env : FileEnv) (p : Path) (s : FileCache) : Prop :=
  insert_calm env p (fresh (dom (fc_files s))) s ∧ ∀ q, fe_fsync env q = true.

Lemma opened_spec env mode create p s :
  coherent s →
  ∃ r s', opened env p (open_file env mode create p) s = (r, s') ∧ r ≠ Panic ∧ coherent s' ∧
    (∀ e, r = Err e → contents s' = contents s) ∧
    (∀ h, r = Ok h → contents s' = created p (contents s) ∧ (create = false → contents s' = contents s) ∧
       ∃ f, fc_files s' !! h = Some f ∧ f_path f = p ∧ names s' !! p = Some (f_inode f) ∧ f_mode f = mode) ∧
    (open_calm env p s → tracked s → (∀ h0, in_cache s !! p = Some h0 → ¬ dirty s h0 ∧ (h0 ∉ fc_held s)) →
     tracked s' ∧ ∀ h, r = Ok h → in_cache s' !! p = Some h).
Proof.
  intros C. unfold opened.
  destruct (open_file_spec env mode create p s C) as [(e & s1 & E & Q & Ec)|(s1 & i & E & O & Hex)].
  { rewrite (st_bind_err _ _ _ _ _ E). assert (in_cache s1 = in_cache s) as Ei by (unfold in_cache; by rewrite Ec).
    exists (Err e), s1. split_and!; [done|done|eapply coherent_quiet; [done..| |]; by rewrite ?Ei, ?Ec|intros; by apply quiet_contents|done|].
    intros _ T _. split; [|done]. apply (tracked_quiet s s1); [done..|by rewrite Ei|]. intros q h' f' Hq. rewrite Ei. congruence. }
  set (h := fresh (dom (fc_files s))) in *. set (f := mkFile _ _ _ _ _ _ _) in *.
  rewrite (st_bind_ok _ _ _ _ _ E). destruct O as [O1 O2 O3 O4 O5 O6 O7 O8 O9 O10].
  assert (fc_files s1 !! h = Some f) as Hf1 by (rewrite O5; apply lookup_insert_eq).
  destruct (insert_file_cached_spec env p h f s1 O8) as (k & s' & E' & Q' & C' & Hcalm); [done..|].
  rewrite (st_bind_ok _ _ _ _ _ E'). exists (Ok h), s'. split_and!; [done|done|done|done| |].
  - intros h' [= <-]. rewrite (quiet_contents _ _ Q'), O9. split_and!; [done| |].
    + intros Hc. unfold created. rewrite contents_lookup. destruct (Hex Hc) as [j ->]. done.
    + destruct (qu_file _ _ Q' h f Hf1) as (f2 & Hf2 & (P1 & P2 & P3 & _) & _). exists f2. rewrite (qu_names _ _ Q'). split_and!; [congruence|congruence|congruence|by rewrite P3].
  - intros [Hi Hok] T Hp. destruct Hcalm as [T' Hin].
    + unfold insert_calm in *. by rewrite O1, O2.
    + done.
    + by apply O10.
    + unfold in_cache. rewrite O1, O2. intros h0 Hh0. destruct (Hp h0 Hh0) as [Hd Hh]. split; [|done].
      intros (f0 & Hf0 & Hrest). apply Hd. exists f0. split; [|done]. rewrite O5, lookup_insert_ne in Hf0; [done|].
      intros <-. destruct (co_current _ C p h Hh0) as (f3 & Hf3 & _). congruence.
    + split; [done|]. by intros h' [= <-].
Qed.

(** ** The calls that give a guard *)

Definition after_get (env : FileEnv) (p : Path) (s : FileCache) : FileCache :=
  with_cache (cache_get (fe_clock env 0) p (fc_cache s)).2 s.

Lemma after_get_spec env p s :
  coherent s → coherent (after_get env p s) ∧ in_cache (after_get env p s) = in_cache s ∧
    (tracked s → tracked (after_get env p s)).
Proof.
  intros C. assert (in_cache (after_get env p s) = in_cache s) as Ei by apply cached_touch. split_and!; [|done|].
  - eapply coherent_quiet; [done|apply quiet_cache|done|by rewrite Ei].
  - intros [T1 T2]. by split; rewrite Ei.
Qed.

Lemma st_get_ok env p s : fc_get env p s = (Ok (in_cache s !! p), after_get env p s).
Proof. by destruct (fc_get_spec env p s) as (? & -> & -> & _). Qed.

Definition read_calm (env : FileEnv) (p : Path) (s : FileCache) : Prop :=
  in_cache s !! p = None → open_calm env p (after_get env p s).

Lemma fc_read_spec env p pos s :
  coherent s →
  ∃ r s', fc_read env p pos s = (r, s') ∧ r ≠ Panic ∧ coherent s' ∧ contents s' = contents s ∧
    (∀ h, r = Ok h → guards p None pos h s') ∧ (read_calm env p s → tracked s → tracked s').
Proof.
  intros C. unfold fc_read. rewrite (st_bind_ok _ _ _ _ _ (st_get_ok env p s)). unfold read_calm.
  destruct (after_get_spec env p s C) as (C1 & Ei & Ht). set (s1 := after_get env p s) in *.
  assert (∀ mode h s2, guards p mode pos h s2 → guards p None pos h s2) as Hg.
  { intros mode h s2 (Hh & f & Hf & Hpath & Hn & _ & Hpos). split; [done|]. exists f. by split_and!. }
  destruct (in_cache s !! p) as [h|] eqn:Ep.
  - rewrite (st_bind_ok _ _ _ h s1) by done. destruct (co_current _ C1 p h) as (f & Hf & Hpath & Hn); [by rewrite Ei|].
    destruct (take_guard_spec p pos h f s1 C1 Hf Hpath Hn) as (r & s' & E & Hr & C' & Hc & Ei' & Hok & T').
    exists r, s'. split_and!; [done|done|done|done| |].
    + intros h' Hh'. destruct (Hok h' Hh') as [-> ?]. by eapply Hg.
    + intros _ T. apply T'; [by rewrite Ei|by apply Ht].
  - destruct (opened_spec env AccessRead false p s1 C1) as (r1 & s2 & E & Hr & C2 & Herr & Hok & Hcalm).
    assert ((∀ h0, in_cache s1 !! p = Some h0 → ¬ dirty s1 h0 ∧ h0 ∉ fc_held s1)) as Hold by (rewrite Ei, Ep; done).
    destruct r1 as [h|e|]; [|..|done].
    + destruct (Hok h eq_refl) as (_ & Hc2 & f & Hf & Hpath & Hn & _). specialize (Hc2 eq_refl).
      rewrite (st_bind_ok _ _ _ _ _ E). destruct (take_guard_spec p pos h f s2 C2 Hf Hpath Hn) as (r & s' & E' & Hr' & C' & Hc & Ei' & Hok' & T').
      exists r, s'. split_and!; [done|done|done|by rewrite Hc, Hc2| |].
      * intros h' Hh'. destruct (Hok' h' Hh') as [-> ?]. by eapply Hg.
      * intros Hcl T. destruct (Hcalm (Hcl eq_refl) (Ht T) Hold) as [T2 Hin]. apply T'; [by apply Hin|done].
    + rewrite (st_bind_err _ _ _ _ _ E). exists (Err e), s2. split_and!; [done|done|done|by eapply Herr|done|].
      intros Hcl T. by destruct (Hcalm (Hcl eq_refl) (Ht T) Hold).
Qed.

Definition write_calm (env : FileEnv) (p : Path) (s : FileCache) : Prop :=
  (∀ h f, in_cache s !! p = Some h → fc_files s !! h = Some f → f_mode f ≠ AccessReadWrite) → open_calm env p (after_get env p s).

Lemma write_or_create_spec env p pos s :
  coherent s →
  ∃ r s', write_or_create env p pos s = (r, s') ∧ r ≠ Panic ∧ coherent s' ∧
    (contents s' = contents s ∨ contents s' = created p (contents s)) ∧
    (∀ h, r = Ok h → contents s' = created p (contents s) ∧ guards p (Some AccessReadWrite) pos h s') ∧
    (write_calm env p s → tracked s → tracked s').
Proof.
  intros C. unfold write_or_create. rewrite (st_bind_ok _ _ _ _ _ (st_get_ok env p s)). unfold write_calm.
  destruct (after_get_spec env p s C) as (C1 & Ei & Ht). set (s1 := after_get env p s) in *.
  (* the end, after an opening *)
  assert (∀ create (calm : Prop), (calm → open_calm env p s1) →
    (∀ h0, in_cache s1 !! p = Some h0 → ¬ dirty s1 h0 ∧ (h0 ∉ fc_held s1)) →
    ∃ r s', (opened env p (open_write_file env p create) ≫= take_guard pos) s1 = (r, s') ∧ r ≠ Panic ∧ coherent s' ∧
      (contents s' = contents s ∨ contents s' = created p (contents s)) ∧
      (∀ h, r = Ok h → contents s' = created p (contents s) ∧ guards p (Some AccessReadWrite) pos h s') ∧
      (calm → tracked s → tracked s')) as Hopen.
  { intros create calm Hcl Hold. destruct (opened_spec env AccessReadWrite create p s1 C1) as (r1 & s2 & E & Hr & C2 & Herr & Hok & Hcalm).
    destruct r1 as [h|e|]; [|..|done].
    - destruct (Hok h eq_refl) as (Hc2 & _ & f & Hf & Hpath & Hn & Hm).
      rewrite (st_bind_ok _ _ _ _ _ E). destruct (take_guard_spec p pos h f s2 C2 Hf Hpath Hn) as (r & s' & E' & Hr' & C' & Hc & Ei' & Hok' & T').
      exists r, s'. split_and!; [done|done|done|right; by rewrite Hc, Hc2| |].
      + intros h' Hh'. destruct (Hok' h' Hh') as [-> ?]. rewrite Hm in *. split; [by rewrite Hc, Hc2|done].
      + intros Hca T. destruct (Hcalm (Hcl Hca) (Ht T) Hold) as [T2 Hin]. apply T'; [by apply Hin|done].
    - rewrite (st_bind_err _ _ _ _ _ E). exists (Err e), s2. split_and!; [done|done|done|left; by eapply Herr|done|].
      intros Hca T. by destruct (Hcalm (Hcl Hca) (Ht T) Hold). }
  destruct (in_cache s !! p) as [h|] eqn:Ep; [|by apply Hopen; [intros Hca; by apply Hca|rewrite Ei, Ep]].
  destruct (co_current _ C1 p h) as (f & Hf & Hpath & Hn); [by rewrite Ei|].
  destruct (lock_file_spec h s1) as [[Hh [e El]]|[Hh El]].
  { unfold mbind, ST_bind. rewrite El. exists (Err e), s1. split_and!; try done; by left. }
  destruct (decide (f_mode f = AccessReadWrite)) as [Hm|Hm].
  - rewrite (st_bind_ok _ _ _ h s1). 2: { unfold the_file. unfold mbind, ST_bind. rewrite El, Hf. simpl. by rewrite decide_True. }
    destruct (take_guard_spec p pos h f s1 C1 Hf Hpath Hn) as (r & s' & E & Hr & C' & Hc & Ei' & Hok & T').
    assert (created p (contents s) = contents s) as Ecr.
    { unfold created. rewrite contents_lookup. change (names s) with (names s1). by rewrite Hn. }
    exists r, s'. split_and!; [done|done|done|left; by rewrite Hc| |].
    + intros h' Hh'. destruct (Hok h' Hh') as [-> ?]. rewrite Hm in *. split; [by rewrite Hc, Ecr|done].
    + intros _ T. apply T'; [by rewrite Ei|by apply Ht].
  - destruct (Hopen false ((∀ h' f', Some h = Some h' → fc_files s !! h' = Some f' → f_mode f' ≠ AccessReadWrite) → open_calm env p s1)) as (r & s' & E & Hrest).
    { intros Hca. apply Hca. intros h' f' [= <-] Hf'. change (fc_files s1) with (fc_files s) in Hf. congruence. }
    { intros h0. rewrite Ei, Ep. intros [= <-]. split; [|done]. intros (f0 & Hf0 & Hm0 & _). congruence. }
    exists r, s'. split; [|done]. rewrite <- E. unfold the_file. unfold mbind, ST_bind. rewrite El, Hf. simpl. by rewrite decide_False.
Qed.

(** ** The calls that change names *)

(** New names for the inodes: the names in the cache stay, an inode has one name. *)
Definition renames (s : FileCache) (nm : gmap Path nat) : Prop :=
  (∀ p, is_Some (in_cache s !! p) → nm !! p = names s !! p) ∧
  (∀ p i, nm !! p = Some i → ∃ q, names s !! q = Some i ∧ (in_cache s !! q = None ∨ q = p)) ∧
  (∀ p q i, nm !! p = Some i → nm !! q = Some i → p = q).

Definition with_names (ds : gset Path) (nm : gmap Path nat) (s : FileCache) : FileCache :=
  with_disk (mkDisk ds nm (dk_inodes (fc_disk s))) s.

Lemma with_names_coherent ds nm s : coherent s → renames s nm → coherent (with_names ds nm s).
Proof.
  intros [C1 C2 C3 C4 C5 C6] (R1 & R2 & R3). split; try done.
  - intros p h Hp. destruct (C2 p h Hp) as (f & Hf & Hpath & Hn). exists f. split_and!; [done..|].
    change (nm !! p = Some (f_inode f)). rewrite R1; [done|by eexists].
  - intros p i Hp. destruct (R2 p i Hp) as (q & Hq & _). by apply (C3 q).
Qed.

Lemma with_names_tracked ds nm s : tracked s → renames s nm → tracked (with_names ds nm s).
Proof.
  intros [T1 T2] (R1 & R2 & R3). split; [done|]. intros p i Hp. destruct (R2 p i Hp) as (q & Hq & Hor).
  destruct (T2 q i Hq) as [Hd|(h & Hc & Hd)]; [by left|]. destruct Hor as [?| ->]; [congruence|]. right. by exists h.
Qed.

Lemma delete_renames s p : coherent s → in_cache s !! p = None → renames s (delete p (names s)).
Proof.
  intros C Hp. split_and!.
  - intros q [h Hq]. apply lookup_delete_ne. congruence.
  - intros q i [_ Hq]%lookup_delete_Some. exists q. eauto.
  - intros q q' i [_ Hq]%lookup_delete_Some [_ Hq']%lookup_delete_Some. by eapply (co_once _ C).
Qed.

Lemma filter_renames s p :
  coherent s → (∀ q, p `prefix_of` q → in_cache s !! q = None) → renames s (filter (λ qi, ¬ p `prefix_of` qi.1) (names s)).
Proof.
  intros C Hp. split_and!.
  - intros q [h Hq]. destruct (names s !! q) as [i|] eqn:En; [|apply map_lookup_filter_None; by left].
    apply map_lookup_filter_Some. split; [done|]. simpl. intros Hpre. rewrite Hp in Hq; done.
  - intros q i [Hq _]%map_lookup_filter_Some. exists q. eauto.
  - intros q q' i [Hq _]%map_lookup_filter_Some [Hq' _]%map_lookup_filter_Some. by eapply (co_once _ C).
Qed.

Lemma move_file_renames s old new i :
  coherent s → names s !! old = Some i → in_cache s !! old = None → in_cache s !! new = None →
  renames s (<[new := i]> (delete old (names s))).
Proof.
  intros C Ho Hold Hnew. split_and!.
  - intros q [h Hq]. rewrite lookup_insert_ne, lookup_delete_ne by congruence. done.
  - intros q j [[<- <-]|[_ [_ Hq]%lookup_delete_Some]]%lookup_insert_Some; [by eauto|exists q; eauto].
  - intros q q' j [[<- <-]|[Hn [Hne Hq]%lookup_delete_Some]]%lookup_insert_Some
      [[<- Hj]|[Hn' [Hne' Hq']%lookup_delete_Some]]%lookup_insert_Some.
    + done.
    + destruct Hne'. by apply (co_once _ C old q' i).
    + subst. destruct Hne. by apply (co_once _ C old q j).
    + by eapply (co_once _ C).
Qed.

(** The names of a directory that is moved. *)
Definition moved (old new : Path) (nm : gmap Path nat) : gmap Path nat :=
  list_to_map (prod_map (move old new) id <$> map_to_list nm).

Lemma move_inj (old new : Path) (nm : gmap Path nat) (p q : Path) :
  (∀ r, new `prefix_of` r → nm !! r = None) → is_Some (nm !! p) → is_Some (nm !! q) → move old new p = move old new q → p = q.
Proof.
  intros Hnone [i Hp] [j Hq]. unfold move.
  destruct (decide (old `prefix_of` p)) as [Ho|Ho], (decide (old `prefix_of` q)) as [Ho'|Ho'].
  - destruct Ho as [x ->]. destruct Ho' as [y ->]. rewrite !drop_app_length. by intros ->%app_inv_head.
  - intros E. rewrite Hnone in Hq; [done|]. rewrite <- E. by apply prefix_app_r.
  - intros E. rewrite Hnone in Hp; [done|]. rewrite E. by apply prefix_app_r.
  - done.
Qed.

Lemma moved_lookup (old new : Path) (nm : gmap Path nat) (p : Path) i :
  (∀ r, new `prefix_of` r → nm !! r = None) → moved old new nm !! p = Some i ↔ ∃ q, nm !! q = Some i ∧ move old new q = p.
Proof.
  intros Hnone. unfold moved. rewrite <- elem_of_list_to_map.
  - rewrite list_elem_of_fmap. split.
    + intros ([q j] & [= -> ->] & Hq%elem_of_map_to_list). by exists q.
    + intros (q & Hq & <-). exists (q, i). split; [done|]. by apply elem_of_map_to_list.
  - rewrite <- list_fmap_compose. change (fst ∘ prod_map (move old new) id) with (λ ph : Path * nat, move old new ph.1).
    apply NoDup_fmap_2_strong; [|apply NoDup_map_to_list].
    intros [p1 i1] [p2 i2] H1%elem_of_map_to_list H2%elem_of_map_to_list E. simpl in E.
    assert (p1 = p2) as -> by (by eapply move_inj; [..|exact E]; [done|by eexists..]). congruence.
Qed.

Lemma moved_renames s old new :
  coherent s → (∀ r, new `prefix_of` r → names s !! r = None) → (∀ q, old `prefix_of` q → in_cache s !! q = None) →
  renames s (moved old new (names s)).
Proof.
  intros C Hnone Hold. split_and!.
  - intros q [h Hq]. destruct (co_current _ C q h Hq) as (f & _ & _ & Hn). rewrite Hn. apply moved_lookup; [done|].
    exists q. split; [done|]. apply move_other. intros Hpre. rewrite Hold in Hq; done.
  - intros p i (q & Hq & <-)%moved_lookup; [|done]. exists q. split; [done|]. unfold move. case_decide; [left; by apply Hold|by right].
  - intros p q i (p' & Hp & <-)%moved_lookup (q' & Hq & <-)%moved_lookup; [|done..]. f_equal. by eapply (co_once _ C).
Qed.

(** A step of the cache, with what it needs to keep the two invariants. *)
Definition keeps (sane calm : Prop) (s s' : FileCache) : Prop :=
  (sane → coherent s') ∧ (sane → calm → tracked s → tracked s').

Lemma keeps_quiet s s' : coherent s → quiet s s' → fc_cache s' = fc_cache s → keeps True True s s'.
Proof.
  intros C Q Ec. assert (in_cache s' = in_cache s) as Ei by (unfold in_cache; by rewrite Ec). split; intros _.
  - eapply coherent_quiet; [done..| |]; by rewrite ?Ei, ?Ec.
  - intros _ T. apply (tracked_quiet s s'); [done..|by rewrite Ei|]. intros q h' f' Hq. rewrite Ei. congruence.
Qed.

Lemma keeps_same (sane calm : Prop) s : coherent s → keeps sane calm s s.
Proof. by split. Qed.

(** [FileCache::remove]. *)
Lemma fc_remove_file_keeps env p s : coherent s → keeps True (fe_backend env = true) s (fc_remove_file env p s).2.
Proof.
  intros C. unfold fc_remove_file, unless_read_only. rewrite (st_bind_ok _ _ _ s s) by done.
  destruct (fc_read_only s); [by apply keeps_same|]. rewrite (st_bind_ok _ _ _ _ _ (st_get_ok env p s)).
  destruct (after_get_spec env p s C) as (C1 & Ei & Ht). set (s1 := after_get env p s) in *.
  (* the backend, when the name is not in the cache *)
  assert (∀ s2, coherent s2 → in_cache s2 !! p = None → coherent (backend_call env (os_remove_file p) s2).2 ∧
    (tracked s2 → tracked (backend_call env (os_remove_file p) s2).2)) as Hb.
  { intros s2 C2 Hp. unfold backend_call, os_remove_file. simpl_st. destruct (fe_backend env); simpl; [|done].
    destruct (dk_names (fc_disk s2) !! p); simpl; [|done].
    pose proof (delete_renames s2 p C2 Hp) as R. split; [by apply (with_names_coherent _ _ s2)|intros T; by apply (with_names_tracked _ _ s2)]. }
  destruct (in_cache s !! p) as [h|] eqn:Ep.
  2: { destruct (Hb s1 C1) as [? ?]; [by rewrite Ei|]. split; [done|]. intros _ _ T. by auto. }
  destruct (lock_file_spec h s1) as [[Hh [e El]]|[Hh El]].
  { rewrite (st_bind_err _ _ _ _ _ El). split; [done|]. intros _ _ T. by apply Ht. }
  rewrite (st_bind_ok _ _ _ _ _ El). destruct (fc_remove_spec p s1) as (s2 & E2 & Q2 & Ef2 & Ed2 & Ec2 & Es2).
  rewrite (st_bind_ok _ _ _ _ _ E2).
  assert (coherent s2) as C2 by (eapply coherent_quiet; [done|done|done|rewrite Ec2; apply delete_subseteq]).
  assert (in_cache s2 !! p = None) as Hnone by (rewrite Ec2; apply lookup_delete_eq).
  split; [intros _; by apply Hb|]. intros _ Hbk T. destruct (Ht T) as [T1 T2].
  destruct (co_current _ C1 p h) as (f & Hf & Hpath & Hn); [by rewrite Ei|].
  assert (dk_names (fc_disk s2) !! p = Some (f_inode f)) as Hn2 by (by rewrite Ed2).
  assert ((backend_call env (os_remove_file p) s2).2 = with_names (dk_dirs (fc_disk s2)) (delete p (names s2)) s2) as ->
    by (unfold backend_call, os_remove_file; simpl_st; by rewrite Hbk, Hn2). split.
  - simpl. rewrite (qu_held _ _ Q2). intros h' Hh'. destruct (T1 h' Hh') as (q & Hq). exists q.
    change (in_cache s2 !! q = Some h'). rewrite Ec2, lookup_delete_ne; [done|]. intros <-. rewrite Ei, Ep in Hq. congruence.
  - intros q i. unfold names. simpl. rewrite Ed2. intros [Hne Hq]%lookup_delete_Some. destruct (T2 q i Hq) as [Hd|(h' & Hq' & Hd)].
    + left. intros n. simpl. rewrite Ed2. apply Hd.
    + right. exists h'. split; [change (in_cache s2 !! q = Some h'); by rewrite Ec2, lookup_delete_ne|].
      destruct Hd as (f' & Hf' & Hrest). exists f'. split; [|done]. simpl. by rewrite Ef2.
Qed.

Definition discard_calm (env : FileEnv) (p : Path) (s : FileCache) : Prop := nobody_holds p s ∧ ∀ q, fe_fsync env q = true.

Lemma discard_keeps env p s : coherent s → keeps True (discard_calm env p s) s (discard_recursive env p s).2.
Proof.
  intros C. destruct (discard_recursive_spec env p s C) as (r & s' & -> & _ & _ & C' & _ & _ & _ & Hcalm).
  split; [done|]. intros _ [Hn Hf] T. destruct (Hcalm Hn) as [_ Hc]. by apply Hc.
Qed.

(** [FileCache::remove_dir] and [rename]: first the files below the path leave the cache. *)
Lemma after_discard env p (m : ST FileCache ()) s (sane : Prop) :
  coherent s →
  (∀ s1, coherent s1 → in_cache s1 ⊆ in_cache s → names s1 = names s → (∀ q, p `prefix_of` q → in_cache s1 !! q = None) → sane →
     coherent (m s1).2 ∧ (tracked s1 → tracked (m s1).2)) →
  keeps sane (discard_calm env p s) s ((discard_recursive env p ≫= λ _, m) s).2.
Proof.
  intros C Hm. destruct (discard_recursive_spec env p s C) as (r & s' & E & Hr & Q & C' & Hsub & Hout & _ & Hcalm).
  destruct r as [[]|e|]; [|..|done].
  - rewrite (st_bind_ok _ _ _ _ _ E). split.
    + intros Hs. apply Hm; [done|done|apply Q|by apply Hout|done].
    + intros Hs [Hn Hf] T. destruct (Hcalm Hn) as [_ Hc]. apply Hm; [done|done|apply Q|by apply Hout|done|by apply Hc].
  - rewrite (st_bind_err _ _ _ _ _ E). split; [done|]. intros _ [Hn _] _. by destruct (Hcalm Hn) as [? _].
Qed.

Lemma fc_remove_dir_keeps env p s : coherent s → keeps True (discard_calm env p s) s (fc_remove_dir env p s).2.
Proof.
  intros C. unfold fc_remove_dir, unless_read_only. rewrite (st_bind_ok _ _ _ s s) by done.
  destruct (fc_read_only s); [by apply keeps_same|]. apply after_discard; [done|]. intros s1 C1 _ _ Hout _.
  rewrite (st_bind_ok _ _ _ s1 s1) by done. case_match; [|done].
  unfold backend_call, os_remove_dir_all. simpl_st. destruct (fe_backend env); simpl; [|done]. case_decide; simpl; [|done].
  pose proof (filter_renames s1 p C1 Hout) as R. split; [by apply (with_names_coherent _ _ s1)|intros T; by apply (with_names_tracked _ _ s1)].
Qed.

(** Nothing is cached under the new name. *)
Definition rename_sane (new : Path) (s : FileCache) : Prop := ∀ q, new `prefix_of` q → in_cache s !! q = None.

Lemma os_rename_names old new d d' :
  os_rename old new d = Ok d' →
  (∃ i, dk_names d !! old = Some i ∧ d' = mkDisk (dk_dirs d) (<[new := i]> (delete old (dk_names d))) (dk_inodes d)) ∨
  (∃ ds, (∀ r, new `prefix_of` r → dk_names d !! r = None) ∧ d' = mkDisk ds (moved old new (dk_names d)) (dk_inodes d)).
Proof.
  unfold os_rename. destruct (dk_names d !! old) as [i|] eqn:Eo.
  - destruct (_ || _); [done|]. intros [= <-]. left. eauto.
  - unfold rename. simpl_st. repeat case_decide; try done. intros [= <-]. right. eexists. split; [|done].
    intros r Hr. destruct (dk_names d !! r) as [i|] eqn:Er; [|done].
    assert (under new (dk_dirs d) ∖ {[new]} ∪ under new (dom (dk_names d)) = ∅) as Hemp by done. destruct (not_elem_of_empty (C := gset Path) r). rewrite <- Hemp.
    apply elem_of_union. right. apply elem_of_filter. split; [done|]. by eapply elem_of_dom_2.
Qed.

Lemma fc_rename_keeps env old new s :
  coherent s → keeps (rename_sane new s) (discard_calm env old s) s (fc_rename env old new s).2.
Proof.
  intros C. unfold fc_rename, unless_read_only. rewrite (st_bind_ok _ _ _ s s) by done.
  destruct (fc_read_only s); [by apply keeps_same|]. apply after_discard; [done|]. intros s1 C1 Hsub Hnm Hout Hnew.
  destruct (fc_remove_spec old s1) as (s2 & E2 & Q2 & Ef2 & Ed2 & Ec2 & Es2). rewrite (st_bind_ok _ _ _ _ _ E2).
  rewrite delete_id in Ec2 by (by apply Hout).
  assert (coherent s2) as C2 by (by eapply coherent_quiet; [..|rewrite Ec2]).
  assert (tracked s1 → tracked s2) as Ht.
  { intros T. apply (tracked_quiet s1 s2); [done..|by rewrite Ec2|]. intros q h' f' Hq. rewrite Ec2. congruence. }
  unfold backend_call. simpl_st. destruct (fe_backend env); simpl; [|done].
  destruct (os_rename old new (fc_disk s2)) as [d'|e|] eqn:Eo; simpl; [|done..].
  assert (∀ q, new `prefix_of` q → in_cache s2 !! q = None) as Hnew2.
  { intros q Hq. rewrite Ec2. destruct (in_cache s1 !! q) eqn:E; [|done]. eapply lookup_weaken in E; [|exact Hsub]. by rewrite Hnew in E. }
  assert (∀ q, old `prefix_of` q → in_cache s2 !! q = None) as Hold2 by (intros q Hq; rewrite Ec2; by apply Hout).
  destruct (os_rename_names _ _ _ _ Eo) as [(i & Hi & ->)|(ds & Hnone & ->)].
  - pose proof (move_file_renames s2 old new i C2 Hi (Hold2 _ (reflexivity _)) (Hnew2 _ (reflexivity _))) as R.
    split; [by apply (with_names_coherent _ _ s2)|intros T; by apply (with_names_tracked _ _ s2); [apply Ht|]].
  - pose proof (moved_renames s2 old new C2 Hnone Hold2) as R.
    split; [by apply (with_names_coherent _ _ s2)|intros T; by apply (with_names_tracked _ _ s2); [apply Ht|]].
Qed.

Lemma fc_create_dir_all_keeps env p s : coherent s → keeps True True s (fc_create_dir_all env p s).2.
Proof.
  intros C. unfold fc_create_dir_all, unless_read_only, backend_call, os_create_dir_all, create_dir_all. simpl_st.
  destruct (fc_read_only s); [by apply keeps_same|]. destruct (fe_backend env); simpl; [|by apply keeps_same].
  case_decide; simpl; [by apply keeps_same|]. apply keeps_quiet; [done|apply quiet_dirs|done].
Qed.

(** ** Syncing *)

Lemma cached_list s ph :
  ph ∈ (λ '(p, e), (p, ev_value e)) <$> hash_iter (store (fc_cache s)) ↔ in_cache s !! ph.1 = Some ph.2.
Proof.
  destruct ph as [p h]. rewrite in_cache_lookup, list_elem_of_fmap, fmap_Some. simpl. split.
  - intros ([q e] & [= -> ->] & Hq%elem_of_hash_iter). by exists e.
  - intros (e & He & ->). exists (p, e). split; [done|]. by apply elem_of_hash_iter.
Qed.

(** What is to be synced: the open files of the list that are overdue and not in use. *)
Lemma files_to_sync_spec env force interval l s :
  Forall (λ ph, is_Some (fc_files s !! ph.2)) l →
  (∃ e, files_to_sync env force interval l s = (Err e, s) ∧ force = true ∧ Exists (λ ph, ph.2 ∈ fc_held s) l) ∨
  (∃ k, files_to_sync env force interval l s = (Ok k, s) ∧ (force = true → Forall (λ ph, ph.2 ∉ fc_held s) l) ∧
     k.*1 `sublist_of` l.*2 ∧
     ∀ h t, (h, t) ∈ k ↔ h ∈ l.*2 ∧ (h ∉ fc_held s) ∧ ∃ f, fc_files s !! h = Some f ∧ overdue env force interval f = true ∧ t = f_last_synced f).
Proof.
  induction l as [|[p h] l IH]; intros Hl.
  { right. exists []. split_and!; [done|done|done|]. intros h t. set_solver. }
  apply Forall_cons in Hl as [[f Hf] Hl]. simpl in Hf. cbn [files_to_sync]. rewrite (st_bind_ok _ _ _ s s) by done. cbn [snd].
  destruct (decide (h ∈ fc_held s)) as [Hh|Hh].
  { destruct force; [left; eexists; split_and!; [done|done|by left]|].
    destruct (IH Hl) as [(e & _ & ? & _)|(k & E & Hfo & Hsl & Hk)]; [done|]. right. exists k. rewrite E. split_and!; [done|done|by constructor|].
    intros h' t. rewrite Hk, fmap_cons, elem_of_cons. simpl. set_solver. }
  rewrite (st_bind_ok _ _ _ f s) by (unfold the_file; by rewrite Hf).
  destruct (IH Hl) as [(e & E & -> & Hex)|(k & E & Hfo & Hsl & Hk)].
  { left. exists e. rewrite (st_bind_err _ _ _ _ _ E). split_and!; [done|done|by right]. }
  right. rewrite (st_bind_ok _ _ _ _ _ E). eexists. split_and!; [done| | |].
  - intros ->. constructor; [done|]. by apply Hfo.
  - destruct (overdue env force interval f); simpl; by constructor.
  - intros h' t. destruct (overdue env force interval f) eqn:Eo; rewrite ?elem_of_cons, Hk, fmap_cons, elem_of_cons; simpl; split.
    + intros [[= -> ->]|(? & ? & ?)]; [|by eauto]. split_and!; [by left|done|by exists f].
    + intros ([->|Hin] & Hnh & f' & Hf' & Ho & ->); [left; congruence|right]. eauto 10.
    + intros (? & ? & ?). eauto.
    + intros ([->|Hin] & Hnh & f' & Hf' & Ho & ->); [congruence|]. eauto 10.
Qed.

Lemma sync_loop env force hs s :
  Forall (λ h, is_Some (fc_files s !! h)) hs → Forall (λ h, h ∉ fc_held s) hs →
  ∃ s', st_for (sync_one env force) hs s = (Ok tt, s') ∧ quiet s s' ∧ fc_cache s' = fc_cache s ∧
    (∀ h, h ∉ hs → fc_files s' !! h = fc_files s !! h) ∧
    (∀ i, (∀ h f, h ∈ hs → fc_files s !! h = Some f → f_inode f ≠ i) → dk_inodes (fc_disk s') !! i = dk_inodes (fc_disk s) !! i) ∧
    ((∀ q, fe_fsync env q = true) → ∀ h f, h ∈ hs → fc_files s !! h = Some f → ¬ dirty s' h ∧ (dirty s h → durable s' (f_inode f))).
Proof.
  revert s. induction hs as [|h hs IH]; intros s Hs Hh.
  { exists s. split_and!; [done..|]. intros _ h f Hin. by apply not_elem_of_nil in Hin. }
  apply Forall_cons in Hs as [[f Hf] Hs]. apply Forall_cons in Hh as [Hh Hhs].
  destruct (logged_sync env h f s Hf) as (s1 & E1 & Q1 & Ec1 & Ho1 & Hi1 & Hd1).
  destruct (IH s1) as (s' & E' & Q' & Ec' & Ho' & Hi' & Hd').
  { eapply Forall_impl; [exact Hs|]. intros h' [f' Hf']. destruct (qu_file _ _ Q1 h' f' Hf') as (f2 & Hf2 & _). by exists f2. }
  { by rewrite (qu_held _ _ Q1). }
  exists s'. rewrite (st_for_cons _ _ _ _ s1). 2: { unfold sync_one. rewrite (st_bind_ok _ _ _ s s) by done. by rewrite decide_False. }
  split_and!; [done|by etrans|congruence| | |].
  - intros h' Hin. rewrite Ho' by set_solver. apply Ho1. set_solver.
  - intros i Hni. rewrite Hi', Hi1; [done|symmetry; apply (Hni h f); [set_solver|done]|]. intros h' f' Hin Hf'.
    destruct (quiet_file_back _ _ _ _ Q1 Hf') as (f0 & Hf0 & (_ & -> & _)). apply (Hni h' f0); [set_solver|done].
  - intros Hok h' f' Hin Hf'. destruct (qu_file _ _ Q1 h' f' Hf') as (f2 & Hf2 & (_ & P2 & _) & _).
    destruct (decide (h' ∈ hs)) as [Hin'|Hnin].
    + destruct (Hd' Hok h' f2 Hin' Hf2) as [Hnd Hdur]. split; [done|]. intros Hdirty. rewrite <- P2.
      destruct (quiet_dirty _ _ _ _ Q1 Hf' Hdirty) as [Hdirty1|?]; [by apply Hdur|]. rewrite P2. by apply (qu_durable _ _ Q').
    + assert (h' = h) as -> by set_solver. assert (f' = f) as -> by congruence. destruct (Hd1 (Hok _)) as [Hnd Hdur]. split.
      * intros (f3 & Hf3 & Hrest). apply Hnd. exists f3. split; [|done]. by rewrite <- Ho'.
      * intros (f3 & Hf3 & _ & Hsy & Hg). assert (f3 = f) as -> by congruence. apply (qu_durable _ _ Q'). by apply Hdur.
Qed.

(** A turn of the worker, or a forced sync: what is synced, and when it fails. *)
Lemma sync_spec env force s :
  coherent s →
  ∃ r s', sync_rw_and_unused_files env force s = (r, s') ∧ r ≠ Panic ∧ quiet s s' ∧ fc_cache s' = fc_cache s.
Proof.
  intros C. unfold sync_rw_and_unused_files, unless_read_only. rewrite (st_bind_ok _ _ _ s s) by done.
  destruct (fc_read_only s); [by exists (Ok tt), s|]. rewrite (st_bind_ok _ _ _ s s) by done. cbv zeta.
  set (l := (λ '(p, e), (p, ev_value e)) <$> hash_iter (store (fc_cache s))). set (interval := if force then _ else _).
  destruct (files_to_sync_spec env force interval l s) as [(e & E & _)|(k & E & _ & Hsl & Hk)].
  { apply Forall_forall. intros ph Hph%cached_list. destruct (co_current _ C _ _ Hph) as (f & Hf & _). by exists f. }
  { rewrite (st_bind_err _ _ _ _ _ E). by exists (Err e), s. }
  rewrite (st_bind_ok _ _ _ _ _ E). set (k' := if force then k else _).
  assert (∀ ht, ht ∈ k' → ht ∈ k) as Hk'.
  { intros ht. unfold k'. destruct force; [done|]. intros (i & Hi & _)%elem_of_take.
    apply list_elem_of_lookup_2 in Hi. by rewrite merge_sort_Permutation in Hi. }
  destruct (sync_loop env force k'.*1 s) as (s' & E' & Q' & Ec' & _).
  - apply Forall_fmap, Forall_forall. intros [h t] (_ & _ & f & Hf & _)%Hk'%Hk. by exists f.
  - apply Forall_fmap, Forall_forall. intros [h t] (_ & Hnh & _)%Hk'%Hk. done.
  - exists (Ok tt), s'. by split_and!.
Qed.
End Run.
