(* ===== verification/FileCacheDurability.v ===== *)
(** * FileCacheDurability: every run of the file cache keeps its promises
    (core/file_cache.rs, backend/file.rs)

    Runs as sequences of calls and of reads and writes through guards; all of them see one
    content per name, and a forced sync, or enough turns of the worker, put everything on the
    disk; and the one case in which a file leaves the cache without being synced. *)

From stdpp Require Import prelude gmap strings sorting.
From Stdlib Require Import ZArith Lia.
From S2P Require Import Prelude Bytes Collections Cache Folders FileCache FileCacheLife FileCacheRun.
Open Scope Z_scope.

(** ** Runs *)

(** A call, or an action of a holder of a guard. *)
Inductive FcOp : Type :=
| OpRead (p : Path) (pos : SeekFrom)
| OpWriteOrCreate (p : Path) (pos : SeekFrom)
| OpGuardRead (n : nat) (h : nat)
| OpGuardWrite (buf : list Z) (h : nat)
| OpGuardSetLen (n : nat) (h : nat)
| OpGuardSeek (pos : SeekFrom) (h : nat)
| OpGuardFlush (h : nat)
| OpGuardSync (h : nat)
| OpRelease (h : nat)
| OpRemove (p : Path)
| OpDiscard (p : Path)
| OpRemoveDir (p : Path)
| OpRename (old new : Path)
| OpCreateDir (p : Path)
| OpForceSync
| OpWorkerTurn
| OpSyncInterval (interval : Z)
| OpReadOnly (read_only : bool).

Section Runs.
Context `{HashIterLaws}.

Definition by_holder (h : nat) (s s' : FileCache) : FileCache := if decide (h ∈ fc_held s) then s' else s.

Definition fc_step (s : FileCache) (eo : FileEnv * FcOp) : FileCache :=
  let env := eo.1 in
  match eo.2 with
  | OpRead p pos => (fc_read env p pos s).2
  | OpWriteOrCreate p pos => (write_or_create env p pos s).2
  | OpGuardRead n h => by_holder h s (file_read n h s).2
  | OpGuardWrite buf h => by_holder h s (file_write buf h s).2
  | OpGuardSetLen n h => by_holder h s (file_set_len n h s).2
  | OpGuardSeek pos h => by_holder h s (file_seek pos h s).2
  | OpGuardFlush h => by_holder h s (flush_local env h s).2
  | OpGuardSync h => by_holder h s (sync_all env h s).2
  | OpRelease h => release h s
  | OpRemove p => (fc_remove_file env p s).2
  | OpDiscard p => (discard_recursive env p s).2
  | OpRemoveDir p => (fc_remove_dir env p s).2
  | OpRename old new => (fc_rename env old new s).2
  | OpCreateDir p => (fc_create_dir_all env p s).2
  | OpForceSync => (force_sync_all env s).2
  | OpWorkerTurn => (sync_worker_turn env s).2
  | OpSyncInterval interval => set_sync_interval interval s
  | OpReadOnly read_only => set_read_only read_only s
  end.

(** A directory is moved to a place of which no file is open. *)
Definition step_sane (s : FileCache) (eo : FileEnv * FcOp) : Prop :=
  match eo.2 with OpRename _ new => rename_sane new s | _ => True end.

(** [fsync] and the backend work, no file that is in use is discarded. *)
Definition step_calm (s : FileCache) (eo : FileEnv * FcOp) : Prop :=
  step_sane s eo ∧
  match eo.2 with
  | OpRead p _ => read_calm eo.1 p s
  | OpWriteOrCreate p _ => write_calm eo.1 p s
  | OpRemove _ => fe_backend eo.1 = true
  | OpDiscard p | OpRemoveDir p | OpRename p _ => discard_calm eo.1 p s
  | _ => True
  end.

Inductive fc_run (ok : FileCache → FileEnv * FcOp → Prop) (s : FileCache) : FileCache → Prop :=
| run_start : fc_run ok s s
| run_step s1 eo : fc_run ok s s1 → ok s1 eo → fc_run ok s (fc_step s1 eo).

(** A disk: an inode has one name, and is there; nothing waits to be written. *)
Record disk_ok (d : Disk) : Prop := {
  do_inode p i : dk_names d !! p = Some i → is_Some (dk_inodes d !! i);
  do_once p q i : dk_names d !! p = Some i → dk_names d !! q = Some i → p = q;
  do_durable i n : dk_inodes d !! i = Some n → in_bytes n = in_disk n
}.

Lemma new_ok size ttl interval d :
  0 ≤ size → disk_ok d → coherent (file_cache_new size ttl interval d) ∧ tracked (file_cache_new size ttl interval d).
Proof.
  intros Hsz [D1 D2 D3].
  assert (∀ p, in_cache (file_cache_new size ttl interval d) !! p = None) as Hn
    by (intros p; rewrite in_cache_lookup; simpl; by rewrite lookup_empty).
  split; split; [done| |exact D1|exact D2| |done| |].
  - intros p h Hp. by rewrite Hn in Hp.
  - intros h f. simpl. by rewrite lookup_empty.
  - done.
  - intros p i Hp. left. intros n. apply D3.
Qed.

(** *** The steps *)

Lemma keeps_weaken (P P' : Prop) s s' : keeps True P s s' → (P' → P) → keeps True P' s s'.
Proof. intros [K1 K2] HP. split; [done|]. auto. Qed.

Lemma by_holder_keeps h s s' :
  coherent s → (h ∈ fc_held s → is_Some (fc_files s !! h) → keeps True True s s') → keeps True True s (by_holder h s s').
Proof.
  intros C K. unfold by_holder. case_decide as Hh; [|by apply keeps_same].
  apply K; [done|]. apply elem_of_dom. by apply (co_held _ C).
Qed.

Lemma guard_write_keeps h f g f' s :
  coherent s → h ∈ fc_held s → fc_files s !! h = Some f → same_file f f' → 0 ≤ f_pos f' →
  f_mode f = AccessReadWrite → f_ignore_write f = false → f_is_synced f' = false → keeps True True s (rewritten h f' g s).
Proof.
  intros C Hh Hf Hs Hpos Hm Hg Hsy. split; intros _; [by eapply rewritten_coherent|]. intros _ T. by eapply rewritten_tracked.
Qed.

Lemma file_write_keeps buf h s : coherent s → keeps True True s (by_holder h s (file_write buf h s).2).
Proof.
  intros C. apply by_holder_keeps; [done|]. intros Hh [f Hf]. destruct (f_ignore_write f) eqn:Eg.
  { unfold file_write, the_file. simpl_st. rewrite Hf. simpl. rewrite Eg. by apply keeps_same. }
  destruct (f_mode f) eqn:Em.
  - unfold file_write, the_file, put_file. simpl_st. rewrite Hf. simpl. rewrite Eg, Em. simpl.
    by apply keeps_quiet; [|apply refused_write..].
  - rewrite (file_write_spec buf h f s Hf Em Eg). eapply guard_write_keeps; try done.
    simpl. destruct (co_files _ C h f Hf). lia.
Qed.

Lemma file_set_len_keeps n h s : coherent s → keeps True True s (by_holder h s (file_set_len n h s).2).
Proof.
  intros C. apply by_holder_keeps; [done|]. intros Hh [f Hf]. destruct (f_ignore_write f) eqn:Eg.
  { unfold file_set_len, the_file. simpl_st. rewrite Hf. simpl. rewrite Eg. by apply keeps_same. }
  destruct (f_mode f) eqn:Em.
  - unfold file_set_len, the_file, put_file. simpl_st. rewrite Hf. simpl. rewrite Eg, Em. simpl.
    by apply keeps_quiet; [|apply refused_write..].
  - rewrite (file_set_len_spec n h f s Hf Em Eg). eapply guard_write_keeps; try done. simpl. by destruct (co_files _ C h f Hf).
Qed.

Lemma guard_quiet_keeps env h n pos s :
  coherent s →
  keeps True True s (by_holder h s (file_read n h s).2) ∧ keeps True True s (by_holder h s (file_seek pos h s).2) ∧
  keeps True True s (by_holder h s (flush_local env h s).2) ∧ keeps True True s (by_holder h s (sync_all env h s).2).
Proof.
  intros C. split_and!; (apply by_holder_keeps; [done|]); intros Hh [f Hf].
  - rewrite (file_read_spec n h f s Hf). apply keeps_quiet; [done| |done]. apply (quiet_put s h f); [done|done| |done]. simpl. lia.
  - destruct (file_seek_spec pos h f s Hf) as [[e ->]|(p' & Hp' & -> & _)]; [by apply keeps_same|].
    apply keeps_quiet; [done|by apply (quiet_put s h f)|done].
  - destruct (flush_local_spec env h f s Hf) as (r & s' & -> & _ & Q & Ec). by apply keeps_quiet.
  - destruct (sync_all_spec env h f s Hf) as (r & s' & -> & _ & Q & Ec & _). by apply keeps_quiet.
Qed.

Lemma sync_keeps env force s : coherent s → keeps True True s (sync_rw_and_unused_files env force s).2.
Proof. intros C. destruct (sync_spec env force s C) as (r & s' & -> & _ & Q & Ec). by apply keeps_quiet. Qed.

Lemma release_keeps h s : coherent s → keeps True True s (release h s).
Proof.
  intros [C1 C2 C3 C4 C5 C6]. split; [split; try done; simpl; set_solver|]. intros _ _ [T1 T2]. split; [|done].
  intros h' [Hh' _]%elem_of_difference. by apply T1.
Qed.

Lemma step_keeps s eo : coherent s → keeps (step_sane s eo) (step_calm s eo) s (fc_step s eo).
Proof.
  intros C. destruct eo as [env op]. pose proof (guard_quiet_keeps env) as Hg. unfold step_sane, step_calm.
  destruct op as [p pos|p pos|n h|buf h|n h|pos h|h|h|h|p|p|p|old new|p| | |i|b]; unfold fc_step; cbn [fst snd].
  all: try (eapply keeps_weaken; [by apply file_write_keeps || by apply file_set_len_keeps || apply (Hg h n (SeekStart 0) s C) || apply (Hg h 0%nat pos s C)
         || apply (Hg h 0%nat (SeekStart 0) s C) || by apply sync_keeps
         || by apply release_keeps || by apply fc_create_dir_all_keeps|done]).
  - destruct (fc_read_spec env p pos s C) as (r & s' & -> & _ & C' & _ & _ & T'). split; [done|]. intros _ [_ Hc]. by apply T'.
  - destruct (write_or_create_spec env p pos s C) as (r & s' & -> & _ & C' & _ & _ & T'). split; [done|]. intros _ [_ Hc]. by apply T'.
  - eapply keeps_weaken; [by apply fc_remove_file_keeps|tauto].
  - eapply keeps_weaken; [by apply discard_keeps|tauto].
  - eapply keeps_weaken; [by apply fc_remove_dir_keeps|tauto].
  - destruct (fc_rename_keeps env old new s C) as [K1 K2]. split; [done|]. intros Hs [_ Hc]. by apply K2.
  - split; [by destruct C|]. intros _ _ []. by split.
  - split; [by destruct C|]. intros _ _ []. by split.
Qed.

Lemma run_coherent s s' : coherent s → fc_run step_sane s s' → coherent s'.
Proof. intros C. induction 1 as [|s1 eo _ IH Hs]; [done|]. by apply step_keeps. Qed.

Lemma run_tracked s s' : coherent s → tracked s → fc_run step_calm s s' → coherent s' ∧ tracked s'.
Proof.
  intros C T. induction 1 as [|s1 eo _ [C1 T1] Hc]; [done|]. destruct (step_keeps s1 eo C1) as [K1 K2].
  destruct (Hc) as [Hs _]. split; [by apply K1|by apply K2].
Qed.

(** ** One content per name *)

(** C12: all who use a name see one file.  After any calls, and any reads and writes by those
    who hold guards (openings, evictions, reopenings for writing, syncs, removals and
    renamings to places of which no file is open): a guard for reading the name [p] from the
    byte [n] on gives the bytes of the file [p] from there and changes no content; a guard for
    writing creates the file when it is missing, and what is written through it is then the
    content of [p] from the byte [n] on, all other files and all bytes on the disk as they
    were (unless the file was opened while the cache was read only: it ignores writes). *)
Theorem guard_sees_the_file size ttl interval d s :
  0 ≤ size → disk_ok d → fc_run step_sane (file_cache_new size ttl interval d) s →
  (∀ env p n h s1 k, fc_read env p (SeekStart n) s = (Ok h, s1) →
     contents s1 = contents s ∧
     ∃ bytes, contents s !! p = Some bytes ∧ (file_read k h s1).1 = Ok (take k (drop (Z.to_nat n) bytes))) ∧
  (∀ env p n h s1 buf, write_or_create env p (SeekStart n) s = (Ok h, s1) →
     contents s1 = created p (contents s) ∧
     ∃ bytes f, contents s1 !! p = Some bytes ∧ fc_files s1 !! h = Some f ∧
       (f_ignore_write f = false →
        (file_write buf h s1).1 = Ok (length buf) ∧
        contents (file_write buf h s1).2 = <[p := write_all_at (Z.to_nat n) buf bytes]> (contents s1) ∧
        on_disk (file_write buf h s1).2 = on_disk s1)).
Proof.
  intros Hsz Hd Hrun. apply run_coherent in Hrun as C; [|by apply new_ok]. split.
  - intros env p n h s1 k E. destruct (fc_read_spec env p (SeekStart n) s C) as (r & s' & E' & _ & C' & Hc & Hg & _).
    rewrite E in E'. simplify_eq. split; [done|]. destruct (Hg h eq_refl) as (_ & f & Hf & Hpath & Hn & _ & Hpos).
    exists (inode_bytes (f_inode f) (fc_disk s')). rewrite <- Hc, contents_lookup, Hn, (file_read_spec k h f s' Hf).
    by rewrite (Hpos n eq_refl).
  - intros env p n h s1 buf E. destruct (write_or_create_spec env p (SeekStart n) s C) as (r & s' & E' & _ & C' & _ & Hg & _).
    rewrite E in E'. simplify_eq. destruct (Hg h eq_refl) as (Hc & _ & f & Hf & Hpath & Hn & Hm & Hpos).
    split; [done|]. exists (inode_bytes (f_inode f) (fc_disk s')), f. rewrite contents_lookup, Hn. split_and!; [done..|].
    intros Hig. rewrite (file_write_spec buf h f s' Hf (Hm _ eq_refl) Hig). split_and!; [done| |apply rewritten_on_disk].
    cbn [snd]. rewrite (rewritten_contents h (with_pos _ (unsynced f)) _ s' p C' Hn), (Hpos n eq_refl). apply map_eq. intros q.
    destruct (decide (q = p)) as [->|Hne]; [|by rewrite lookup_alter_ne, lookup_insert_ne].
    by rewrite lookup_alter_eq, lookup_insert_eq, contents_lookup, Hn.
Qed.

(** ** Durability *)

Lemma durable_on_disk s : (∀ p i, names s !! p = Some i → durable s i) → on_disk s = contents s.
Proof.
  intros Hd. apply map_fmap_ext. intros p i Hi. unfold inode_bytes. destruct (dk_inodes (fc_disk s) !! i) as [n|] eqn:En; [|done].
  simpl. symmetry. by eapply Hd.
Qed.

(** A forced sync, when nobody holds a guard. *)
Lemma force_sync_spec env s :
  coherent s → fc_read_only s = false → fc_held s = ∅ → (∀ q, fe_fsync env q = true) →
  ∃ s', force_sync_all env s = (Ok tt, s') ∧ quiet s s' ∧ fc_cache s' = fc_cache s ∧
    (∀ p h f, in_cache s !! p = Some h → fc_files s !! h = Some f → dirty s h → durable s' (f_inode f)) ∧
    (∀ p i, names s !! p = Some i → in_cache s !! p = None → dk_inodes (fc_disk s') !! i = dk_inodes (fc_disk s) !! i).
Proof.
  intros C Hro Hheld Hok. unfold force_sync_all, sync_rw_and_unused_files, unless_read_only.
  rewrite (st_bind_ok _ _ _ s s), Hro, (st_bind_ok _ _ _ s s) by done. cbv zeta.
  set (l := (λ '(p, e), (p, ev_value e)) <$> hash_iter (store (fc_cache s))).
  destruct (files_to_sync_spec env true FILE_CACHE_SYNC_INTERVAL l s) as [(e & E & _ & Hex)|(k & E & _ & Hsl & Hk)].
  { apply Forall_forall. intros ph Hph%cached_list. destruct (co_current _ C _ _ Hph) as (f & Hf & _). by exists f. }
  { apply Exists_exists in Hex as (ph & _ & Hh). rewrite Hheld in Hh. by apply not_elem_of_empty in Hh. }
  rewrite (st_bind_ok _ _ _ _ _ E).
  destruct (sync_loop env true k.*1 s) as (s' & E' & Q' & Ec' & _ & Hi' & Hd').
  { apply Forall_fmap, Forall_forall. intros [h t] (_ & _ & f & Hf & _)%Hk. by exists f. }
  { apply Forall_forall. intros h _. rewrite Hheld. apply not_elem_of_empty. }
  exists s'. split_and!; [done..| |].
  2: { intros p i Hp Hnone. apply Hi'. intros h f ([h' t] & -> & (Hin & _)%Hk)%list_elem_of_fmap Hf Hfi. simpl in *.
    apply list_elem_of_fmap in Hin as ([q h2] & -> & Hq%cached_list). simpl in *.
    destruct (co_current _ C q h2 Hq) as (f2 & Hf2 & _ & Hn2). assert (f2 = f) as -> by congruence.
    rewrite Hfi in Hn2. rewrite (co_once _ C p q i Hp Hn2) in Hnone. congruence. }
  intros p h f Hp Hf Hdirty. apply (Hd' Hok h f); [|done|done].
  apply list_elem_of_fmap. exists (h, f_last_synced f). split; [done|]. apply Hk. split_and!.
  - apply list_elem_of_fmap. exists (p, h). split; [done|]. by apply cached_list.
  - rewrite Hheld. apply not_elem_of_empty.
  - exists f. split_and!; [done| |done]. destruct Hdirty as (f0 & Hf0 & Hm & Hs & _). assert (f0 = f) as -> by congruence.
    unfold overdue. by rewrite Hs, bool_decide_true by done.
Qed.

(** C13: a forced sync puts everything on the disk.  After any calls, reads and writes in which
    the system calls succeed and no file is evicted, discarded or removed while somebody uses
    it: when no guard is held any more, [force_sync_all] succeeds, changes no content, and
    each file is on the disk as its readers see it, so that a power failure loses nothing. *)
Theorem force_sync_makes_durable size ttl interval d s env :
  0 ≤ size → disk_ok d → fc_run step_calm (file_cache_new size ttl interval d) s →
  fc_read_only s = false → fc_held s = ∅ → (∀ q, fe_fsync env q = true) →
  ∃ s', force_sync_all env s = (Ok tt, s') ∧ contents s' = contents s ∧ on_disk s' = contents s.
Proof.
  intros Hsz Hd Hrun Hro Hheld Hok. destruct (new_ok size ttl interval d Hsz Hd) as [C0 T0].
  destruct (run_tracked _ _ C0 T0 Hrun) as [C [T1 T2]].
  destruct (force_sync_spec env s C Hro Hheld Hok) as (s' & E & Q & Ec & Hdur & _).
  exists s'. split_and!; [done|by apply quiet_contents|]. rewrite <- (quiet_contents s s' Q). apply durable_on_disk.
  intros p i. rewrite (qu_names _ _ Q). intros Hi. destruct (T2 p i Hi) as [?|(h & Hp & Hdirty)]; [by apply (qu_durable _ _ Q)|].
  destruct (co_current _ C p h Hp) as (f & Hf & _ & Hn). replace i with (f_inode f) by congruence. by eapply Hdur.
Qed.

(** ** The worker *)

(** The open files that wait to be synced. *)
Definition is_waiting (s : FileCache) (h : nat) : Prop :=
  ∃ f, fc_files s !! h = Some f ∧ f_mode f = AccessReadWrite ∧ f_is_synced f = false.
#[local] Instance is_waiting_dec s h : Decision (is_waiting s h).
Proof.
  destruct (fc_files s !! h) as [f|] eqn:E; [|right; intros (f & ? & _); congruence].
  destruct (decide (f_mode f = AccessReadWrite ∧ f_is_synced f = false)) as [[? ?]|Hn]; [left; by exists f|].
  right. intros (f' & Hf' & ?). apply Hn. congruence.
Defined.
Definition waiting (s : FileCache) : gset nat := filter (is_waiting s) (map_img (in_cache s)).

(** Files that are not opened for a read-only cache. *)
Definition writable (s : FileCache) : Prop := ∀ h f, fc_files s !! h = Some f → f_ignore_write f = false.

(** All that waits has waited for the interval. *)
Definition all_overdue (env : FileEnv) (s : FileCache) : Prop :=
  ∀ h f, h ∈ waiting s → fc_files s !! h = Some f → fc_sync_interval s ≤ fe_instant env - f_last_synced f.

Lemma elem_of_waiting s h : h ∈ waiting s ↔ is_waiting s h ∧ ∃ p, in_cache s !! p = Some h.
Proof. unfold waiting. by rewrite elem_of_filter, elem_of_map_img. Qed.

Lemma cached_handles_nodup s :
  coherent s → NoDup ((λ '(p, e), (p, ev_value e)) <$> hash_iter (store (fc_cache s))).*2.
Proof.
  intros C. rewrite <- list_fmap_compose. apply NoDup_fmap_2_strong; [|by rewrite hash_iter_perm; apply NoDup_map_to_list].
  intros [p e] [q e'] Hp%elem_of_hash_iter Hq%elem_of_hash_iter E. simpl in E.
  destruct (co_current _ C p (ev_value e)) as (f & Hf & Hpath & _); [by rewrite in_cache_lookup, Hp|].
  destruct (co_current _ C q (ev_value e')) as (f' & Hf' & Hpath' & _); [by rewrite in_cache_lookup, Hq|].
  rewrite E in Hf. assert (f' = f) as -> by congruence. assert (p = q) as -> by congruence. congruence.
Qed.

(** One turn syncs a batch of the files that wait. *)
Lemma worker_turn_spec env s :
  coherent s → fc_read_only s = false → fc_held s = ∅ → writable s → (∀ q, fe_fsync env q = true) → all_overdue env s →
  ∃ s', sync_worker_turn env s = (Ok tt, s') ∧ quiet s s' ∧ fc_cache s' = fc_cache s ∧
    size (waiting s') = (size (waiting s) - FILE_CACHE_SYNC_BATCH_SIZE)%nat ∧
    (∀ h, h ∈ waiting s' → h ∈ waiting s ∧ fc_files s' !! h = fc_files s !! h).
Proof.
  intros C Hro Hheld Hw Hok Hover. unfold sync_worker_turn, sync_rw_and_unused_files, unless_read_only.
  rewrite (st_bind_ok _ _ _ s s), Hro, (st_bind_ok _ _ _ s s) by done. cbv zeta.
  set (l := (λ '(p, e), (p, ev_value e)) <$> hash_iter (store (fc_cache s))).
  destruct (files_to_sync_spec env false (fc_sync_interval s) l s) as [(e & _ & ? & _)|(k & E & _ & Hsl & Hk)]; [|done|].
  { apply Forall_forall. intros ph Hph%cached_list. destruct (co_current _ C _ _ Hph) as (f & Hf & _). by exists f. }
  rewrite (st_bind_ok _ _ _ _ _ E). set (k' := take _ _).
  assert (NoDup k.*1) as Hnd by (eapply sublist_NoDup; [|exact Hsl]; by apply cached_handles_nodup).
  assert (∀ h, h ∈ k.*1 ↔ h ∈ waiting s) as Hset.
  { intros h. rewrite elem_of_waiting, list_elem_of_fmap. split.
    - intros ([h' t] & -> & (Hin & _ & f & Hf & Ho & _)%Hk). simpl. split.
      + exists f. unfold overdue in Ho. rewrite !andb_true_iff, bool_decide_eq_true, negb_true_iff in Ho. tauto.
      + apply list_elem_of_fmap in Hin as ([p h2] & -> & Hp%cached_list). by exists p.
    - intros [(f & Hf & Hm & Hs) [p Hp]]. exists (h, f_last_synced f). split; [done|]. apply Hk. split_and!.
      + apply list_elem_of_fmap. exists (p, h). split; [done|]. by apply cached_list.
      + rewrite Hheld. apply not_elem_of_empty.
      + exists f. split_and!; [done| |done]. unfold overdue. rewrite Hm, Hs, bool_decide_true by done. simpl.
        assert (fc_sync_interval s ≤ fe_instant env - f_last_synced f) as Hle.
        { apply (Hover h f); [|done]. apply elem_of_waiting. split; [by exists f|by exists p]. }
        rewrite bool_decide_false by lia. done. }
  assert (k'.*1 ⊆+ k.*1) as Hsub.
  { apply fmap_submseteq. unfold k'. etrans; [apply sublist_submseteq, sublist_take|]. by rewrite merge_sort_Permutation. }
  assert (NoDup k'.*1) as Hnd'.
  { destruct (submseteq_Permutation _ _ Hsub) as [rest Hrest]. rewrite Hrest in Hnd. by apply NoDup_app in Hnd as [? _]. }
  assert (list_to_set k.*1 = waiting s) as Hw1 by (apply set_eq; intros h; by rewrite elem_of_list_to_set, Hset).
  destruct (sync_loop env false k'.*1 s) as (s' & E' & Q' & Ec' & Ho' & _ & Hd').
  { apply Forall_forall. intros h Hh. eapply elem_of_submseteq in Hh; [|exact Hsub]. apply Hset, elem_of_waiting in Hh as [(f & Hf & _) _]. by exists f. }
  { apply Forall_forall. intros h _. rewrite Hheld. apply not_elem_of_empty. }
  assert (in_cache s' = in_cache s) as Ei by (unfold in_cache; by rewrite Ec').
  assert (∀ h, h ∈ k'.*1 → ¬ is_waiting s' h) as Hdone.
  { intros h Hh (f' & Hf' & Hm' & Hs'). destruct (quiet_file_back _ _ _ _ Q' Hf') as (f & Hf & (_ & _ & _ & P4)).
    destruct (Hd' Hok h f Hh Hf) as [Hclean _]. apply Hclean. exists f'. split_and!; [done..|]. rewrite P4. by eapply Hw. }
  assert (waiting s' = waiting s ∖ list_to_set k'.*1) as Ew.
  { apply set_eq. intros h. rewrite elem_of_difference, elem_of_list_to_set, !elem_of_waiting, Ei. split.
    - intros [Hi Hc]. assert (h ∉ k'.*1) as Hn by (intros Hh; by destruct (Hdone h Hh)). split_and!; [|done|done].
      destruct Hi as (f & Hf & Hrest). exists f. rewrite <- Ho' by done. done.
    - intros [[(f & Hf & Hrest) Hc] Hn]. split; [|done]. exists f. by rewrite Ho'. }
  exists s'. split_and!; [done..| |].
  - rewrite Ew, size_difference.
    + rewrite <- Hw1, !size_list_to_set; [|done..]. rewrite !length_fmap. unfold k'.
      rewrite length_take, (Permutation_length (merge_sort_Permutation synced_before k)). lia.
    + rewrite <- Hw1. intros h. rewrite !elem_of_list_to_set. intros Hh. by eapply elem_of_submseteq.
  - intros h. rewrite Ew. intros [Hh Hn]%elem_of_difference. split; [done|]. apply Ho'. by rewrite elem_of_list_to_set in Hn.
Qed.

Definition worker_turns (s : FileCache) (envs : list FileEnv) : FileCache := foldl (λ s env, (sync_worker_turn env s).2) s envs.

Lemma worker_turns_spec envs s :
  coherent s → tracked s → fc_read_only s = false → fc_held s = ∅ → writable s →
  Forall (λ env, (∀ q, fe_fsync env q = true) ∧ all_overdue env s) envs →
  let s' := worker_turns s envs in
  coherent s' ∧ tracked s' ∧ contents s' = contents s ∧
  size (waiting s') = (size (waiting s) - FILE_CACHE_SYNC_BATCH_SIZE * length envs)%nat.
Proof.
  revert s. induction envs as [|env envs IH]; intros s C T Hro Hheld Hw Henvs; simpl; [split_and!; [done..|lia]|].
  apply Forall_cons in Henvs as [[Hok Hover] Henvs].
  destruct (worker_turn_spec env s C Hro Hheld Hw Hok Hover) as (s1 & -> & Q & Ec & Hsize & Hsub). simpl.
  destruct (keeps_quiet s s1 C Q Ec) as [K1 K2].
  destruct (IH s1) as (C' & T' & Hc' & Hs').
  - by apply K1.
  - by apply K2.
  - by rewrite (qu_read_only _ _ Q).
  - by rewrite (qu_held _ _ Q).
  - intros h f Hf. destruct (quiet_file_back _ _ _ _ Q Hf) as (f0 & Hf0 & (_ & _ & _ & ->)). by eapply Hw.
  - eapply Forall_impl; [exact Henvs|]. intros env' [Hok' Hover']. split; [done|]. intros h f Hh Hf.
    destruct (Hsub h Hh) as [Hh0 Ef]. rewrite (qu_interval _ _ Q). apply (Hover' h f); [done|]. by rewrite <- Ef.
  - split_and!; [done..|by rewrite Hc', (quiet_contents _ _ Q)|]. rewrite Hs', Hsize. unfold FILE_CACHE_SYNC_BATCH_SIZE. lia.
Qed.

(** C14: the worker puts everything on the disk.  After any calls, reads and writes in which
    the system calls succeed and no file is discarded while somebody uses it, when the guards
    are given back and every file has waited for the interval: each turn syncs sixteen of the
    files that wait, so that as many turns as there are batches of sixteen leave each file on
    the disk as its readers see it. *)
Theorem worker_syncs_everything size_ ttl interval d s envs :
  0 ≤ size_ → disk_ok d → fc_run step_calm (file_cache_new size_ ttl interval d) s →
  fc_read_only s = false → fc_held s = ∅ → writable s →
  Forall (λ env, (∀ q, fe_fsync env q = true) ∧ all_overdue env s) envs →
  (size (waiting s) ≤ FILE_CACHE_SYNC_BATCH_SIZE * length envs)%nat →
  contents (worker_turns s envs) = contents s ∧ on_disk (worker_turns s envs) = contents s.
Proof.
  intros Hsz Hd Hrun Hro Hheld Hw Henvs Hlen. destruct (new_ok size_ ttl interval d Hsz Hd) as [C0 T0].
  destruct (run_tracked _ _ C0 T0 Hrun) as [C T].
  destruct (worker_turns_spec envs s C T Hro Hheld Hw Henvs) as (C' & [_ T'] & Hc & Hs). split; [done|].
  rewrite <- Hc. apply durable_on_disk. intros p i Hi. destruct (T' p i Hi) as [?|(h & Hp & f & Hf & Hm & Hsy & _)]; [done|].
  assert (h ∈ waiting (worker_turns s envs)) as Hh by (apply elem_of_waiting; split; [by exists f|by exists p]).
  assert (waiting (worker_turns s envs) ≡ ∅) as Hemp by (apply size_empty_inv; lia). rewrite Hemp in Hh. by apply not_elem_of_empty in Hh.
Qed.
End Runs.

(** ** Witnesses *)

Section Witnesses.
Existing Instance std_order.
Existing Instance std_order_laws.

Fixpoint all_ok (ok : FileCache → FileEnv * FcOp → Prop) (s : FileCache) (ops : list (FileEnv * FcOp)) : Prop :=
  match ops with [] => True | eo :: rest => ok s eo ∧ all_ok ok (fc_step s eo) rest end.
Lemma run_all ok s0 s ops : fc_run ok s0 s → all_ok ok s ops → fc_run ok s0 (foldl fc_step s ops).
Proof. revert s. induction ops as [|eo ops IH]; intros s Hr Ho; [done|]. destruct Ho as [? ?]. apply IH; [by constructor|done]. Qed.

Definition env_at (t : Z) : FileEnv := mkFileEnv (λ n, t + Z.of_nat n) (λ _ _, t) t (λ _, true) true.
Definition file_a : Path := ["data"%string; "a"%string].
Definition file_b : Path := ["data"%string; "b"%string].
Definition a_disk : Disk := mkDisk {[ []; ["data"%string] ]} {[ file_b := 0%nat ]} {[ 0%nat := mkInode [7; 8; 9] [7; 8; 9] ]}.
Definition a_cache : FileCache := file_cache_new 1 60000000 10000 a_disk.

Lemma a_disk_ok : disk_ok a_disk.
Proof.
  split; simpl.
  - intros p i [<- <-]%lookup_singleton_Some. by rewrite lookup_singleton_eq.
  - intros p q i [<- _]%lookup_singleton_Some [<- _]%lookup_singleton_Some. done.
  - by intros i n [_ <-]%lookup_singleton_Some.
Qed.

(** [a] is created and written, then [b] is read, for which [a] has to leave the cache. *)
Definition some_ops : list (FileEnv * FcOp) :=
  [(env_at 1, OpWriteOrCreate file_a (SeekStart 0)); (env_at 2, OpGuardWrite [1; 2; 3] 0); (env_at 3, OpRelease 0)].
Definition more_ops : list (FileEnv * FcOp) :=
  [(env_at 10, OpRead file_b (SeekStart 1)); (env_at 11, OpGuardRead 1 1); (env_at 12, OpRelease 1)].
Definition cache_1 : FileCache := foldl fc_step a_cache some_ops.
Definition cache_2 : FileCache := foldl fc_step cache_1 more_ops.

Lemma calm_some : fc_run step_calm a_cache cache_1.
Proof.
  apply (run_all step_calm a_cache a_cache some_ops); [by constructor|].
  split; [|split; [split; exact I|split; [split; exact I|exact I]]].
  split; [exact I|]. intros _. split; [vm_compute; constructor|intros q; exact eq_refl].
Qed.
Lemma calm_more : fc_run step_calm a_cache cache_2.
Proof.
  apply (run_all step_calm a_cache cache_1 more_ops); [apply calm_some|].
  split; [|split; [split; exact I|split; [split; exact I|exact I]]].
  split; [exact I|]. intros _. split; [|intros q; exact eq_refl]. vm_compute. constructor; [|constructor].
  split; [done|]. intros Hin. by vm_compute in Hin.
Qed.
Lemma calm_is_sane s s' : fc_run step_calm s s' → fc_run step_sane s s'.
Proof. induction 1 as [|s1 eo _ IH [Hs _]]; by constructor. Qed.

Lemma guard_sees_the_file_witness :
  ∃ h s1, fc_read (env_at 20) file_a (SeekStart 1) cache_2 = (Ok h, s1) ∧ (file_read 2 h s1).1 = Ok [2; 3].
Proof.
  destruct (guard_sees_the_file 1 60000000 10000 a_disk cache_2 ltac:(lia) a_disk_ok (calm_is_sane _ _ calm_more)) as [Hread _].
  destruct (fc_read (env_at 20) file_a (SeekStart 1) cache_2) as [r s1] eqn:E. destruct r as [h|e|]; [|by vm_compute in E..].
  destruct (Hread (env_at 20) file_a 1 h s1 2%nat E) as (_ & bytes & Hb & Hr). exists h, s1. split; [done|]. rewrite Hr.
  assert (contents cache_2 !! file_a = Some [1; 2; 3]) as Hb2 by (by vm_compute). rewrite Hb2 in Hb. by injection Hb as <-.
Defined.

Lemma force_sync_makes_durable_witness :
  on_disk cache_1 !! file_a = Some [] ∧
  ∃ s', force_sync_all (env_at 5) cache_1 = (Ok tt, s') ∧ on_disk s' !! file_a = Some [1; 2; 3].
Proof.
  split; [by vm_compute|].
  destruct (force_sync_makes_durable 1 60000000 10000 a_disk cache_1 (env_at 5) ltac:(lia) a_disk_ok calm_some) as (s' & E & _ & Hd).
  - by vm_compute.
  - by vm_compute.
  - done.
  - exists s'. split; [exact E|]. rewrite Hd. by vm_compute.
Defined.

Lemma worker_syncs_everything_witness :
  on_disk cache_1 !! file_a = Some [] ∧ on_disk (worker_turns cache_1 [env_at 20000]) !! file_a = Some [1; 2; 3].
Proof.
  split; [by vm_compute|].
  destruct (worker_syncs_everything 1 60000000 10000 a_disk cache_1 [env_at 20000] ltac:(lia) a_disk_ok calm_some) as [_ Hd].
  - by vm_compute.
  - by vm_compute.
  - intros h f Hf. assert (map_Forall (λ _ f, f_ignore_write f = false) (fc_files cache_1)) as Hall; [|by apply (Hall h f)].
    apply map_Forall_to_list. by vm_compute; repeat constructor.
  - constructor; [|constructor]. split; [done|]. intros h f _ Hf.
    assert (map_Forall (λ _ f, f_last_synced f = 1) (fc_files cache_1)) as Hall.
    { apply map_Forall_to_list. by vm_compute; repeat constructor. }
    rewrite (Hall h f Hf). by vm_compute.
  - vm_compute. lia.
  - rewrite Hd. by vm_compute.
Defined.
End Witnesses.
