(* ===== verification/FileCacheEviction.v ===== *)
(** * FileCacheEviction: the file that an eviction in use pushes out
    (core/file_cache.rs, [insert_file_cached])

    An insertion into a full cache evicts the file that was used least recently; when somebody
    uses this file it goes back, and what this second insertion evicts is not looked at. *)

From stdpp Require Import prelude gmap strings sorting.
From Stdlib Require Import ZArith Lia.
From S2P Require Import Prelude Bytes Collections Cache Folders FileCache FileCacheLife FileCacheRun FileCacheDurability.
Open Scope Z_scope.

(** ** An insertion into a full cache *)

Section Full.
Context `{HashIterLaws} {K V : Type} `{Countable K}.

(** Nothing has expired, and [ko] is the oldest entry: it is what is evicted. *)
Lemma full_insert t now k v (c : Cache K V) ko eo :
  0 ≤ cache_size c → store c !! k = None → Z.of_nat (base.size (store c)) = cache_size c →
  <[k := mkEV v t]> (store c) !! ko = Some eo →
  (∀ k' e, <[k := mkEV v t]> (store c) !! k' = Some e → last_access_elapsed (now k') e ≤ ttl c) →
  (∀ k' e, <[k := mkEV v t]> (store c) !! k' = Some e → k' ≠ ko → last_access eo < last_access e) →
  ∃ c', cache_insert t now k v c = Ok ([(ko, ev_value eo)], c') ∧ store c' = delete ko (<[k := mkEV v t]> (store c)) ∧
    cache_size c' = cache_size c ∧ ttl c' = ttl c.
Proof.
  intros Hsz Hk Hfull Hko Hlive Hold.
  destruct (cache_insert_spec t now k v c Hsz) as (l & c' & Hi & Hd & Hb).
  specialize (Hb (Z.eq_le_incl _ _ Hfull)). destruct Hd as [D1 D2 D3 D4 D5 D6]. simpl in *.
  assert (∀ k', k' ∈ l.*1 → k' = ko) as Hall.
  { intros k' Hk'. apply list_elem_of_fmap in Hk' as Hin. destruct Hin as ([k2 v2] & Ek & Hin). simpl in Ek. subst k2.
    apply D4 in Hin as [Hc _]. unfold cached in Hc. simpl in Hc. rewrite lookup_fmap in Hc. apply fmap_Some in Hc as (e & He & ->).
    destruct (decide (k' = ko)) as [?|Hne]; [done|].
    destruct (D6 k' e Hk' He) as [_ Hmin].
    { intros (e' & He' & Hgt). specialize (Hlive k' e'). simpl in *. rewrite He in He'. simplify_eq. specialize (Hlive He). lia. }
    specialize (Hold k' e He Hne). assert (last_access e ≤ last_access eo); [|lia]. apply (Hmin ko); [done|].
    intros (e' & He' & Hgt). specialize (Hlive ko e'). simpl in *. rewrite Hko in He'. simplify_eq. specialize (Hlive Hko). lia. }
  assert (ko ∈ l.*1) as Hin.
  { destruct (decide (ko ∈ l.*1)) as [?|Hnot]; [done|]. exfalso.
    assert (store c' = <[k := mkEV v t]> (store c)) as E.
    { apply map_eq. intros k'. apply option_eq. intros e. rewrite D3. split; [by intros [? _]|]. intros He. split; [done|].
      intros Hk'. by rewrite (Hall k' Hk') in Hk'. }
    rewrite E, map_size_insert_None in Hb by done. lia. }
  exists c'. split_and!; [|..|by apply D1|by apply D1].
  - rewrite Hi. do 2 f_equal.
    assert (l = [(ko, ev_value eo)]) as ->; [|done].
    apply list_elem_of_fmap in Hin as ([k2 v2] & -> & Hin). apply D4 in Hin as Hc. destruct Hc as [Hc _].
    unfold cached in Hc. simpl in *. rewrite lookup_fmap, Hko in Hc. simpl in Hc. injection Hc as <-.
    destruct l as [|[k3 v3] [|[k4 v4] l]]; [by apply not_elem_of_nil in Hin|by apply list_elem_of_singleton in Hin as <-|].
    exfalso. rewrite !fmap_cons in D2. apply NoDup_cons in D2 as [D2 _]. simpl in *. apply D2.
    rewrite (Hall k3) by set_solver. rewrite (Hall k4) by set_solver. set_solver.
  - apply map_eq. intros k'. apply option_eq. intros e. rewrite D3, lookup_delete_Some. split.
    + intros [He Hn]. split; [|done]. intros <-. done.
    + intros [Hne He]. split; [done|]. intros Hk'. by destruct Hne; rewrite (Hall k' Hk').
Qed.
End Full.

Section Displace.
Context `{HashIterLaws}.

(** A full cache in which nothing has expired; the oldest file [p0] is in use, the next one
    [p1] waits to be synced; and [p], which is not in the cache, is to be read. *)
Record squeezed (env : FileEnv) (s : FileCache) (p p0 p1 : Path) (h0 h1 : nat) (t0 t1 : Z) : Prop := {
  sq_full : Z.of_nat (base.size (store (fc_cache s))) = cache_size (fc_cache s);
  sq_new : in_cache s !! p = None;
  sq_file : is_Some (names s !! p);
  sq_first : store (fc_cache s) !! p0 = Some (mkEV h0 t0);
  sq_next : store (fc_cache s) !! p1 = Some (mkEV h1 t1);
  sq_order q e : store (fc_cache s) !! q = Some e → q ≠ p0 → q ≠ p1 → t1 < last_access e;
  sq_times : t0 < t1 ∧ t1 < fe_clock env 1 ∧ t1 < fe_clock env 2;
  sq_scan n q : fe_scan env n q ≤ t0 + ttl (fc_cache s);
  sq_ttl : 0 ≤ ttl (fc_cache s);
  sq_in_use : h0 ∈ fc_held s;
  sq_dirty : dirty s h1
}.

Lemma not_expired env s p p0 p1 h0 h1 t0 t1 n q (e : ExpiringValue nat) :
  squeezed env s p p0 p1 h0 h1 t0 t1 → t0 ≤ last_access e → last_access_elapsed (fe_scan env n q) e ≤ ttl (fc_cache s).
Proof.
  intros S He. pose proof (sq_scan _ _ _ _ _ _ _ _ _ S n q). pose proof (sq_ttl _ _ _ _ _ _ _ _ _ S).
  unfold last_access_elapsed, u64_sat_sub. lia.
Qed.

(** The two insertions: the first evicts [p0], the second, which takes it back, [p1]. *)
Lemma two_insertions env s p p0 p1 h0 h1 t0 t1 h :
  0 ≤ cache_size (fc_cache s) → squeezed env s p p0 p1 h0 h1 t0 t1 →
  ∃ c1 c2, cache_insert (fe_clock env 1) (fe_scan env 1) p h (fc_cache s) = Ok ([(p0, h0)], c1) ∧
    cache_insert (fe_clock env 2) (fe_scan env 2) p0 h0 c1 = Ok ([(p1, h1)], c2) ∧
    cached c2 = <[p0 := h0]> (delete p1 (delete p0 (<[p := h]> (in_cache s)))).
Proof.
  intros Hsz S. destruct (S) as [S1 S2 S3 S4 S5 S6 (S7a & S7b & S7c) S8 S9 S10 S11].
  rewrite in_cache_lookup in S2. destruct (store (fc_cache s) !! p) as [?|] eqn:Ep; [done|]. clear S2.
  set (c := fc_cache s) in *.
  assert (p0 ≠ p1) as Hp01 by (intros ->; rewrite S4 in S5; injection S5 as _ ?; lia).
  assert (∀ q e, <[p := mkEV h (fe_clock env 1)]> (store c) !! q = Some e → q = p0 ∧ last_access e = t0 ∨ q = p1 ∧ last_access e = t1 ∨
    (q ≠ p0 ∧ q ≠ p1 ∧ t1 < last_access e)) as Hages.
  { intros q e [[<- <-]|[Hne Hq]]%lookup_insert_Some; [right; right; split_and!; [congruence..|done]|].
    destruct (decide (q = p0)) as [->|]; [left; simplify_eq; done|]. destruct (decide (q = p1)) as [->|]; [right; left; simplify_eq; done|].
    right; right. split_and!; [done..|]. by eapply S6. }
  destruct (full_insert (fe_clock env 1) (fe_scan env 1) p h c p0 (mkEV h0 t0)) as (c1 & E1 & Es1 & Ec1 & Et1); [done..| | | |].
  { rewrite lookup_insert_ne; [done|congruence]. }
  { intros q e Hq. eapply not_expired; [done|]. destruct (Hages q e Hq) as [[_ ->]|[[_ ->]|(_ & _ & ?)]]; lia. }
  { intros q e Hq Hne. simpl. destruct (Hages q e Hq) as [[-> _]|[[_ ->]|(_ & _ & ?)]]; [done|lia..]. }
  destruct (full_insert (fe_clock env 2) (fe_scan env 2) p0 h0 c1 p1 (mkEV h1 t1)) as (c2 & E2 & Es2 & _).
  - by rewrite Ec1.
  - rewrite Es1. apply lookup_delete_eq.
  - assert (p ≠ p0) by congruence.
    rewrite Es1, map_size_delete, lookup_insert_ne, S4, map_size_insert_None by done. simpl. rewrite Ec1, <- S1. lia.
  - rewrite Es1, lookup_insert_ne, lookup_delete_ne, lookup_insert_ne by congruence. done.
  - intros q e. rewrite Es1, Et1. intros [[<- <-]|[Hne [_ Hq]%lookup_delete_Some]]%lookup_insert_Some; (eapply not_expired; [done|]).
    + simpl. lia.
    + destruct (Hages q e Hq) as [[_ ->]|[[_ ->]|(_ & _ & ?)]]; lia.
  - intros q e. rewrite Es1. intros [[<- <-]|[Hne [_ Hq]%lookup_delete_Some]]%lookup_insert_Some Hne1; simpl; [lia|].
    destruct (Hages q e Hq) as [[-> _]|[[-> _]|(_ & _ & ?)]]; [done|done|lia].
  - exists c1, c2. split_and!; [done..|]. unfold cached. rewrite Es2, Es1, fmap_delete, fmap_insert, fmap_delete, fmap_insert. simpl.
    rewrite delete_insert_ne by congruence. done.
Qed.

Lemma with_own_disk s : with_disk (fc_disk s) s = s.
Proof. by destruct s. Qed.

(** C40: a file in use pushes another one out of the cache unsynced.  When the cache is full and
    its oldest file is in use, reading one more file succeeds and leaves the next oldest file,
    which waits to be synced, out of the cache: when all guards are given back,
    [force_sync_all] succeeds and does not write it, so that its content is still not on the
    disk. *)
Theorem in_use_file_displaces_unsynced env env' s p p0 p1 h0 h1 t0 t1 n i :
  coherent s → squeezed env s p p0 p1 h0 h1 t0 t1 → fc_read_only s = false → 0 ≤ n →
  names s !! p1 = Some i → ¬ durable s i → (∀ q, fe_fsync env' q = true) →
  ∃ h s1 s2, fc_read env p (SeekStart n) s = (Ok h, s1) ∧ in_cache s1 !! p1 = None ∧
    force_sync_all env' (with_held ∅ s1) = (Ok tt, s2) ∧ contents s2 !! p1 = contents s !! p1 ∧ ¬ durable s2 i.
Proof.
  intros C S Hro Hn Hp1 Hdur Hok. destruct (S) as [S1 S2 [ip S3] S4 S5 S6 (S7a & S7b & S7c) S8 S9 S10 S11].
  set (s0 := after_get env p s).
  assert (fc_cache s0 = fc_cache s) as Ec0.
  { unfold s0, after_get, cache_get, Cache.with_store. simpl. rewrite in_cache_lookup in S2.
    destruct (fc_cache s) as [st sz tt]. simpl in *. f_equal. apply alter_id. intros e He. by rewrite He in S2. }
  set (h := fresh (dom (fc_files s))). set (f := mkFile ip 0 p (fe_instant env) true AccessRead (fc_read_only s)).
  destruct (two_insertions env s p p0 p1 h0 h1 t0 t1 h) as (c1 & c2 & E1 & E2 & Ec2); [apply C|done|].
  set (s3 := with_files (<[h := f]> (fc_files s0)) s0).
  assert (opened env p (open_read_file env p) s0 = (Ok h, with_cache c2 s3)) as Eo.
  { unfold opened. rewrite (st_bind_ok _ _ _ h s3).
    2: { unfold open_read_file, open_file, put_file. simpl_st. unfold os_open. change (dk_names (fc_disk s)) with (names s).
      rewrite S3. simpl. unfold s3, s0, after_get. done. }
    rewrite (st_bind_ok _ _ _ (0, 0)%nat (with_cache c2 s3)); [done|]. unfold insert_file_cached.
    rewrite (st_bind_ok _ _ _ [(p0, h0)] (with_cache c1 s3)).
    2: { unfold fc_insert. simpl_st. rewrite Ec0, E1. done. }
    cbn [discarded_files]. rewrite (st_bind_ok _ _ _ (0, 0)%nat (with_cache c2 s3)); [done|].
    unfold discarded_file. rewrite (st_bind_ok _ _ _ (with_cache c1 s3) (with_cache c1 s3)) by done. cbn [fst snd].
    rewrite decide_True by done. rewrite (st_bind_ok _ _ _ [(p1, h1)] (with_cache c2 s3)); [done|].
    unfold fc_insert. simpl_st. rewrite E2. done. }
  destruct (fc_read_spec env p (SeekStart n) s C) as (r & s1 & Er & _ & C1 & _ & _).
  set (s4 := with_held ({[h]} ∪ fc_held s) (with_files (<[h := with_pos n f]> (<[h := f]> (fc_files s))) (with_cache c2 s3))).
  assert (fc_read env p (SeekStart n) s = (Ok h, s4)) as E4.
  { unfold fc_read. rewrite (st_bind_ok _ _ _ _ _ (st_get_ok env p s)), S2, (st_bind_ok _ _ _ _ _ Eo).
    unfold take_guard, lock_file, file_seek, the_file, put_file. simpl_st.
    rewrite decide_False by (intros Hh; by apply (is_fresh (dom (fc_files s))), (co_held _ C)).
    change (fc_files (with_cache c2 s3)) with (<[h := f]> (fc_files s)). rewrite lookup_insert_eq. simpl. rewrite decide_False by lia. done. }
  rewrite Er in E4. simplify_eq.
  assert (p0 ≠ p1) as Hp01 by (intros ->; rewrite S4 in S5; injection S5 as _ ?; lia).
  assert (in_cache s4 !! p1 = None) as Hnone.
  { change (in_cache s4) with (cached c2). by rewrite Ec2, lookup_insert_ne, lookup_delete_eq. }
  destruct (force_sync_spec env' (with_held ∅ s4)) as (s2 & E2' & Q & _ & _ & Hsame); [|done|done|done|].
  { destruct C1 as [D1 D2 D3 D4 D5 D6]. by split. }
  specialize (Hsame p1 i Hp1 Hnone). change (fc_disk (with_held ∅ s4)) with (fc_disk s) in Hsame.
  exists h, s4, s2. split_and!; [done..| |].
  - by rewrite (quiet_contents _ _ Q).
  - intros Hd. apply Hdur. intros nd Hnd. apply Hd. by rewrite Hsame.
Qed.
End Displace.

(** ** A cache of two files *)

Section Witness.
Existing Instance std_order.
Existing Instance std_order_laws.

Definition file_c : Path := ["data"%string; "c"%string].
Definition two_files : Disk :=
  mkDisk {[ []; ["data"%string] ]} {[ file_b := 0%nat; file_c := 1%nat ]}
    {[ 0%nat := mkInode [7] [7]; 1%nat := mkInode [8] [8] ]}.
Definition small_cache : FileCache := file_cache_new 2 60000000 10000 two_files.

(** [b] is open and in use; [a] is written. *)
Definition busy_ops : list (FileEnv * FcOp) :=
  [(env_at 1, OpRead file_b (SeekStart 0)); (env_at 10, OpWriteOrCreate file_a (SeekStart 0));
   (env_at 11, OpGuardWrite [1; 2; 3] 1); (env_at 12, OpRelease 1)].
Definition busy_cache : FileCache := foldl fc_step small_cache busy_ops.

Lemma two_files_ok : disk_ok two_files.
Proof.
  assert (∀ p i, dk_names two_files !! p = Some i → p = file_b ∧ i = 0%nat ∨ p = file_c ∧ i = 1%nat) as Hn.
  { simpl. intros p i [[<- <-]|[_ [<- <-]%lookup_singleton_Some]]%lookup_insert_Some; [by left|by right]. }
  split.
  - intros p i [[_ ->]|[_ ->]]%Hn; by eexists.
  - intros p q i [[-> ->]|[-> ->]]%Hn [[-> Hi]|[-> Hi]]%Hn; done.
  - simpl. by intros i n [[_ <-]|[_ [_ <-]%lookup_singleton_Some]]%lookup_insert_Some.
Qed.

Lemma busy_coherent : coherent busy_cache.
Proof.
  apply (run_coherent small_cache); [by apply new_ok, two_files_ok|].
  apply (run_all step_sane small_cache small_cache busy_ops); [constructor|]. repeat split.
Qed.

Lemma busy_squeezed : squeezed (env_at 20) busy_cache file_c file_b file_a 0 1 2 11.
Proof.
  split.
  - by vm_compute.
  - by vm_compute.
  - by eexists; vm_compute.
  - by vm_compute.
  - by vm_compute.
  - assert (map_Forall (λ q _, q = file_b ∨ q = file_a) (store (fc_cache busy_cache))) as Hall.
    { apply map_Forall_to_list. vm_compute. repeat (constructor; [by left + right|]). constructor. }
    intros q e Hq Hb Ha. destruct (Hall q e Hq) as [E|E]; [destruct (Hb E)|destruct (Ha E)].
  - by vm_compute.
  - intros n q. by vm_compute.
  - by vm_compute.
  - assert (fc_held busy_cache = {[0%nat]}) as -> by (by vm_compute). by apply elem_of_singleton.
  - eexists. split_and!; [by vm_compute|by vm_compute..].
Qed.

Lemma in_use_file_displaces_unsynced_witness :
  ∃ h s1 s2, fc_read (env_at 20) file_c (SeekStart 0) busy_cache = (Ok h, s1) ∧
    force_sync_all (env_at 30) (with_held ∅ s1) = (Ok tt, s2) ∧ contents s2 !! file_a = Some [1; 2; 3] ∧ ¬ durable s2 2.
Proof.
  destruct (in_use_file_displaces_unsynced (env_at 20) (env_at 30) busy_cache file_c file_b file_a 0 1 2 11 0 2
              busy_coherent busy_squeezed) as (h & s1 & s2 & E1 & _ & E2 & Hc & Hd).
  - by vm_compute.
  - lia.
  - by vm_compute.
  - intros Hd. assert (dk_inodes (fc_disk busy_cache) !! 2%nat = Some (mkInode [1; 2; 3] [])) as Hi by (by vm_compute).
    specialize (Hd _ Hi). discriminate Hd.
  - intros q. exact eq_refl.
  - exists h, s1, s2. split; [exact E1|]. split; [exact E2|]. split; [rewrite Hc; by vm_compute|exact Hd].
Defined.
End Witness.
