(* ===== verification/Ip.v ===== *)
(** * Client addresses (auth/token_repository.rs)

    [IpAddr] and its parser, as the Rust standard library defines them, and the
    allow list of a token: addresses and networks in CIDR notation.  The theorem
    says which addresses an entry admits: for a network, those that agree with it
    on the first bits. *)

From stdpp Require Import prelude strings pretty.
From Stdlib Require Import Ascii ZArith Lia.
From S2P Require Import Prelude Text Split.
Open Scope Z_scope.

(** ** Addresses *)

(** [std::net::IpAddr]: 32 and 128 bits, as [u32::from] and [u128::from] give them. *)
Inductive IpAddr : Set := V4 (bits : Z) | V6 (bits : Z).

#[export] Instance IpAddr_eq_dec : EqDecision IpAddr.
Proof. solve_decision. Defined.

(** ** The parser of the standard library (core::net::parser)

    A reader takes the rest of the text and gives a value and what is left; a
    reader that fails leaves the text as it was ([read_atomically]). *)

(** [char::to_digit]. *)
Definition to_digit (radix : Z) (c : ascii) : option Z :=
  let n := byte c in
  d ← (if decide (48 ≤ n ≤ 57) then Some (n - 48)
       else if decide (97 ≤ n ≤ 122) then Some (n - 87)
       else if decide (65 ≤ n ≤ 90) then Some (n - 55) else None);
  if decide (d < radix) then Some d else None.

Fixpoint read_digits (radix : Z) (max_digits : nat) (s : string) (acc : Z) (count : nat) :
  option (Z * nat * string) :=
  match s with
  | EmptyString => Some (acc, count, s)
  | String c s' =>
      match to_digit radix c with
      | Some d =>
          if decide (max_digits < S count)%nat then None
          else read_digits radix max_digits s' (acc * radix + d) (S count)
      | None => Some (acc, count, s)
      end
  end.

(** [read_number] for an integer type below [limit]. *)
Definition read_number (radix : Z) (max_digits : nat) (allow_zero_prefix : bool) (limit : Z)
  (s : string) : option (Z * string) :=
  '(n, count, rest) ← read_digits radix max_digits s 0 0;
  if decide (count = 0)%nat then None
  else if negb allow_zero_prefix && starts_with s "0" && bool_decide (1 < count)%nat then None
  else if decide (n < limit) then Some (n, rest) else None.

Definition read_given_char (c : ascii) (s : string) : option string :=
  match s with
  | String d s' => if decide (d = c) then Some s' else None
  | EmptyString => None
  end.

Definition read_separator {A} (sep : ascii) (first : bool) (inner : string → option (A * string))
  (s : string) : option (A * string) :=
  if first then inner s else (s' ← read_given_char sep s; inner s').

(** The octets of an IPv4 address that are still to be read. *)
Fixpoint read_octets (left : nat) (first : bool) (acc : Z) (s : string) : option (Z * string) :=
  match left with
  | O => Some (acc, s)
  | S left' =>
      '(octet, rest) ← read_separator "." first (read_number 10 3 false 256) s;
      read_octets left' false (acc * 256 + octet) rest
  end.
Definition read_ipv4_addr (s : string) : option (Z * string) := read_octets 4 true 0 s.

(** [read_groups]: up to [left] groups of 16 bits, the last two of them possibly
    as an IPv4 address. *)
Fixpoint read_groups (left : nat) (first : bool) (s : string) : list Z * bool * string :=
  match left with
  | O => ([], false, s)
  | S left' =>
      match (if decide (left' = 0)%nat then None else read_separator ":" first read_ipv4_addr s) with
      | Some (a, rest) => ([a / 65536; a mod 65536], true, rest)
      | None =>
          match read_separator ":" first (read_number 16 4 true 65536) s with
          | Some (g, rest) =>
              let '(gs, ipv4, rest') := read_groups left' false rest in (g :: gs, ipv4, rest')
          | None => ([], false, s)
          end
      end
  end.

Definition of_groups (gs : list Z) : Z := foldl (λ acc g, acc * 65536 + g) 0 gs.

Definition read_ipv6_addr (s : string) : option (Z * string) :=
  let '(head, head_ipv4, rest) := read_groups 8 true s in
  if decide (length head = 8)%nat then Some (of_groups head, rest)
  else if head_ipv4 then None
  else
    rest ← read_given_char ":" rest;
    rest ← read_given_char ":" rest;
    let '(tail, _, rest) := read_groups (8 - (length head + 1)) true rest in
    Some (of_groups (head ++ replicate (8 - length head - length tail) 0 ++ tail), rest).

(** [str::parse::<IpAddr>]: nothing may be left. *)
Definition read_ip_addr (s : string) : option (IpAddr * string) :=
  match read_ipv4_addr s with
  | Some (a, rest) => Some (V4 a, rest)
  | None => '(a, rest) ← read_ipv6_addr s; Some (V6 a, rest)
  end.
Definition parse_ip (s : string) : option IpAddr :=
  '(ip, rest) ← read_ip_addr s;
  if decide (rest = EmptyString) then Some ip else None.

(** [str::parse::<u8>]. *)
Definition parse_u8 (s : string) : option Z :=
  n ← parse_u64 s; if decide (n < 256) then Some n else None.

(** ** The allow list *)

(** [MAX << shift] in an unsigned integer of [width] bits. *)
Definition max_shl (width shift : Z) : Z := Z.land (Z.shiftl (Z.ones width) shift) (Z.ones width).

Definition masked_eqb (width prefix_len net client : Z) : bool :=
  let mask := if decide (prefix_len = 0) then 0 else max_shl width (width - prefix_len) in
  bool_decide (Z.land net mask = Z.land client mask).

(** [cidr_matches]. *)
Definition cidr_matches (network prefix : string) (client_ip : IpAddr) : bool :=
  match parse_u8 prefix with
  | None => false
  | Some prefix_len =>
      match parse_ip network with
      | None => false
      | Some network_ip =>
          match network_ip, client_ip with
          | V4 net, V4 client => if decide (prefix_len > 32) then false else masked_eqb 32 prefix_len net client
          | V6 net, V6 client => if decide (prefix_len > 128) then false else masked_eqb 128 prefix_len net client
          | _, _ => false
          end
      end
  end.

(** [ip_allowlist_entry_matches]. *)
Definition ip_allowlist_entry_matches (entry : string) (client_ip : IpAddr) : bool :=
  match split_once "/" entry with
  | Some (network, prefix) => cidr_matches network prefix client_ip
  | None => bool_decide (parse_ip entry = Some client_ip)
  end.

Example parse_v4 : parse_ip "192.168.0.1" = Some (V4 3232235521).
Proof. vm_compute. reflexivity. Qed.
Example parse_v4_zero : parse_ip "192.168.00.1" = None ∧ parse_ip "1.2.3" = None ∧ parse_ip "1.2.3.256" = None.
Proof. vm_compute. auto. Qed.
Example parse_v6 : parse_ip "::1" = Some (V6 1) ∧ parse_ip "::" = Some (V6 0) ∧
  parse_ip "fe80::1:2" = Some (V6 338288524927261089654018896841347760130) ∧
  parse_ip "::ffff:1.2.3.4" = Some (V6 281470698652420) ∧ parse_ip "1::2::3" = None ∧
  parse_ip "1:2:3:4:5:6:7:8" = Some (V6 5192455318486707404433266433261576) ∧ parse_ip "1:2:3:4:5:6:7:8:9" = None.
Proof. vm_compute. auto 10. Qed.

(** ** Masks *)

Lemma max_shl_bits width shift i :
  0 ≤ shift ≤ width → 0 ≤ i → Z.testbit (max_shl width shift) i = bool_decide (shift ≤ i < width).
Proof.
  intros Hs Hi. unfold max_shl. rewrite Z.land_spec, Z.shiftl_spec, !Z.testbit_ones by lia.
  case_bool_decide; rewrite ?andb_true_iff, ?andb_false_iff, ?Z.leb_le, ?Z.ltb_lt, ?Z.leb_gt, ?Z.ltb_ge; lia.
Qed.

(** Two addresses agree under the mask when their first bits agree. *)
Lemma masked_eqb_spec width p a b :
  0 ≤ p ≤ width →
  masked_eqb width p a b = true ↔ ∀ i, width - p ≤ i < width → Z.testbit a i = Z.testbit b i.
Proof.
  intros Hp. unfold masked_eqb. rewrite bool_decide_eq_true.
  destruct (decide (p = 0)) as [->|Hp0]; simpl.
  { rewrite !Z.land_0_r. split; [intros _ i ?; lia|done]. }
  split.
  - intros E i Hi. apply (f_equal (λ z, Z.testbit z i)) in E.
    rewrite !Z.land_spec, max_shl_bits, bool_decide_eq_true_2, !andb_true_r in E by lia. done.
  - intros H. apply Z.bits_inj'. intros i Hi. rewrite !Z.land_spec, max_shl_bits by lia.
    case_bool_decide as Hin; [by rewrite H|by rewrite !andb_false_r].
Qed.

(** ** Networks as they are printed *)

(** [Display] of an IPv4 address. *)
Definition octets (a : Z) : list Z :=
  [a / 16777216 mod 256; a / 65536 mod 256; a / 256 mod 256; a mod 256].
Definition show_v4 (a : Z) : string := join_with "." (show <$> octets a).

(** A text that is read as an octet: up to three digits, no superfluous zero. *)
Definition octet_text (s : string) : bool :=
  bool_decide (0 < String.length s ≤ 3)%nat && all_chars is_digit s &&
  negb (starts_with s "0" && bool_decide (1 < String.length s)%nat).

Definition ends_number (s : string) : Prop :=
  match s with String c _ => to_digit 10 c = None | EmptyString => True end.

Lemma to_digit_10 c : to_digit 10 c = digit c.
Proof.
  unfold to_digit, digit, byte. destruct (decide (48 ≤ _ ≤ 57)); simpl.
  - by rewrite decide_True by lia.
  - destruct (decide (97 ≤ _ ≤ 122)); simpl; [by rewrite decide_False by lia|].
    destruct (decide (65 ≤ _ ≤ 90)); simpl; [by rewrite decide_False by lia|done].
Qed.

Lemma read_digits_app s rest acc count m n :
  digits s acc = Some n → (count + String.length s ≤ m)%nat → ends_number rest →
  read_digits 10 m (s +:+ rest) acc count = Some (n, (count + String.length s)%nat, rest).
Proof.
  revert acc count. induction s as [|c s IH]; intros acc count Hd Hm Hr; simpl in *.
  - injection Hd as ->. rewrite Nat.add_0_r. destruct rest as [|c rest]; [done|]. simpl in *. by rewrite Hr.
  - rewrite to_digit_10. destruct (digit c) as [d|]; [|done]. rewrite decide_False by lia.
    rewrite IH by (done || lia). f_equal. f_equal. f_equal. lia.
Qed.

Lemma octets_texts :
  forallb (λ o, octet_text (show (Z.of_nat o))) (seq 0 256) = true.
Proof. vm_compute. reflexivity. Qed.

Lemma show_octet o : 0 ≤ o < 256 → octet_text (show o) = true.
Proof.
  intros Ho. pose proof (proj1 (forallb_forall _ _) octets_texts (Z.to_nat o)) as H.
  cbv beta in H. rewrite Z2Nat.id in H by lia. apply H, in_seq. lia.
Qed.

Lemma digits_show z : 0 ≤ z → digits (show z) 0 = Some z.
Proof. intros Hz. rewrite show_eq. destruct z; [done| |lia]. by rewrite digits_pretty_N. Qed.

Lemma starts_with_zero_app s rest : s ≠ EmptyString → starts_with (s +:+ rest) "0" = starts_with s "0".
Proof. destruct s as [|c s]; [done|]. simpl. by destruct s, rest. Qed.

Lemma read_octet o rest :
  0 ≤ o < 256 → ends_number rest → read_number 10 3 false 256 (show o +:+ rest) = Some (o, rest).
Proof.
  intros Ho Hr. pose proof (show_octet o Ho) as Ht. unfold octet_text in Ht.
  apply andb_true_iff in Ht as [Ht Hz]. apply andb_true_iff in Ht as [Hl _].
  apply bool_decide_eq_true in Hl. unfold read_number.
  rewrite (read_digits_app _ _ _ _ _ o) by first [apply digits_show; lia|lia|done]. simpl.
  rewrite decide_False by lia. rewrite starts_with_zero_app by apply show_nonempty.
  apply negb_true_iff in Hz. rewrite Hz. by rewrite decide_True by lia.
Qed.

Lemma read_more_octets l acc rest :
  Forall (λ o, 0 ≤ o < 256) l → ends_number rest →
  read_octets (length l) false acc (foldr (λ o s, String "." (show o) +:+ s) rest l) =
    Some (foldl (λ acc o, acc * 256 + o) acc l, rest).
Proof.
  intros Hl Hr. revert acc. induction Hl as [|o l Ho Hl IH]; intros acc; simpl; [done|].
  unfold read_separator. simpl. rewrite read_octet; [|done|]; [simpl; by rewrite IH|].
  destruct l; simpl; [done|]. reflexivity.
Qed.

Lemma read_first_octet s o rest :
  read_number 10 3 false 256 s = Some (o, rest) →
  read_octets 4 true 0 s = read_octets 3 false o rest.
Proof. intros E. simpl. unfold read_separator. by rewrite E. Qed.

Lemma octets_range a : Forall (λ o, 0 ≤ o < 256) (octets a).
Proof. repeat constructor; apply Z.mod_pos_bound; lia. Qed.

Lemma octets_value a : 0 ≤ a < 2 ^ 32 → foldl (λ acc o, acc * 256 + o) 0 (octets a) = a.
Proof. intros Ha. simpl. Z.div_mod_to_equations. lia. Qed.

(** Printing an IPv4 address and parsing the text gives the address back. *)
Lemma parse_show_v4 a : 0 ≤ a < 2 ^ 32 → parse_ip (show_v4 a) = Some (V4 a).
Proof.
  intros Ha. pose proof (octets_range a) as Hr. pose proof (octets_value a Ha) as Hv.
  unfold show_v4, parse_ip, read_ip_addr, read_ipv4_addr.
  destruct (octets a) as [|o l] eqn:E; [done|]. apply Forall_cons in Hr as [Ho Hl].
  assert (length l = 3)%nat as Hlen by (unfold octets in E; by injection E as <- <-).
  assert (join_with "." (show <$> o :: l) =
          show o +:+ foldr (λ o s, String "." (show o) +:+ s) EmptyString l) as ->.
  { clear. revert o. induction l as [|o' l IH]; intros o.
    - simpl. by rewrite string_app_nil_r.
    - rewrite !fmap_cons, join_with_cons, <-fmap_cons, IH. done. }
  rewrite (read_first_octet _ o (foldr (λ o s, String "." (show o) +:+ s) EmptyString l))
    by (apply read_octet; [done|by destruct l]).
  rewrite <-Hlen, read_more_octets by done.
  change (foldl (λ acc o, acc * 256 + o) 0 (o :: l)) with (foldl (λ acc o, acc * 256 + o) o l) in Hv.
  rewrite Hv. done.
Qed.

Lemma show_v4_no_slash a : lacks "/" (show_v4 a) = true.
Proof.
  unfold show_v4. assert (∀ o, lacks "/" (show o) = true) as Hs.
  { intros o. eapply lacks_class; [|apply show_numeric]. done. }
  unfold octets. simpl. rewrite !lacks_app, !Hs. simpl.
  repeat (apply lacks_cons; split; [done|]; rewrite ?lacks_app, ?Hs; simpl). done.
Qed.

Lemma parse_u8_show p : 0 ≤ p < 256 → parse_u8 (show p) = Some p.
Proof. intros Hp. unfold parse_u8. rewrite parse_u64_show by u64_lia. simpl. by rewrite decide_True by lia. Qed.

(** ** What an entry admits *)

Definition same_prefix (width p a b : Z) : Prop :=
  ∀ i, width - p ≤ i < width → Z.testbit a i = Z.testbit b i.

Definition in_network (net : IpAddr) (p : Z) (ip : IpAddr) : Prop :=
  match net, ip with
  | V4 a, V4 b => p ≤ 32 ∧ same_prefix 32 p a b
  | V6 a, V6 b => p ≤ 128 ∧ same_prefix 128 p a b
  | _, _ => False
  end.

Lemma parse_u8_range s p : parse_u8 s = Some p → 0 ≤ p < 256.
Proof.
  unfold parse_u8. destruct (parse_u64 s) as [n|] eqn:E; [simpl|done].
  destruct (decide (n < 256)); [|done]. intros [= <-]. split; [|done].
  unfold parse_u64 in E. assert (∀ t a, digits t a ≫= u64_range = Some n → 0 ≤ n) as Hr.
  { intros t a. unfold u64_range. destruct (digits t a); simpl; [|done].
    destruct (decide (is_u64 _)) as [[? _]|]; [|done]. by intros [= <-]. }
  destruct s as [|c s]; [done|].
  destruct (decide (c = "+"%char)); [destruct (decide (s = EmptyString)); [done|]|]; eauto.
Qed.

Lemma cidr_matches_spec network prefix ip :
  cidr_matches network prefix ip = true ↔
  ∃ p net, parse_u8 prefix = Some p ∧ parse_ip network = Some net ∧ in_network net p ip.
Proof.
  unfold cidr_matches. destruct (parse_u8 prefix) as [p|] eqn:Ep; [|naive_solver].
  apply parse_u8_range in Ep as Hp.
  destruct (parse_ip network) as [net|]; [|naive_solver].
  assert (match net, ip with
          | V4 net, V4 client => if decide (p > 32) then false else masked_eqb 32 p net client
          | V6 net, V6 client => if decide (p > 128) then false else masked_eqb 128 p net client
          | _, _ => false
          end = true ↔ in_network net p ip) as ->; [|naive_solver].
  destruct net, ip; simpl; try done.
  - destruct (decide (p > 32)); [split; [done|lia]|]. rewrite masked_eqb_spec by lia. unfold same_prefix.
    split; [split; [lia|done]|tauto].
  - destruct (decide (p > 128)); [split; [done|lia]|]. rewrite masked_eqb_spec by lia. unfold same_prefix.
    split; [split; [lia|done]|tauto].
Qed.

(** C26: an entry of an allow list admits exactly the addresses it means: an entry
    with a slash is a network and admits an address of the same family that agrees
    with it on the first [p] bits, with a prefix within the width of the family;
    an entry without is one address.  In particular the printed form of an IPv4
    network admits the IPv4 addresses of that network, and no others. *)
Theorem allowlist_entry_correct :
  (∀ entry ip, ip_allowlist_entry_matches entry ip = true ↔
     match split_once "/" entry with
     | Some (network, prefix) =>
         ∃ p net, parse_u8 prefix = Some p ∧ parse_ip network = Some net ∧ in_network net p ip
     | None => parse_ip entry = Some ip
     end) ∧
  (∀ net p ip, 0 ≤ net < 2 ^ 32 → 0 ≤ p < 256 →
     ip_allowlist_entry_matches (show_v4 net +:+ String "/" (show p)) ip = true ↔
       ∃ client, ip = V4 client ∧ p ≤ 32 ∧
         ∀ i, 32 - p ≤ i < 32 → Z.testbit net i = Z.testbit client i).
Proof.
  split.
  - intros entry ip. unfold ip_allowlist_entry_matches.
    destruct (split_once _ _) as [[network prefix]|]; [apply cidr_matches_spec|apply bool_decide_eq_true].
  - intros net p ip Hnet Hp. unfold ip_allowlist_entry_matches.
    rewrite split_once_app by apply show_v4_no_slash.
    rewrite cidr_matches_spec, parse_u8_show, parse_show_v4 by lia.
    split.
    + intros (p' & net' & [= <-] & [= <-] & Hin). destruct ip; [|done]. destruct Hin as [? Hin]. eauto.
    + intros (client & -> & ? & Hin). exists p, (V4 net). done.
Qed.

Lemma allowlist_entry_correct_witness :
  ip_allowlist_entry_matches "10.1.0.0/16" (V4 167837955) = true ∧
  ip_allowlist_entry_matches "10.1.0.0/16" (V4 167903491) = false.
Proof.
  pose proof (proj2 allowlist_entry_correct 167837696 16 (V4 167837955) ltac:(lia) ltac:(lia)) as H.
  split; [|reflexivity]. apply H. exists 167837955. split; [done|]. split; [lia|].
  intros i Hi. destruct (decide (i < 32)); [|lia].
  assert (i = 16 ∨ i = 17 ∨ i = 18 ∨ i = 19 ∨ i = 20 ∨ i = 21 ∨ i = 22 ∨ i = 23 ∨ i = 24 ∨
    i = 25 ∨ i = 26 ∨ i = 27 ∨ i = 28 ∨ i = 29 ∨ i = 30 ∨ i = 31) as Hc by lia.
  repeat destruct Hc as [->|Hc]; try reflexivity. by rewrite Hc.
Defined.
