(* ===== verification/Token.v ===== *)
(** * Tokens (auth/policy.rs, auth/token_secret.rs, auth/token_repository.rs)

    API tokens and their permissions, the policies an endpoint asks for, the
    salted hash under which a secret is stored, expiry, and the message a token is
    saved as.  SHA-256, the hexadecimal codec, the protobuf codec and the calendar
    type of chrono are not part of the repository: they are classes with the
    operations the code uses and classes with their documented laws. *)

From stdpp Require Import prelude gmap strings countable sorting.
From Stdlib Require Import Ascii ZArith Lia.
From S2P Require Import Prelude Bytes Collections Proto Text Split Pattern Ip.
Open Scope Z_scope.

(** ** Data (reduct_base/src/msg/token_api.rs)

    A [DateTime<Utc>] is a number of nanoseconds since the epoch. *)
Record Permissions := mkPermissions {
  full_access : bool;
  p_read : list string;
  p_write : list string
}.

Record Token := mkToken {
  t_name : string;
  t_value : string;
  t_created_at : Z;
  t_permissions : option Permissions;
  t_is_provisioned : bool;
  t_expires_at : option Z;
  t_ttl : option Z;
  t_last_access : option Z;
  t_ip_allowlist : list string;
  t_is_expired : bool
}.

Record TokenCreateRequest := mkTokenCreateRequest {
  q_permissions : Permissions;
  q_expires_at : option Z;
  q_ttl : option Z;
  q_ip_allowlist : list string
}.

Record TokenCreateResponse := mkTokenCreateResponse { tr_value : string; tr_created_at : Z }.

#[export] Instance Permissions_eq_dec : EqDecision Permissions.
Proof. solve_decision. Defined.
#[export] Instance Token_eq_dec : EqDecision Token.
Proof. solve_decision. Defined.

(** [Permissions::default()]. *)
Definition default_permissions : Permissions := mkPermissions false [] [].

Definition with_value (v : string) (t : Token) : Token :=
  mkToken (t_name t) v (t_created_at t) (t_permissions t) (t_is_provisioned t) (t_expires_at t)
    (t_ttl t) (t_last_access t) (t_ip_allowlist t) (t_is_expired t).
Definition with_last_access (a : option Z) (t : Token) : Token :=
  mkToken (t_name t) (t_value t) (t_created_at t) (t_permissions t) (t_is_provisioned t)
    (t_expires_at t) (t_ttl t) a (t_ip_allowlist t) (t_is_expired t).
Definition with_created_at (c : Z) (t : Token) : Token :=
  mkToken (t_name t) (t_value t) c (t_permissions t) (t_is_provisioned t) (t_expires_at t)
    (t_ttl t) (t_last_access t) (t_ip_allowlist t) (t_is_expired t).
Definition with_permissions (p : option Permissions) (t : Token) : Token :=
  mkToken (t_name t) (t_value t) (t_created_at t) p (t_is_provisioned t) (t_expires_at t)
    (t_ttl t) (t_last_access t) (t_ip_allowlist t) (t_is_expired t).

(** ** Policies (auth/policy.rs) *)

(** [check_bucket_permissions]: the loop over the names of a list. *)
Fixpoint check_bucket_permissions (token_list : list string) (bucket : string) : bool :=
  match token_list with
  | [] => false
  | token_bucket :: rest =>
      if decide (token_bucket = bucket) then true
      else if starts_with bucket "$" then check_bucket_permissions rest bucket
      else if ends_with token_bucket "*" &&
              starts_with bucket (String.substring 0 (String.length token_bucket - 1) token_bucket)
      then true
      else check_bucket_permissions rest bucket
  end.

Inductive Policy : Set :=
| AnonymousPolicy | AuthenticatedPolicy | FullAccessPolicy
| ReadAccessPolicy (bucket : string) | WriteAccessPolicy (bucket : string).

(** [Policy::validate] of the five policies. *)
Definition policy_validate (policy : Policy) (token : outcome Token) : outcome () :=
  match policy with
  | AnonymousPolicy => Ok tt
  | AuthenticatedPolicy => t ← token; Ok tt
  | FullAccessPolicy =>
      t ← token;
      if full_access (default default_permissions (t_permissions t)) then Ok tt else Err Forbidden
  | ReadAccessPolicy bucket =>
      t ← token;
      let permissions := default default_permissions (t_permissions t) in
      if full_access permissions then Ok tt
      else if check_bucket_permissions (p_read permissions) bucket then Ok tt else Err Forbidden
  | WriteAccessPolicy bucket =>
      t ← token;
      let permissions := default default_permissions (t_permissions t) in
      if full_access permissions then Ok tt
      else if check_bucket_permissions (p_write permissions) bucket then Ok tt else Err Forbidden
  end.

(** What a policy asks of a token. *)
Definition names_bucket (token_list : list string) (bucket : string) : Prop :=
  bucket ∈ token_list ∨
  (starts_with bucket "$" = false ∧ ∃ prefix suffix, (prefix +:+ "*") ∈ token_list ∧ bucket = prefix +:+ suffix).

Definition permits (policy : Policy) (t : Token) : Prop :=
  let permissions := default default_permissions (t_permissions t) in
  match policy with
  | AnonymousPolicy | AuthenticatedPolicy => True
  | FullAccessPolicy => full_access permissions = true
  | ReadAccessPolicy bucket => full_access permissions = true ∨ names_bucket (p_read permissions) bucket
  | WriteAccessPolicy bucket => full_access permissions = true ∨ names_bucket (p_write permissions) bucket
  end.

(** ** Secrets (auth/token_secret.rs) *)

(** [ring::digest] with [SHA256], [hex::encode] and [hex::decode]. *)
Class Secrets := {
  sha256 : list Z → list Z;
  hex_encode : list Z → string;
  hex_decode : string → option (list Z)
}.

Definition hex_digit (c : ascii) : bool := bool_decide (is_Some (to_digit 16 c)).

Class SecretsLaws `{Secrets} : Prop := {
  sha256_length d : length (sha256 d) = 32%nat;
  sha256_bytes d : Forall is_byte (sha256 d);
  hex_decode_encode l : Forall is_byte l → hex_decode (hex_encode l) = Some l;
  hex_encode_digits l : all_chars hex_digit (hex_encode l) = true
}.
Arguments SecretsLaws {_}.

Definition SHA256_PREFIX : string := "sha256:".
Definition SALT_LEN : nat := 16.
Definition HASH_LEN : nat := 32.

(** [str::as_bytes]. *)
Definition as_bytes (s : string) : list Z := byte <$> String.list_ascii_of_string s.

Definition is_hashed_token_secret (value : string) : bool := starts_with value SHA256_PREFIX.

Section Secrets.
Context `{Secrets}.

Definition salted_sha256 (candidate : string) (salt : list Z) : list Z :=
  sha256 (salt ++ as_bytes candidate).

(** [constant_time_eq]: the differences are accumulated, without an early exit. *)
Definition constant_time_eq (left right : list Z) : bool :=
  if decide (length left = length right) then
    bool_decide (foldl (λ diff ab, Z.lor diff (Z.lxor ab.1 ab.2)) 0 (zip left right) = 0)
  else false.

Definition verify_token_secret (stored candidate : string) : bool :=
  match strip_prefix SHA256_PREFIX stored with
  | None => bool_decide (stored = candidate)
  | Some encoded =>
      match split_once ":" encoded with
      | None => false
      | Some (salt_hex, hash_hex) =>
          match hex_decode salt_hex with
          | Some salt =>
              if decide (length salt = SALT_LEN) then
                match hex_decode hash_hex with
                | Some expected_hash =>
                    if decide (length expected_hash = HASH_LEN) then
                      constant_time_eq expected_hash (salted_sha256 candidate salt)
                    else false
                | None => false
                end
              else false
          | None => false
          end
      end
  end.

(** [hash_token_secret]; [salt] is what the system's random source gives, if it
    does not fail. *)
Definition hash_token_secret (salt : option (list Z)) (value : string) : outcome string :=
  salt ← ok_or InternalServerError salt;
  Ok (SHA256_PREFIX +:+ hex_encode salt +:+ ":" +:+ hex_encode (salted_sha256 value salt)).

Definition matched_hashed_token_secret (stored candidate : string) : option string :=
  if is_hashed_token_secret stored && verify_token_secret stored candidate then Some stored else None.

(** [TokenRepository::ensure_hashed_token_secret]: the token, and if it changed. *)
Definition ensure_hashed_token_secret (salt : option (list Z)) (t : Token) : outcome (Token * bool) :=
  if is_hashed_token_secret (t_value t) then Ok (t, false)
  else v ← hash_token_secret salt (t_value t); Ok (with_value v t, true).
End Secrets.

(** ** Bearer tokens, expiry, the allow list *)

Definition INIT_TOKEN_NAME : string := "init-token".
Definition SYSTEM_AUDIT_ENTRY_PREFIX : string := "audit".

(** [parse_bearer_token]. *)
Definition parse_bearer_token (authorization_header : string) : outcome string :=
  if starts_with authorization_header "Bearer " then Ok (drop_str 7 authorization_header)
  else Err Unauthorized.

(** What the code uses of chrono: [TimeDelta::num_seconds] of a difference,
    [DateTime::from_timestamp_micros], [timestamp], [timestamp_subsec_nanos], the
    latest time [DateTime::MAX_UTC], and the conversion from a [SystemTime] that is
    so many seconds and nanoseconds after the epoch, which panics when it is out of
    range. *)
Class Chrono := {
  num_seconds : Z → Z;
  from_timestamp_micros : Z → option Z;
  timestamp : Z → Z;
  timestamp_subsec_nanos : Z → Z;
  max_utc : Z;
  from_system_time : Z → Z → option Z
}.

(** A time between the epoch and the latest one. *)
Definition after_epoch `{Chrono} (t : Z) : Prop := 0 ≤ t ≤ max_utc.

(** Such a time is given back by its seconds and nanoseconds. *)
Class ChronoLaws `{Chrono} : Prop := {
  timestamp_range t : after_epoch t → 0 ≤ timestamp t < 2 ^ 63;
  subsec_nanos_range t : after_epoch t → 0 ≤ timestamp_subsec_nanos t < 2 ^ 31;
  from_system_time_timestamp t :
    after_epoch t → from_system_time (timestamp t) (timestamp_subsec_nanos t) = Some t
}.
Arguments ChronoLaws {_}.

Section Lifetime.
Context `{Chrono}.

(** [token_is_expired]; [ttl as i64] reinterprets the [u64]. *)
Definition token_is_expired (t : Token) (now : Z) : bool :=
  match t_expires_at t with Some expiry => bool_decide (expiry ≤ now) | None => false end ||
  match t_ttl t with
  | Some ttl =>
      let last_access := Z.max (default (t_created_at t) (t_last_access t)) (t_created_at t) in
      bool_decide (num_seconds (now - last_access) > i64_wrap ttl)
  | None => false
  end.

(** [check_token_lifetime]. *)
Definition check_token_lifetime (now : Z) (t : Token) : outcome () :=
  if token_is_expired t now then Err Unauthorized else Ok tt.

(** [check_token_ip_allowlist]. *)
Definition check_token_ip_allowlist (t : Token) (client_ip : option IpAddr) : outcome () :=
  if decide (t_ip_allowlist t = []) then Ok tt
  else
    client_ip ← ok_or Unauthorized client_ip;
    if existsb (λ entry, ip_allowlist_entry_matches entry client_ip) (t_ip_allowlist t) then Ok tt
    else Err Unauthorized.

(** [resolve_last_access_from_cache]: the latest record of the audit entries of
    the token, [audit/<instance>/<token>]. *)
Definition audit_entry_token (entry_name : string) : option string :=
  match split "/" entry_name with
  | [namespace; _; token] => if decide (namespace = SYSTEM_AUDIT_ENTRY_PREFIX) then Some token else None
  | _ => None
  end.

Definition opt_max (acc : option Z) (z : Z) : option Z :=
  Some (match acc with Some m => Z.max m z | None => z end).

Definition resolve_last_access_from_cache `{HashIter} (cache : gmap string Z) (token_name : string) : option Z :=
  latest ← foldl opt_max None
    (omap (λ et, if decide (audit_entry_token et.1 = Some token_name) then Some et.2 else None)
       (hash_iter cache));
  from_timestamp_micros (i64_wrap latest).
End Lifetime.

(** ** The saved form (proto/auth.proto) *)

Record TokenProto := mkTokenProto {
  tp_name : string;
  tp_value : string;
  tp_created_at : option Timestamp;
  tp_permissions : option Permissions;
  tp_is_provisioned : bool;
  tp_expires_at : option Timestamp;
  tp_ttl : Z;
  tp_ip_allowlist : list string
}.

(** [TokenRepo::encode] and [decode], generated by prost; encoding into a [Vec]
    does not fail. *)
Class TokenCodec := {
  encode_token_repo : list TokenProto → list Z;
  decode_token_repo : list Z → option (list TokenProto)
}.

Definition permissions_valid (p : Permissions) : Prop :=
  Forall (λ s, utf8 s = true) (p_read p) ∧ Forall (λ s, utf8 s = true) (p_write p).

(** Messages whose fields have the widths and the text of the generated structs. *)
Definition token_proto_valid (t : TokenProto) : Prop :=
  utf8 (tp_name t) = true ∧ utf8 (tp_value t) = true ∧
  (∀ ts, tp_created_at t = Some ts → ts_valid ts) ∧ (∀ ts, tp_expires_at t = Some ts → ts_valid ts) ∧
  (∀ p, tp_permissions t = Some p → permissions_valid p) ∧ is_u64 (tp_ttl t) ∧
  Forall (λ s, utf8 s = true) (tp_ip_allowlist t).

Class TokenCodecLaws `{TokenCodec} : Prop :=
  decode_encode_token_repo l : Forall token_proto_valid l → decode_token_repo (encode_token_repo l) = Some l.
Arguments TokenCodecLaws {_}.

Section Saved.
Context `{Chrono}.

Definition datetime_to_proto_timestamp (t : Z) : Timestamp :=
  mkTimestamp (timestamp t) (i32_wrap (timestamp_subsec_nanos t)).

(** [seconds as u64], [nanos as u32]; seconds before the epoch are too many for
    the addition to [UNIX_EPOCH]. *)
Definition proto_timestamp_to_datetime (ts : Timestamp) : outcome Z :=
  let secs := u64_wrap (seconds ts) in
  let nanos := nanos ts mod 2 ^ 32 in
  if decide (secs < 2 ^ 63) then unwrap (from_system_time secs nanos) else Panic.

(** [From<Token> for proto::Token]. *)
Definition token_to_proto (t : Token) : TokenProto :=
  mkTokenProto (t_name t) (t_value t) (Some (datetime_to_proto_timestamp (t_created_at t)))
    (t_permissions t) (t_is_provisioned t) (datetime_to_proto_timestamp <$> t_expires_at t)
    (default 0 (t_ttl t)) (t_ip_allowlist t).

(** [Into<Token> for proto::Token]. *)
Definition token_from_proto (now : Z) (p : TokenProto) : outcome Token :=
  created_at ← match tp_created_at p with
               | None => Ok now
               | Some ts => proto_timestamp_to_datetime ts
               end;
  expires_at ← match tp_expires_at p with
               | None => Ok None
               | Some ts => Some <$> proto_timestamp_to_datetime ts
               end;
  Ok (mkToken (tp_name p) (tp_value p) created_at (tp_permissions p) (tp_is_provisioned p) expires_at
        (if decide (tp_ttl p = 0) then None else Some (tp_ttl p)) None (tp_ip_allowlist p) false).
End Saved.

(** ** Policies grant what they ask for *)

Lemma substring_front s p n : String.length s = n → String.substring 0 n (s +:+ p) = s.
Proof. intros <-. induction s as [|c s IH]; simpl; [by destruct p|by rewrite IH]. Qed.

Lemma wildcard_iff token_bucket bucket :
  ends_with token_bucket "*" && starts_with bucket (String.substring 0 (String.length token_bucket - 1) token_bucket) = true
  ↔ ∃ prefix suffix, token_bucket = prefix +:+ "*" ∧ bucket = prefix +:+ suffix.
Proof.
  rewrite andb_true_iff, ends_with_iff. split.
  - intros [[front ->] Hs]. rewrite string_length_app in Hs. simpl in Hs.
    rewrite substring_front in Hs by lia. apply starts_with_iff in Hs as [rest ->]. eauto.
  - intros (prefix & suffix & -> & ->). split; [by eexists|].
    rewrite string_length_app. simpl. rewrite substring_front by lia. apply starts_with_app.
Qed.

Lemma check_bucket_permissions_spec token_list bucket :
  check_bucket_permissions token_list bucket = true ↔ names_bucket token_list bucket.
Proof.
  unfold names_bucket. induction token_list as [|tb rest IH]; simpl; [set_solver|].
  destruct (decide (tb = bucket)) as [->|Hne]; [set_solver|].
  destruct (starts_with bucket "$") eqn:Ed.
  { rewrite IH. set_solver. }
  destruct (ends_with _ _ && _) eqn:Ew.
  - apply wildcard_iff in Ew as (prefix & suffix & -> & ->). split; [|done]. intros _. right.
    split; [done|]. exists prefix, suffix. set_solver.
  - rewrite IH. split; [set_solver|]. intros [Hin|(_ & prefix & suffix & Hin & ->)]; [set_solver|].
    apply elem_of_cons in Hin as [<-|Hin]; [|naive_solver].
    exfalso. apply not_true_iff_false in Ew. apply Ew, wildcard_iff. eauto.
Qed.

(** A policy passes a valid token that has the permission, refuses one that does
    not as forbidden, and passes on the error of an invalid one; only the
    anonymous policy ignores it. *)
Lemma policy_validate_ok policy t : policy_validate policy (Ok t) = Ok tt ↔ permits policy t.
Proof.
  destruct policy as [| | |bucket|bucket]; simpl; try done.
  - by destruct (full_access _).
  - rewrite <-check_bucket_permissions_spec. destruct (full_access _), (check_bucket_permissions _ _); simpl; naive_solver.
  - rewrite <-check_bucket_permissions_spec. destruct (full_access _), (check_bucket_permissions _ _); simpl; naive_solver.
Qed.

Lemma policy_validate_err policy e :
  policy ≠ AnonymousPolicy → policy_validate policy (Err e) = Err e.
Proof. by destruct policy. Qed.

(** ** Secrets are verified against their hash *)

Lemma lor_eq_0 a b : Z.lor a b = 0 ↔ a = 0 ∧ b = 0.
Proof. apply Z.lor_eq_0_iff. Qed.

Lemma fold_diff l diff :
  foldl (λ diff (ab : Z * Z), Z.lor diff (Z.lxor ab.1 ab.2)) diff l = 0 ↔
  diff = 0 ∧ Forall (λ ab, ab.1 = ab.2) l.
Proof.
  revert diff. induction l as [|[a b] l IH]; intros diff; simpl; [split; [by intros ->|tauto]|].
  rewrite IH, Forall_cons, lor_eq_0. simpl. rewrite Z.lxor_eq_0_iff. tauto.
Qed.

(** The comparison that does not exit early decides equality. *)
Lemma constant_time_eq_spec left right : constant_time_eq left right = bool_decide (left = right).
Proof.
  unfold constant_time_eq. case_decide as Hl; [|symmetry; apply bool_decide_eq_false; congruence].
  apply bool_decide_ext. rewrite fold_diff. split; [intros [_ Hf]|intros ->; split; [done|]].
  - revert right Hl Hf. induction left as [|a left IH]; intros [|b right] Hl Hf; try done.
    simpl in *. apply Forall_cons in Hf as [Hab Hf]. simpl in Hab. rewrite Hab. f_equal. apply IH; [lia|done].
  - clear Hl. induction right; simpl; by repeat constructor.
Qed.

Section SecretsLaws.
Context `{SecretsLaws}.

Lemma strip_prefix_app p s : strip_prefix p (p +:+ s) = Some s.
Proof. induction p as [|c p IH]; simpl; [done|]. by rewrite decide_True. Qed.

Lemma hash_is_hashed salt v h : hash_token_secret salt v = Ok h → is_hashed_token_secret h = true.
Proof.
  unfold hash_token_secret. destruct salt as [salt|]; simpl; [|done]. intros [= <-]. apply starts_with_iff. eauto.
Qed.

(** What is stored for a secret admits exactly the texts with the same salted
    digest, so the secret itself. *)
Lemma verify_hash salt v h candidate :
  length salt = SALT_LEN → Forall is_byte salt → hash_token_secret (Some salt) v = Ok h →
  verify_token_secret h candidate = bool_decide (salted_sha256 v salt = salted_sha256 candidate salt).
Proof.
  intros Hl Hb Hh. assert (h = SHA256_PREFIX +:+ (hex_encode salt +:+ String ":" (hex_encode (salted_sha256 v salt)))) as ->.
  { by injection Hh as <-. }
  unfold verify_token_secret. rewrite strip_prefix_app.
  rewrite split_once_app by (eapply lacks_class, hex_encode_digits; done).
  rewrite hex_decode_encode, decide_True, hex_decode_encode, decide_True by
    (done || apply sha256_bytes || apply sha256_length).
  apply constant_time_eq_spec.
Qed.

Lemma verify_own_secret salt v h :
  length salt = SALT_LEN → Forall is_byte salt → hash_token_secret (Some salt) v = Ok h →
  verify_token_secret h v = true.
Proof. intros ???. erewrite verify_hash by done. by apply bool_decide_eq_true. Qed.
End SecretsLaws.

(** ** The saved form keeps the token *)

Section SavedLaws.
Context `{ChronoLaws}.

(** What a restart gives back: the times of use and the computed marker are not
    saved, and a lifetime of zero is none. *)
Definition persisted (t : Token) : Token :=
  mkToken (t_name t) (t_value t) (t_created_at t) (t_permissions t) (t_is_provisioned t)
    (t_expires_at t) (t_ttl t ≫= λ ttl, if decide (ttl = 0) then None else Some ttl)
    None (t_ip_allowlist t) false.

Definition token_ok (t : Token) : Prop :=
  utf8 (t_name t) = true ∧ utf8 (t_value t) = true ∧ after_epoch (t_created_at t) ∧
  (∀ x, t_expires_at t = Some x → after_epoch x) ∧ (∀ n, t_ttl t = Some n → is_u64 n) ∧
  (∀ p, t_permissions t = Some p → permissions_valid p) ∧
  Forall (λ s, utf8 s = true) (t_ip_allowlist t).

Lemma datetime_roundtrip t :
  after_epoch t → proto_timestamp_to_datetime (datetime_to_proto_timestamp t) = Ok t.
Proof.
  intros Ht. unfold proto_timestamp_to_datetime, datetime_to_proto_timestamp. simpl.
  pose proof (timestamp_range t Ht). pose proof (subsec_nanos_range t Ht).
  rewrite u64_wrap_small by u64_lia. rewrite decide_True by lia.
  assert (i32_wrap (timestamp_subsec_nanos t) = timestamp_subsec_nanos t) as ->.
  { unfold i32_wrap. rewrite Z.mod_small by lia. lia. }
  rewrite Z.mod_small by lia. by rewrite from_system_time_timestamp.
Qed.

Lemma datetime_valid t : after_epoch t → ts_valid (datetime_to_proto_timestamp t).
Proof.
  intros Ht. pose proof (timestamp_range t Ht). pose proof (subsec_nanos_range t Ht).
  unfold ts_valid, datetime_to_proto_timestamp, i32_wrap; simpl. rewrite Z.mod_small by lia. u64_lia.
Qed.

Lemma token_proto_roundtrip now t :
  token_ok t → token_from_proto now (token_to_proto t) = Ok (persisted t).
Proof.
  intros (_ & _ & Hc & He & _). unfold token_from_proto, token_to_proto, persisted. simpl.
  rewrite datetime_roundtrip by done. simpl.
  assert (match datetime_to_proto_timestamp <$> t_expires_at t with
          | Some ts => Some <$> proto_timestamp_to_datetime ts
          | None => Ok None
          end = Ok (t_expires_at t)) as ->.
  { destruct (t_expires_at t) as [x|]; [|done]. simpl. by rewrite datetime_roundtrip by auto. }
  simpl. do 2 f_equal. destruct (t_ttl t) as [n|]; done.
Qed.

Lemma token_proto_ok t : token_ok t → token_proto_valid (token_to_proto t).
Proof.
  intros (Hn & Hv & Hc & He & Ht & Hp & Hi). unfold token_proto_valid, token_to_proto. simpl.
  split_and!; try done.
  - intros ts [= <-]. by apply datetime_valid.
  - intros ts (x & Hx & ->)%fmap_Some. auto using datetime_valid.
  - destruct (t_ttl t) as [n|]; simpl; [auto|]. u64_lia.
Qed.

Lemma persisted_ok t : token_ok t → token_ok (persisted t).
Proof.
  intros (? & ? & ? & ? & Ht & ? & ?). unfold persisted, token_ok. simpl. split_and!; try done.
  intros n. destruct (t_ttl t) as [m|]; simpl; [|done]. case_decide; [done|]. intros [= <-]. auto.
Qed.

Lemma persisted_idem t : persisted (persisted t) = persisted t.
Proof.
  unfold persisted. simpl. f_equal. destruct (t_ttl t) as [n|]; simpl; [|done].
  destruct (decide (n = 0)); simpl; [done|]. by rewrite decide_False.
Qed.
End SavedLaws.

(** ** Instances used to evaluate the model

    Hexadecimal text and the calendar as they are documented; a digest that adds
    the bytes up and a codec of any countable type, which stand for SHA-256 and for
    the generated code. *)
Module ToyAuth.
Import Toy.
Definition digit_char (d : Z) : ascii := ascii_of_N (Z.to_N (if decide (d < 10) then 48 + d else 87 + d)).

Fixpoint hex (l : list Z) : string :=
  match l with
  | [] => EmptyString
  | b :: l' => String (digit_char (b / 16 mod 16)) (String (digit_char (b mod 16)) (hex l'))
  end.

Fixpoint unhex (s : string) : option (list Z) :=
  match s with
  | EmptyString => Some []
  | String c1 (String c2 s') =>
      d1 ← to_digit 16 c1; d2 ← to_digit 16 c2; l ← unhex s'; Some (d1 * 16 + d2 :: l)
  | String _ EmptyString => None
  end.

Lemma to_digit_char d : 0 ≤ d < 16 → to_digit 16 (digit_char d) = Some d.
Proof.
  intros Hd. assert (d = 0 ∨ d = 1 ∨ d = 2 ∨ d = 3 ∨ d = 4 ∨ d = 5 ∨ d = 6 ∨ d = 7 ∨ d = 8 ∨ d = 9 ∨ d = 10 ∨
    d = 11 ∨ d = 12 ∨ d = 13 ∨ d = 14 ∨ d = 15) as Hc by lia.
  repeat destruct Hc as [->|Hc]; try reflexivity. by rewrite Hc.
Qed.

Lemma unhex_hex l : Forall is_byte l → unhex (hex l) = Some l.
Proof.
  induction 1 as [|b l Hb _ IH]; [done|]. simpl. unfold is_byte in Hb.
  rewrite !to_digit_char by (apply Z.mod_pos_bound; lia). simpl. rewrite IH. simpl. do 2 f_equal.
  rewrite (Z.mod_small (b / 16)) by (split; [apply Z.div_pos|apply Z.div_lt_upper_bound]; lia).
  pose proof (Z.div_mod b 16). lia.
Qed.

Lemma hex_digits l : all_chars hex_digit (hex l) = true.
Proof.
  induction l as [|b l IH]; [done|]. simpl. rewrite IH. unfold hex_digit.
  rewrite !bool_decide_eq_true_2; [done|eexists; apply to_digit_char, Z.mod_pos_bound; lia..].
Qed.

Definition mix (d : list Z) : list Z :=
  (λ i, (foldl (λ acc b, acc * 31 + b) 7 d + Z.of_nat i) mod 256) <$> seq 0 32.

Definition secrets : Secrets := {| sha256 := mix; hex_encode := hex; hex_decode := unhex |}.
Definition secrets_laws : @SecretsLaws secrets.
Proof.
  split; simpl.
  - done.
  - intros d. apply Forall_fmap, Forall_forall. intros i _. apply Z.mod_pos_bound. lia.
  - apply unhex_hex.
  - apply hex_digits.
Qed.

Definition chrono : Chrono := {|
  num_seconds := λ d, Z.quot d 1000000000;
  from_timestamp_micros := λ us, if decide (us * 1000 ≤ 8210266876799999999999) then Some (us * 1000) else None;
  timestamp := λ t, t / 1000000000;
  timestamp_subsec_nanos := λ t, t mod 1000000000;
  max_utc := 8210266876799999999999;
  from_system_time := λ s n, Some (s * 1000000000 + n)
|}.
Definition chrono_laws : @ChronoLaws chrono.
Proof.
  split; unfold after_epoch; simpl; intros t Ht.
  - split; [apply Z.div_pos|apply Z.div_lt_upper_bound]; lia.
  - pose proof (Z.mod_pos_bound t 1000000000). lia.
  - f_equal. pose proof (Z.div_mod t 1000000000). lia.
Qed.

#[export] Instance Permissions_countable : Countable Permissions.
Proof.
  refine (inj_countable' (λ p, (full_access p, p_read p, p_write p)) (λ '(f, r, w), mkPermissions f r w) _).
  by intros [].
Defined.
#[export] Instance TokenProto_eq_dec : EqDecision TokenProto.
Proof. solve_decision. Defined.
#[export] Instance TokenProto_countable : Countable TokenProto.
Proof.
  refine (inj_countable'
    (λ t, (tp_name t, tp_value t, tp_created_at t, tp_permissions t, tp_is_provisioned t, tp_expires_at t, tp_ttl t, tp_ip_allowlist t))
    (λ '(n, v, c, p, i, x, l, a), mkTokenProto n v c p i x l a) _).
  by intros [].
Defined.

Definition codec : TokenCodec := {| encode_token_repo := Toy.enc; decode_token_repo := Toy.dec |}.
Definition codec_laws : @TokenCodecLaws codec.
Proof. intros l _. apply Toy.dec_enc. Qed.
End ToyAuth.
