(* ===== verification/TokenRepository.v ===== *)
(** * The token repository (auth/token_repository/repo.rs, read_only.rs, disabled.rs)

    The tokens of the server, the file they are saved to, the cache of tokens that
    were authenticated, and the times of last use taken from the audit log.  The
    repository of a replica reads the same file and refreshes it; the third one is
    used when authentication is disabled.  What a call reads from its surroundings
    (clocks, random numbers, the audit bucket, the results of the file operations)
    is an argument. *)

From stdpp Require Import prelude gmap strings sorting.
From Stdlib Require Import Ascii ZArith Lia.
From S2P Require Import Prelude Bytes Collections Proto Cache Entry Text Split Pattern Ip Token.
Open Scope Z_scope.

(** ** The surroundings of a call *)

(** What [get_bucket] and [info] of the system bucket answer. *)
Inductive SystemBucket : Type :=
| BucketNotFound
| BucketFailed
| InfoFailed
| BucketEntries (entries : list (string * EntryInfo)).

(** Where the file operations of [save_repo] stop; [n] bytes of the file are
    written when [write_all] fails. *)
Inductive SaveIo : Set :=
| OpenFails (e : ErrorCode)
| SetLenFails (e : ErrorCode)
| WriteFails (n : nat) (e : ErrorCode)
| SyncFails (e : ErrorCode)
| Saved.

Record Env := mkEnv {
  e_now : Z;                           (* [Utc::now()] *)
  e_created : Z;                       (* [DateTime::from(SystemTime::now())] *)
  e_instant : Z;                       (* [Instant::now()], in nanoseconds *)
  e_cache_time : Z;                    (* the clock of the cache, as in [cache_insert] *)
  e_cache_scan : string → Z;
  e_bucket : SystemBucket;
  e_digits : list Z;                   (* the 32 random digits of a new secret *)
  e_salt : option (list Z);            (* the salt, when the random source does not fail *)
  e_salts : string → option (list Z);  (* the salts of the secrets found on disk, by name *)
  e_disk : SaveIo;
  e_backend : outcome (option (list Z)) (* the file as a replica reads it *)
}.

(** ** State *)

Record TokenRepository := mkTokenRepository {
  tr_repo : gmap string Token;
  tr_has_storage : bool;
  tr_last_access_cache : gmap string Z;
  tr_last_access_cache_updated_at : option Z;
  tr_auth_cache : Cache string Token;
  tr_file : option (list Z)
}.

Definition with_repo (r : gmap string Token) (s : TokenRepository) : TokenRepository :=
  mkTokenRepository r (tr_has_storage s) (tr_last_access_cache s) (tr_last_access_cache_updated_at s)
    (tr_auth_cache s) (tr_file s).
Definition with_access (c : gmap string Z) (u : option Z) (s : TokenRepository) : TokenRepository :=
  mkTokenRepository (tr_repo s) (tr_has_storage s) c u (tr_auth_cache s) (tr_file s).
Definition with_auth_cache (c : Cache string Token) (s : TokenRepository) : TokenRepository :=
  mkTokenRepository (tr_repo s) (tr_has_storage s) (tr_last_access_cache s)
    (tr_last_access_cache_updated_at s) c (tr_file s).
Definition with_file (f : option (list Z)) (s : TokenRepository) : TokenRepository :=
  mkTokenRepository (tr_repo s) (tr_has_storage s) (tr_last_access_cache s)
    (tr_last_access_cache_updated_at s) (tr_auth_cache s) f.

Definition AUTH_CACHE_SIZE : Z := 1024.
(** [Duration::MAX], in nanoseconds. *)
Definition AUTH_CACHE_TTL : Z := (two64 - 1) * 1000000000 + 999999999.
Definition TOKEN_LAST_ACCESS_CACHE_TTL : Z := 10 * 1000000000.

(** [ApiToken] (cfg.rs). *)
Inductive ApiToken : Set := NoToken | Provisioned (token : string) | Initialized (token : string).
Definition api_token_str (a : ApiToken) : string :=
  match a with NoToken => EmptyString | Provisioned t | Initialized t => t end.

Section Repository.
Context `{HashIter, Secrets, Chrono, TokenCodec}.

(** ** Times of last use *)

Definition audit_times (entries : list (string * EntryInfo)) : gmap string Z :=
  foldl (λ m ne, <[ne.1 := ei_latest_record ne.2]> m) ∅
    (filter (λ ne : string * EntryInfo, ei_record_count ne.2 > 0 ∧
       starts_with ne.1 (SYSTEM_AUDIT_ENTRY_PREFIX +:+ "/") = true) entries).

(** [refresh_last_access_cache_if_needed], on the cached times and the moment
    they were read; [source] tells if there is a store to ask. *)
Definition refreshed (e : Env) (source : bool) (cache : gmap string Z) (updated_at : option Z) :
  gmap string Z * option Z :=
  let fresh := match updated_at with
               | Some ts => bool_decide (Z.max 0 (e_instant e - ts) < TOKEN_LAST_ACCESS_CACHE_TTL)
               | None => false
               end in
  if fresh then (cache, updated_at)
  else if negb source then (cache, updated_at)
  else match e_bucket e with
       | BucketNotFound => (∅, Some (e_instant e))
       | BucketFailed | InfoFailed => (cache, updated_at)
       | BucketEntries entries => (audit_times entries, Some (e_instant e))
       end.

Definition refresh_last_access_cache_if_needed (e : Env) (s : TokenRepository) : TokenRepository :=
  let '(cache, updated_at) :=
    refreshed e (tr_has_storage s) (tr_last_access_cache s) (tr_last_access_cache_updated_at s) in
  with_access cache updated_at s.

(** [populate_token_last_access]. *)
Definition populate_token_last_access (e : Env) (t : Token) : ST TokenRepository Token := λ s,
  let s' := refresh_last_access_cache_if_needed e s in
  (Ok (with_last_access (resolve_last_access_from_cache (tr_last_access_cache s') (t_name t)) t), s').

(** ** Saving and loading *)

(** [save_repo]. *)
Definition save_repo (io : SaveIo) : ST TokenRepository () := λ s,
  let buf := encode_token_repo (token_to_proto <$> (hash_iter (tr_repo s)).*2) in
  match io with
  | OpenFails e => (Err e, s)
  | SetLenFails e => (Err e, with_file (Some (default [] (tr_file s))) s)
  | WriteFails n e => (Err e, with_file (Some (take n buf)) s)
  | SyncFails e => (Err e, with_file (Some buf) s)
  | Saved => (Ok tt, with_file (Some buf) s)
  end.

Definition clear_auth_cache : ST TokenRepository () :=
  st_modify (λ s, with_auth_cache (cache_clear (tr_auth_cache s)) s).

(** The loop over the tokens of the file. *)
Fixpoint load_tokens (now : Z) (tokens : list TokenProto) (repo : gmap string Token) :
  outcome (gmap string Token) :=
  match tokens with
  | [] => Ok repo
  | p :: rest => t ← token_from_proto now p; load_tokens now rest (<[tp_name p := t]> repo)
  end.

(** The loop that hashes the secrets still in plain text. *)
Fixpoint hash_secrets (salts : string → option (list Z)) (tokens : list (string * Token))
  (repo : gmap string Token) (changed : bool) : outcome (gmap string Token * bool) :=
  match tokens with
  | [] => Ok (repo, changed)
  | (name, t) :: rest =>
      match ensure_hashed_token_secret (salts name) t with
      | Ok (t', c) => hash_secrets salts rest (<[name := t']> repo) (changed || c)
      | _ => Panic
      end
  end.

(** The token that [TokenRepository::new] adds for the configured secret. *)
Definition init_token (e : Env) (api_token : ApiToken) (existing : option Token) : outcome Token :=
  value ← match (t ← existing; matched_hashed_token_secret (t_value t) (api_token_str api_token)) with
          | Some secret => Ok secret
          | None => match hash_token_secret (e_salt e) (api_token_str api_token) with
                    | Ok h => Ok h
                    | _ => Panic
                    end
          end;
  Ok (mkToken INIT_TOKEN_NAME value (from_option t_created_at (e_created e) existing)
        (Some (mkPermissions true [] [])) match api_token with Provisioned _ => true | _ => false end
        None None None [] false).

Definition should_initialize_token (api_token : ApiToken) (existing : option Token) : bool :=
  match api_token with
  | NoToken => false
  | Provisioned _ => true
  | Initialized _ => from_option t_is_provisioned true existing
  end.

(** An [expect] turns an error into a panic. *)
Definition expect {A} (m : ST TokenRepository A) : ST TokenRepository A := λ s,
  match m s with (Err _, s') => (Panic, s') | r => r end.

(** [TokenRepository::new], on a repository that has nothing but the file of an
    earlier run; [create_io] is the saving of a new file. *)
Definition blank (has_storage : bool) (file : option (list Z)) : TokenRepository :=
  mkTokenRepository ∅ has_storage ∅ None (cache_new AUTH_CACHE_SIZE AUTH_CACHE_TTL) file.

Definition load_or_create (e : Env) (create_io : SaveIo) : ST TokenRepository () :=
  s ← st_get;
  match tr_file s with
  | Some buf =>
      tokens ← st_lift (unwrap (decode_token_repo buf));
      repo ← st_lift (load_tokens (e_now e) tokens ∅);
      st_modify (with_repo repo)
  | None => expect (save_repo create_io)
  end.

Definition initialize_tokens (e : Env) (api_token : ApiToken) : ST TokenRepository () :=
  s ← st_get;
  hashed ← st_lift (hash_secrets (e_salts e) (hash_iter (tr_repo s)) (tr_repo s) false);
  _ ← st_modify (with_repo hashed.1);
  let existing := hashed.1 !! INIT_TOKEN_NAME in
  changed ← (if should_initialize_token api_token existing then
               t ← st_lift (init_token e api_token existing);
               _ ← st_modify (λ s, with_repo (<[INIT_TOKEN_NAME := t]> (tr_repo s)) s);
               mret (hashed.2 || match api_token with Initialized _ => true | _ => false end)
             else mret hashed.2);
  if (changed : bool) then expect (save_repo (e_disk e)) else mret tt.

Definition token_repository_new (e : Env) (create_io : SaveIo) (api_token : ApiToken) : ST TokenRepository () :=
  _ ← load_or_create e create_io; initialize_tokens e api_token.

(** ** Operations *)

(** [permission_regex]: [^[*a-zA-Z0-9_\-]+$]. *)
Definition permission_char (c : ascii) : bool :=
  let n := byte c in
  bool_decide (65 ≤ n ≤ 90 ∨ 97 ≤ n ≤ 122 ∨ 48 ≤ n ≤ 57) ||
  bool_decide (c = "*"%char ∨ c = "_"%char ∨ c = "-"%char).
Definition permission_ok (entry : string) : bool :=
  starts_with entry "$" || (bool_decide (entry ≠ EmptyString) && all_chars permission_char entry).

(** [format!("{:x}", d)] of a random digit. *)
Definition hex_char (d : Z) : string :=
  String (ascii_of_N (Z.to_N (if decide (d < 10) then 48 + d else 87 + d))) EmptyString.
Definition new_secret (name : string) (digits : list Z) : string :=
  name +:+ "-" +:+ foldr (λ d s, hex_char d +:+ s) EmptyString digits.

(** [generate_token]. *)
Definition generate_token (e : Env) (name : string) (request : TokenCreateRequest) :
  ST TokenRepository TokenCreateResponse :=
  s ← st_get;
  if decide (name = EmptyString) then st_throw UnprocessableEntity
  else if decide (is_Some (tr_repo s !! name)) then st_throw Conflict
  else if negb (forallb permission_ok (p_read (q_permissions request) ++ p_write (q_permissions request)))
  then st_throw UnprocessableEntity
  else if decide (q_ttl request = Some 0) then st_throw UnprocessableEntity
  else if match q_expires_at request with Some x => bool_decide (x < e_created e) | None => false end
  then st_throw UnprocessableEntity
  else
    let value := new_secret name (e_digits e) in
    secret ← st_lift (hash_token_secret (e_salt e) value);
    let token := mkToken name secret (e_created e) (Some (q_permissions request)) false
                   (q_expires_at request) (q_ttl request) None (q_ip_allowlist request) false in
    _ ← st_modify (λ s, with_repo (<[name := token]> (tr_repo s)) s);
    _ ← save_repo (e_disk e);
    _ ← clear_auth_cache;
    mret (mkTokenCreateResponse value (e_created e)).

(** [AccessTokens::get_token] and [get_token_list]: the values are left out. *)
Definition access_get_token (repo : gmap string Token) (name : string) : outcome Token :=
  ok_or NotFound (repo !! name).
Definition name_le (a b : string * Token) : Prop := str_cmp a.1 b.1 ≠ Gt.
#[export] Instance name_le_dec : RelDecision name_le.
Proof. intros a b. unfold name_le. apply _. Defined.
Definition access_get_token_list (repo : gmap string Token) : list Token :=
  (λ item, with_value EmptyString item.2) <$> merge_sort name_le (hash_iter repo).

(** [get_token] and [get_token_with_last_access]. *)
Definition get_token (name : string) : ST TokenRepository Token :=
  s ← st_get; st_lift (access_get_token (tr_repo s) name).
Definition get_token_with_last_access (e : Env) (name : string) : ST TokenRepository Token :=
  t ← get_token name; populate_token_last_access e t.

(** [get_token_list] and [get_token_list_with_last_access]; [envs] are the
    surroundings of the turn for a token. *)
Definition get_token_list : ST TokenRepository (list Token) :=
  s ← st_get; mret (access_get_token_list (tr_repo s)).
Fixpoint populate_all (envs : string → Env) (tokens : list Token) : ST TokenRepository (list Token) :=
  match tokens with
  | [] => mret []
  | t :: rest =>
      t' ← populate_token_last_access (envs (t_name t)) t;
      rest' ← populate_all envs rest;
      mret (t' :: rest')
  end.
Definition get_token_list_with_last_access (envs : string → Env) : ST TokenRepository (list Token) :=
  tokens ← get_token_list; populate_all envs tokens.

(** [update_token]. *)
Definition update_token (e : Env) (token : Token) : ST TokenRepository () :=
  s ← st_get;
  if decide (is_Some (tr_repo s !! t_name token)) then
    hashed ← st_lift (ensure_hashed_token_secret (e_salt e) token);
    _ ← st_modify (λ s, with_repo (<[t_name token := hashed.1]> (tr_repo s)) s);
    _ ← save_repo (e_disk e);
    clear_auth_cache
  else st_throw NotFound.

(** [if token.ttl.is_some() { self.populate_token_last_access(&mut token) }]. *)
Definition populate_if_ttl (e : Env) (t : Token) : ST TokenRepository Token :=
  match t_ttl t with Some _ => populate_token_last_access e t | None => mret t end.

(** Lifetime, then allow list. *)
Definition check_token (e : Env) (client_ip : option IpAddr) (t : Token) : outcome () :=
  _ ← check_token_lifetime (e_now e) t; check_token_ip_allowlist t client_ip.

Definition find_by_secret (repo : gmap string Token) (value : string) : option Token :=
  List.find (λ t, verify_token_secret (t_value t) value) (hash_iter repo).*2.

(** [validate_token]: when the secret is in the cache, and when it is not. *)
Definition validate_cached (e : Env) (client_ip : option IpAddr) (value : string) (token : Token) :
  ST TokenRepository Token :=
  token ← populate_if_ttl e token;
  match check_token e client_ip token with
  | Ok _ => mret token
  | Err err =>
      _ ← st_modify (λ s, with_auth_cache (cache_remove value (tr_auth_cache s)).2 s);
      st_throw err
  | Panic => st_lift Panic
  end.

Definition validate_uncached (e : Env) (client_ip : option IpAddr) (value : string) : ST TokenRepository Token :=
  s ← st_get;
  token ← st_lift (ok_or Unauthorized (find_by_secret (tr_repo s) value));
  token ← populate_if_ttl e token;
  _ ← st_lift (check_token e client_ip token);
  s ← st_get;
  inserted ← st_lift (cache_insert (e_cache_time e) (e_cache_scan e) value token (tr_auth_cache s));
  _ ← st_modify (with_auth_cache inserted.2);
  mret token.

Definition validate_token (e : Env) (header : option string) (client_ip : option IpAddr) :
  ST TokenRepository Token :=
  value ← st_lift (parse_bearer_token (default EmptyString header));
  s ← st_get;
  let '(hit, cache) := cache_get (e_cache_time e) value (tr_auth_cache s) in
  _ ← st_modify (with_auth_cache cache);
  match hit with
  | Some token => validate_cached e client_ip value token
  | None => validate_uncached e client_ip value
  end.

(** [validate_token_with_last_access]. *)
Definition validate_token_with_last_access (e : Env) (header : option string) (client_ip : option IpAddr) :
  ST TokenRepository Token :=
  token ← validate_token e header client_ip; populate_token_last_access e token.

Definition has_full_access (t : Token) : bool := from_option full_access false (t_permissions t).

(** [remove_token]. *)
Definition remove_token (e : Env) (name : string) : ST TokenRepository () :=
  s ← st_get;
  match tr_repo s !! name with
  | None => st_throw NotFound
  | Some token =>
      if t_is_provisioned token then st_throw Conflict
      else if has_full_access token &&
              bool_decide (length (filter (λ t, has_full_access t = true) (hash_iter (tr_repo s)).*2) = 1%nat)
      then st_throw Conflict
      else
        _ ← st_modify (λ s, with_repo (delete name (tr_repo s)) s);
        _ ← save_repo (e_disk e);
        clear_auth_cache
  end.

(** [rotate_token]. *)
Definition rotate_token (e : Env) (name : string) : ST TokenRepository TokenCreateResponse :=
  s ← st_get;
  match tr_repo s !! name with
  | None => st_throw NotFound
  | Some token =>
      if t_is_provisioned token then st_throw Conflict
      else if match t_expires_at token with Some expiry => bool_decide (expiry ≤ e_now e) | None => false end
      then st_throw UnprocessableEntity
      else
        let value := new_secret name (e_digits e) in
        secret ← st_lift (hash_token_secret (e_salt e) value);
        let token' := with_last_access (Some (e_created e)) (with_created_at (e_created e) (with_value secret token)) in
        _ ← st_modify (λ s, with_repo (<[name := token']> (tr_repo s)) s);
        _ ← save_repo (e_disk e);
        _ ← clear_auth_cache;
        mret (mkTokenCreateResponse value (e_created e))
  end.

(** [remove_bucket_from_tokens] and [rename_bucket]. *)
Definition map_permissions (f : list string → list string) (t : Token) : Token :=
  with_permissions ((λ p, mkPermissions (full_access p) (f (p_read p)) (f (p_write p))) <$> t_permissions t) t.
Definition remove_bucket_from_tokens (e : Env) (bucket : string) : ST TokenRepository () :=
  _ ← st_modify (λ s, with_repo (map_permissions (filter (λ b, b ≠ bucket)) <$> tr_repo s) s);
  _ ← save_repo (e_disk e);
  clear_auth_cache.
Definition rename_bucket (e : Env) (old_name new_name : string) : ST TokenRepository () :=
  _ ← st_modify (λ s, with_repo
        (map_permissions (fmap (λ b, if decide (b = old_name) then new_name else b)) <$> tr_repo s) s);
  _ ← save_repo (e_disk e);
  clear_auth_cache.
End Repository.
