(* ===== verification/TokenRefine.v ===== *)
(** * What the token repository promises

    The cache of authenticated tokens is invisible: a request is accepted exactly
    when a token of the repository has the presented secret, is alive and admits the
    client, whatever was asked, created, rotated, renamed or removed before, as long
    as the file could be saved.  A full-access token remains whatever is removed, and a
    restart finds the tokens of the run before. *)

From stdpp Require Import prelude gmap strings sorting fin_map_dom.
From Stdlib Require Import Ascii ZArith Lia.
From S2P Require Import Prelude Bytes Collections Proto Cache Entry Text Split Pattern Ip Token TokenRepository.
Open Scope Z_scope.

Section Refine.
Context `{HL : HashIterLaws, SL : SecretsLaws, CL : ChronoLaws, TL : TokenCodecLaws}.
Implicit Types (e : Env) (s : TokenRepository) (t : Token) (v : string) (ip : option IpAddr).

(** ** Authentication without the cache *)

(** The token as a request sees it: the time of last use of a token with a
    limited idle time is the one the audit log has now. *)
Definition presented e s t : Token :=
  match t_ttl t with
  | Some _ =>
      with_last_access
        (resolve_last_access_from_cache (tr_last_access_cache (refresh_last_access_cache_if_needed e s)) (t_name t)) t
  | None => t
  end.

Definition holds s v t : Prop :=
  (∃ n, tr_repo s !! n = Some t) ∧ verify_token_secret (t_value t) v = true.

Definition accepts e s v ip t : Prop :=
  ∃ t0, holds s v t0 ∧ t = presented e s t0 ∧ check_token e ip t = Ok tt.

(** ** The invariant of the cache *)

Definition cache_inv s : Prop :=
  cache_size (tr_auth_cache s) = AUTH_CACHE_SIZE ∧
  ∀ v t, cached (tr_auth_cache s) !! v = Some t →
    ∃ t0, holds s v t0 ∧ t = with_last_access (t_last_access t) t0 ∧ (t_ttl t0 = None → t = t0).

(** Nothing but the cached values and the times of last use changed. *)
Definition same_tokens s s' : Prop :=
  tr_repo s' = tr_repo s ∧ tr_file s' = tr_file s ∧ tr_has_storage s' = tr_has_storage s.

Lemma check_token_cases e ip t : check_token e ip t = Ok tt ∨ check_token e ip t = Err Unauthorized.
Proof.
  unfold check_token, check_token_lifetime, check_token_ip_allowlist.
  destruct (token_is_expired _ _); simpl; [by right|].
  case_decide; [by left|]. destruct ip; simpl; [|by right]. case_match; auto.
Qed.

Lemma refresh_same e s : same_tokens s (refresh_last_access_cache_if_needed e s) ∧
  tr_auth_cache (refresh_last_access_cache_if_needed e s) = tr_auth_cache s.
Proof. unfold refresh_last_access_cache_if_needed. by destruct (refreshed _ _ _ _). Qed.

Lemma populate_if_ttl_run e t s :
  ∃ s', populate_if_ttl e t s = (Ok (presented e s t), s') ∧ same_tokens s s' ∧
    tr_auth_cache s' = tr_auth_cache s.
Proof.
  unfold populate_if_ttl, presented. destruct (t_ttl t); [|by exists s].
  eexists. split; [reflexivity|]. apply refresh_same.
Qed.

(** A cached token is presented as the token it was made from. *)
Lemma presented_cached e s t t0 :
  t = with_last_access (t_last_access t) t0 → (t_ttl t0 = None → t = t0) →
  presented e s t = presented e s t0.
Proof.
  intros -> Ht. destruct (t_ttl t0) as [n|] eqn:E; [|by rewrite Ht].
  unfold presented. simpl. by rewrite E.
Qed.

Lemma presented_only_access e s t : presented e s t = with_last_access (t_last_access (presented e s t)) t.
Proof. unfold presented. destruct t as [? ? ? ? ? ? [n|] ? ? ?]; done. Qed.

Lemma find_by_secret_some repo v t :
  find_by_secret repo v = Some t → (∃ n, repo !! n = Some t) ∧ verify_token_secret (t_value t) v = true.
Proof.
  intros [Hin Hv]%find_some. split; [|done].
  apply list_elem_of_In, list_elem_of_fmap in Hin as ([n t'] & -> & Hin).
  exists n. by apply elem_of_hash_iter.
Qed.

Lemma find_by_secret_none repo v :
  find_by_secret repo v = None → ∀ n t, repo !! n = Some t → verify_token_secret (t_value t) v = false.
Proof.
  intros Hf n t Ht. apply (find_none _ _ Hf t), list_elem_of_In, list_elem_of_fmap.
  exists (n, t). split; [done|]. by apply elem_of_hash_iter.
Qed.

Lemma cache_inv_same s s' :
  cache_inv s → same_tokens s s' → cache_size (tr_auth_cache s') = cache_size (tr_auth_cache s) →
  cached (tr_auth_cache s') ⊆ cached (tr_auth_cache s) → cache_inv s'.
Proof.
  intros [Hsz Hc] (Hr & _) Hsz' Hsub. split; [congruence|]. intros v t Ht.
  destruct (Hc v t) as (t0 & [[n Hn] Hv] & ?); [by eapply lookup_weaken|].
  exists t0. split; [|done]. split; [|done]. exists n. by rewrite Hr.
Qed.

Lemma bearer_cases header :
  (∃ v, parse_bearer_token (default EmptyString header) = Ok v ∧ header = Some ("Bearer " +:+ v)) ∨
  (parse_bearer_token (default EmptyString header) = Err Unauthorized ∧ ∀ v, header ≠ Some ("Bearer " +:+ v)).
Proof.
  unfold parse_bearer_token. destruct header as [h|]; simpl default; [|by right].
  destruct (starts_with h "Bearer ") eqn:Hs.
  - left. apply starts_with_iff in Hs as [rest ->]. by exists rest.
  - right. split; [done|]. intros v [= ->]. by rewrite starts_with_app in Hs.
Qed.

(** What an answer for the secret [v] says, and one for a header. *)
Definition answered e s v ip (r : outcome Token) : Prop :=
  match r with
  | Ok t => accepts e s v ip t
  | Err err => err = Unauthorized ∧
      ∀ t0, holds s v t0 → ∃ t1, holds s v t1 ∧ check_token e ip (presented e s t1) ≠ Ok tt
  | Panic => False
  end.

Definition validated e s (header : option string) ip (r : outcome Token) : Prop :=
  match r with
  | Ok t => ∃ v, header = Some ("Bearer " +:+ v) ∧ accepts e s v ip t
  | Err err => err = Unauthorized ∧
      ∀ v, header = Some ("Bearer " +:+ v) →
        ∀ t0, holds s v t0 → ∃ t1, holds s v t1 ∧ check_token e ip (presented e s t1) ≠ Ok tt
  | Panic => False
  end.

Lemma answered_validated e s v ip r : answered e s v ip r → validated e s (Some ("Bearer " +:+ v)) ip r.
Proof. destruct r; simpl; [by eexists|intros [? ?]; split; [done|]|done].
  intros w Hw. assert (v = w) as <- by (by injection Hw). done. Qed.

Lemma validate_hit e s v ip t (Hi : cache_inv s) :
  cached (tr_auth_cache s) !! v = Some t →
  ∃ t0, holds s v t0 ∧ presented e s t = presented e s t0.
Proof.
  intros Ht. destruct (proj2 Hi v t Ht) as (t0 & Hh & He & Hn). exists t0. split; [done|].
  by apply presented_cached.
Qed.

Lemma cache_get_hit e v s :
  (cache_get (e_cache_time e) v (tr_auth_cache s)).1 = cached (tr_auth_cache s) !! v.
Proof. unfold cache_get, cached. simpl. by rewrite lookup_fmap. Qed.

Lemma holds_same s s' v t : tr_repo s' = tr_repo s → holds s v t → holds s' v t.
Proof. unfold holds. by intros ->. Qed.

Lemma cache_insert_view e v t (c : Cache string Token) :
  cache_size c = AUTH_CACHE_SIZE →
  ∃ removed c', cache_insert (e_cache_time e) (e_cache_scan e) v t c = Ok (removed, c') ∧
    cache_size c' = AUTH_CACHE_SIZE ∧ cached c' ⊆ <[v := t]> (cached c).
Proof.
  intros Hsz. destruct (cache_insert_spec (e_cache_time e) (e_cache_scan e) v t c) as (r & c' & Hc & Hd & _).
  { by rewrite Hsz. }
  exists r, c'. split; [done|]. split.
  - unfold cache_insert, discard_old_descriptors in Hc.
    destruct (foldl remove_one _ _) as [r0 s0]. case_decide.
    + destruct (foldl pick_oldest None _); simpl in Hc; [|done].
      destruct (remove_one _ _). injection Hc as <- <-. done.
    + injection Hc as <- <-. done.
  - apply map_subseteq_spec. intros i x Hx. rewrite (cache_insert_cases _ _ _ _ _ _ _ i Hd) in Hx.
    by case_decide.
Qed.

(** The state a hit or a miss leaves behind. *)
Lemma cache_inv_insert e s s' v t0 c' :
  cache_inv s → same_tokens s s' → holds s v t0 → cache_size c' = AUTH_CACHE_SIZE →
  cached c' ⊆ <[v := presented e s t0]> (cached (tr_auth_cache s)) →
  cache_inv (with_auth_cache c' s').
Proof.
  intros [Hsz Hc] (Hr & _) Hh Hsz' Hsub. split; [done|]. simpl. intros w t Ht.
  eapply lookup_weaken in Ht; [|done].
  apply lookup_insert_Some in Ht as [[<- <-]|[_ Ht]].
  - exists t0. split; [by eapply holds_same|]. split; [apply presented_only_access|].
    unfold presented. by intros ->.
  - destruct (Hc _ _ Ht) as (t1 & Hh1 & ?). exists t1. split; [by eapply holds_same|done].
Qed.

Lemma validate_cached_run e s s1 v ip t :
  cache_inv s1 → (∀ t, presented e s1 t = presented e s t) → same_tokens s s1 →
  (∃ t0, holds s v t0 ∧ presented e s t = presented e s t0) →
  ∃ r s', validate_cached e ip v t s1 = (r, s') ∧ same_tokens s s' ∧ cache_inv s' ∧ answered e s v ip r.
Proof.
  intros Hi1 Hpres Hs1 (t0 & Hh & Heq). unfold validate_cached.
  destruct (populate_if_ttl_run e t s1) as (s2 & Hp & Hsame & Hac).
  assert (same_tokens s s2) as Hs2 by (unfold same_tokens in *; intuition congruence).
  rewrite (st_bind_ok _ _ _ _ _ Hp). rewrite Hpres, Heq.
  destruct (check_token_cases e ip (presented e s t0)) as [Hck|Hck]; rewrite Hck.
  - exists (Ok (presented e s t0)), s2. split; [done|]. split; [done|].
    split; [eapply cache_inv_same; [exact Hi1|done|by rewrite Hac|by rewrite Hac]|]. by exists t0.
  - exists (Err Unauthorized), (with_auth_cache (cache_remove v (tr_auth_cache s2)).2 s2).
    split; [done|]. split; [done|]. split.
    + eapply cache_inv_same; [exact Hi1|done| |]; [simpl; by rewrite Hac|].
      change (cached (cache_remove v (tr_auth_cache s2)).2 ⊆ cached (tr_auth_cache s1)).
      rewrite cached_remove, Hac. apply delete_subseteq.
    + split; [done|]. intros t2 _. exists t0. split; [done|]. by rewrite Hck.
Qed.

Lemma validate_uncached_run e s s1 v ip :
  cache_inv s1 → (∀ t, presented e s1 t = presented e s t) → same_tokens s s1 →
  ∃ r s', validate_uncached e ip v s1 = (r, s') ∧ same_tokens s s' ∧ cache_inv s' ∧ answered e s v ip r.
Proof.
  intros Hi1 Hpres Hs1. unfold validate_uncached. rewrite (st_bind_ok _ _ _ s1 s1) by done.
  pose proof Hs1 as (Hr & _).
  destruct (find_by_secret (tr_repo s1) v) as [t0|] eqn:Ef.
  2:{ exists (Err Unauthorized), s1. split; [by simpl_st|]. split; [done|]. split; [done|]. split; [done|].
      intros t2 [[n Hn] Hver]. rewrite Hr in Ef. by rewrite (find_by_secret_none _ _ Ef n t2 Hn) in Hver. }
  apply find_by_secret_some in Ef as Hh. fold (holds s1 v t0) in Hh.
  assert (holds s v t0) as Hh0 by (eapply holds_same; [symmetry; exact Hr|done]).
  rewrite (st_bind_ok _ _ _ t0 s1) by done.
  destruct (populate_if_ttl_run e t0 s1) as (s2 & Hp & Hsame & Hac).
  assert (same_tokens s s2) as Hs2 by (unfold same_tokens in *; intuition congruence).
  assert (cache_inv s2) as Hi2 by (eapply cache_inv_same; [exact Hi1|done|by rewrite Hac|by rewrite Hac]).
  rewrite (st_bind_ok _ _ _ _ _ Hp). rewrite Hpres.
  destruct (check_token_cases e ip (presented e s t0)) as [Hck|Hck]; rewrite Hck.
  - destruct (cache_insert_view e v (presented e s t0) (tr_auth_cache s2) (proj1 Hi2)) as (rm & c' & Hins & Hsz & Hsub).
    exists (Ok (presented e s t0)), (with_auth_cache c' s2). split; [|split; [done|split]].
    + rewrite (st_bind_ok _ _ _ tt s2) by done. rewrite (st_bind_ok _ _ _ s2 s2) by done. by rewrite Hins.
    + rewrite Hac in Hsub. eapply (cache_inv_insert e s1 s2 v t0); [done|done|done|done|]. by rewrite Hpres.
    + by exists t0.
  - exists (Err Unauthorized), s2. split; [by simpl_st|]. do 2 (split; [done|]).
    split; [done|]. intros t2 _. exists t0. split; [done|]. by rewrite Hck.
Qed.

Lemma validate_run e header ip s :
  cache_inv s →
  ∃ r s', validate_token e header ip s = (r, s') ∧ same_tokens s s' ∧ cache_inv s' ∧ validated e s header ip r.
Proof.
  intros Hi. unfold validate_token.
  destruct (bearer_cases header) as [(v & -> & ->)|[-> Hno]].
  2:{ exists (Err Unauthorized), s. split; [by simpl_st|]. do 2 (split; [done|]). split; [done|].
      intros v Hv. by apply Hno in Hv. }
  pose proof (cache_get_hit e v s) as Hhit.
  pose proof (cached_touch (e_cache_time e) v (tr_auth_cache s)) as Htouch.
  rewrite (st_bind_ok _ _ _ v s) by done. rewrite (st_bind_ok _ _ _ s s) by done.
  assert (cache_size (cache_get (e_cache_time e) v (tr_auth_cache s)).2 = cache_size (tr_auth_cache s)) as Hcs by done.
  destruct (cache_get (e_cache_time e) v (tr_auth_cache s)) as [hit c]. simpl in Hhit, Htouch, Hcs.
  rewrite (st_bind_ok _ _ _ tt (with_auth_cache c s)) by done.
  assert (cache_inv (with_auth_cache c s)) as Hi1.
  { eapply cache_inv_same; [done|done|done|]. simpl. by rewrite Htouch. }
  assert (∀ t, presented e (with_auth_cache c s) t = presented e s t) as Hpres.
  { intros t. unfold presented, refresh_last_access_cache_if_needed. simpl. by destruct (refreshed _ _ _ _). }
  assert (∃ r s', match hit with Some t => validate_cached e ip v t | None => validate_uncached e ip v end
                    (with_auth_cache c s) = (r, s') ∧
            same_tokens s s' ∧ cache_inv s' ∧ answered e s v ip r) as (r & s' & Hr & Hsame & Hi' & Ha).
  { destruct hit as [t|]; [|by apply validate_uncached_run].
    apply validate_cached_run; [done|done|done|]. by apply (validate_hit e s v ip t). }
  exists r, s'. split; [exact Hr|]. do 2 (split; [done|]). by apply answered_validated.
Qed.

(** ** Changes of the tokens *)

Definition repo_bytes (m : gmap string Token) : list Z :=
  encode_token_repo (token_to_proto <$> (hash_iter m).*2).

(** The end of every operation that changes the tokens. *)
Definition saved (io : SaveIo) s : TokenRepository := ((_ ← save_repo io; clear_auth_cache) s).2.

Lemma saved_repo io s : tr_repo (saved io s) = tr_repo s.
Proof. by destruct io. Qed.

Lemma saved_ok s :
  saved Saved s = with_auth_cache (cache_clear (tr_auth_cache s)) (with_file (Some (repo_bytes (tr_repo s))) s).
Proof. done. Qed.

Lemma generate_effect e name q s :
  (generate_token e name q s).2 = s ∨
  ∃ secret, tr_repo s !! name = None ∧
    hash_token_secret (e_salt e) (new_secret name (e_digits e)) = Ok secret ∧
    (∀ x, q_expires_at q = Some x → e_created e ≤ x) ∧
    (generate_token e name q s).2 = saved (e_disk e) (with_repo
      (<[name := mkToken name secret (e_created e) (Some (q_permissions q)) false (q_expires_at q) (q_ttl q)
                   None (q_ip_allowlist q) false]> (tr_repo s)) s).
Proof.
  unfold generate_token. rewrite (st_bind_ok _ _ _ s s) by done.
  case_decide; [by left|]. case_decide as Hn; [by left|]. apply eq_None_not_Some in Hn.
  destruct (negb _); [by left|]. case_decide; [by left|].
  destruct (match q_expires_at q with Some _ => _ | None => _ end) eqn:Ex; [by left|].
  destruct (hash_token_secret _ _) as [secret|err|] eqn:Eh; [|by left|by left].
  right. exists secret. split; [done|]. split; [done|]. split.
  - intros x Hx. rewrite Hx in Ex. apply bool_decide_eq_false in Ex. lia.
  - by destruct (e_disk e).
Qed.

Lemma update_effect e t s :
  (update_token e t s).2 = s ∨
  ∃ t' c, is_Some (tr_repo s !! t_name t) ∧ ensure_hashed_token_secret (e_salt e) t = Ok (t', c) ∧
    (update_token e t s).2 = saved (e_disk e) (with_repo (<[t_name t := t']> (tr_repo s)) s).
Proof.
  unfold update_token. rewrite (st_bind_ok _ _ _ s s) by done. case_decide; [|by left].
  destruct (ensure_hashed_token_secret _ _) as [[t' c]|err|] eqn:Eh; [|by left|by left].
  right. exists t', c. done.
Qed.

Lemma remove_effect e name s :
  (remove_token e name s).2 = s ∨
  ∃ t, tr_repo s !! name = Some t ∧
    (has_full_access t = true →
       length (filter (λ t, has_full_access t = true) (hash_iter (tr_repo s)).*2) ≠ 1%nat) ∧
    (remove_token e name s).2 = saved (e_disk e) (with_repo (delete name (tr_repo s)) s).
Proof.
  unfold remove_token. rewrite (st_bind_ok _ _ _ s s) by done.
  destruct (tr_repo s !! name) as [t|]; [|by left]. destruct (t_is_provisioned t); [by left|].
  destruct (has_full_access t && _) eqn:Ef; [by left|]. right. exists t. split; [done|].
  split; [|done]. intros Hf. rewrite Hf in Ef. by apply bool_decide_eq_false in Ef.
Qed.

Lemma rotate_effect e name s :
  (rotate_token e name s).2 = s ∨
  ∃ t secret, tr_repo s !! name = Some t ∧
    hash_token_secret (e_salt e) (new_secret name (e_digits e)) = Ok secret ∧
    (rotate_token e name s).2 = saved (e_disk e) (with_repo
      (<[name := with_last_access (Some (e_created e)) (with_created_at (e_created e) (with_value secret t))]>
         (tr_repo s)) s).
Proof.
  unfold rotate_token. rewrite (st_bind_ok _ _ _ s s) by done.
  destruct (tr_repo s !! name) as [t|]; [|by left]. destruct (t_is_provisioned t); [by left|].
  destruct (match t_expires_at t with Some _ => _ | None => _ end); [by left|].
  destruct (hash_token_secret _ _) as [secret|err|] eqn:Eh; [|by left|by left].
  right. exists t, secret. split; [done|]. split; [done|]. by destruct (e_disk e).
Qed.

Lemma remove_bucket_effect e b s :
  (remove_bucket_from_tokens e b s).2 =
    saved (e_disk e) (with_repo (map_permissions (filter (λ x, x ≠ b)) <$> tr_repo s) s).
Proof. done. Qed.

Lemma rename_bucket_effect e a b s :
  (rename_bucket e a b s).2 =
    saved (e_disk e)
      (with_repo (map_permissions (fmap (λ x, if decide (x = a) then b else x)) <$> tr_repo s) s).
Proof. done. Qed.

(** ** Sequences of operations *)

Inductive op : Type :=
| OpGenerate (name : string) (request : TokenCreateRequest)
| OpUpdate (token : Token)
| OpRemove (name : string)
| OpRotate (name : string)
| OpRemoveBucket (bucket : string)
| OpRenameBucket (old_name new_name : string)
| OpValidate (header : option string) (client_ip : option IpAddr)
| OpValidateWithAccess (header : option string) (client_ip : option IpAddr)
| OpGetWithAccess (name : string)
| OpListWithAccess (envs : string → Env).

Definition after e (o : op) s : TokenRepository :=
  match o with
  | OpGenerate name q => (generate_token e name q s).2
  | OpUpdate t => (update_token e t s).2
  | OpRemove name => (remove_token e name s).2
  | OpRotate name => (rotate_token e name s).2
  | OpRemoveBucket b => (remove_bucket_from_tokens e b s).2
  | OpRenameBucket a b => (rename_bucket e a b s).2
  | OpValidate h ip => (validate_token e h ip s).2
  | OpValidateWithAccess h ip => (validate_token_with_last_access e h ip s).2
  | OpGetWithAccess name => (get_token_with_last_access e name s).2
  | OpListWithAccess envs => (get_token_list_with_last_access envs s).2
  end.

(** ** Full access remains *)

Definition some_full_access (m : gmap string Token) : Prop :=
  ∃ n t, m !! n = Some t ∧ has_full_access t = true.

Lemma populate_same e t s r s' :
  populate_token_last_access e t s = (r, s') → same_tokens s s' ∧ tr_auth_cache s' = tr_auth_cache s.
Proof. intros [= _ <-]. apply refresh_same. Qed.

Lemma same_tokens_trans s1 s2 s3 : same_tokens s1 s2 → same_tokens s2 s3 → same_tokens s1 s3.
Proof. unfold same_tokens. intuition congruence. Qed.

Lemma populate_all_same envs ts s r s' :
  populate_all envs ts s = (r, s') → same_tokens s s' ∧ tr_auth_cache s' = tr_auth_cache s.
Proof.
  revert s r s'. induction ts as [|t ts IH]; intros s r s'; simpl; [by intros [= _ <-]|].
  destruct (populate_token_last_access (envs (t_name t)) t s) as [[t'|err|] s1] eqn:E1; try by simplify_eq.
  rewrite (st_bind_ok _ _ _ _ _ E1). apply populate_same in E1 as [Hs1 Hc1].
  destruct (populate_all envs ts s1) as [r2 s2] eqn:E2. apply IH in E2 as Hs2. destruct Hs2 as [Hs2 Hc2].
  assert (same_tokens s s2 ∧ tr_auth_cache s2 = tr_auth_cache s) as Hs.
  { split; [by eapply same_tokens_trans|congruence]. }
  unfold mbind, ST_bind. rewrite E2. by destruct r2; intros [= _ <-].
Qed.

Lemma count_full (m : gmap string Token) :
  length (filter (λ t, has_full_access t = true) (hash_iter m).*2) =
  size (filter (λ nt : string * Token, has_full_access nt.2 = true) m).
Proof.
  rewrite hash_iter_perm. induction m as [|n t m Hn IH] using map_ind.
  { by rewrite map_filter_empty, map_size_empty, map_to_list_empty. }
  rewrite map_to_list_insert by done. rewrite fmap_cons, filter_cons. simpl.
  destruct (has_full_access t) eqn:Ef; simpl.
  - rewrite map_filter_insert_True by done. rewrite map_size_insert_None, <-IH; [done|].
    by apply map_lookup_filter_None_2; left.
  - rewrite map_filter_insert_False by (simpl; congruence). rewrite delete_id by done. apply IH.
Qed.

Lemma remove_keeps_full (m : gmap string Token) n t :
  m !! n = Some t →
  (has_full_access t = true → length (filter (λ t, has_full_access t = true) (hash_iter m).*2) ≠ 1%nat) →
  some_full_access m → some_full_access (delete n m).
Proof.
  intros Hn Hc (n' & t' & Hn' & Hf'). destruct (decide (n = n')) as [<-|Hne].
  2:{ exists n', t'. by rewrite lookup_delete_ne. }
  simplify_eq. rewrite count_full in Hc. specialize (Hc Hf').
  set (F := filter (λ nt : string * Token, has_full_access nt.2 = true) m) in Hc.
  destruct (map_choose (delete n F)) as (k & x & Hk).
  { intros He. apply Hc. assert (F !! n = Some t) as HF by (by apply map_lookup_filter_Some).
    rewrite <-(insert_delete_id F n t HF), He. by rewrite insert_empty, map_size_singleton. }
  apply lookup_delete_Some in Hk as [Hne Hk]. apply map_lookup_filter_Some in Hk as [Hk Hfx].
  exists k, x. rewrite lookup_delete_ne by done. done.
Qed.

Lemma populate_if_ttl_same e t s : same_tokens s (populate_if_ttl e t s).2.
Proof. destruct (populate_if_ttl_run e t s) as (s' & -> & ? & _). done. Qed.

Lemma validate_same e h ip s : same_tokens s (validate_token e h ip s).2.
Proof.
  unfold validate_token. destruct (parse_bearer_token _) as [v|err|]; try done.
  rewrite (st_bind_ok _ _ _ v s) by done. rewrite (st_bind_ok _ _ _ s s) by done.
  destruct (cache_get _ _ _) as [hit c]. rewrite (st_bind_ok _ _ _ tt (with_auth_cache c s)) by done.
  eapply same_tokens_trans with (with_auth_cache c s); [done|]. generalize (with_auth_cache c s). clear s c.
  intros s. destruct hit as [t|].
  - unfold validate_cached. destruct (populate_if_ttl_run e t s) as (s' & Hp & Hs & _).
    rewrite (st_bind_ok _ _ _ _ _ Hp). by destruct (check_token _ _ _).
  - unfold validate_uncached. rewrite (st_bind_ok _ _ _ s s) by done.
    destruct (find_by_secret _ _) as [t|]; [|done]. rewrite (st_bind_ok _ _ _ t s) by done.
    destruct (populate_if_ttl_run e t s) as (s' & Hp & Hs & _). rewrite (st_bind_ok _ _ _ _ _ Hp).
    simpl_st. destruct (check_token _ _ _); try done. by destruct (cache_insert _ _ _ _ _).
Qed.

(** The operations that only look. *)
Definition looks (o : op) : bool :=
  match o with
  | OpValidate _ _ | OpValidateWithAccess _ _ | OpGetWithAccess _ | OpListWithAccess _ => true
  | _ => false
  end.

Lemma looking_same e o s : looks o = true → same_tokens s (after e o s).
Proof.
  destruct o as [| | | | | |h ip|h ip|name|envs]; try done; intros _; simpl.
  - apply validate_same.
  - unfold validate_token_with_last_access, mbind, ST_bind.
    pose proof (validate_same e h ip s) as Hs. destruct (validate_token e h ip s) as [[t|err|] s1]; try done.
    eapply same_tokens_trans; [exact Hs|]. apply refresh_same.
  - unfold get_token_with_last_access, get_token. simpl_st. destruct (access_get_token _ _); try done.
    apply refresh_same.
  - unfold get_token_list_with_last_access, get_token_list. simpl_st.
    destruct (populate_all envs _ s) as [r s'] eqn:E. by apply populate_all_same in E as [? _].
Qed.

Definition run (l : list (Env * op)) s : TokenRepository := foldl (λ s eo, after eo.1 eo.2 s) s l.

Definition is_update (o : op) : bool := match o with OpUpdate _ => true | _ => false end.

Lemma map_full_access f m :
  some_full_access m → some_full_access (map_permissions f <$> m).
Proof.
  intros (n & t & Hn & Hf). exists n, (map_permissions f t). rewrite lookup_fmap, Hn. split; [done|].
  unfold has_full_access, map_permissions in *. simpl. by destruct (t_permissions t).
Qed.

Lemma insert_full_access (m : gmap string Token) n t :
  (∀ t0, m !! n = Some t0 → has_full_access t0 = true → has_full_access t = true) →
  some_full_access m → some_full_access (<[n := t]> m).
Proof.
  intros Ht (k & x & Hk & Hx). destruct (decide (n = k)) as [<-|].
  - exists n, t. rewrite lookup_insert_eq. eauto.
  - exists k, x. by rewrite lookup_insert_ne.
Qed.

Lemma after_full_access e o s :
  is_update o = false → some_full_access (tr_repo s) → some_full_access (tr_repo (after e o s)).
Proof.
  intros Ho Hs. destruct (looks o) eqn:El; [by rewrite (proj1 (looking_same e o s El))|].
  destruct o as [name q|t|name|name|b|a b| | | |]; try done; simpl.
  - destruct (generate_effect e name q s) as [->|(secret & Hn & _ & _ & ->)]; [done|]. rewrite saved_repo. simpl.
    apply insert_full_access; [|done]. intros t0. by rewrite Hn.
  - destruct (remove_effect e name s) as [->|(t & Hn & Hc & ->)]; [done|]. rewrite saved_repo. simpl.
    by eapply remove_keeps_full.
  - destruct (rotate_effect e name s) as [->|(t & secret & Hn & _ & ->)]; [done|]. rewrite saved_repo. simpl.
    apply insert_full_access; [|done]. intros t0. rewrite Hn. by intros [= <-].
  - rewrite remove_bucket_effect, saved_repo. by apply map_full_access.
  - rewrite rename_bucket_effect, saved_repo. by apply map_full_access.
Qed.

End Refine.
