(* ===== verification/TokenRestart.v ===== *)
(** * The token repository over its life

    Reachable states: the repository is opened on a new file, on the file of an
    earlier version, or on what an earlier run left, and serves any sequence of
    operations whose saves succeed.  In all of them authentication is exact, every
    secret in memory and on disk is hashed, and a restart finds the same tokens. *)

From stdpp Require Import prelude gmap strings sorting fin_map_dom.
From Stdlib Require Import Ascii ZArith Lia.
From S2P Require Import Prelude Bytes Collections Proto Cache Entry Text Split Pattern Ip Token TokenRepository TokenRefine.
Open Scope Z_scope.

(** ** Text of hashed secrets *)

Definition ascii_char (c : ascii) : bool := (nat_of_ascii c <=? 127)%nat.

Lemma utf8_ascii s : all_chars ascii_char s = true → utf8 s = true.
Proof.
  induction s as [|c s IH]; simpl; [done|]. unfold ascii_char at 1. intros [Hc Hs]%andb_true_iff.
  rewrite Hc. auto.
Qed.

Lemma hex_digit_ascii c : hex_digit c = true → ascii_char c = true.
Proof.
  unfold hex_digit, to_digit, byte, ascii_char. rewrite bool_decide_eq_true. intros [d Hd].
  apply Nat.leb_le. unfold nat_of_ascii. repeat case_decide; try done; lia.
Qed.

Section Restart.
Context `{HL : HashIterLaws, SL : SecretsLaws, CL : ChronoLaws, TL : TokenCodecLaws}.
Implicit Types (e : Env) (s : TokenRepository) (t : Token) (m : gmap string Token).

Lemma hash_utf8 salt v h : hash_token_secret salt v = Ok h → utf8 h = true.
Proof.
  unfold hash_token_secret. destruct salt as [salt|]; [|done]. cbn [ok_or mbind outcome_bind].
  intros [= <-]. apply utf8_ascii.
  rewrite !all_chars_app. repeat (apply andb_true_iff; split); try done;
    (eapply all_chars_impl; [apply hex_digit_ascii|apply hex_encode_digits]).
Qed.

(** ** Tokens that are named, hashed and can be saved *)

Definition tokens_ok m : Prop := ∀ n t, m !! n = Some t → t_name t = n ∧ token_ok t.
Definition all_hashed m : Prop := ∀ n t, m !! n = Some t → is_hashed_token_secret (t_value t) = true.

Lemma ensure_hashed_spec salt t t' c :
  ensure_hashed_token_secret salt t = Ok (t', c) →
  t_name t' = t_name t ∧ is_hashed_token_secret (t_value t') = true ∧ (token_ok t → token_ok t') ∧
  (c = false → t' = t).
Proof.
  unfold ensure_hashed_token_secret. destruct (is_hashed_token_secret (t_value t)) eqn:Eh.
  - intros [= <- <-]. done.
  - destruct (hash_token_secret salt (t_value t)) as [h|err|] eqn:E; simpl; [|done|done].
    intros [= <- <-]. split; [done|]. split; [by eapply hash_is_hashed|]. split; [|done].
    unfold token_ok. simpl. apply hash_utf8 in E. intuition.
Qed.

Lemma tokens_ok_insert m n t : tokens_ok m → t_name t = n → token_ok t → tokens_ok (<[n := t]> m).
Proof. intros Hm Hn Ht n' t' [[<- <-]|[_ ?]]%lookup_insert_Some; [done|by apply Hm]. Qed.

Lemma all_hashed_insert m n t :
  all_hashed m → is_hashed_token_secret (t_value t) = true → all_hashed (<[n := t]> m).
Proof. intros Hm Ht n' t' [[<- <-]|[_ ?]]%lookup_insert_Some; [done|by eapply Hm]. Qed.

Lemma tokens_ok_persisted m : tokens_ok m → tokens_ok (persisted <$> m).
Proof. intros Hm n t (t0 & <- & Ht)%lookup_fmap_Some. destruct (Hm _ _ Ht). split; [done|by apply persisted_ok]. Qed.

(** ** Loading *)

Lemma values_valid m : tokens_ok m → Forall token_proto_valid (token_to_proto <$> (hash_iter m).*2).
Proof.
  intros Hm. apply Forall_forall. intros p (t & -> & Ht)%list_elem_of_fmap.
  apply list_elem_of_fmap in Ht as ([n t'] & -> & Hin). apply elem_of_hash_iter in Hin.
  by apply token_proto_ok, (Hm n).
Qed.

Lemma decode_repo_bytes m :
  tokens_ok m → decode_token_repo (repo_bytes m) = Some (token_to_proto <$> (hash_iter m).*2).
Proof. intros Hm. by apply decode_encode_token_repo, values_valid. Qed.

Lemma load_tokens_list now (l : list (string * Token)) m :
  Forall (λ nt, t_name nt.2 = nt.1 ∧ token_ok nt.2) l → NoDup l.*1 →
  ∃ r, load_tokens now (token_to_proto <$> l.*2) m = Ok r ∧
    ∀ n, r !! n = match (list_to_map l : gmap string Token) !! n with
                  | Some t => Some (persisted t) | None => m !! n end.
Proof.
  intros Hl. revert m. induction Hl as [|[n t] l [Hn Ht] Hl IH]; intros m Hnd; [by exists m|].
  apply NoDup_cons in Hnd as [Hin Hnd]. simpl in *.
  rewrite token_proto_roundtrip by done. cbn [mbind outcome_bind].
  destruct (IH (<[t_name t := persisted t]> m) Hnd) as (r & Hr & Hlook).
  exists r. split; [exact Hr|]. intros k. rewrite Hlook, Hn.
  destruct (decide (n = k)) as [<-|Hne].
  - rewrite lookup_insert_eq. apply not_elem_of_list_to_map in Hin. by rewrite Hin, lookup_insert_eq.
  - by rewrite !lookup_insert_ne.
Qed.

Lemma list_to_map_hash_iter m : list_to_map (hash_iter m) = m.
Proof.
  apply map_eq. intros k. apply option_eq. intros x.
  rewrite <-elem_of_list_to_map by apply NoDup_fst_hash_iter. apply elem_of_hash_iter.
Qed.

Lemma load_tokens_spec now m :
  tokens_ok m → load_tokens now (token_to_proto <$> (hash_iter m).*2) ∅ = Ok (persisted <$> m).
Proof.
  intros Hm. destruct (load_tokens_list now (hash_iter m) ∅) as (r & Hr & Hlook).
  - apply Forall_forall. intros [n t] Hin%elem_of_hash_iter. by apply Hm.
  - apply NoDup_fst_hash_iter.
  - rewrite Hr. f_equal. apply map_eq. intros n. rewrite Hlook, lookup_fmap.
    rewrite list_to_map_hash_iter. by destruct (m !! n).
Qed.

(** ** Hashing what is in plain text *)

Lemma hash_secrets_spec salts (l : list (string * Token)) m r ch c :
  hash_secrets salts l m ch = Ok (r, c) → NoDup l.*1 →
  (c = false → ch = false ∧ Forall (λ nt, is_hashed_token_secret (t_value nt.2) = true) l) ∧
  ∀ n, match (list_to_map l : gmap string Token) !! n with
       | Some t => ∃ t' b, ensure_hashed_token_secret (salts n) t = Ok (t', b) ∧ r !! n = Some t'
       | None => r !! n = m !! n
       end.
Proof.
  revert m ch. induction l as [|[n t] l IH]; intros m ch; simpl; [intros [= <- <-] _; by split|].
  destruct (ensure_hashed_token_secret (salts n) t) as [[t' b]|err|] eqn:E; try done.
  intros Hr [Hin Hnd]%NoDup_cons. destruct (IH _ _ Hr Hnd) as [Hc Hlook]. split.
  - intros Hf. destruct (Hc Hf) as [[-> ->]%orb_false_iff Hall]. split; [done|]. constructor; [|done].
    apply ensure_hashed_spec in E as (_ & Hh & _ & Heq). simpl. by rewrite <-Heq.
  - intros k. specialize (Hlook k). destruct (decide (n = k)) as [<-|Hne].
    + rewrite lookup_insert_eq. apply not_elem_of_list_to_map in Hin. rewrite Hin, lookup_insert_eq in Hlook.
      eauto.
    + rewrite lookup_insert_ne by done. destruct (list_to_map l !! k); [done|]. by rewrite lookup_insert_ne in Hlook.
Qed.

Lemma hash_secrets_ok salts m r c :
  hash_secrets salts (hash_iter m) m false = Ok (r, c) → tokens_ok m →
  tokens_ok r ∧ all_hashed r ∧ (c = false → r = m).
Proof.
  intros Hr Hm. destruct (hash_secrets_spec _ _ _ _ _ _ Hr (NoDup_fst_hash_iter m)) as [Hc Hlook].
  rewrite list_to_map_hash_iter in Hlook. assert (∀ n t, r !! n = Some t →
    ∃ t0 b, m !! n = Some t0 ∧ ensure_hashed_token_secret (salts n) t0 = Ok (t, b)) as Hback.
  { intros n t Ht. specialize (Hlook n). destruct (m !! n) as [t0|] eqn:E; [|congruence].
    destruct Hlook as (t' & b & He & Hr'). exists t0, b. split; [done|]. congruence. }
  split; [|split].
  - intros n t Ht. destruct (Hback n t Ht) as (t0 & b & Ht0 & He). apply ensure_hashed_spec in He as (-> & _ & Hok & _).
    destruct (Hm _ _ Ht0). auto.
  - intros n t Ht. destruct (Hback n t Ht) as (t0 & b & Ht0 & He). by apply ensure_hashed_spec in He as (_ & ? & _).
  - intros Hf. destruct (Hc Hf) as [_ Hall]. rewrite Forall_forall in Hall. apply map_eq. intros n.
    specialize (Hlook n). destruct (m !! n) as [t0|] eqn:E; [|done].
    destruct Hlook as (t' & b & He & ->). unfold ensure_hashed_token_secret in He.
    pose proof (Hall (n, t0) (proj2 (elem_of_hash_iter _ _ _) E)) as Hh. simpl in Hh. rewrite Hh in He. by simplify_eq.
Qed.

(** Nothing is left to do when every secret is hashed. *)
Lemma hash_secrets_hashed salts (l : list (string * Token)) m ch :
  (∀ n t, (n, t) ∈ l → m !! n = Some t ∧ is_hashed_token_secret (t_value t) = true) →
  hash_secrets salts l m ch = Ok (m, ch).
Proof.
  revert ch. induction l as [|[n t] l IH]; intros ch Hl; simpl; [done|].
  destruct (Hl n t) as [Hm Hh]; [set_solver|]. unfold ensure_hashed_token_secret. rewrite Hh.
  rewrite insert_id, orb_false_r by done. apply IH. set_solver.
Qed.

(** ** The invariant *)

(** The file has the tokens of memory; the token of a configured secret is added
    at every start and need not be there. *)
Definition file_holds (file : option (list Z)) m : Prop :=
  ∃ m0, file = Some (repo_bytes m0) ∧ tokens_ok m0 ∧ all_hashed m0 ∧
    ∀ n, n ≠ INIT_TOKEN_NAME → persisted <$> m0 !! n = persisted <$> m !! n.

Record repo_inv s : Prop := {
  ri_cache : cache_inv s;
  ri_tokens : tokens_ok (tr_repo s);
  ri_hashed : all_hashed (tr_repo s);
  ri_file : file_holds (tr_file s) (tr_repo s)
}.

Lemma saved_inv s m :
  cache_size (tr_auth_cache s) = AUTH_CACHE_SIZE → tokens_ok m → all_hashed m →
  repo_inv (saved Saved (with_repo m s)).
Proof.
  intros Hsz Hm Hh. rewrite saved_ok. split; simpl; [|done|done|by exists m].
  split; [done|]. intros v t. pose proof (cached_clear (tr_auth_cache s)) as Hc. unfold cached in *. simpl in *. by rewrite Hc.
Qed.

Lemma same_tokens_inv s s' : repo_inv s → same_tokens s s' → cache_inv s' → repo_inv s'.
Proof. intros [] (Hr & Hf & _) Hc. split; rewrite ?Hr, ?Hf; done. Qed.

(** What a call may be given: text is UTF-8, times are within the calendar, as the
    types of the source have it. *)
Definition env_ok e : Prop := after_epoch (e_now e) ∧ after_epoch (e_created e).

Definition request_ok (q : TokenCreateRequest) : Prop :=
  permissions_valid (q_permissions q) ∧ (∀ x, q_expires_at q = Some x → x ≤ max_utc) ∧
  (∀ n, q_ttl q = Some n → is_u64 n) ∧ Forall (λ x, utf8 x = true) (q_ip_allowlist q).

Definition op_ok (o : op) : Prop :=
  match o with
  | OpGenerate name q => utf8 name = true ∧ request_ok q
  | OpUpdate t => token_ok t
  | OpRenameBucket _ new_name => utf8 new_name = true
  | _ => True
  end.

Lemma looking_inv e o s : looks o = true → repo_inv s → repo_inv (after e o s).
Proof.
  intros Hl Hi. pose proof (looking_same e o s Hl) as Hs. eapply same_tokens_inv; [done|done|].
  assert (∀ s1 e', cache_inv s1 → cache_inv (refresh_last_access_cache_if_needed e' s1)) as Href.
  { intros s1 e' Hi1. destruct (refresh_same e' s1) as [Hs1 Hc]. eapply cache_inv_same; [exact Hi1|done| |]; by rewrite Hc. }
  destruct o as [| | | | | |h ip|h ip|name|envs]; try done; simpl in *.
  - destruct (validate_run e h ip s (ri_cache _ Hi)) as (r & s' & -> & _ & Hc & _). done.
  - unfold validate_token_with_last_access, mbind, ST_bind.
    destruct (validate_run e h ip s (ri_cache _ Hi)) as (r & s' & -> & _ & Hc & _). destruct r; try done. by apply Href.
  - unfold get_token_with_last_access, get_token. simpl_st. destruct (access_get_token _ _); try apply Hi.
    apply Href, Hi.
  - unfold get_token_list_with_last_access, get_token_list in *. simpl_st.
    destruct (populate_all envs _ s) as [r s'] eqn:E. apply populate_all_same in E as [Hs' Hc].
    eapply cache_inv_same; [apply Hi|done| |]; simpl; by rewrite Hc.
Qed.

Lemma map_permissions_inv f m :
  (∀ l, Forall (λ x, utf8 x = true) l → Forall (λ x, utf8 x = true) (f l)) →
  tokens_ok m → all_hashed m → tokens_ok (map_permissions f <$> m) ∧ all_hashed (map_permissions f <$> m).
Proof.
  intros Hf Hm Hh. split; intros n t (t0 & <- & Ht)%lookup_fmap_Some; [|exact (Hh _ _ Ht)].
  destruct (Hm _ _ Ht) as [Hn Hok]. split; [done|]. unfold token_ok in *. simpl.
  destruct Hok as (? & ? & ? & ? & ? & Hp & ?). split_and!; try done.
  intros p (p0 & Hp0 & ->)%fmap_Some. destruct (Hp _ Hp0). split; simpl; auto.
Qed.

Lemma after_inv e o s :
  env_ok e → op_ok o → e_disk e = Saved → repo_inv s → repo_inv (after e o s).
Proof.
  intros [_ He] Ho Hd Hi. destruct (looks o) eqn:El; [by apply looking_inv|].
  pose proof (proj1 (ri_cache _ Hi)) as Hsz.
  destruct o as [name q|t|name|name|b|a b| | | |]; try done; simpl in *.
  - destruct (generate_effect e name q s) as [->|(secret & Hn & Hh & Hx & ->)]; [done|]. rewrite Hd.
    destruct Ho as (Hname & Hp & Hmax & Ht & Hip). apply saved_inv; [done| |].
    + apply tokens_ok_insert; [apply Hi|done|]. unfold token_ok. simpl. split_and!; try done.
      * by eapply hash_utf8.
      * intros x Hqx. specialize (Hx _ Hqx). specialize (Hmax _ Hqx). unfold after_epoch in *. lia.
      * by intros p [= <-].
    + apply all_hashed_insert; [apply Hi|]. simpl. by eapply hash_is_hashed.
  - destruct (update_effect e t s) as [->|(t' & c & _ & Hh & ->)]; [done|]. rewrite Hd.
    apply ensure_hashed_spec in Hh as (Hn & Hhash & Hok & _). apply saved_inv; [done| |].
    + apply tokens_ok_insert; [apply Hi|done|auto].
    + apply all_hashed_insert; [apply Hi|done].
  - destruct (remove_effect e name s) as [->|(t & Hn & _ & ->)]; [done|]. rewrite Hd.
    apply saved_inv; [done| |]; intros n t' [_ Ht']%lookup_delete_Some; [by apply (ri_tokens _ Hi)|by apply (ri_hashed _ Hi n)].
  - destruct (rotate_effect e name s) as [->|(t & secret & Hn & Hh & ->)]; [done|]. rewrite Hd.
    destruct (ri_tokens _ Hi _ _ Hn) as [Htn Hok]. apply saved_inv; [done| |].
    + apply tokens_ok_insert; [apply Hi|done|]. unfold token_ok in *. simpl. apply hash_utf8 in Hh. intuition.
    + apply all_hashed_insert; [apply Hi|]. simpl. by eapply hash_is_hashed.
  - rewrite remove_bucket_effect, Hd. destruct (map_permissions_inv (filter (λ x, x ≠ b)) (tr_repo s)) as [? ?].
    + intros l Hl. rewrite Forall_forall in Hl |- *. intros x [_ Hx]%list_elem_of_filter. auto.
    + apply Hi.
    + apply Hi.
    + by apply saved_inv.
  - rewrite rename_bucket_effect, Hd.
    destruct (map_permissions_inv (fmap (λ x, if decide (x = a) then b else x)) (tr_repo s)) as [? ?].
    + intros l Hl. apply Forall_fmap. eapply Forall_impl; [exact Hl|]. intros x Hx. simpl. by case_decide.
    + apply Hi.
    + apply Hi.
    + by apply saved_inv.
Qed.

(** ** Opening *)

(** The file of an earlier run or of an earlier version, if there is one: tokens,
    some of them possibly in plain text. *)
Definition file_ok (file : option (list Z)) : Prop :=
  match file with Some bytes => ∃ m, bytes = repo_bytes m ∧ tokens_ok m | None => True end.

Definition loaded hs m : TokenRepository := with_repo (persisted <$> m) (with_file (Some (repo_bytes m)) (blank hs None)).

Lemma load_run e hs m io : tokens_ok m → load_or_create e io (blank hs (Some (repo_bytes m))) = (Ok tt, loaded hs m).
Proof.
  intros Hm. unfold load_or_create. set (s := blank hs (Some (repo_bytes m))).
  rewrite (st_bind_ok _ _ _ s s) by done. change (tr_file s) with (Some (repo_bytes m)). cbv iota.
  rewrite decode_repo_bytes by done.
  rewrite (st_bind_ok _ _ _ (token_to_proto <$> (hash_iter m).*2) s) by done.
  rewrite load_tokens_spec by done. done.
Qed.

Lemma create_run e hs io s : load_or_create e io (blank hs None) = (Ok tt, s) → io = Saved ∧ s = loaded hs ∅.
Proof.
  unfold load_or_create, expect. destruct io; simpl_st; try done. intros [= <-]. split; [done|].
  unfold loaded, with_repo, with_file, blank. simpl. by rewrite fmap_empty.
Qed.

(** The outcome of the loading: the saved tokens, as a restart gives them back. *)
Lemma load_or_create_spec e hs f io s :
  file_ok f → load_or_create e io (blank hs f) = (Ok tt, s) → ∃ m, tokens_ok m ∧ s = loaded hs m.
Proof.
  destruct f as [bytes|]; simpl.
  - intros (m & -> & Hm). rewrite load_run by done. intros [= <-]. eauto.
  - intros _ [_ ->]%create_run. exists ∅. split; [|done]. intros n t. by rewrite lookup_empty.
Qed.

Lemma init_token_spec e api existing t :
  env_ok e → utf8 (api_token_str api) = true → (∀ t0, existing = Some t0 → token_ok t0) →
  init_token e api existing = Ok t →
  t_name t = INIT_TOKEN_NAME ∧ token_ok t ∧ is_hashed_token_secret (t_value t) = true ∧ has_full_access t = true.
Proof.
  intros [_ He] _ Hex. unfold init_token.
  destruct (t0 ← existing; matched_hashed_token_secret (t_value t0) (api_token_str api)) as [secret|] eqn:Em;
    [|destruct (hash_token_secret (e_salt e) (api_token_str api)) as [h|err|] eqn:Eh]; simpl; try done.
  - intros [= <-]. destruct existing as [t0|]; simpl in *; [|done].
    unfold matched_hashed_token_secret in Em. destruct (is_hashed_token_secret (t_value t0)) eqn:Ehd; [|done].
    destruct (verify_token_secret _ _); [|done]. injection Em as <-. destruct (Hex t0 eq_refl) as (_ & ? & ? & _).
    split; [done|]. split; [|done]. unfold token_ok; simpl. split_and!; try done. by intros p [= <-].
  - intros [= <-]. split; [done|]. split; [|split; [by eapply hash_is_hashed|done]].
    unfold token_ok; simpl. split_and!; try done; [by eapply hash_utf8| |by intros p [= <-]].
    destruct existing as [t0|]; simpl; [|done]. by destruct (Hex t0 eq_refl) as (_ & _ & ? & _).
Qed.

Lemma expect_save_ok io s s' : expect (save_repo io) s = (Ok tt, s') → io = Saved ∧ s' = with_file (Some (repo_bytes (tr_repo s))) s.
Proof. unfold expect. destruct io; simpl; try done. by intros [= <-]. Qed.

Lemma fresh_inv hs m m0 :
  tokens_ok m → all_hashed m → file_holds (Some (repo_bytes m0)) m →
  repo_inv (with_repo m (with_file (Some (repo_bytes m0)) (blank hs None))).
Proof.
  intros Hm Hh Hf. split; [|done|done|done]. split; [done|]. simpl. intros v t.
  unfold cached; simpl. by rewrite fmap_empty.
Qed.

Lemma persisted_hashed m : all_hashed (persisted <$> m) → all_hashed m.
Proof. intros Hm n t Ht. apply (Hm n (persisted t)). by rewrite lookup_fmap, Ht. Qed.

Lemma initialize_inv e api hs m s :
  env_ok e → utf8 (api_token_str api) = true → tokens_ok m →
  initialize_tokens e api (loaded hs m) = (Ok tt, s) → repo_inv s.
Proof.
  intros He Ha Hm. unfold initialize_tokens. rewrite (st_bind_ok _ _ _ (loaded hs m) (loaded hs m)) by done.
  destruct (hash_secrets _ _ _ _) as [[r c]|err|] eqn:Eh; try done.
  rewrite (st_bind_ok _ _ _ (r, c) (loaded hs m)) by done.
  change (tr_repo (loaded hs m)) with (persisted <$> m) in Eh.
  destruct (hash_secrets_ok _ _ _ _ Eh (tokens_ok_persisted _ Hm)) as (Hr & Hhr & Hc).
  cbn [fst snd]. set (s1 := with_repo r (loaded hs m)). rewrite (st_bind_ok _ _ _ tt s1) by done.
  (* what is kept when nothing is saved *)
  assert (c = false → ∀ m', tokens_ok m' → all_hashed m' → (∀ n, n ≠ INIT_TOKEN_NAME → m' !! n = r !! n) →
    repo_inv (with_repo m' s1)) as Hkeep.
  { intros Hcf m' Hm' Hh' Hn. apply (fresh_inv hs m' m); [done|done|]. exists m. split; [done|]. split; [done|].
    specialize (Hc Hcf) as ->. split; [by apply persisted_hashed|]. intros n Hni.
    rewrite Hn, lookup_fmap by done. destruct (m !! n) as [t|]; [|done]. simpl. by rewrite persisted_idem. }
  assert (∀ m' (b : bool) s', tokens_ok m' → all_hashed m' → (b = false → repo_inv (with_repo m' s1)) →
    (if b then expect (save_repo (e_disk e)) else mret tt) (with_repo m' s1) = (Ok tt, s') → repo_inv s') as Hend.
  { intros m' b s' Hm' Hh' Hb. destruct b; [|by intros [= <-]; apply Hb].
    intros [_ ->]%expect_save_ok. apply (fresh_inv hs m' m'); [done|done|]. by exists m'. }
  destruct (should_initialize_token api (r !! INIT_TOKEN_NAME)) eqn:Es.
  - destruct (init_token e api (r !! INIT_TOKEN_NAME)) as [t|err|] eqn:Ei; try done.
    destruct (init_token_spec _ _ _ _ He Ha (λ t0 H, proj2 (Hr _ _ H)) Ei) as (Hn & Hok & Hh & _).
    intros Hrun. eapply (Hend (<[INIT_TOKEN_NAME := t]> r)); [by apply tokens_ok_insert|by apply all_hashed_insert| |exact Hrun].
    intros [Hcf _]%orb_false_iff. apply Hkeep; [done|by apply tokens_ok_insert|by apply all_hashed_insert|].
    intros n Hni. by rewrite lookup_insert_ne.
  - intros Hrun. eapply (Hend r c); [done|done|auto|exact Hrun].
Qed.

(** ** Reachable states *)

Inductive reachable : TokenRepository → Prop :=
| reach_open e io api hs file s :
    env_ok e → utf8 (api_token_str api) = true → file_ok file →
    token_repository_new e io api (blank hs file) = (Ok tt, s) → reachable s
| reach_step e o s :
    reachable s → env_ok e → op_ok o → e_disk e = Saved → reachable (after e o s).

Lemma reachable_inv s : reachable s → repo_inv s.
Proof.
  induction 1 as [e io api hs file s He Ha Hf Hnew|e o s _ IH He Ho Hd]; [|by apply after_inv].
  unfold token_repository_new, mbind, ST_bind in Hnew.
  destruct (load_or_create e io (blank hs file)) as [[[]|err|] s1] eqn:El; try done.
  destruct (load_or_create_spec _ _ _ _ _ Hf El) as (m & Hm & ->). by eapply initialize_inv.
Qed.

(** The file of a reachable state can be opened again. *)
Lemma reachable_file s : reachable s → file_ok (tr_file s).
Proof. intros Hs. destruct (ri_file _ (reachable_inv _ Hs)) as (m & -> & Hm & _). by exists m. Qed.

(** ** Authentication is exact *)

(** C22: whatever was created, changed, rotated, removed or asked before, with every change
    saved, a request is accepted exactly by what the repository holds now, although tokens
    that were authenticated are cached without end.  The call always returns; an accepted
    token is one that is stored, whose secret verifies, that is neither expired nor idle for
    too long at this moment and that admits the client's address; and a refused request names
    no stored token, or one of the tokens with its secret is expired or does not admit the
    client.  The repository was opened on no file or on one that it wrote, and all changes
    since then reached the disk; after a removal that could not be saved the cache still
    accepts the token ([unsaved_removal_leaves_token_valid]). *)
Theorem validated_token_is_current e header ip s :
  reachable s →
  ∃ r s', validate_token e header ip s = (r, s') ∧ tr_repo s' = tr_repo s ∧
    match r with
    | Ok t => ∃ v n t0, header = Some ("Bearer " +:+ v) ∧ tr_repo s !! n = Some t0 ∧
        verify_token_secret (t_value t0) v = true ∧ t = presented e s t0 ∧
        token_is_expired t (e_now e) = false ∧ check_token_ip_allowlist t ip = Ok tt
    | Err err => err = Unauthorized ∧
        ∀ v n t0, header = Some ("Bearer " +:+ v) → tr_repo s !! n = Some t0 →
          verify_token_secret (t_value t0) v = true →
          ∃ n' t1, tr_repo s !! n' = Some t1 ∧ verify_token_secret (t_value t1) v = true ∧
            (token_is_expired (presented e s t1) (e_now e) = true ∨ check_token_ip_allowlist t1 ip ≠ Ok tt)
    | Panic => False
    end.
Proof.
  intros Hs. destruct (validate_run e header ip s (ri_cache _ (reachable_inv _ Hs))) as (r & s' & Hrun & Hsame & _ & Hv).
  exists r, s'. split; [done|]. split; [apply Hsame|].
  assert (∀ t, check_token_ip_allowlist (presented e s t) ip = check_token_ip_allowlist t ip) as Hip.
  { intros t. by rewrite presented_only_access. }
  destruct r as [t|err|]; simpl in Hv; [| |done].
  - destruct Hv as (v & -> & t0 & [[n Hn] Hver] & -> & Hck). exists v, n, t0.
    do 4 (split; [done|]). unfold check_token, check_token_lifetime in Hck.
    by destruct (token_is_expired _ _).
  - destruct Hv as [-> Hv]. split; [done|]. intros v n t0 Hh Hn Hver.
    destruct (Hv v Hh t0) as (t1 & [[n1 Hn1] Hver1] & Hck); [by split; [exists n|]|].
    exists n1, t1. do 2 (split; [done|]). unfold check_token, check_token_lifetime in Hck. rewrite <-Hip.
    destruct (token_is_expired _ _); [by left|by right].
Qed.

(** ** Restarts *)

Lemma init_token_total e api existing salt :
  e_salt e = Some salt → ∃ t, init_token e api existing = Ok t.
Proof.
  intros Hs. unfold init_token. rewrite Hs.
  destruct (t0 ← existing; matched_hashed_token_secret (t_value t0) (api_token_str api)); eexists; reflexivity.
Qed.

Lemma init_token_verifies e api existing salt t :
  e_salt e = Some salt → length salt = SALT_LEN → Forall is_byte salt →
  init_token e api existing = Ok t → verify_token_secret (t_value t) (api_token_str api) = true.
Proof.
  intros Hs Hl Hb. unfold init_token. rewrite Hs.
  destruct (t0 ← existing; matched_hashed_token_secret (t_value t0) (api_token_str api)) as [secret|] eqn:Em.
  - intros [= <-]. simpl. destruct existing as [t0|]; [|done]. simpl in Em. unfold matched_hashed_token_secret in Em.
    destruct (is_hashed_token_secret _); [|done]. simpl in Em.
    destruct (verify_token_secret (t_value t0) (api_token_str api)) eqn:Ev; [|done]. by injection Em as <-.
  - destruct (hash_token_secret (Some salt) (api_token_str api)) as [h|err|] eqn:Eh; try done.
    intros [= <-]. simpl. by eapply verify_own_secret.
Qed.

(** Initialization of hashed tokens: nothing but the token of the configured secret changes. *)
Lemma initialize_hashed e api hs m salt :
  all_hashed m → e_salt e = Some salt → e_disk e = Saved →
  ∃ s', initialize_tokens e api (loaded hs m) = (Ok tt, s') ∧
    (∀ n, n ≠ INIT_TOKEN_NAME → tr_repo s' !! n = persisted <$> m !! n) ∧
    (should_initialize_token api (persisted <$> m !! INIT_TOKEN_NAME) = true →
       ∃ t, init_token e api (persisted <$> m !! INIT_TOKEN_NAME) = Ok t ∧ tr_repo s' !! INIT_TOKEN_NAME = Some t) ∧
    (should_initialize_token api (persisted <$> m !! INIT_TOKEN_NAME) = false →
       tr_repo s' !! INIT_TOKEN_NAME = persisted <$> m !! INIT_TOKEN_NAME).
Proof.
  intros Hh Hsalt Hd. unfold initialize_tokens. set (s := loaded hs m).
  rewrite (st_bind_ok _ _ _ s s) by done.
  rewrite (hash_secrets_hashed (e_salts e) (hash_iter (tr_repo s)) (tr_repo s) false).
  2:{ intros n t Ht%elem_of_hash_iter. split; [done|]. simpl in Ht. apply lookup_fmap_Some in Ht as (t0 & <- & Ht).
      exact (Hh _ _ Ht). }
  rewrite (st_bind_ok _ _ _ (tr_repo s, false) s) by done. cbn [fst snd].
  rewrite (st_bind_ok _ _ _ tt (with_repo (tr_repo s) s)) by done.
  assert (∀ n, tr_repo s !! n = persisted <$> m !! n) as Hl by (intros n; apply lookup_fmap).
  rewrite Hl. destruct (should_initialize_token api _) eqn:Es.
  - destruct (init_token_total e api (persisted <$> m !! INIT_TOKEN_NAME) salt Hsalt) as [t Ht].
    assert (∃ s', (changed ← (t ← st_lift (Ok t);
                               _ ← st_modify (λ s, with_repo (<[INIT_TOKEN_NAME := t]> (tr_repo s)) s);
                               mret (false || match api with Initialized _ => true | _ => false end));
                   if (changed : bool) then expect (save_repo (e_disk e)) else mret tt) (with_repo (tr_repo s) s) = (Ok tt, s') ∧
              tr_repo s' = <[INIT_TOKEN_NAME := t]> (tr_repo s)) as (s' & Hend & Hr).
    { rewrite Hd. destruct api; [done|eexists; split; reflexivity..]. }
    exists s'. split; [|split; [|split; [|done]]].
    + rewrite Ht. exact Hend.
    + intros n Hn. by rewrite Hr, lookup_insert_ne.
    + intros _. exists t. split; [done|]. by rewrite Hr, lookup_insert_eq.
  - eexists. split; [reflexivity|]. split; [done|]. split; [done|]. intros _. apply Hl.
Qed.

(** C24: a restart finds the tokens of the run before: opening the file of a
    reachable state succeeds, every token but the one of the configured secret has
    its name, secret, permissions, expiry, idle time and allow list again (the time
    of last use is taken from the audit log), every secret is hashed, and a
    provisioned secret authenticates the initial token, which has full access. *)
Theorem restart_keeps_tokens e io api hs s salt :
  reachable s → env_ok e → utf8 (api_token_str api) = true →
  e_salt e = Some salt → length salt = SALT_LEN → Forall is_byte salt → e_disk e = Saved →
  ∃ s', token_repository_new e io api (blank hs (tr_file s)) = (Ok tt, s') ∧ reachable s' ∧
    (∀ n, n ≠ INIT_TOKEN_NAME → tr_repo s' !! n = persisted <$> tr_repo s !! n) ∧
    all_hashed (tr_repo s') ∧
    (∀ k, api = Provisioned k → ∃ t, tr_repo s' !! INIT_TOKEN_NAME = Some t ∧
       verify_token_secret (t_value t) k = true ∧ has_full_access t = true).
Proof.
  intros Hs He Ha Hsalt Hl Hb Hd. pose proof (reachable_file _ Hs) as Hf.
  destruct (ri_file _ (reachable_inv _ Hs)) as (m & Hm & Hok & Hh & Hsame).
  destruct (initialize_hashed e api hs m salt Hh Hsalt Hd) as (s' & Hrun & Hr & Hi & _).
  assert (token_repository_new e io api (blank hs (tr_file s)) = (Ok tt, s')) as Hnew.
  { unfold token_repository_new. rewrite Hm. by rewrite (st_bind_ok _ _ _ _ _ (load_run e hs m io Hok)). }
  assert (reachable s') as Hs' by (by eapply reach_open).
  exists s'. split; [done|]. split; [done|].
  split; [intros n Hn; by rewrite Hr, Hsame|]. split; [apply (ri_hashed _ (reachable_inv _ Hs'))|].
  intros k ->. destruct Hi as (t & Ht & Hlook); [done|]. exists t. split; [done|]. split.
  - by apply (init_token_verifies e (Provisioned k) _ salt t) in Ht.
  - refine (proj2 (proj2 (proj2 (init_token_spec e (Provisioned k) _ t He Ha _ Ht)))).
    intros t0 (t1 & Ht1 & ->)%fmap_Some. by apply persisted_ok, (Hok INIT_TOKEN_NAME).
Qed.

(** ** Full access *)

(** C25: the server cannot be locked out: once there is a token with full access there is one
    after any sequence of creations, removals, rotations, bucket changes and requests,
    also of ones whose save to disk fails.  ([update_token] is left out: it replaces a
    token by the one it is given.) *)
Theorem full_access_remains (l : list (Env * op)) s :
  Forall (λ eo, is_update eo.2 = false) l → some_full_access (tr_repo s) →
  some_full_access (tr_repo (run l s)).
Proof.
  intros Hl. revert s. induction Hl as [|[e o] l Ho Hl IH]; intros s Hs; simpl; [done|].
  apply IH, after_full_access; done.
Qed.

(** ** A removal that could not be saved *)

(** a token whose removal fails to be saved is gone from the repository and
    still accepted: the removal returns the error of the file after the token left
    the map and before the cache is cleared, and the next request with the secret is
    answered from the cache. *)
Theorem unsaved_removal_leaves_token_valid e1 e2 name v t t0 err ip s :
  cached (tr_auth_cache s) !! v = Some t → t_ttl t = None →
  tr_repo s !! name = Some t0 → t_is_provisioned t0 = false → has_full_access t0 = false →
  e_disk e1 = OpenFails err → check_token e2 ip t = Ok tt →
  let '(r, s1) := remove_token e1 name s in
  r = Err err ∧ tr_repo s1 !! name = None ∧
  ∃ s2, validate_token e2 (Some ("Bearer " +:+ v)) ip s1 = (Ok t, s2).
Proof.
  intros Hc Httl Hn Hp Hf Hd Hck. unfold remove_token. rewrite (st_bind_ok _ _ _ s s) by done.
  rewrite Hn, Hp, Hf. cbn [andb]. rewrite Hd. simpl.
  split; [done|]. split; [apply lookup_delete_eq|]. unfold validate_token.
  destruct (bearer_cases (Some ("Bearer " +:+ v))) as [(w & -> & Hw)|[_ Hno]]; [|by destruct (Hno v)].
  assert (v = w) as <- by (by injection Hw).
  set (s1 := with_repo (delete name (tr_repo s)) s). rewrite (st_bind_ok _ _ _ v s1) by done.
  rewrite (st_bind_ok _ _ _ s1 s1) by done.
  pose proof (cache_get_hit e2 v s1) as Hhit. destruct (cache_get _ _ _) as [hit c]. simpl in Hhit. rewrite Hc in Hhit.
  subst hit. rewrite (st_bind_ok _ _ _ tt (with_auth_cache c s1)) by done. unfold validate_cached, populate_if_ttl.
  rewrite Httl. rewrite (st_bind_ok _ _ _ t (with_auth_cache c s1)) by done. rewrite Hck. by eexists.
Qed.
End Restart.

(** ** Witnesses *)

Section Witnesses.
Existing Instance std_order.
Existing Instance std_order_laws.
Existing Instance ToyAuth.secrets.
Existing Instance ToyAuth.secrets_laws.
Existing Instance ToyAuth.chrono.
Existing Instance ToyAuth.chrono_laws.
Existing Instance ToyAuth.codec.
Existing Instance ToyAuth.codec_laws.

Definition demo_env (io : SaveIo) : Env :=
  mkEnv 1700000000000000000 1700000000000000000 5 5 (λ _, 5) BucketNotFound (replicate 32 10)
    (Some (replicate 16 3)) (λ _, Some (replicate 16 4)) io (Ok None).

Definition demo_request : TokenCreateRequest := mkTokenCreateRequest (mkPermissions false ["bucket*"] []) None None [].

(** A new repository with a provisioned secret, a token made in it, and a request
    with the secret of that token. *)
Definition demo_start : TokenRepository :=
  (token_repository_new (demo_env Saved) Saved (Provisioned "root") (blank false None)).2.
Definition demo_made : TokenRepository := after (demo_env Saved) (OpGenerate "reader" demo_request) demo_start.
Definition demo_secret : string := "reader-aaaaaaaaaaaaaaaaaaaaaaaaaaaaaaaa".
Definition demo_used : TokenRepository :=
  after (demo_env Saved) (OpValidate (Some ("Bearer " +:+ demo_secret)) None) demo_made.

Lemma demo_env_ok io : env_ok (demo_env io).
Proof. unfold env_ok, after_epoch. simpl. lia. Qed.

Lemma demo_salt_ok : Forall is_byte (replicate 16 3).
Proof. apply Forall_replicate. unfold is_byte. lia. Qed.

Lemma demo_start_ok :
  token_repository_new (demo_env Saved) Saved (Provisioned "root") (blank false None) = (Ok tt, demo_start).
Proof.
  assert ((token_repository_new (demo_env Saved) Saved (Provisioned "root") (blank false None)).1 = Ok tt) as H
    by (vm_compute; reflexivity).
  unfold demo_start. by destruct (token_repository_new _ _ _ _) as [r s]; simpl in *; subst r.
Qed.

Lemma demo_reachable : reachable demo_used.
Proof.
  apply reach_step; [apply reach_step; [eapply reach_open; [| | |apply demo_start_ok]|..]|..];
    try apply demo_env_ok; try done.
  split; [done|]. unfold request_ok, permissions_valid. simpl. split_and!; try done; repeat constructor.
Qed.

Lemma validated_token_is_current_witness :
  ∃ t s', validate_token (demo_env Saved) (Some ("Bearer " +:+ demo_secret)) None demo_used = (Ok t, s') ∧
    t_name t = "reader".
Proof.
  destruct (validated_token_is_current (demo_env Saved) (Some ("Bearer " +:+ demo_secret)) None demo_used demo_reachable)
    as (r & s' & Hrun & _ & _).
  assert ((t_name <$> (validate_token (demo_env Saved) (Some ("Bearer " +:+ demo_secret)) None demo_used).1) = Ok "reader"%string)
    as Hc by (vm_compute; reflexivity).
  rewrite Hrun in Hc |- *. destruct r as [t|err|]; [|discriminate Hc..]. exists t, s'. split; [reflexivity|].
  injection Hc as Hc. exact Hc.
Defined.

Lemma restart_keeps_tokens_witness :
  ∃ s', token_repository_new (demo_env Saved) Saved (Provisioned "root") (blank false (tr_file demo_used)) = (Ok tt, s') ∧
    tr_repo s' !! "reader"%string = persisted <$> tr_repo demo_used !! "reader"%string.
Proof.
  destruct (restart_keeps_tokens (demo_env Saved) Saved (Provisioned "root") false demo_used (replicate 16 3)
              demo_reachable (demo_env_ok Saved) eq_refl eq_refl eq_refl
              demo_salt_ok eq_refl) as (s' & Hnew & _ & Hr & _).
  exists s'. split; [exact Hnew|]. apply Hr. discriminate.
Defined.

Lemma full_access_remains_witness :
  some_full_access (tr_repo (run [(demo_env Saved, OpRemove INIT_TOKEN_NAME); (demo_env Saved, OpRemove "reader")] demo_used)).
Proof.
  apply full_access_remains; [repeat constructor|].
  destruct (tr_repo demo_used !! INIT_TOKEN_NAME) as [t|] eqn:E; [|exfalso; revert E; vm_compute; discriminate].
  exists INIT_TOKEN_NAME, t. split; [exact E|].
  assert (has_full_access <$> tr_repo demo_used !! INIT_TOKEN_NAME = Some true) as Hf by (vm_compute; reflexivity).
  rewrite E in Hf. injection Hf as Hf. exact Hf.
Defined.

Lemma unsaved_removal_leaves_token_valid_witness :
  let '(r, s1) := remove_token (demo_env (OpenFails InternalServerError)) "reader" demo_used in
  r = Err InternalServerError ∧ tr_repo s1 !! "reader"%string = None ∧
  ∃ t s2, validate_token (demo_env Saved) (Some ("Bearer " +:+ demo_secret)) None s1 = (Ok t, s2).
Proof.
  destruct (cached (tr_auth_cache demo_used) !! demo_secret) as [t|] eqn:Ec; [|exfalso; revert Ec; vm_compute; discriminate].
  destruct (tr_repo demo_used !! "reader"%string) as [t0|] eqn:E0; [|exfalso; revert E0; vm_compute; discriminate].
  assert ((λ t, (t_ttl t, check_token (demo_env Saved) None t)) <$> cached (tr_auth_cache demo_used) !! demo_secret = Some (None, Ok tt))
    as Ht by (vm_compute; reflexivity).
  assert ((λ t, (t_is_provisioned t, has_full_access t)) <$> tr_repo demo_used !! "reader"%string = Some (false, false))
    as Ht0 by (vm_compute; reflexivity).
  rewrite Ec in Ht. rewrite E0 in Ht0. injection Ht as Httl Hck. injection Ht0 as Hp Hf.
  pose proof (unsaved_removal_leaves_token_valid (demo_env (OpenFails InternalServerError)) (demo_env Saved) "reader" demo_secret
    t t0 InternalServerError None demo_used Ec Httl E0 Hp Hf eq_refl Hck) as H.
  destruct (remove_token _ _ _) as [r s1]. destruct H as (Hr & Hn & s2 & Hv).
  split; [exact Hr|]. split; [exact Hn|]. exists t, s2. exact Hv.
Defined.
End Witnesses.
