(* ===== verification/TokenAuth.v ===== *)
(** * Authorization (auth/token_auth.rs, auth/token_repository/read_only.rs, disabled.rs)

    The repository of a replica and the one used without authentication, and the
    check every endpoint makes: the bearer token is validated by the repository and
    the policy of the endpoint is applied to it.  The check is proved against an
    interface, what a repository promises about the tokens it validates; the
    repository of a primary and that of a replica implement it. *)

From stdpp Require Import prelude gmap strings sorting.
From Stdlib Require Import Ascii ZArith Lia.
From S2P Require Import Prelude Bytes Collections Proto Cache Entry Text Split Pattern Ip Token TokenRepository TokenRefine TokenRestart.
Open Scope Z_scope.

(** ** The repository of a replica *)

Record ReadOnlyTokenRepository := mkReadOnly {
  ro_repo : gmap string Token;
  ro_auth_cache : Cache string Token;
  ro_api_token : string;
  ro_is_replica : bool;
  ro_update_interval : Z;
  ro_last_replica_sync : Z;
  ro_has_client : bool;
  ro_last_access_cache : gmap string Z;
  ro_last_access_cache_updated_at : option Z
}.

Definition ro_with_repo (r : gmap string Token) (s : ReadOnlyTokenRepository) :=
  mkReadOnly r (ro_auth_cache s) (ro_api_token s) (ro_is_replica s) (ro_update_interval s)
    (ro_last_replica_sync s) (ro_has_client s) (ro_last_access_cache s) (ro_last_access_cache_updated_at s).
Definition ro_with_cache (c : Cache string Token) (s : ReadOnlyTokenRepository) :=
  mkReadOnly (ro_repo s) c (ro_api_token s) (ro_is_replica s) (ro_update_interval s)
    (ro_last_replica_sync s) (ro_has_client s) (ro_last_access_cache s) (ro_last_access_cache_updated_at s).
Definition ro_with_sync (t : Z) (s : ReadOnlyTokenRepository) :=
  mkReadOnly (ro_repo s) (ro_auth_cache s) (ro_api_token s) (ro_is_replica s) (ro_update_interval s)
    t (ro_has_client s) (ro_last_access_cache s) (ro_last_access_cache_updated_at s).
Definition ro_with_access (c : gmap string Z) (u : option Z) (s : ReadOnlyTokenRepository) :=
  mkReadOnly (ro_repo s) (ro_auth_cache s) (ro_api_token s) (ro_is_replica s) (ro_update_interval s)
    (ro_last_replica_sync s) (ro_has_client s) c u.

Definition AUDIT_BUCKET_NAME : string := "$audit".
Definition SYSTEM_BUCKET_NAME : string := "$system".

Section ReadOnly.
Context `{HashIter, Secrets, Chrono, TokenCodec}.

(** The token of the configured secret: it may read everything. *)
Definition ro_init_token (e : Env) (api_token : string) (existing : option Token) : outcome Token :=
  value ← match (t ← existing; matched_hashed_token_secret (t_value t) api_token) with
          | Some secret => Ok secret
          | None => match hash_token_secret (e_salt e) api_token with Ok h => Ok h | _ => Panic end
          end;
  Ok (mkToken INIT_TOKEN_NAME value (e_created e)
        (Some (mkPermissions false ["*"%string; AUDIT_BUCKET_NAME; SYSTEM_BUCKET_NAME] []))
        true None None None [] false).

(** [load_repo]. *)
Definition load_repo (e : Env) (s : ReadOnlyTokenRepository) : outcome (gmap string Token) :=
  file ← e_backend e;
  repo ← match file with
         | Some buf => tokens ← ok_or InternalServerError (decode_token_repo buf); load_tokens (e_now e) tokens ∅
         | None => Ok ∅
         end;
  if decide (ro_api_token s = EmptyString) then Ok repo
  else t ← ro_init_token e (ro_api_token s) (repo !! INIT_TOKEN_NAME); Ok (<[INIT_TOKEN_NAME := t]> repo).

(** [ReadOnlyTokenRepository::new]. *)
Definition read_only_new (e : Env) (api_token : string) (is_replica : bool) (update_interval : Z) (has_client : bool) :
  outcome ReadOnlyTokenRepository :=
  let s := mkReadOnly ∅ (cache_new AUTH_CACHE_SIZE AUTH_CACHE_TTL) api_token is_replica update_interval
             (e_instant e) has_client ∅ None in
  match load_repo e s with Ok repo => Ok (ro_with_repo repo s) | _ => Panic end.

(** [update_repo]. *)
Definition update_repo (e : Env) : ST ReadOnlyTokenRepository () :=
  s ← st_get;
  if negb (ro_is_replica s) || bool_decide (Z.max 0 (e_instant e - ro_last_replica_sync s) < ro_update_interval s)
  then mret tt
  else
    _ ← st_modify (ro_with_sync (e_instant e));
    s ← st_get;
    repo ← st_lift (load_repo e s);
    _ ← st_modify (ro_with_repo repo);
    st_modify (λ s, ro_with_cache (cache_clear (ro_auth_cache s)) s).

(** [refresh_last_access_cache_if_needed] and [populate_token_last_access]. *)
Definition ro_refresh (e : Env) (s : ReadOnlyTokenRepository) : ReadOnlyTokenRepository :=
  let '(cache, updated_at) :=
    refreshed e (ro_has_client s) (ro_last_access_cache s) (ro_last_access_cache_updated_at s) in
  ro_with_access cache updated_at s.
Definition ro_populate (e : Env) (t : Token) : ST ReadOnlyTokenRepository Token := λ s,
  let s' := ro_refresh e s in
  (Ok (with_last_access (resolve_last_access_from_cache (ro_last_access_cache s') (t_name t)) t), s').

(** [AccessTokens::validate_token]. *)
Definition access_validate_token (e : Env) (repo : gmap string Token) (header : option string) (client_ip : option IpAddr) :
  outcome Token :=
  value ← parse_bearer_token (default EmptyString header);
  token ← ok_or Unauthorized (find_by_secret repo value);
  _ ← check_token e client_ip token;
  Ok token.

(** [validate_token]: the times of last use are not asked for. *)
Definition ro_validate_token (e : Env) (header : option string) (client_ip : option IpAddr) :
  ST ReadOnlyTokenRepository Token :=
  _ ← update_repo e;
  value ← st_lift (parse_bearer_token (default EmptyString header));
  s ← st_get;
  let '(hit, cache) := cache_get (e_cache_time e) value (ro_auth_cache s) in
  _ ← st_modify (ro_with_cache cache);
  match hit with
  | Some token =>
      match check_token e client_ip token with
      | Ok _ => mret token
      | Err err =>
          _ ← st_modify (λ s, ro_with_cache (cache_remove value (ro_auth_cache s)).2 s);
          st_throw err
      | Panic => st_lift Panic
      end
  | None =>
      token ← st_lift (access_validate_token e (ro_repo s) (Some ("Bearer " +:+ value)) client_ip);
      s ← st_get;
      inserted ← st_lift (cache_insert (e_cache_time e) (e_cache_scan e) value token (ro_auth_cache s));
      _ ← st_modify (ro_with_cache inserted.2);
      mret token
  end.

Definition ro_validate_token_with_last_access (e : Env) (header : option string) (client_ip : option IpAddr) :
  ST ReadOnlyTokenRepository Token :=
  _ ← update_repo e;
  s ← st_get;
  token ← st_lift (access_validate_token e (ro_repo s) header client_ip);
  ro_populate e token.

Definition ro_get_token (e : Env) (name : string) : ST ReadOnlyTokenRepository Token :=
  _ ← update_repo e; s ← st_get; st_lift (access_get_token (ro_repo s) name).
Definition ro_get_token_with_last_access (e : Env) (name : string) : ST ReadOnlyTokenRepository Token :=
  token ← ro_get_token e name; ro_populate e token.
Definition ro_get_token_list (e : Env) : ST ReadOnlyTokenRepository (list Token) :=
  _ ← update_repo e; s ← st_get; mret (access_get_token_list (ro_repo s)).
Fixpoint ro_populate_all (envs : string → Env) (tokens : list Token) : ST ReadOnlyTokenRepository (list Token) :=
  match tokens with
  | [] => mret []
  | t :: rest =>
      t' ← ro_populate (envs (t_name t)) t;
      rest' ← ro_populate_all envs rest;
      mret (t' :: rest')
  end.
Definition ro_get_token_list_with_last_access (e : Env) (envs : string → Env) : ST ReadOnlyTokenRepository (list Token) :=
  tokens ← ro_get_token_list e; ro_populate_all envs tokens.

(** The changes a replica refuses. *)
Definition ro_refuse {A} : ST ReadOnlyTokenRepository A := st_throw Forbidden.
Definition ro_generate_token (name : string) (q : TokenCreateRequest) : ST ReadOnlyTokenRepository TokenCreateResponse := ro_refuse.
Definition ro_update_token (t : Token) : ST ReadOnlyTokenRepository () := ro_refuse.
Definition ro_remove_token (name : string) : ST ReadOnlyTokenRepository () := ro_refuse.
Definition ro_rotate_token (name : string) : ST ReadOnlyTokenRepository TokenCreateResponse := ro_refuse.
Definition ro_remove_bucket (bucket : string) : ST ReadOnlyTokenRepository () := ro_refuse.
Definition ro_rename_bucket (old_name new_name : string) : ST ReadOnlyTokenRepository () := ro_refuse.
End ReadOnly.

(** ** Without authentication (disabled.rs) *)

Definition no_auth_validate_token (e : Env) : outcome Token :=
  Ok (mkToken "AUTHENTICATION-DISABLED" EmptyString (e_created e) (Some (mkPermissions true [] []))
        false None None None [] false).
Definition no_auth_generate_token (name : string) (q : TokenCreateRequest) : outcome TokenCreateResponse := Err BadRequest.
Definition no_auth_get_token (name : string) : outcome Token := Err BadRequest.
Definition no_auth_update_token (t : Token) : outcome () := Err BadRequest.
Definition no_auth_rotate_token (name : string) : outcome TokenCreateResponse := Err BadRequest.
Definition no_auth_get_token_list : outcome (list Token) := Ok [].
Definition no_auth_remove_token (name : string) : outcome () := Ok tt.

(** ** What a repository promises *)

Section Interface.
Context `{HL : HashIterLaws, SL : SecretsLaws, CL : ChronoLaws, TL : TokenCodecLaws}.

(** Validation, the tokens it holds, and the states it can be in. *)
Class TokenSource (R : Type) := {
  src_validate : Env → option string → option IpAddr → ST R Token;
  src_tokens : R → gmap string Token;
  src_inv : R → Prop
}.

(** A validated token is one the repository holds after the call, but for the time
    of its last use; its secret was presented, it is alive and admits the client. *)
Definition vouched `{TokenSource R} (e : Env) (header : option string) (ip : option IpAddr) (s : R) (t : Token) : Prop :=
  ∃ v n t0, header = Some ("Bearer " +:+ v) ∧ src_tokens s !! n = Some t0 ∧
    verify_token_secret (t_value t0) v = true ∧ t = with_last_access (t_last_access t) t0 ∧
    check_token e ip t = Ok tt.

Class TokenSourceLaws (R : Type) `{TokenSource R} : Prop := {
  src_sound e header ip (s s' : R) t :
    src_inv s → src_validate e header ip s = (Ok t, s') → vouched e header ip s' t;
  src_keeps e header ip (s : R) : src_inv s → src_inv (src_validate e header ip s).2
}.

(** [TokenAuthorization::check]. *)
Definition check `{TokenSource R} (api_token : string) (e : Env) (header : option string) (ip : option IpAddr)
  (policy : Policy) : ST R () := λ s,
  if decide (api_token = EmptyString) then (Ok tt, s)
  else let '(token, s') := src_validate e header ip s in (policy_validate policy token, s').

(** ** The primary *)

#[export] Instance primary_source : TokenSource TokenRepository := {|
  src_validate := validate_token; src_tokens := tr_repo; src_inv := cache_inv
|}.

#[export] Instance primary_source_laws : TokenSourceLaws TokenRepository.
Proof.
  split; simpl.
  - intros e header ip s s' t Hi Hrun.
    destruct (validate_run e header ip s Hi) as (r & s1 & Hrun1 & Hsame & _ & Hv).
    rewrite Hrun in Hrun1. injection Hrun1 as <- <-. destruct Hv as (v & -> & t0 & [[n Hn] Hver] & -> & Hck).
    exists v, n, t0. simpl. rewrite (proj1 Hsame). do 3 (split; [done|]). split; [apply presented_only_access|done].
  - intros e header ip s Hi. by destruct (validate_run e header ip s Hi) as (r & s1 & -> & _ & ? & _).
Qed.

(** ** The replica *)

Definition ro_inv (s : ReadOnlyTokenRepository) : Prop :=
  cache_size (ro_auth_cache s) = AUTH_CACHE_SIZE ∧
  ∀ v t, cached (ro_auth_cache s) !! v = Some t →
    ∃ n, ro_repo s !! n = Some t ∧ verify_token_secret (t_value t) v = true.

Lemma update_repo_inv e s : ro_inv s → ro_inv (update_repo e s).2.
Proof.
  intros Hi. unfold update_repo. simpl_st. case_match; [done|]. simpl_st.
  destruct (load_repo _ _); try apply Hi. split; [apply Hi|]. simpl. intros v t.
  pose proof (cached_clear (ro_auth_cache s)) as Hc. unfold cached in *. simpl in *. by rewrite Hc.
Qed.

Lemma ro_inv_shrink s c :
  ro_inv s → cache_size c = AUTH_CACHE_SIZE → cached c ⊆ cached (ro_auth_cache s) → ro_inv (ro_with_cache c s).
Proof. intros [_ Hc] Hsz Hsub. split; [done|]. simpl. intros v t Ht. apply Hc. by eapply lookup_weaken. Qed.

Lemma access_validate_ok e repo v ip t :
  access_validate_token e repo (Some ("Bearer " +:+ v)) ip = Ok t →
  (∃ n, repo !! n = Some t) ∧ verify_token_secret (t_value t) v = true ∧ check_token e ip t = Ok tt.
Proof.
  unfold access_validate_token.
  destruct (bearer_cases (Some ("Bearer " +:+ v))) as [(w & -> & Hw)|[_ Hno]]; [|by destruct (Hno v)].
  assert (v = w) as <- by (by injection Hw).
  cbn [mbind outcome_bind]. destruct (find_by_secret repo v) as [t0|] eqn:Ef; [|done]. simpl.
  destruct (check_token e ip t0) as [[]|err|] eqn:Ec; try done. simpl. intros [= <-].
  apply find_by_secret_some in Ef as [? ?]. done.
Qed.

(** Validation on a state that was brought up to date. *)
Lemma ro_validate_run e header ip s s1 :
  ro_inv s → update_repo e s = (Ok tt, s1) →
  ∃ r s', ro_validate_token e header ip s = (r, s') ∧ ro_inv s' ∧ ro_repo s' = ro_repo s1 ∧
    (∀ t, r = Ok t → ∃ v n, header = Some ("Bearer " +:+ v) ∧ ro_repo s' !! n = Some t ∧
       verify_token_secret (t_value t) v = true ∧ check_token e ip t = Ok tt).
Proof.
  intros Hi Hu. pose proof (update_repo_inv e s Hi) as Hi1. rewrite Hu in Hi1. simpl in Hi1.
  unfold ro_validate_token. rewrite (st_bind_ok _ _ _ _ _ Hu).
  destruct (bearer_cases header) as [(v & -> & ->)|[-> _]].
  2:{ exists (Err Unauthorized), s1. by simpl_st. }
  rewrite (st_bind_ok _ _ _ v s1) by done. rewrite (st_bind_ok _ _ _ s1 s1) by done.
  pose proof (cached_touch (e_cache_time e) v (ro_auth_cache s1)) as Htouch.
  assert ((cache_get (e_cache_time e) v (ro_auth_cache s1)).1 = cached (ro_auth_cache s1) !! v) as Hhit.
  { unfold cache_get, cached. simpl. by rewrite lookup_fmap. }
  assert (cache_size (cache_get (e_cache_time e) v (ro_auth_cache s1)).2 = AUTH_CACHE_SIZE) as Hsz by apply Hi1.
  destruct (cache_get _ _ _) as [hit c]. simpl in Hhit, Htouch, Hsz.
  assert (ro_inv (ro_with_cache c s1)) as Hi2 by (apply ro_inv_shrink; [done|done|by rewrite Htouch]).
  rewrite (st_bind_ok _ _ _ tt (ro_with_cache c s1)) by done.
  destruct hit as [t|].
  - destruct (proj2 Hi1 v t (eq_sym Hhit)) as (n & Hn & Hver).
    destruct (check_token_cases e ip t) as [Hck|Hck]; rewrite Hck.
    + exists (Ok t), (ro_with_cache c s1). do 3 (split; [done|]). intros t' [= <-]. by exists v, n.
    + eexists (Err Unauthorized), _. split; [reflexivity|]. split; [|done].
      apply ro_inv_shrink; [done|done|]. rewrite cached_remove. apply delete_subseteq.
  - destruct (access_validate_token e (ro_repo s1) (Some ("Bearer " +:+ v)) ip) as [t|err|] eqn:Ea.
    2,3: by eexists _, (ro_with_cache c s1).
    apply access_validate_ok in Ea as ([n Hn] & Hver & Hck).
    rewrite (st_bind_ok _ _ _ t (ro_with_cache c s1)) by done.
    rewrite (st_bind_ok _ _ _ (ro_with_cache c s1) (ro_with_cache c s1)) by done.
    destruct (cache_insert_view e v t c) as (rm & c' & Hins & Hsz' & Hsub); [done|].
    change (ro_auth_cache (ro_with_cache c s1)) with c. rewrite Hins.
    exists (Ok t), (ro_with_cache c' (ro_with_cache c s1)). split; [done|]. split; [|split; [done|]].
    + split; [done|]. simpl. intros w x Hx. eapply lookup_weaken in Hx; [|done].
      apply lookup_insert_Some in Hx as [[<- <-]|[_ Hx]]; [by exists n|]. rewrite Htouch in Hx. by apply Hi1.
    + intros t' [= <-]. by exists v, n.
Qed.

#[export] Instance replica_source : TokenSource ReadOnlyTokenRepository := {|
  src_validate := ro_validate_token; src_tokens := ro_repo; src_inv := ro_inv
|}.

Lemma ro_validate_failed e header ip s r s1 :
  update_repo e s = (r, s1) → r ≠ Ok tt →
  ∃ r', ro_validate_token e header ip s = (r', s1) ∧ ∀ t, r' ≠ Ok t.
Proof.
  intros Hu Hr. unfold ro_validate_token, mbind, ST_bind. rewrite Hu.
  destruct r as [[]|err|]; [done|by exists (Err err)|by exists Panic].
Qed.

#[export] Instance replica_source_laws : TokenSourceLaws ReadOnlyTokenRepository.
Proof.
  split; simpl.
  - intros e header ip s s' t Hi Hrun. destruct (update_repo e s) as [r s1] eqn:Hu.
    destruct (decide (r = Ok tt)) as [->|Hr].
    + destruct (ro_validate_run e header ip s s1 Hi Hu) as (r & s2 & Hrun2 & _ & _ & Ht).
      rewrite Hrun in Hrun2. injection Hrun2 as <- <-. destruct (Ht t eq_refl) as (v & n & -> & Hn & Hver & Hck).
      exists v, n, t. simpl. split_and!; try done. by destruct t.
    + destruct (ro_validate_failed e header ip s r s1 Hu Hr) as (r' & Hrun' & Hno).
      rewrite Hrun in Hrun'. injection Hrun' as <- _. by destruct (Hno t).
  - intros e header ip s Hi. destruct (update_repo e s) as [r s1] eqn:Hu.
    destruct (decide (r = Ok tt)) as [->|Hr].
    + by destruct (ro_validate_run e header ip s s1 Hi Hu) as (r & s2 & -> & ? & _).
    + destruct (ro_validate_failed e header ip s r s1 Hu Hr) as (r' & -> & _).
      pose proof (update_repo_inv e s Hi) as H'. by rewrite Hu in H'.
Qed.

(** ** Authorization *)

Lemma permits_access policy a t : permits policy (with_last_access a t) = permits policy t.
Proof. by destruct policy. Qed.

(** C23: a request passes the check of an endpoint exactly when authentication is
    disabled, or the endpoint is open to anyone, or its bearer token is validated and
    has the permission the endpoint asks for.  When it passes on a server with
    authentication, a token that the repository holds at that moment has the presented
    secret, is alive, admits the client and has the permission.  This holds for every
    repository that keeps the promise of [TokenSourceLaws], and the one of a primary and
    the one of a replica do. *)
Theorem authorized_request_has_permission `{TokenSourceLaws R} api_token e header ip policy (s s' : R) r :
  src_inv s → check api_token e header ip policy s = (r, s') →
  src_inv s' ∧
  (r = Ok tt ↔ api_token = EmptyString ∨ policy = AnonymousPolicy ∨
     ∃ t, (src_validate e header ip s).1 = Ok t ∧ permits policy t) ∧
  (r = Ok tt → api_token ≠ EmptyString → policy ≠ AnonymousPolicy →
     ∃ v n t0 a, header = Some ("Bearer " +:+ v) ∧ src_tokens s' !! n = Some t0 ∧
       verify_token_secret (t_value t0) v = true ∧
       token_is_expired (with_last_access a t0) (e_now e) = false ∧
       check_token_ip_allowlist t0 ip = Ok tt ∧ permits policy t0).
Proof.
  intros Hi. unfold check. case_decide as Ha.
  { intros [= <- <-]. split; [done|]. split; [tauto|done]. }
  pose proof (src_keeps e header ip s Hi) as Hi'.
  destruct (src_validate e header ip s) as [token s1] eqn:Hv. intros [= <- <-]. split; [done|].
  assert (policy_validate policy token = Ok tt ↔ policy = AnonymousPolicy ∨ ∃ t, token = Ok t ∧ permits policy t) as Hiff.
  { destruct token as [t|err|]; [rewrite policy_validate_ok|by destruct policy; simpl; naive_solver..].
    split; [by right; exists t|]. intros [->|(t' & [= <-] & ?)]; done. }
  simpl. split; [rewrite Hiff; tauto|]. rewrite Hiff. intros [->|(t & -> & Hp)] _ Hanon; [done|].
  destruct (src_sound e header ip s s1 t Hi Hv) as (v & n & t0 & Hh & Hn & Hver & Heq & Hck).
  exists v, n, t0, (t_last_access t). unfold check_token, check_token_lifetime in Hck.
  rewrite Heq in Hp, Hck. rewrite permits_access in Hp. simpl in Hck.
  destruct (token_is_expired _ _); [done|]. done.
Qed.
End Interface.

(** ** Witness *)

Section Witness.
Existing Instance std_order.
Existing Instance std_order_laws.
Existing Instance ToyAuth.secrets.
Existing Instance ToyAuth.secrets_laws.
Existing Instance ToyAuth.chrono.
Existing Instance ToyAuth.chrono_laws.
Existing Instance ToyAuth.codec.
Existing Instance ToyAuth.codec_laws.

Lemma authorized_request_has_permission_witness :
  ∃ s', check "root" (demo_env Saved) (Some ("Bearer " +:+ demo_secret)) None (ReadAccessPolicy "bucket1") demo_used = (Ok tt, s') ∧
    cache_inv s' ∧ ∃ n t0, tr_repo s' !! n = Some t0 ∧ permits (ReadAccessPolicy "bucket1") t0.
Proof.
  destruct (check "root" (demo_env Saved) (Some ("Bearer " +:+ demo_secret)) None (ReadAccessPolicy "bucket1") demo_used)
    as [r s'] eqn:E.
  assert (src_inv demo_used) as Hi0 by exact (ri_cache _ (reachable_inv _ demo_reachable)).
  destruct (authorized_request_has_permission "root" (demo_env Saved) (Some ("Bearer " +:+ demo_secret)) None
              (ReadAccessPolicy "bucket1") demo_used s' r Hi0 E) as (Hi & _ & H).
  assert ((check "root" (demo_env Saved) (Some ("Bearer " +:+ demo_secret)) None (ReadAccessPolicy "bucket1") demo_used).1 = Ok tt)
    as Hr by (vm_compute; reflexivity).
  rewrite E in Hr. simpl in Hr. destruct (H Hr) as (v & n & t0 & a & _ & Hn & _ & _ & _ & Hp); [discriminate..|].
  exists s'. split; [rewrite Hr; reflexivity|]. split; [exact Hi|]. exists n, t0. split; [exact Hn|exact Hp].
Defined.
End Witness.
