(* ===== verification/Limits.v ===== *)
(** * Rate limits (api/limits.rs)

    A fixed window per client: a counter of what was used since its window began,
    reset when the window is over; counters of clients that were not seen for longer
    than a window are forgotten.  The theorem bounds what a client can use in any
    interval as long as a window, and says that a client that was quiet is served. *)

From stdpp Require Import prelude gmap strings countable.
From Stdlib Require Import ZArith Lia.
From S2P Require Import Prelude Collections Text.
Open Scope Z_scope.

(** ** Data *)

Inductive LimitKind : Set := ApiRequests (n : Z) | IngressBytes (n : Z) | EgressBytes (n : Z).
Definition limit_amount (k : LimitKind) : Z :=
  match k with ApiRequests n | IngressBytes n | EgressBytes n => n end.

Inductive LimitScope : Set := ClientIp (ip : string) | GlobalFallback.

#[export] Instance LimitScope_eq_dec : EqDecision LimitScope.
Proof. solve_decision. Defined.
#[export] Instance LimitScope_countable : Countable LimitScope.
Proof.
  refine (inj_countable' (λ s, match s with ClientIp ip => Some ip | GlobalFallback => None end)
            (λ o, match o with Some ip => ClientIp ip | None => GlobalFallback end) _).
  by intros [].
Defined.

Definition limit_scope_from_client_ip (client_ip : option string) : LimitScope :=
  match trim <$> client_ip with
  | Some ip => if decide (ip = EmptyString) then GlobalFallback else ClientIp ip
  | None => GlobalFallback
  end.

(** A [Duration] is a number of nanoseconds. *)
Definition as_secs (d : Z) : Z := d / 1000000000.
Definition from_secs (n : Z) : Z := n * 1000000000.

Record WindowLimit := mkWindowLimit { wl_amount : Z; wl_window : Z }.
Definition window_limit_new (amount window : Z) : WindowLimit :=
  mkWindowLimit amount (if decide (window = 0) then from_secs 1 else window).

Record LimitsConfig := mkLimitsConfig {
  api_requests_per_window : option WindowLimit;
  ingress_bytes_per_window : option WindowLimit;
  egress_bytes_per_window : option WindowLimit
}.

Record WindowCounter := mkWindowCounter {
  wc_limit : option WindowLimit;
  wc_used : Z;
  wc_window_start_secs : option Z
}.
Definition window_counter_new (limit : option WindowLimit) : WindowCounter := mkWindowCounter limit 0 None.

(** ** A counter *)


(** What [LimitExceeded] tells the client, besides the scope and the kind. *)
Record LimitExceeded := mkLimitExceeded { le_limit : Z; le_used : Z; le_retry_after : Z }.

(** [WindowCounter::consume]. *)
Definition consume (kind : LimitKind) (now : Z) (c : WindowCounter) : option LimitExceeded * WindowCounter :=
  let amount := limit_amount kind in
  match wc_limit c with
  | None => (None, c)
  | Some limit =>
      let window_secs := Z.max (as_secs (wl_window limit)) 1 in
      let '(start, c) :=
        match wc_window_start_secs c with
        | Some start =>
            if decide (window_secs ≤ u64_sat_sub now start) then (now, mkWindowCounter (wc_limit c) 0 (Some now))
            else (start, c)
        | None => (now, mkWindowCounter (wc_limit c) (wc_used c) (Some now))
        end in
      let used_after := u64_sat_add (wc_used c) amount in
      if decide (wl_amount limit < used_after) then
        let retry := Z.max (u64_sat_sub window_secs (u64_sat_sub now start)) 1 in
        (Some (mkLimitExceeded (wl_amount limit) used_after (from_secs retry)), c)
      else (None, mkWindowCounter (wc_limit c) used_after (wc_window_start_secs c))
  end.

(** ** Counters by client *)

(** [prune_stale_scopes]. *)
Definition fresh_counter (now window : Z) (c : WindowCounter) : Prop :=
  match wc_window_start_secs c with
  | Some start => u64_sat_sub now start ≤ Z.max (as_secs window) 1
  | None => False
  end.
#[export] Instance fresh_counter_dec now window c : Decision (fresh_counter now window c).
Proof. unfold fresh_counter. destruct (wc_window_start_secs c); apply _. Defined.
Definition prune_stale_scopes (now window : Z) (counters : gmap LimitScope WindowCounter) : gmap LimitScope WindowCounter :=
  filter (λ sc, fresh_counter now window sc.2) counters.

(** [consume_for_scope]. *)
Definition consume_for_scope (limit : option WindowLimit) (scope : LimitScope) (kind : LimitKind) (now : Z)
  (counters : gmap LimitScope WindowCounter) : outcome () * gmap LimitScope WindowCounter :=
  match limit with
  | None => (Ok tt, counters)
  | Some limit =>
      let counters := prune_stale_scopes now (wl_window limit) counters in
      let counter := default (window_counter_new (Some limit)) (counters !! scope) in
      let '(exceeded, counter) := consume kind now counter in
      (match exceeded with Some _ => Err TooManyRequests | None => Ok tt end, <[scope := counter]> counters)
  end.

(** [RateLimits] and the one without limits. *)
Record RateLimits := mkRateLimits {
  api_limit : option WindowLimit;
  ingress_limit : option WindowLimit;
  egress_limit : option WindowLimit;
  rl_api : gmap LimitScope WindowCounter;
  rl_ingress : gmap LimitScope WindowCounter;
  rl_egress : gmap LimitScope WindowCounter
}.

Definition resolve_window (window_override : option Z) (limit : WindowLimit) : WindowLimit :=
  window_limit_new (wl_amount limit) (default (Z.max (wl_window limit) (from_secs 1)) window_override).

Definition rate_limits_new (config : LimitsConfig) (window_override : option Z) : RateLimits :=
  mkRateLimits (resolve_window window_override <$> api_requests_per_window config)
    (resolve_window window_override <$> ingress_bytes_per_window config)
    (resolve_window window_override <$> egress_bytes_per_window config) ∅ ∅ ∅.

Definition consume_scoped (scope : LimitScope) (kind : LimitKind) (now : Z) : ST RateLimits () := λ s,
  match kind with
  | ApiRequests _ =>
      let '(r, m) := consume_for_scope (api_limit s) scope kind now (rl_api s) in
      (r, mkRateLimits (api_limit s) (ingress_limit s) (egress_limit s) m (rl_ingress s) (rl_egress s))
  | IngressBytes _ =>
      let '(r, m) := consume_for_scope (ingress_limit s) scope kind now (rl_ingress s) in
      (r, mkRateLimits (api_limit s) (ingress_limit s) (egress_limit s) (rl_api s) m (rl_egress s))
  | EgressBytes _ =>
      let '(r, m) := consume_for_scope (egress_limit s) scope kind now (rl_egress s) in
      (r, mkRateLimits (api_limit s) (ingress_limit s) (egress_limit s) (rl_api s) (rl_ingress s) m)
  end.
Definition check_api_request_for (scope : LimitScope) (now : Z) : ST RateLimits () := consume_scoped scope (ApiRequests 1) now.
Definition check_ingress_for (scope : LimitScope) (bytes now : Z) : ST RateLimits () := consume_scoped scope (IngressBytes bytes) now.
Definition check_egress_for (scope : LimitScope) (bytes now : Z) : ST RateLimits () := consume_scoped scope (EgressBytes bytes) now.

(** ** Requests and what was granted of them *)

Record Request := mkRequest { rq_scope : LimitScope; rq_kind : LimitKind; rq_now : Z }.

(** The requests answered one after another; which were granted, newest first. *)
Fixpoint serve (limit : WindowLimit) (l : list Request) (granted : list Request) (counters : gmap LimitScope WindowCounter) :
  list Request * gmap LimitScope WindowCounter :=
  match l with
  | [] => (granted, counters)
  | q :: l' =>
      let '(r, counters') := consume_for_scope (Some limit) (rq_scope q) (rq_kind q) (rq_now q) counters in
      serve limit l' (match r with Ok _ => q :: granted | _ => granted end) counters'
  end.

(** What a client was granted from second [a] until before second [b]. *)
Fixpoint used_between (scope : LimitScope) (a b : Z) (granted : list Request) : Z :=
  match granted with
  | [] => 0
  | q :: l =>
      (if decide (rq_scope q = scope) then
         if decide (a ≤ rq_now q < b) then limit_amount (rq_kind q) else 0
       else 0) + used_between scope a b l
  end.

(** The clock does not go back and the amounts are [u64]. *)
Fixpoint ordered (last : Z) (l : list Request) : Prop :=
  match l with
  | [] => True
  | q :: l' => last ≤ rq_now q < two64 ∧ is_u64 (limit_amount (rq_kind q)) ∧ ordered (rq_now q) l'
  end.

Section Bound.
Context (limit : WindowLimit) (Hamount : is_u64 (wl_amount limit) ∧ wl_amount limit < u64_max).
Let W := Z.max (as_secs (wl_window limit)) 1.
Let L := wl_amount limit.

(** Everything of one client that counts: its window began at [ws], and [used] was
    granted since; what was granted in the window before is at most the limit. *)
Record window_inv (scope : LimitScope) (ws used last : Z) (granted : list Request) : Prop := {
  wi_used : used_between scope ws (ws + W) granted = used;
  wi_later : ∀ a b, ws + W ≤ a → used_between scope a b granted = 0;
  wi_limit : 0 ≤ used ≤ L;
  wi_before : ∀ a b, ws - W < a → b ≤ ws → used_between scope a b granted ≤ L;
  wi_any : ∀ a, used_between scope a (a + W) granted ≤ 2 * L;
  wi_start : ws ≤ last;
  wi_past : ∀ a b, last < a → used_between scope a b granted = 0;
  wi_amounts : Forall (λ q, 0 ≤ limit_amount (rq_kind q)) granted
}.

(** The counter of a client says the same, or it was forgotten and its window is over. *)
Definition counter_inv (scope : LimitScope) (ws used last : Z) (counters : gmap LimitScope WindowCounter) : Prop :=
  match counters !! scope with
  | Some c => c = mkWindowCounter (Some limit) used (Some ws) ∧ 0 ≤ ws
  | None => ws + W ≤ last
  end.

Lemma W_pos : 0 < W.
Proof. unfold W. lia. Qed.

(** ** Sums over intervals *)

Lemma used_between_nonneg scope a b granted :
  Forall (λ q, 0 ≤ limit_amount (rq_kind q)) granted → 0 ≤ used_between scope a b granted.
Proof. induction 1 as [|q l Hq _ IH]; simpl; [lia|]. repeat case_decide; lia. Qed.

Lemma used_between_split scope a b c granted :
  a ≤ b ≤ c → used_between scope a c granted = used_between scope a b granted + used_between scope b c granted.
Proof. intros Habc. induction granted as [|q l IH]; simpl; [lia|]. rewrite IH. repeat case_decide; lia. Qed.

Lemma used_between_mono scope a b a' b' granted :
  Forall (λ q, 0 ≤ limit_amount (rq_kind q)) granted → a' ≤ a → b ≤ b' →
  used_between scope a b granted ≤ used_between scope a' b' granted.
Proof. intros Hq Ha Hb. induction Hq as [|q l Hq _ IH]; simpl; [lia|]. repeat case_decide; lia. Qed.

(** ** One request *)

Lemma new_window scope ws used last granted now :
  window_inv scope ws used last granted → ws + W ≤ now → last ≤ now → window_inv scope now 0 now granted.
Proof.
  intros Hi Hw Hn. pose proof W_pos. pose proof (wi_limit _ _ _ _ _ Hi).
  assert (∀ a b, now ≤ a → used_between scope a b granted = 0) as Hz.
  { intros a b Ha. apply (wi_later _ _ _ _ _ Hi). lia. }
  split; [by apply Hz|intros a b Ha; apply Hz; lia|lia| |apply Hi|lia|intros a b Ha; apply Hz; lia|apply Hi].
  - intros a b Ha Hb. etrans; [|apply (wi_limit _ _ _ _ _ Hi)].
    etrans; [apply (used_between_mono _ _ _ ws (Z.max (ws + W) b)); [apply Hi|lia|lia]|].
    rewrite (used_between_split _ ws (ws + W)) by lia.
    rewrite (wi_used _ _ _ _ _ Hi), (wi_later _ _ _ _ _ Hi) by lia. lia.
Qed.

Lemma grant_inv scope ws used granted q :
  window_inv scope ws used (rq_now q) granted → rq_now q < ws + W → rq_scope q = scope →
  0 ≤ limit_amount (rq_kind q) → used + limit_amount (rq_kind q) ≤ L →
  window_inv scope ws (used + limit_amount (rq_kind q)) (rq_now q) (q :: granted).
Proof.
  intros Hi Hw Hsc Ha Hl. pose proof W_pos. pose proof (wi_start _ _ _ _ _ Hi). pose proof (wi_limit _ _ _ _ _ Hi).
  split; [| |lia| | |lia| |].
  - simpl. rewrite (wi_used _ _ _ _ _ Hi), decide_True, decide_True by (done || lia). lia.
  - intros a b Hab. simpl. rewrite (wi_later _ _ _ _ _ Hi) by lia. repeat case_decide; lia.
  - intros a b Hab Hb. simpl. pose proof (wi_before _ _ _ _ _ Hi a b Hab Hb). repeat case_decide; lia.
  - intros a. simpl. pose proof (wi_any _ _ _ _ _ Hi a). case_decide; [|lia]. case_decide as Hin; [|lia].
    destruct (decide (a ≤ ws)) as [Hle|Hgt].
    + rewrite (used_between_split _ a ws) by lia. pose proof (wi_before _ _ _ _ _ Hi a ws ltac:(lia) ltac:(lia)).
      pose proof (used_between_mono scope ws (a + W) ws (ws + W) granted (wi_amounts _ _ _ _ _ Hi) ltac:(lia) ltac:(lia)) as Hm.
      rewrite (wi_used _ _ _ _ _ Hi) in Hm. lia.
    + pose proof (used_between_mono scope a (a + W) ws (a + W) granted (wi_amounts _ _ _ _ _ Hi) ltac:(lia) ltac:(lia)) as Hm.
      rewrite (used_between_split _ ws (ws + W) (a + W)) in Hm by lia.
      rewrite (wi_used _ _ _ _ _ Hi), (wi_later _ _ _ _ _ Hi (ws + W)) in Hm by lia. lia.
  - intros a b Hab. simpl. rewrite (wi_past _ _ _ _ _ Hi) by lia. repeat case_decide; lia.
  - constructor; [done|apply Hi].
Qed.

(** What a counter that is at [ws, used] answers. *)
Lemma consume_current kind now ws used :
  0 ≤ used ≤ L → is_u64 (limit_amount kind) → 0 ≤ ws ≤ now → now < ws + W → now < two64 →
  consume kind now (mkWindowCounter (Some limit) used (Some ws)) =
    if decide (used + limit_amount kind ≤ L)
    then (None, mkWindowCounter (Some limit) (used + limit_amount kind) (Some ws))
    else ((consume kind now (mkWindowCounter (Some limit) used (Some ws))).1, mkWindowCounter (Some limit) used (Some ws)).
Proof.
  intros Hu Ha Hws Hw Hn. unfold consume. simpl. unfold u64_sat_sub, u64_sat_add.
  rewrite decide_False by (unfold W in Hw; u64_lia). simpl.
  destruct (decide (used + limit_amount kind ≤ L)).
  - rewrite decide_False by (unfold L in *; u64_lia). f_equal. f_equal. unfold L in *. u64_lia.
  - rewrite decide_True by (unfold L in *; u64_lia). done.
Qed.

(** A counter that is new, or whose window is over, answers as one that begins now. *)
Lemma consume_over kind now c :
  c = window_counter_new (Some limit) ∨
    (∃ used ws, c = mkWindowCounter (Some limit) used (Some ws) ∧ ws + W ≤ now ∧ 0 ≤ ws) →
  consume kind now c = consume kind now (mkWindowCounter (Some limit) 0 (Some now)).
Proof.
  assert (0 < Z.max (as_secs (wl_window limit)) 1) as HW by lia.
  unfold consume. intros [->|(used & ws & -> & Hw & H0)]; simpl; unfold u64_sat_sub.
  - rewrite (decide_False (P := _ ≤ (now - now) `max` 0)) by lia. done.
  - rewrite decide_True by (unfold W in Hw; lia).
    rewrite (decide_False (P := _ ≤ (now - now) `max` 0)) by lia. done.
Qed.

(** What the counter of a client is when its request is looked at. *)
Lemma counter_lookup scope ws used last now counters :
  counter_inv scope ws used last counters → ws ≤ last ≤ now → 0 ≤ last → 0 ≤ used ≤ L →
  let counter := default (window_counter_new (Some limit)) (prune_stale_scopes now (wl_window limit) counters !! scope) in
  (counter = mkWindowCounter (Some limit) used (Some ws) ∧ 0 ≤ ws ∧ now < ws + W) ∨
  (ws + W ≤ now ∧ ∀ kind, consume kind now counter = consume kind now (mkWindowCounter (Some limit) 0 (Some now))).
Proof.
  intros Hc Hl H0 Hu. unfold counter_inv in Hc. cbv zeta. unfold prune_stale_scopes. rewrite map_lookup_filter.
  destruct (counters !! scope) as [c|]; simpl.
  - destruct Hc as [-> Hws]. destruct (decide (now < ws + W)) as [Hin|Hout].
    + left. rewrite option_guard_True; [done|]. unfold fresh_counter, u64_sat_sub. simpl. unfold W in Hin. lia.
    + right. split; [lia|]. intros kind. apply consume_over.
      case_guard; simpl; [right; exists used, ws; split; [done|lia]|by left].
  - right. split; [lia|]. intros kind. apply consume_over. by left.
Qed.

Lemma window_inv_other scope ws used last now granted (g : option Request) :
  window_inv scope ws used last granted → last ≤ now →
  (∀ q, g = Some q → rq_scope q ≠ scope ∧ 0 ≤ limit_amount (rq_kind q)) →
  window_inv scope ws used now (match g with Some q => q :: granted | None => granted end).
Proof.
  intros Hi Hn Hg. pose proof (wi_start _ _ _ _ _ Hi).
  assert (∀ a b, now < a → used_between scope a b granted = 0) as Hp.
  { intros a b Ha. apply (wi_past _ _ _ _ _ Hi). lia. }
  destruct g as [q|]; [|split; try apply Hi; try lia; exact Hp]. destruct (Hg q eq_refl) as [Hq Ha].
  split; simpl; try rewrite decide_False by done; try apply Hi; try lia.
  - intros a b Hab. rewrite decide_False by done. by apply (wi_later _ _ _ _ _ Hi).
  - intros a b Hab Hb. rewrite decide_False by done. by apply (wi_before _ _ _ _ _ Hi).
  - intros a. rewrite decide_False by done. apply (wi_any _ _ _ _ _ Hi).
  - intros a b Hab. rewrite decide_False by done. by apply Hp.
  - constructor; [done|apply Hi].
Qed.

Definition granted_after (r : outcome ()) (q : Request) (granted : list Request) : list Request :=
  match r with Ok _ => q :: granted | _ => granted end.

(** A request whose counter is at [ws, used], within its window. *)
Lemma current_request scope ws used granted counters q counter :
  window_inv scope ws used (rq_now q) granted → 0 ≤ ws → rq_now q < ws + W → rq_now q < two64 →
  is_u64 (limit_amount (rq_kind q)) → rq_scope q = scope →
  consume (rq_kind q) (rq_now q) counter = consume (rq_kind q) (rq_now q) (mkWindowCounter (Some limit) used (Some ws)) →
  let '(exceeded, c) := consume (rq_kind q) (rq_now q) counter in
  (exceeded = None ↔ used + limit_amount (rq_kind q) ≤ L) ∧
  ∃ used', window_inv scope ws used' (rq_now q) (match exceeded with Some _ => granted | None => q :: granted end) ∧
    counter_inv scope ws used' (rq_now q) (<[scope := c]> counters).
Proof.
  intros Hi H0 Hw Hn Ha Hq ->. pose proof (wi_limit _ _ _ _ _ Hi) as Hl. pose proof (wi_start _ _ _ _ _ Hi) as Hs.
  rewrite consume_current by (done || lia). case_decide as Hfit.
  - split; [done|]. exists (used + limit_amount (rq_kind q)). split; [apply grant_inv; try done; apply Ha|].
    unfold counter_inv. by rewrite lookup_insert_eq.
  - assert (∃ x, (consume (rq_kind q) (rq_now q) (mkWindowCounter (Some limit) used (Some ws))).1 = Some x) as [x Hx].
    { unfold consume. simpl. unfold u64_sat_sub. rewrite decide_False by (unfold W in Hw; lia). simpl.
      unfold u64_sat_add. rewrite decide_True by (unfold L in *; u64_lia). by eexists. }
    rewrite Hx. split; [done|]. exists used. split; [done|]. unfold counter_inv. by rewrite lookup_insert_eq.
Qed.

Lemma request_inv scope ws used last granted counters q :
  window_inv scope ws used last granted → counter_inv scope ws used last counters →
  0 ≤ last ≤ rq_now q → rq_now q < two64 → is_u64 (limit_amount (rq_kind q)) →
  let '(r, counters') := consume_for_scope (Some limit) (rq_scope q) (rq_kind q) (rq_now q) counters in
  (∃ ws' used', window_inv scope ws' used' (rq_now q) (granted_after r q granted) ∧
     counter_inv scope ws' used' (rq_now q) counters') ∧
  (rq_scope q = scope → limit_amount (rq_kind q) ≤ L →
     used_between scope (rq_now q - W + 1) (rq_now q + 1) granted = 0 → r = Ok tt).
Proof.
  intros Hi Hc Hl Hn Ha. pose proof (wi_start _ _ _ _ _ Hi) as Hs. pose proof (wi_limit _ _ _ _ _ Hi) as Hu.
  unfold consume_for_scope. destruct (decide (rq_scope q = scope)) as [Hq|Hq].
  - rewrite Hq.
    assert (window_inv scope ws used (rq_now q) granted) as Hi' by (apply (window_inv_other _ _ _ last _ _ None); [done|lia|done]).
    destruct (counter_lookup scope ws used last (rq_now q) counters Hc ltac:(lia) ltac:(lia) Hu)
      as [(Heq & H0 & Hw)|(Hw & Heq)].
    + pose proof (current_request scope ws used granted (prune_stale_scopes (rq_now q) (wl_window limit) counters) q _
        Hi' H0 Hw Hn Ha Hq (f_equal _ Heq)) as Hcur. destruct (consume _ _ _) as [ex c]. destruct Hcur as [Hex (used' & Hi1 & Hc1)].
      split; [exists ws, used'; destruct ex; done|]. intros _ Hfit Hz.
      assert (used = 0) as ->.
      { rewrite <-(wi_used _ _ _ _ _ Hi). apply Z.le_antisymm; [|apply used_between_nonneg, Hi].
        rewrite (used_between_split _ ws (rq_now q + 1) (ws + W)) by lia.
        rewrite (wi_past _ _ _ _ _ Hi' (rq_now q + 1)), Z.add_0_r by lia.
        etrans; [|apply Z.eq_le_incl, Hz]. apply used_between_mono; [apply Hi|lia|lia]. }
      by rewrite (proj2 Hex) by lia.
    + pose proof (new_window scope ws used last granted (rq_now q) Hi Hw ltac:(lia)) as Hi2. pose proof W_pos.
      pose proof (current_request scope (rq_now q) 0 granted (prune_stale_scopes (rq_now q) (wl_window limit) counters) q _
        Hi2 ltac:(lia) ltac:(lia) Hn Ha Hq (Heq _)) as Hcur.
      destruct (consume _ _ _) as [ex c]. destruct Hcur as [Hex (used' & Hi1 & Hc1)].
      split; [exists (rq_now q), used'; destruct ex; done|]. intros _ Hfit _. by rewrite (proj2 Hex) by lia.
  - destruct (consume _ _ _) as [ex c]. split; [|done]. exists ws, used. split.
    + destruct ex; simpl; [by apply (window_inv_other _ _ _ last _ _ None); [|lia|]|].
      apply (window_inv_other _ _ _ last _ _ (Some q)); [done|lia|]. intros q' [= <-]. split; [done|apply Ha].
    + unfold counter_inv in *. rewrite lookup_insert_ne by done. unfold prune_stale_scopes. rewrite map_lookup_filter.
      destruct (counters !! scope) as [c0|]; simpl; [|lia]. destruct Hc as [-> H0].
      case_guard as Hf; simpl; [done|]. unfold fresh_counter, u64_sat_sub in Hf. simpl in Hf. unfold W. lia.
Qed.

Lemma serve_inv scope l ws used last granted counters :
  window_inv scope ws used last granted → counter_inv scope ws used last counters → 0 ≤ last → ordered last l →
  ∃ ws' used' last', let '(granted', counters') := serve limit l granted counters in
    window_inv scope ws' used' last' granted' ∧ counter_inv scope ws' used' last' counters' ∧
    0 ≤ last' ∧ ∀ q, ordered last (l ++ [q]) → last' ≤ rq_now q < two64 ∧ is_u64 (limit_amount (rq_kind q)).
Proof.
  revert ws used last granted counters. induction l as [|q l IH]; intros ws used last granted counters Hi Hc H0 Ho; cbn [serve].
  { exists ws, used, last. split; [done|]. split; [done|]. split; [done|]. simpl. tauto. }
  destruct Ho as (Hn & Ha & Ho).
  pose proof (request_inv scope ws used last granted counters q Hi Hc ltac:(lia) ltac:(lia) Ha) as Hr.
  destruct (consume_for_scope _ _ _ _ _) as [r counters1]. destruct Hr as [(ws1 & used1 & Hi1 & Hc1) _].
  destruct (IH ws1 used1 (rq_now q) _ counters1 Hi1 Hc1 ltac:(lia) Ho) as (ws' & used' & last' & Hend).
  exists ws', used', last'. fold (granted_after r q granted). destruct (serve limit l _ counters1) as [g' c'].
  destruct Hend as (? & ? & ? & Hq). split; [done|]. split; [done|]. split; [done|]. intros q' Hq'. exact (Hq q' (proj2 (proj2 Hq'))).
Qed.

Lemma fresh_window_inv scope : window_inv scope (- W) 0 0 [] ∧ counter_inv scope (- W) 0 0 ∅.
Proof.
  pose proof W_pos. destruct Hamount as [[? ?] ?]. split.
  - split; simpl; try done; unfold L; lia.
  - unfold counter_inv. rewrite lookup_empty. lia.
Qed.
End Bound.

(** C31: the limit is kept and it is fair.  However requests of many clients interleave
    (with a clock that does not go back), in any interval as long as the window of the
    limit a client is granted at most twice the limit, which is the bound of fixed
    windows; and a client that was granted nothing for the length of a window is granted
    a request within the limit, also when its counter was forgotten in between. *)
Theorem rate_limit_bounds (limit : WindowLimit) (l : list Request) (scope : LimitScope) :
  is_u64 (wl_amount limit) → wl_amount limit < u64_max → ordered 0 l →
  let window := Z.max (as_secs (wl_window limit)) 1 in
  let '(granted, counters) := serve limit l [] ∅ in
  (∀ a, used_between scope a (a + window) granted ≤ 2 * wl_amount limit) ∧
  (∀ q, ordered 0 (l ++ [q]) → rq_scope q = scope → limit_amount (rq_kind q) ≤ wl_amount limit →
     used_between scope (rq_now q - window + 1) (rq_now q + 1) granted = 0 →
     (consume_for_scope (Some limit) (rq_scope q) (rq_kind q) (rq_now q) counters).1 = Ok tt).
Proof.
  intros Hu Hlt Ho window. pose proof (conj Hu Hlt) as Hamount.
  destruct (fresh_window_inv limit Hamount scope) as [Hi Hc].
  destruct (serve_inv limit Hamount scope l _ _ 0 [] ∅ Hi Hc ltac:(lia) Ho) as (ws & used & last & Hend).
  destruct (serve limit l [] ∅) as [granted counters]. destruct Hend as (Hi' & Hc' & H0 & Hq).
  split; [apply (wi_any _ _ _ _ _ _ Hi')|]. intros q Hoq Hs Hfit Hz. destruct (Hq q Hoq) as [Hn Ha].
  pose proof (request_inv limit Hamount scope ws used last granted counters q Hi' Hc' ltac:(lia) ltac:(lia) Ha) as Hr.
  destruct (consume_for_scope _ _ _ _ _) as [r c]. by apply Hr.
Qed.

Section Witness.
Let demo_limit : WindowLimit := mkWindowLimit 3 (from_secs 10).
Let ask (ip : string) (n now : Z) : Request := mkRequest (ClientIp ip) (ApiRequests n) now.
Definition demo_requests : list Request :=
  [ask "a" 2 1; ask "b" 3 2; ask "a" 2 3; ask "a" 1 9; ask "a" 3 12; ask "b" 1 30].

Lemma rate_limit_bounds_witness :
  (serve demo_limit demo_requests [] ∅).1 = [ask "b" 1 30; ask "a" 3 12; ask "a" 1 9; ask "b" 3 2; ask "a" 2 1] ∧
  used_between (ClientIp "a") 5 15 (serve demo_limit demo_requests [] ∅).1 ≤ 6.
Proof.
  split; [vm_compute; reflexivity|].
  assert (is_u64 3) as H3 by u64_lia. assert (3 < u64_max) as Hlt by u64_lia.
  assert (ordered 0 demo_requests) as Ho by (simpl; u64_lia).
  pose proof (rate_limit_bounds demo_limit demo_requests (ClientIp "a") H3 Hlt Ho) as H.
  destruct (serve demo_limit demo_requests [] ∅) as [granted counters]. exact (proj1 H 5).
Defined.
End Witness.
