(* ===== verification/Lifecycle.v ===== *)
(** * Lifecycle: policies that delete or compress old records
    (lifecycle/action/, lifecycle/lifecycle_task.rs, lifecycle/lifecycle_repository/repo.rs)

    A policy runs at an interval.  A run looks at the oldest and the latest record of the
    selected entries, takes the next window of time that is old enough, and asks the
    bucket to remove or to compress what is in it.  How far it got is read back from the
    events it logged. *)

From stdpp Require Import prelude gmap strings.
From Stdlib Require Import Ascii ZArith Lia.
From S2P Require Import Prelude Collections Text Value Condition Parser Pattern Entry.
Open Scope Z_scope.

(** ** Settings (msg/lifecycle_api.rs) *)

Inductive LifecycleType : Type := Delete | Compress.
Inductive LifecycleMode : Type := LcEnabled | LcDisabled | LcDryRun.
#[export] Instance LifecycleType_eq_dec : EqDecision LifecycleType.
Proof. solve_decision. Defined.
#[export] Instance LifecycleMode_eq_dec : EqDecision LifecycleMode.
Proof. solve_decision. Defined.

Record LifecycleSettings := mkLifecycle {
  lc_type : LifecycleType;
  lc_bucket : string;
  lc_entries : list string;
  lc_older_than : string;
  lc_interval : string;
  lc_when : option Json;
  lc_processing_interval : option string;
  lc_mode : LifecycleMode
}.

(** ** The window of a run (action/progress.rs) *)

Record ProcessingWindow := mkWindow {
  pw_start : Z;
  pw_stop : Z;
  pw_last_processed_ts : option Z;
  pw_reaches_cutoff : bool
}.

(** What a run sees: the entries that [Bucket::info] lists, or the error of it; what
    [read_progress] finds if events are on; and the clock. *)
Record Sight := mkSight {
  si_entries : outcome (list (string * EntryInfo));
  si_events_enabled : bool;
  si_progress : option Z;
  si_now : Z
}.

Definition min_by (f : EntryInfo → Z) (es : list (string * EntryInfo)) (z : Z) : Z :=
  foldr (λ e acc, f e.2 `min` acc) z es.
Definition max_by (f : EntryInfo → Z) (es : list (string * EntryInfo)) : Z :=
  foldr (λ e acc, f e.2 `max` acc) 0 es.

(** [matching_record_window]. *)
Definition matching_record_window (settings : LifecycleSettings) (si : Sight) (cutoff_stop : Z) : outcome (Z * Z) :=
  entries ← si_entries si;
  let requested := requested_entries (Some (lc_entries settings)) in
  let matching := filter (λ e, ei_record_count e.2 > 0 ∧ is_requested_entry e.1 requested = true) entries in
  if decide (matching = []) then Ok (cutoff_stop, cutoff_stop)
  else Ok (min_by ei_oldest_record matching cutoff_stop,
           max_by (λ i, u64_sat_add (ei_latest_record i) 1) matching `min` cutoff_stop).

(** [transpose]. *)
Definition parse_optional (duration : option string) : outcome (option Z) :=
  match duration with
  | Some d => us ← parse_duration_to_micros d; Ok (Some (us `max` 0))
  | None => Ok None
  end.

(** [processing_window]. *)
Definition processing_window (settings : LifecycleSettings) (si : Sight) (cutoff_stop : Z) : outcome ProcessingWindow :=
  '(first, effective) ← matching_record_window settings si cutoff_stop;
  processing ← parse_optional (lc_processing_interval settings);
  if negb (si_events_enabled si) then
    let stop := match processing with
                | Some interval => u64_sat_add first interval `min` effective
                | None => effective
                end in
    Ok (mkWindow (first `min` stop) stop None false)
  else
    interval ← parse_duration_to_micros (lc_interval settings);
    let interval := interval `max` 0 in
    let data_window := default ((interval * 24) `min` u64_max) processing in
    let last_processed := default first (si_progress si) in
    if decide (effective ≤ last_processed) then
      Ok (mkWindow (first `min` effective) effective (Some last_processed) true)
    else
      let stop := u64_sat_add last_processed data_window `min` effective in
      Ok (mkWindow (first `min` stop) stop (Some stop) (bool_decide (effective ≤ stop))).

(** ** A run (action/delete.rs, action/compress.rs) *)

(** What the bucket is asked for. *)
Inductive LcRequest : Type :=
| RemoveRecords (start stop : Z)
| CountRecords (start stop : Z)
| CompressBlocks (start stop : Z)
| EstimateCompressible (start stop : Z).

Record LifecycleRunResult := mkRunResult {
  lr_affected_records : Z;
  lr_last_processed_ts : option Z;
  lr_caught_up : bool
}.

(** [answer] is the number of records the bucket reports. *)
Definition lifecycle_run (settings : LifecycleSettings) (si : Sight) (answer : LcRequest → outcome Z)
    : outcome LifecycleRunResult * list LcRequest :=
  match (older_than ← parse_duration_to_micros (lc_older_than settings);
         let cutoff := u64_sat_sub (si_now si) (older_than `max` 0) in
         processing_window settings si (u64_sat_add cutoff 1)) with
  | Ok w =>
      let request :=
        match lc_type settings, lc_mode settings with
        | Delete, LcDryRun => CountRecords (pw_start w) (pw_stop w)
        | Delete, _ => RemoveRecords (pw_start w) (pw_stop w)
        | Compress, LcDryRun => EstimateCompressible (pw_start w) (pw_stop w)
        | Compress, _ => CompressBlocks (pw_start w) (pw_stop w)
        end in
      (n ← answer request; Ok (mkRunResult n (pw_last_processed_ts w) (pw_reaches_cutoff w)), [request])
  | Err e => (Err e, [])
  | Panic => (Panic, [])
  end.

(** ** The worker (lifecycle_task.rs) *)

(** A task; the worker has its own copy of the settings, made when it was started. *)
Record LifecycleTask := mkLcTask {
  lt_settings : LifecycleSettings;
  lt_mode : LifecycleMode;
  lt_last_run : Z;
  lt_worker : option LifecycleSettings
}.

Definition lc_task_new (settings : LifecycleSettings) : LifecycleTask := mkLcTask settings (lc_mode settings) 0 None.
Definition lc_start (t : LifecycleTask) : LifecycleTask :=
  match lt_worker t with
  | Some _ => t
  | None => mkLcTask (lt_settings t) (lt_mode t) (lt_last_run t) (Some (lt_settings t))
  end.
Definition lc_stop (t : LifecycleTask) : LifecycleTask :=
  mkLcTask (lt_settings t) (lt_mode t) (lt_last_run t) None.
Definition with_mode (mode : LifecycleMode) (s : LifecycleSettings) : LifecycleSettings :=
  mkLifecycle (lc_type s) (lc_bucket s) (lc_entries s) (lc_older_than s) (lc_interval s) (lc_when s)
    (lc_processing_interval s) mode.
Definition lc_set_mode (mode : LifecycleMode) (t : LifecycleTask) : LifecycleTask :=
  mkLcTask (with_mode mode (lt_settings t)) mode (lt_last_run t) (lt_worker t).

(** The surroundings of the runs of one turn: what each run sees, and the answers. *)
Record LcWorld := mkLcWorld { lw_sight : Sight; lw_answer : LcRequest → outcome Z }.

(** The inner loop: runs until one is caught up, has affected records or failed; [false]
    when it has not ended with the given surroundings. *)
Fixpoint run_until (settings : LifecycleSettings) (ws : list LcWorld) : list LcRequest * bool :=
  match ws with
  | [] => ([], false)
  | w :: ws' =>
      match lifecycle_run settings (lw_sight w) (lw_answer w) with
      | (Ok r, requests) =>
          if decide (lr_caught_up r = false ∧ lr_affected_records r = 0) then
            let '(requests', ended) := run_until settings ws' in (requests ++ requests', ended)
          else (requests, true)
      | (_, requests) => (requests, true)
      end
  end.

(** One turn of the worker's loop, after the sleep. *)
Definition lc_turn (now : Z) (ws : list LcWorld) (t : LifecycleTask) : list LcRequest * LifecycleTask :=
  match lt_worker t with
  | None => ([], t)
  | Some settings =>
      match lt_mode t with
      | LcDisabled => ([], t)
      | LcEnabled | LcDryRun =>
          ((run_until settings ws).1, mkLcTask (lt_settings t) (lt_mode t) now (lt_worker t))
      end
  end.

(** ** Checking a policy (lifecycle_repository/repo.rs) *)

Definition MIN_LIFECYCLE_OLDER_THAN_US : Z := 60 * 60 * 1000000.
Definition MIN_LIFECYCLE_INTERVAL_US : Z := 10 * 60 * 1000000.

(** The conditions of [create_or_update_lifecycle_task]; gives the interval. *)
Definition check_lifecycle `{Chrono} `{JsonText} (bucket_exists : bool) (settings : LifecycleSettings) : outcome Z :=
  if negb bucket_exists then Err NotFound
  else
    older_than ← parse_duration_to_micros (lc_older_than settings);
    if decide (older_than < MIN_LIFECYCLE_OLDER_THAN_US) then Err UnprocessableEntity
    else
      interval ← parse_duration_to_micros (lc_interval settings);
      if decide (interval < MIN_LIFECYCLE_INTERVAL_US) then Err UnprocessableEntity
      else
        _ ← match lc_processing_interval settings with
            | Some p => us ← parse_duration_to_micros p; if decide (us ≤ 0) then Err UnprocessableEntity else Ok tt
            | None => Ok tt
            end;
        if decide (lc_type settings = Compress ∧ is_Some (lc_when settings)) then Err UnprocessableEntity
        else
          _ ← match lc_when settings with
              | Some when =>
                  match parse when with
                  | Ok (_, directives) => if decide (is_Some (directives !! "#ext")) then Err UnprocessableEntity else Ok tt
                  | Err _ => Err UnprocessableEntity
                  | Panic => Panic
                  end
              | None => Ok tt
              end;
          Ok interval.

(** ** The repository *)

Record LcItem := mkLcItem { li_task : LifecycleTask; li_provisioned : bool }.
Record LifecycleRepository := mkLcRepo { lp_lifecycles : gmap string LcItem; lp_started : bool }.

Section Repository.
Context `{Chrono} `{JsonText} (bucket_exists : string → bool).

(** [create_or_update_lifecycle_task], up to the saving of the file. *)
Definition create_or_update_lifecycle_task (name : string) (settings : LifecycleSettings) (r : LifecycleRepository)
    : outcome () * LifecycleRepository :=
  match check_lifecycle (bucket_exists (lc_bucket settings)) settings with
  | Ok _ =>
      let task := lc_task_new settings in
      let task := if lp_started r then lc_start task else task in
      (Ok tt, mkLcRepo (<[name := mkLcItem task false]> (lp_lifecycles r)) (lp_started r))
  | Err e => (Err e, r)
  | Panic => (Panic, r)
  end.

Definition create_lifecycle (name : string) (settings : LifecycleSettings) (r : LifecycleRepository)
    : outcome () * LifecycleRepository :=
  match lp_lifecycles r !! name with
  | Some _ => (Err Conflict, r)
  | None => create_or_update_lifecycle_task name settings r
  end.

Definition update_lifecycle (name : string) (settings : LifecycleSettings) (r : LifecycleRepository)
    : outcome () * LifecycleRepository :=
  match lp_lifecycles r !! name with
  | Some item => if li_provisioned item then (Err Conflict, r) else create_or_update_lifecycle_task name settings r
  | None => (Err NotFound, r)
  end.
End Repository.

Definition lifecycle_set_mode (name : string) (mode : LifecycleMode) (r : LifecycleRepository)
    : outcome () * LifecycleRepository :=
  match lp_lifecycles r !! name with
  | Some item =>
      (Ok tt, mkLcRepo (<[name := mkLcItem (lc_set_mode mode (li_task item)) (li_provisioned item)]> (lp_lifecycles r)) (lp_started r))
  | None => (Err NotFound, r)
  end.

Definition set_lifecycle_provisioned (name : string) (provisioned : bool) (r : LifecycleRepository)
    : outcome () * LifecycleRepository :=
  match lp_lifecycles r !! name with
  | Some item => (Ok tt, mkLcRepo (<[name := mkLcItem (li_task item) provisioned]> (lp_lifecycles r)) (lp_started r))
  | None => (Err NotFound, r)
  end.

Definition remove_lifecycle (name : string) (r : LifecycleRepository) : outcome () * LifecycleRepository :=
  match lp_lifecycles r !! name with
  | Some item =>
      if li_provisioned item then (Err Conflict, r)
      else (Ok tt, mkLcRepo (delete name (lp_lifecycles r)) (lp_started r))
  | None => (Err NotFound, r)
  end.

Definition map_tasks (f : LifecycleTask → LifecycleTask) (r : gmap string LcItem) : gmap string LcItem :=
  (λ item, mkLcItem (f (li_task item)) (li_provisioned item)) <$> r.
Definition start_all (r : LifecycleRepository) : LifecycleRepository :=
  if lp_started r then r else mkLcRepo (map_tasks lc_start (lp_lifecycles r)) true.
Definition stop_all (r : LifecycleRepository) : LifecycleRepository :=
  mkLcRepo (map_tasks lc_stop (lp_lifecycles r)) false.

(** ** The window *)

Definition request_range (r : LcRequest) : Z * Z :=
  match r with
  | RemoveRecords a b | CountRecords a b | CompressBlocks a b | EstimateCompressible a b => (a, b)
  end.

Lemma processing_window_bounds settings si cutoff w :
  processing_window settings si cutoff = Ok w → pw_start w ≤ pw_stop w ≤ cutoff.
Proof.
  unfold processing_window, matching_record_window. destruct (si_entries si) as [entries| |]; [|done|done].
  cbn [mbind outcome_bind]. set (matching := filter _ entries).
  set (range := if decide (matching = []) then _ else _).
  assert (∃ first effective, range = Ok (first, effective) ∧ effective ≤ cutoff) as (first & effective & -> & He).
  { subst range. case_decide; eexists _, _; (split; [done|lia]). }
  cbn [mbind outcome_bind]. destruct (parse_optional _) as [processing| |]; [|done|done]. cbn [mbind outcome_bind].
  destruct (negb (si_events_enabled si)).
  { intros [= <-]. simpl. destruct processing; lia. }
  destruct (parse_duration_to_micros (lc_interval settings)) as [interval| |]; [|done|done]. cbn [mbind outcome_bind].
  case_decide; intros [= <-]; simpl; lia.
Qed.

(** What a policy may touch: nothing younger than an hour. *)
Definition old_enough (now : Z) (r : LcRequest) : Prop :=
  (request_range r).1 ≤ (request_range r).2 ≤ (now - MIN_LIFECYCLE_OLDER_THAN_US) `max` 0 + 1.

(** The settings of a policy were checked. *)
Definition long_enough (s : LifecycleSettings) : Prop :=
  ∃ older_than interval, parse_duration_to_micros (lc_older_than s) = Ok older_than ∧
    MIN_LIFECYCLE_OLDER_THAN_US ≤ older_than ∧
    parse_duration_to_micros (lc_interval s) = Ok interval ∧ MIN_LIFECYCLE_INTERVAL_US ≤ interval ∧
    match lc_processing_interval s with
    | Some p => ∃ us, parse_duration_to_micros p = Ok us ∧ 0 < us
    | None => True
    end.

Lemma check_lifecycle_long `{Chrono} `{JsonText} be s n : check_lifecycle be s = Ok n → long_enough s.
Proof.
  unfold check_lifecycle. destruct be; [|done]. cbn [negb].
  destruct (parse_duration_to_micros (lc_older_than s)) as [o| |] eqn:Ho; [|done|done]. cbn [mbind outcome_bind].
  case_decide; [done|]. destruct (parse_duration_to_micros (lc_interval s)) as [i| |] eqn:Hi; [|done|done].
  cbn [mbind outcome_bind]. case_decide; [done|]. intros Hp. exists o, i. split_and!; [done|lia|done|lia|].
  destruct (lc_processing_interval s) as [p|]; [|done].
  destruct (parse_duration_to_micros p) as [us| |]; [|done|done]. cbn [mbind outcome_bind] in Hp.
  destruct (decide (us ≤ 0)); [discriminate Hp|]. exists us. split; [done|lia].
Qed.

Lemma long_enough_with_mode mode s : long_enough s → long_enough (with_mode mode s).
Proof. done. Qed.

Lemma lifecycle_run_old s si answer r requests :
  long_enough s → 0 ≤ si_now si → lifecycle_run s si answer = (r, requests) → Forall (old_enough (si_now si)) requests.
Proof.
  intros (older & _ & Ho & Hmin & _) Hnow. unfold lifecycle_run. rewrite Ho. cbn [mbind outcome_bind].
  destruct (processing_window _ _ _) as [w| |] eqn:Hw; intros [= <- <-]; [|constructor..].
  apply processing_window_bounds in Hw. apply Forall_singleton. unfold old_enough.
  unfold u64_sat_add, u64_sat_sub, MIN_LIFECYCLE_OLDER_THAN_US in *.
  destruct (lc_type s), (lc_mode s); simpl; lia.
Qed.

Lemma run_until_old s now ws :
  long_enough s → Forall (λ w, 0 ≤ si_now (lw_sight w) ≤ now) ws → Forall (old_enough now) (run_until s ws).1.
Proof.
  intros Hs Hws. induction Hws as [|w ws [Hw1 Hw2] _ IH]; [constructor|]. cbn [run_until].
  destruct (lifecycle_run s (lw_sight w) (lw_answer w)) as [r requests] eqn:Hr.
  assert (Forall (old_enough now) requests) as Hall.
  { eapply Forall_impl; [eapply lifecycle_run_old; done|]. intros rq [? ?]. unfold old_enough. lia. }
  destruct r as [r| |]; [|done|done]. case_decide; [|done].
  destruct (run_until s ws) as [requests' ended]. apply Forall_app_2; done.
Qed.

(** ** The life of the repository *)

Inductive LcOp : Type :=
| OpCreate (name : string) (s : LifecycleSettings)
| OpUpdate (name : string) (s : LifecycleSettings)
| OpSetMode (name : string) (mode : LifecycleMode)
| OpProvision (name : string) (provisioned : bool)
| OpRemove (name : string)
| OpStart
| OpStop.

Section Life.
Context `{Chrono} `{JsonText} (bucket_exists : string → bool).

Definition lc_step (r : LifecycleRepository) (op : LcOp) : LifecycleRepository :=
  match op with
  | OpCreate name s => (create_lifecycle bucket_exists name s r).2
  | OpUpdate name s => (update_lifecycle bucket_exists name s r).2
  | OpSetMode name mode => (lifecycle_set_mode name mode r).2
  | OpProvision name p => (set_lifecycle_provisioned name p r).2
  | OpRemove name => (remove_lifecycle name r).2
  | OpStart => start_all r
  | OpStop => stop_all r
  end.

Definition lc_history (ops : list LcOp) : LifecycleRepository := foldl lc_step (mkLcRepo ∅ false) ops.

Definition task_ok (t : LifecycleTask) : Prop :=
  long_enough (lt_settings t) ∧ ∀ s, lt_worker t = Some s → long_enough s.
Definition repo_ok (r : LifecycleRepository) : Prop := map_Forall (λ _ item, task_ok (li_task item)) (lp_lifecycles r).

Lemma lc_start_ok t : task_ok t → task_ok (lc_start t).
Proof. intros [Hs Hw]. unfold lc_start. destruct (lt_worker t) eqn:E; split; simpl; naive_solver. Qed.

Lemma map_tasks_ok (f : LifecycleTask → LifecycleTask) m :
  (∀ t, task_ok t → task_ok (f t)) → map_Forall (λ _ item, task_ok (li_task item)) m →
  map_Forall (λ _ item, task_ok (li_task item)) (map_tasks f m).
Proof. intros Hf Hm name item. unfold map_tasks. rewrite lookup_fmap_Some. intros (item' & <- & Hl). apply Hf. by eapply Hm. Qed.

Lemma create_or_update_ok name s r :
  repo_ok r → repo_ok (create_or_update_lifecycle_task bucket_exists name s r).2.
Proof.
  intros Hr. unfold create_or_update_lifecycle_task.
  destruct (check_lifecycle _ s) as [n| |] eqn:Hc; [|done|done]. apply check_lifecycle_long in Hc.
  apply map_Forall_insert_2; [|done]. simpl. assert (task_ok (lc_task_new s)) by (by split).
  destruct (lp_started r); [by apply lc_start_ok|done].
Qed.

Lemma lc_step_ok r op : repo_ok r → repo_ok (lc_step r op).
Proof.
  intros Hr. destruct op as [name s|name s|name mode|name p|name| |]; simpl.
  - unfold create_lifecycle. destruct (_ !! name); [done|]. by apply create_or_update_ok.
  - unfold update_lifecycle. destruct (_ !! name) as [item|]; [|done]. destruct (li_provisioned item); [done|]. by apply create_or_update_ok.
  - unfold lifecycle_set_mode. destruct (_ !! name) as [item|] eqn:Hl; [|done]. apply map_Forall_insert_2; [|done].
    destruct (Hr _ _ Hl) as [Hs Hw]. by split.
  - unfold set_lifecycle_provisioned. destruct (_ !! name) as [item|] eqn:Hl; [|done]. apply map_Forall_insert_2; [|done].
    by apply (Hr _ _ Hl).
  - unfold remove_lifecycle. destruct (_ !! name) as [item|]; [|done]. destruct (li_provisioned item); [done|].
    by apply map_Forall_delete.
  - unfold start_all. destruct (lp_started r); [done|]. apply map_tasks_ok; [apply lc_start_ok|done].
  - apply map_tasks_ok; [|done]. intros t [Hs _]. by split.
Qed.

Lemma lc_history_ok ops : repo_ok (lc_history ops).
Proof.
  unfold lc_history. assert (repo_ok (mkLcRepo ∅ false)) as Hr by apply map_Forall_empty.
  revert Hr. generalize (mkLcRepo ∅ false). induction ops as [|op ops IH]; intros r Hr; [done|].
  apply IH. by apply lc_step_ok.
Qed.
End Life.

(** ** Catching up *)

(** What the progress of a policy is after a run that sees the given entries. *)
Definition next_progress (s : LifecycleSettings) (entries : list (string * EntryInfo)) (now cutoff : Z) (p : option Z) : option Z :=
  match processing_window s (mkSight (Ok entries) true p now) cutoff with
  | Ok w => pw_last_processed_ts w
  | _ => p
  end.

Lemma long_enough_window s :
  long_enough s → ∃ interval processing,
    parse_duration_to_micros (lc_interval s) = Ok interval ∧ parse_optional (lc_processing_interval s) = Ok processing ∧
    0 < default ((interval `max` 0 * 24) `min` u64_max) processing.
Proof.
  intros (_ & interval & _ & _ & Hi & Hmin & Hp). unfold parse_optional, MIN_LIFECYCLE_INTERVAL_US in *.
  destruct (lc_processing_interval s) as [p|].
  - destruct Hp as (us & -> & Hus). exists interval, (Some (us `max` 0)). cbn [mbind outcome_bind]. split_and!; [done|done|simpl; lia].
  - exists interval, None. split_and!; [done|done|]. simpl. unfold u64_max. change two64 with (2 ^ 64). lia.
Qed.

(** The window when the policy is at [last], with steps of [step]. *)
Lemma processing_window_at s entries now cutoff p first effective interval processing :
  matching_record_window s (mkSight (Ok entries) true p now) cutoff = Ok (first, effective) →
  parse_duration_to_micros (lc_interval s) = Ok interval → parse_optional (lc_processing_interval s) = Ok processing →
  let step := default ((interval `max` 0 * 24) `min` u64_max) processing in
  let last := default first p in
  processing_window s (mkSight (Ok entries) true p now) cutoff =
    Ok (if decide (effective ≤ last) then mkWindow (first `min` effective) effective (Some last) true
        else let stop := u64_sat_add last step `min` effective in
             mkWindow (first `min` stop) stop (Some stop) (bool_decide (effective ≤ stop))).
Proof.
  intros Hm Hi Hp step last. unfold processing_window. rewrite Hm. cbn [mbind outcome_bind]. rewrite Hp. cbn [mbind outcome_bind].
  cbn [si_events_enabled negb si_progress]. rewrite Hi. cbn [mbind outcome_bind]. fold last step. by case_decide.
Qed.

Lemma matching_record_window_sight s entries now cutoff p p' :
  matching_record_window s (mkSight (Ok entries) true p now) cutoff = matching_record_window s (mkSight (Ok entries) true p' now) cutoff.
Proof. done. Qed.

Lemma progress_grows s entries now cutoff p first effective interval processing k :
  matching_record_window s (mkSight (Ok entries) true p now) cutoff = Ok (first, effective) →
  parse_duration_to_micros (lc_interval s) = Ok interval → parse_optional (lc_processing_interval s) = Ok processing →
  let step := default ((interval `max` 0 * 24) `min` u64_max) processing in
  0 < step → effective ≤ u64_max →
  (default first p + Z.of_nat k * step) `min` effective ≤
    default first (Nat.iter k (next_progress s entries now cutoff) p) ∨ (u64_max < default first p).
Proof.
  intros Hm Hi Hp step Hs He. destruct (decide (u64_max < default first p)) as [?|Hle]; [by right|left].
  induction k as [|k IH]; [simpl; lia|].
  change (Nat.iter (S k) ?f p) with (f (Nat.iter k f p)). set (q := Nat.iter k _ p) in *.
  unfold next_progress at 1. rewrite (matching_record_window_sight _ _ _ _ p q) in Hm.
  rewrite (processing_window_at _ _ _ _ _ _ _ _ _ Hm Hi Hp). fold step.
  case_decide; simpl; unfold u64_sat_add; lia.
Qed.

(** ** Properties *)

(** C27: Whatever policies are created, updated, switched to another mode, removed, started
    and stopped, every run of a policy asks only for records that are at least an hour
    old: the range of a request ends before the time of the run less the shortest age a
    policy may have. *)
Theorem policies_touch_only_old_records `{Chrono} `{JsonText} (bucket_exists : string → bool) (ops : list LcOp)
  (name : string) (item : LcItem) (started latest : Z) (ws : list LcWorld) :
  lp_lifecycles (lc_history bucket_exists ops) !! name = Some item →
  Forall (λ w, 0 ≤ si_now (lw_sight w) ≤ latest) ws →
  Forall (old_enough latest) (lc_turn started ws (li_task item)).1.
Proof.
  intros Hl Hws. destruct (lc_history_ok bucket_exists ops _ _ Hl) as [_ Hw]. unfold lc_turn.
  destruct (lt_worker (li_task item)) as [s|]; [|constructor].
  destruct (lt_mode (li_task item)); try constructor; by apply run_until_old, Hws; apply Hw.
Qed.

(** C28: A policy that logs its progress catches up.  While the records stay as they are,
    every run moves the progress by the processing interval, so after as many runs as fit
    between the progress and the end of the old records the window of the next run ends
    with them and starts with the oldest. *)
Theorem policy_catches_up (s : LifecycleSettings) (entries : list (string * EntryInfo)) (now cutoff : Z) (p : option Z)
  (first effective step : Z) (k : nat) :
  long_enough s → matching_record_window s (mkSight (Ok entries) true p now) cutoff = Ok (first, effective) →
  effective ≤ u64_max → default first p ≤ u64_max →
  (∀ interval processing, parse_duration_to_micros (lc_interval s) = Ok interval →
    parse_optional (lc_processing_interval s) = Ok processing →
    step = default ((interval `max` 0 * 24) `min` u64_max) processing) →
  effective ≤ default first p + Z.of_nat k * step →
  0 < step ∧
  ∃ last, processing_window s (mkSight (Ok entries) true (Nat.iter k (next_progress s entries now cutoff) p) now) cutoff =
    Ok (mkWindow (first `min` effective) effective (Some last) true).
Proof.
  intros Hs Hm He Hf Hstep Hk. destruct (long_enough_window s Hs) as (interval & processing & Hi & Hp & Hpos).
  rewrite <-(Hstep _ _ Hi Hp) in Hpos. split; [done|].
  pose proof (progress_grows s entries now cutoff p first effective interval processing k Hm Hi Hp) as Hg.
  simpl in Hg. rewrite <-(Hstep _ _ Hi Hp) in Hg. specialize (Hg Hpos He).
  rewrite (matching_record_window_sight _ _ _ _ p (Nat.iter k (next_progress s entries now cutoff) p)) in Hm.
  rewrite (processing_window_at _ _ _ _ _ _ _ _ _ Hm Hi Hp). rewrite decide_True by lia. eauto.
Qed.

(** A running policy that is switched to the preview mode goes on removing records.
    The worker keeps the settings it was started with and looks only at whether the mode
    is disabled, so its runs ask for removals although the policy reports the preview. *)
Theorem preview_mode_keeps_removing (name : string) (r r' : LifecycleRepository) (item : LcItem) (s : LifecycleSettings)
  (started : Z) (w : LcWorld) (ws : list LcWorld) (win : ProcessingWindow) (older_than : Z) :
  lp_lifecycles r !! name = Some item → lt_worker (li_task item) = Some s → lc_type s = Delete → lc_mode s = LcEnabled →
  lifecycle_set_mode name LcDryRun r = (Ok tt, r') →
  parse_duration_to_micros (lc_older_than s) = Ok older_than →
  processing_window s (lw_sight w) (u64_sat_add (u64_sat_sub (si_now (lw_sight w)) (older_than `max` 0)) 1) = Ok win →
  ∃ item' requests, lp_lifecycles r' !! name = Some item' ∧ lt_mode (li_task item') = LcDryRun ∧
    lc_mode (lt_settings (li_task item')) = LcDryRun ∧
    (lc_turn started (w :: ws) (li_task item')).1 = RemoveRecords (pw_start win) (pw_stop win) :: requests.
Proof.
  intros Hl Hw Ht Hm. unfold lifecycle_set_mode. rewrite Hl. intros [= <-] Ho Hwin. cbn [lp_lifecycles].
  assert (∃ requests, (run_until s (w :: ws)).1 = RemoveRecords (pw_start win) (pw_stop win) :: requests) as [requests Hreq].
  { cbn [run_until]. unfold lifecycle_run. rewrite Ho. cbn [mbind outcome_bind]. rewrite Hwin, Ht, Hm.
    destruct (lw_answer w _) as [n| |]; cbn [mbind outcome_bind]; [|by eexists..].
    case_decide; [|by eexists]. destruct (run_until s ws). by eexists. }
  eexists _, requests. rewrite lookup_insert_eq. split_and!; [done|done|done|].
  unfold lc_turn. cbn [li_task lc_set_mode lt_worker lt_mode]. rewrite Hw. exact Hreq.
Qed.

(** Without events a policy that leaves the oldest record where it is never gets past the
    first processing interval. *)
Lemma window_stands_still s si cutoff first effective interval w :
  si_events_enabled si = false → parse_optional (lc_processing_interval s) = Ok (Some interval) →
  matching_record_window s si cutoff = Ok (first, effective) →
  processing_window s si cutoff = Ok w → pw_stop w ≤ u64_sat_add first interval.
Proof.
  intros He Hp Hm. unfold processing_window. rewrite Hm. cbn [mbind outcome_bind]. rewrite Hp. cbn [mbind outcome_bind].
  rewrite He. intros [= <-]. simpl. lia.
Qed.

(** Without events the worker does not go back to its interval as long as there is nothing
    to do: a run is never caught up. *)
Lemma idle_policy_spins s older_than ws :
  parse_duration_to_micros (lc_older_than s) = Ok older_than →
  Forall (λ w, si_events_enabled (lw_sight w) = false ∧ (∀ rq, lw_answer w rq = Ok 0) ∧
    ∃ win, processing_window s (lw_sight w)
      (u64_sat_add (u64_sat_sub (si_now (lw_sight w)) (older_than `max` 0)) 1) = Ok win) ws →
  (run_until s ws).2 = false.
Proof.
  intros Ho Hws. induction Hws as [|w ws (He & Ha & (w' & Hw)) _ IH]; [done|].
  cbn [run_until]. unfold lifecycle_run. rewrite Ho. cbn [mbind outcome_bind]. rewrite Hw, Ha. cbn [mbind outcome_bind lr_caught_up lr_affected_records].
  assert (pw_reaches_cutoff w' = false) as ->.
  { revert Hw. unfold processing_window. destruct (matching_record_window _ _ _) as [[f e]| |]; [|done|done].
    cbn [mbind outcome_bind]. destruct (parse_optional _); [|done|done]. cbn [mbind outcome_bind]. rewrite He. by intros [= <-]. }
  rewrite decide_True by done. by destruct (run_until s ws).
Qed.

(** ** Witnesses *)

Section Witnesses.
Local Instance lc_chrono : Chrono :=
  {| DateTime := (); Tz := (); tz_utc := tt; tz_from_str _ := None; from_timestamp_micros _ := None; date_field _ _ _ := 0 |}.
Local Instance lc_json : JsonText := λ _, EmptyString.

Definition hourly : LifecycleSettings := mkLifecycle Delete "b" [] "2h" "1h" None (Some "1d") LcEnabled.
Definition two_entries : list (string * EntryInfo) :=
  [("x", mkEntryInfo 1 1 1 1000 200000000000); ("y", mkEntryInfo 1 1 1 5 7)].
Definition tomorrow : Z := 300000000000.
Definition lc_world (p : option Z) : LcWorld := mkLcWorld (mkSight (Ok two_entries) true p tomorrow) (λ _, Ok 1).
Definition lc_demo : LifecycleRepository := lc_history (λ _, true) [OpStart; OpCreate "p" hourly].
Definition lc_item : LcItem := mkLcItem (mkLcTask hourly LcEnabled 0 (Some hourly)) false.

Lemma lc_demo_item : lp_lifecycles lc_demo !! "p" = Some lc_item.
Proof. by vm_compute. Qed.

Lemma policies_touch_only_old_records_witness :
  Forall (old_enough tomorrow) (lc_turn tomorrow [lc_world None] (li_task lc_item)).1 ∧
  (lc_turn tomorrow [lc_world None] (li_task lc_item)).1 = [RemoveRecords 5 86400000005].
Proof.
  split; [|by vm_compute].
  apply (policies_touch_only_old_records (λ _, true) [OpStart; OpCreate "p" hourly] "p"); [exact lc_demo_item|].
  apply Forall_singleton. by vm_compute.
Defined.

Lemma hourly_long : long_enough hourly.
Proof.
  exists 7200000000, 3600000000. split_and!; [by vm_compute|by vm_compute|by vm_compute|by vm_compute|].
  exists 86400000000. by vm_compute.
Qed.

Lemma policy_catches_up_witness :
  ∃ last, processing_window hourly (mkSight (Ok two_entries) true
      (Nat.iter 3 (next_progress hourly two_entries tomorrow 250000000000) None) tomorrow) 250000000000 =
    Ok (mkWindow 5 200000000001 (Some last) true).
Proof.
  destruct (policy_catches_up hourly two_entries tomorrow 250000000000 None 5 200000000001 86400000000 3 hourly_long)
    as [_ Hw]; [by vm_compute|by vm_compute|by vm_compute| |by vm_compute|exact Hw].
  intros interval processing Hi Hp. vm_compute in Hp. by injection Hp as <-.
Defined.

Lemma preview_mode_keeps_removing_witness :
  ∃ r' item' requests, lifecycle_set_mode "p" LcDryRun lc_demo = (Ok tt, r') ∧
    lp_lifecycles r' !! "p" = Some item' ∧ lt_mode (li_task item') = LcDryRun ∧
    (lc_turn tomorrow [lc_world None] (li_task item')).1 = RemoveRecords 5 86400000005 :: requests.
Proof.
  destruct (lifecycle_set_mode "p" LcDryRun lc_demo) as [o r'] eqn:Hs.
  assert (o = Ok tt) as -> by (vm_compute in Hs; by injection Hs as <- _).
  destruct (preview_mode_keeps_removing "p" lc_demo r' lc_item hourly tomorrow (lc_world None) []
    (mkWindow 5 86400000005 (Some 86400000005) false) 7200000000 lc_demo_item) as (item' & requests & Hl & Hm & _ & Hr);
    [done|done|done|exact Hs|by vm_compute|by vm_compute|].
  by exists r', item', requests.
Defined.
End Witnesses.
