(* ===== verification/Replication.v ===== *)
(** * Replication (replication/replication_sender.rs, replication/remote_bucket/)

    One pass of a replication task: for every entry the oldest transactions are taken
    from its log, their records are read from the storage and sent to the remote bucket,
    and the transactions are removed from the log when the remote bucket is reachable.
    The remote bucket is a state machine that gives up for a while when the connection
    fails.  What the network answers, what the storage has, and what is appended to the
    logs during the pass are arguments. *)

From stdpp Require Import prelude gmap strings sorting.
From Stdlib Require Import Ascii ZArith Lia.
From S2P Require Import Prelude Collections Text Split Parser Filters TransactionLog.
Open Scope Z_scope.

(** ** The remote bucket (remote_bucket.rs, remote_bucket/states/) *)

(** [Result]: what the network and the storage answer. *)
Inductive Result (A : Type) : Type := Done (a : A) | Failed (e : ErrorCode).
Arguments Done {_} _.
Arguments Failed {_} _.

(** What the sender knows of a record it read. *)
Record SyncRecord := mkSyncRecord { sr_timestamp : Z; sr_length : Z }.
#[export] Instance SyncRecord_eq_dec : EqDecision SyncRecord.
Proof. solve_decision. Defined.

(** [ErrorRecordMap]: a [BTreeMap] from timestamps to errors. *)
Abbreviation ErrorRecordMap := (gmap Z ErrorCode).

(** The answers of the other server to the requests of one batch: to [get_bucket],
    [create_bucket] and the second [get_bucket], to an update and to a write; and the
    clock when the elapsed time is looked at and when the connection is given up. *)
Record Net := mkNet {
  net_get : Result ();
  net_create : Result ();
  net_get_again : Result ();
  net_update : list SyncRecord → Result ErrorRecordMap;
  net_write : list SyncRecord → Result ErrorRecordMap;
  net_instant : Z;
  net_failed_at : Z
}.

(** Requests that carry records. *)
Inductive RemoteCall : Type :=
| CallUpdate (entry : string) (records : list SyncRecord)
| CallWrite (entry : string) (records : list SyncRecord).

(** [InitialState], [BucketAvailableState] and [BucketUnavailableState], with their
    last result. *)
Inductive RemoteState : Type :=
| Initial (last_result : Result ErrorRecordMap)
| Available (last_result : Result ErrorRecordMap)
| Unavailable (init_time : Z) (last_result : Result ErrorRecordMap).

Definition is_available (st : RemoteState) : bool :=
  match st with Available _ => true | _ => false end.
Definition last_result (st : RemoteState) : Result ErrorRecordMap :=
  match st with Initial r | Available r | Unavailable _ r => r end.

(** [ReductClientApi::get_or_create_bucket]. *)
Definition get_or_create_bucket (net : Net) : Result () :=
  match net_get net with
  | Failed NotFound =>
      match net_create net with
      | Failed Conflict => net_get_again net
      | r => r
      end
  | r => r
  end.

(** [BucketAvailableState::check_error_and_change_state]: errors of the connection. *)
Definition is_connection_error (e : ErrorCode) : bool :=
  match e with
  | Timeout | ConnectionError | BadGateway | ServiceUnavailable | GatewayTimeout | TooManyRequests => true
  | _ => false
  end.
Definition check_error_and_change_state (net : Net) (e : ErrorCode) : RemoteState :=
  if is_connection_error e then Unavailable (net_failed_at net) (Failed e) else Available (Failed e).

(** [BucketAvailableState::write_batch]; the calls it makes come second. *)
Definition tx_is_write (t : Transaction) : bool :=
  match t with TxWriteRecord _ => true | TxUpdateRecord _ => false end.
Definition records_of (want : bool) (records : list (SyncRecord * Transaction)) : list SyncRecord :=
  (filter (λ rt, tx_is_write rt.2 = want) records).*1.

Definition failed_updates (records : list SyncRecord) (e : ErrorCode) : ErrorRecordMap :=
  foldl (λ m r, <[sr_timestamp r := e]> m) ∅ records.

Definition write_records (net : Net) (entry : string) (to_write to_update : list SyncRecord) (error_map : ErrorRecordMap) :
  RemoteState * list RemoteCall :=
  let to_write := to_write ++ filter (λ r, is_Some (error_map !! sr_timestamp r)) (reverse to_update) in
  if decide (to_write = []) then (Available (Done error_map), [])
  else
    (match net_write net to_write with
     | Done error_map => Available (Done error_map)
     | Failed e => check_error_and_change_state net e
     end, [CallWrite entry to_write]).

Definition available_write_batch (net : Net) (entry : string) (records : list (SyncRecord * Transaction)) :
  RemoteState * list RemoteCall :=
  let to_write := records_of true records in
  let to_update := records_of false records in
  if decide (to_update = []) then write_records net entry to_write to_update ∅
  else
    let calls := [CallUpdate entry to_update] in
    match net_update net to_update with
    | Done error_map =>
        let '(st, calls') := write_records net entry to_write to_update error_map in (st, calls ++ calls')
    | Failed NotFound =>
        let '(st, calls') := write_records net entry to_write to_update (failed_updates to_update NotFound) in
        (st, calls ++ calls')
    | Failed e => (check_error_and_change_state net e, calls)
    end.

(** [write_batch] in every state; [timeout] of the unavailable state is five seconds. *)
Definition UNAVAILABLE_TIMEOUT : Z := 5 * 1000000000.

Definition connect_and_write (net : Net) (entry : string) (records : list (SyncRecord * Transaction)) :
  RemoteState * list RemoteCall :=
  match get_or_create_bucket net with
  | Done _ => available_write_batch net entry records
  | Failed e => (Unavailable (net_failed_at net) (Failed e), [])
  end.

Definition state_write_batch (net : Net) (entry : string) (records : list (SyncRecord * Transaction)) (st : RemoteState) :
  RemoteState * list RemoteCall :=
  match st with
  | Initial _ => connect_and_write net entry records
  | Available _ => available_write_batch net entry records
  | Unavailable init_time r =>
      if decide (Z.max 0 (net_instant net - init_time) > UNAVAILABLE_TIMEOUT) then connect_and_write net entry records
      else (Unavailable init_time (Done ∅), [])
  end.

(** [probe]. *)
Definition state_probe (net : Net) (st : RemoteState) : RemoteState :=
  match st with
  | Available r => Available r
  | Initial _ | Unavailable _ _ =>
      match get_or_create_bucket net with
      | Done _ => Available (Done ∅)
      | Failed e => Unavailable (net_failed_at net) (Failed e)
      end
  end.

(** [RemoteBucketImpl]. *)
Record RemoteBucket := mkRemoteBucket { rb_state : RemoteState; rb_is_active : bool }.
Definition remote_bucket_new : RemoteBucket := mkRemoteBucket (Initial (Done ∅)) false.
Definition remote_write_batch (net : Net) (entry : string) (records : list (SyncRecord * Transaction)) (b : RemoteBucket) :
  Result ErrorRecordMap * RemoteBucket * list RemoteCall :=
  let '(st, calls) := state_write_batch net entry records (rb_state b) in
  (last_result st, mkRemoteBucket st (is_available st), calls).
Definition probe_availability (net : Net) (b : RemoteBucket) : RemoteBucket :=
  let st := state_probe net (rb_state b) in mkRemoteBucket st (is_available st).

(** ** The sender (replication_sender.rs) *)

(** Result, number of records, bytes replicated. *)
Definition Counted : Type := Result () * Z * Z.

Inductive SyncState : Type :=
| SyncedOrRemoved (counter : list Counted)
| NotAvailable (counter : list Counted)
| NoTransactions
| BrokenLog (entry : string).

Definition make_state (counter : list Counted) (bucket_active : bool) : SyncState :=
  match counter with
  | [] => NoTransactions
  | _ => if bucket_active then SyncedOrRemoved counter else NotAvailable counter
  end.

(** The part of [ReplicationSettings] (msg/replication_api.rs) that the task looks at. *)
Record Settings := mkSettings {
  src_bucket : string;
  dst_prefix : string;
  rs_entries : list string;
  rs_when : option Json
}.

(** What the storage answers when a record of an entry is read for the [n]th time. *)
Definition Storage : Type := string → Transaction → nat → Result SyncRecord.

(** [read_record]: three attempts while the record is being written. *)
Fixpoint read_attempts (storage : Storage) (entry : string) (t : Transaction) (attempts n : nat) : Result SyncRecord :=
  match storage entry t n with
  | Failed TooEarly =>
      match attempts with
      | O | S O => Failed TooEarly
      | S attempts' => read_attempts storage entry t attempts' (S n)
      end
  | r => r
  end.
Definition read_record (storage : Storage) (entry : string) (t : Transaction) : Result SyncRecord :=
  read_attempts storage entry t 3 0.

(** [destination_entry_name]. *)
Definition trim_end_matches (sep : ascii) (s : string) : string :=
  String.string_of_list_ascii (reverse (String.list_ascii_of_string (trim_start_matches sep
    (String.string_of_list_ascii (reverse (String.list_ascii_of_string s)))))).
Definition destination_entry_name (prefix entry : string) : string :=
  let prefix := trim_end_matches "/" (trim_start_matches "/" prefix) in
  if decide (prefix = EmptyString) then entry else prefix +:+ "/" +:+ trim_start_matches "/" entry.

Record PreparedBatch := mkPreparedBatch {
  pb_entry : string;
  pb_dst : string;
  pb_batch : list (SyncRecord * Transaction);
  pb_sizes : gmap Z Z;
  pb_counter : list Counted;
  pb_processed : nat
}.

Inductive Prepared : Type := PrepareNone | PrepareBroken | PrepareBatch (b : PreparedBatch).

(** The loop of [prepare_batch] over the transactions. *)
Fixpoint gather (storage : Storage) (max_size : Z) (entry : string) (txs : list Transaction) (total : Z)
  (b : PreparedBatch) : PreparedBatch :=
  match txs with
  | [] => b
  | t :: txs' =>
      match read_record storage entry t with
      | Done r =>
          let total := u64_add total (sr_length r) in
          let b := mkPreparedBatch (pb_entry b) (pb_dst b) (pb_batch b ++ [(r, t)])
                     (<[tx_timestamp t := sr_length r]> (pb_sizes b)) (pb_counter b) (S (pb_processed b)) in
          if decide (max_size ≤ total) then b else gather storage max_size entry txs' total b
      | Failed e =>
          gather storage max_size entry txs' total
            (mkPreparedBatch (pb_entry b) (pb_dst b) (pb_batch b) (pb_sizes b)
               (pb_counter b ++ [(Failed e, 1, 0)]) (S (pb_processed b)))
      end
  end.

Definition gather_batch (storage : Storage) (settings : Settings) (io : IoConfig) (entry : string)
  (txs : list Transaction) : PreparedBatch :=
  gather storage (batch_max_size io) entry txs 0
    (mkPreparedBatch entry (destination_entry_name (dst_prefix settings) entry) [] ∅ [] 0).

(** [prepare_batch]. *)
Definition prepare_batch (logs : gmap string TransactionLog) (storage : Storage) (settings : Settings) (io : IoConfig)
  (entry : string) : Prepared :=
  match logs !! entry with
  | None => PrepareNone
  | Some log =>
      match front log (Z.to_nat (batch_max_records io)) with
      | Ok [] => PrepareNone
      | Ok txs => PrepareBatch (gather_batch storage settings io entry txs)
      | _ => PrepareBroken
      end
  end.

Record Sender := mkSender {
  sn_logs : gmap string TransactionLog;
  sn_bucket : RemoteBucket;
  sn_calls : list RemoteCall
}.

(** The accounting of [send_batch]. *)
Definition account (b : PreparedBatch) (r : Result ErrorRecordMap) : list Counted :=
  let batch_size := Z.of_nat (length (pb_batch b)) in
  match r with
  | Done map =>
      let written := map_fold (λ t size acc, if decide (is_Some (map !! t)) then acc else u64_add size acc) 0 (pb_sizes b) in
      pb_counter b ++ [(Done tt, u64_sub batch_size (Z.of_nat (size map)), written)] ++
        ((λ e, (Failed e, 1, 0)) <$> bt_values map)
  | Failed e => pb_counter b ++ [(Failed e, batch_size, 0)]
  end.

(** [send_batch]: the counter, and whether the bucket is available. *)
Definition send_batch (net : Net) (b : PreparedBatch) (s : Sender) : list Counted * bool * Sender :=
  let '(r, bucket, calls) := remote_write_batch net (pb_dst b) (pb_batch b) (sn_bucket s) in
  let logs :=
    if rb_is_active bucket then
      match sn_logs s !! pb_entry b with
      | Some log => <[pb_entry b := (pop_front log (pb_processed b)).2]> (sn_logs s)
      | None => sn_logs s
      end
    else sn_logs s in
  (account b r, rb_is_active bucket, mkSender logs bucket (sn_calls s ++ calls)).

(** What [ReplicationTask::notify] appends to a log while a batch of it is under way. *)
Fixpoint append_all (log : TransactionLog) (txs : list Transaction) : TransactionLog :=
  match txs with
  | [] => log
  | t :: txs' => match push_back log t with Ok (_, log') => append_all log' txs' | _ => log end
  end.
Definition append_to (entry : string) (txs : list Transaction) (s : Sender) : Sender :=
  match sn_logs s !! entry with
  | Some log => mkSender (<[entry := append_all log txs]> (sn_logs s)) (sn_bucket s) (sn_calls s)
  | None => s
  end.

(** The surroundings of a pass. *)
Record World := mkWorld {
  w_storage : Storage;
  w_net : string → Net;                    (* for the batch of an entry *)
  w_appended : string → list Transaction   (* to its log while the batch is under way *)
}.

(** [run]: the batch of an entry is prepared while the one before is sent, which is
    finished before the new one is sent. *)
Definition finish_send (w : World) (sending : option PreparedBatch) (counter : list Counted) (s : Sender) :
  list Counted * bool * Sender :=
  match sending with
  | Some b =>
      let '(c, active, s') := send_batch (w_net w (pb_entry b)) b (append_to (pb_entry b) (w_appended w (pb_entry b)) s) in
      (counter ++ c, active, s')
  | None => (counter, true, s)
  end.

Fixpoint run_entries (w : World) (settings : Settings) (io : IoConfig) (entries : list string)
  (sending : option PreparedBatch) (counter : list Counted) (s : Sender) : SyncState * Sender :=
  match entries with
  | [] =>
      let '(counter, active, s) := finish_send w sending counter s in (make_state counter active, s)
  | entry :: entries' =>
      let prepared := prepare_batch (sn_logs s) (w_storage w) settings io entry in
      let '(counter, active, s) := finish_send w sending counter s in
      if active then
        match prepared with
        | PrepareBatch b => run_entries w settings io entries' (Some b) counter s
        | PrepareNone => run_entries w settings io entries' None counter s
        | PrepareBroken => (BrokenLog entry, s)
        end
      else (make_state counter false, s)
  end.

Definition sender_run `{HashIter} (w : World) (settings : Settings) (io : IoConfig) (s : Sender) : SyncState * Sender :=
  run_entries w settings io (merge_sort str_le (hash_iter (sn_logs s)).*1) None [] s.
