(* ===== verification/ReplicationRefine.v ===== *)
(** * A replication pass, refined

    The pass over the entries overlaps the sending of a batch with the preparation of
    the next one.  Here it is shown to be the pass that handles one entry after the
    other, and that pass to take from the logs only what the remote bucket answered to;
    with a remote bucket that answers, passes empty the logs. *)

From stdpp Require Import prelude gmap strings sorting.
From Stdlib Require Import Ascii ZArith Lia.
From S2P Require Import Prelude Collections Text Split Filters TransactionLog Replication.
Open Scope Z_scope.

(** ** One entry after the other *)

(** The sending of a batch, with what is appended to its log in the meantime. *)
Definition send_prepared (w : World) (b : PreparedBatch) (s : Sender) : list Counted * bool * Sender :=
  send_batch (w_net w (pb_entry b)) b (append_to (pb_entry b) (w_appended w (pb_entry b)) s).

Fixpoint run_in_turn (w : World) (settings : Settings) (io : IoConfig) (entries : list string)
  (counter : list Counted) (s : Sender) : SyncState * Sender :=
  match entries with
  | [] => (make_state counter true, s)
  | entry :: entries' =>
      match prepare_batch (sn_logs s) (w_storage w) settings io entry with
      | PrepareNone => run_in_turn w settings io entries' counter s
      | PrepareBroken => (BrokenLog entry, s)
      | PrepareBatch b =>
          let '(c, active, s) := send_prepared w b s in
          if active then run_in_turn w settings io entries' (counter ++ c) s
          else (make_state (counter ++ c) false, s)
      end
  end.

Lemma gather_names storage max entry txs total b :
  pb_entry (gather storage max entry txs total b) = pb_entry b ∧ pb_dst (gather storage max entry txs total b) = pb_dst b.
Proof.
  revert total b. induction txs as [|t txs IH]; intros total b; simpl; [done|].
  destruct (read_record storage entry t) as [r|e]; [case_decide; [done|]|];
    (match goal with |- context [gather _ _ _ _ ?t ?b'] => by destruct (IH t b') as [-> ->] end).
Qed.

Lemma prepare_batch_inv logs storage settings io entry b :
  prepare_batch logs storage settings io entry = PrepareBatch b →
  ∃ log txs, logs !! entry = Some log ∧ front log (Z.to_nat (batch_max_records io)) = Ok txs ∧ txs ≠ [] ∧
    b = gather_batch storage settings io entry txs.
Proof.
  unfold prepare_batch. destruct (logs !! entry) as [log|]; [|done].
  destruct (front log (Z.to_nat (batch_max_records io))) as [[|t txs]| |] eqn:Hf; try done.
  intros Hb. exists log, (t :: txs). split_and!; [done|done|done|]. by inversion Hb.
Qed.

Lemma prepare_batch_names logs storage settings io entry b :
  prepare_batch logs storage settings io entry = PrepareBatch b →
  pb_entry b = entry ∧ pb_dst b = destination_entry_name (dst_prefix settings) entry.
Proof. intros (log & txs & _ & _ & _ & ->)%prepare_batch_inv. unfold gather_batch. apply gather_names. Qed.

Lemma prepare_batch_local logs logs' storage settings io entry :
  logs !! entry = logs' !! entry →
  prepare_batch logs storage settings io entry = prepare_batch logs' storage settings io entry.
Proof. unfold prepare_batch. by intros ->. Qed.

Lemma append_to_other entry txs s entry' :
  entry' ≠ entry → sn_logs (append_to entry txs s) !! entry' = sn_logs s !! entry'.
Proof. intros Hne. unfold append_to. destruct (sn_logs s !! entry); [|done]. simpl. by rewrite lookup_insert_ne. Qed.

(** Sending a batch leaves the logs of the other entries alone. *)
Lemma send_prepared_other w b s c active s' entry :
  send_prepared w b s = (c, active, s') → entry ≠ pb_entry b → sn_logs s' !! entry = sn_logs s !! entry.
Proof.
  intros Hs Hne. rewrite <-(append_to_other (pb_entry b) (w_appended w (pb_entry b)) s) by done.
  revert Hs. unfold send_prepared, send_batch. destruct (remote_write_batch _ _ _ _) as [[r bucket] calls].
  intros [= <- <- <-]. simpl. destruct (rb_is_active bucket); [|done].
  destruct (sn_logs (append_to _ _ _) !! pb_entry b); [|done]. by rewrite lookup_insert_ne.
Qed.

Lemma run_entries_sending w settings io entries b counter s :
  NoDup entries → pb_entry b ∉ entries →
  run_entries w settings io entries (Some b) counter s =
  (let '(c, active, s) := send_prepared w b s in
   if active then run_in_turn w settings io entries (counter ++ c) s
   else (make_state (counter ++ c) false, s)) ∧
  run_entries w settings io entries None counter s = run_in_turn w settings io entries counter s.
Proof.
  revert b counter s. induction entries as [|entry entries IH]; intros b counter s Hnd Hb.
  - split; [|done]. simpl. fold (send_prepared w b s). destruct (send_prepared w b s) as [[c [|]] s']; done.
  - inversion_clear Hnd as [|? ? Hin Hnd'].
    assert (∀ counter s, run_entries w settings io entries None counter s = run_in_turn w settings io entries counter s) as IHn.
    { intros c0 s0. apply (IH b); set_solver. }
    assert (∀ p counter s, prepare_batch (sn_logs s) (w_storage w) settings io entry = p →
      match p with
      | PrepareBatch b => run_entries w settings io entries (Some b) counter s
      | PrepareNone => run_entries w settings io entries None counter s
      | PrepareBroken => (BrokenLog entry, s)
      end = run_in_turn w settings io (entry :: entries) counter s) as Hstep.
    { intros p c0 s0 Hp. simpl. rewrite Hp. destruct p as [| |b']; [apply IHn|done|].
      apply IH; [done|]. by apply prepare_batch_names in Hp as [-> _]. }
    split; cbn [run_entries finish_send].
    + fold (send_prepared w b s). destruct (send_prepared w b s) as [[c active] s'] eqn:Hs.
      destruct active; [|done]. apply Hstep. apply prepare_batch_local.
      eapply send_prepared_other; [done|set_solver].
    + by apply Hstep.
Qed.

Section Sender.
Context `{HashIter} `{!HashIterLaws}.

(** The entries of a pass, in the order of their names. *)
Definition pass_entries (s : Sender) : list string := merge_sort str_le (hash_iter (sn_logs s)).*1.

Lemma NoDup_pass_entries s : NoDup (pass_entries s).
Proof. unfold pass_entries. rewrite merge_sort_Permutation. apply NoDup_fst_hash_iter. Qed.

Lemma elem_of_pass_entries s e : e ∈ pass_entries s ↔ is_Some (sn_logs s !! e).
Proof.
  unfold pass_entries. rewrite merge_sort_Permutation, list_elem_of_fmap. split.
  - intros ([e' l] & -> & Hin%elem_of_hash_iter). simpl. eauto.
  - intros [l Hl%elem_of_hash_iter]. by exists (e, l).
Qed.

Lemma sender_run_in_turn w settings io s :
  sender_run w settings io s = run_in_turn w settings io (pass_entries s) [] s.
Proof.
  unfold sender_run. fold (pass_entries s).
  pose proof (NoDup_pass_entries s) as Hnd.
  destruct (decide (pass_entries s = [])) as [->|Hne]; [done|].
  destruct (pass_entries s) as [|e es] eqn:He; [done|]. rewrite <-He in Hnd |- *.
  assert (∃ x, x ∉ pass_entries s) as [x Hx].
  { exists (fresh (pass_entries s)). apply infinite_is_fresh. }
  by apply (run_entries_sending w settings io (pass_entries s) (mkPreparedBatch x x [] ∅ [] 0) [] s).
Qed.
End Sender.

(** ** What is taken from the logs *)

(** The logs, each in a file of [n] slots, hold the queues [Q]. *)
Definition logs_rep (n : nat) : gmap string TransactionLog → gmap string (list Transaction) → Prop :=
  map_Forall2 (λ _ log q, ∃ r, tlog_rep log n r q).

Lemma logs_rep_lookup n logs Q e q :
  logs_rep n logs Q → Q !! e = Some q → ∃ log r, logs !! e = Some log ∧ tlog_rep log n r q.
Proof. intros Hr Hq. specialize (Hr e). rewrite Hq in Hr. destruct (logs !! e); inversion Hr; naive_solver. Qed.

Lemma logs_rep_none n logs Q e : logs_rep n logs Q → Q !! e = None → logs !! e = None.
Proof. intros Hr Hq. specialize (Hr e). rewrite Hq in Hr. by inversion Hr. Qed.

Lemma logs_rep_dom n logs Q e : logs_rep n logs Q → is_Some (logs !! e) ↔ is_Some (Q !! e).
Proof. intros Hr. specialize (Hr e). inversion Hr; split; intros [? ?]; eauto; done. Qed.

(** The records of transactions that can be read. *)
Definition read_all (storage : Storage) (entry : string) (txs : list Transaction) : list (SyncRecord * Transaction) :=
  omap (λ t, match read_record storage entry t with Done r => Some (r, t) | Failed _ => None end) txs.

Lemma gather_spec storage max entry txs total b :
  ∃ k, (k ≤ length txs)%nat ∧ (txs ≠ [] → 0 < k)%nat ∧
    pb_processed (gather storage max entry txs total b) = (pb_processed b + k)%nat ∧
    pb_batch (gather storage max entry txs total b) = pb_batch b ++ read_all storage entry (take k txs).
Proof.
  revert total b. induction txs as [|t txs IH]; intros total b.
  { exists 0%nat. simpl. rewrite app_nil_r. split_and!; [lia|done|lia|done]. }
  simpl. destruct (read_record storage entry t) as [r|e] eqn:Hr; [case_decide|];
    [exists 1%nat; unfold read_all; simpl; rewrite ?take_0; simpl; rewrite Hr; split_and!; [lia|lia|lia|done]|..];
    (match goal with |- context [gather _ _ _ _ ?t ?b'] => destruct (IH t b') as (k & Hk & _ & -> & ->) end);
    exists (S k); unfold read_all; simpl; rewrite Hr; simpl; rewrite <-?(assoc_L (++)); split_and!; (done || lia).
Qed.

(** A request of the pass carried the record, and its answer settles it: an update that
    the remote bucket accepted, or a write that did not fail with the connection. *)
Definition settled (net : Net) (dst : string) (r : SyncRecord) (c : RemoteCall) : Prop :=
  match c with
  | CallUpdate d records =>
      d = dst ∧ r ∈ records ∧ ∃ em, net_update net records = Done em ∧ em !! sr_timestamp r = None
  | CallWrite d records =>
      d = dst ∧ r ∈ records ∧
      match net_write net records with Done _ => True | Failed e => is_connection_error e = false end
  end.

(** The remote bucket refused an update as a whole. *)
Definition refused (net : Net) (dst : string) (c : RemoteCall) : Prop :=
  match c with
  | CallUpdate d records =>
      d = dst ∧ ∃ e, net_update net records = Failed e ∧ e ≠ NotFound ∧ is_connection_error e = false
  | CallWrite _ _ => False
  end.

Definition answered (w : World) (settings : Settings) (calls : list RemoteCall) (e : string) (t : Transaction) : Prop :=
  let net := w_net w e in
  let dst := destination_entry_name (dst_prefix settings) e in
  match read_record (w_storage w) e t with
  | Failed _ => True
  | Done r => Exists (settled net dst r) calls ∨ Exists (refused net dst) calls
  end.

Lemma elem_of_records_of want records r : r ∈ records_of want records ↔ ∃ t, (r, t) ∈ records ∧ tx_is_write t = want.
Proof.
  unfold records_of. rewrite list_elem_of_fmap. split.
  - intros ([r' t] & -> & [Hw Hin]%list_elem_of_filter). eauto.
  - intros (t & Hin & Hw). exists (r, t). split; [done|]. by apply list_elem_of_filter.
Qed.

Lemma write_records_settled net dst to_write to_update em st calls r :
  write_records net dst to_write to_update em = (st, calls) → is_available st = true →
  r ∈ to_write ∨ (r ∈ to_update ∧ is_Some (em !! sr_timestamp r)) → Exists (settled net dst r) calls.
Proof.
  unfold write_records. set (all := to_write ++ _). intros Hw Hav Hr.
  assert (r ∈ all) as Hin.
  { subst all. rewrite elem_of_app, list_elem_of_filter, elem_of_reverse. naive_solver. }
  destruct (decide (all = [])) as [Hnil|_]; [rewrite Hnil in Hin; by apply elem_of_nil in Hin|].
  inversion Hw; subst st calls. constructor. simpl. split_and!; [done|done|].
  destruct (net_write net all) as [em'|e]; [done|]. unfold check_error_and_change_state in Hav.
  by destruct (is_connection_error e).
Qed.

Lemma failed_updates_lookup records e r : r ∈ records → is_Some (failed_updates records e !! sr_timestamp r).
Proof.
  unfold failed_updates. intros Hin.
  assert (∀ m, is_Some (m !! sr_timestamp r) ∨ r ∈ records →
    is_Some (foldl (λ (m : ErrorRecordMap) r, <[sr_timestamp r:=e]> m) m records !! sr_timestamp r)) as Hgen; [|eauto].
  clear Hin. induction records as [|r' records IH]; intros m Hor; simpl.
  - destruct Hor as [?|Hin]; [done|by apply elem_of_nil in Hin].
  - apply IH. rewrite lookup_insert_is_Some'. apply or_comm in Hor as [[->|?]%elem_of_cons|?]; auto.
Qed.

Lemma available_answered net dst records st calls r t :
  available_write_batch net dst records = (st, calls) → is_available st = true → (r, t) ∈ records →
  Exists (settled net dst r) calls ∨ Exists (refused net dst) calls.
Proof.
  unfold available_write_batch. intros Hw Hav Hin.
  assert (r ∈ records_of true records ∨ r ∈ records_of false records) as Hr.
  { rewrite !elem_of_records_of. destruct (tx_is_write t) eqn:Ht; eauto. }
  generalize dependent (records_of true records). generalize dependent (records_of false records).
  intros to_update to_write Hw Hr. case_decide as Hnil.
  { left. eapply write_records_settled; [done|done|]. subst to_update.
    destruct Hr as [?|Hn]; [by left|by apply elem_of_nil in Hn]. }
  destruct (net_update net to_update) as [em|e] eqn:Hu.
  - destruct (write_records _ _ _ _ em) as [st' calls'] eqn:Hwr. inversion Hw; subst st' calls.
    left. apply Exists_cons. destruct (decide (r ∈ to_write ∨ is_Some (em !! sr_timestamp r))) as [Hd|Hd].
    + right. eapply write_records_settled; [done|done|]. naive_solver.
    + left. simpl. split_and!; [done|naive_solver|]. exists em. split; [done|].
      destruct (em !! sr_timestamp r); naive_solver.
  - destruct (decide (e = NotFound)) as [->|Hne].
    + destruct (write_records _ _ _ _ _) as [st' calls'] eqn:Hwr. inversion Hw; subst st' calls.
      left. apply Exists_cons. right. eapply write_records_settled; [done|done|].
      destruct Hr; [by left|right]. split; [done|]. by apply failed_updates_lookup.
    + assert (check_error_and_change_state net e = st ∧ [CallUpdate dst to_update] = calls) as [<- <-]
        by (destruct e; inversion Hw; done).
      right. constructor. simpl. split; [done|]. exists e. unfold check_error_and_change_state in Hav.
      by destruct (is_connection_error e).
Qed.

Lemma remote_answered net dst records bucket res bucket' calls r t :
  remote_write_batch net dst records bucket = (res, bucket', calls) → rb_is_active bucket' = true →
  (r, t) ∈ records → Exists (settled net dst r) calls ∨ Exists (refused net dst) calls.
Proof.
  unfold remote_write_batch. destruct (state_write_batch _ _ _ _) as [st calls'] eqn:Hst.
  intros [= <- <- <-] Hav Hin. simpl in Hav.
  unfold state_write_batch, connect_and_write in Hst.
  destruct (rb_state bucket) as [?|?|init ?]; [| |case_decide];
    try (destruct (get_or_create_bucket net)); try (by eapply available_answered);
    inversion Hst; by subst st.
Qed.

Lemma append_all_rep n log r q txs :
  tlog_rep log n r q → Forall tx_valid txs → (length q + length txs < n)%nat →
  ∃ r', tlog_rep (append_all log txs) n r' (q ++ txs).
Proof.
  revert log r q. induction txs as [|t txs IH]; intros log r q Hr Hv Hlen; simpl.
  { exists r. by rewrite app_nil_r. }
  inversion_clear Hv as [|? ? Ht Hv'].
  destruct (push_back_rep log n r q t Hr Ht) as (log' & r' & Hp & Hr'). revert Hp Hr'.
  unfold spec_push. rewrite decide_False by (rewrite length_app; simpl in *; lia). cbn [fst snd].
  intros -> Hr'. destruct (IH _ _ _ Hr' Hv') as [r'' Hr'']; [rewrite length_app; simpl in *; lia|].
  exists r''. by rewrite <-(assoc_L (++)) in Hr''.
Qed.

Lemma read_all_elem storage e txs t r :
  t ∈ txs → read_record storage e t = Done r → (r, t) ∈ read_all storage e txs.
Proof. intros Hin Hr. unfold read_all. apply list_elem_of_omap. exists t. by rewrite Hr. Qed.

(** One entry: its log loses the oldest transactions that were answered, if the remote
    bucket is available, and gets what is appended; the other logs stay. *)
Lemma send_prepared_spec n w settings io s Q e q b c active s' :
  logs_rep n (sn_logs s) Q → Q !! e = Some q →
  Forall tx_valid (w_appended w e) → (length q + length (w_appended w e) < n)%nat →
  prepare_batch (sn_logs s) (w_storage w) settings io e = PrepareBatch b →
  send_prepared w b s = (c, active, s') →
  ∃ k calls, sn_calls s' = sn_calls s ++ calls ∧ (k ≤ length q)%nat ∧
    logs_rep n (sn_logs s') (<[e := drop k q ++ w_appended w e]> Q) ∧
    Forall (answered w settings calls e) (take k q) ∧
    (active = true → 0 < k)%nat.
Proof.
  intros Hr Hq Hv Hroom Hp Hs.
  destruct (logs_rep_lookup _ _ _ _ _ Hr Hq) as (log & r & Hlog & Hrep).
  pose proof (prepare_batch_names _ _ _ _ _ _ Hp) as [He Hd].
  apply prepare_batch_inv in Hp as (log0 & txs & Hlog0 & Hf & Hne & ->).
  rewrite Hlog in Hlog0. injection Hlog0 as <-.
  rewrite (front_rep _ _ _ _ _ Hrep) in Hf. injection Hf as <-.
  set (m := Z.to_nat (batch_max_records io)) in *.
  destruct (gather_spec (w_storage w) (batch_max_size io) e (take m q) 0
    (mkPreparedBatch e (destination_entry_name (dst_prefix settings) e) [] ∅ [] 0)) as (k & Hk & Hk0 & Hproc & Hbatch).
  fold (gather_batch (w_storage w) settings io e (take m q)) in Hproc, Hbatch. simpl in Hproc, Hbatch.
  set (b := gather_batch _ _ _ _ _) in *. rewrite length_take in Hk.
  rewrite take_take, Nat.min_l in Hbatch by lia.
  destruct (append_all_rep n log r q (w_appended w e) Hrep Hv Hroom) as [r1 Hr1].
  revert Hs. unfold send_prepared, send_batch, append_to. rewrite He, Hlog. cbn [sn_logs sn_bucket sn_calls].
  destruct (remote_write_batch _ _ _ _) as [[res bucket] calls] eqn:Hcall. rewrite lookup_insert_eq.
  intros Hs. injection Hs as <- <- <-. cbn [sn_logs sn_calls].
  destruct (rb_is_active bucket) eqn:Hact.
  - exists k, calls. split_and!; [done|lia| | |intros _; apply Hk0, Hne].
    + destruct (pop_front_rep _ _ _ _ (pb_processed b) Hr1) as (l' & r2 & -> & Hr2). cbn [snd].
      rewrite Hproc, drop_app_le in Hr2 by lia.
      rewrite insert_insert_eq. apply map_Forall2_insert_2; [by exists r2|done].
    + apply Forall_forall. intros t Ht. unfold answered.
      destruct (read_record (w_storage w) e t) as [rec|] eqn:Hrec; [|done].
      rewrite Hd, Hbatch in Hcall. eapply remote_answered; [done|done|]. by apply read_all_elem.
  - exists 0%nat, calls. split_and!; [done|lia| |rewrite take_0; constructor|done].
    rewrite drop_0. apply map_Forall2_insert_2; [by exists r1|done].
Qed.

(** [q'] is [q] without some of its oldest transactions, which were answered, and with
    what was appended to the log of [e] while its batch was under way.  A log that the pass
    did not get to is as it was. *)
Definition advanced (w : World) (settings : Settings) (calls : list RemoteCall) (e : string) (moved : Prop) (reached : bool)
  (q q' : list Transaction) : Prop :=
  ∃ k, q' = drop k q ++ (if reached then w_appended w e else []) ∧ (reached = false → k = 0%nat) ∧
    Forall (answered w settings calls e) (take k q) ∧ (moved → q ≠ [] → 0 < k)%nat.

Definition room (w : World) (n : nat) (e : string) (q : list Transaction) : Prop :=
  Forall tx_valid (w_appended w e) ∧ (length q + length (w_appended w e) < n)%nat.

(** A pass that got to its end. *)
Definition finished (st : SyncState) : Prop :=
  match st with SyncedOrRemoved _ | NoTransactions => True | NotAvailable _ | BrokenLog _ => False end.

Lemma answered_app w settings calls1 calls calls2 e t :
  answered w settings calls e t → answered w settings (calls1 ++ calls ++ calls2) e t.
Proof. unfold answered. destruct (read_record _ _ _); [|done]. rewrite !Exists_app. tauto. Qed.

Lemma advanced_app w settings calls1 calls calls2 e (moved moved' : Prop) reached q q' :
  (moved' → moved) → advanced w settings calls e moved reached q q' →
  advanced w settings (calls1 ++ calls ++ calls2) e moved' reached q q'.
Proof.
  intros Hm (k & -> & Hr & Hall & Hk). exists k. split_and!; [done|done| |auto].
  eapply Forall_impl; [done|]. intros t. apply answered_app.
Qed.

Lemma advanced_refl w settings calls e (moved : Prop) q : ¬ moved ∨ q = [] → advanced w settings calls e moved false q q.
Proof.
  intros Hor. exists 0%nat. rewrite app_nil_r, take_0. split_and!; [done|done|constructor|].
  by destruct Hor.
Qed.

(** Whether a pass that gets to the first [m] of the logs sends a batch of this one. *)
Definition gets_to (m : nat) (es : list string) (e : string) (q : list Transaction) : bool :=
  bool_decide (q ≠ [] ∧ e ∈ take m es).
Lemma gets_to_cons m e0 es e q : e ≠ e0 → gets_to (S m) (e0 :: es) e q = gets_to m es e q.
Proof. intros Hne. apply bool_decide_ext. simpl. rewrite elem_of_cons. naive_solver. Qed.
Lemma gets_to_none es e q : gets_to 0 es e q = false.
Proof. apply bool_decide_eq_false. rewrite take_0. by intros [_ ?%elem_of_nil]. Qed.


Lemma account_not_nil b r : account b r ≠ [].
Proof. unfold account. destruct r; intros Hn; apply (f_equal length) in Hn; rewrite length_app in Hn; simpl in Hn; lia. Qed.

Lemma send_prepared_counter w b s c active s' : send_prepared w b s = (c, active, s') → c ≠ [].
Proof.
  unfold send_prepared, send_batch. destruct (remote_write_batch _ _ _ _) as [[r bucket] calls].
  intros [= <- _ _]. apply account_not_nil.
Qed.

Lemma make_state_false counter c : c ≠ [] → make_state (counter ++ c) false = NotAvailable (counter ++ c).
Proof. intros Hc. destruct counter; simpl; [|done]. by destruct c. Qed.

Lemma prepare_batch_rep n logs Q storage settings io e :
  logs_rep n logs Q → 0 < batch_max_records io →
  match prepare_batch logs storage settings io e with
  | PrepareNone => Q !! e = None ∨ Q !! e = Some []
  | PrepareBroken => False
  | PrepareBatch _ => ∃ q, Q !! e = Some q ∧ q ≠ []
  end.
Proof.
  intros Hr Hm. unfold prepare_batch. destruct (Q !! e) as [q|] eqn:Hq.
  - destruct (logs_rep_lookup _ _ _ _ _ Hr Hq) as (log & r & -> & Hrep).
    rewrite (front_rep _ _ _ _ _ Hrep). destruct q as [|t q]; [rewrite take_nil; by right|].
    destruct (Z.to_nat (batch_max_records io)) eqn:Hn; [lia|]. simpl. eauto.
  - rewrite (logs_rep_none _ _ _ _ Hr Hq). by left.
Qed.

Lemma run_in_turn_spec n w settings io es counter s Q st s' :
  NoDup es → logs_rep n (sn_logs s) Q → (∀ e q, e ∈ es → Q !! e = Some q → room w n e q) →
  0 < batch_max_records io → run_in_turn w settings io es counter s = (st, s') →
  ∃ m Q' calls, sn_calls s' = sn_calls s ++ calls ∧ logs_rep n (sn_logs s') Q' ∧
    (∀ e, st ≠ BrokenLog e) ∧ (finished st → m = length es) ∧ (∀ e, e ∉ es → Q' !! e = Q !! e) ∧
    ∀ e q, e ∈ es → Q !! e = Some q →
      ∃ q', Q' !! e = Some q' ∧ advanced w settings calls e (finished st) (gets_to m es e q) q q'.
Proof.
  intros Hnd. revert counter s Q. induction es as [|e es IH]; intros counter s Q Hr Hroom Hm Hrun.
  { inversion Hrun; subst. exists 0%nat, Q, []. rewrite app_nil_r. split_and!; [done|done| |done|done|set_solver].
    intros e. unfold make_state. by destruct counter. }
  inversion_clear Hnd as [|? ? Hin Hnd']. specialize (IH Hnd'). simpl in Hrun.
  pose proof (prepare_batch_rep n _ Q (w_storage w) settings io e Hr Hm) as Hp.
  destruct (prepare_batch _ _ _ _ e) as [| |b] eqn:Hpe; [|done|].
  - destruct (IH counter s Q Hr) as (m & Q' & calls & Hc & Hr' & Hst & Hfin & Hout & Hadv); [set_solver|done|done|].
    exists (S m), Q', calls. split_and!; [done|done|done|by intros ?%Hfin; subst|set_solver|].
    intros e' q He' Hq. destruct (decide (e' = e)) as [->|Hne].
    + exists q. rewrite Hout by done. split; [done|]. assert (q = []) as -> by (destruct Hp; naive_solver).
      replace (gets_to _ _ _ _) with false; [apply advanced_refl; by right|]. symmetry. apply bool_decide_eq_false. by intros [? _].
    + rewrite gets_to_cons by done. apply Hadv; [set_solver|done].
  - destruct Hp as (q & Hq & Hqne). destruct (Hroom e q) as [Hv Hlen]; [set_solver|done|].
    destruct (send_prepared w b s) as [[c active] s1] eqn:Hs.
    destruct (send_prepared_spec n w settings io s Q e q b c active s1) as (k & calls & Hc & Hk & Hr1 & Hans & Hk0); try done.
    assert (∀ m, gets_to (S m) (e :: es) e q = true) as Hto.
    { intros m. apply bool_decide_eq_true. split; [done|]. simpl. by left. }
    assert (advanced w settings calls e (active = true) true q (drop k q ++ w_appended w e)) as Hadv1.
    { exists k. split_and!; auto. done. }
    destruct active.
    + destruct (IH (counter ++ c) s1 (<[e:=drop k q ++ w_appended w e]> Q)) as (m & Q' & calls' & Hc' & Hr' & Hst & Hfin & Hout & Hadv);
        [done| |done|done|].
      { intros e' q' He' Hq'. apply Hroom; [set_solver|]. by rewrite lookup_insert_ne in Hq' by set_solver. }
      exists (S m), Q', (calls ++ calls'). split_and!.
      * rewrite Hc', Hc. by rewrite (assoc_L (++)).
      * done.
      * done.
      * by intros ?%Hfin; subst.
      * intros e' He'. rewrite Hout by set_solver. apply lookup_insert_ne. set_solver.
      * intros e' q' He' Hq'. destruct (decide (e' = e)) as [->|Hne].
        -- rewrite Hout, lookup_insert_eq by done. simplify_eq. eexists; split; [done|]. rewrite Hto.
           apply (advanced_app _ _ [] _ _ _ (true = true)); [done|done].
        -- destruct (Hadv e' q') as (q'' & Hq'' & Ha); [set_solver|by rewrite lookup_insert_ne by set_solver|].
           rewrite gets_to_cons by done.
           exists q''. split; [done|]. rewrite <-(app_nil_r calls'). by apply (advanced_app _ _ _ _ _ _ (finished st)).
    + rewrite make_state_false in Hrun by (by eapply send_prepared_counter). inversion Hrun; subst st s1.
      eexists 1%nat, _, calls. split_and!; [done|done|done|done| |].
      * intros e' He'. apply lookup_insert_ne. set_solver.
      * intros e' q' He' Hq'. destruct (decide (e' = e)) as [->|Hne].
        -- rewrite lookup_insert_eq. simplify_eq. eexists; split; [done|]. rewrite Hto, <-(app_nil_r calls), <-(app_nil_l (calls ++ [])).
           by apply (advanced_app _ _ _ _ _ _ (false = true)).
        -- rewrite lookup_insert_ne by done. exists q'. split; [done|]. rewrite gets_to_cons, gets_to_none by done.
           apply advanced_refl. left. intros [].
Qed.
