(* ===== verification/ReplicationPass.v ===== *)
(** * Passes of a replication

    What a pass does to the logs, and what the passes of a task do in the long run; with
    the places where a transaction is lost or counted although it was not sent. *)

From stdpp Require Import prelude gmap strings sorting.
From Stdlib Require Import Ascii ZArith Lia.
From S2P Require Import Prelude Collections Text Split Filters TransactionLog Replication ReplicationRefine.
Open Scope Z_scope.

(** ** A remote bucket that answers *)

(** The bucket is there or can be created, and no request fails with the connection. *)
Definition no_connection_error {A} (r : Result A) : Prop :=
  match r with Done _ => True | Failed e => is_connection_error e = false end.
Definition reachable (net : Net) : Prop :=
  get_or_create_bucket net = Done tt ∧ ∀ records, no_connection_error (net_update net records) ∧
    no_connection_error (net_write net records).

(** The remote bucket will be asked, that is, it is not waiting. *)
Definition ready (w : World) (st : RemoteState) : Prop :=
  match st with
  | Unavailable init_time _ => ∀ e, UNAVAILABLE_TIMEOUT < net_instant (w_net w e) - init_time
  | Initial _ | Available _ => True
  end.

Lemma check_error_available net e :
  is_connection_error e = false → is_available (check_error_and_change_state net e) = true.
Proof. unfold check_error_and_change_state. by intros ->. Qed.

Lemma write_records_available net dst to_write to_update em :
  reachable net → is_available (write_records net dst to_write to_update em).1 = true.
Proof.
  intros [_ Hn]. unfold write_records. set (all := to_write ++ _). case_decide; [done|]. simpl.
  destruct (Hn all) as [_ Hw]. destruct (net_write net all); [done|]. by apply check_error_available.
Qed.

Lemma available_write_batch_available net dst records :
  reachable net → is_available (available_write_batch net dst records).1 = true.
Proof.
  intros Hn. pose proof Hn as [_ Ha]. unfold available_write_batch.
  generalize (records_of true records), (records_of false records). intros to_write to_update.
  case_decide; [by apply write_records_available|]. destruct (Ha to_update) as [Hu _].
  assert (∀ em, is_available (let '(st, calls) := write_records net dst to_write to_update em in
    (st, [CallUpdate dst to_update] ++ calls)).1 = true) as Hw.
  { intros em. pose proof (write_records_available net dst to_write to_update em Hn) as Hw.
    by destruct (write_records _ _ _ _ _). }
  destruct (net_update net to_update) as [em|e]; [done|].
  destruct e; try apply Hw; by apply check_error_available.
Qed.

Lemma send_prepared_active w b s c active s' :
  reachable (w_net w (pb_entry b)) → ready w (rb_state (sn_bucket s)) →
  send_prepared w b s = (c, active, s') → active = true ∧ is_available (rb_state (sn_bucket s')) = true.
Proof.
  intros Hn Hrd. pose proof (available_write_batch_available _ (pb_dst b) (pb_batch b) Hn) as Hav.
  unfold send_prepared, send_batch, remote_write_batch.
  assert (sn_bucket (append_to (pb_entry b) (w_appended w (pb_entry b)) s) = sn_bucket s) as ->
    by (unfold append_to; by destruct (sn_logs s !! pb_entry b)).
  assert (is_available (state_write_batch (w_net w (pb_entry b)) (pb_dst b) (pb_batch b) (rb_state (sn_bucket s))).1 = true) as Hst.
  { unfold state_write_batch, connect_and_write. pose proof Hn as [-> _].
    destruct (rb_state (sn_bucket s)) as [?|?|init ?]; [done|done|]. simpl in Hrd. specialize (Hrd (pb_entry b)).
    rewrite decide_True by lia. done. }
  destruct (state_write_batch _ _ _ _) as [st calls]. intros [= <- <- <-]. done.
Qed.

Lemma available_ready w st : is_available st = true → ready w st.
Proof. by destruct st. Qed.

Lemma run_in_turn_finishes w settings io es counter s st s' :
  (∀ e, reachable (w_net w e)) → ready w (rb_state (sn_bucket s)) →
  run_in_turn w settings io es counter s = (st, s') → (∀ e, st ≠ BrokenLog e) →
  finished st ∧ (sn_bucket s' = sn_bucket s ∨ is_available (rb_state (sn_bucket s')) = true).
Proof.
  intros Hn. revert counter s. induction es as [|e es IH]; intros counter s Hrd Hrun Hst; simpl in Hrun.
  { inversion Hrun; subst. split; [|by left]. by destruct counter. }
  destruct (prepare_batch _ _ _ _ e) as [| |b]; [by eapply IH| |].
  { inversion Hrun; subst. by destruct (Hst e). }
  destruct (send_prepared w b s) as [[c active] s1] eqn:Hs.
  destruct (send_prepared_active _ _ _ _ _ _ (Hn _) Hrd Hs) as [-> Hav].
  destruct (IH _ _ (available_ready w _ Hav) Hrun Hst) as [Hf [Heq|?]]; [|by auto].
  split; [done|]. right. by rewrite Heq.
Qed.

(** ** One pass *)

Section Pass.
Context `{HashIter} `{!HashIterLaws} (settings : Settings) (io : IoConfig).

Lemma sender_run_spec n w s Q :
  logs_rep n (sn_logs s) Q → (∀ e q, Q !! e = Some q → room w n e q) → 0 < batch_max_records io →
  let '(st, s') := sender_run w settings io s in
  ∃ m Q' calls, sn_calls s' = sn_calls s ++ calls ∧ logs_rep n (sn_logs s') Q' ∧ (∀ e, st ≠ BrokenLog e) ∧
    (finished st → m = length (pass_entries s)) ∧ (∀ e, Q !! e = None → Q' !! e = None) ∧
    ∀ e q, Q !! e = Some q →
      ∃ q', Q' !! e = Some q' ∧ advanced w settings calls e (finished st) (gets_to m (pass_entries s) e q) q q'.
Proof.
  intros Hr Hroom Hm. rewrite sender_run_in_turn. destruct (run_in_turn _ _ _ _ _ _) as [st s'] eqn:Hrun.
  destruct (run_in_turn_spec n w settings io (pass_entries s) [] s Q st s') as (m & Q' & calls & Hc & Hr' & Hst & Hfin & Hout & Hadv);
    [apply NoDup_pass_entries|done|eauto|done|done|].
  assert (∀ e, e ∈ pass_entries s ↔ is_Some (Q !! e)) as Hin.
  { intros e. rewrite elem_of_pass_entries. by eapply logs_rep_dom. }
  exists m, Q', calls. split_and!; [done|done|done|done| |].
  - intros e Hq. rewrite Hout; [done|]. rewrite Hin, Hq. by intros [].
  - intros e q Hq. apply Hadv; [|done]. rewrite Hin. eauto.
Qed.

(** ** Many passes *)

Definition passes (ws : list World) (s : Sender) : Sender :=
  foldl (λ s w, (sender_run w settings io s).2) s ws.

Lemma room_quiet n w logs Q e q :
  logs_rep n logs Q → Q !! e = Some q → w_appended w e = [] → room w n e q.
Proof.
  intros Hr Hq Ha. destruct (logs_rep_lookup _ _ _ _ _ Hr Hq) as (log & r & _ & Hrep).
  unfold room. rewrite Ha. split; [constructor|]. simpl. pose proof (rep_room _ _ _ _ Hrep). lia.
Qed.

Lemma sender_run_drains n w s Q :
  logs_rep n (sn_logs s) Q → 0 < batch_max_records io →
  (∀ e, reachable (w_net w e) ∧ w_appended w e = []) → ready w (rb_state (sn_bucket s)) →
  ∃ Q' calls, let s' := (sender_run w settings io s).2 in
    sn_calls s' = sn_calls s ++ calls ∧ logs_rep n (sn_logs s') Q' ∧ (∀ e, Q !! e = None → Q' !! e = None) ∧
    (∀ w', ready w' (rb_state (sn_bucket s)) → ready w' (rb_state (sn_bucket s'))) ∧
    ∀ e q, Q !! e = Some q → ∃ k, Q' !! e = Some (drop k q) ∧ Forall (answered w settings calls e) (take k q) ∧
      (q ≠ [] → 0 < k)%nat.
Proof.
  intros Hr Hm Hw Hrd.
  pose proof (sender_run_spec n w s Q Hr (λ e q Hq, room_quiet n w _ Q e q Hr Hq (proj2 (Hw e))) Hm) as Hs.
  pose proof (sender_run_in_turn w settings io s) as Hturn.
  destruct (sender_run w settings io s) as [st s'].
  destruct Hs as (m & Q' & calls & Hc & Hr' & Hst & _ & Hout & Hadv).
  destruct (run_in_turn_finishes w settings io (pass_entries s) [] s st s') as [Hf Hb]; [apply Hw|done|done|done|].
  exists Q', calls. simpl. split_and!; [done|done|done| |].
  - intros w' Hw'. destruct Hb as [->|Hav]; [done|]. by apply available_ready.
  - intros e q Hq. destruct (Hadv e q Hq) as (q' & Hq' & k & -> & _ & Hans & Hk).
    exists k. rewrite (proj2 (Hw e)) in Hq'. assert (drop k q ++ (if gets_to m (pass_entries s) e q then [] else []) = drop k q) as E.
    { destruct (gets_to _ _ _ _); by rewrite app_nil_r. }
    rewrite E in Hq'. auto.
Qed.

Lemma passes_drain n ws s Q :
  logs_rep n (sn_logs s) Q → 0 < batch_max_records io →
  (∀ w e, w ∈ ws → reachable (w_net w e) ∧ w_appended w e = []) →
  (∀ w, w ∈ ws → ready w (rb_state (sn_bucket s))) →
  (∀ e q, Q !! e = Some q → length q ≤ length ws)%nat →
  ∃ calls, sn_calls (passes ws s) = sn_calls s ++ calls ∧
    logs_rep n (sn_logs (passes ws s)) ((λ _, []) <$> Q) ∧
    ∀ e q t, Q !! e = Some q → t ∈ q → ∃ w, w ∈ ws ∧ answered w settings calls e t.
Proof.
  intros Hr Hm. revert s Q Hr. induction ws as [|w ws IH]; intros s Q Hr Hw Hrd Hlen.
  - exists []. simpl. rewrite app_nil_r. split_and!; [done| |].
    + replace ((λ _, []) <$> Q) with Q; [done|]. apply map_eq. intros e. rewrite lookup_fmap.
      destruct (Q !! e) as [q|] eqn:Hq; [|done]. specialize (Hlen e q Hq). destruct q; simpl in *; [done|lia].
    + intros e q t Hq Ht. specialize (Hlen e q Hq). destruct q; simpl in *; [by apply elem_of_nil in Ht|lia].
  - destruct (sender_run_drains n w s Q Hr Hm) as (Q' & calls & Hc & Hr' & Hout & Hb & Hadv);
      [intros e; apply Hw; set_solver|apply Hrd; set_solver|].
    destruct (IH (sender_run w settings io s).2 Q' Hr') as (calls' & Hc' & Hr'' & Hans').
    { intros; apply Hw; set_solver. }
    { intros; apply Hb, Hrd; set_solver. }
    { intros e q' Hq'. destruct (Q !! e) as [q|] eqn:Hq; [|by rewrite (Hout e Hq) in Hq'].
      destruct (Hadv e q Hq) as (k & Hk & _ & Hpos). simplify_eq. specialize (Hlen e q Hq). simpl in Hlen.
      rewrite length_drop. destruct q; simpl in *; [lia|]. specialize (Hpos ltac:(done)). lia. }
    exists (calls ++ calls'). cbn [passes foldl]. fold (passes ws (sender_run w settings io s).2).
    split_and!; [by rewrite Hc', Hc, (assoc_L (++))| |].
    + replace ((λ _, []) <$> Q) with ((λ _ : list Transaction, @nil Transaction) <$> Q'); [done|].
      apply map_eq. intros e. rewrite !lookup_fmap. destruct (Q !! e) as [q|] eqn:Hq.
      * by destruct (Hadv e q Hq) as (k & -> & _).
      * by rewrite (Hout e Hq).
    + intros e q t Hq Ht. destruct (Hadv e q Hq) as (k & Hk & Hall & _).
      rewrite <-(take_drop k q), elem_of_app in Ht. destruct Ht as [Ht|Ht].
      * exists w. split; [set_solver|]. apply (answered_app _ _ [] calls calls').
        rewrite Forall_forall in Hall. by apply Hall.
      * destruct (Hans' e _ t Hk Ht) as (w' & Hw' & Ha). exists w'. split; [set_solver|].
        rewrite <-(app_nil_r calls'). by apply answered_app.
Qed.
End Pass.

(** ** Properties *)

(** Preparing the batch of an entry while the batch of the entry before is sent
    changes nothing: the pass over the logs is the one that prepares, sends and removes
    the batch of one entry after the other, in the order of the names of the entries, and
    stops at the first batch after which the remote bucket is not available. *)
Theorem overlapped_pass_is_sequential `{HashIter} `{!HashIterLaws} (w : World) (settings : Settings) (io : IoConfig)
  (s : Sender) :
  sender_run w settings io s = run_in_turn w settings io (pass_entries s) [] s.
Proof. apply sender_run_in_turn. Qed.

(** C18: A pass takes from the log of an entry only its oldest transactions, and only
    transactions that are settled: the record could not be read, or a request of this pass
    carried it and the remote bucket accepted the update, or answered to the write with
    something else than an error of the connection, or refused the whole update.  The pass
    goes through the logs in the order of the names of their entries and gets to the first
    [m] of them, to all if it comes to its end; then every log that was not empty has moved.
    What is appended to a log while its batch is under way is kept behind the rest, all of it,
    and a log that the pass does not get to is as it was.  No log breaks.  This is when each
    log has room for what is appended: one that overflows drops its oldest transactions, and
    the pass then removes others in their place ([overflow_while_sending_drops_unsent]). *)
Theorem pass_removes_only_answered `{HashIter} `{!HashIterLaws} (w : World) (settings : Settings) (io : IoConfig)
  (s : Sender) (n : nat) (Q : gmap string (list Transaction)) :
  logs_rep n (sn_logs s) Q → (∀ e q, Q !! e = Some q → room w n e q) → 0 < batch_max_records io →
  let '(st, s') := sender_run w settings io s in
  ∃ m Q' calls, sn_calls s' = sn_calls s ++ calls ∧ logs_rep n (sn_logs s') Q' ∧ (∀ e, st ≠ BrokenLog e) ∧
    (finished st → m = length (pass_entries s)) ∧ (∀ e, Q !! e = None → Q' !! e = None) ∧
    ∀ e q, Q !! e = Some q → ∃ k,
      Q' !! e = Some (drop k q ++ (if gets_to m (pass_entries s) e q then w_appended w e else [])) ∧
      (gets_to m (pass_entries s) e q = false → k = 0%nat) ∧
      Forall (answered w settings calls e) (take k q) ∧ (finished st → q ≠ [] → 0 < k)%nat.
Proof.
  intros Hr Hroom Hm. pose proof (sender_run_spec settings io n w s Q Hr Hroom Hm) as Hs.
  destruct (sender_run w settings io s) as [st s']. destruct Hs as (m & Q' & calls & Hc & Hr' & Hst & Hfin & Hout & Hadv).
  exists m, Q', calls. split_and!; try done. intros e q Hq.
  destruct (Hadv e q Hq) as (q' & Hq' & k & -> & Ha). by exists k.
Qed.

(** ** Witnesses *)

(** A log of eight slots, and a server that answers to everything. *)
Definition demo_log (txs : list Transaction) : TransactionLog :=
  match try_load_or_create None 8 with Ok log => append_all log txs | _ => mkTLog [] 0 0 0 end.

Lemma demo_log_rep txs : Forall tx_valid txs → (length txs < 8)%nat → ∃ r, tlog_rep (demo_log txs) 8 r txs.
Proof.
  intros Hv Hl. destruct (create_rep 8) as (log & Hlog & Hr); [lia|done|].
  unfold demo_log. change 8 with (Z.of_nat 8). rewrite Hlog. by apply (append_all_rep 8 log 0 []).
Qed.

Definition answering : Net := mkNet (Done tt) (Done tt) (Done tt) (λ _, Done ∅) (λ _, Done ∅) 0 0.
Definition demo_world (app : list Transaction) : World :=
  mkWorld (λ _ t _, Done (mkSyncRecord (tx_timestamp t) 10)) (λ _, answering) (λ _, app).
Definition demo_io : IoConfig := mkIoConfig 1000 2 0 0 0 0 None.
Definition demo_settings : Settings := mkSettings "src" "/copy/" [] None.
Definition demo_queue : list Transaction := [TxWriteRecord 1; TxWriteRecord 2; TxUpdateRecord 3].
Definition demo_sender : Sender := mkSender {["a" := demo_log demo_queue]} remote_bucket_new [].

Lemma demo_sender_rep : logs_rep 8 (sn_logs demo_sender) {["a" := demo_queue]}.
Proof.
  apply map_Forall2_singleton, demo_log_rep; [|simpl; lia].
  unfold demo_queue. repeat (apply Forall_cons; split; [unfold tx_valid; simpl; u64_lia|]). apply Forall_nil_2.
Qed.

Lemma answering_reachable : reachable answering.
Proof. by split. Qed.

Lemma demo_lookup {A} (x : A) e q : ({["a" := x]} : gmap string A) !! e = Some q → e = "a" ∧ q = x.
Proof. intros [<- <-]%lookup_singleton_Some. done. Qed.

Lemma overlapped_pass_is_sequential_witness :
  @sender_run std_order (demo_world []) demo_settings demo_io demo_sender =
  run_in_turn (demo_world []) demo_settings demo_io (@pass_entries std_order demo_sender) [] demo_sender.
Proof. exact (@overlapped_pass_is_sequential std_order std_order_laws (demo_world []) demo_settings demo_io demo_sender). Defined.

Lemma pass_removes_only_answered_witness :
  let '(st, s') := @sender_run std_order (demo_world [TxWriteRecord 4]) demo_settings demo_io demo_sender in
  finished st ∧ ∃ Q' calls k, sn_calls s' = [] ++ calls ∧ logs_rep 8 (sn_logs s') Q' ∧
    Q' !! "a" = Some (drop k demo_queue ++ [TxWriteRecord 4]) ∧ (0 < k)%nat.
Proof.
  pose proof (@pass_removes_only_answered std_order std_order_laws (demo_world [TxWriteRecord 4]) demo_settings
    demo_io demo_sender 8 {["a" := demo_queue]} demo_sender_rep) as Hp.
  assert (∀ e q, ({["a" := demo_queue]} : gmap string (list Transaction)) !! e = Some q →
    room (demo_world [TxWriteRecord 4]) 8 e q) as Hroom.
  { intros e q [-> ->]%demo_lookup. split; [constructor; [unfold tx_valid; simpl; u64_lia|constructor]|simpl; lia]. }
  specialize (Hp Hroom ltac:(simpl; lia)). revert Hp.
  destruct (@sender_run std_order _ _ _ _) as [st s'] eqn:Hrun. intros (m & Q' & calls & Hc & Hr & _ & Hm & _ & Hadv).
  assert (finished st) as Hf by (vm_compute in Hrun; by injection Hrun as <- _).
  split; [done|]. destruct (Hadv "a" demo_queue) as (k & HQ & _ & _ & Hk); [done|]. exists Q', calls, k.
  split_and!; [done|done| |by apply Hk]. rewrite HQ, Hm by done. by vm_compute.
Defined.
