(* ===== verification/ReplicationTask.v ===== *)
(** * ReplicationTask: notifications and the worker of a replication
    (replication/replication_task.rs, replication/transaction_filter.rs, replication/diagnostics.rs)

    A write notifies the task, which filters the notification and appends it to the log of
    the entry; the worker makes one pass after the other. *)

From stdpp Require Import prelude gmap strings sorting.
From Stdlib Require Import Ascii ZArith Lia.
From S2P Require Import Prelude Collections Text Split Value Condition Parser Filters Pattern TransactionLog.
From S2P Require Import Replication ReplicationRefine ReplicationPass.
Open Scope Z_scope.

(** ** Filtering (transaction_filter.rs) *)

(** [TransactionNotification], with what [FilterRecord] takes from its metadata. *)
Record TransactionNotification := mkNotification {
  tn_bucket : string;
  tn_entry : string;
  tn_labels : gmap string string;
  tn_computed_labels : gmap string string;
  tn_state : Z;
  tn_event : Transaction
}.

#[export] Instance notification_filter : FilterRecord TransactionNotification := {|
  fr_state := tn_state;
  fr_timestamp n := tx_timestamp (tn_event n);
  fr_labels := tn_labels;
  fr_set_labels m n := mkNotification (tn_bucket n) (tn_entry n) m (tn_computed_labels n) (tn_state n) (tn_event n);
  fr_computed_labels := tn_computed_labels
|}.

Record TransactionFilter := mkTransactionFilter {
  tf_bucket : string;
  tf_entries : list string;
  tf_query_filters : list (Filter TransactionNotification)
}.

(** [ReplicationMode]. *)
Inductive ReplicationMode : Type := Enabled | Paused | Disabled.

(** ** Diagnostics (diagnostics.rs) *)

(** The number of an [ErrorCode] ([as i16]). *)
Definition status_code (e : ErrorCode) : Z :=
  match e with
  | InvalidRequest => -6 | Interrupt => -5 | UrlParseError => -4 | ConnectionError => -3 | Timeout => -2
  | Unknown => -1 | Continue => 100 | OK => 200 | Created => 201 | Accepted => 202 | NoContent => 204
  | BadRequest => 400 | Unauthorized => 401 | Forbidden => 403 | NotFound => 404 | MethodNotAllowed => 405
  | NotAcceptable => 406 | RequestTimeout => 408 | Conflict => 409 | Gone => 410 | LengthRequired => 411
  | PreconditionFailed => 412 | PayloadTooLarge => 413 | URITooLong => 414 | UnsupportedMediaType => 415
  | RangeNotSatisfiable => 416 | ExpectationFailed => 417 | ImATeapot => 418 | MisdirectedRequest => 421
  | UnprocessableEntity => 422 | Locked => 423 | FailedDependency => 424 | TooEarly => 425
  | UpgradeRequired => 426 | PreconditionRequired => 428 | TooManyRequests => 429
  | RequestHeaderFieldsTooLarge => 431 | UnavailableForLegalReasons => 451 | InternalServerError => 500
  | NotImplemented => 501 | BadGateway => 502 | ServiceUnavailable => 503 | GatewayTimeout => 504
  | HTTPVersionNotSupported => 505 | VariantAlsoNegotiates => 506 | InsufficientStorage => 507
  | LoopDetected => 508 | NotExtended => 510 | NetworkAuthenticationRequired => 511
  end.

(** [DiagnosticsItem]; the last message of an error is left out. *)
Record DiagnosticsItem := mkDiagnosticsItem { di_ok : Z; di_errored : Z; di_errors : gmap Z Z }.
Definition diagnostics_default : DiagnosticsItem := mkDiagnosticsItem 0 0 ∅.

(** [DiagnosticsCounter]; times in milliseconds. *)
Record DiagnosticsCounter := mkDiagnosticsCounter {
  dc_frames : list DiagnosticsItem;
  dc_frame_interval : Z;
  dc_frame_count : nat;
  dc_frame_last : Z
}.
Definition DEFAULT_FRAME_COUNT : nat := 60.
Definition diagnostics_new (count_interval now : Z) : DiagnosticsCounter :=
  mkDiagnosticsCounter [diagnostics_default] (count_interval / Z.of_nat DEFAULT_FRAME_COUNT) DEFAULT_FRAME_COUNT now.

(** [check_and_create_new_frame]. *)
Fixpoint push_frames (delta : nat) (count : nat) (frames : list DiagnosticsItem) : list DiagnosticsItem :=
  match delta with
  | O => frames
  | S delta' =>
      let frames := frames ++ [diagnostics_default] in
      push_frames delta' count (if decide (count < length frames)%nat then tail frames else frames)
  end.
Definition check_and_create_new_frame (now : Z) (c : DiagnosticsCounter) : DiagnosticsCounter :=
  let delta := (now - dc_frame_last c) / dc_frame_interval c in
  if decide (delta ≤ 0) then c
  else mkDiagnosticsCounter (push_frames (Z.to_nat delta) (dc_frame_count c) (dc_frames c))
         (dc_frame_interval c) (dc_frame_count c) now.

(** [count]. *)
Definition count_item (result : Result ()) (n : Z) (f : DiagnosticsItem) : DiagnosticsItem :=
  match result with
  | Done _ => mkDiagnosticsItem (u64_add (di_ok f) n) (di_errored f) (di_errors f)
  | Failed e =>
      mkDiagnosticsItem (di_ok f) (u64_add (di_errored f) n)
        (<[status_code e := u64_add (default 0 (di_errors f !! status_code e)) n]> (di_errors f))
  end.
Definition diagnostics_count (now : Z) (result : Result ()) (n : Z) (c : DiagnosticsCounter) : DiagnosticsCounter :=
  let c := check_and_create_new_frame now c in
  mkDiagnosticsCounter (alter (count_item result n) (pred (length (dc_frames c))) (dc_frames c))
    (dc_frame_interval c) (dc_frame_count c) (dc_frame_last c).

(** ** The task (replication_task.rs) *)

Record Task := mkTask {
  tk_settings : Settings;
  tk_io : IoConfig;
  tk_transaction_log_size : Z;
  tk_mode : ReplicationMode;
  tk_filter_map : gmap string TransactionFilter;
  tk_sender : Sender;
  tk_is_active : bool;
  tk_hourly : DiagnosticsCounter
}.

Definition with_filters (fm : gmap string TransactionFilter) (t : Task) : Task :=
  mkTask (tk_settings t) (tk_io t) (tk_transaction_log_size t) (tk_mode t) fm (tk_sender t) (tk_is_active t) (tk_hourly t).
Definition with_logs (logs : gmap string TransactionLog) (t : Task) : Task :=
  mkTask (tk_settings t) (tk_io t) (tk_transaction_log_size t) (tk_mode t) (tk_filter_map t)
    (mkSender logs (sn_bucket (tk_sender t)) (sn_calls (tk_sender t))) (tk_is_active t) (tk_hourly t).
Definition with_sender (active : bool) (s : Sender) (t : Task) : Task :=
  mkTask (tk_settings t) (tk_io t) (tk_transaction_log_size t) (tk_mode t) (tk_filter_map t) s active (tk_hourly t).
Definition with_hourly (h : DiagnosticsCounter) (t : Task) : Task :=
  mkTask (tk_settings t) (tk_io t) (tk_transaction_log_size t) (tk_mode t) (tk_filter_map t) (tk_sender t) (tk_is_active t) h.
Definition set_mode (mode : ReplicationMode) (t : Task) : Task :=
  mkTask (tk_settings t) (tk_io t) (tk_transaction_log_size t) mode (tk_filter_map t) (tk_sender t) (tk_is_active t) (tk_hourly t).

Definition task_logs (t : Task) : gmap string TransactionLog := sn_logs (tk_sender t).

(** [ReplicationTask::build]. *)
Definition task_build (settings : Settings) (io : IoConfig) (log_size : Z) (mode : ReplicationMode) (now : Z) : Task :=
  mkTask settings io log_size mode ∅ (mkSender ∅ remote_bucket_new [])
    (match mode with Enabled => true | _ => false end) (diagnostics_new 3600000 now).

(** [load_or_recreate_transaction_log]: [file] is what the file of the log has. *)
Definition load_or_recreate_transaction_log (file : option (list Z)) (size : Z) : outcome TransactionLog :=
  match try_load_or_create file size with
  | Err _ => try_load_or_create None size
  | r => r
  end.

(** The pushes of [notify], in turn; a failed one ends them. *)
Fixpoint push_all (log : TransactionLog) (txs : list Transaction) : outcome () * TransactionLog :=
  match txs with
  | [] => (Ok tt, log)
  | t :: txs' =>
      match push_back log t with
      | Ok (_, log') => push_all log' txs'
      | Err e => (Err e, log)
      | Panic => (Panic, log)
      end
  end.

Section Task.
Context `{HashIter} `{ByteSize} `{Chrono} `{JsonText}.

(** [TransactionFilter::try_new]: a condition that cannot be parsed is left out. *)
Definition transaction_filter_try_new (settings : Settings) (io : IoConfig) : outcome TransactionFilter :=
  filters ← match rs_when settings with
            | Some when =>
                match parse when with
                | Ok (condition, directives) =>
                    w ← when_try_new condition directives io true; Ok [When w]
                | Err _ => Ok []
                | Panic => Panic
                end
            | None => Ok []
            end;
  Ok (mkTransactionFilter (src_bucket settings) (rs_entries settings) filters).

(** [TransactionFilter::filter]. *)
Definition transaction_filter (f : TransactionFilter) (n : TransactionNotification)
    : outcome (list TransactionNotification) * TransactionFilter :=
  if decide (tn_bucket n ≠ tf_bucket f) then (Ok [], f)
  else if negb (entry_is_selected (tf_entries f) (tn_entry n)) then (Ok [], f)
  else if is_system_meta_entry (tn_entry n) then (Ok [n], f)
  else
    let '(r, filters) := apply_filters (tf_query_filters f) [n] in
    (match r with
     | Ok (Some ns) => Ok ns
     | Ok None | Err _ => Ok []
     | Panic => Panic
     end, mkTransactionFilter (tf_bucket f) (tf_entries f) filters).

(** [ReplicationTask::notify]. *)
Definition notify_logs (file : option (list Z)) (entry : string) (events : list Transaction) (t : Task) : outcome () * Task :=
  match (match task_logs t !! entry with
         | Some log => Ok log
         | None => load_or_recreate_transaction_log file (tk_transaction_log_size t)
         end) with
  | Ok log => let '(r, log) := push_all log events in (r, with_logs (<[entry := log]> (task_logs t)) t)
  | Err e => (Err e, t)
  | Panic => (Panic, t)
  end.

Definition notify (file : option (list Z)) (n : TransactionNotification) (t : Task) : outcome () * Task :=
  match tk_mode t with
  | Disabled => (Ok tt, t)
  | Enabled | Paused =>
      match (match tk_filter_map t !! tn_entry n with
             | Some f => Ok f
             | None => transaction_filter_try_new (tk_settings t) (tk_io t)
             end) with
      | Ok f =>
          let '(r, f) := transaction_filter f n in
          let t := with_filters (<[tn_entry n := f]> (tk_filter_map t)) t in
          match r with
          | Ok ns => notify_logs file (tn_entry n) (tn_event <$> ns) t
          | Err e => (Err e, t)
          | Panic => (Panic, t)
          end
      | Err e => (Err e, t)
      | Panic => (Panic, t)
      end
  end.

(** One turn of the worker's loop: the remote bucket is probed with [probe], the pass runs
    in [w], and [now] is the clock when the results are counted. *)
Definition count_all (now : Z) (counter : list Counted) (h : DiagnosticsCounter) : DiagnosticsCounter :=
  foldl (λ h c, diagnostics_count now c.1.1 c.1.2 h) h counter.

Definition worker_turn (w : World) (probe : Net) (now : Z) (t : Task) : Task :=
  match tk_mode t with
  | Disabled => with_sender false (tk_sender t) t
  | Paused =>
      let bucket := probe_availability probe (sn_bucket (tk_sender t)) in
      with_sender (rb_is_active bucket) (mkSender (task_logs t) bucket (sn_calls (tk_sender t))) t
  | Enabled =>
      match sender_run w (tk_settings t) (tk_io t) (tk_sender t) with
      | (SyncedOrRemoved c, s) => with_hourly (count_all now c (tk_hourly t)) (with_sender true s t)
      | (NotAvailable c, s) => with_hourly (count_all now c (tk_hourly t)) (with_sender false s t)
      | (NoTransactions, s) => with_sender true s t
      | (BrokenLog entry, s) =>
          let t := with_sender false s t in
          match try_load_or_create None (tk_transaction_log_size t) with
          | Ok log => with_logs (<[entry := log]> (task_logs t)) t
          | _ => t
          end
      end
  end.

(** [info]: the records still to send. *)
Definition pending_records (t : Task) : Z :=
  foldl (λ acc kv, u64_add acc (tl_len kv.2)) 0 (hash_iter (task_logs t)).
Definition info_is_active (t : Task) : bool :=
  match tk_mode t with Enabled | Paused => tk_is_active t | Disabled => false end.
End Task.

(** ** Notifications without a condition *)

Lemma push_all_rep n log r q txs :
  tlog_rep log n r q → Forall tx_valid txs →
  ∃ log' r', push_all log txs = (Ok tt, log') ∧ tlog_rep log' n r' (foldl (λ q t, (spec_push n q t).2) q txs).
Proof.
  revert log r q. induction txs as [|t txs IH]; intros log r q Hr Hv; [by exists log, r|].
  apply Forall_cons in Hv as [Ht Hv]. destruct (push_back_rep log n r q t Hr Ht) as (log1 & r1 & Hp & Hr1).
  cbn [push_all foldl]. rewrite Hp. by eapply IH.
Qed.

Section Plain.
Context `{HashIter} `{ByteSize} `{Chrono} `{JsonText} `{!HashIterLaws}.

(** The filter of a task that has no condition. *)
Definition plain_filter (settings : Settings) : TransactionFilter :=
  mkTransactionFilter (src_bucket settings) (rs_entries settings) [].

(** A task without a condition whose logs, of [n] slots each, hold the queues [Q]. *)
Record task_rep (n : nat) (t : Task) (Q : gmap string (list Transaction)) : Prop := {
  tr_slots : (0 < n)%nat ∧ slot n < two64;
  tr_log_size : tk_transaction_log_size t = Z.of_nat n;
  tr_when : rs_when (tk_settings t) = None;
  tr_filters : map_Forall (λ _ f, f = plain_filter (tk_settings t)) (tk_filter_map t);
  tr_logs : logs_rep n (task_logs t) Q
}.

Definition selected (settings : Settings) (nt : TransactionNotification) : bool :=
  bool_decide (tn_bucket nt = src_bucket settings) && entry_is_selected (rs_entries settings) (tn_entry nt).

Lemma transaction_filter_plain settings nt :
  transaction_filter (plain_filter settings) nt =
  (Ok (if selected settings nt then [nt] else []), plain_filter settings).
Proof.
  unfold transaction_filter, selected, plain_filter. cbn [tf_bucket tf_entries tf_query_filters].
  destruct (decide (tn_bucket nt ≠ src_bucket settings)) as [Hb|Hb].
  - by rewrite bool_decide_false by done.
  - rewrite bool_decide_true by (by apply dec_stable). cbn [andb].
    destruct (entry_is_selected _ _); [|done]. cbn [negb]. by destruct (is_system_meta_entry _).
Qed.

Lemma notify_logs_rep n t Q entry events :
  (0 < n)%nat → slot n < two64 → tk_transaction_log_size t = Z.of_nat n → logs_rep n (task_logs t) Q → Forall tx_valid events →
  ∃ logs, notify_logs None entry events t = (Ok tt, with_logs logs t) ∧
    logs_rep n logs (<[entry := foldl (λ q t, (spec_push n q t).2) (default [] (Q !! entry)) events]> Q).
Proof.
  intros Hn Hs Hsize Hr Hv. unfold notify_logs.
  assert (∃ log r, (match task_logs t !! entry with
      | Some log => Ok log
      | None => load_or_recreate_transaction_log None (tk_transaction_log_size t)
      end) = Ok log ∧ tlog_rep log n r (default [] (Q !! entry))) as (log & r & -> & Hrep).
  { destruct (Q !! entry) as [q|] eqn:Hq.
    - destruct (logs_rep_lookup _ _ _ _ _ Hr Hq) as (log & r & -> & Hrep). by exists log, r.
    - rewrite (logs_rep_none _ _ _ _ Hr Hq), Hsize. unfold load_or_recreate_transaction_log.
      destruct (create_rep n Hn Hs) as (log & -> & Hrep). by exists log, 0%nat. }
  destruct (push_all_rep n log r _ events Hrep Hv) as (log' & r' & -> & Hrep').
  eexists. split; [done|]. apply map_Forall2_insert_2; [by exists r'|done].
Qed.

(** A notification adds its transaction to the queue of the entry if it is selected. *)
Lemma notify_rep n t Q nt :
  task_rep n t Q → tk_mode t ≠ Disabled → tx_valid (tn_event nt) →
  let q := default [] (Q !! tn_entry nt) in
  let q' := if selected (tk_settings t) nt then (spec_push n q (tn_event nt)).2 else q in
  ∃ t', notify None nt t = (Ok tt, t') ∧ task_rep n t' (<[tn_entry nt := q']> Q) ∧
    tk_settings t' = tk_settings t ∧ tk_io t' = tk_io t ∧ tk_mode t' = tk_mode t ∧
    sn_bucket (tk_sender t') = sn_bucket (tk_sender t) ∧ sn_calls (tk_sender t') = sn_calls (tk_sender t).
Proof.
  intros Ht Hm Hv q q'. destruct Ht as [[Hn Hs] Hsize Hw Hf Hr]. unfold notify.
  assert ((match tk_filter_map t !! tn_entry nt with
    | Some f => Ok f
    | None => transaction_filter_try_new (tk_settings t) (tk_io t)
    end) = Ok (plain_filter (tk_settings t))) as ->.
  { destruct (tk_filter_map t !! tn_entry nt) as [f|] eqn:Hl; [by rewrite (Hf _ _ Hl)|].
    unfold transaction_filter_try_new. by rewrite Hw. }
  rewrite transaction_filter_plain. set (t1 := with_filters _ t).
  destruct (notify_logs_rep n t1 Q (tn_entry nt)
    (tn_event <$> (if selected (tk_settings t) nt then [nt] else []))) as (logs & Hlogs & Hr'); [done|done|done|done| |].
  { destruct (selected _ _); simpl; [by apply Forall_singleton|constructor]. }
  exists (with_logs logs t1). split_and!; try done; [by destruct (tk_mode t); [exact Hlogs|exact Hlogs|]|].
  split; try done. { apply map_Forall_insert_2; done. }
  subst q'. destruct (selected _ _); exact Hr'.
Qed.

(** ** Turns of the worker *)

Definition turns (probe : Net) (now : Z) (ws : list World) (t : Task) : Task :=
  foldl (λ t w, worker_turn w probe now t) t ws.

Lemma worker_turn_sender probe now w t :
  tk_mode t = Enabled → (∀ e, (sender_run w (tk_settings t) (tk_io t) (tk_sender t)).1 ≠ BrokenLog e) →
  let t' := worker_turn w probe now t in
  tk_sender t' = (sender_run w (tk_settings t) (tk_io t) (tk_sender t)).2 ∧ tk_mode t' = Enabled ∧
  tk_settings t' = tk_settings t ∧ tk_io t' = tk_io t.
Proof.
  intros Hm Hb. unfold worker_turn. rewrite Hm. destruct (sender_run _ _ _ _) as [[c|c| |e] s]; [done..|].
  by destruct (Hb e).
Qed.

(** In the enabled mode, with a remote bucket that answers, the worker makes passes. *)
Lemma turns_passes n probe now ws t Q :
  tk_mode t = Enabled → logs_rep n (task_logs t) Q → 0 < batch_max_records (tk_io t) →
  (∀ w e, w ∈ ws → reachable (w_net w e) ∧ w_appended w e = []) →
  (∀ w, w ∈ ws → ready w (rb_state (sn_bucket (tk_sender t)))) →
  tk_sender (turns probe now ws t) = passes (tk_settings t) (tk_io t) ws (tk_sender t).
Proof.
  intros Hm Hr Hio. revert t Q Hm Hr Hio. induction ws as [|w ws IH]; intros t Q Hm Hr Hio Hw Hrd; [done|].
  pose proof (sender_run_spec (tk_settings t) (tk_io t) n w (tk_sender t) Q Hr
    (λ e q Hq, room_quiet n w _ Q e q Hr Hq (proj2 (Hw w e ltac:(set_solver)))) Hio) as Hspec.
  destruct (sender_run_drains (tk_settings t) (tk_io t) n w (tk_sender t) Q) as (Q' & calls & _ & Hr' & _ & Hb & _);
    [done|done|intros e; apply Hw; set_solver|apply Hrd; set_solver|].
  destruct (worker_turn_sender probe now w t Hm) as (Hs & Hm' & Hset & Hio').
  { destruct (sender_run w _ _ _). by destruct Hspec as (_ & _ & _ & _ & _ & ? & _). }
  cbn [turns passes foldl]. fold (turns probe now ws (worker_turn w probe now t)).
  rewrite (IH (worker_turn w probe now t) Q').
  - unfold passes. by rewrite Hs, Hset, Hio'.
  - done.
  - unfold task_logs. by rewrite Hs.
  - by rewrite Hio'.
  - intros; apply Hw; set_solver.
  - intros w' Hw'. rewrite Hs. apply Hb, Hrd. set_solver.
Qed.

Lemma pending_none n t (Q : gmap string (list Transaction)) : logs_rep n (task_logs t) ((λ _, []) <$> Q) → pending_records t = 0.
Proof.
  intros Hr. unfold pending_records.
  assert (Forall (λ kv, tl_len kv.2 = 0) (hash_iter (task_logs t))) as Hall.
  { apply Forall_forall. intros [e log] Hin%elem_of_hash_iter. specialize (Hr e). rewrite Hin, lookup_fmap in Hr.
    destruct (Q !! e); [|by inversion Hr]. inversion_clear Hr as [? ? [r Hrep]|]. simpl.
    by rewrite (tl_len_rep _ _ _ _ Hrep). }
  induction Hall as [|kv l Hkv _ IH]; [done|]. cbn [foldl]. by rewrite Hkv.
Qed.
End Plain.

(** ** Properties *)

(** A server that answers updates record by record and accepts every write. *)
Definition accepting (net : Net) : Prop :=
  ∀ records, (∃ em, net_update net records = Done em) ∧ net_write net records = Done ∅.

(** A request that carried the record, and that the remote bucket accepted for it. *)
Definition delivered (net : Net) (dst : string) (r : SyncRecord) (c : RemoteCall) : Prop :=
  match c with
  | CallUpdate d records => d = dst ∧ r ∈ records ∧ ∃ em, net_update net records = Done em ∧ em !! sr_timestamp r = None
  | CallWrite d records => d = dst ∧ r ∈ records ∧ ∃ em, net_write net records = Done em ∧ em !! sr_timestamp r = None
  end.

Lemma answered_delivered w settings calls e t r :
  answered w settings calls e t → accepting (w_net w e) → read_record (w_storage w) e t = Done r →
  List.Exists (delivered (w_net w e) (destination_entry_name (dst_prefix settings) e) r) calls.
Proof.
  intros Ha Hacc Hr. unfold answered in Ha. rewrite Hr in Ha. destruct Ha as [Ha|Ha].
  - eapply Exists_impl; [exact Ha|]. intros [d records|d records]; simpl; [done|].
    intros (-> & Hin & _). split_and!; [done..|]. exists ∅. by rewrite (proj2 (Hacc records)).
  - apply Exists_exists in Ha as ([d records|d records] & _ & Href); [|done]. simpl in Href.
    destruct Href as (_ & err & E & _). destruct (proj1 (Hacc records)) as [em Hem]. congruence.
Qed.

(** C17: A record that is written is replicated, if the remote bucket accepts it.  A task
    without a condition that is enabled takes the notification of a write to its bucket and
    to one of its entries into the log; then, with a remote bucket that answers, as many turns
    of the worker as the longest log has transactions leave no record pending, and one of them
    settles the transaction: its record cannot be read, or a request carries it to the remote
    bucket and is answered, or the remote bucket refuses a whole update.  If the record can be
    read at that turn and the remote bucket answers updates record by record and accepts
    writes, a request carries the record and is accepted for it.  (A batch that is refused is
    lost: [written_and_updated_record_is_lost].)  The log has room for the transaction, and
    nothing is appended to the logs during the turns. *)
Theorem notified_record_is_replicated `{HashIter} `{ByteSize} `{Chrono} `{JsonText} `{!HashIterLaws}
  (n : nat) (t : Task) (Q : gmap string (list Transaction)) (nt : TransactionNotification)
  (probe : Net) (now : Z) (ws : list World) :
  task_rep n t Q → tk_mode t = Enabled → 0 < batch_max_records (tk_io t) →
  tx_valid (tn_event nt) → selected (tk_settings t) nt = true →
  (S (length (default [] (Q !! tn_entry nt))) < n)%nat →
  (∀ w e, w ∈ ws → reachable (w_net w e) ∧ w_appended w e = []) →
  (∀ w, w ∈ ws → ready w (rb_state (sn_bucket (tk_sender t)))) →
  (S (length (default [] (Q !! tn_entry nt))) ≤ length ws)%nat →
  (∀ e q, Q !! e = Some q → length q ≤ length ws)%nat →
  ∃ t' calls, notify None nt t = (Ok tt, t') ∧
    sn_calls (tk_sender (turns probe now ws t')) = sn_calls (tk_sender t) ++ calls ∧
    pending_records (turns probe now ws t') = 0 ∧
    ∃ w, w ∈ ws ∧ answered w (tk_settings t) calls (tn_entry nt) (tn_event nt) ∧
      ∀ r, accepting (w_net w (tn_entry nt)) → read_record (w_storage w) (tn_entry nt) (tn_event nt) = Done r →
        List.Exists (delivered (w_net w (tn_entry nt)) (destination_entry_name (dst_prefix (tk_settings t)) (tn_entry nt)) r) calls.
Proof.
  intros Ht Hm Hio Hv Hsel Hroom Hw Hrd Hlen1 Hlen.
  destruct (notify_rep n t Q nt Ht ltac:(by rewrite Hm) Hv) as (t' & Hn & Ht' & Hset & Hio' & Hm' & Hb & Hc).
  rewrite Hsel in Ht'. unfold spec_push in Ht'. rewrite decide_False in Ht' by (rewrite length_app; simpl; lia).
  cbn [snd] in Ht'. set (q := default [] (Q !! tn_entry nt)) in *.
  pose proof (tr_logs _ _ _ Ht') as Hr. rewrite <-Hio' in Hio. rewrite Hm in Hm'. rewrite <-Hb in Hrd.
  pose proof (turns_passes n probe now ws t' _ Hm' Hr Hio Hw Hrd) as Hturns.
  destruct (passes_drain (tk_settings t') (tk_io t') n ws (tk_sender t') _ Hr Hio Hw Hrd) as (calls & Hcalls & Hr' & Hans).
  { intros e q' [[<- <-]|[_ Hq']]%lookup_insert_Some; [rewrite length_app; simpl; lia|by eapply Hlen]. }
  exists t', calls. rewrite <-Hturns in Hcalls, Hr'. split_and!; [done|by rewrite Hcalls, Hc|by eapply pending_none|].
  destruct (Hans (tn_entry nt) (q ++ [tn_event nt]) (tn_event nt)) as (w & Hin & Ha); [by rewrite lookup_insert_eq|set_solver|].
  rewrite Hset in Ha. exists w. split_and!; [done..|]. intros r Hacc Hread. by eapply answered_delivered.
Qed.

(** ** Witnesses *)

Section Witnesses.
Local Instance no_byte_size : ByteSize := λ _, None.
Local Instance no_chrono : Chrono :=
  {| DateTime := (); Tz := (); tz_utc := tt; tz_from_str _ := None; from_timestamp_micros _ := None; date_field _ _ _ := 0 |}.
Local Instance no_json : JsonText := λ _, EmptyString.
Local Existing Instances std_order std_order_laws.

Definition demo_task : Task := task_build demo_settings demo_io 8 Enabled 0.
Definition demo_notification : TransactionNotification := mkNotification "src" "a" ∅ ∅ 0 (TxWriteRecord 7).

Lemma notified_record_is_replicated_witness :
  ∃ t' calls, notify None demo_notification demo_task = (Ok tt, t') ∧
    sn_calls (tk_sender (turns answering 0 [demo_world []] t')) = calls ∧
    List.Exists (delivered answering (destination_entry_name (dst_prefix demo_settings) "a") (mkSyncRecord 7 10)) calls.
Proof.
  destruct (notified_record_is_replicated 8 demo_task ∅ demo_notification answering 0 [demo_world []])
    as (t' & calls & Hn & Hc & _ & w & ->%list_elem_of_singleton & _ & Hdel).
  - split; [split; [lia|done]|done|done|apply map_Forall_empty|apply map_Forall2_empty].
  - done.
  - done.
  - unfold tx_valid. simpl. u64_lia.
  - done.
  - rewrite lookup_empty. simpl. lia.
  - intros w e ->%list_elem_of_singleton. split; [apply answering_reachable|done].
  - done.
  - rewrite lookup_empty. simpl. lia.
  - intros e q Hq. by rewrite lookup_empty in Hq.
  - exists t', calls. split_and!; [done..|]. apply Hdel; [|done]. intros records. split; [by eexists|done].
Defined.
End Witnesses.
