(* ===== verification/ReplicationSettings.v ===== *)
(** * ReplicationSettings: the settings of a replication and their saved form
    (reduct_base/src/msg/replication_api.rs, replication/replication_repository/repo.rs,
    replication.rs)

    Settings are saved in a protobuf message that still has the filters of older
    versions: labels to include and to exclude, and a thinning in numbers of records or
    in seconds.  Loading moves them into the [when] condition.  The file shows that the
    moved filter selects what the old one did, and where it does not. *)

From stdpp Require Import prelude gmap strings sorting pretty.
From Stdlib Require Import ZArith Lia SpecFloat.
From S2P Require Import Prelude Text Float64 Value Condition Parser ConditionRun Replication ReplicationTask.
Open Scope Z_scope.

(** ** Data *)

Inductive ReplicationCompression : Type := CompressionNone | CompressionZstd | CompressionGzip.
#[export] Instance compression_eq_dec : EqDecision ReplicationCompression.
Proof. solve_decision. Defined.
#[export] Instance mode_eq_dec : EqDecision ReplicationMode.
Proof. solve_decision. Defined.

Record ReplicationSettings := mkReplicationSettings {
  rp_src_bucket : string;
  rp_dst_bucket : string;
  rp_dst_host : string;
  rp_dst_token : option string;
  rp_entries : list string;
  rp_dst_prefix : string;
  rp_when : option Json;
  rp_mode : ReplicationMode;
  rp_compression : ReplicationCompression
}.

(** The messages of proto/replication.proto. *)
Record ProtoLabel := mkProtoLabel { pl_name : string; pl_value : string }.
Record ProtoReplicationSettings := mkProtoSettings {
  ps_src_bucket : string;
  ps_dst_bucket : string;
  ps_dst_host : string;
  ps_dst_token : string;
  ps_entries : list string;
  ps_include : list ProtoLabel;
  ps_exclude : list ProtoLabel;
  ps_each_n : Z;
  ps_each_s : f64;
  ps_when : option string;
  ps_mode : Z;
  ps_dst_prefix : string;
  ps_compression : Z
}.

(** What a task looks at of its settings. *)
Definition task_settings (s : ReplicationSettings) : Settings :=
  mkSettings (rp_src_bucket s) (rp_dst_prefix s) (rp_entries s) (rp_when s).

(** ** Conversion *)

(** [serde_json::from_str]; [json_to_string] is [Value::to_string]. *)
Class JsonParse := json_from_str : string → option Json.

(** The conversions of the two enumerations; an unknown number is the first of them. *)
Definition mode_to_proto (m : ReplicationMode) : Z :=
  match m with Enabled => 0 | Paused => 1 | Disabled => 2 end.
Definition mode_from_proto (z : Z) : ReplicationMode :=
  if decide (z = 1) then Paused else if decide (z = 2) then Disabled else Enabled.
Definition compression_to_proto (c : ReplicationCompression) : Z :=
  match c with CompressionNone => 0 | CompressionZstd => 1 | CompressionGzip => 2 end.
Definition compression_from_proto (z : Z) : ReplicationCompression :=
  if decide (z = 1) then CompressionZstd else if decide (z = 2) then CompressionGzip else CompressionNone.

Definition is_object (j : Json) : bool := match j with JObject _ => true | _ => false end.

(** [Map::insert] of an ordered map: a known key keeps its place. *)
Fixpoint obj_insert (key : string) (value : Json) (members : list (string * Json)) : list (string * Json) :=
  match members with
  | [] => [(key, value)]
  | (k, v) :: rest => if decide (k = key) then (k, value) :: rest else (k, v) :: obj_insert key value rest
  end.

(** [json!(x)] of a float: what is not finite has no number. *)
Definition json_of_f64 (f : f64) : Json :=
  match f with S754_zero _ | S754_finite _ _ _ => JNumber (JFloat f) | _ => JNull end.

Local Open Scope string_scope.

(** An operator put into the condition; a condition that is not an object is replaced. *)
Definition inject (key : string) (value : Json) (when : option Json) : option Json :=
  Some (JObject match when with
                | Some (JObject members) => obj_insert key value members
                | _ => [(key, value)]
                end).

Definition include_condition (l : ProtoLabel) : Json :=
  JObject [("$and", JArray [JObject [("$has", JString (pl_name l))];
                            JObject [("$eq", JArray [JString ("&" +:+ pl_name l); JString (pl_value l)])]])].
Definition exclude_condition (l : ProtoLabel) : Json :=
  JObject [("$or", JArray [JObject [("$not", JArray [JObject [("$has", JString (pl_name l))]])];
                           JObject [("$ne", JArray [JString ("&" +:+ pl_name l); JString (pl_value l)])]])].

(** [legacy_label_conditions], as [into_settings] collects them. *)
Definition legacy_label_conditions (include exclude : list ProtoLabel) : list Json :=
  (include_condition <$> include) ++
  match exclude_condition <$> exclude with
  | [] => []
  | [c] => [c]
  | cs => [JObject [("$or", JArray cs)]]
  end.

(** Several conditions are one. *)
Definition joined_condition (c : Json) (rest : list Json) : Json :=
  match rest with [] => c | _ => JObject [("$and", JArray (c :: rest))] end.

(** [prepend_when_conditions] (replication.rs); the result says whether a condition that is
    not an object was dropped. *)
Definition prepend_when_conditions (when : option Json) (conditions : list Json) : bool * option Json :=
  match conditions with
  | [] => (false, when)
  | c :: rest =>
      let condition := joined_condition c rest in
      match when with
      | Some w => if is_object w then (false, Some (JObject [("$and", JArray [condition; w])]))
                  else (true, Some condition)
      | None => (false, Some condition)
      end
  end.

Section Conversion.
Context `{JsonText} `{JsonParse}.

(** [impl From<ReplicationSettings> for ProtoReplicationSettings]. *)
Definition to_proto (s : ReplicationSettings) : ProtoReplicationSettings :=
  mkProtoSettings (rp_src_bucket s) (rp_dst_bucket s) (rp_dst_host s) (default "" (rp_dst_token s))
    (rp_entries s) [] [] 0 (S754_zero false) (json_to_string <$> rp_when s) (mode_to_proto (rp_mode s))
    (rp_dst_prefix s) (compression_to_proto (rp_compression s)).

(** The condition once the thinning is in it, in front of the labels. *)
Definition thinned_when (p : ProtoReplicationSettings) : option Json :=
  let when := ps_when p ≫= json_from_str in
  let when := if f64_cmp (ps_each_s p) (S754_zero false) is Some Gt
              then inject "$each_t" (json_of_f64 (ps_each_s p)) when else when in
  if decide (0 < ps_each_n p)%Z then inject "$each_n" (JNumber (PosInt (ps_each_n p))) when else when.

(** [into_settings]. *)
Definition into_settings (p : ProtoReplicationSettings) : ReplicationSettings * bool :=
  let migrated := (if f64_cmp (ps_each_s p) (S754_zero false) is Some Gt then true else false)
                  || bool_decide (0 < ps_each_n p)%Z
                  || bool_decide (ps_include p ≠ []) || bool_decide (ps_exclude p ≠ []) in
  let '(_, when) := prepend_when_conditions (thinned_when p)
                      (legacy_label_conditions (ps_include p) (ps_exclude p)) in
  (mkReplicationSettings (ps_src_bucket p) (ps_dst_bucket p) (ps_dst_host p)
     (if decide (ps_dst_token p = "") then None else Some (ps_dst_token p))
     (ps_entries p) (ps_dst_prefix p) when (mode_from_proto (ps_mode p))
     (compression_from_proto (ps_compression p)), migrated).
End Conversion.

(** ** The old filter and the condition it becomes *)

(** What the old settings ask for: every label to include, and not all labels to exclude. *)
Definition carries (labels : gmap string string) (l : ProtoLabel) : bool :=
  bool_decide (labels !! pl_name l = Some (pl_value l)).
Definition legacy_filter (include exclude : list ProtoLabel) (labels : gmap string string) : bool :=
  forallb (carries labels) include && (bool_decide (exclude = []) || negb (forallb (carries labels) exclude)).

(** A label whose name and value the condition language takes as they are: no reference,
    operator or duration. *)
Definition literal (s : string) : Prop := parse_literal s = Ok [Constant (VString s)].
Record literal_label (l : ProtoLabel) : Prop := {
  ll_name : literal (pl_name l);
  ll_value : literal (pl_value l)
}.
(** The label of a record is read as text, not as a number or a truth value. *)
Definition is_text (l : ProtoLabel) : bool := is_string (value_parse (pl_value l)).

(** What the migrated filter looks for in a record. *)
Definition matches (labels : gmap string string) (l : ProtoLabel) : bool := carries labels l && is_text l.
Definition migrated_filter (include exclude : list ProtoLabel) (labels : gmap string string) : bool :=
  forallb (matches labels) include && (bool_decide (exclude = []) || negb (forallb (matches labels) exclude)).

Definition include_node (l : ProtoLabel) : Node :=
  Op AllOf [Op Exists [Constant (VString (pl_name l))];
            Op EqOp [Reference (pl_name l); Constant (VString (pl_value l))]].
Definition exclude_node (l : ProtoLabel) : Node :=
  Op AnyOf [Op NoneOf [Op Exists [Constant (VString (pl_name l))]];
            Op NeOp [Reference (pl_name l); Constant (VString (pl_value l))]].

Lemma parse_reference name : parse_literal ("&" +:+ name) = Ok [Reference name].
Proof. unfold parse_literal. simpl. by destruct name. Qed.

Lemma parse_array key l ns n rest r :
  parse_operands l = Ok ns → parse_operator key ns = Ok n → parse_object rest = Ok r →
  parse_recursively (JObject ((key, JArray l) :: rest)) = Ok (n :: r).
Proof.
  intros E1 E2 E3. rewrite parse_recursively_object. cbn [parse_object]. unfold parse_member, parse_array_syntax.
  rewrite E1. cbn. rewrite E2. cbn. by rewrite E3.
Qed.

Lemma parse_operands_cons j l a b :
  parse_recursively j = Ok a → parse_operands l = Ok b → parse_operands (j :: l) = Ok (a ++ b)%list.
Proof. intros E1 E2. cbn [parse_operands]. rewrite E1. cbn. by rewrite E2. Qed.

Lemma parse_has s : literal s → parse_recursively (JObject [("$has", JString s)]) = Ok [Op Exists [Constant (VString s)]].
Proof. intros E. rewrite parse_recursively_object. cbn. by rewrite E. Qed.

Lemma parse_comparison key o name value :
  literal value → parse_operator key [Reference name; Constant (VString value)]
                  = Ok (Op o [Reference name; Constant (VString value)]) →
  parse_recursively (JObject [(key, JArray [JString ("&" +:+ name); JString value])])
  = Ok [Op o [Reference name; Constant (VString value)]].
Proof.
  intros E1 E2. eapply parse_array; [|apply E2|done].
  eapply (parse_operands_cons _ _ [_] [_]); [apply parse_reference|].
  eapply (parse_operands_cons _ _ [_] []); [apply E1|done].
Qed.

Lemma parse_include l : literal_label l → parse_recursively (include_condition l) = Ok [include_node l].
Proof.
  intros [En Ev]. eapply parse_array; [|reflexivity|done].
  eapply (parse_operands_cons _ _ [_] [_]); [by apply parse_has|].
  eapply (parse_operands_cons _ _ [_] []); [|done]. by apply parse_comparison.
Qed.

Lemma parse_exclude l : literal_label l → parse_recursively (exclude_condition l) = Ok [exclude_node l].
Proof.
  intros [En Ev]. eapply parse_array; [|reflexivity|done].
  eapply (parse_operands_cons _ _ [_] [_]).
  - eapply parse_array; [|reflexivity|done]. eapply (parse_operands_cons _ _ [_] []); [by apply parse_has|done].
  - eapply (parse_operands_cons _ _ [_] []); [|done]. by apply parse_comparison.
Qed.

Lemma parse_each {A} (f : A → Json) (g : A → Node) l :
  Forall (λ a, parse_recursively (f a) = Ok [g a]) l → parse_operands (f <$> l) = Ok (g <$> l).
Proof.
  induction 1 as [|a l Ha _ IH]; [done|]. by apply (parse_operands_cons _ _ [_]).
Qed.

Lemma value_parse_string s t : value_parse s = VString t → t = s.
Proof. unfold value_parse. intros E. repeat case_match; by simplify_eq. Qed.

Lemma text_eqb a v : value_eqb (value_parse a) (VString v) = bool_decide (a = v) && is_string (value_parse v).
Proof.
  destruct (decide (a = v)) as [->|Hn].
  - rewrite bool_decide_true by done. destruct (value_parse v) as [| | |s|] eqn:Ev; try done.
    apply value_parse_string in Ev as ->. simpl. by rewrite bool_decide_true.
  - rewrite (bool_decide_false (a = v)) by done.
    destruct (value_parse a) as [| | |s|] eqn:Ea; try done. apply value_parse_string in Ea as ->.
    simpl. by rewrite bool_decide_false.
Qed.

Lemma until_cons ap stop answer n ns b :
  ap n = (Ok (VBool b), n) →
  until ap stop answer (n :: ns) =
    if decide (b = stop) then (Ok (VBool answer), n :: ns)
    else let '(r, ns') := until ap stop answer ns in (r, n :: ns').
Proof.
  intros E. unfold until, loop. cbn [visit]. rewrite E. cbn. case_bool_decide; case_decide; try done.
  by destruct (visit _ _ _ _).
Qed.

Section Guard.
Context `{Chrono}.

(** A node without state that says [truth] of a record's labels. *)
Definition says_in (ctx : Context) (n : Node) (b : bool) : Prop := apply ctx n = (Ok (VBool b), n).
Definition says (n : Node) (truth : gmap string string → bool) : Prop :=
  ∀ ctx, says_in ctx n (truth (ctx_labels ctx)).

Lemma exists_says name : says (Op Exists [Constant (VString name)]) (λ ls, bool_decide (is_Some (ls !! name))).
Proof. intros ctx. unfold says_in. cbn. unfold exists_labels, loop. cbn. by case_bool_decide. Qed.

Lemma comparison_says ctx name v a :
  ctx_labels ctx !! name = Some a →
  says_in ctx (Op EqOp [Reference name; Constant (VString v)]) (bool_decide (a = v) && is_string (value_parse v)) ∧
  says_in ctx (Op NeOp [Reference name; Constant (VString v)])
    (negb (bool_decide (a = v) && is_string (value_parse v))).
Proof. intros E. unfold says_in. cbn. rewrite E. cbn. by rewrite text_eqb. Qed.

(** The operands of an operator after it was applied. *)
Definition operands_of (n : Node) : list Node := match n with Op _ l => l | _ => [] end.
Definition with_operand (n : Node) (x : outcome Value * Node) : outcome Value * list Node :=
  (x.1, n :: operands_of x.2).

Lemma all_of_says ctx n ns b :
  says_in ctx n b →
  apply ctx (Op AllOf (n :: ns)) =
    if b then (λ '(r, l), (r, Op AllOf l)) (with_operand n (apply ctx (Op AllOf ns)))
    else (Ok (VBool false), Op AllOf (n :: ns)).
Proof.
  intros E. cbn. unfold all_of_apply. rewrite (until_cons _ _ _ _ _ _ E).
  destruct b; simpl; [|done]. by destruct (until _ _ _ ns).
Qed.

Lemma any_of_says ctx n ns b :
  says_in ctx n b →
  apply ctx (Op AnyOf (n :: ns)) =
    if b then (Ok (VBool true), Op AnyOf (n :: ns))
    else (λ '(r, l), (r, Op AnyOf l)) (with_operand n (apply ctx (Op AnyOf ns))).
Proof.
  intros E. cbn. unfold any_of_apply. rewrite (until_cons _ _ _ _ _ _ E).
  destruct b; simpl; [done|]. by destruct (until _ _ _ ns).
Qed.

Lemma not_says n t : says n t → says (Op NoneOf [n]) (λ ls, negb (t ls)).
Proof.
  intros E ctx. unfold says_in. cbn. unfold none_of_apply. rewrite (until_cons _ _ _ _ _ _ (E ctx)).
  by destruct (t _).
Qed.

Lemma all_of_all {A} (f : A → Node) (t : A → gmap string string → bool) l :
  Forall (λ a, says (f a) (t a)) l → says (Op AllOf (f <$> l)) (λ ls, forallb (λ a, t a ls) l).
Proof.
  intros Hl ctx. induction Hl as [|a l Ha _ IH]; [done|].
  unfold says_in. cbn [fmap list_fmap forallb]. rewrite (all_of_says _ _ _ _ (Ha ctx)), IH. by destruct (t a _).
Qed.
Lemma any_of_any {A} (f : A → Node) (t : A → gmap string string → bool) l :
  Forall (λ a, says (f a) (t a)) l → says (Op AnyOf (f <$> l)) (λ ls, existsb (λ a, t a ls) l).
Proof.
  intros Hl ctx. induction Hl as [|a l Ha _ IH]; [done|].
  unfold says_in. cbn [fmap list_fmap existsb]. rewrite (any_of_says _ _ _ _ (Ha ctx)), IH. by destruct (t a _).
Qed.

Lemma include_says l : says (include_node l) (λ ls, matches ls l).
Proof.
  intros ctx. unfold says_in, include_node, matches, carries. rewrite (all_of_says _ _ _ _ (exists_says _ ctx)).
  destruct (ctx_labels ctx !! pl_name l) as [a|] eqn:E; [|done].
  destruct (comparison_says _ _ (pl_value l) _ E) as [Hc _]. rewrite (all_of_says _ _ _ _ Hc).
  unfold is_text. simpl. repeat case_bool_decide; simplify_eq; by destruct (is_string _).
Qed.

Lemma exclude_says l : says (exclude_node l) (λ ls, negb (matches ls l)).
Proof.
  intros ctx. unfold says_in, exclude_node, matches, carries.
  rewrite (any_of_says _ _ _ _ (not_says _ _ (exists_says (pl_name l)) ctx)).
  destruct (ctx_labels ctx !! pl_name l) as [a|] eqn:E; [|done].
  destruct (comparison_says _ _ (pl_value l) _ E) as [_ Hc]. rewrite (any_of_says _ _ _ _ Hc).
  unfold is_text. simpl. repeat case_bool_decide; simplify_eq; by destruct (is_string _).
Qed.

(** A condition in JSON, the node it is parsed to, and what that says. *)
Record guard (j : Json) (n : Node) (truth : gmap string string → bool) : Prop := {
  guard_parse : parse_recursively j = Ok [n];
  guard_object : ∃ key value, j = JObject [(key, value)] ∧ starts_with key "#" = false;
  guard_says : says n truth
}.

Lemma guard_ext j n t t' : (∀ ls, t ls = t' ls) → guard j n t → guard j n t'.
Proof. intros E [Hp Ho Hs]. split; [done|done|]. intros ctx. rewrite <- E. apply Hs. Qed.

Lemma guards_and {A} (j : A → Json) (n : A → Node) (t : A → gmap string string → bool) l :
  Forall (λ a, guard (j a) (n a) (t a)) l →
  guard (JObject [("$and", JArray (j <$> l))]) (Op AllOf (n <$> l)) (λ ls, forallb (λ a, t a ls) l).
Proof.
  intros Hl. split.
  - eapply parse_array; [apply parse_each; eapply Forall_impl; [apply Hl|by intros ? []]|reflexivity|done].
  - eauto.
  - apply all_of_all. eapply Forall_impl; [apply Hl|by intros ? []].
Qed.
Lemma guards_or {A} (j : A → Json) (n : A → Node) (t : A → gmap string string → bool) l :
  Forall (λ a, guard (j a) (n a) (t a)) l →
  guard (JObject [("$or", JArray (j <$> l))]) (Op AnyOf (n <$> l)) (λ ls, existsb (λ a, t a ls) l).
Proof.
  intros Hl. split.
  - eapply parse_array; [apply parse_each; eapply Forall_impl; [apply Hl|by intros ? []]|reflexivity|done].
  - eauto.
  - apply any_of_any. eapply Forall_impl; [apply Hl|by intros ? []].
Qed.

Lemma guard_joined (g : Json * Node * (gmap string string → bool)) rest :
  Forall (λ g : Json * Node * (gmap string string → bool), guard g.1.1 g.1.2 g.2) (g :: rest) →
  ∃ n, guard (joined_condition g.1.1 ((λ g, g.1.1) <$> rest)) n (λ ls, forallb (λ g, g.2 ls) (g :: rest)).
Proof.
  intros Hg. destruct rest as [|g' rest].
  - exists g.1.2. inversion_clear Hg. eapply guard_ext; [|done]. intros ls. simpl. by rewrite andb_true_r.
  - exists (Op AllOf ((λ g, g.1.2) <$> (g :: g' :: rest))). 
    exact (guards_and (λ g, g.1.1) (λ g, g.1.2) (λ g, g.2) (g :: g' :: rest) Hg).
Qed.

(** The conditions of the old filter, each with its node and its meaning. *)
Definition Guarded : Type := Json * Node * (gmap string string → bool).
Definition is_guard (g : Guarded) : Prop := guard g.1.1 g.1.2 g.2.

Lemma existsb_negb {A} (f : A → bool) l : existsb (λ a, negb (f a)) l = negb (forallb f l).
Proof. induction l as [|a l IH]; simpl; [done|]. rewrite IH. by destruct (f a). Qed.

Lemma legacy_guards include exclude :
  Forall literal_label include → Forall literal_label exclude →
  ∃ gs : list Guarded, Forall is_guard gs ∧ legacy_label_conditions include exclude = (λ g, g.1.1) <$> gs ∧
    ∀ ls, forallb (λ g, g.2 ls) gs = migrated_filter include exclude ls.
Proof.
  intros Hi He.
  assert (∃ es : list Guarded, Forall is_guard es ∧
    match exclude_condition <$> exclude with [] => [] | [c] => [c] | cs => [JObject [("$or", JArray cs)]] end
      = (λ g, g.1.1) <$> es ∧
    ∀ ls, forallb (λ g, g.2 ls) es = bool_decide (exclude = []) || negb (forallb (matches ls) exclude))
    as (es & Hes & Ees & Tes).
  { assert (Forall (λ l, guard (exclude_condition l) (exclude_node l) (λ ls, negb (matches ls l))) exclude) as Hg
      by (eapply Forall_impl; [apply He|intros l Hl; split; [by apply parse_exclude|unfold exclude_condition; eauto|by apply exclude_says]]).
    destruct exclude as [|e [|e' rest]].
    - by exists [].
    - exists [(exclude_condition e, exclude_node e, λ ls, negb (matches ls e))].
      inversion_clear Hg. repeat split; [by constructor; [done|constructor]|]. intros ls. simpl. by rewrite !andb_true_r.
    - set (l := e :: e' :: rest) in *. eexists [(_, _, _)].
      split; [constructor; [exact (guards_or _ _ _ _ Hg)|constructor]|]. split; [done|].
      intros ls. rewrite bool_decide_false by done. cbn [forallb snd]. by rewrite andb_true_r, existsb_negb. }
  exists (((λ l, (include_condition l, include_node l, λ ls, matches ls l)) <$> include) ++ es)%list. split_and!.
  - apply Forall_app; split; [|done]. apply Forall_fmap. eapply Forall_impl; [apply Hi|].
    intros l Hl. split; [by apply parse_include|unfold include_condition; eauto|apply include_says].
  - unfold legacy_label_conditions. rewrite fmap_app, <- list_fmap_compose, Ees. done.
  - intros ls. rewrite forallb_app, Tes. unfold migrated_filter. f_equal. clear. induction include as [|a l IH]; [done|]. cbn. by rewrite IH.
Qed.

(** Only records that pass [truth] reach the condition; for the others it says no. *)
Fixpoint guarded_run (truth : gmap string string → bool) (ctxs : list Context) (n : Node) : list (outcome Value) :=
  match ctxs with
  | [] => []
  | ctx :: rest =>
      if truth (ctx_labels ctx) then let '(r, n') := apply ctx n in r :: guarded_run truth rest n'
      else Ok (VBool false) :: guarded_run truth rest n
  end.

Lemma visit_early ap {A} (k : A → Value → outcome (A + Value)) (P : Value → Prop) acc ns r l :
  (∀ a v w, k a v = Ok (inr w) → P w) → visit ap k acc ns = (r, l) → ∀ w, r = Ok (inr w) → P w.
Proof.
  intros Hk. revert acc r l. induction ns as [|n ns IH]; simpl; intros acc r l E w ->; [done|].
  destruct (ap n) as [[v| |] n']; try done.
  destruct (k acc v) as [[a|w']| |] eqn:Ek; simplify_eq; [|by eapply Hk].
  destruct (visit ap k a ns) as [r' l'] eqn:Ev. simplify_eq. by eapply IH.
Qed.

Lemma all_of_shape ctx ns :
  ∃ r ns', apply ctx (Op AllOf ns) = (r, Op AllOf ns') ∧ (∀ v, r = Ok v → ∃ b, v = VBool b).
Proof.
  cbn. destruct (all_of_apply _ ns) as [r ns'] eqn:E. exists r, ns'. split; [done|]. intros v ->.
  unfold all_of_apply, until, loop in E. destruct (visit _ _ _ ns) as [r l] eqn:Ev.
  assert (∀ w, r = Ok (inr w) → w = VBool false) as Hw.
  { eapply visit_early; [|apply Ev]. intros a v' w Hk. cbn in Hk. by case_bool_decide; simplify_eq. }
  destruct r as [[]| |]; simplify_eq/=; [by eauto|]. rewrite (Hw _ eq_refl). eauto.
Qed.

(** A condition in a list of its own says the same. *)
Lemma all_of_single ctx ns :
  apply ctx (Op AllOf [Op AllOf ns]) = (λ '(r, n), (r, Op AllOf [n])) (apply ctx (Op AllOf ns)).
Proof.
  destruct (all_of_shape ctx ns) as (r & ns' & E & Hb).
  change (apply ctx (Op AllOf [Op AllOf ns])) with
    (let '(r, l) := until (apply ctx) false false [Op AllOf ns] in (r, Op AllOf l)).
  unfold until, loop. cbn [visit]. rewrite E. destruct r as [v| |]; try done. destruct (Hb v eq_refl) as [[] ->]; done.
Qed.

Lemma guarded_all_of g truth ns ctxs :
  says g truth → run ctxs (Op AllOf [Op AllOf (g :: ns)]) = guarded_run truth ctxs (Op AllOf ns).
Proof.
  intros Hg. revert ns. induction ctxs as [|ctx ctxs IH]; intros ns; [done|].
  cbn [run guarded_run]. rewrite all_of_single, (all_of_says _ _ _ _ (Hg ctx)).
  destruct (truth _); [|by rewrite IH].
  destruct (all_of_shape ctx ns) as (r & ns' & E & _). rewrite E. simpl. by rewrite IH.
Qed.

Lemma guarded_alone g truth ctxs :
  says g truth → run ctxs (Op AllOf [g]) = guarded_run truth ctxs (Op AllOf []).
Proof.
  intros Hg. induction ctxs as [|ctx ctxs IH]; [done|].
  cbn [run guarded_run]. rewrite (all_of_says _ _ _ _ (Hg ctx)). destruct (truth _); simpl; by rewrite IH.
Qed.
End Guard.

Lemma matches_texts ls l : forallb is_text l = true → forallb (matches ls) l = forallb (carries ls) l.
Proof.
  induction l as [|a l IH]; [done|]. simpl. intros [Ha Hl]%andb_true_iff. rewrite IH by done. unfold matches.
  by rewrite Ha, andb_true_r.
Qed.

Lemma matches_not_all ls l : forallb is_text l = false → forallb (matches ls) l = false.
Proof.
  induction l as [|a l IH]; [done|]. simpl. unfold matches at 1.
  destruct (is_text a); simpl; intros Hl; [|by rewrite andb_false_r]. by rewrite IH, andb_false_r.
Qed.

Lemma guarded_run_ext `{Chrono} t t' ctxs n : (∀ ls, t ls = t' ls) → guarded_run t ctxs n = guarded_run t' ctxs n.
Proof.
  intros E. revert n. induction ctxs as [|ctx ctxs IH]; intros n; [done|]. simpl. rewrite E.
  destruct (t' _); [|by rewrite IH]. destruct (apply ctx n). by rewrite IH.
Qed.

Lemma guarded_run_never `{Chrono} ctxs n :
  guarded_run (λ _, false) ctxs n = replicate (length ctxs) (Ok (VBool false)).
Proof. induction ctxs as [|ctx ctxs IH]; [done|]. simpl. by rewrite IH. Qed.

Lemma guarded_run_always `{Chrono} ctxs n : guarded_run (λ _, true) ctxs n = run ctxs n.
Proof.
  revert n. induction ctxs as [|ctx ctxs IH]; intros n; [done|]. simpl. destruct (apply ctx n). by rewrite IH.
Qed.

(** ** Loading keeps the filter *)

Section Migration.
Context `{Chrono} `{JsonText} `{JsonParse}.

(** The condition that the old settings had beside their labels: none, or one without
    directives. *)
Definition no_directive (members : list (string * Json)) : Prop :=
  Forall (λ kv, starts_with kv.1 "#" = false) members.
Definition base_condition (when : option Json) (c : Node) : Prop :=
  match when with
  | Some (JObject members) => no_directive members ∧ parse (JObject members) = Ok (c, ∅)
  | _ => c = Op AllOf []
  end.

Lemma no_directive_collect members ds :
  no_directive members → collect_directives members ds = Ok (ds, members).
Proof. induction 1 as [|[k v] l Hk _ IH]; [done|]. simpl in *. rewrite Hk, IH. done. Qed.

Lemma parse_plain members ns :
  no_directive members → parse_recursively (JObject members) = Ok ns → parse (JObject members) = Ok (Op AllOf ns, ∅).
Proof.
  intros Hd Hp. unfold parse, parse_directives. rewrite no_directive_collect by done. cbn [mbind outcome_bind].
  by rewrite Hp.
Qed.

Lemma base_nodes members c :
  no_directive members → parse (JObject members) = Ok (c, ∅) →
  ∃ ns, c = Op AllOf ns ∧ parse_recursively (JObject members) = Ok ns.
Proof.
  intros Hd. unfold parse, parse_directives. rewrite no_directive_collect by done. cbn [mbind outcome_bind].
  destruct (parse_recursively (JObject members)) as [ns| |]; cbn; intros E; simplify_eq. by exists ns.
Qed.

(** A guard in front of a condition. *)
Lemma prepended_condition j n truth when c :
  guard j n truth → base_condition when c →
  ∃ w m, (if when is Some w then if is_object w then Some (JObject [("$and", JArray [j; w])]) else Some j else Some j)
           = Some w ∧ parse w = Ok (m, ∅) ∧ ∀ ctxs, run ctxs m = guarded_run truth ctxs c.
Proof.
  intros [Hp (key & value & -> & Hkey) Hs] Hb.
  assert (parse (JObject [(key, value)]) = Ok (Op AllOf [n], ∅)) as Hj
    by (apply parse_plain; [by repeat constructor|done]).
  destruct when as [[| | | | |members]|]; simpl in Hb |- *.
  all: try (subst c; eexists _, _; split_and!; [done|exact Hj|intros ctxs; by apply guarded_alone]).
  destruct Hb as [Hd Hc]. destruct (base_nodes _ _ Hd Hc) as (ns & -> & Hns).
  eexists _, (Op AllOf [Op AllOf (n :: ns)]). split; [done|]. split; [|intros ctxs; by apply guarded_all_of].
  apply parse_plain; [by repeat constructor|]. eapply parse_array; [|reflexivity|done].
  eapply (parse_operands_cons _ _ [_]); [done|]. rewrite <- (app_nil_r ns). by apply parse_operands_cons.
Qed.

(** What loading makes of labels that are literals. *)
Lemma migrated_condition p c :
  Forall literal_label (ps_include p) → Forall literal_label (ps_exclude p) →
  ps_include p ≠ [] ∨ ps_exclude p ≠ [] → base_condition (thinned_when p) c →
  ∃ w n, rp_when (into_settings p).1 = Some w ∧ parse w = Ok (n, ∅) ∧
    ∀ ctxs, run ctxs n = guarded_run (migrated_filter (ps_include p) (ps_exclude p)) ctxs c.
Proof.
  intros Hi He Hne Hb. destruct (legacy_guards _ _ Hi He) as ([|g rest] & Hgs & Egs & Tgs).
  { exfalso. unfold legacy_label_conditions in Egs.
    destruct (ps_include p); [|done]. destruct (ps_exclude p) as [|? [|??]]; naive_solver. }
  destruct (guard_joined _ _ Hgs) as [n Hn]. apply (guard_ext _ _ _ _ Tgs) in Hn.
  destruct (prepended_condition _ _ _ _ _ Hn Hb) as (w & m & Ew & Hm & Hr).
  exists w, m. split; [|done]. unfold into_settings. rewrite Egs. rewrite <- Ew. cbn.
  destruct (thinned_when p) as [w'|]; [|done]. by destruct (is_object w').
Qed.

(** C21: loading the settings of an older version keeps their label filter.  Let the labels
    to include and to exclude, at least one, be texts: names and values that the condition
    language takes literally (no reference, operator or duration), values that are not read
    as a number or a truth value (see [numeric_labels_are_lost]).  Let the settings have no
    condition beside them, or one that parses and has no directive (once the labels are in
    front of it, one with a directive does not parse: [directive_inside_does_not_parse]).
    Then the labels become a [when] condition that parses, and over any sequence of records
    its verdicts are those of the old filter in front of the condition that was there before:
    a record is passed on to that condition exactly when it carries every label to include
    and not all labels to exclude, and for the other records the answer is no and the
    counters of the condition stand still. *)
Theorem migrated_filter_is_kept p c :
  Forall literal_label (ps_include p) → Forall literal_label (ps_exclude p) →
  forallb is_text (ps_include p ++ ps_exclude p) = true →
  ps_include p ≠ [] ∨ ps_exclude p ≠ [] → base_condition (thinned_when p) c →
  ∃ w n, rp_when (into_settings p).1 = Some w ∧ parse w = Ok (n, ∅) ∧
    ∀ ctxs, run ctxs n = guarded_run (legacy_filter (ps_include p) (ps_exclude p)) ctxs c.
Proof.
  intros Hi He Ht Hne Hb. destruct (migrated_condition p c Hi He Hne Hb) as (w & n & Ew & Hn & Hr).
  exists w, n. split_and!; [done..|]. intros ctxs. rewrite Hr. apply guarded_run_ext. intros ls.
  rewrite forallb_app in Ht. apply andb_true_iff in Ht as [Hti Hte].
  unfold migrated_filter, legacy_filter. by rewrite !(matches_texts ls).
Qed.

(** A label filter of an older version that compares with a number or a truth value is
    lost.  The label of a record is read as a number, the migrated condition compares it with
    a text: with such a label to include no record is replicated any more, and with such a
    label to exclude none is kept back. *)
Theorem numeric_labels_are_lost p c :
  Forall literal_label (ps_include p) → Forall literal_label (ps_exclude p) →
  ps_include p ≠ [] ∨ ps_exclude p ≠ [] → base_condition (thinned_when p) c →
  ∃ w n, rp_when (into_settings p).1 = Some w ∧ parse w = Ok (n, ∅) ∧
    (forallb is_text (ps_include p) = false →
       ∀ ctxs, run ctxs n = replicate (length ctxs) (Ok (VBool false))) ∧
    (ps_include p = [] → forallb is_text (ps_exclude p) = false → ∀ ctxs, run ctxs n = run ctxs c).
Proof.
  intros Hi He Hne Hb. destruct (migrated_condition p c Hi He Hne Hb) as (w & n & Ew & Hn & Hr).
  exists w, n. split_and!; [done..| |].
  - intros Ht ctxs. rewrite Hr, (guarded_run_ext _ (λ _, false)); [by apply guarded_run_never|].
    intros ls. unfold migrated_filter. by rewrite matches_not_all.
  - intros Hn0 Ht ctxs. rewrite Hr, (guarded_run_ext _ (λ _, true)); [by apply guarded_run_always|].
    intros ls. unfold migrated_filter. rewrite Hn0. simpl. rewrite matches_not_all by done. by rewrite orb_true_r.
Qed.

Lemma parse_operator_directive key ns : starts_with key "#" = true → parse_operator key ns = Err UnprocessableEntity.
Proof.
  destruct key as [|c key]; simpl; [done|]. intros [E _]%andb_true_iff. apply bool_decide_eq_true in E as <-. done.
Qed.

(** A condition with a directive does not parse any more once labels are put in front of it:
    directives are looked for on the outside only. *)
Lemma directive_inside_does_not_parse j members key value n ds :
  List.In (key, value) members → starts_with key "#" = true → is_object value = false →
  parse (JObject [("$and", JArray [j; JObject members])]) ≠ Ok (n, ds).
Proof.
  intros Hin Hkey Hval Hp.
  assert (∀ ns, parse_object members ≠ Ok ns) as Hno.
  { clear Hp. induction members as [|[k v] l IH]; [done|]. intros ns Hns. cbn [parse_object] in Hns.
    destruct (parse_member k v) as [e| |] eqn:Em; try done. cbn in Hns.
    destruct (parse_object l) as [r| |] eqn:El; try done. destruct Hin as [[= -> ->]|Hin]; [|by eapply IH].
    unfold parse_member, parse_array_syntax in Em. destruct value as [| | | |js|]; try done.
    all: match type of Em with context [mbind _ ?m] => destruct m; try done end; cbn in Em.
    all: by rewrite parse_operator_directive in Em. }
  unfold parse, parse_directives in Hp. rewrite (no_directive_collect [_]) in Hp by (by repeat constructor).
  cbn [mbind outcome_bind] in Hp. rewrite parse_recursively_object in Hp. cbn [parse_object] in Hp.
  unfold parse_member, parse_array_syntax in Hp. cbn [parse_operands] in Hp.
  rewrite (parse_recursively_object members) in Hp.
  destruct (parse_recursively j); [|done..]. cbn [mbind outcome_bind] in Hp.
  destruct (parse_object members); [by eapply Hno|done..].
Qed.
End Migration.

(** ** Saving and loading *)

(** A value whose text is read back: no numbers with a fraction, whose text may be read to
    a neighbour, and not nested deeper than the parser goes. *)
Fixpoint json_depth (j : Json) : nat :=
  match j with
  | JArray l => S (foldr (λ j n, json_depth j `max` n)%nat 0%nat l)
  | JObject l => S (foldr (λ kv n, json_depth kv.2 `max` n)%nat 0%nat l)
  | _ => 0
  end.
Fixpoint json_exact (j : Json) : bool :=
  match j with
  | JNumber (JFloat _) => false
  | JArray l => forallb json_exact l
  | JObject l => forallb (λ kv, json_exact kv.2) l
  | _ => true
  end.
Definition json_saved (j : Json) : bool := json_exact j && bool_decide (json_depth j < 128)%nat.

(** serde_json reads back what it wrote. *)
Class JsonLaws `{JsonText} `{JsonParse} : Prop :=
  json_text_roundtrip j : json_saved j = true → json_from_str (json_to_string j) = Some j.

(** Settings that the message can hold: an empty token is no token. *)
Definition settings_saved (s : ReplicationSettings) : Prop :=
  rp_dst_token s ≠ Some "" ∧ match rp_when s with Some w => json_saved w = true | None => True end.

Lemma settings_roundtrip `{JsonLaws} s : settings_saved s → into_settings (to_proto s) = (s, false).
Proof.
  intros [Ht Hw]. destruct s as [src dst host token entries prefix when mode comp]. simpl in *.
  unfold into_settings, to_proto, thinned_when; simpl.
  assert ((json_to_string <$> when) ≫= json_from_str = when) as ->.
  { destruct when; simpl; [|done]. by apply json_text_roundtrip. }
  f_equal. f_equal.
  - destruct token as [t|]; simpl; [|done]. case_decide; congruence.
  - by destruct mode.
  - by destruct comp.
Qed.

(** ** Instances for the witnesses *)

(** A text of JSON values: the number of a tree. *)
Module ToyJson.
Fixpoint to_tree (j : Json) : gen_tree (string + Z) :=
  match j with
  | JNull => GenNode 0 []
  | JBool b => GenNode (if b then 1 else 2) []
  | JNumber (PosInt n) => GenNode 3 [GenLeaf (inr n)]
  | JNumber (NegInt n) => GenNode 4 [GenLeaf (inr n)]
  | JNumber (JFloat _) => GenNode 5 []
  | JString s => GenLeaf (inl s)
  | JArray l => GenNode 6 (map to_tree l)
  | JObject l => GenNode 7 (map (λ kv, GenNode 0 [GenLeaf (inl kv.1); to_tree kv.2]) l)
  end.
Fixpoint of_tree (t : gen_tree (string + Z)) : option Json :=
  match t with
  | GenLeaf (inl s) => Some (JString s)
  | GenLeaf (inr _) => None
  | GenNode 0 [] => Some JNull
  | GenNode 1 [] => Some (JBool true)
  | GenNode 2 [] => Some (JBool false)
  | GenNode 3 [GenLeaf (inr n)] => Some (JNumber (PosInt n))
  | GenNode 4 [GenLeaf (inr n)] => Some (JNumber (NegInt n))
  | GenNode 6 l => JArray <$> (fix go l := match l with
                                           | [] => Some []
                                           | t :: l' => j ← of_tree t; js ← go l'; Some (j :: js)
                                           end) l
  | GenNode 7 l => JObject <$> (fix go l := match l with
                                            | [] => Some []
                                            | GenNode 0 [GenLeaf (inl k); t] :: l' =>
                                                j ← of_tree t; js ← go l'; Some ((k, j) :: js)
                                            | _ => None
                                            end) l
  | _ => None
  end.

Lemma of_to_tree j : json_exact j = true → of_tree (to_tree j) = Some j.
Proof.
  induction j as [|b|n|s|l IH|l IH] using json_ind; simpl; intros Hj; try done.
  - by destruct b.
  - by destruct n.
  - induction IH as [|j l Hjl _ IHl]; [done|]. simpl in Hj. apply andb_true_iff in Hj as [H1 H2].
    specialize (IHl H2). simpl. rewrite (Hjl H1). simpl.
    match type of IHl with fmap _ ?x = _ => destruct x; by simplify_eq/= end.
  - induction IH as [|[k j] l Hjl _ IHl]; [done|]. simpl in *. apply andb_true_iff in Hj as [H1 H2].
    specialize (IHl H2). rewrite (Hjl H1). simpl.
    match type of IHl with fmap _ ?x = _ => destruct x; by simplify_eq/= end.
Qed.

#[export] Instance text : JsonText := λ j, pretty (N.pos (encode (to_tree j))).
#[export] Instance parser : JsonParse := λ s,
  z ← digits s 0; t ← decode (Z.to_pos z); of_tree t.
#[export] Instance laws : JsonLaws.
Proof.
  intros j [Hj _]%andb_true_iff. unfold json_from_str, parser, json_to_string, text.
  rewrite digits_pretty_N. change (decode (encode (to_tree j)) ≫= of_tree = Some j).
  rewrite decode_encode. by apply of_to_tree.
Qed.
#[export] Instance chrono : Chrono :=
  {| DateTime := unit; Tz := unit; tz_utc := tt; tz_from_str := λ _, None;
     from_timestamp_micros := λ _, None; date_field := λ _ _ _, 0 |}.
End ToyJson.

Section SettingsWitnesses.
Import ToyJson.

(** Settings of an older version. *)
Definition old_settings (include exclude : list ProtoLabel) (each_n : Z) : ProtoReplicationSettings :=
  mkProtoSettings "src" "dst" "http://localhost" "" [] include exclude each_n (S754_zero false) None 0 "" 0.
Definition temp_label : ProtoLabel := mkProtoLabel "sensor" "temp".
Definition idle_label : ProtoLabel := mkProtoLabel "status" "idle".
Definition level_label : ProtoLabel := mkProtoLabel "level" "42".
Definition record_with (labels : list (string * string)) : Context := mkContext 1 (list_to_map labels) ∅.

Lemma migrated_filter_is_kept_witness :
  ∃ w n, rp_when (into_settings (old_settings [temp_label] [idle_label] 2)).1 = Some w ∧ parse w = Ok (n, ∅) ∧
    run [record_with [("sensor", "temp")]; record_with [("sensor", "temp"); ("status", "idle")];
         record_with [("sensor", "temp"); ("status", "busy")]; record_with []] n
    = [Ok (VBool false); Ok (VBool false); Ok (VBool true); Ok (VBool false)].
Proof.
  destruct (migrated_filter_is_kept (old_settings [temp_label] [idle_label] 2)
              (Op AllOf [EachN [Constant (VInt 2)] 0])) as (w & n & Hw & Hn & Hr).
  1, 2: by repeat (constructor || (split; vm_compute)).
  - by vm_compute.
  - by left.
  - split; [by repeat constructor|by vm_compute].
  - exists w, n. split_and!; [done..|]. rewrite Hr. by vm_compute.
Defined.

Lemma numeric_labels_are_lost_witness :
  ∃ w n, rp_when (into_settings (old_settings [level_label] [] 0)).1 = Some w ∧ parse w = Ok (n, ∅) ∧
    run [record_with [("level", "42")]] n = [Ok (VBool false)].
Proof.
  destruct (numeric_labels_are_lost (old_settings [level_label] [] 0) (Op AllOf [])) as (w & n & Hw & Hn & Hr & _).
  1, 2: by repeat (constructor || (split; vm_compute)).
  - by left.
  - done.
  - exists w, n. split_and!; [done..|]. rewrite Hr by (by vm_compute). done.
Defined.
End SettingsWitnesses.
