(* ===== verification/ReplicationRepo.v ===== *)
(** * ReplicationRepo: the repository of replications
    (replication/replication_repository/repo.rs)

    The repository checks settings, builds and starts the tasks, passes notifications on to
    them, and keeps their settings in a file that it reads at the start.  What the storage,
    the remote client and the file system answer during a call is an argument ([RepoEnv]). *)

From stdpp Require Import prelude gmap strings sorting.
From Stdlib Require Import ZArith Lia SpecFloat.
From S2P Require Import Prelude Collections Text Value Condition Parser Filters Replication ReplicationTask ReplicationSettings.
Open Scope Z_scope.

(** ** What the repository uses *)

(** [url::Url]: the parts of an address that are looked at. *)
Record UrlParts := mkUrl { url_port_or_known_default : option Z; url_host_str : option string }.
Class UrlParser := url_parse : string → option UrlParts.

(** The message [ReplicationRepo] and its encoding by prost. *)
Abbreviation ProtoItem := (string * option ProtoReplicationSettings)%type.
Class ReplCodec := {
  encode_repl_repo : list ProtoItem → list Z;
  decode_repl_repo : list Z → option (list ProtoItem)
}.
Class ReplCodecLaws `{ReplCodec} : Prop := {
  repl_repo_roundtrip l : decode_repl_repo (encode_repl_repo l) = Some l;
  repl_repo_empty : decode_repl_repo [] = Some []
}.

(** How saving ends: the file is written, it cannot be opened, or the writing fails when a
    number of bytes is in it. *)
Inductive SaveResult : Type := Saved | NotOpened | Torn (n : nat).

Record RepoEnv := mkRepoEnv {
  re_bucket_exists : string → bool;
  re_client : ReplicationSettings → outcome ();
  re_save : SaveResult;
  re_readable : bool;
  re_now : Z
}.

Record RepoCfg := mkRepoCfg { rc_io : IoConfig; rc_listening_port : Z; rc_log_size : Z }.
Definition DEFAULT_PORT : Z := 8383.

(** ** The repository *)

(** A task with its settings; [ri_task] has the filters, logs and counters. *)
Record ReplItem := mkReplItem {
  ri_settings : ReplicationSettings;
  ri_task : Task;
  ri_provisioned : bool;
  ri_running : bool
}.

Record ReplRepo := mkReplRepo {
  rr_replications : gmap string ReplItem;
  rr_started : bool;
  rr_file : option (list Z)
}.
Definition with_replications (m : gmap string ReplItem) (r : ReplRepo) : ReplRepo := mkReplRepo m (rr_started r) (rr_file r).

Definition local_hosts : list string := ["127.0.0.1"; "localhost"; "0.0.0.0"]%string.

Section Repo.
Context `{HashIter} `{ByteSize} `{Chrono} `{JsonText} `{JsonParse} `{UrlParser} `{ReplCodec}.
Context (cfg : RepoCfg).

(** The message that [save_repo] writes. *)
Definition repo_message (m : gmap string ReplItem) : list ProtoItem :=
  (λ '(name, i), (name, Some (to_proto (ri_settings i)))) <$> hash_iter m.

(** [save_repo]: the file is emptied, then written. *)
Definition save_repo (env : RepoEnv) : ST ReplRepo () := λ r,
  let bytes := encode_repl_repo (repo_message (rr_replications r)) in
  match re_save env with
  | Saved => (Ok tt, mkReplRepo (rr_replications r) (rr_started r) (Some bytes))
  | NotOpened => (Err InternalServerError, r)
  | Torn n => (Err InternalServerError, mkReplRepo (rr_replications r) (rr_started r) (Some (take n bytes)))
  end.

(** The checks of [create_or_update_replication_task], and the limits of the condition. *)
Definition check_settings (env : RepoEnv) (s : ReplicationSettings) : outcome IoConfig :=
  match url_parse (rp_dst_host s) with
  | None => Err UnprocessableEntity
  | Some url =>
      if negb (re_bucket_exists env (rp_src_bucket s)) then Err NotFound
      else if bool_decide (rp_src_bucket s = rp_dst_bucket s)
              && bool_decide (rc_listening_port cfg = default DEFAULT_PORT (url_port_or_known_default url))
              && bool_decide (default ""%string (url_host_str url) ∈ local_hosts)
      then Err UnprocessableEntity
      else match rp_when s with
           | None => Ok (rc_io cfg)
           | Some when =>
               match parse when with
               | Ok (cond, directives) =>
                   w ← @when_try_new _ TransactionNotification cond directives (rc_io cfg) true; Ok (wf_io w)
               | Err _ => Err UnprocessableEntity
               | Panic => Panic
               end
           end
  end.

(** [ReplicationTask::new]. *)
Definition task_new (env : RepoEnv) (io : IoConfig) (s : ReplicationSettings) : outcome ReplItem :=
  _ ← re_client env s;
  Ok (mkReplItem s (task_build (task_settings s) io (rc_log_size cfg) (rp_mode s) (re_now env)) false false).

Definition with_token (t : option string) (s : ReplicationSettings) : ReplicationSettings :=
  mkReplicationSettings (rp_src_bucket s) (rp_dst_bucket s) (rp_dst_host s) t (rp_entries s) (rp_dst_prefix s)
    (rp_when s) (rp_mode s) (rp_compression s).
Definition with_mode (m : ReplicationMode) (s : ReplicationSettings) : ReplicationSettings :=
  mkReplicationSettings (rp_src_bucket s) (rp_dst_bucket s) (rp_dst_host s) (rp_dst_token s) (rp_entries s)
    (rp_dst_prefix s) (rp_when s) m (rp_compression s).

(** [create_or_update_replication_task]; the old token stays when the new settings have none. *)
Definition create_or_update (env : RepoEnv) (name : string) (s : ReplicationSettings) : ST ReplRepo () :=
  io ← st_lift (check_settings env s);
  r ← st_get;
  let removed := rr_replications r !! name in
  let token := match rp_dst_token s with
               | Some t => Some t
               | None => removed ≫= λ i, rp_dst_token (ri_settings i)
               end in
  _ ← st_modify (with_replications (delete name (rr_replications r)));
  i ← st_lift (task_new env io (with_token token s));
  let i := mkReplItem (ri_settings i) (ri_task i) (ri_provisioned i) (rr_started r) in
  _ ← st_modify (λ r, with_replications (<[name := i]> (rr_replications r)) r);
  save_repo env.

Definition create_replication (env : RepoEnv) (name : string) (s : ReplicationSettings) : ST ReplRepo () :=
  r ← st_get;
  match rr_replications r !! name with
  | Some _ => st_throw Conflict
  | None => create_or_update env name s
  end.

Definition update_replication (env : RepoEnv) (name : string) (s : ReplicationSettings) : ST ReplRepo () :=
  r ← st_get;
  match rr_replications r !! name with
  | Some i => if ri_provisioned i then st_throw Conflict else create_or_update env name s
  | None => st_throw NotFound
  end.

(** [remove_replication], up to the removal of the log files. *)
Definition remove_replication (env : RepoEnv) (name : string) : ST ReplRepo () :=
  r ← st_get;
  match rr_replications r !! name with
  | None => st_throw NotFound
  | Some i =>
      if ri_provisioned i then st_throw Conflict
      else _ ← st_modify (with_replications (delete name (rr_replications r))); save_repo env
  end.

(** [set_mode], [set_replication_provisioned]. *)
Definition repo_set_mode (env : RepoEnv) (name : string) (mode : ReplicationMode) : ST ReplRepo () :=
  r ← st_get;
  match rr_replications r !! name with
  | None => st_throw NotFound
  | Some i =>
      let i := mkReplItem (with_mode mode (ri_settings i)) (set_mode mode (ri_task i)) (ri_provisioned i) (ri_running i) in
      _ ← st_modify (with_replications (<[name := i]> (rr_replications r))); save_repo env
  end.
Definition set_replication_provisioned (name : string) (provisioned : bool) : ST ReplRepo () :=
  r ← st_get;
  match rr_replications r !! name with
  | None => st_throw NotFound
  | Some i =>
      st_modify (with_replications
        (<[name := mkReplItem (ri_settings i) (ri_task i) provisioned (ri_running i)]> (rr_replications r)))
  end.

(** [get_replication_settings], [is_replication_running]; [get_info] shows the settings
    without the token. *)
Definition get_replication_settings (name : string) (r : ReplRepo) : outcome ReplicationSettings :=
  ri_settings <$> ok_or NotFound (rr_replications r !! name).
Definition is_replication_running (name : string) (r : ReplRepo) : outcome bool :=
  ri_running <$> ok_or NotFound (rr_replications r !! name).
Definition masked_settings (i : ReplItem) : ReplicationSettings :=
  with_mode (tk_mode (ri_task i)) (with_token None (ri_settings i)).
Definition get_info (name : string) (r : ReplRepo) : outcome ReplicationSettings :=
  masked_settings <$> ok_or NotFound (rr_replications r !! name).

(** [start_all]: the tasks that do not run yet. *)
Definition start_all (r : ReplRepo) : ReplRepo :=
  if rr_started r then r
  else mkReplRepo ((λ i, mkReplItem (ri_settings i) (ri_task i) (ri_provisioned i) true) <$> rr_replications r)
         true (rr_file r).

(** [stop]. *)
Definition stop_all (r : ReplRepo) : ReplRepo :=
  mkReplRepo ((λ i, mkReplItem (ri_settings i) (ri_task i) (ri_provisioned i) false) <$> rr_replications r)
    (rr_started r) (rr_file r).

(** [notify] and the worker: the tasks of the bucket are notified; [files] has the file of
    the transaction log of each replication. *)
Definition should_enqueue (n : TransactionNotification) (r : ReplRepo) : bool :=
  existsb (λ '(_, i), bool_decide (rp_src_bucket (ri_settings i) = tn_bucket n)) (hash_iter (rr_replications r)).
Definition notify_item (files : string → option (list Z)) (n : TransactionNotification) (name : string) (i : ReplItem) : ReplItem :=
  if decide (rp_src_bucket (ri_settings i) = tn_bucket n)
  then mkReplItem (ri_settings i) (notify (files name) n (ri_task i)).2 (ri_provisioned i) (ri_running i)
  else i.
Definition repo_notify (files : string → option (list Z)) (n : TransactionNotification) (r : ReplRepo) : ReplRepo :=
  if should_enqueue n r then with_replications (map_imap (λ name i, Some (notify_item files n name i)) (rr_replications r)) r
  else r.

(** [load_or_create]: one replication after the other; one that is refused is left out.  A
    file that cannot be read is taken for none. *)
Fixpoint load_items (env : RepoEnv) (items : list ProtoItem) (r : ReplRepo) : outcome () * ReplRepo :=
  match items with
  | [] => (Ok tt, r)
  | (_, None) :: _ => (Panic, r)
  | (name, Some p) :: rest =>
      match create_replication env name (into_settings p).1 r with
      | (Panic, r') => (Panic, r')
      | (_, r') => load_items env rest r'
      end
  end.
Definition load_or_create (env : RepoEnv) (file : option (list Z)) : outcome () * ReplRepo :=
  if negb (re_readable env) then (Ok tt, mkReplRepo ∅ false file)
  else
    let bytes := default [] file in
    let r := mkReplRepo ∅ false (Some bytes) in
    match decode_repl_repo bytes with
    | None => (Panic, r)
    | Some items => load_items env items r
    end.
End Repo.
