(* ===== verification/ReplicationRestart.v ===== *)
(** * ReplicationRestart: what a repository of replications keeps
    (replication/replication_repository/repo.rs)

    The file has the settings of the replications after every operation, so that a restart
    finds them; but a start writes the file anew with each replication that it loads. *)

From stdpp Require Import prelude gmap strings sorting.
From Stdlib Require Import ZArith Lia SpecFloat.
From S2P Require Import Prelude Collections Proto Text Value Condition Parser Filters Replication ReplicationTask ReplicationSettings.
From S2P Require Import ReplicationRepo.
Open Scope Z_scope.

(** ** Restarts *)

(** An operation of the repository. *)
Inductive RepoOp : Type :=
| RCreate (name : string) (s : ReplicationSettings)
| RUpdate (name : string) (s : ReplicationSettings)
| RRemove (name : string)
| RMode (name : string) (mode : ReplicationMode)
| RProvision (name : string) (provisioned : bool)
| RNotify (files : string → option (list Z)) (n : TransactionNotification)
| RStart
| RStop.

Section Life.
Context `{HashIterLaws} `{ByteSize} `{Chrono} `{JsonLaws} `{UrlParser} `{ReplCodecLaws}.
Context (cfg : RepoCfg).

Definition repo_step (r : ReplRepo) (op : RepoEnv * RepoOp) : ReplRepo :=
  let env := op.1 in
  match op.2 with
  | RCreate name s => (create_replication cfg env name s r).2
  | RUpdate name s => (update_replication cfg env name s r).2
  | RRemove name => (remove_replication env name r).2
  | RMode name mode => (repo_set_mode env name mode r).2
  | RProvision name b => (set_replication_provisioned name b r).2
  | RNotify files n => repo_notify files n r
  | RStart => start_all r
  | RStop => stop_all r
  end.

(** The settings by name, which is what is to survive. *)
Definition settings_map (r : ReplRepo) : gmap string ReplicationSettings := ri_settings <$> rr_replications r.

(** The file has the settings of all replications. *)
Definition in_file (m : gmap string ReplicationSettings) (file : option (list Z)) : Prop :=
  ∃ l, decode_repl_repo (default [] file) = Some l ∧ l ≡ₚ (prod_map id (Some ∘ to_proto) <$> map_to_list m).

Definition repo_inv (r : ReplRepo) : Prop := in_file (settings_map r) (rr_file r).

Lemma message_perm (m : gmap string ReplItem) :
  repo_message m ≡ₚ (prod_map id (Some ∘ to_proto) <$> map_to_list (ri_settings <$> m)).
Proof.
  unfold repo_message. rewrite (hash_iter_perm m), map_to_list_fmap, <- list_fmap_compose.
  apply Permutation_refl'. apply list_fmap_ext. by intros _ [name i] _.
Qed.

Lemma save_in_file env r :
  re_save env = Saved → ∃ r', save_repo env r = (Ok tt, r') ∧ rr_replications r' = rr_replications r ∧
    rr_started r' = rr_started r ∧ in_file (settings_map r) (rr_file r').
Proof.
  intros Hs. unfold save_repo. rewrite Hs. eexists. split_and!; [done..|]. simpl. eexists.
  split; [apply repl_repo_roundtrip|]. apply message_perm.
Qed.

(** An environment in which files are written and read and clients are built. *)
Definition env_ok (env : RepoEnv) : Prop := re_save env = Saved ∧ (∀ s, re_client env s = Ok tt) ∧ re_readable env = true.

Lemma with_own_token s : with_token (rp_dst_token s) s = s.
Proof. by destruct s. Qed.

(** The token that is kept. *)
Definition kept_token (old : option ReplicationSettings) (s : ReplicationSettings) : ReplicationSettings :=
  with_token (match rp_dst_token s with Some t => Some t | None => old ≫= rp_dst_token end) s.

Lemma create_or_update_spec env name s r :
  env_ok env →
  (∃ e, check_settings cfg env s = Err e ∧ create_or_update cfg env name s r = (Err e, r)) ∨
  (check_settings cfg env s = Panic ∧ create_or_update cfg env name s r = (Panic, r)) ∨
  (∃ io r', check_settings cfg env s = Ok io ∧ create_or_update cfg env name s r = (Ok tt, r') ∧
    settings_map r' = <[name := kept_token (settings_map r !! name) s]> (settings_map r) ∧
    rr_started r' = rr_started r ∧ in_file (settings_map r') (rr_file r')).
Proof.
  intros (Hs & Hc & _). unfold create_or_update. destruct (check_settings cfg env s) as [io|e|]; [|by eauto..].
  right; right. exists io. unfold task_new, mbind, ST_bind, st_lift, st_get, st_modify, outcome_bind. rewrite Hc.
  match goal with |- context [save_repo env ?x] => destruct (save_in_file env x Hs) as (r' & -> & Hm & Hst & Hf) end.
  exists r'. split_and!; [done|done| |done|].
  - unfold settings_map. rewrite Hm. simpl. rewrite fmap_insert, fmap_delete, insert_delete_eq. f_equal.
    unfold kept_token. f_equal. destruct (rp_dst_token s); [done|]. unfold settings_map. rewrite lookup_fmap.
    by destruct (rr_replications r !! name).
  - unfold settings_map in *. by rewrite Hm.
Qed.

Lemma create_or_update_inv env name s r :
  env_ok env → repo_inv r → repo_inv (create_or_update cfg env name s r).2.
Proof.
  intros He Hf.
  by destruct (create_or_update_spec env name s r He) as [(e & _ & ->)|[[_ ->]|(io & r' & _ & -> & Em & _ & Hf')]].
Qed.

(** An operation that changes no settings. *)
Lemma same_settings r r' : settings_map r' = settings_map r → rr_file r' = rr_file r → repo_inv r → repo_inv r'.
Proof. unfold repo_inv. by intros -> ->. Qed.

Lemma replaced_settings env m r : env_ok env → repo_inv (save_repo env (with_replications m r)).2.
Proof.
  intros [Hs _]. destruct (save_in_file env (with_replications m r) Hs) as (r' & -> & Er & _ & Hf).
  unfold repo_inv, settings_map in *; simpl in *. by rewrite Er.
Qed.

Lemma repo_step_inv r op : env_ok op.1 → repo_inv r → repo_inv (repo_step r op).
Proof.
  destruct op as [env op]. simpl. intros He HI. destruct op as [name s|name s|name|name mode|name b|files n| |]; unfold repo_step; simpl in *.
  - unfold create_replication, mbind, ST_bind, st_get. destruct (rr_replications r !! name); [done|]. by apply create_or_update_inv.
  - unfold update_replication, mbind, ST_bind, st_get. destruct (rr_replications r !! name) as [i|]; [|done].
    destruct (ri_provisioned i); [done|]. by apply create_or_update_inv.
  - unfold remove_replication, mbind, ST_bind, st_get. destruct (rr_replications r !! name) as [i|]; [|done].
    destruct (ri_provisioned i); [done|]. by apply replaced_settings.
  - unfold repo_set_mode, mbind, ST_bind, st_get. destruct (rr_replications r !! name) as [i|]; [|done].
    by apply replaced_settings.
  - unfold set_replication_provisioned, mbind, ST_bind, st_get. destruct (rr_replications r !! name) as [i|] eqn:E; [|done].
    eapply same_settings; [..|done]; [|done]. unfold settings_map. simpl. rewrite fmap_insert. apply insert_id. simpl.
    by rewrite lookup_fmap, E.
  - unfold repo_notify. destruct (should_enqueue n r); [|done]. eapply same_settings; [..|done]; [|done].
    unfold settings_map. simpl. apply map_eq. intros k. rewrite !lookup_fmap, map_lookup_imap.
    destruct (rr_replications r !! k) as [i|]; [|done]. simpl. unfold notify_item. by case_decide.
  - unfold start_all. destruct (rr_started r); [done|]. eapply same_settings; [..|done]; [|done].
    unfold settings_map. simpl. rewrite <- map_fmap_compose. done.
  - eapply same_settings; [..|done]; [|done]. unfold settings_map. simpl. rewrite <- map_fmap_compose. done.
Qed.

(** ** Loading *)

(** What a start makes of settings that were saved: they are read back from the message. *)
Definition reloaded (s : ReplicationSettings) : ReplicationSettings := (into_settings (to_proto s)).1.

(** The message has every field; of the token it cannot tell an empty one from none, and of
    the condition it has the text, which is parsed again. *)
Lemma reloaded_fields s :
  reloaded s = mkReplicationSettings (rp_src_bucket s) (rp_dst_bucket s) (rp_dst_host s)
    (if decide (rp_dst_token s = Some ""%string) then None else rp_dst_token s) (rp_entries s) (rp_dst_prefix s)
    (rp_when s ≫= λ w, json_from_str (json_to_string w)) (rp_mode s) (rp_compression s).
Proof.
  destruct s as [src dst host token entries prefix when mode comp].
  unfold reloaded, into_settings, to_proto, thinned_when; simpl. f_equal.
  - destruct token as [t|]; simpl; [|done]. repeat case_decide; congruence.
  - by destruct when.
  - by destruct mode.
  - by destruct comp.
Qed.

Lemma reloaded_saved s : settings_saved s → reloaded s = s.
Proof. intros Hs. unfold reloaded. by rewrite settings_roundtrip. Qed.

(** What a start makes of the list in the file: the replications that are accepted. *)
Definition accepted (env : RepoEnv) (s : ReplicationSettings) : bool :=
  match check_settings cfg env s with Ok _ => true | _ => false end.
Definition kept_items (env : RepoEnv) (l : list (string * ReplicationSettings)) : list (string * ReplicationSettings) :=
  filter (λ ns, accepted env ns.2 = true) (prod_map id reloaded <$> l).

Lemma kept_names env l name : name ∈ (kept_items env l).*1 → name ∈ l.*1.
Proof.
  intros (ns & -> & [_ (ns' & -> & Hns)%list_elem_of_fmap]%list_elem_of_filter)%list_elem_of_fmap.
  apply list_elem_of_fmap. by exists ns'.
Qed.

Lemma load_items_spec env (l : list (string * ReplicationSettings)) r :
  env_ok env → Forall (λ ns, check_settings cfg env (reloaded ns.2) ≠ Panic) l →
  NoDup l.*1 → (∀ name, name ∈ l.*1 → rr_replications r !! name = None) →
  ∃ r', load_items cfg env (prod_map id (Some ∘ to_proto) <$> l) r = (Ok tt, r') ∧
    settings_map r' = list_to_map (kept_items env l) ∪ settings_map r ∧
    (kept_items env l ≠ [] → repo_inv r') ∧ (kept_items env l = [] → rr_file r' = rr_file r).
Proof.
  intros He. revert r. induction l as [|[name s] l IH]; intros r Hl Hnd Hr.
  { exists r. split_and!; [done|simpl; by rewrite map_empty_union|done|done]. }
  apply Forall_cons in Hl as [Hp Hl]. apply NoDup_cons in Hnd as [Hname Hnd]. simpl in Hp.
  change (prod_map id (Some ∘ to_proto) <$> (name, s) :: l) with ((name, Some (to_proto s)) :: (prod_map id (Some ∘ to_proto) <$> l)).
  cbn [load_items]. fold (reloaded s). unfold create_replication, mbind, ST_bind, st_get. rewrite (Hr name) by set_solver.
  unfold kept_items. rewrite fmap_cons, filter_cons. fold (kept_items env l). cbn [snd fst prod_map].
  destruct (create_or_update_spec env name (reloaded s) r He) as [(e & Ec & ->)|[[? _]|(io & r1 & Ec & -> & Em & _ & Hf)]]; [|done|].
  - rewrite decide_False by (unfold accepted; by rewrite Ec). destruct (IH r Hl Hnd) as (r' & -> & Q1 & Q2 & Q3); [set_solver|]. by exists r'.
  - rewrite decide_True by (unfold accepted; by rewrite Ec).
    assert (settings_map r !! name = None) as Hn by (unfold settings_map; rewrite lookup_fmap, Hr by set_solver; done).
    assert (settings_map r1 = <[name := reloaded s]> (settings_map r)) as Em1.
    { rewrite Em, Hn. f_equal. unfold kept_token. by destruct (reloaded s) as [??? [] ?????]. }
    destruct (IH r1 Hl Hnd) as (r' & -> & Q1 & Q2 & Q3).
    { intros k Hk. assert (settings_map r1 !! k = None) as Hk1.
      { rewrite Em1, lookup_insert_ne by set_solver. unfold settings_map. by rewrite lookup_fmap, Hr by set_solver. }
      unfold settings_map in Hk1. rewrite lookup_fmap in Hk1. by destruct (rr_replications r1 !! k). }
    exists r'. split_and!; [done| |intros _|done].
    + rewrite Q1, Em1, list_to_map_cons, <- insert_union_l. symmetry. apply insert_union_r.
      apply not_elem_of_list_to_map_1. by intros ?%kept_names.
    + destruct (decide (kept_items env l = [])) as [E|E]; [|by apply Q2].
      unfold repo_inv. rewrite (Q3 E), Q1, E. simpl. by rewrite map_empty_union.
Qed.

(** The list in the file, with the settings that were saved. *)
Lemma in_file_list m file :
  in_file m file → ∃ l, decode_repl_repo (default [] file) = Some (prod_map id (Some ∘ to_proto) <$> l) ∧ l ≡ₚ map_to_list m.
Proof.
  intros (l' & Hd & Hp). apply Permutation_map_inv in Hp as (l & -> & Hl).
  exists l. split; [done|by symmetry].
Qed.

(** A list with the same settings: every name once, all of them saved. *)
Lemma listed m (l : list (string * ReplicationSettings)) :
  l ≡ₚ map_to_list m → NoDup l.*1 ∧ list_to_map l = m ∧ ∀ ns, ns ∈ l → m !! ns.1 = Some ns.2.
Proof.
  intros Hl. assert (NoDup l.*1) as Hnd by (rewrite Hl; apply NoDup_fst_map_to_list).
  split_and!; [done| |].
  - rewrite (list_to_map_proper _ _ Hnd Hl). apply list_to_map_to_list.
  - intros [k s] Hk. rewrite Hl in Hk. by apply elem_of_map_to_list.
Qed.

Lemma accepted_not_panic env s : accepted env s = true → check_settings cfg env s ≠ Panic.
Proof. unfold accepted. by destruct (check_settings cfg env s). Qed.

Lemma load_spec env l file :
  env_ok env → decode_repl_repo (default [] file) = Some (prod_map id (Some ∘ to_proto) <$> l) →
  Forall (λ ns, check_settings cfg env (reloaded ns.2) ≠ Panic) l → NoDup l.*1 →
  ∃ r', load_or_create cfg env file = (Ok tt, r') ∧ settings_map r' = list_to_map (kept_items env l) ∧
    (kept_items env l ≠ [] → repo_inv r') ∧ (kept_items env l = [] → rr_file r' = Some (default [] file)).
Proof.
  intros He Hd Hl Hnd. unfold load_or_create. rewrite (proj2 (proj2 He)). cbv zeta. rewrite Hd.
  destruct (load_items_spec env l (mkReplRepo ∅ false (Some (default [] file))) He Hl Hnd) as (r' & -> & Q1 & Q2 & Q3); [done|].
  exists r'. split_and!; [done| |done|done]. rewrite Q1. unfold settings_map. simpl. by rewrite fmap_empty, map_union_empty.
Qed.

Lemma filter_true {A} (P : A → Prop) `{∀ x, Decision (P x)} (l : list A) : (∀ x, x ∈ l → P x) → filter P l = l.
Proof.
  induction l as [|x l IH]; intros Hl; [done|]. rewrite filter_cons_True by (apply Hl; set_solver). f_equal. apply IH. set_solver.
Qed.

Lemma NoDup_filter_fst {A B} (P : A * B → Prop) `{∀ x, Decision (P x)} (l : list (A * B)) :
  NoDup l.*1 → NoDup (filter P l).*1.
Proof.
  induction l as [|ab l IH]; [done|]. intros [Hab Hl]%NoDup_cons. rewrite filter_cons. case_decide; [|by apply IH].
  apply NoDup_cons. split; [|by apply IH]. intros (x & Ex & [_ Hx]%list_elem_of_filter)%list_elem_of_fmap.
  apply Hab. rewrite Ex. apply list_elem_of_fmap. by exists x.
Qed.

Lemma reloaded_names (l : list (string * ReplicationSettings)) : (prod_map id reloaded <$> l).*1 = l.*1.
Proof. rewrite <- list_fmap_compose. by apply list_fmap_ext. Qed.

Lemma all_kept env l : Forall (λ ns, accepted env (reloaded ns.2) = true) l → kept_items env l = (prod_map id reloaded <$> l).
Proof.
  intros Hl. apply filter_true. intros ns (ns' & -> & Hns)%list_elem_of_fmap. rewrite Forall_forall in Hl. by apply Hl.
Qed.

(** A start that accepts everything. *)
Lemma load_all env l file :
  env_ok env → decode_repl_repo (default [] file) = Some (prod_map id (Some ∘ to_proto) <$> l) →
  Forall (λ ns, accepted env (reloaded ns.2) = true) l → NoDup l.*1 →
  ∃ r', load_or_create cfg env file = (Ok tt, r') ∧ settings_map r' = list_to_map (prod_map id reloaded <$> l) ∧ repo_inv r'.
Proof.
  intros He Hd Hl Hnd. destruct (load_spec env l file He Hd) as (r' & HL & Q1 & Q2 & Q3); [|done|].
  { eapply Forall_impl; [exact Hl|]. intros ns ?. by apply accepted_not_panic. }
  rewrite all_kept in Q1, Q2, Q3 by done.
  exists r'. split_and!; [done..|].
  destruct l; [|by apply Q2]. unfold repo_inv. rewrite Q1, (Q3 eq_refl). exists []. by split.
Qed.

Lemma list_to_map_reloaded (l : list (string * ReplicationSettings)) :
  list_to_map (prod_map id reloaded <$> l) = reloaded <$> (list_to_map l : gmap string ReplicationSettings).
Proof.
  induction l as [|[k s] l IH]; simpl; [by rewrite fmap_empty|]. by rewrite fmap_insert, <- IH.
Qed.

(** A repository that was empty once, after any operations. *)
Definition fresh_repo : ReplRepo := mkReplRepo ∅ false None.
Definition run_ops (ops : list (RepoEnv * RepoOp)) : ReplRepo := foldl repo_step fresh_repo ops.

Lemma run_ops_inv ops : Forall (λ op, env_ok op.1) ops → repo_inv (run_ops ops).
Proof.
  unfold run_ops. assert (repo_inv fresh_repo) as Hi.
  { unfold repo_inv, settings_map, fresh_repo; simpl; rewrite fmap_empty. exists []. split; [apply repl_repo_empty|done]. }
  revert Hi. generalize fresh_repo. induction ops as [|op ops IH]; intros r Hi; [done|].
  intros [??]%Forall_cons. simpl. apply IH; [by apply repo_step_inv|done].
Qed.

(** C20: the replications survive a restart.  Whatever is created, updated, removed, switched,
    provisioned or notified, started or stopped, with files that can be written and clients
    that can be built: a start on the file that is left, which accepts the settings it reads
    (the source buckets exist, the conditions parse), has the same replications, and its file
    and memory agree again, so that this holds start after start.  The source, the
    destination, the entries, the prefix, the mode and the compression are the same.  The
    token is the same, but an empty one is none.  The [when] condition is what serde_json
    reads from the text it wrote: the same condition when it is less than 128 deep and has no
    fractional number, which may come back with another last digit.  Settings with such a
    condition, or none, and without an empty token come back as they were. *)
Theorem restart_keeps_replications ops env :
  Forall (λ op, env_ok op.1) ops → env_ok env →
  map_Forall (λ _ s, accepted env (reloaded s) = true) (settings_map (run_ops ops)) →
  ∃ r', load_or_create cfg env (rr_file (run_ops ops)) = (Ok tt, r') ∧ repo_inv r' ∧
    settings_map r' = reloaded <$> settings_map (run_ops ops) ∧
    (∀ name s, settings_map (run_ops ops) !! name = Some s → settings_saved s → settings_map r' !! name = Some s) ∧
    ∀ name s, settings_map (run_ops ops) !! name = Some s → ∃ s', settings_map r' !! name = Some s' ∧
      rp_src_bucket s' = rp_src_bucket s ∧ rp_dst_bucket s' = rp_dst_bucket s ∧ rp_dst_host s' = rp_dst_host s ∧
      rp_entries s' = rp_entries s ∧ rp_dst_prefix s' = rp_dst_prefix s ∧ rp_mode s' = rp_mode s ∧
      rp_compression s' = rp_compression s ∧
      rp_dst_token s' = (if decide (rp_dst_token s = Some ""%string) then None else rp_dst_token s) ∧
      rp_when s' = (rp_when s ≫= λ w, json_from_str (json_to_string w)).
Proof.
  intros Hops He Ha. pose proof (run_ops_inv ops Hops) as Hf.
  destruct (in_file_list _ _ Hf) as (l & Hd & Hl). destruct (listed _ _ Hl) as (Hnd & Hm & Hin).
  destruct (load_all env l _ He Hd) as (r' & HL & Q & HI); [|done|].
  { apply Forall_forall. intros ns Hns%Hin. by eapply Ha. }
  rewrite list_to_map_reloaded, Hm in Q. exists r'. split_and!; [done..| |]; intros name s Hs; rewrite Q, lookup_fmap, Hs; simpl.
  - intros Hsaved. by rewrite reloaded_saved.
  - exists (reloaded s). rewrite reloaded_fields. by split_and!.
Qed.

(** A replication that is refused at a start (its source bucket is not there, say) is not in
    the file any more when another one is accepted. *)
Lemma refused_replications_are_forgotten r env :
  repo_inv r → env_ok env → map_Forall (λ _ s, check_settings cfg env (reloaded s) ≠ Panic) (settings_map r) →
  (∃ name s, settings_map r !! name = Some s ∧ accepted env (reloaded s) = true) →
  ∃ r', load_or_create cfg env (rr_file r) = (Ok tt, r') ∧
    settings_map r' = filter (λ ns, accepted env ns.2 = true) (reloaded <$> settings_map r) ∧ repo_inv r'.
Proof.
  intros Hf He Hp (name & s & Hname & Hacc).
  destruct (in_file_list _ _ Hf) as (l & Hd & Hl). destruct (listed _ _ Hl) as (Hnd & Hm & Hin).
  destruct (load_spec env l _ He Hd) as (r' & HL & Q1 & Q2 & _); [|done|].
  - apply Forall_forall. intros ns Hns%Hin. by eapply Hp.
  - exists r'. split_and!; [done| |].
    + rewrite Q1, <- Hm, <- list_to_map_reloaded. unfold kept_items. apply map_eq. intros n. apply option_eq. intros s'.
      assert (NoDup (prod_map id reloaded <$> l).*1) as Hnd' by by rewrite reloaded_names.
      rewrite map_lookup_filter_Some, <- !elem_of_list_to_map by first [done|by apply NoDup_filter_fst].
      rewrite list_elem_of_filter. tauto.
    + apply Q2. intros Hnil. apply (not_elem_of_nil (name, reloaded s)). rewrite <- Hnil.
      apply list_elem_of_filter. split; [done|]. apply list_elem_of_fmap. exists (name, s). split; [done|].
      rewrite Hl. by apply elem_of_map_to_list.
Qed.

(** A start that is interrupted loses replications.  The file is written anew for each
    replication that is loaded, with what is loaded so far; a start that stops after [k] of
    the replications in the file (the process is killed) leaves a file with these [k] only,
    and the next start, which accepts all settings, has [k] replications. *)
Theorem interrupted_start_loses_replications ops env items k :
  Forall (λ op, env_ok op.1) ops → env_ok env →
  map_Forall (λ _ s, settings_saved s ∧ accepted env s = true) (settings_map (run_ops ops)) →
  decode_repl_repo (default [] (rr_file (run_ops ops))) = Some items → (0 < k ≤ length items)%nat →
  ∃ r1 r2, load_items cfg env (take k items) (mkReplRepo ∅ false (rr_file (run_ops ops))) = (Ok tt, r1) ∧
    load_or_create cfg env (rr_file r1) = (Ok tt, r2) ∧
    settings_map r2 ⊆ settings_map (run_ops ops) ∧ size (settings_map r2) = k.
Proof.
  intros Hops He Ha Hitems Hk. pose proof (run_ops_inv ops Hops) as Hf.
  destruct (in_file_list _ _ Hf) as (l & Hd & Hl). destruct (listed _ _ Hl) as (Hnd & Hm & Hin).
  rewrite Hitems in Hd. injection Hd as ->. rewrite length_fmap in Hk. rewrite <- fmap_take.
  assert (Forall (λ ns, settings_saved ns.2 ∧ accepted env ns.2 = true) (take k l)) as Hall.
  { apply Forall_take, Forall_forall. intros ns Hns%Hin. by eapply Ha. }
  assert (∀ l', l' ≡ₚ take k l → Forall (λ ns, accepted env (reloaded ns.2) = true) l' ∧ (prod_map id reloaded <$> l') = l') as Hre.
  { intros l' Hl'. rewrite <- Hl' in Hall. split.
    - eapply Forall_impl; [exact Hall|]. intros ns [??]. by rewrite reloaded_saved.
    - rewrite <- (list_fmap_id l') at 2. apply list_fmap_ext. intros i [n s] Hns. rewrite Forall_lookup in Hall.
      destruct (Hall _ _ Hns) as [Hsv _]. change ((n, reloaded s) = (n, s)). by rewrite reloaded_saved. }
  assert (NoDup (take k l).*1) as Hndk by (rewrite fmap_take; by apply sublist_NoDup with l.*1, sublist_take).
  destruct (Hre _ (reflexivity _)) as [Hacc Hid].
  destruct (load_items_spec env (take k l) (mkReplRepo ∅ false (rr_file (run_ops ops))) He) as (r1 & -> & Q1 & Q2 & _); [|done|done|].
  { eapply Forall_impl; [exact Hacc|]. intros ns ?. by apply accepted_not_panic. }
  rewrite all_kept, Hid in Q1, Q2 by done.
  unfold settings_map in Q1 at 2. simpl in Q1. rewrite fmap_empty, map_union_empty in Q1.
  assert (map_to_list (settings_map r1) ≡ₚ take k l) as Hp by (rewrite Q1; by apply map_to_list_to_map).
  destruct (in_file_list (settings_map r1) (rr_file r1)) as (l1 & Hd1 & Hl1).
  { apply Q2. intros E. apply (f_equal length) in E. rewrite length_take in E. simpl in E. lia. }
  destruct (listed _ _ Hl1) as (Hnd1 & Hm1 & Hin1). rewrite Hp in Hl1. destruct (Hre _ Hl1) as [Hacc1 Hid1].
  destruct (load_all env l1 _ He Hd1) as (r2 & HL & Q & _); [done..|]. rewrite Hid1, Hm1 in Q.
  exists r1, r2. split_and!; [done|done| |].
  - rewrite Q. apply map_subseteq_spec. intros n s. rewrite Q1. intros Hn%elem_of_list_to_map_2.
    apply elem_of_take in Hn as (i & Hi & _). by apply (Hin (n, s)), list_elem_of_lookup_2 with i.
  - rewrite Q, <- length_map_to_list, Hp, length_take. lia.
Qed.

(** An update whose task cannot be built takes the old replication out of the repository; the
    file still has it, and a restart brings it back. *)
Lemma failed_update_drops_replication env name s r io e :
  check_settings cfg env s = Ok io → (∀ s', re_client env s' = Err e) →
  create_or_update cfg env name s r = (Err e, with_replications (delete name (rr_replications r)) r).
Proof. intros Hc He. unfold create_or_update, task_new, mbind, ST_bind, st_lift, st_get, st_modify, outcome_bind. by rewrite Hc, He. Qed.
End Life.

(** ** A codec, and a repository with two replications *)

Module ToyRepl.
#[export] Instance float_eq : EqDecision spec_float.
Proof. solve_decision. Defined.
#[export] Instance float_countable : Countable spec_float.
Proof.
  refine (inj_countable' (λ f, match f with
    | S754_zero b => inl (inl b) | S754_infinity b => inl (inr b)
    | S754_nan => inr (inl ()) | S754_finite b m e => inr (inr (b, m, e)) end)
    (λ x, match x with
    | inl (inl b) => S754_zero b | inl (inr b) => S754_infinity b
    | inr (inl _) => S754_nan | inr (inr (b, m, e)) => S754_finite b m e end) _).
  by intros [].
Defined.
#[export] Instance label_eq : EqDecision ProtoLabel.
Proof. solve_decision. Defined.
#[export] Instance label_countable : Countable ProtoLabel.
Proof.
  refine (inj_countable' (λ l, (pl_name l, pl_value l)) (λ x, mkProtoLabel x.1 x.2) _). by intros [].
Defined.
#[export] Instance settings_eq : EqDecision ProtoReplicationSettings.
Proof. solve_decision. Defined.
#[export] Instance settings_countable : Countable ProtoReplicationSettings.
Proof.
  refine (inj_countable' (λ s,
    ((ps_src_bucket s, ps_dst_bucket s, ps_dst_host s, ps_dst_token s, ps_entries s, ps_include s, ps_exclude s),
     (ps_each_n s, ps_each_s s, ps_when s, ps_mode s, ps_dst_prefix s, ps_compression s)))
    (λ '((a, b, c, d, e, f, g), (h, i, j, k, l, m)), mkProtoSettings a b c d e f g h i j k l m) _).
  by intros [].
Defined.
#[export] Instance codec : ReplCodec := {|
  encode_repl_repo := λ l, 1 :: Toy.enc l;
  decode_repl_repo := λ b, match b with [] => Some [] | _ :: b' => Toy.dec b' end
|}.
#[export] Instance codec_laws : ReplCodecLaws.
Proof. split; [|done]. intros l. simpl. apply Toy.dec_enc. Qed.
#[export] Instance url : UrlParser := λ _, Some (mkUrl (Some 80) (Some "remote"%string)).
#[export] Instance byte_size : ByteSize := λ _, None.
End ToyRepl.

Section RepoWitnesses.
Import ToyJson ToyRepl.
Existing Instance std_order.
Existing Instance std_order_laws.

Definition a_cfg : RepoCfg := mkRepoCfg (mkIoConfig 8000000 85 512000 5000000 1000000 60000000 None) 8383 1000.
Definition an_env : RepoEnv := mkRepoEnv (λ _, true) (λ _, Ok tt) Saved true 0.
Definition some_settings (src : string) : ReplicationSettings :=
  mkReplicationSettings src "dst" "http://remote" (Some "token"%string) ["a"%string] "" None Enabled CompressionNone.
Definition some_ops : list (RepoEnv * RepoOp) :=
  [(an_env, RCreate "r1" (some_settings "b1")); (an_env, RCreate "r2" (some_settings "b2"));
   (an_env, RCreate "r3" (some_settings "b2")); (an_env, RStart); (an_env, RMode "r2" Paused);
   (an_env, RRemove "r3"); (an_env, RUpdate "r1" (with_token None (some_settings "b3")))].

Lemma some_ops_ok : Forall (λ op, env_ok op.1) some_ops.
Proof. repeat constructor; simpl; try done. Qed.
Lemma some_settings_map :
  settings_map (run_ops a_cfg some_ops) = {["r1"%string := some_settings "b3"; "r2"%string := with_mode Paused (some_settings "b2")]}.
Proof. by vm_compute. Qed.
Lemma some_accepted :
  map_Forall (λ _ s, settings_saved s ∧ accepted a_cfg an_env s = true) (settings_map (run_ops a_cfg some_ops)).
Proof. rewrite some_settings_map. by apply map_Forall_insert_2; [|apply map_Forall_singleton]. Qed.

(** The empty token of [r4] is none after the start. *)
Definition more_ops : list (RepoEnv * RepoOp) :=
  some_ops ++ [(an_env, RCreate "r4" (with_token (Some ""%string) (some_settings "b4")))].

Lemma restart_keeps_replications_witness :
  ∃ r', load_or_create a_cfg an_env (rr_file (run_ops a_cfg more_ops)) = (Ok tt, r') ∧
    settings_map r' = {["r1"%string := some_settings "b3"; "r2"%string := with_mode Paused (some_settings "b2");
                        "r4"%string := with_token None (some_settings "b4")]}.
Proof.
  destruct (restart_keeps_replications a_cfg more_ops an_env) as (r' & HL & _ & Hm & _).
  - apply Forall_app. split; [apply some_ops_ok|]. by repeat constructor.
  - done.
  - apply (bool_decide_eq_true_1 _). by vm_compute.
  - exists r'. split; [exact HL|]. rewrite Hm. by vm_compute.
Defined.

Lemma interrupted_start_loses_replications_witness :
  ∃ items r1 r2, load_items a_cfg an_env (take 1 items) (mkReplRepo ∅ false (rr_file (run_ops a_cfg some_ops))) = (Ok tt, r1) ∧
    load_or_create a_cfg an_env (rr_file r1) = (Ok tt, r2) ∧
    size (settings_map (run_ops a_cfg some_ops)) = 2%nat ∧ size (settings_map r2) = 1%nat.
Proof.
  destruct (decode_repl_repo (default [] (rr_file (run_ops a_cfg some_ops)))) as [items|] eqn:E; [|by vm_compute in E].
  assert (0 < 1 ≤ length items)%nat as Hk by (vm_compute in E; injection E as <-; simpl; lia).
  pose proof (interrupted_start_loses_replications a_cfg some_ops an_env items 1 some_ops_ok) as Hlost.
  specialize (Hlost (conj eq_refl (conj (λ _, eq_refl) eq_refl)) some_accepted E Hk). destruct Hlost as (r1 & r2 & H1 & H2 & _ & H3).
  exists items, r1, r2. split; [exact H1|]. split; [exact H2|]. split; [by rewrite some_settings_map|exact H3].
Defined.
End RepoWitnesses.
