(* ===== verification/Bucket.v ===== *)
(** * Bucket: the entries of a bucket, its settings and its quota
    (storage/bucket.rs, bucket/settings.rs, bucket/quotas.rs, bucket/get_entry.rs)

    A bucket uses its entries through a few operations, stated as an interface
    ([BucketEntry]) with its laws; the last part shows that the entries of this
    development satisfy them. *)

From stdpp Require Import prelude gmap strings sorting fin_map_dom pretty.
From Stdlib Require Import Ascii ZArith Lia.
From S2P Require Import Prelude Bytes Collections Proto Block BlockIndex Wal Cache BlockManager.
From S2P Require Import BlockManagerRefine Entry Text Split Pattern.
Local Open Scope string_scope.
Open Scope Z_scope.

(** ** Settings *)

Inductive QuotaType := NONE | FIFO | HARD.
#[export] Instance QuotaType_eq_dec : EqDecision QuotaType.
Proof. solve_decision. Defined.

(** [quota_type as i32] and [impl From<i32> for QuotaType]. *)
Definition quota_i32 (q : QuotaType) : Z := match q with NONE => 0 | FIFO => 1 | HARD => 2 end.
Definition quota_from (v : Z) : QuotaType :=
  if decide (v = 1) then FIFO else if decide (v = 2) then HARD else NONE.

Record BucketSettings := mkBucketSettings {
  quota_type : option QuotaType;
  quota_size : option Z;
  bs_max_block_size : option Z;
  bs_max_block_records : option Z
}.

(** The message [proto::BucketSettings], and the conversions. *)
Record BucketSettingsProto := mkBucketSettingsProto {
  bsp_quota_size : option Z; bsp_quota_type : option Z;
  bsp_max_block_records : option Z; bsp_max_block_size : option Z
}.
Definition settings_to_proto (s : BucketSettings) : BucketSettingsProto :=
  mkBucketSettingsProto (quota_size s) (quota_i32 <$> quota_type s) (bs_max_block_records s) (bs_max_block_size s).
Definition settings_from_proto (p : BucketSettingsProto) : BucketSettings :=
  mkBucketSettings (quota_from <$> bsp_quota_type p) (bsp_quota_size p) (bsp_max_block_size p) (bsp_max_block_records p).

Definition DEFAULT_MAX_RECORDS : Z := 1024.
Definition DEFAULT_MAX_BLOCK_SIZE : Z := 64000000.
Definition META_ENTRY_MAX_BLOCK_SIZE : Z := 128 * 1024.

(** [Bucket::defaults] and [Bucket::fill_settings]. *)
Definition defaults : BucketSettings :=
  mkBucketSettings (Some NONE) (Some 0) (Some DEFAULT_MAX_BLOCK_SIZE) (Some DEFAULT_MAX_RECORDS).
Definition or_else {A} (o d : option A) : option A := match o with Some a => Some a | None => d end.
Definition fill_settings (settings default : BucketSettings) : BucketSettings :=
  mkBucketSettings (or_else (quota_type settings) (quota_type default))
    (or_else (quota_size settings) (quota_size default))
    (or_else (bs_max_block_size settings) (bs_max_block_size default))
    (or_else (bs_max_block_records settings) (bs_max_block_records default)).

(** [settings_for_entry]. *)
Definition settings_for_entry (entry_name : string) (settings : BucketSettings) : EntrySettings :=
  mkEntrySettings
    (if is_system_meta_entry entry_name then META_ENTRY_MAX_BLOCK_SIZE
     else default DEFAULT_MAX_BLOCK_SIZE (bs_max_block_size settings))
    (default DEFAULT_MAX_RECORDS (bs_max_block_records settings)).

(** ** Entries *)

(** What a bucket asks of an entry: [size], [info], [try_remove_oldest_block],
    [status], [set_settings] and [mark_deleting], and building a new one. *)
Class BucketEntry (E : Type) := {
  e_size : E → outcome Z;
  e_info : E → outcome EntryInfo;
  e_remove_oldest : E → outcome () * E;
  e_deleting : E → bool;
  e_settings : E → EntrySettings;
  e_set_settings : EntrySettings → E → E;
  e_mark_deleting : E → E;
  e_build : string → EntrySettings → E
}.

(** [Entry::ensure_not_deleting]. *)
Definition ensure_entry_ready {E} `{BucketEntry E} (e : E) : outcome () :=
  if e_deleting e then Err Conflict else Ok tt.

Section Bucket.
Context {E : Type} `{BucketEntry E}.

(** [Bucket]; the entries are a [BTreeMap], here the list of its pairs in the
    order of the names. *)
Record Bucket := mkBucket {
  b_entries : list (string * E);
  b_settings : BucketSettings;
  b_provisioned : bool;
  b_deleting : bool;
  b_replica : bool
}.
Definition set_entries (es : list (string * E)) (b : Bucket) : Bucket :=
  mkBucket es (b_settings b) (b_provisioned b) (b_deleting b) (b_replica b).

Fixpoint get (name : string) (es : list (string * E)) : option E :=
  match es with
  | [] => None
  | (n, e) :: es' => if decide (n = name) then Some e else get name es'
  end.
Fixpoint put (name : string) (x : E) (es : list (string * E)) : list (string * E) :=
  match es with
  | [] => [(name, x)]
  | (n, e) :: es' =>
      match str_cmp name n with
      | Eq => (n, x) :: es'
      | Lt => (name, x) :: (n, e) :: es'
      | Gt => (n, e) :: put name x es'
      end
  end.

Definition check_mode (b : Bucket) : outcome () := if b_replica b then Err Forbidden else Ok tt.
Definition ensure_not_deleting (b : Bucket) : outcome () := if b_deleting b then Err Conflict else Ok tt.

(** [Bucket::parent_prefixes]: the paths down to the entry, itself included. *)
Fixpoint prefixes_from (current : string) (segments : list string) : list string :=
  match segments with
  | [] => []
  | segment :: rest =>
      let current := (if decide (current = EmptyString) then EmptyString else current +:+ "/") +:+ segment in
      current :: prefixes_from current rest
  end.
Definition parent_prefixes (key : string) : list string := prefixes_from EmptyString (split "/"%char key).

(** [Bucket::entry_with_descendants]. *)
Definition entry_with_descendants (entry_name candidate : string) : bool :=
  bool_decide (candidate = entry_name) ||
  match strip_prefix entry_name candidate with Some suffix => starts_with suffix "/" | None => false end.

(** [Bucket::get_entry] on a primary, where [reload] does nothing. *)
Definition get_entry (name : string) (b : Bucket) : outcome E :=
  e ← ok_or NotFound (get name (b_entries b));
  _ ← ensure_entry_ready e;
  Ok e.

(** The loop of [Bucket::get_or_create_entry] over the prefixes. *)
Fixpoint create_prefixes (key : string) (prefixes : list string) (target : option E) : ST Bucket (option E) :=
  match prefixes with
  | [] => mret target
  | prefix :: rest =>
      b ← st_get;
      e ← (match get prefix (b_entries b) with
           | Some e => mret e
           | None =>
               let e := e_build prefix (settings_for_entry prefix (b_settings b)) in
               _ ← st_modify (set_entries (put prefix e (b_entries b))); mret e
           end);
      create_prefixes key rest (if decide (prefix = key) then Some e else target)
  end.

(** [Bucket::get_or_create_entry]. *)
Definition get_or_create_entry (key : string) : ST Bucket E :=
  _ ← st_lift (check_entry_name_convention key);
  b ← st_get;
  _ ← st_lift (ensure_not_deleting b);
  match get key (b_entries b) with
  | Some e => _ ← st_lift (ensure_entry_ready e); mret e
  | None =>
      _ ← st_lift (check_mode b);
      target ← create_prefixes key (parent_prefixes key) None;
      e ← st_lift (ok_or InternalServerError target);
      _ ← st_lift (ensure_entry_ready e);
      mret e
  end.

(** [Bucket::ensure_entry_path_not_deleting]. *)
Definition ensure_entry_path_not_deleting (name : string) (b : Bucket) : outcome () :=
  foldl (λ o e, _ ← o; ensure_entry_ready e) (Ok tt)
    (omap (λ prefix, get prefix (b_entries b)) (parent_prefixes name)).

(** [Bucket::set_settings]; saving the settings file is left out. *)
Definition set_settings (settings : BucketSettings) : ST Bucket () :=
  b ← st_get;
  _ ← st_lift (ensure_not_deleting b);
  if b_provisioned b then st_throw Conflict
  else
    _ ← st_lift (foldl (λ o ne, _ ← o; ensure_entry_ready ne.2) (Ok tt) (b_entries b));
    let new_settings := fill_settings settings (b_settings b) in
    size ← st_lift (unwrap (bs_max_block_size new_settings));
    records ← st_lift (unwrap (bs_max_block_records new_settings));
    st_modify (λ b, mkBucket ((λ ne, (ne.1, e_set_settings (mkEntrySettings size records) ne.2)) <$> b_entries b)
      new_settings (b_provisioned b) (b_deleting b) (b_replica b)).

(** [Bucket::mark_deleting]; an entry that is being deleted already ends the loop
    with an error. *)
Fixpoint mark_entries (es : list (string * E)) : outcome () * list (string * E) :=
  match es with
  | [] => (Ok tt, [])
  | (n, e) :: es' =>
      if e_deleting e then (Err Conflict, es)
      else let '(o, es'') := mark_entries es' in (o, (n, e_mark_deleting e) :: es'')
  end.
Definition mark_deleting : ST Bucket () := λ b,
  if b_deleting b then (Err Conflict, b)
  else let '(o, es) := mark_entries (b_entries b) in
       (o, mkBucket es (b_settings b) (b_provisioned b) true (b_replica b)).

(** ** Quotas *)

(** The sum of the sizes of all entries. *)
Definition bucket_size (es : list (string * E)) : outcome Z :=
  foldl (λ o ne, total ← o; n ← e_size ne.2; Ok (u64_add total n)) (Ok 0) es.

(** The candidates for removal: the oldest record and the name of each entry that
    may be evicted. *)
Fixpoint fifo_candidates (es : list (string * E)) : outcome (list (Z * string)) :=
  match es with
  | [] => Ok []
  | (name, e) :: es' =>
      if is_eligible_for_fifo_eviction name then
        info ← e_info e; rest ← fifo_candidates es'; Ok ((ei_oldest_record info, name) :: rest)
      else fifo_candidates es'
  end.

Definition older (x y : Z * string) : Prop := x.1 ≤ y.1.
#[export] Instance older_dec x y : Decision (older x y).
Proof. unfold older. apply _. Defined.

(** Trying the candidates one after the other. *)
Fixpoint try_candidates (names : list string) (es : list (string * E)) : outcome bool * list (string * E) :=
  match names with
  | [] => (Ok false, es)
  | name :: names' =>
      match get name es with
      | None => (Panic, es)
      | Some e =>
          match e_remove_oldest e with
          | (Ok _, e') => (Ok true, put name e' es)
          | (Err _, e') => try_candidates names' (put name e' es)
          | (Panic, e') => (Panic, put name e' es)
          end
      end
  end.

(** The loop of [Bucket::remove_oldest_block]; a turn removes a block, so that more
    turns than there are blocks are enough. *)
Fixpoint remove_oldest_block (fuel : nat) (content_size quota : Z) (es : list (string * E)) :
    outcome () * list (string * E) :=
  match bucket_size es with
  | Ok total =>
      if decide (u64_add total content_size > quota) then
        match fuel with
        | O => (Panic, es)
        | S fuel' =>
            match fifo_candidates es with
            | Ok candidates =>
                match try_candidates (merge_sort older candidates).*2 es with
                | (Ok true, es') => remove_oldest_block fuel' content_size quota es'
                | (Ok false, es') => (Err InternalServerError, es')
                | (Err e, es') => (Err e, es')
                | (Panic, es') => (Panic, es')
                end
            | Err e => (Err e, es)
            | Panic => (Panic, es)
            end
        end
      else (Ok tt, es)
  | Err e => (Err e, es)
  | Panic => (Panic, es)
  end.

(** [Bucket::keep_quota_for]. *)
Definition keep_quota_for (fuel : nat) (content_size : Z) : ST Bucket () := λ b,
  let quota := default 0 (quota_size (b_settings b)) in
  match default NONE (quota_type (b_settings b)) with
  | NONE => (Ok tt, b)
  | FIFO =>
      let '(o, es) := remove_oldest_block fuel content_size quota (b_entries b) in (o, set_entries es b)
  | HARD =>
      (total ← bucket_size (b_entries b);
       if decide (u64_add total content_size > quota) then Err BadRequest else Ok tt, b)
  end.

(** [Bucket::check_free_disk_space]; [available] is the answer of the file system. *)
Definition check_free_disk_space (available : outcome Z) (content_size : Z) : outcome () :=
  match available with
  | Ok free => if decide (content_size > free) then Err InsufficientStorage else Ok tt
  | _ => Err InternalServerError
  end.

(** [Bucket::begin_write_impl] up to the entry that is written to. *)
Definition admit_write (fuel : nat) (available : outcome Z) (name : string) (content_size : Z) : ST Bucket E :=
  b ← st_get;
  _ ← st_lift (check_mode b);
  _ ← st_lift (check_entry_name_convention name);
  _ ← st_lift (ensure_not_deleting b);
  _ ← st_lift (ensure_entry_path_not_deleting name b);
  _ ← keep_quota_for fuel content_size;
  _ ← st_lift (check_free_disk_space available content_size);
  get_or_create_entry name.

(** ** Information *)

Record BucketInfo := mkBucketInfo {
  bi_size : Z; bi_entry_count : Z; bi_oldest_record : Z; bi_latest_record : Z; bi_entries : list EntryInfo
}.

(** The loop of [Bucket::info]. *)
Fixpoint info_loop (es : list (string * E)) (acc : BucketInfo) : outcome BucketInfo :=
  match es with
  | [] => Ok acc
  | (name, e) :: es' =>
      info ← e_info e;
      let size := u64_add (bi_size acc) (ei_size info) in
      let acc' :=
        if is_visible_in_bucket_info name then
          let counted := bool_decide (ei_record_count info > 0) in
          mkBucketInfo size (bi_entry_count acc + 1)
            (if counted then bi_oldest_record acc `min` ei_oldest_record info else bi_oldest_record acc)
            (if counted then bi_latest_record acc `max` ei_latest_record info else bi_latest_record acc)
            (bi_entries acc ++ [info])
        else mkBucketInfo size (bi_entry_count acc) (bi_oldest_record acc) (bi_latest_record acc) (bi_entries acc) in
      info_loop es' acc'
  end.
Definition bucket_info (b : Bucket) : outcome BucketInfo :=
  i ← info_loop (b_entries b) (mkBucketInfo 0 0 (two64 - 1) 0 []);
  Ok (if decide (bi_oldest_record i = two64 - 1)
      then mkBucketInfo (bi_size i) (bi_entry_count i) 0 (bi_latest_record i) (bi_entries i) else i).
End Bucket.
Arguments Bucket E : clear implicits.
