(* ===== verification/BucketQuota.v ===== *)
(** * BucketQuota: a bucket keeps its quota

    Against the interface of an entry, the FIFO quota is shown to remove the oldest
    blocks only, one at a time and only while the quota is exceeded, never those of
    system entries, and to end; the entries of Entry.v satisfy the interface. *)

From stdpp Require Import prelude gmap strings sorting fin_map_dom pretty.
From Stdlib Require Import Ascii ZArith Lia.
From S2P Require Import Prelude Bytes Collections Proto Block BlockIndex Wal Cache BlockManager.
From S2P Require Import BlockManagerRefine Entry Text Split Pattern Bucket.
Local Open Scope string_scope.
Local Open Scope list_scope.
Open Scope Z_scope.

(** What a bucket relies on: an entry is a sequence of blocks of known sizes, the
    oldest first, and removing the oldest one does just that. *)
Class BucketEntryLaws (E : Type) `{BucketEntry E} := {
  entry_ok : E → Prop;
  entry_blocks : E → list (Z * Z);
  entry_blocks_nonneg e : entry_ok e → Forall (λ ib, 0 ≤ ib.2) (entry_blocks e);
  e_size_law e : entry_ok e → e_size e = Ok (u64_wrap (foldr Z.add 0 (entry_blocks e).*2));
  e_info_law e : entry_ok e → ∃ i, e_info e = Ok i;
  e_remove_none e : entry_ok e → entry_blocks e = [] → e_remove_oldest e = (Err InternalServerError, e);
  e_remove_some e ib bs : entry_ok e → entry_blocks e = ib :: bs →
    ∃ e', e_remove_oldest e = (Ok tt, e') ∧ entry_ok e' ∧ entry_blocks e' = bs
}.

Section Quota.
Context {E : Type} `{BucketEntryLaws E}.
Implicit Types (es : list (string * E)) (e : E) (name : string) (content quota : Z).

Definition bytes e : Z := foldr Z.add 0 (entry_blocks e).*2.
Definition total es : Z := foldr Z.add 0 (bytes <$> es.*2).
Definition block_count es : nat := foldr Nat.add 0%nat ((λ e, length (entry_blocks e)) <$> es.*2).

Definition names_sorted es : Prop := StronglySorted (λ n m, str_cmp n m = Lt) es.*1.
Definition entries_good es : Prop := names_sorted es ∧ Forall entry_ok es.*2.

(** The oldest record of an entry, as its info reports it. *)
Definition reports e (t : Z) : Prop := ∃ i, e_info e = Ok i ∧ ei_oldest_record i = t.

(** One eviction: the quota is exceeded, the entry may be evicted and has a block,
    no other such entry reports an older record, and its oldest block goes. *)
Inductive evict content quota : list (string * E) → list (string * E) → Prop :=
| evict_oldest l1 name e l2 ib bs e' t :
    quota < total (l1 ++ (name, e) :: l2) + content →
    is_eligible_for_fifo_eviction name = true →
    entry_blocks e = ib :: bs → entry_blocks e' = bs →
    reports e t →
    (∀ n2 e2 t2, (n2, e2) ∈ l1 ++ (name, e) :: l2 → is_eligible_for_fifo_eviction n2 = true →
       entry_blocks e2 ≠ [] → reports e2 t2 → t ≤ t2) →
    evict content quota (l1 ++ (name, e) :: l2) (l1 ++ (name, e') :: l2).

(** ** Sums *)

Lemma bytes_nonneg e : entry_ok e → 0 ≤ bytes e.
Proof.
  intros Hok%entry_blocks_nonneg. unfold bytes. induction Hok as [|[i b] l Hb Hl IH]; [done|].
  rewrite fmap_cons. cbn [foldr fst snd] in *. lia.
Qed.

Lemma total_cons n e es : total ((n, e) :: es) = bytes e + total es.
Proof. done. Qed.

Lemma total_app es1 es2 : total (es1 ++ es2) = total es1 + total es2.
Proof.
  unfold total. rewrite !fmap_app. induction (bytes <$> es1.*2) as [|x l IH]; simpl; lia.
Qed.

Lemma total_nonneg es : Forall entry_ok es.*2 → 0 ≤ total es.
Proof.
  induction es as [|[n e] es IH]; [done|]. rewrite fmap_cons, Forall_cons. intros [He Hes].
  rewrite total_cons. pose proof (bytes_nonneg e He). specialize (IH Hes). lia.
Qed.

Lemma bucket_size_eq es : Forall entry_ok es.*2 → bucket_size es = Ok (u64_wrap (total es)).
Proof.
  intros Hok. unfold bucket_size.
  enough (∀ acc, foldl (λ o (ne : string * E), total ← o; n ← e_size ne.2; Ok (u64_add total n))
    (Ok (u64_wrap acc)) es = Ok (u64_wrap (acc + total es))) as Hall.
  { specialize (Hall 0). by rewrite Z.add_0_l in Hall. }
  induction es as [|[n e] es IH]; intros acc; simpl.
  - unfold total. simpl. by rewrite Z.add_0_r.
  - rewrite fmap_cons, Forall_cons in Hok. destruct Hok as [He Hes]. simpl in He.
    rewrite e_size_law by done. simpl. rewrite u64_add_wrap_l. fold (u64_add acc (u64_wrap (foldr Z.add 0 (entry_blocks e).*2))).
    rewrite u64_add_wrap_r. rewrite IH by done.
    rewrite total_cons. unfold bytes. f_equal. f_equal. lia.
Qed.

(** ** The map of entries *)

Lemma put_existing es name e x :
  names_sorted es → get name es = Some e →
  ∃ l1 l2, es = l1 ++ (name, e) :: l2 ∧ put name x es = l1 ++ (name, x) :: l2.
Proof.
  induction es as [|[n e0] es IH]; intros Hs Hg; [done|]. simpl in Hg.
  unfold names_sorted in Hs. rewrite fmap_cons in Hs. apply StronglySorted_inv in Hs as [Hs Hall]. case_decide as Hn.
  - subst n. injection Hg as <-. exists [], es. split; [done|]. simpl.
    by rewrite (proj2 (str_cmp_eq name name)).
  - destruct (IH Hs Hg) as (l1 & l2 & -> & Hput). exists ((n, e0) :: l1), l2. split; [done|].
    assert (str_cmp n name = Lt) as Hlt.
    { rewrite Forall_forall in Hall. apply Hall. rewrite fmap_app, fmap_cons. set_solver. }
    simpl. rewrite str_cmp_opp, Hlt. simpl. by rewrite Hput.
Qed.

Lemma get_elem es name e : names_sorted es → (name, e) ∈ es → get name es = Some e.
Proof.
  induction es as [|[n e0] es IH]; intros Hs Hin; [by apply not_elem_of_nil in Hin|].
  unfold names_sorted in Hs. rewrite fmap_cons in Hs. apply StronglySorted_inv in Hs as [Hs Hall]. simpl. apply elem_of_cons in Hin as [[= -> ->]|Hin].
  - by rewrite decide_True.
  - rewrite decide_False; [by apply IH|]. intros ->. rewrite Forall_forall in Hall.
    assert (str_cmp name name = Lt) as Hlt
      by (apply Hall, list_elem_of_fmap; by exists (name, e)).
    by rewrite (proj2 (str_cmp_eq name name)) in Hlt.
Qed.

Lemma get_in es name e : get name es = Some e → (name, e) ∈ es.
Proof.
  induction es as [|[n e0] es IH]; [done|]. simpl. case_decide; [intros [= ->]; subst; by left|].
  intros Hg. right. by apply IH.
Qed.

(** Replacing the entry of a name keeps the names. *)
Lemma good_replace l1 name e l2 e' :
  entries_good (l1 ++ (name, e) :: l2) → entry_ok e' → entries_good (l1 ++ (name, e') :: l2).
Proof.
  unfold entries_good, names_sorted. rewrite !fmap_app, !fmap_cons, !Forall_app, !Forall_cons. naive_solver.
Qed.

Lemma good_elem es name e : entries_good es → (name, e) ∈ es → entry_ok e.
Proof.
  intros [_ Hok] Hin. rewrite Forall_forall in Hok. apply Hok, list_elem_of_fmap. by exists (name, e).
Qed.

(** ** A turn of the loop *)

Lemma fifo_candidates_spec es :
  Forall entry_ok es.*2 → ∃ cs, fifo_candidates es = Ok cs ∧
    ∀ t name, (t, name) ∈ cs ↔ ∃ e, (name, e) ∈ es ∧ is_eligible_for_fifo_eviction name = true ∧ reports e t.
Proof.
  induction es as [|[n e] es IH]; intros Hok.
  { exists []. split; [done|]. intros t name. split; [by intros []%not_elem_of_nil|].
    by intros (e & []%not_elem_of_nil & _). }
  rewrite fmap_cons, Forall_cons in Hok. destruct Hok as [He Hes].
  destruct (IH Hes) as (cs & Hcs & Hin). cbn [fifo_candidates].
  destruct (is_eligible_for_fifo_eviction n) eqn:El.
  - destruct (e_info_law e He) as [i Hi]. rewrite Hi, Hcs. cbn [mbind outcome_bind].
    eexists. split; [done|]. intros t name. rewrite elem_of_cons, Hin. split.
    + intros [[= -> ->]|(e2 & ? & ? & ?)]; [exists e; split; [by left|]; split; [done|by exists i]|].
      exists e2. split; [by right|done].
    + intros (e2 & [[= -> ->]|Hin2]%elem_of_cons & Hel & Hr); [left|right; by exists e2].
      destruct Hr as (i' & Hi' & <-). by rewrite Hi in Hi'; injection Hi' as <-.
  - exists cs. split; [done|]. intros t name. rewrite Hin. split.
    + intros (e2 & ? & ? & ?). exists e2. split; [by right|done].
    + intros (e2 & [[= -> ->]|Hin2]%elem_of_cons & Hel & Hr); [congruence|]. by exists e2.
Qed.

Lemma try_candidates_spec names es :
  entries_good es → Forall (λ n, ∃ e, (n, e) ∈ es) names →
  (∃ pre name post e ib bs e', names = pre ++ name :: post ∧ (name, e) ∈ es ∧ entry_blocks e = ib :: bs ∧
     entry_ok e' ∧ entry_blocks e' = bs ∧ try_candidates names es = (Ok true, put name e' es) ∧
     ∀ n e2, n ∈ pre → (n, e2) ∈ es → entry_blocks e2 = []) ∨
  (try_candidates names es = (Ok false, es) ∧ ∀ n e2, n ∈ names → (n, e2) ∈ es → entry_blocks e2 = []).
Proof.
  intros Hgood Hn. induction Hn as [|name names [e He] Hn IH].
  { right. split; [done|]. by intros n e2 []%not_elem_of_nil. }
  pose proof (get_elem es name e (proj1 Hgood) He) as Hg. pose proof (good_elem es name e Hgood He) as Hok.
  cbn [try_candidates]. rewrite Hg. destruct (entry_blocks e) as [|ib bs] eqn:Hb.
  - rewrite (e_remove_none e Hok Hb).
    destruct (put_existing es name e e (proj1 Hgood) Hg) as (l1 & l2 & Hes & Hput). rewrite Hput, <-Hes.
    assert (∀ e2, (name, e2) ∈ es → entry_blocks e2 = []) as Hempty.
    { intros e2 He2. apply (get_elem es name e2 (proj1 Hgood)) in He2. congruence. }
    destruct IH as [(pre & n2 & post & e2 & ib & bs & e' & -> & ? & ? & ? & ? & ? & Hpre)|[? Hall]].
    + left. exists (name :: pre), n2, post, e2, ib, bs, e'. split_and!; try done.
      intros n e3 [->|Hin]%elem_of_cons; [apply Hempty|by apply Hpre].
    + right. split; [done|]. intros n e3 [->|Hin]%elem_of_cons; [apply Hempty|by apply Hall].
  - destruct (e_remove_some e ib bs Hok Hb) as (e' & Hr & Hok' & Hb'). rewrite Hr.
    left. exists [], name, names, e, ib, bs, e'. split_and!; try done. by intros n e2 []%not_elem_of_nil.
Qed.

(** A turn evicts the oldest block, or there is nothing left to evict. *)
Lemma evict_turn content quota es cs :
  entries_good es → quota < total es + content → fifo_candidates es = Ok cs →
  (∃ es', try_candidates (merge_sort older cs).*2 es = (Ok true, es') ∧ evict content quota es es' ∧ entries_good es') ∨
  (try_candidates (merge_sort older cs).*2 es = (Ok false, es) ∧
   ∀ n e, (n, e) ∈ es → is_eligible_for_fifo_eviction n = true → entry_blocks e = []).
Proof.
  intros Hgood Hq Hcs. destruct (fifo_candidates_spec es (proj2 Hgood)) as (cs' & Hcs' & Hin).
  assert (cs' = cs) as -> by congruence.
  assert (∀ t n, (t, n) ∈ merge_sort older cs ↔ (t, n) ∈ cs) as Hperm
    by (intros t n; by rewrite merge_sort_Permutation).
  assert (Sorted.StronglySorted older (merge_sort older cs)) as Hsorted.
  { apply StronglySorted_merge_sort; [intros x y z; unfold older; lia|intros x y; unfold older; lia]. }
  destruct (try_candidates_spec (merge_sort older cs).*2 es Hgood)
    as [(pre & name & post & e & ib & bs & e' & Hnames & He & Hb & Hok' & Hb' & Htry & Hpre)|[Htry Hall]].
  - apply Forall_fmap, Forall_forall. intros [t n] Htn. apply Hperm, Hin in Htn as (e & ? & _). by exists e.
  - left. eexists. split; [exact Htry|].
    pose proof (get_elem es name e (proj1 Hgood) He) as Hg.
    destruct (put_existing es name e e' (proj1 Hgood) Hg) as (l1 & l2 & Hes & ->).
    apply fmap_app_inv in Hnames as (pre' & rest & -> & Hrest & Hms).
    destruct rest as [|[t nm] post']; [done|]. rewrite fmap_cons in Hrest. injection Hrest as -> ->.
    assert ((t, nm) ∈ cs) as Hc by (apply Hperm; rewrite Hms; set_solver).
    apply Hin in Hc as (e0 & He0 & Hel & Hr0).
    assert (e0 = e) as -> by (apply (get_elem es nm e0 (proj1 Hgood)) in He0; congruence).
    split; [|subst es; by eapply good_replace]. subst es.
    apply (evict_oldest content quota l1 nm e l2 ib bs e' t); try done.
    intros n2 e2 t2 He2 Hel2 Hb2 Hr2.
    assert ((t2, n2) ∈ merge_sort older cs) as Hm by (apply Hperm, Hin; by exists e2).
    rewrite Hms in Hm. apply elem_of_app in Hm as [Hm|Hm].
    + exfalso. apply Hb2, (Hpre n2); [|done]. apply list_elem_of_fmap. by exists (t2, n2).
    + rewrite Hms in Hsorted. apply StronglySorted_app_1_r in Hsorted.
      apply StronglySorted_inv in Hsorted as [_ Hle]. rewrite Forall_forall in Hle.
      apply elem_of_cons in Hm as [[= -> ->]|Hm]; [done|]. exact (Hle (t2, n2) Hm).
  - right. split; [done|]. intros n e He Hel.
    destruct (e_info_law e (good_elem es n e Hgood He)) as [i Hi].
    apply (Hall n); [|done]. apply list_elem_of_fmap. exists (ei_oldest_record i, n). split; [done|].
    apply Hperm, Hin. exists e. split; [done|]. split; [done|]. by exists i.
Qed.

(** ** The loop *)

Lemma evict_total content quota es es' :
  evict content quota es es' → entries_good es → total es' ≤ total es ∧ block_count es = S (block_count es').
Proof.
  intros [l1 name e l2 ib bs e' t Hq Hel Hb Hb' _ _] Hgood.
  assert (entry_ok e) as Hok by (apply (good_elem _ name e Hgood); set_solver).
  rewrite !total_app, !total_cons. unfold block_count.
  rewrite !fmap_app, !fmap_cons, !foldr_app. simpl. split.
  - unfold bytes. rewrite Hb, Hb'. rewrite fmap_cons. simpl.
    pose proof (entry_blocks_nonneg e Hok) as Hn. rewrite Hb, Forall_cons in Hn. destruct Hn. lia.
  - rewrite Hb, Hb'. simpl. induction ((λ e, length (entry_blocks e)) <$> l1.*2) as [|x l IH]; simpl; lia.
Qed.

(** Nothing but evictions happened, and they ended with the quota kept or with
    nothing left to evict. *)
Definition quota_outcome content quota es (o : outcome ()) es' : Prop :=
  rtc (evict content quota) es es' ∧ entries_good es' ∧
  ((o = Ok tt ∧ total es' + content ≤ quota) ∨
   (o = Err InternalServerError ∧ quota < total es' + content ∧
    ∀ n e, (n, e) ∈ es' → is_eligible_for_fifo_eviction n = true → entry_blocks e = [])).

Lemma remove_oldest_block_spec fuel content quota es :
  entries_good es → 0 ≤ content → total es + content < two64 → (block_count es < fuel)%nat →
  quota_outcome content quota es (remove_oldest_block fuel content quota es).1
    (remove_oldest_block fuel content quota es).2.
Proof.
  intros Hgood Hc. revert es Hgood. induction fuel as [|fuel IH]; intros es Hgood Hlt Hf; [lia|].
  pose proof (total_nonneg es (proj2 Hgood)) as Hnn. cbn [remove_oldest_block].
  rewrite bucket_size_eq by apply Hgood. rewrite u64_wrap_small by (split; lia).
  rewrite u64_add_small by lia. case_decide as Hq.
  2:{ split; [constructor|]. split; [done|]. left. split; [done|]. simpl. lia. }
  destruct (fifo_candidates_spec es (proj2 Hgood)) as (cs & Hcs & _). rewrite Hcs.
  destruct (evict_turn content quota es cs Hgood ltac:(lia) Hcs) as [(es' & -> & Hev & Hgood')|[-> Hall]].
  - destruct (evict_total content quota es es' Hev Hgood) as [Ht Hn].
    destruct (IH es' Hgood' ltac:(lia) ltac:(lia)) as (Hrtc & ? & ?).
    split; [by eapply rtc_l|]. done.
  - split; [constructor|]. split; [done|]. right. split; [done|]. split; [simpl; lia|done].
Qed.

(** System entries are never touched. *)
Lemma evict_keeps_system content quota es es' :
  rtc (evict content quota) es es' →
  ∀ n e, is_eligible_for_fifo_eviction n = false → (n, e) ∈ es → (n, e) ∈ es'.
Proof.
  induction 1 as [|es1 es2 es3 Hev _ IH]; intros n e Hn Hin; [done|]. apply IH; [done|].
  destruct Hev as [l1 name e0 l2 ib bs e' t _ Hel _ _ _ _].
  apply elem_of_app in Hin as [Hin|[[= -> ->]|Hin]%elem_of_cons]; [set_solver|congruence|set_solver].
Qed.

(** C29: A bucket keeps its quota.  For a bucket of entries in any state that keep their
    contract with the bucket (the size, the description and the removal of the oldest block
    succeed), before a record of [content] bytes is written, with fewer than 2^64 bytes in
    all: without a quota the record is admitted; with a hard quota it is admitted exactly
    when it fits, and nothing changes; with a FIFO quota the loop ends, blocks are removed one
    at a time and only while the quota is exceeded, each time the oldest block of an entry
    that reports the oldest record among those that have blocks, never from a system entry,
    and it ends with the record fitting into the quota, or fails because no block is left
    that may be removed. *)
Theorem quota_is_kept (fuel : nat) (content : Z) (b : Bucket E) :
  entries_good (b_entries b) → 0 ≤ content → total (b_entries b) + content < two64 →
  (block_count (b_entries b) < fuel)%nat →
  let quota := default 0 (quota_size (b_settings b)) in
  let '(o, b') := keep_quota_for fuel content b in
  match default NONE (quota_type (b_settings b)) with
  | NONE => o = Ok tt ∧ b' = b
  | HARD => b' = b ∧ o = if decide (total (b_entries b) + content ≤ quota) then Ok tt else Err BadRequest
  | FIFO =>
      quota_outcome content quota (b_entries b) o (b_entries b') ∧ b' = set_entries (b_entries b') b ∧
      ∀ n e, is_eligible_for_fifo_eviction n = false → (n, e) ∈ b_entries b → (n, e) ∈ b_entries b'
  end.
Proof.
  intros Hgood Hc Hlt Hf quota. unfold keep_quota_for. fold quota.
  destruct (default NONE (quota_type (b_settings b))).
  - done.
  - pose proof (remove_oldest_block_spec fuel content quota (b_entries b) Hgood Hc Hlt Hf) as Hspec.
    destruct (remove_oldest_block fuel content quota (b_entries b)) as [o es']. simpl in *.
    split; [done|]. split; [done|]. apply (evict_keeps_system content quota), Hspec.
  - split; [done|]. pose proof (total_nonneg _ (proj2 Hgood)) as Hnn.
    rewrite bucket_size_eq by apply Hgood. rewrite u64_wrap_small by (split; lia).
    cbn [mbind outcome_bind]. rewrite u64_add_small by lia. repeat case_decide; [lia|done|done|lia].
Qed.
End Quota.

(** ** The entries of this development *)

(** An entry of a bucket on a primary: its configuration, its settings, whether it
    is being deleted, and its block manager. *)
Record LiveEntry := mkLive { le_cfg : Cfg; le_settings : EntrySettings; le_deleting : bool; le_bm : BM }.

Section Live.
Context `{HashIter} `{Prost} `{Crc64} `{Zstd} `{Clock}.
Context `{!HashIterLaws} `{!ProstLaws} `{!Crc64Laws}.
Context (new_manager : string → Cfg * BM).

#[export] Instance live_entry : BucketEntry LiveEntry := {|
  e_size e := Ok (size_of (hash_iter (index_info (block_index (le_bm e)))));
  e_info e := entry_info (block_index (le_bm e));
  e_remove_oldest e :=
    let '(o, s) := try_remove_oldest_block (le_cfg e) (le_bm e) in
    (o, mkLive (le_cfg e) (le_settings e) (le_deleting e) s);
  e_deleting := le_deleting;
  e_settings := le_settings;
  e_set_settings st e := mkLive (le_cfg e) st (le_deleting e) (le_bm e);
  e_mark_deleting e := mkLive (le_cfg e) (le_settings e) true (le_bm e);
  e_build name st := mkLive (new_manager name).1 st false (new_manager name).2
|}.

Definition block_bytes (ix : BlockIndex) (id : Z) : Z :=
  from_option (λ e, be_size e + be_metadata_size e) 0 (index_info ix !! id).

Definition live_blocks (e : LiveEntry) : list (Z * Z) :=
  (λ id, (id, block_bytes (block_index (le_bm e)) id)) <$> bt_elements (index (block_index (le_bm e))).

(** The entry represents some map of blocks. *)
Definition live_ok (e : LiveEntry) : Prop :=
  replica (le_cfg e) = false ∧ ∃ a, rep (le_cfg e) [] (le_bm e) a.

Lemma entry_info_total s a cfg : rep cfg [] s a → ∃ i, entry_info (block_index s) = Ok i.
Proof.
  intros Hrep. unfold entry_info.
  assert (∀ ids id e, first_nonempty (block_index s) ids = Some (id, e) →
    index_info (block_index s) !! id = Some e) as Hin.
  { intros ids id e. induction ids as [|i ids IH]; simpl; [done|]. unfold get_block.
    destruct (index_info (block_index s) !! i) as [ei|] eqn:Ei; [|done]. case_decide; [|done]. congruence. }
  destruct (first_nonempty (block_index s) (reverse _)) as [[id e]|] eqn:E; [|by eexists].
  apply Hin in E. destruct (rep_entries _ _ _ _ Hrep id e E) as ([ts Hts] & _). rewrite Hts. by eexists.
Qed.

Lemma live_blocks_nonneg e : live_ok e → Forall (λ ib, 0 ≤ ib.2) (live_blocks e).
Proof.
  intros (_ & a & Hrep). apply Forall_fmap, Forall_forall. intros id _. simpl. unfold block_bytes.
  destruct (index_info (block_index (le_bm e)) !! id) as [be|] eqn:Hb; simpl; [|done].
  destruct (rep_entries _ _ _ _ Hrep id be Hb) as (_ & _ & _ & Hv). unfold entry_valid, is_u64 in Hv. lia.
Qed.

Lemma live_size e : live_ok e → e_size e = Ok (u64_wrap (foldr Z.add 0 (live_blocks e).*2)).
Proof.
  intros (_ & a & Hrep). simpl. f_equal.
  rewrite (size_of_any_order (block_index (le_bm e))) by apply hash_iter_perm. f_equal.
  unfold live_blocks. rewrite <-list_fmap_compose. symmetry.
  apply (map_sum_keys (λ e, be_size e + be_metadata_size e)); [apply bt_elements_nodup|].
  intros k. rewrite elem_of_bt_elements, (ix_dom _ (rep_index _ _ _ _ Hrep)). apply elem_of_dom.
Qed.

Lemma live_info e : live_ok e → ∃ i, e_info e = Ok i.
Proof. intros (_ & a & Hrep). by eapply entry_info_total. Qed.

Lemma live_remove_none e :
  live_ok e → live_blocks e = [] → e_remove_oldest e = (Err InternalServerError, e).
Proof.
  intros _ Hb. simpl. unfold try_remove_oldest_block.
  rewrite (st_bind_ok _ _ (le_bm e) (le_bm e) (le_bm e)) by done.
  apply fmap_nil_inv in Hb. unfold bt_first. rewrite Hb. simpl. by destruct e.
Qed.

Lemma live_remove_some e ib bs :
  live_ok e → live_blocks e = ib :: bs →
  ∃ e', e_remove_oldest e = (Ok tt, e') ∧ live_ok e' ∧ live_blocks e' = bs.
Proof.
  intros (Hr & a & Hrep) Hb. unfold live_blocks in Hb.
  destruct (bt_elements (index (block_index (le_bm e)))) as [|id ids] eqn:Eids; [done|].
  rewrite fmap_cons in Hb. injection Hb as <- <-.
  destruct (remove_block_rep (le_cfg e) Hr [] (le_bm e) a id Hrep) as (s' & E & Hrep' & (_ & Hix & _) & _); [done|].
  exists (mkLive (le_cfg e) (le_settings e) (le_deleting e) s'). split_and!.
  - simpl. unfold try_remove_oldest_block. rewrite (st_bind_ok _ _ (le_bm e) (le_bm e) (le_bm e)) by done.
    unfold bt_first. rewrite Eids. simpl. by rewrite E.
  - split; [exact Hr|]. by exists (delete id a).
  - unfold live_blocks. simpl. rewrite Hix. simpl. rewrite (bt_elements_tail _ id ids Eids).
    apply list_fmap_ext. intros i j Hj%list_elem_of_lookup_2. f_equal. unfold block_bytes. simpl.
    rewrite lookup_delete_ne; [done|]. intros <-.
    pose proof (bt_elements_nodup (index (block_index (le_bm e)))) as Hn. rewrite Eids in Hn.
    by apply NoDup_cons in Hn as [? _].
Qed.

#[export] Instance live_entry_laws : BucketEntryLaws LiveEntry := {|
  entry_ok := live_ok; entry_blocks := live_blocks; entry_blocks_nonneg := live_blocks_nonneg;
  e_size_law := live_size; e_info_law := live_info; e_remove_none := live_remove_none;
  e_remove_some := live_remove_some
|}.
End Live.

(** ** Witness *)
Section Witness.
Existing Instance std_order.
Existing Instance std_order_laws.
Existing Instance Toy.prost.
Existing Instance Toy.prost_laws.
Existing Instance Toy.digest.
Existing Instance Toy.digest_laws.
Existing Instance demo_zstd.
Existing Instance demo_clock.

Definition demo_manager (_ : string) : Cfg * BM := (demo_cfg, bm_build ∅ index_new ∅ demo_rc ∅ 0).
#[local] Instance demo_entry : BucketEntry LiveEntry := live_entry demo_manager.
#[local] Instance demo_entry_laws : BucketEntryLaws LiveEntry := live_entry_laws demo_manager.

(** An entry with two blocks, in a bucket whose quota is too small for the record. *)
Definition demo_live : LiveEntry :=
  mkLive demo_cfg (mkEntrySettings 64 8) false
    (run_all demo_cfg demo_starts (bm_build ∅ index_new ∅ demo_rc ∅ 0)).2.
Definition demo_bucket : Bucket LiveEntry :=
  mkBucket [("cam", demo_live)] (mkBucketSettings (Some FIFO) (Some 3) None None) false false false.

Lemma demo_bucket_good : entries_good (b_entries demo_bucket).
Proof.
  split; [by repeat constructor|]. apply Forall_singleton. split; [done|]. eexists.
  apply (run_all_sim demo_cfg eq_refl demo_starts _ ∅); [|exact demo_starts_ok].
  apply rep_init; [exact demo_rc_foreign|done].
Qed.

Lemma quota_is_kept_witness :
  (length (live_blocks demo_live) = 2)%nat ∧
  let '(o, b') := keep_quota_for 3 5 demo_bucket in
  quota_outcome 5 3 (b_entries demo_bucket) o (b_entries b').
Proof.
  split; [by vm_compute|].
  assert (total (b_entries demo_bucket) = 0) as Ht by by vm_compute.
  assert (block_count (b_entries demo_bucket) = 2%nat) as Hn by by vm_compute.
  pose proof (quota_is_kept 3 5 demo_bucket demo_bucket_good ltac:(lia)
    ltac:(rewrite Ht; u64_lia) ltac:(rewrite Hn; lia)) as Hq.
  destruct (keep_quota_for 3 5 demo_bucket) as [o b']. cbn in Hq. apply Hq.
Defined.
End Witness.
