(* ===== verification/Engine.v ===== *)
(** * Engine: the buckets of the storage engine (storage/engine.rs, bucket/builder.rs,
    bucket/settings.rs)

    The engine has the buckets by name, a directory for each, and in the directory the file
    with the settings of the bucket.  At a start it restores a bucket from each directory.
    The directory named with the empty name is the data directory itself.  What the entries
    keep in the directory of their bucket, and how they are restored, is an interface here
    ([BucketData]); [FolderLife], [EntryLoader] and [Durability] are about them. *)

From stdpp Require Import prelude gmap strings sorting.
From Stdlib Require Import Ascii ZArith Lia.
From S2P Require Import Prelude Text Split Pattern Collections Entry Bucket.
Local Open Scope string_scope.
Open Scope Z_scope.

(** ** What the engine uses *)

(** The encoding of [proto::BucketSettings] by prost. *)
Class SettingsCodec := {
  encode_settings : BucketSettingsProto → list Z;
  decode_settings : list Z → option BucketSettingsProto
}.
Class SettingsCodecLaws `{SettingsCodec} : Prop := {
  settings_codec_roundtrip p : decode_settings (encode_settings p) = Some p;
  settings_codec_empty : decode_settings [] = Some (mkBucketSettingsProto None None None None)
}.

(** What is in the directory of a bucket besides its settings. *)
Class BucketData (E D : Type) := {
  no_data : D;
  restore_entries : BucketSettings → D → list (string * E);
  flush_entries : list (string * E) → D → D
}.

(** How the writing of a settings file ends. *)
Inductive SettingsSave : Set := SettingsSaved | SettingsNotOpened | SettingsTorn (n : nat).

(** What a call meets: directories can be created, removed and renamed or not; the settings
    file; whether the blocks of the entries can be removed. *)
Record EngineEnv := mkEngineEnv { ee_dirs : bool; ee_save : SettingsSave; ee_entries : bool }.

Record EngineCfg := mkEngineCfg {
  ec_replica : bool;
  ec_bucket_defaults : BucketSettings;
  ec_max_storage_size : option Z
}.

(** [check_name_convention]: the regular expression [^[A-Za-z0-9_-]*$]. *)
Definition bucket_char (c : ascii) : bool := name_char c && negb (bool_decide (c = "/"%char)).
Definition check_name_convention (name : string) : outcome () :=
  if all_chars bucket_char name then Ok tt else Err UnprocessableEntity.

Record DiskBucket (D : Type) := mkDiskBucket { db_settings : option (list Z); db_data : D }.
Arguments mkDiskBucket {D} _ _.
Arguments db_settings {D} _.
Arguments db_data {D} _.

Section Engine.
Context {E D : Type} `{BucketEntry E} `{BucketData E D} `{SettingsCodec}.
Context (cfg : EngineCfg).

Record Engine := mkEngine { en_disk : gmap string (DiskBucket D); en_buckets : gmap string (Bucket E) }.
Definition with_disk (d : gmap string (DiskBucket D)) (e : Engine) : Engine := mkEngine d (en_buckets e).
Definition with_buckets (m : gmap string (Bucket E)) (e : Engine) : Engine := mkEngine (en_disk e) m.
Definition put_bucket (name : string) (b : Bucket E) (e : Engine) : Engine := with_buckets (<[name := b]> (en_buckets e)) e.

Definition engine_check_mode : outcome () := if ec_replica cfg then Err Forbidden else Ok tt.

(** ** Directories and files *)

(** [FolderKeeper::add_folder], [remove_folder], [rename_folder] for the directory of a
    bucket; the list of folders, which is built anew at a start, is left out. *)
Definition add_bucket_folder (env : EngineEnv) (name : string) : ST Engine () :=
  if negb (ee_dirs env) then st_throw InternalServerError
  else st_modify (λ e, match en_disk e !! name with
                       | Some _ => e
                       | None => with_disk (<[name := mkDiskBucket None no_data]> (en_disk e)) e
                       end).
Definition remove_bucket_folder (env : EngineEnv) (name : string) : ST Engine () :=
  if negb (ee_dirs env) then st_throw InternalServerError
  else st_modify (λ e, with_disk (if decide (name = EmptyString) then ∅ else delete name (en_disk e)) e).
Definition rename_bucket_folder (env : EngineEnv) (old_name new_name : string) : ST Engine () :=
  e ← st_get;
  match en_disk e !! old_name with
  | Some d =>
      if negb (ee_dirs env) || bool_decide (old_name = EmptyString ∨ new_name = EmptyString)
         || bool_decide (is_Some (en_disk e !! new_name) ∧ new_name ≠ old_name)
      then st_throw InternalServerError
      else st_modify (with_disk (<[new_name := d]> (delete old_name (en_disk e))))
  | None => st_throw InternalServerError
  end.

(** [Bucket::save_settings]: the file is emptied, written and synced. *)
Definition save_settings (env : EngineEnv) (name : string) (s : BucketSettings) : ST Engine () := λ e,
  let bytes := encode_settings (settings_to_proto s) in
  let put b := with_disk (alter (λ d, mkDiskBucket (Some b) (db_data d)) name (en_disk e)) e in
  match ee_save env with
  | SettingsSaved => (Ok tt, put bytes)
  | SettingsNotOpened => (Err InternalServerError, e)
  | SettingsTorn n => (Err InternalServerError, put (take n bytes))
  end.

(** ** Buckets *)

(** [BucketBuilder::build] and [restore]. *)
Definition bucket_build (env : EngineEnv) (name : string) (settings : BucketSettings) : ST Engine (Bucket E) :=
  let settings := fill_settings settings (ec_bucket_defaults cfg) in
  _ ← save_settings env name settings;
  mret (mkBucket [] settings false false (ec_replica cfg)).
Definition bucket_restore (d : DiskBucket D) : outcome (Bucket E) :=
  match db_settings d with
  | None => Err InternalServerError
  | Some bytes =>
      match decode_settings bytes with
      | None => Err InternalServerError
      | Some p =>
          let settings := fill_settings (settings_from_proto p) defaults in
          Ok (mkBucket (restore_entries settings (db_data d)) settings false false (ec_replica cfg))
      end
  end.

(** [create_bucket], [create_system_bucket]. *)
Definition create_bucket_internal (env : EngineEnv) (name : string) (settings : BucketSettings) : ST Engine () :=
  e ← st_get;
  match en_buckets e !! name with
  | Some _ => st_throw Conflict
  | None =>
      _ ← add_bucket_folder env name;
      b ← bucket_build env name settings;
      st_modify (put_bucket name b)
  end.
Definition create_bucket (env : EngineEnv) (name : string) (settings : BucketSettings) : ST Engine () :=
  _ ← st_lift engine_check_mode;
  _ ← st_lift (check_name_convention name);
  create_bucket_internal env name settings.
Definition create_system_bucket (env : EngineEnv) (name : string) (settings : BucketSettings) : ST Engine () :=
  _ ← st_lift engine_check_mode;
  create_bucket_internal env name settings.

(** [get_bucket]. *)
Definition get_bucket (name : string) (e : Engine) : outcome (Bucket E) :=
  match en_buckets e !! name with
  | Some b => _ ← ensure_not_deleting b; Ok b
  | None => Err NotFound
  end.

(** An operation of a bucket. *)
Definition in_bucket {A} (name : string) (b : Bucket E) (m : ST (Bucket E) A) : ST Engine A := λ e,
  let '(r, b') := m b in (r, put_bucket name b' e).

(** [remove_bucket], and the task that it starts: the entries, the directory, the bucket. *)
Definition remove_bucket (name : string) : ST Engine () :=
  _ ← st_lift engine_check_mode;
  e ← st_get;
  b ← st_lift (ok_or NotFound (en_buckets e !! name));
  if b_provisioned b then st_throw Conflict
  else in_bucket name b mark_deleting.
Definition remove_task (env : EngineEnv) (name : string) : ST Engine () :=
  e ← st_get;
  match en_buckets e !! name with
  | Some b =>
      if negb (ee_entries env) then st_throw InternalServerError
      else
        _ ← st_modify (put_bucket name (set_entries [] b));
        _ ← remove_bucket_folder env name;
        st_modify (λ e, with_buckets (delete name (en_buckets e)) e)
  | None => mret tt
  end.

(** [Bucket::sync_fs] and [compact] save the settings and let every entry write what it has;
    what an entry writes belongs to the interface. *)
Definition bucket_maintenance (env : EngineEnv) (name : string) (b : Bucket E) : ST Engine () :=
  if ec_replica cfg then mret tt
  else
    _ ← save_settings env name (b_settings b);
    st_modify (λ e, with_disk (alter (λ d, mkDiskBucket (db_settings d) (flush_entries (b_entries b) (db_data d))) name (en_disk e)) e).

(** [rename_bucket]. *)
Definition rename_bucket (env : EngineEnv) (old_name new_name : string) : ST Engine () :=
  _ ← st_lift engine_check_mode;
  _ ← st_lift (check_name_convention new_name);
  e ← st_get;
  match en_buckets e !! new_name with
  | Some _ => st_throw Conflict
  | None =>
      b ← st_lift (ok_or NotFound (en_buckets e !! old_name));
      if b_provisioned b then st_throw Conflict
      else
        _ ← st_lift (ensure_not_deleting b);
        _ ← bucket_maintenance env old_name b;
        _ ← rename_bucket_folder env old_name new_name;
        _ ← st_modify (λ e, with_buckets (delete old_name (en_buckets e)) e);
        e ← st_get;
        d ← st_lift (ok_or InternalServerError (en_disk e !! new_name));
        b ← st_lift (bucket_restore d);
        st_modify (put_bucket new_name b)
  end.

(** [Bucket::set_settings], which saves the settings, and [set_provisioned]. *)
Definition set_bucket_settings (env : EngineEnv) (name : string) (settings : BucketSettings) : ST Engine () :=
  e ← st_get;
  b ← st_lift (get_bucket name e);
  _ ← in_bucket name b (set_settings settings);
  e ← st_get;
  b ← st_lift (ok_or NotFound (en_buckets e !! name));
  save_settings env name (b_settings b).
Definition set_provisioned (name : string) (provisioned : bool) : ST Engine () :=
  e ← st_get;
  b ← st_lift (ok_or NotFound (en_buckets e !! name));
  st_modify (put_bucket name (mkBucket (b_entries b) (b_settings b) provisioned (b_deleting b) (b_replica b))).

(** [run_bucket_maintenance]: a bucket that fails is logged. *)
Definition maintenance_of (env : string → EngineEnv) (e : Engine) (nb : string * Bucket E) : Engine :=
  (bucket_maintenance (env nb.1) nb.1 nb.2 e).2.
Definition run_bucket_maintenance (env : string → EngineEnv) (e : Engine) : Engine :=
  if ec_replica cfg then e else foldl (maintenance_of env) e (map_to_list (en_buckets e)).

(** ** Usage *)

(** [total_usage] and [ensure_storage_limit]; the buckets in the order of their names. *)
Definition name_le (a b : string * Bucket E) : Prop := str_le a.1 b.1.
#[global] Instance name_le_dec a b : Decision (name_le a b).
Proof. unfold name_le, str_le. apply _. Defined.
Definition sorted_buckets (e : Engine) : list (Bucket E) := (merge_sort name_le (map_to_list (en_buckets e))).*2.

Fixpoint bucket_infos (bs : list (Bucket E)) : outcome (list BucketInfo) :=
  match bs with
  | [] => Ok []
  | b :: rest => i ← bucket_info b; infos ← bucket_infos rest; Ok (i :: infos)
  end.
Definition total_usage (e : Engine) : outcome Z :=
  infos ← bucket_infos (sorted_buckets e);
  Ok (foldl (λ usage i, u64_add usage (bi_size i)) 0 infos).
Definition ensure_storage_limit (incoming : Z) (e : Engine) : outcome () :=
  match ec_max_storage_size cfg with
  | None => Ok tt
  | Some limit =>
      usage ← total_usage e;
      if decide (Z.min (two64 - 1) (usage + incoming) > limit) then Err InternalServerError else Ok tt
  end.

(** [begin_write], up to the entry. *)
Definition engine_admit_write (fuel : nat) (available : outcome Z) (bucket entry : string) (content_size : Z) : ST Engine E :=
  e ← st_get;
  _ ← st_lift (ensure_storage_limit content_size e);
  b ← st_lift (get_bucket bucket e);
  in_bucket bucket b (admit_write fuel available entry content_size).

(** [info]: the totals of the server. *)
Record ServerTotals := mkServerTotals { st_usage : Z; st_oldest_record : Z; st_latest_record : Z; st_bucket_count : Z }.
Definition add_info (t : ServerTotals) (i : BucketInfo) : ServerTotals :=
  let counted := bool_decide (bi_oldest_record i ≠ two64 - 1) in
  mkServerTotals (u64_add (st_usage t) (bi_size i))
    (if counted then st_oldest_record t `min` bi_oldest_record i else st_oldest_record t)
    (if counted then st_latest_record t `max` bi_latest_record i else st_latest_record t)
    (st_bucket_count t).
Definition server_info (e : Engine) : outcome ServerTotals :=
  infos ← bucket_infos (sorted_buckets e);
  Ok (foldl add_info (mkServerTotals 0 (two64 - 1) 0 (Z.of_nat (size (en_buckets e)))) infos).

(** ** The start *)

(** The folders below the data directory that are no hidden ones. *)
Definition is_bucket_folder (name : string) : bool := bool_decide (name ≠ EmptyString) && negb (starts_with name ".").
Fixpoint restore_buckets (l : list (string * DiskBucket D)) (m : gmap string (Bucket E)) : outcome (gmap string (Bucket E)) :=
  match l with
  | [] => Ok m
  | (name, d) :: rest =>
      match bucket_restore d with
      | Ok b => restore_buckets rest (<[name := b]> m)
      | _ => Panic
      end
  end.
(** [StorageEngineBuilder::build]. *)
Definition engine_build (disk : gmap string (DiskBucket D)) : outcome Engine :=
  let disk := match disk !! EmptyString with Some _ => disk | None => <[EmptyString := mkDiskBucket None no_data]> disk end in
  m ← restore_buckets (List.filter (λ nd, is_bucket_folder nd.1) (map_to_list disk)) ∅;
  Ok (mkEngine disk m).

(** [reload_replica]: buckets without a directory go, new ones that can be restored come. *)
Definition reload_replica (disk : gmap string (DiskBucket D)) (e : Engine) : Engine :=
  let listed := filter (λ nd, is_bucket_folder nd.1 = true ∧ is_Some (db_settings nd.2)) disk in
  let old := filter (λ nb, is_Some (listed !! nb.1)) (en_buckets e) in
  let new := omap (λ d, match bucket_restore d with Ok b => Some b | _ => None end)
               (filter (λ nd, en_buckets e !! nd.1 = None) listed) in
  mkEngine disk (new ∪ old).
End Engine.
Arguments Engine E D : clear implicits.
