(* ===== verification/EngineLife.v ===== *)
(** * EngineLife: the buckets over the life of the storage engine
    (storage/engine.rs, bucket/builder.rs, bucket/settings.rs)

    The directories and their settings files are in step with the buckets after every call,
    so that a start finds the buckets with their settings; what a call leaves behind that is
    interrupted; and the totals that the server reports. *)

From stdpp Require Import prelude gmap strings sorting.
From Stdlib Require Import Ascii ZArith Lia.
From S2P Require Import Prelude Text Split Pattern Collections Proto Entry Bucket Engine.
Local Open Scope string_scope.
Open Scope Z_scope.

(** ** Settings *)

(** All settings are there, as they are after [fill_settings]. *)
Definition complete (s : BucketSettings) : Prop :=
  is_Some (quota_type s) ∧ is_Some (quota_size s) ∧ is_Some (bs_max_block_size s) ∧ is_Some (bs_max_block_records s).

Lemma or_else_some {A} (o d : option A) : is_Some o → or_else o d = o.
Proof. by intros [? ->]. Qed.
Lemma or_else_is_Some {A} (o d : option A) : is_Some d → is_Some (or_else o d).
Proof. destruct o; eauto. Qed.

Lemma fill_complete s d : complete s → fill_settings s d = s.
Proof. intros (H1 & H2 & H3 & H4). unfold fill_settings. rewrite !or_else_some by done. by destruct s. Qed.
Lemma complete_fill s d : complete d → complete (fill_settings s d).
Proof. intros (H1 & H2 & H3 & H4). split_and!; by apply or_else_is_Some. Qed.
Lemma settings_proto_roundtrip s : settings_from_proto (settings_to_proto s) = s.
Proof. destruct s as [[[]|] a b c]; reflexivity. Qed.

Lemma sublist_bfilter {A} (f : A → bool) l : List.filter f l `sublist_of` l.
Proof. induction l as [|x l IH]; simpl; [done|]. by destruct (f x); constructor. Qed.

Section Life.
Context {E D : Type} `{BucketEntry E} `{BucketData E D} `{SettingsCodecLaws}.
Context (cfg : EngineCfg).

(** ** The invariant *)

(** A settings file with these settings. *)
Definition has_settings (s : BucketSettings) (d : DiskBucket D) : Prop :=
  ∃ bytes, db_settings d = Some bytes ∧ decode_settings bytes = Some (settings_to_proto s).

Record engine_inv (e : Engine E D) : Prop := {
  ei_bucket name b : en_buckets e !! name = Some b →
    is_bucket_folder name = true ∧ complete (b_settings b) ∧ ∃ d, en_disk e !! name = Some d ∧ has_settings (b_settings b) d;
  ei_folder name d : en_disk e !! name = Some d → is_bucket_folder name = true → is_Some (en_buckets e !! name)
}.

(** *** Buckets keep their settings *)

Definition same_settings (b b' : Bucket E) : Prop := b_settings b' = b_settings b.

Lemma create_prefixes_settings key ps t b : same_settings b (create_prefixes key ps t b).2.
Proof.
  revert t b. induction ps as [|p ps IH]; intros t b; [done|]. cbn [create_prefixes].
  rewrite (st_bind_ok _ _ _ b b) by done. destruct (get p (b_entries b)) as [e|].
  - rewrite (st_bind_ok _ _ _ e b) by done. apply IH.
  - set (x := e_build p (settings_for_entry p (b_settings b))). set (b1 := set_entries (put p x (b_entries b)) b).
    rewrite (st_bind_ok _ _ _ x b1) by done.
    unfold same_settings. rewrite (IH _ b1). done.
Qed.

Lemma get_or_create_settings key b : same_settings b (get_or_create_entry key b).2.
Proof.
  unfold get_or_create_entry, st_lift, mbind, ST_bind, st_get, mret, ST_ret.
  destruct (check_entry_name_convention key); [|done..]. destruct (ensure_not_deleting b); [|done..].
  destruct (get key (b_entries b)) as [e|]; [by destruct (ensure_entry_ready e)|].
  destruct (check_mode b); [|done..]. pose proof (create_prefixes_settings key (parent_prefixes key) None b) as Hc.
  destruct (create_prefixes key (parent_prefixes key) None b) as [[t|?|] b']; simpl in *; [|done..].
  destruct (ok_or InternalServerError t) as [e|?|]; [|done..]. by destruct (ensure_entry_ready e).
Qed.

Lemma admit_write_settings fuel available name n b : same_settings b (admit_write fuel available name n b).2.
Proof.
  unfold admit_write, st_lift, mbind, ST_bind, st_get, mret, ST_ret.
  destruct (check_mode b); [|done..]. destruct (check_entry_name_convention name); [|done..].
  destruct (ensure_not_deleting b); [|done..]. destruct (ensure_entry_path_not_deleting name b); [|done..].
  assert (same_settings b (keep_quota_for fuel n b).2) as Hk.
  { unfold keep_quota_for. destruct (default NONE _); [done| |done]. by destruct (remove_oldest_block _ _ _ _). }
  destruct (keep_quota_for fuel n b) as [[?|?|] b']; simpl in *; [|done..]. destruct (check_free_disk_space available n); [|done..].
  unfold same_settings. by rewrite get_or_create_settings.
Qed.

Lemma mark_deleting_settings b : same_settings b (mark_deleting b).2.
Proof. unfold mark_deleting. destruct (b_deleting b); [done|]. by destruct (mark_entries (b_entries b)). Qed.

Lemma set_settings_complete s b :
  complete (b_settings b) → complete (b_settings (set_settings s b).2) ∧
  (∀ u, (set_settings s b).1 = Ok u → b_settings (set_settings s b).2 = fill_settings s (b_settings b)).
Proof.
  intros Hc. pose proof (complete_fill s _ Hc) as (_ & _ & [z Hz] & [r Hr]).
  unfold set_settings, st_lift, mbind, ST_bind, st_get, st_throw, st_modify.
  destruct (ensure_not_deleting b); [|done..]. destruct (b_provisioned b); [done|].
  destruct (foldl _ _ _); [|done..]. cbv zeta. rewrite Hz, Hr. simpl. split; [|done]. by apply complete_fill.
Qed.

Lemma set_settings_refused s b r b' : set_settings s b = (r, b') → r ≠ Ok tt → b' = b.
Proof.
  unfold set_settings, st_lift, mbind, ST_bind, st_get, st_throw, st_modify.
  destruct (ensure_not_deleting b); [|by intros [= <- <-]..]. destruct (b_provisioned b); [by intros [= <- <-]|].
  destruct (foldl _ _ _); [|by intros [= <- <-]..]. cbv zeta.
  destruct (unwrap (bs_max_block_size _)); [|by intros [= <- <-]..].
  destruct (unwrap (bs_max_block_records _)); [|by intros [= <- <-]..]. by intros [= <- <-].
Qed.

(** *** Files *)

Lemma decode_saved s : decode_settings (encode_settings (settings_to_proto s)) = Some (settings_to_proto s).
Proof. apply settings_codec_roundtrip. Qed.

(** A settings file is written. *)
Definition saved (name : string) (s : BucketSettings) (e : Engine E D) : Engine E D :=
  with_disk (alter (λ d, mkDiskBucket (Some (encode_settings (settings_to_proto s))) (db_data d)) name (en_disk e)) e.

Lemma save_settings_ok env name s e : ee_save env = SettingsSaved → save_settings env name s e = (Ok tt, saved name s e).
Proof. intros Hs. unfold save_settings. by rewrite Hs. Qed.

(** The disk and the buckets are in step but for the settings file of one bucket. *)
Definition inv_but (name : string) (e : Engine E D) : Prop :=
  (∀ n b, en_buckets e !! n = Some b → is_bucket_folder n = true ∧ complete (b_settings b) ∧
     ∃ d, en_disk e !! n = Some d ∧ (n ≠ name → has_settings (b_settings b) d)) ∧
  (∀ n d, en_disk e !! n = Some d → is_bucket_folder n = true → is_Some (en_buckets e !! n)).

Lemma inv_inv_but name e : engine_inv e → inv_but name e.
Proof.
  intros [I1 I2]. split; [|done]. intros n b Hb. destruct (I1 n b Hb) as (? & ? & d & ? & ?). split_and!; [done..|]. by exists d.
Qed.

Lemma engine_saved_inv name s e :
  inv_but name e → (∀ b, en_buckets e !! name = Some b → b_settings b = s) → engine_inv (saved name s e).
Proof.
  intros [I1 I2] Hs. split.
  - intros n b Hb. simpl in *. destruct (I1 n b Hb) as (Hfo & Hc & d & Hd & Hset). split_and!; [done..|].
    destruct (decide (n = name)) as [->|Hne]; [|exists d; rewrite lookup_alter_ne by done; eauto].
    eexists. rewrite lookup_alter_eq, Hd. split; [done|]. eexists. split; [done|]. rewrite (Hs b Hb). apply decode_saved.
  - intros n d. simpl. intros Hd Hfo. destruct (decide (n = name)) as [->|Hne]; [|rewrite lookup_alter_ne in Hd by done; by eapply I2].
    rewrite lookup_alter_eq in Hd. destruct (en_disk e !! name) as [d0|] eqn:E0; [|done]. by eapply I2.
Qed.

(** A bucket changes; its settings stay. *)
Lemma put_same_inv name b b' e :
  engine_inv e → en_buckets e !! name = Some b → same_settings b b' → engine_inv (put_bucket name b' e).
Proof.
  intros [I1 I2] Hb Hs. split.
  - intros n b0. simpl. intros [[<- <-]|[Hne Hb0]]%lookup_insert_Some; [|by apply I1]. rewrite Hs. by apply I1.
  - intros n d Hd Hfo. simpl in *. apply lookup_insert_is_Some'. right. by eapply I2.
Qed.

Lemma in_bucket_inv {A} name b (m : ST (Bucket E) A) e :
  engine_inv e → en_buckets e !! name = Some b → same_settings b (m b).2 → engine_inv (in_bucket name b m e).2.
Proof. intros HI Hb Hs. unfold in_bucket. destruct (m b) as [r b'] eqn:Em. simpl in *. by eapply put_same_inv. Qed.

(** The data of the entries may change. *)
Lemma engine_flushed_inv name f e :
  engine_inv e → engine_inv (with_disk (alter (λ d, mkDiskBucket (db_settings d) (f (db_data d))) name (en_disk e)) e).
Proof.
  intros [I1 I2]. split.
  - intros n b Hb. simpl in *. destruct (I1 n b Hb) as (Hfo & Hc & d & Hd & Hset). split_and!; [done..|].
    destruct (decide (n = name)) as [->|Hne]; [|exists d; by rewrite lookup_alter_ne].
    eexists. rewrite lookup_alter_eq, Hd. split; [done|]. done.
  - intros n d. simpl. intros Hd Hfo. destruct (decide (n = name)) as [->|Hne]; [|rewrite lookup_alter_ne in Hd by done; by eapply I2].
    rewrite lookup_alter_eq in Hd. destruct (en_disk e !! name) as [d0|] eqn:E0; [|done]. by eapply I2.
Qed.

(** *** The calls *)

Lemma create_internal_inv env name s e :
  complete (ec_bucket_defaults cfg) → ee_save env = SettingsSaved → is_bucket_folder name = true →
  engine_inv e → engine_inv (create_bucket_internal cfg env name s e).2.
Proof.
  intros Hdef Hs Hname HI. unfold create_bucket_internal. rewrite (st_bind_ok _ _ _ e e) by done.
  destruct (en_buckets e !! name) as [?|] eqn:Eb; [done|]. unfold add_bucket_folder. destruct (ee_dirs env); simpl; [|done].
  set (e1 := match en_disk e !! name with Some _ => e | None => with_disk (<[name := mkDiskBucket None no_data]> (en_disk e)) e end). set (s' := fill_settings s (ec_bucket_defaults cfg)).
  rewrite (st_bind_ok _ _ _ tt e1) by done. unfold bucket_build. fold s'.
  rewrite (st_bind_ok _ _ _ (mkBucket [] s' false false (ec_replica cfg)) (saved name s' e1)).
  2: { by rewrite (st_bind_ok _ _ _ _ _ (save_settings_ok env name s' e1 Hs)). }
  change (engine_inv (saved name s' (put_bucket name (mkBucket [] s' false false (ec_replica cfg)) e1))).
  assert (en_buckets e1 = en_buckets e ∧ is_Some (en_disk e1 !! name) ∧ ∀ n, n ≠ name → en_disk e1 !! n = en_disk e !! n) as (Eb1 & [d1 Hd1] & Ed1).
  { unfold e1. destruct (en_disk e !! name) as [d|] eqn:Ed; [by rewrite Ed|]. simpl. rewrite lookup_insert_eq. split_and!; [done..|].
    intros n Hne. by rewrite lookup_insert_ne. }
  apply engine_saved_inv.
  - destruct HI as [I1 I2]. split.
    + intros n b. simpl. rewrite Eb1. intros [[<- <-]|[Hne Hb]]%lookup_insert_Some.
      * split_and!; [done|by apply complete_fill|]. exists d1. done.
      * destruct (I1 n b Hb) as (? & ? & d & Hd & ?). split_and!; [done..|]. exists d. rewrite Ed1 by done. done.
    + intros n d. simpl. rewrite Eb1. intros Hd Hfo. apply lookup_insert_is_Some'. destruct (decide (name = n)); [by left|right].
      rewrite Ed1 in Hd by done. by eapply I2.
  - intros b. simpl. rewrite lookup_insert_eq. by intros [= <-].
Qed.

Lemma maintenance_inv env name b e :
  ee_save env = SettingsSaved → engine_inv e → en_buckets e !! name = Some b → engine_inv (bucket_maintenance cfg env name b e).2.
Proof.
  intros Hs HI Hb. unfold bucket_maintenance. destruct (ec_replica cfg); [done|].
  rewrite (st_bind_ok _ _ _ _ _ (save_settings_ok env name (b_settings b) e Hs)). simpl.
  apply (engine_flushed_inv name (flush_entries (b_entries b)) (saved name (b_settings b) e)). apply engine_saved_inv; [by apply inv_inv_but|].
  intros b' Hb'. congruence.
Qed.

Lemma remove_task_inv env name e : name ≠ EmptyString → engine_inv e → engine_inv (remove_task env name e).2.
Proof.
  intros Hname HI. unfold remove_task. rewrite (st_bind_ok _ _ _ e e) by done.
  destruct (en_buckets e !! name) as [b|] eqn:Eb; [|done]. destruct (ee_entries env); simpl; [|done].
  assert (engine_inv (put_bucket name (set_entries [] b) e)) as HI1 by (by eapply put_same_inv).
  set (e1 := put_bucket name (set_entries [] b) e) in *. rewrite (st_bind_ok _ _ _ tt e1) by done.
  unfold remove_bucket_folder. destruct (ee_dirs env); simpl; [|done]. rewrite decide_False by done. destruct HI1 as [I1 I2].
  split; simpl.
  - intros n b' [Hne Hb']%lookup_delete_Some. rewrite lookup_insert_ne in Hb' by done.
    destruct (I1 n b') as (? & ? & d & Hd & ?); [simpl; by rewrite lookup_insert_ne|]. split_and!; [done..|]. exists d.
    by rewrite lookup_delete_ne.
  - intros n d [Hne Hd]%lookup_delete_Some Hfo. destruct (I2 n d Hd Hfo) as [b' Hb']. simpl in Hb'. rewrite lookup_insert_ne in Hb' by done.
    exists b'. by rewrite lookup_delete_ne, lookup_insert_ne.
Qed.

Lemma restore_spec s d :
  has_settings s d → complete s →
  bucket_restore cfg d = Ok (mkBucket (restore_entries s (db_data d)) s false false (ec_replica cfg)).
Proof.
  intros (bytes & Hb & Hd) Hc. unfold bucket_restore. rewrite Hb, Hd, settings_proto_roundtrip. by rewrite fill_complete.
Qed.

Lemma checked_name name : check_name_convention name = Ok tt → name ≠ EmptyString → is_bucket_folder name = true.
Proof.
  unfold check_name_convention, is_bucket_folder. intros Hc Hn. rewrite bool_decide_true by done. simpl.
  destruct name as [|c name]; [done|]. destruct (all_chars bucket_char (String c name)) eqn:Ea; [|done].
  simpl in Ea. apply andb_true_iff in Ea as [Ea _]. destruct (starts_with (String c name) ".") eqn:Es; [|done].
  apply starts_with_iff in Es as [t Et]. injection Et as -> _. by vm_compute in Ea.
Qed.

Lemma rename_inv env old new e :
  ee_save env = SettingsSaved → new ≠ EmptyString → engine_inv e → engine_inv (rename_bucket cfg env old new e).2.
Proof.
  intros Hs Hnew HI. unfold rename_bucket, engine_check_mode. destruct (ec_replica cfg) eqn:Er; [done|]. rewrite (st_bind_ok _ _ _ tt e) by done.
  destruct (check_name_convention new) as [[]|err|] eqn:Ec; [|done..]. rewrite (st_bind_ok _ _ _ tt e), (st_bind_ok _ _ _ e e) by done.
  destruct (en_buckets e !! new) as [?|] eqn:En; [done|]. destruct (en_buckets e !! old) as [b|] eqn:Eo; [|done].
  rewrite (st_bind_ok _ _ _ b e) by done. destruct (b_provisioned b); [done|]. unfold ensure_not_deleting. destruct (b_deleting b); [done|].
  rewrite (st_bind_ok _ _ _ tt e) by done.
  pose proof (maintenance_inv env old b e Hs HI Eo) as HI1.
  assert (∃ e1, bucket_maintenance cfg env old b e = (Ok tt, e1) ∧ en_buckets e1 = en_buckets e) as (e1 & E1 & Eb1).
  { unfold bucket_maintenance. rewrite Er, (st_bind_ok _ _ _ _ _ (save_settings_ok env old (b_settings b) e Hs)). by eexists. }
  rewrite E1 in HI1. simpl in HI1. rewrite (st_bind_ok _ _ _ _ _ E1). unfold rename_bucket_folder.
  unfold mbind at 1, ST_bind at 1. rewrite (st_bind_ok _ _ _ e1 e1) by done.
  destruct (en_disk e1 !! old) as [d|] eqn:Ed; [|done]. destruct (negb (ee_dirs env) || _ || _) eqn:Ex; [done|]. cbn [st_modify].
  set (e2 := with_disk _ e1). rewrite (st_bind_ok _ _ _ tt (with_buckets (delete old (en_buckets e2)) e2)) by done.
  set (e3 := with_buckets _ e2). rewrite (st_bind_ok _ _ _ e3 e3) by done. simpl (en_disk e3). rewrite lookup_insert_eq.
  rewrite (st_bind_ok _ _ _ d e3) by done.
  destruct HI1 as [I1 I2]. destruct (I1 old b) as (Hfo & Hc & d0 & Hd0 & Hset); [by rewrite Eb1|]. assert (d0 = d) as -> by congruence.
  rewrite (st_bind_ok _ _ _ (mkBucket (restore_entries (b_settings b) (db_data d)) (b_settings b) false false (ec_replica cfg)) e3)
    by (unfold st_lift; by rewrite (restore_spec (b_settings b) d)).
  assert (new ≠ old) as Hne by congruence. split; simpl.
  - intros n b' [[<- <-]|[Hn [Hn2 Hb']%lookup_delete_Some]]%lookup_insert_Some.
    + split_and!; [by apply checked_name|done|]. exists d. by rewrite lookup_insert_eq.
    + destruct (I1 n b' Hb') as (? & ? & d' & Hd' & ?). split_and!; [done..|]. exists d'. by rewrite lookup_insert_ne, lookup_delete_ne.
  - intros n d' [[<- <-]|[Hn [Hn2 Hd']%lookup_delete_Some]]%lookup_insert_Some Hfo'; [by rewrite lookup_insert_eq|].
    rewrite lookup_insert_ne, lookup_delete_ne by done. by eapply I2.
Qed.

Lemma set_bucket_settings_inv env name s e :
  ee_save env = SettingsSaved → engine_inv e → engine_inv (set_bucket_settings env name s e).2.
Proof.
  intros Hs HI. unfold set_bucket_settings. rewrite (st_bind_ok _ _ _ e e) by done. unfold get_bucket.
  destruct (en_buckets e !! name) as [b|] eqn:Eb; [|done]. unfold ensure_not_deleting. destruct (b_deleting b); simpl; [done|].
  rewrite (st_bind_ok _ _ _ b e) by done. destruct (ei_bucket _ HI name b Eb) as (Hfo & Hc & d & Hd & Hset).
  destruct (set_settings_complete s b Hc) as [Hc' Hok]. unfold mbind at 1, ST_bind at 1. unfold in_bucket.
  destruct (set_settings s b) as [[[]|err|] b'] eqn:Es; simpl in Hc', Hok.
  - specialize (Hok () eq_refl). set (e1 := put_bucket name b' e). rewrite (st_bind_ok _ _ _ e1 e1) by done.
    simpl (en_buckets e1). rewrite lookup_insert_eq, (st_bind_ok _ _ _ b' e1) by done. rewrite save_settings_ok by done. simpl.
    apply engine_saved_inv; [|intros b0; simpl; rewrite lookup_insert_eq; by intros [= <-]].
    destruct HI as [I1 I2]. split; simpl.
    + intros n b0 [[<- <-]|[Hne Hb0]]%lookup_insert_Some; [split_and!; [done..|]; by exists d|].
      destruct (I1 n b0 Hb0) as (? & ? & d0 & ? & ?). split_and!; [done..|]. by exists d0.
    + intros n d0 Hd0 Hfo0. apply lookup_insert_is_Some'. right. by eapply I2.
  - rewrite (set_settings_refused _ _ _ _ Es) by done. by eapply put_same_inv.
  - rewrite (set_settings_refused _ _ _ _ Es) by done. by eapply put_same_inv.
Qed.

(** ** Runs *)

(** A call of the engine, or a turn of one of its tasks. *)
Inductive EngineOp : Type :=
| EnCreate (name : string) (s : BucketSettings)
| EnCreateSystem (name : string) (s : BucketSettings)
| EnRemove (name : string)
| EnRemoveTask (name : string)
| EnRename (old new : string)
| EnSettings (name : string) (s : BucketSettings)
| EnProvision (name : string) (b : bool)
| EnWrite (fuel : nat) (available : outcome Z) (bucket entry : string) (content_size : Z)
| EnMaintenance (name : string).

Definition engine_step (e : Engine E D) (eo : EngineEnv * EngineOp) : Engine E D :=
  let env := eo.1 in
  match eo.2 with
  | EnCreate name s => (create_bucket cfg env name s e).2
  | EnCreateSystem name s => (create_system_bucket cfg env name s e).2
  | EnRemove name => (remove_bucket cfg name e).2
  | EnRemoveTask name => (remove_task env name e).2
  | EnRename old new => (rename_bucket cfg env old new e).2
  | EnSettings name s => (set_bucket_settings env name s e).2
  | EnProvision name b => (set_provisioned name b e).2
  | EnWrite fuel available bucket entry n => (engine_admit_write cfg fuel available bucket entry n e).2
  | EnMaintenance name =>
      match en_buckets e !! name with Some b => (bucket_maintenance cfg env name b e).2 | None => e end
  end.

(** Settings files can be written; names are not empty, names of system buckets not hidden. *)
Definition op_ok (eo : EngineEnv * EngineOp) : Prop :=
  ee_save eo.1 = SettingsSaved ∧
  match eo.2 with
  | EnCreate name _ | EnRemoveTask name | EnRename _ name => name ≠ EmptyString
  | EnCreateSystem name _ => is_bucket_folder name = true
  | _ => True
  end.

Lemma engine_step_inv e eo : complete (ec_bucket_defaults cfg) → op_ok eo → engine_inv e → engine_inv (engine_step e eo).
Proof.
  intros Hdef [Hs Ho] HI. destruct eo as [env op]. simpl in Hs, Ho.
  destruct op as [name s|name s|name|name|old new|name s|name b|fuel av bucket entry n|name]; unfold engine_step; cbn [fst snd].
  - unfold create_bucket, engine_check_mode. destruct (ec_replica cfg) eqn:Er; [done|].
    destruct (check_name_convention name) as [[]|?|] eqn:Ec; [|by unfold mbind, ST_bind, st_lift; rewrite ?Ec..].
    rewrite (st_bind_ok _ _ _ tt e), (st_bind_ok _ _ _ tt e) by done. apply create_internal_inv; [done|done|by apply checked_name|done].
  - unfold create_system_bucket, engine_check_mode. destruct (ec_replica cfg) eqn:Er; [done|].
    rewrite (st_bind_ok _ _ _ tt e) by done. by apply create_internal_inv.
  - unfold remove_bucket, engine_check_mode. destruct (ec_replica cfg); [done|]. rewrite (st_bind_ok _ _ _ tt e), (st_bind_ok _ _ _ e e) by done.
    destruct (en_buckets e !! name) as [b|] eqn:Eb; [|done]. rewrite (st_bind_ok _ _ _ b e) by done. destruct (b_provisioned b); [done|].
    apply in_bucket_inv; [done..|apply mark_deleting_settings].
  - by apply remove_task_inv.
  - by apply rename_inv.
  - by apply set_bucket_settings_inv.
  - unfold set_provisioned. rewrite (st_bind_ok _ _ _ e e) by done. destruct (en_buckets e !! name) as [b0|] eqn:Eb; [|done].
    rewrite (st_bind_ok _ _ _ b0 e) by done. by eapply put_same_inv.
  - unfold engine_admit_write. rewrite (st_bind_ok _ _ _ e e) by done. unfold mbind at 1, ST_bind at 1, st_lift at 1.
    destruct (ensure_storage_limit cfg n e); [|done..]. unfold get_bucket. destruct (en_buckets e !! bucket) as [b|] eqn:Eb; [|done].
    unfold ensure_not_deleting. destruct (b_deleting b); [done|]. rewrite (st_bind_ok _ _ _ b e) by done.
    apply in_bucket_inv; [done..|apply admit_write_settings].
  - destruct (en_buckets e !! name) as [b|] eqn:Eb; [|done]. by apply maintenance_inv.
Qed.

(** ** The start *)

Lemma restore_buckets_spec l m :
  (∀ name d, (name, d) ∈ l → ∃ s, has_settings s d ∧ complete s) → NoDup l.*1 →
  ∃ m', restore_buckets cfg l m = Ok m' ∧
    (∀ name d s, (name, d) ∈ l → has_settings s d → complete s → b_settings <$> m' !! name = Some s) ∧
    (∀ name, name ∉ l.*1 → m' !! name = m !! name).
Proof.
  revert m. induction l as [|[name d] l IH]; intros m Hl Hnd.
  { exists m. split_and!; [done| |done]. intros n d s Hin. by apply not_elem_of_nil in Hin. }
  apply NoDup_cons in Hnd as [Hn Hnd]. destruct (Hl name d) as (s & Hs & Hc); [by left|].
  cbn [restore_buckets]. rewrite (restore_spec s d Hs Hc). set (b := mkBucket _ _ _ _ _).
  destruct (IH (<[name := b]> m)) as (m' & -> & Hin & Hout); [|done|].
  { intros n d' Hin. apply (Hl n). by right. }
  exists m'. split_and!; [done| |].
  - intros n d' s' [[= -> ->]|Hin']%elem_of_cons Hs' Hc'; [|by eapply Hin].
    rewrite Hout by done. rewrite lookup_insert_eq. simpl. f_equal.
    destruct Hs as (y1 & Hy1 & Hd1), Hs' as (y2 & Hy2 & Hd2). rewrite Hy1 in Hy2. injection Hy2 as ->. rewrite Hd1 in Hd2. injection Hd2 as E1 E2 E3 E4.
    rewrite <- (settings_proto_roundtrip s), <- (settings_proto_roundtrip s'). unfold settings_to_proto. by rewrite E1, E2, E3, E4.
  - intros n Hnot. rewrite Hout by set_solver. apply lookup_insert_ne. set_solver.
Qed.

Lemma engine_start_inv e :
  engine_inv e → ∃ e', engine_build cfg (en_disk e) = Ok e' ∧ b_settings <$> en_buckets e' = b_settings <$> en_buckets e ∧ engine_inv e'.
Proof.
  intros HI. unfold engine_build. set (disk := match en_disk e !! EmptyString with Some _ => _ | None => _ end).
  assert (∀ name, name ≠ EmptyString → disk !! name = en_disk e !! name) as Hdisk.
  { intros name Hne. unfold disk. destruct (en_disk e !! EmptyString); [done|]. by rewrite lookup_insert_ne. }
  assert (∀ name, is_bucket_folder name = true → name ≠ EmptyString) as Hne by (by intros name Hf ->).
  set (l := List.filter _ _).
  assert (∀ name d, (name, d) ∈ l ↔ en_disk e !! name = Some d ∧ is_bucket_folder name = true) as Hl.
  { intros name d. unfold l. rewrite list_elem_of_In, filter_In, <- list_elem_of_In, elem_of_map_to_list. simpl. split.
    - intros [Hd Hf]. rewrite Hdisk in Hd by auto. done.
    - intros [Hd Hf]. by rewrite Hdisk by auto. }
  destruct (restore_buckets_spec l ∅) as (m & -> & Hin & Hout).
  { intros name d [Hd Hf]%Hl. destruct (ei_folder _ HI name d Hd Hf) as [b Hb].
    destruct (ei_bucket _ HI name b Hb) as (_ & Hc & d' & Hd' & Hs). exists (b_settings b). assert (d' = d) as -> by congruence. done. }
  { eapply sublist_NoDup; [|apply fmap_sublist, sublist_bfilter]. apply NoDup_fst_map_to_list. }
  eexists. split; [done|].
  assert (∀ name b, en_buckets e !! name = Some b → b_settings <$> m !! name = Some (b_settings b)) as Hm.
  { intros name b Hb. destruct (ei_bucket _ HI name b Hb) as (Hf & Hc & d & Hd & Hs). apply (Hin name d); [by apply Hl|done..]. }
  assert (∀ name, en_buckets e !! name = None → m !! name = None) as Hm2.
  { intros name Hb. rewrite Hout; [apply lookup_empty|]. intros ([n d] & -> & [Hd Hf]%Hl)%list_elem_of_fmap.
    destruct (ei_folder _ HI n d Hd Hf) as [b ?]. simpl in *. congruence. }
  split; [|split; simpl].
  - apply map_eq. intros name. simpl. rewrite !lookup_fmap. destruct (en_buckets e !! name) as [b|] eqn:Eb; [by apply Hm|by rewrite Hm2].
  - intros name b' Hb'. destruct (en_buckets e !! name) as [b|] eqn:Eb; [|by rewrite Hm2 in Hb']. specialize (Hm name b Eb).
    rewrite Hb' in Hm. injection Hm as Hm. rewrite Hm. destruct (ei_bucket _ HI name b Eb) as (Hf & Hc & d & Hd & Hs).
    split_and!; [done..|]. exists d. by rewrite Hdisk by auto.
  - intros name d Hd Hf. rewrite Hdisk in Hd by auto. destruct (ei_folder _ HI name d Hd Hf) as [b Hb]. specialize (Hm name b Hb).
    destruct (m !! name); [by eexists|done].
Qed.

Definition fresh_engine : Engine E D := mkEngine {[ EmptyString := mkDiskBucket None no_data ]} ∅.

Lemma engine_fresh_inv : engine_inv fresh_engine.
Proof. split; simpl; [by intros name b; rewrite lookup_empty|]. by intros name d [<- _]%lookup_singleton_Some. Qed.

Lemma engine_run_inv ops :
  complete (ec_bucket_defaults cfg) → Forall op_ok ops → engine_inv (foldl engine_step fresh_engine ops).
Proof.
  intros Hdef Hops. generalize fresh_engine engine_fresh_inv. induction Hops as [|eo ops Ho _ IH]; intros e HI; [done|].
  simpl. apply IH. by apply engine_step_inv.
Qed.

(** C16: the buckets survive a restart with their settings.  Whatever buckets are created,
    written to, changed, provisioned, renamed and removed, as long as settings files can be
    written and directories have names: a start on the disk that is left succeeds and has
    the same buckets with the same settings; disk and memory agree again. *)
Theorem buckets_survive_restarts ops :
  complete (ec_bucket_defaults cfg) → Forall op_ok ops →
  let e := foldl engine_step fresh_engine ops in
  ∃ e', engine_build cfg (en_disk e) = Ok e' ∧ b_settings <$> en_buckets e' = b_settings <$> en_buckets e ∧ engine_inv e'.
Proof. intros Hdef Hops e. by apply engine_start_inv, engine_run_inv. Qed.

(** A directory without settings is no bucket, but a start takes it for one. *)
Lemma bad_folder_stops_start disk name d :
  disk !! name = Some d → is_bucket_folder name = true → (∀ b, bucket_restore cfg d ≠ Ok b) → engine_build (E := E) cfg disk = Panic.
Proof.
  intros Hd Hf Hbad. unfold engine_build. set (disk' := match disk !! EmptyString with Some _ => _ | None => _ end).
  set (l := List.filter _ _). assert ((name, d) ∈ l) as Hin.
  { unfold l. rewrite list_elem_of_In, filter_In, <- list_elem_of_In, elem_of_map_to_list. split; [|done]. unfold disk'.
    destruct (disk !! EmptyString); [done|]. rewrite lookup_insert_ne; [done|]. by intros <-. }
  assert (∀ m, restore_buckets cfg l m = Panic) as ->; [|done]. clearbody l.
  induction l as [|[n d'] l IH]; intros m; [by apply not_elem_of_nil in Hin|]. cbn [restore_buckets].
  apply elem_of_cons in Hin as [[= <- <-]|Hin].
  - destruct (bucket_restore cfg d) as [b|?|]; [by destruct (Hbad b)|done..].
  - destruct (bucket_restore cfg d'); [by apply IH|done..].
Qed.

(** A bucket that is half created keeps the server from starting.  When the creation of a
    bucket ends after its directory is made and before its settings file is written (the file
    cannot be opened, or the process is killed), the directory stays, and every later start
    panics. *)
Theorem half_created_bucket_stops_start env name s e :
  ec_replica cfg = false → check_name_convention name = Ok tt → name ≠ EmptyString →
  en_buckets e !! name = None → en_disk e !! name = None → ee_dirs env = true → ee_save env = SettingsNotOpened →
  ∃ e', create_bucket cfg env name s e = (Err InternalServerError, e') ∧
    en_disk e' = <[name := mkDiskBucket None no_data]> (en_disk e) ∧ engine_build (E := E) cfg (en_disk e') = Panic.
Proof.
  intros Hr Hc Hn Hb Hd Hdirs Hs. unfold create_bucket, create_bucket_internal, engine_check_mode, add_bucket_folder, bucket_build, save_settings.
  unfold mbind, ST_bind, st_lift, st_get, st_modify, st_throw. rewrite Hr, Hc, Hb, Hdirs. simpl. rewrite Hd, Hs. eexists. split_and!; [done..|]. simpl.
  eapply (bad_folder_stops_start _ name); [by rewrite lookup_insert_eq|by apply checked_name|done].
Qed.

(** A settings file that is torn when it is emptied has the defaults at the next start: the
    quota is gone. *)
Lemma torn_settings_are_defaults d : bucket_restore (E := E) cfg (mkDiskBucket (Some []) d)
  = Ok (mkBucket (restore_entries defaults d) defaults false false (ec_replica cfg)).
Proof. unfold bucket_restore. simpl. rewrite settings_codec_empty. done. Qed.

(** The empty name is accepted, and its directory is the data directory: the removal of the
    bucket removes all. *)
Lemma empty_name_removes_all env (e : Engine E D) b :
  check_name_convention EmptyString = Ok tt ∧
  (en_buckets e !! EmptyString = Some b → ee_dirs env = true → ee_entries env = true →
   en_disk (remove_task env EmptyString e).2 = ∅).
Proof.
  split; [done|]. intros Hb Hd He. unfold remove_task, remove_bucket_folder, mbind, ST_bind, st_get, st_modify. rewrite Hb, He. simpl. by rewrite Hd.
Qed.

(** ** The totals of the server *)

Lemma bucket_infos_elem bs infos b : bucket_infos bs = Ok infos → b ∈ bs → ∃ i, bucket_info b = Ok i ∧ i ∈ infos.
Proof.
  revert infos. induction bs as [|b0 bs IH]; intros infos Hi Hin; [by apply not_elem_of_nil in Hin|]. cbn [bucket_infos] in Hi.
  destruct (bucket_info b0) as [i|?|] eqn:E0; [|done..]. simpl in Hi. destruct (bucket_infos bs) as [is'|?|] eqn:E1; [|done..].
  simpl in Hi. injection Hi as <-. apply elem_of_cons in Hin as [->|Hin]; [exists i; split; [done|by left]|].
  destruct (IH is' eq_refl Hin) as (i' & ? & ?). exists i'. split; [done|by right].
Qed.

Lemma oldest_le infos t i : i ∈ infos → bi_oldest_record i ≠ two64 - 1 → st_oldest_record (foldl add_info t infos) ≤ bi_oldest_record i.
Proof.
  assert (∀ l t, st_oldest_record (foldl add_info t l) ≤ st_oldest_record t) as Hmono.
  { induction l as [|j l IH]; intros t0; simpl; [lia|]. specialize (IH (add_info t0 j)).
    assert (st_oldest_record (add_info t0 j) ≤ st_oldest_record t0) by (unfold add_info; cbn [st_oldest_record]; destruct (bool_decide _); lia). lia. }
  revert t. induction infos as [|j infos IH]; intros t Hin Hi; [by apply not_elem_of_nil in Hin|]. simpl.
  apply elem_of_cons in Hin as [->|Hin]; [|by apply IH]. pose proof (Hmono infos (add_info t j)) as Hle.
  assert (st_oldest_record (add_info t j) ≤ bi_oldest_record j); [|lia].
  unfold add_info. cbn [st_oldest_record]. rewrite bool_decide_true by done. lia.
Qed.

(** One bucket without entries hides the oldest record of the server.  The information
    about a bucket without records says 0, not the largest number that the engine leaves out,
    so that the oldest record of the server is at most 0 whatever the other buckets hold. *)
Theorem empty_bucket_hides_oldest (e : Engine E D) name b t :
  en_buckets e !! name = Some b → b_entries b = [] → server_info e = Ok t → st_oldest_record t ≤ 0.
Proof.
  intros Hb Hnil Ht. unfold server_info in Ht. destruct (bucket_infos (sorted_buckets e)) as [infos|?|] eqn:Ei; [|done..].
  simpl in Ht. injection Ht as <-. assert (b ∈ sorted_buckets e) as Hin.
  { unfold sorted_buckets. apply list_elem_of_fmap. exists (name, b). split; [done|]. rewrite merge_sort_Permutation. by apply elem_of_map_to_list. }
  destruct (bucket_infos_elem _ _ _ Ei Hin) as (i & Hi & Hii). unfold bucket_info in Hi. rewrite Hnil in Hi. simpl in Hi. injection Hi as <-.
  eapply oldest_le in Hii; [exact Hii|]. done.
Qed.
End Life.

(** ** Witnesses *)

Module ToyEngine.
#[export] Instance proto_eq : EqDecision BucketSettingsProto.
Proof. solve_decision. Defined.
#[export] Instance proto_countable : Countable BucketSettingsProto.
Proof.
  refine (inj_countable' (λ p, (bsp_quota_size p, bsp_quota_type p, bsp_max_block_records p, bsp_max_block_size p))
    (λ '(a, b, c, d), mkBucketSettingsProto a b c d) _). by intros [].
Defined.
#[export] Instance codec : SettingsCodec := {|
  encode_settings := λ p, 1 :: Toy.enc p;
  decode_settings := λ b, match b with [] => Some (mkBucketSettingsProto None None None None) | _ :: b' => Toy.dec b' end
|}.
#[export] Instance codec_laws : SettingsCodecLaws.
Proof. split; [|done]. intros p. simpl. apply Toy.dec_enc. Qed.

(** An entry that is what it says about itself. *)
#[export] Instance entry : BucketEntry EntryInfo := {|
  e_size e := Ok (ei_size e); e_info e := Ok e; e_remove_oldest e := (Err InternalServerError, e);
  e_deleting _ := false; e_settings _ := mkEntrySettings 0 0; e_set_settings _ e := e; e_mark_deleting e := e;
  e_build _ _ := mkEntryInfo 0 0 0 0 0 |}.
#[export] Instance data : BucketData EntryInfo (list (string * EntryInfo)) := {|
  no_data := []; restore_entries _ d := d; flush_entries es _ := es |}.
End ToyEngine.

Section EngineWitnesses.
Import ToyEngine.

Definition a_cfg : EngineCfg := mkEngineCfg false defaults None.
Definition an_env : EngineEnv := mkEngineEnv true SettingsSaved true.
Definition fifo : BucketSettings := mkBucketSettings (Some FIFO) (Some 1000) None None.
Definition some_ops : list (EngineEnv * EngineOp) :=
  [(an_env, EnCreate "a" fifo); (an_env, EnCreate "b" defaults); (an_env, EnWrite 1 (Ok 100) "a" "entry" 10);
   (an_env, EnCreate "c" defaults); (an_env, EnRename "a" "d"); (an_env, EnSettings "b" fifo);
   (an_env, EnRemove "c"); (an_env, EnRemoveTask "c")].
Definition an_engine : Engine EntryInfo (list (string * EntryInfo)) := foldl (engine_step a_cfg) fresh_engine some_ops.

Lemma buckets_survive_restarts_witness :
  ∃ e', engine_build a_cfg (en_disk an_engine) = Ok e' ∧
    b_settings <$> en_buckets e' = {[ "b" := fill_settings fifo defaults; "d" := fill_settings fifo defaults ]}.
Proof.
  destruct (buckets_survive_restarts a_cfg some_ops) as (e' & E & Hb & _).
  - by split_and!; eexists.
  - repeat constructor; done.
  - exists e'. split; [exact E|]. rewrite Hb. by vm_compute.
Defined.

Lemma half_created_bucket_stops_start_witness :
  ∃ e', create_bucket a_cfg (mkEngineEnv true SettingsNotOpened true) "new" defaults an_engine = (Err InternalServerError, e') ∧
    engine_build (E := EntryInfo) a_cfg (en_disk e') = Panic.
Proof.
  destruct (half_created_bucket_stops_start a_cfg (mkEngineEnv true SettingsNotOpened true) "new" defaults an_engine)
    as (e' & E & _ & Hp); try by vm_compute.
  exists e'. split; [exact E|exact Hp].
Defined.

Definition two_buckets : Engine EntryInfo (list (string * EntryInfo)) :=
  mkEngine ∅ {[ "full" := mkBucket [("entry", mkEntryInfo 10 1 1 1000 2000)] defaults false false false;
                "empty" := mkBucket [] defaults false false false ]}.
Lemma empty_bucket_hides_oldest_witness :
  ∃ t, server_info two_buckets = Ok t ∧ st_oldest_record t ≤ 0 ∧ st_latest_record t = 2000.
Proof.
  destruct (server_info two_buckets) as [t|?|] eqn:E; [|by vm_compute in E..]. exists t. split; [done|]. split.
  - apply (empty_bucket_hides_oldest two_buckets "empty" (mkBucket [] defaults false false false) t); [by vm_compute|done|exact E].
  - vm_compute in E. injection E as <-. done.
Defined.
End EngineWitnesses.
