(* ===== verification/Batch.v ===== *)
(** * Batch: the headers of batched requests and responses
    (reduct_base/src/batch/v1.rs, reduct_base/src/batch/v2.rs)

    Many records travel in one HTTP message; each has a header line with its
    content length, content type and labels.  Version 2 sends what changed since
    the previous record of the same entry, with the label names in an index. *)

From stdpp Require Import prelude gmap strings sorting.
From Stdlib Require Import Ascii ZArith Lia.
From S2P Require Import Prelude Collections Proto Text Split.
Open Scope Z_scope.

(** ** The http crate

    [HeaderValue::from_str] and [HeaderValue::to_str]: visible ASCII is accepted
    and read back.  A [HeaderMap] is what [into_iter] yields: a name, or none when
    the value belongs to the name before; [get] returns the first value. *)
Class Http := {
  HeaderValue : Type;
  header_from_str : string → option HeaderValue;
  header_to_str : HeaderValue → option string
}.
Class HttpLaws `{Http} : Prop :=
  header_visible s : all_chars visible s = true →
    ∃ v, header_from_str s = Some v ∧ header_to_str v = Some s.

Abbreviation HeaderMap := (list (option string * HeaderValue)).

Fixpoint header_get `{Http} (name : string) (headers : HeaderMap) : option HeaderValue :=
  match headers with
  | [] => None
  | (Some n, v) :: headers' => if decide (n = name) then Some v else header_get name headers'
  | (None, _) :: headers' => header_get name headers'
  end.

Abbreviation Labels := (gmap string string).

(** [RecordHeader] (v1.rs). *)
Record RecordHeader := mkRecordHeader {
  content_length : Z;
  content_type : string;
  labels : Labels
}.

(** The part of [RecordMeta] (io.rs) that goes into a header. *)
Record RecordMeta := mkMeta {
  meta_content_length : Z;
  meta_content_type : string;
  meta_labels : Labels;
  meta_computed_labels : Labels
}.

Record EntryRecordHeader := mkEntryRecord {
  er_entry : string;
  er_timestamp : Z;
  er_header : RecordHeader
}.

Record EntryLabelUpdateHeader := mkEntryUpdate {
  eu_entry : string;
  eu_timestamp : Z;
  eu_update : Labels;
  eu_remove : gset string
}.

Local Open Scope string_scope.
Local Open Scope Z_scope.

Definition HEADER_PREFIX : string := "x-reduct-".
Definition ERROR_HEADER_PREFIX : string := "x-reduct-error-".
Definition ENTRIES_HEADER : string := "x-reduct-entries".
Definition START_TS_HEADER : string := "x-reduct-start-ts".
Definition LABELS_HEADER : string := "x-reduct-labels".

(** ** Percent encoding *)

Definition is_alphanumeric (c : ascii) : bool :=
  bool_decide (48 ≤ byte c ≤ 57) || bool_decide (65 ≤ byte c ≤ 90) || bool_decide (97 ≤ byte c ≤ 122).

Definition is_tchar (c : ascii) : bool :=
  is_alphanumeric c ||
  bool_decide (c ∈ ["!"; "#"; "$"; "%"; "&"; "'"; "*"; "+"; "-"; "."; "^"; "_"; "`"; "|"; "~"]%char).

(** A digit of [{:02X}], and [char::to_digit(16)]. *)
Definition hex_digit (n : Z) : ascii :=
  ascii_of_N (Z.to_N (if decide (n < 10) then 48 + n else 55 + n)).
Definition to_digit16 (c : ascii) : option Z :=
  let b := byte c in
  if decide (48 ≤ b ≤ 57) then Some (b - 48)
  else if decide (65 ≤ b ≤ 70) then Some (b - 55)
  else if decide (97 ≤ b ≤ 102) then Some (b - 87)
  else None.

Fixpoint encode_entry_name (entry : string) : string :=
  match entry with
  | EmptyString => EmptyString
  | String c s =>
      if is_tchar c then String c (encode_entry_name s)
      else String "%" (String (hex_digit (byte c / 16)) (String (hex_digit (byte c mod 16))
             (encode_entry_name s)))
  end.

(** The loop of [decode_entry_name]. *)
Fixpoint decode_bytes (encoded : string) : outcome string :=
  match encoded with
  | EmptyString => Ok EmptyString
  | String c s =>
      if decide (c = "%"%char) then
        match s with
        | String h (String l s') =>
            match to_digit16 h, to_digit16 l with
            | Some high, Some low =>
                String (ascii_of_N (Z.to_N (high * 16 + low))) <$> decode_bytes s'
            | _, _ => Err UnprocessableEntity
            end
        | _ => Err UnprocessableEntity
        end
      else String c <$> decode_bytes s
  end.

Definition decode_entry_name (encoded : string) : outcome string :=
  decoded ← decode_bytes encoded;
  if utf8 decoded then Ok decoded else Err UnprocessableEntity.

(** [Iterator::collect] into a [Result]: the first error wins. *)
Fixpoint collect {A B} (f : A → outcome B) (l : list A) : outcome (list B) :=
  match l with
  | [] => Ok []
  | x :: l' => y ← f x; ys ← collect f l'; Ok (y :: ys)
  end.

Section Batch.
Context `{HashIter} `{Http}.

Definition to_str (v : HeaderValue) : outcome string := ok_or UnprocessableEntity (header_to_str v).

Definition parse_entries_header (entries : HeaderValue) : outcome (list string) :=
  entries ← to_str entries;
  if decide (trim entries = EmptyString) then Err UnprocessableEntity
  else collect (λ entry,
         if decide (trim entry = EmptyString) then Err UnprocessableEntity
         else decode_entry_name (trim entry)) (split "," entries).

Definition decode_label_name (encoded : string) : outcome string := decode_entry_name encoded.
Definition encode_label_name (label : string) : string := encode_entry_name label.

Definition parse_labels_header (labels : HeaderValue) : outcome (list string) :=
  labels ← to_str labels;
  if decide (trim labels = EmptyString) then Err UnprocessableEntity
  else collect (λ label, decode_label_name (trim label)) (split "," labels).

(** ** The label index *)

Record LabelIndex := mkLabelIndex {
  names : list string;
  lookup_idx : gmap string Z
}.
Definition label_index_default : LabelIndex := mkLabelIndex [] ∅.

(** [LabelIndex::ensure]. *)
Definition ensure (name : string) (li : LabelIndex) : Z * LabelIndex :=
  match lookup_idx li !! name with
  | Some idx => (idx, li)
  | None =>
      let idx := Z.of_nat (length (names li)) in
      (idx, mkLabelIndex (names li ++ [name]) (<[name := idx]> (lookup_idx li)))
  end.

(** [LabelIndex::as_header]. *)
Definition as_header (li : LabelIndex) : outcome (option HeaderValue) :=
  match names li with
  | [] => Ok None
  | ns => Some <$> unwrap (header_from_str (join_with "," (encode_label_name <$> ns)))
  end.

(** ** Making headers *)

Definition quote : ascii := "034"%char.

Definition format_value (value : string) : string :=
  if contains value "," then String quote (value +:+ String quote EmptyString) else value.

(** [ensure] for each label that is sent, in turn. *)
Fixpoint push_deltas (kvs : list (string * string)) (li : LabelIndex)
    : list (Z * string) * LabelIndex :=
  match kvs with
  | [] => ([], li)
  | (k, v) :: kvs' =>
      let '(idx, li1) := ensure k li in
      let '(deltas, li2) := push_deltas kvs' li1 in ((idx, v) :: deltas, li2)
  end.

(** [Vec::dedup]: equal neighbours are merged. *)
Fixpoint dedup (l : list string) : list string :=
  match l with
  | x :: l' =>
      match l' with
      | y :: _ => if decide (x = y) then dedup l' else x :: dedup l'
      | [] => l
      end
  | [] => []
  end.

(** The labels that differ from the previous record's: a removed label is sent
    with an empty value. *)
Definition changed_labels (prev cur : Labels) : list (string * string) :=
  let keys := dedup (merge_sort str_le ((hash_iter prev).*1 ++ (hash_iter cur).*1)) in
  omap (λ key,
    match prev !! key, cur !! key with
    | p, Some c => if decide (p = Some c) then None else Some (key, format_value c)
    | Some _, None => Some (key, EmptyString)
    | None, None => None
    end) keys.

Definition idx_le (x y : Z * string) : Prop := x.1 ≤ y.1.
#[export] Instance idx_le_dec : RelDecision idx_le.
Proof. intros x y. unfold idx_le. apply _. Defined.

Definition show_delta (d : Z * string) : string := show d.1 +:+ String "=" d.2.

(** [build_label_delta]. *)
Definition build_label_delta (meta : RecordMeta) (previous_labels : option Labels) (li : LabelIndex)
    : string * LabelIndex :=
  let own :=
    match previous_labels with
    | Some prev => changed_labels prev (meta_labels meta)
    | None => prod_map id format_value <$> hash_iter (meta_labels meta)
    end in
  let computed := prod_map (λ k, String "@" k) format_value <$> hash_iter (meta_computed_labels meta) in
  let '(deltas, li') := push_deltas (own ++ computed) li in
  (join_with "," (show_delta <$> merge_sort idx_le deltas), li').

(** [make_record_header_value]. *)
Definition make_record_header_value (meta : RecordMeta) (previous_content_type : option string)
    (previous_labels : option Labels) (li : LabelIndex) : outcome HeaderValue * LabelIndex :=
  let ct :=
    match previous_content_type with
    | Some prev => if decide (prev = meta_content_type meta) then EmptyString else meta_content_type meta
    | None => meta_content_type meta
    end in
  let '(delta, li') := build_label_delta meta previous_labels li in
  let has_labels := negb (bool_decide (delta = EmptyString)) in
  let parts :=
    ([show (meta_content_length meta)]
     ++ (if negb (bool_decide (ct = EmptyString)) || has_labels then [ct] else [])
     ++ (if has_labels then [delta] else []))%list in
  (unwrap (header_from_str (join_with "," parts)), li').

(** [make_batched_header_name]; the name is a valid one, so the [expect] holds. *)
Definition make_batched_header_name (entry_index time_delta : Z) : string :=
  HEADER_PREFIX +:+ show entry_index +:+ String "-" (show time_delta).

Definition make_entries_header (entries : list string) : outcome HeaderValue :=
  unwrap (header_from_str (join_with "," (encode_entry_name <$> entries))).

Definition make_start_timestamp_header (start_ts : Z) : outcome HeaderValue :=
  unwrap (header_from_str (show start_ts)).

(** ** Parsing headers *)

Definition parse_batched_header_name (name : string) : outcome (Z * Z) :=
  if starts_with name HEADER_PREFIX then
    '(entry_index, delta) ← ok_or UnprocessableEntity
        (rsplit_once "-" (drop_str (String.length HEADER_PREFIX) name));
    entry_index ← ok_or UnprocessableEntity (parse_u64 entry_index);
    delta ← ok_or UnprocessableEntity (parse_u64 delta);
    Ok (entry_index, delta)
  else Err UnprocessableEntity.

Definition parse_start_timestamp (headers : HeaderMap) : outcome Z :=
  v ← ok_or UnprocessableEntity (header_get START_TS_HEADER headers);
  s ← to_str v;
  ok_or UnprocessableEntity (parse_u64 s).

Definition parse_entries (headers : HeaderMap) : outcome (list string) :=
  match header_get ENTRIES_HEADER headers with
  | Some entries => parse_entries_header entries
  | None => Ok []
  end.

Definition parse_labels (headers : HeaderMap) : outcome (option (list string)) :=
  match header_get LABELS_HEADER headers with
  | None => Ok None
  | Some labels => Some <$> parse_labels_header labels
  end.

Definition resolve_label_name (raw : string) (label_names : option (list string)) : outcome string :=
  match label_names, parse_u64 raw with
  | Some ns, Some idx => ok_or UnprocessableEntity (ns !! Z.to_nat idx)
  | _, _ => if starts_with raw "@" then Err UnprocessableEntity else Ok raw
  end.

(** The value at the head of a label list and what follows it. *)
Definition split_value (value_part : string) : outcome (string * string) :=
  if starts_with value_part (String quote EmptyString) then
    '(value, rest) ← ok_or UnprocessableEntity (split_once quote (drop_str 1 value_part));
    Ok (trim value, trim (trim_start_matches "," rest))
  else
    match split_once "," value_part with
    | Some (value, rest) => Ok (trim value, trim rest)
    | None => Ok (trim value_part, EmptyString)
    end.

(** The loop of [parse_label_delta_ops]; every turn consumes a character, so the
    length of the text is enough fuel. *)
Fixpoint delta_ops_loop (fuel : nat) (rest : string) (label_names : option (list string))
    : outcome (list (string * option string)) :=
  match fuel with
  | O => Panic
  | S fuel =>
      '(raw_key, value_part) ← ok_or UnprocessableEntity (split_once "=" rest);
      key ← resolve_label_name (trim raw_key) label_names;
      '(value, next_rest) ← split_value value_part;
      let op := (key, if decide (value = EmptyString) then None else Some value) in
      if decide (next_rest = EmptyString) then Ok [op]
      else ops ← delta_ops_loop fuel next_rest label_names; Ok (op :: ops)
  end.

Definition parse_label_delta_ops (raw_labels : string) (label_names : option (list string))
    : outcome (list (string * option string)) :=
  let rest := trim raw_labels in
  if decide (rest = EmptyString) then Ok []
  else delta_ops_loop (S (String.length rest)) rest label_names.

Definition apply_op (ls : Labels) (op : string * option string) : Labels :=
  match op.2 with Some v => <[op.1 := v]> ls | None => delete op.1 ls end.

Definition apply_label_delta (raw_labels : string) (base : Labels) (label_names : option (list string))
    : outcome Labels :=
  foldl apply_op base <$> parse_label_delta_ops raw_labels label_names.

Definition collect_op (acc : Labels * gset string) (op : string * option string)
    : Labels * gset string :=
  match op.2 with
  | Some v => (<[op.1 := v]> acc.1, acc.2)
  | None => (acc.1, {[op.1]} ∪ acc.2)
  end.

Definition parse_label_delta (raw_labels : string) (label_names : option (list string))
    : outcome (Labels * gset string) :=
  foldl collect_op (∅, ∅) <$> parse_label_delta_ops raw_labels label_names.

Definition parse_record_header_with_defaults (raw : string) (previous : option RecordHeader)
    (label_names : option (list string)) : outcome RecordHeader :=
  let '(len, rest_opt) :=
    match split_once "," raw with
    | Some (len, rest) => (trim len, Some rest)
    | None => (trim raw, None)
    end in
  len ← ok_or UnprocessableEntity (parse_u64 len);
  match rest_opt with
  | None =>
      prev ← ok_or UnprocessableEntity previous;
      Ok (mkRecordHeader len (content_type prev) (labels prev))
  | Some rest =>
      let '(ct_raw, labels_raw) :=
        match split_once "," rest with
        | Some (ct, ls) => (ct, Some ls)
        | None => (rest, None)
        end in
      let ct := if decide (trim ct_raw = EmptyString)
                then from_option content_type "application/octet-stream" previous
                else trim ct_raw in
      ls ← (match labels_raw with
            | None => Ok (from_option labels ∅ previous)
            | Some raw_labels => apply_label_delta raw_labels (from_option labels ∅ previous) label_names
            end);
      Ok (mkRecordHeader len ct ls)
  end.

(** ** All the headers of a batch *)

Definition key_le (x y : Z * Z * HeaderValue) : Prop :=
  x.1.1 < y.1.1 ∨ x.1.1 = y.1.1 ∧ x.1.2 ≤ y.1.2.
#[export] Instance key_le_dec : RelDecision key_le.
Proof. intros x y. unfold key_le. apply _. Defined.

(** The headers that carry records: named, with the prefix, and a number behind
    the last dash. *)
Definition batched (name : string) : bool :=
  starts_with name HEADER_PREFIX &&
  match rsplit_once "-" name with
  | Some (_, ts) => all_chars (λ c, bool_decide (is_Some (digit c))) ts
  | None => false
  end.

Definition sort_headers_by_entry_and_time (headers : HeaderMap)
    : outcome (list (Z * Z * HeaderValue)) :=
  let named := omap (λ '(name, value), name' ← name; if batched name' then Some (name', value) else None)
                 headers in
  parsed ← collect (λ '(name, value), key ← parse_batched_header_name name; Ok (key, value)) named;
  Ok (merge_sort key_le parsed).

(** [parse_batched_headers]: the loop keeps the last header of each entry. *)
Fixpoint parse_batch_loop (entries : list string) (start_ts : Z) (label_names : option (list string))
    (last : gmap string RecordHeader) (hs : list (Z * Z * HeaderValue))
    : outcome (list EntryRecordHeader) :=
  match hs with
  | [] => Ok []
  | (entry_index, delta, value) :: hs' =>
      entry ← ok_or UnprocessableEntity (entries !! Z.to_nat entry_index);
      raw ← to_str value;
      header ← parse_record_header_with_defaults raw (last !! entry) label_names;
      rest ← parse_batch_loop entries start_ts label_names (<[entry := header]> last) hs';
      Ok (mkEntryRecord entry (u64_add start_ts delta) header :: rest)
  end.

Definition parse_batched_headers (headers : HeaderMap) : outcome (list EntryRecordHeader) :=
  entries ← parse_entries headers;
  start_ts ← parse_start_timestamp headers;
  label_names ← parse_labels headers;
  hs ← sort_headers_by_entry_and_time headers;
  parse_batch_loop entries start_ts label_names ∅ hs.

(** [parse_batched_update_headers]: besides the header, the label operations of an
    entry add up over the batch. *)
Definition LabelState : Type := gmap string (option string).

Definition note_update (ops : Labels * gset string) (st : LabelState) : LabelState :=
  set_fold (λ k st, <[k := None]> st) (map_fold (λ k v st, <[k := Some v]> st) st ops.1) ops.2.

Definition state_update (st : LabelState) : Labels := omap id st.
Definition state_remove (st : LabelState) : gset string :=
  dom (filter (λ kv : string * option string, kv.2 = None) st).

(** [raw.splitn(3, ',').nth(2)]. *)
Definition third_part (raw : string) : option string :=
  '(_, rest) ← split_once "," raw; '(_, ls) ← split_once "," rest; Some ls.

Fixpoint parse_update_loop (entries : list string) (start_ts : Z) (label_names : option (list string))
    (last : gmap string RecordHeader) (states : gmap string LabelState)
    (hs : list (Z * Z * HeaderValue)) : outcome (list EntryLabelUpdateHeader) :=
  match hs with
  | [] => Ok []
  | (entry_index, delta, value) :: hs' =>
      entry ← ok_or UnprocessableEntity (entries !! Z.to_nat entry_index);
      raw ← to_str value;
      header ← parse_record_header_with_defaults raw (last !! entry) label_names;
      let st := default ∅ (states !! entry) in
      st ← (match third_part raw with
            | Some raw_labels => ops ← parse_label_delta raw_labels label_names; Ok (note_update ops st)
            | None => Ok st
            end);
      rest ← parse_update_loop entries start_ts label_names (<[entry := header]> last)
               (<[entry := st]> states) hs';
      Ok (mkEntryUpdate entry (u64_add start_ts delta) (state_update st) (state_remove st) :: rest)
  end.

Definition parse_batched_update_headers (headers : HeaderMap) : outcome (list EntryLabelUpdateHeader) :=
  entries ← parse_entries headers;
  start_ts ← parse_start_timestamp headers;
  label_names ← parse_labels headers;
  hs ← sort_headers_by_entry_and_time headers;
  parse_update_loop entries start_ts label_names ∅ ∅ hs.

(** ** Version 1 *)

(** The loop over the labels of [parse_batched_header]; the same bound of fuel. *)
Fixpoint labels_loop (fuel : nat) (rest : string) (acc : Labels) : outcome Labels :=
  match fuel with
  | O => Panic
  | S fuel =>
      match split_once "=" rest with
      | None => Ok acc
      | Some (key, value) =>
          if starts_with value (String quote EmptyString) then
            '(value, rest) ← ok_or UnprocessableEntity (split_once quote (drop_str 1 value));
            labels_loop fuel (trim (trim_start_matches "," rest)) (<[trim key := trim value]> acc)
          else
            match split_once "," value with
            | Some (value, rest) => labels_loop fuel (trim rest) (<[trim key := trim value]> acc)
            | None => Ok (<[trim key := trim value]> acc)
            end
      end
  end.

(** [parse_batched_header] (v1.rs). *)
Definition parse_batched_header (header : string) : outcome RecordHeader :=
  '(len, rest) ← ok_or UnprocessableEntity (split_once "," header);
  len ← ok_or UnprocessableEntity (parse_u64 (trim len));
  let '(ct, rest) := default (rest, "application/octet-stream") (split_once "," rest) in
  let ct := if decide (ct = EmptyString) then "application/octet-stream" else trim ct in
  ls ← labels_loop (S (String.length rest)) rest ∅;
  Ok (mkRecordHeader len ct ls).

Definition TIME_PREFIX : string := "x-reduct-time-".

Definition time_le (x y : Z * HeaderValue) : Prop := x.1 ≤ y.1.
#[export] Instance time_le_dec : RelDecision time_le.
Proof. intros x y. unfold time_le. apply _. Defined.

(** [sort_headers_by_time] (v1.rs). *)
Definition sort_headers_by_time (headers : HeaderMap) : outcome (list (Z * HeaderValue)) :=
  let timed := omap (λ '(name, value),
                 name' ← name; if starts_with name' TIME_PREFIX then Some (drop_str 14 name', value) else None)
                 headers in
  parsed ← collect (λ '(ts, value), ts ← ok_or UnprocessableEntity (parse_u64 ts); Ok (ts, value)) timed;
  Ok (merge_sort time_le parsed).
End Batch.
