(* ===== verification/BatchCodec.v ===== *)
(** * BatchCodec: what is written into the headers of a batch is read back

    The percent encoding of names, the index of label names, the delta of the
    labels of a record and its header line. *)

From stdpp Require Import prelude gmap strings sorting.
From Stdlib Require Import Ascii ZArith Lia.
From S2P Require Import Prelude Collections Proto Text Split Batch.
Open Scope Z_scope.
Local Open Scope string_scope.
Local Open Scope Z_scope.

(** ** Percent encoding *)

Lemma ascii_byte c : ascii_of_N (Z.to_N (byte c)) = c.
Proof. unfold byte. by rewrite N2Z.id, ascii_N_embedding. Qed.

Lemma byte_range c : 0 ≤ byte c < 256.
Proof. unfold byte. pose proof (N_ascii_bounded c). lia. Qed.

Lemma byte_ascii n : 0 ≤ n < 256 → byte (ascii_of_N (Z.to_N n)) = n.
Proof. intros Hn. unfold byte. rewrite N_ascii_embedding by lia. lia. Qed.

Lemma hex_digit_byte n : 0 ≤ n < 16 → byte (hex_digit n) = if decide (n < 10) then 48 + n else 55 + n.
Proof. intros Hn. unfold hex_digit. apply byte_ascii. case_decide; lia. Qed.

Lemma to_digit16_hex n : 0 ≤ n < 16 → to_digit16 (hex_digit n) = Some n.
Proof.
  intros Hn. unfold to_digit16. rewrite hex_digit_byte by done.
  repeat case_decide; try lia; f_equal; lia.
Qed.

Lemma encode_char c s :
  encode_entry_name (String c s) =
    (if is_tchar c then String c EmptyString
     else String "%" (String (hex_digit (byte c / 16)) (String (hex_digit (byte c mod 16)) EmptyString)))
    +:+ encode_entry_name s.
Proof. cbn [encode_entry_name]. by destruct (is_tchar c). Qed.

Lemma decode_encode_bytes s : lacks "%" s = true → decode_bytes (encode_entry_name s) = Ok s.
Proof.
  induction s as [|c s IH]; intros Hs; [done|]. apply lacks_cons in Hs as [Hc Hs].
  cbn [encode_entry_name]. destruct (is_tchar c).
  - cbn [decode_bytes]. by rewrite decide_False, IH.
  - cbn [decode_bytes]. rewrite decide_True by done. pose proof (byte_range c).
    assert (0 ≤ byte c / 16 < 16) by (split; [apply Z.div_pos; lia|apply Z.div_lt_upper_bound; lia]).
    pose proof (Z.mod_pos_bound (byte c) 16 ltac:(lia)).
    rewrite !to_digit16_hex, IH by done. cbn [fmap outcome_fmap].
    replace (byte c / 16 * 16 + byte c mod 16) with (byte c) by (rewrite Z.mul_comm; apply Z.div_mod; lia).
    by rewrite ascii_byte.
Qed.

Lemma tchar_plain c : is_tchar c = true → plain c = true.
Proof. by destruct c as [[] [] [] [] [] [] [] []]; vm_compute. Qed.

Lemma tchar_no_comma c : is_tchar c = true → c ≠ ","%char.
Proof. by intros Hc ->. Qed.

Lemma hex_digit_plain n : 0 ≤ n < 16 → plain (hex_digit n) = true ∧ hex_digit n ≠ ","%char.
Proof.
  intros Hn. pose proof (hex_digit_byte n Hn) as Hb. split.
  - unfold plain. rewrite Hb. apply bool_decide_eq_true. case_decide; lia.
  - intros E. rewrite E in Hb. vm_compute (byte ",") in Hb. case_decide; lia.
Qed.

Lemma encode_plain s :
  all_chars plain (encode_entry_name s) = true ∧ lacks "," (encode_entry_name s) = true.
Proof.
  induction s as [|c s [IHp IHl]]; [done|]. rewrite encode_char, all_chars_app, lacks_app, IHp, IHl.
  rewrite !andb_true_r. destruct (is_tchar c) eqn:Ht.
  - split; [simpl; by rewrite tchar_plain|]. apply lacks_cons. split; [by apply tchar_no_comma|done].
  - pose proof (byte_range c).
    assert (0 ≤ byte c / 16 < 16) as Hd by (split; [apply Z.div_pos; lia|apply Z.div_lt_upper_bound; lia]).
    pose proof (Z.mod_pos_bound (byte c) 16 ltac:(lia)) as Hm.
    destruct (hex_digit_plain _ Hd) as [Hd1 Hd2], (hex_digit_plain _ Hm) as [Hm1 Hm2].
    split; [simpl; by rewrite Hd1, Hm1|]. by rewrite !lacks_cons.
Qed.

Lemma encode_nonempty s : s ≠ EmptyString → encode_entry_name s ≠ EmptyString.
Proof. destruct s as [|c s]; [done|]. intros _. cbn [encode_entry_name]. by destruct (is_tchar c). Qed.

(** A name that can travel: text without a percent sign. *)
Definition name_ok (s : string) : Prop := utf8 s = true ∧ lacks "%" s = true ∧ s ≠ EmptyString.

Lemma decode_encode s : utf8 s = true → lacks "%" s = true → decode_entry_name (encode_entry_name s) = Ok s.
Proof.
  intros Hu Hs. unfold decode_entry_name. rewrite decode_encode_bytes by done. simpl. by rewrite Hu.
Qed.

Lemma collect_map {A B} (f : A → outcome B) (g : B → A) l :
  Forall (λ y, f (g y) = Ok y) l → collect f (g <$> l) = Ok l.
Proof.
  induction 1 as [|y l Hy _ IH]; [done|]. cbn [fmap list_fmap collect]. rewrite Hy. simpl. by rewrite IH.
Qed.

(** ** The names of the headers *)

Lemma header_name_split p i d :
  0 ≤ d → rsplit_once "-" (p +:+ show i +:+ String "-" (show d)) = Some (p +:+ show i, show d).
Proof.
  intros Hd. rewrite string_app_assoc. apply rsplit_once_app.
  by apply (lacks_class is_digit); [|apply show_digits].
Qed.

Lemma header_name_roundtrip i d :
  is_u64 i → is_u64 d → parse_batched_header_name (make_batched_header_name i d) = Ok (i, d).
Proof.
  intros Hi Hd. unfold parse_batched_header_name, make_batched_header_name.
  rewrite starts_with_app, drop_str_app.
  change (show i +:+ String "-" (show d)) with ("" +:+ show i +:+ String "-" (show d)).
  rewrite header_name_split by apply Hd. change ("" +:+ show i) with (show i).
  cbn [ok_or mbind outcome_bind]. by rewrite !parse_u64_show.
Qed.

Lemma header_name_batched i d : 0 ≤ d → batched (make_batched_header_name i d) = true.
Proof.
  intros Hd. unfold batched, make_batched_header_name. rewrite starts_with_app, header_name_split by done.
  by apply show_digits.
Qed.

Section Codec.
Context `{HashIter} `{Http} `{!HashIterLaws} `{!HttpLaws}.

(** Text of visible characters comes through a header. *)
Lemma header_text s :
  all_chars visible s = true → ∃ v, unwrap (header_from_str s) = Ok v ∧ to_str v = Ok s.
Proof. intros Hs. destruct (header_visible s Hs) as (v & Hv & E). exists v. unfold to_str. by rewrite Hv, E. Qed.

Lemma join_encoded_tidy l :
  Forall name_ok l → tidy (join_with "," (encode_entry_name <$> l)) = true.
Proof.
  intros Hl. apply tidy_plain. induction Hl as [|s l Hs Hl IH]; [done|].
  destruct (encode_plain s) as [Hp _]. destruct l as [|s' l]; [done|]. rewrite !fmap_cons in *.
  rewrite join_with_cons, all_chars_app, Hp. exact IH.
Qed.

(** The names of a list separated by commas, decoded one by one. *)
Lemma names_header f l :
  l ≠ [] → Forall name_ok l →
  (∀ s, name_ok s → f (encode_entry_name s) = decode_entry_name (encode_entry_name s)) →
  ∃ v, unwrap (header_from_str (join_with "," (encode_entry_name <$> l))) = Ok v ∧
    (s ← to_str v;
     if decide (trim s = EmptyString) then Err UnprocessableEntity else collect f (split "," s)) = Ok l.
Proof.
  intros Hne Hl Hf. pose proof (join_encoded_tidy l Hl) as Ht.
  destruct (header_text (join_with "," (encode_entry_name <$> l))) as (v & Hv & Hs);
    [by apply tidy_iff in Ht as [? _]|].
  exists v. split; [done|]. rewrite Hs. cbn [mbind outcome_bind]. rewrite trim_tidy by done.
  rewrite decide_False.
  2:{ destruct Hl as [|s l Hs' Hl]; [done|]. intros E. cbn [fmap list_fmap join_with] in E.
      pose proof (encode_nonempty s (proj2 (proj2 Hs'))). destruct (encode_entry_name s); [done|].
      by destruct (encode_entry_name <$> l). }
  rewrite split_join_with.
  - apply collect_map. eapply Forall_impl; [exact Hl|]. intros s Hs'. rewrite Hf by done.
    destruct Hs' as (? & ? & _). by apply decode_encode.
  - by destruct l.
  - apply Forall_fmap, Forall_true. intros s. apply encode_plain.
Qed.

Lemma entries_header_roundtrip l :
  l ≠ [] → Forall name_ok l → ∃ v, make_entries_header l = Ok v ∧ parse_entries_header v = Ok l.
Proof.
  intros Hne Hl. destruct (names_header (λ entry,
    if decide (trim entry = EmptyString) then Err UnprocessableEntity
    else decode_entry_name (trim entry)) l Hne Hl) as (v & ? & ?); [|by exists v].
  intros s (_ & _ & Hs). rewrite trim_tidy by (by apply tidy_plain, encode_plain).
  by rewrite decide_False by (by apply encode_nonempty).
Qed.

Lemma labels_header_roundtrip li :
  names li ≠ [] → Forall name_ok (names li) →
  ∃ v, as_header li = Ok (Some v) ∧ parse_labels_header v = Ok (names li).
Proof.
  intros Hne Hl. destruct (names_header (λ label, decode_label_name (trim label)) (names li) Hne Hl)
    as (v & Hv & Hp).
  - intros s _. by rewrite trim_tidy by (by apply tidy_plain, encode_plain).
  - exists v. split; [|done]. unfold as_header.
    destruct (names li) as [|s l]; [done|].
    change (encode_label_name <$> s :: l) with (encode_entry_name <$> s :: l). by rewrite Hv.
Qed.

(** ** The label index *)

Definition li_ok (li : LabelIndex) : Prop :=
  ∀ k i, lookup_idx li !! k = Some i → 0 ≤ i ∧ names li !! Z.to_nat i = Some k.

Lemma li_ok_default : li_ok label_index_default.
Proof. intros k i Hk. cbn in Hk. by rewrite lookup_empty in Hk. Qed.

Lemma ensure_spec k li :
  li_ok li →
  let '(i, li') := ensure k li in
  li_ok li' ∧ names li `prefix_of` names li' ∧ 0 ≤ i ∧ names li' !! Z.to_nat i = Some k.
Proof.
  intros Hok. unfold ensure. destruct (lookup_idx li !! k) as [i|] eqn:E.
  { destruct (Hok k i E). by split_and!. }
  assert (Hnew : (names li ++ [k])%list !! length (names li) = Some k)
    by (by rewrite lookup_app_r, Nat.sub_diag).
  cbn [names]. rewrite Nat2Z.id. split_and!; [|by eexists|lia|done].
  intros k' i Hi. cbn [lookup_idx] in Hi. apply lookup_insert_Some in Hi as [[<- <-]|[_ Hi]].
  - rewrite Nat2Z.id. split; [lia|done].
  - destruct (Hok k' i Hi). split; [done|]. by apply lookup_app_l_Some.
Qed.

(** What is sent for an operation on a label. *)
Definition op_text (op : string * option string) : string * string :=
  (op.1, from_option format_value EmptyString op.2).

(** A delta stands for an operation, given the label names. *)
Definition denotes (ns : list string) (d : Z * string) (op : string * option string) : Prop :=
  0 ≤ d.1 ∧ ns !! Z.to_nat d.1 = Some op.1 ∧ d.2 = (op_text op).2.

Lemma denotes_prefix ns ns' d op : ns `prefix_of` ns' → denotes ns d op → denotes ns' d op.
Proof. intros [l ->] (? & ? & ?). split_and!; [done| |done]. by apply lookup_app_l_Some. Qed.

Lemma push_deltas_spec ops li :
  li_ok li →
  let '(ds, li') := push_deltas (op_text <$> ops) li in
  li_ok li' ∧ names li `prefix_of` names li' ∧ Forall2 (denotes (names li')) ds ops.
Proof.
  revert li. induction ops as [|[k v] ops IH]; intros li Hok; [by split_and!|].
  cbn [fmap list_fmap push_deltas op_text fst snd]. pose proof (ensure_spec k li Hok) as He.
  destruct (ensure k li) as [i li1]. destruct He as (Hok1 & Hp1 & Hi & Hk).
  specialize (IH li1 Hok1). destruct (push_deltas (op_text <$> ops) li1) as [ds li2].
  destruct IH as (Hok2 & Hp2 & Hds). split_and!; [done|by etrans|]. constructor; [|done].
  apply (denotes_prefix (names li1)); [done|]. by split_and!.
Qed.

Lemma push_deltas_names (P : string → Prop) kvs li :
  Forall P (names li) → Forall (λ kv, P kv.1) kvs → Forall P (names (push_deltas kvs li).2).
Proof.
  revert li. induction kvs as [|[k v] kvs IH]; intros li Hli Hk; [done|].
  apply Forall_cons in Hk as [Hk Hkvs]. cbn [push_deltas]. unfold ensure.
  destruct (lookup_idx li !! k) as [i|].
  - specialize (IH li Hli Hkvs). by destruct (push_deltas kvs li).
  - set (li1 := mkLabelIndex _ _). specialize (IH li1). destruct (push_deltas kvs li1).
    apply IH; [|done]. cbn [li1 names]. apply Forall_app. by repeat constructor.
Qed.

(** ** The values of labels *)

(** A value that can travel: not empty, no white space at its ends, and no quote
    where the parser looks for one. *)
Definition value_ok (v : string) : Prop :=
  v ≠ EmptyString ∧ tidy v = true ∧
  if contains v "," then lacks quote v = true else starts_with v (String quote EmptyString) = false.

Definition op_ok (op : string * option string) : Prop := from_option value_ok True op.2.

Lemma starts_with_char c d s : starts_with (String d s) (String c EmptyString) = bool_decide (c = d).
Proof. simpl. by destruct (bool_decide (c = d)), s. Qed.

Lemma contains_char c s : contains s (String c EmptyString) = false → lacks c s = true.
Proof.
  induction s as [|d s IH]; [done|]. cbn [contains]. rewrite starts_with_char.
  intros [Hd Hs]%orb_false_iff. apply lacks_cons. split; [|by apply IH].
  apply bool_decide_eq_false in Hd. congruence.
Qed.

Lemma format_value_tidy v : value_ok v → tidy (format_value v) = true ∧ format_value v ≠ EmptyString.
Proof.
  intros (Hne & Ht & Hq). unfold format_value. destruct (contains v ","); [|done].
  split; [|done]. apply tidy_iff in Ht as [Hv _]. apply tidy_iff. split.
  - change (visible quote && all_chars visible (v +:+ String quote "") = true).
    by rewrite all_chars_app, Hv.
  - change (plain quote && plain (last_char quote (v +:+ String quote "")) = true).
    by rewrite last_char_app.
Qed.

(** The value at the end of the list. *)
Lemma split_value_last op : op_ok op → split_value (op_text op).2 = Ok (default EmptyString op.2, EmptyString).
Proof.
  destruct op as [k [v|]]; [|done]. intros (Hne & Ht & Hq). cbn [op_text snd from_option default].
  unfold format_value. destruct (contains v ",") eqn:Hc; unfold split_value.
  - rewrite starts_with_char, bool_decide_eq_true_2 by done. cbn [drop_str].
    rewrite (split_once_app quote v EmptyString) by done. simpl. by rewrite trim_tidy.
  - rewrite Hq, split_once_none by (by apply contains_char). by rewrite trim_tidy.
Qed.

(** A value with more labels behind it. *)
Lemma split_value_more op rest c rest' :
  op_ok op → tidy rest = true → rest = String c rest' → c ≠ ","%char →
  split_value ((op_text op).2 +:+ String "," rest) = Ok (default EmptyString op.2, rest).
Proof.
  intros Hop Ht Hr Hc.
  assert (Hrest : trim (trim_start_matches "," (String "," rest)) = rest).
  { cbn [trim_start_matches]. rewrite decide_True by done. rewrite Hr. cbn [trim_start_matches].
    rewrite decide_False by done. rewrite <- Hr. by apply trim_tidy. }
  destruct op as [k [v|]]; cbn [op_text snd from_option default] in *.
  - destruct Hop as (Hne & Hv & Hq). unfold format_value. destruct (contains v ",") eqn:Hcv; unfold split_value.
    + change (String quote (v +:+ String quote "") +:+ String "," rest)
        with (String quote ((v +:+ String quote "") +:+ String "," rest)).
      rewrite starts_with_char, bool_decide_eq_true_2 by done. cbn [drop_str].
      rewrite string_app_cons, split_once_app by done. cbn [ok_or mbind outcome_bind].
      by rewrite Hrest, (trim_tidy v).
    + rewrite split_once_app by (by apply contains_char).
      destruct v as [|d v]; [done|]. rewrite starts_with_char in Hq.
      change (String d v +:+ ?x) with (String d (v +:+ x)). rewrite starts_with_char, Hq.
      by rewrite (trim_tidy (String d v)), (trim_tidy rest).
  - change ("" +:+ String "," rest) with (String "," rest). unfold split_value.
    rewrite starts_with_char, bool_decide_eq_false_2 by done. cbn [split_once].
    rewrite decide_True by done. by rewrite (trim_tidy rest).
Qed.

(** ** The delta of the labels *)

Lemma show_delta_tidy ns d op : denotes ns d op → op_ok op → tidy (show_delta d) = true.
Proof.
  intros (_ & _ & Ed) Hop. unfold show_delta. apply tidy_app; [apply tidy_plain, show_plain| |apply show_nonempty|done].
  rewrite Ed. destruct op as [k [v|]]; [|done]. cbn [op_text snd from_option].
  destruct (format_value_tidy v Hop) as [Ht Hne].
  change (String "=" (format_value v)) with ("=" +:+ format_value v). by apply tidy_app.
Qed.

Lemma show_head z : ∃ c s, show z = String c s ∧ numeric c = true.
Proof.
  pose proof (show_numeric z) as Hn. destruct (show z) as [|c s] eqn:E; [by apply show_nonempty in E|].
  simpl in Hn. apply andb_true_iff in Hn as [Hc _]. by exists c, s.
Qed.

Lemma join_deltas_tidy ns ds ops :
  Forall2 (denotes ns) ds ops → Forall op_ok ops → tidy (join_with "," (show_delta <$> ds)) = true.
Proof.
  intros Hds. induction Hds as [|d op ds ops Hd Hds IH]; intros Hops; [done|].
  apply Forall_cons in Hops as [Hop Hops]. pose proof (show_delta_tidy ns d op Hd Hop) as Ht.
  destruct ds as [|d' ds]; [done|]. rewrite !fmap_cons in *. rewrite join_with_cons.
  assert (Hn : ∀ x, show_delta x ≠ EmptyString).
  { intros x. unfold show_delta. destruct (show_head x.1) as (c & s & -> & _). done. }
  apply tidy_app; [done| |apply Hn|done].
  change (String "," ?x) with ("," +:+ x). apply tidy_app; [done|by apply IH|done|].
  destruct (show_delta <$> ds); [apply Hn|]. rewrite join_with_cons.
  pose proof (Hn d'). by destruct (show_delta d').
Qed.

Lemma resolve_index ns d op :
  denotes ns d op → Z.of_nat (length ns) ≤ u64_max →
  resolve_label_name (trim (show d.1)) (Some ns) = Ok op.1.
Proof.
  intros (Hi & Hk & _) Hlen. rewrite trim_tidy by apply tidy_plain, show_plain.
  unfold resolve_label_name. pose proof (lookup_lt_Some _ _ _ Hk).
  rewrite parse_u64_show by u64_lia. by rewrite Hk.
Qed.

Lemma read_op op :
  op_ok op →
  (op.1, if decide (default EmptyString op.2 = EmptyString) then None
         else Some (default EmptyString op.2)) = op.
Proof.
  destruct op as [k [v|]]; [|done]. intros [Hne _]. simpl. by rewrite decide_False.
Qed.

Lemma show_delta_split d rest :
  split_once "=" (show_delta d +:+ rest) = Some (show d.1, d.2 +:+ rest).
Proof.
  unfold show_delta. rewrite <- (split_once_app "=" (show d.1) (d.2 +:+ rest)).
  - f_equal. induction (show d.1) as [|c s IH]; [done|]. exact (f_equal (String c) IH).
  - apply (lacks_class numeric); [done|apply show_numeric].
Qed.

Lemma join_deltas_head d ds :
  ∃ c s, join_with "," (show_delta <$> d :: ds) = String c s ∧ c ≠ ","%char.
Proof.
  destruct (show_head d.1) as (c & s & E & Hc).
  assert (Hne : c ≠ ","%char) by (intros ->; done).
  assert (∃ s', show_delta d = String c s') as [s' Ed]
    by (unfold show_delta; rewrite E; by eexists).
  rewrite fmap_cons. destruct (show_delta <$> ds) as [|w l]; [by exists c, s'|].
  rewrite join_with_cons, Ed. by eexists c, _.
Qed.

Lemma delta_ops_loop_spec ns ds ops fuel :
  Forall2 (denotes ns) ds ops → Forall op_ok ops → Z.of_nat (length ns) ≤ u64_max →
  ds ≠ [] → (length ds ≤ fuel)%nat →
  delta_ops_loop fuel (join_with "," (show_delta <$> ds)) (Some ns) = Ok ops.
Proof.
  intros Hds Hops Hlen. revert fuel Hops. induction Hds as [|d op ds ops Hd Hds IH]; [done|].
  intros fuel Hops _ Hfuel. apply Forall_cons in Hops as [Hop Hops].
  destruct fuel as [|fuel]; simpl in Hfuel; [lia|]. cbn [delta_ops_loop].
  pose proof (resolve_index ns d op Hd Hlen) as Hres. destruct Hd as (_ & _ & Ed).
  destruct ds as [|d' ds].
  - apply Forall2_nil_inv_l in Hds as ->. cbn [fmap list_fmap join_with].
    rewrite <- (string_app_nil_r (show_delta d)), show_delta_split, string_app_nil_r.
    cbn [ok_or mbind outcome_bind]. rewrite Hres, Ed, split_value_last by done.
    cbn [mbind outcome_bind]. rewrite decide_True by done. by rewrite read_op.
  - rewrite fmap_cons, (fmap_cons show_delta d' ds), join_with_cons.
    rewrite <- (fmap_cons show_delta d' ds), show_delta_split.
    destruct (join_deltas_head d' ds) as (c & s & Ej & Hc).
    cbn [ok_or mbind outcome_bind]. rewrite Hres, Ed. cbn [mbind outcome_bind].
    rewrite (split_value_more op _ c s) by (done || by eapply join_deltas_tidy).
    cbn [mbind outcome_bind]. rewrite decide_False by (by rewrite Ej).
    rewrite IH by (done || lia). cbn [mbind outcome_bind]. by rewrite read_op.
Qed.

Lemma join_length l : (length l ≤ String.length (join_with "," l))%nat ∨ ∃ w, w ∈ l ∧ w = EmptyString.
Proof.
  induction l as [|w l IH]; [by left|]. destruct w as [|c w].
  { right. exists EmptyString. split; [left|done]. }
  destruct IH as [IH|(w' & Hw & ->)]; [|right; exists EmptyString; split; [by right|done]].
  left. destruct l as [|w' l]; [simpl; lia|]. rewrite join_with_cons, string_length_app. simpl in *. lia.
Qed.

(** The text of the deltas is read as the operations. *)
Lemma parse_deltas ns ds ops :
  Forall2 (denotes ns) ds ops → Forall op_ok ops → Z.of_nat (length ns) ≤ u64_max →
  parse_label_delta_ops (join_with "," (show_delta <$> ds)) (Some ns) = Ok ops.
Proof.
  intros Hds Hops Hlen. unfold parse_label_delta_ops.
  rewrite trim_tidy by (by eapply join_deltas_tidy). destruct ds as [|d ds].
  { by apply Forall2_nil_inv_l in Hds as ->. }
  destruct (join_deltas_head d ds) as (c & s & Ej & _).
  rewrite decide_False by (by rewrite Ej). apply delta_ops_loop_spec; [done..|].
  destruct (join_length (show_delta <$> d :: ds)) as [Hl|(w & (x & Hx & _)%list_elem_of_fmap & ->)].
  - rewrite length_fmap in Hl. lia.
  - unfold show_delta in Hx. destruct (show_head x.1) as (? & ? & E & _). by rewrite E in Hx.
Qed.

(** ** Which labels are sent *)

Lemma omap_fmap {A B C} (f : A → option C) (g : A → option B) (h : B → C) (l : list A) :
  (∀ x, f x = h <$> g x) → omap f l = h <$> omap g l.
Proof.
  intros E. induction l as [|x l IH]; [done|]. csimpl. rewrite E, IH. by destruct (g x).
Qed.

Lemma dedup_cons x y l :
  dedup (x :: y :: l) = if decide (x = y) then dedup (y :: l) else x :: dedup (y :: l).
Proof. done. Qed.

Lemma elem_of_dedup x l : x ∈ dedup l ↔ x ∈ l.
Proof.
  induction l as [|y l IH]; [done|]. destruct l as [|z l]; [done|]. rewrite dedup_cons.
  case_decide as E; [subst z; rewrite IH; set_solver|].
  split; (intros [->|Hx]%elem_of_cons; [left|right; by apply IH]).
Qed.

Lemma dedup_NoDup l : StronglySorted str_le l → NoDup (dedup l).
Proof.
  induction 1 as [|x l Hs IH Hx]; [constructor|]. destruct l as [|y l]; [apply NoDup_singleton|].
  rewrite dedup_cons. case_decide as E; [done|]. constructor; [|done]. rewrite elem_of_dedup.
  intros [->|Hin]%elem_of_cons; [done|]. apply StronglySorted_inv in Hs as [_ Hy].
  rewrite Forall_forall in Hx, Hy. apply E, str_le_antisym; [apply Hx; left|by apply Hy].
Qed.

Definition sent_keys (prev cur : Labels) : list string :=
  dedup (merge_sort str_le ((hash_iter prev).*1 ++ (hash_iter cur).*1)).

Lemma sent_keys_NoDup prev cur : NoDup (sent_keys prev cur).
Proof.
  apply dedup_NoDup, StronglySorted_merge_sort; [exact str_cmp_trans|exact str_le_total].
Qed.

Lemma elem_of_hash_keys (m : Labels) k : k ∈ (hash_iter m).*1 ↔ is_Some (m !! k).
Proof.
  rewrite list_elem_of_fmap. split.
  - intros ([k' v] & -> & Hv%elem_of_hash_iter). by eexists.
  - intros [v Hv%elem_of_hash_iter]. by exists (k, v).
Qed.

Lemma elem_of_sent_keys prev cur k : k ∈ sent_keys prev cur ↔ is_Some (prev !! k) ∨ is_Some (cur !! k).
Proof.
  unfold sent_keys. rewrite elem_of_dedup, merge_sort_Permutation, elem_of_app. by rewrite !elem_of_hash_keys.
Qed.

Definition own_ops (previous : option Labels) (cur : Labels) : list (string * option string) :=
  match previous with
  | Some prev => omap (λ key, if decide (prev !! key = cur !! key) then None else Some (key, cur !! key))
                   (sent_keys prev cur)
  | None => prod_map id Some <$> hash_iter cur
  end.
Definition computed_ops (m : Labels) : list (string * option string) :=
  prod_map (String "@") Some <$> hash_iter m.

Lemma changed_labels_ops prev cur : changed_labels prev cur = op_text <$> own_ops (Some prev) cur.
Proof.
  unfold changed_labels, own_ops. fold (sent_keys prev cur).
  apply omap_fmap. intros k.
  destruct (prev !! k) as [p|], (cur !! k) as [c|]; simpl; repeat case_decide; simplify_eq; done.
Qed.

Lemma hash_iter_ops (m : Labels) (f : string → string) :
  prod_map f format_value <$> hash_iter m = op_text <$> (prod_map f Some <$> hash_iter m).
Proof. rewrite <- list_fmap_compose. apply list_fmap_ext. by intros i [k v] _. Qed.

Lemma elem_of_own_ops previous cur k v :
  (k, v) ∈ own_ops previous cur ↔ v = cur !! k ∧ default ∅ previous !! k ≠ cur !! k.
Proof.
  destruct previous as [prev|]; simpl.
  - rewrite list_elem_of_omap. split.
    + intros (k' & _ & Hk). case_decide; [done|]. by simplify_eq.
    + intros [-> Hne]. exists k. rewrite decide_False by done. split; [|done].
      apply elem_of_sent_keys. destruct (prev !! k), (cur !! k); naive_solver.
  - rewrite lookup_empty, list_elem_of_fmap. split.
    + intros ([k' v'] & [= -> ->] & ->%elem_of_hash_iter). done.
    + intros [-> Hne]. destruct (cur !! k) as [c|] eqn:E; [|done]. exists (k, c).
      by rewrite elem_of_hash_iter.
Qed.

Lemma elem_of_computed_ops m k v :
  (k, v) ∈ computed_ops m ↔ ∃ k' x, k = String "@" k' ∧ v = Some x ∧ m !! k' = Some x.
Proof.
  unfold computed_ops. rewrite list_elem_of_fmap. split.
  - intros ([k' x] & [= -> ->] & Hx%elem_of_hash_iter). by exists k', x.
  - intros (k' & x & -> & -> & Hx%elem_of_hash_iter). by exists (k', x).
Qed.

(** ** The labels after a delta *)

Lemma apply_ops_other ops base k : k ∉ ops.*1 → foldl apply_op base ops !! k = base !! k.
Proof.
  revert base. induction ops as [|[k' v] ops IH]; intros base Hk; [done|].
  cbn [fmap list_fmap fst] in Hk. apply not_elem_of_cons in Hk as [Hne Hk]. cbn [foldl]. rewrite IH by done.
  unfold apply_op. destruct v as [v|]; simpl; [by rewrite lookup_insert_ne|by rewrite lookup_delete_ne].
Qed.

Lemma apply_ops_in ops base k v : NoDup ops.*1 → (k, v) ∈ ops → foldl apply_op base ops !! k = v.
Proof.
  revert base. induction ops as [|[k' v'] ops IH]; intros base Hn Hin; [by apply elem_of_nil in Hin|].
  cbn [fmap list_fmap fst] in Hn. apply NoDup_cons in Hn as [Hk Hn]. cbn [foldl].
  apply elem_of_cons in Hin as [[= <- <-]|Hin]; [|by apply IH].
  rewrite apply_ops_other by done. unfold apply_op.
  destruct v as [v|]; simpl; [by rewrite lookup_insert_eq|by rewrite lookup_delete_eq].
Qed.

Definition at_key (k : string) : Prop := starts_with k "@" = true.
Definition no_at (m : Labels) : Prop := ∀ k, at_key k → m !! k = None.
Definition only_at (m : Labels) : Prop := ∀ k, ¬ at_key k → m !! k = None.

(** The computed labels, under the names they are sent with. *)
Definition at_labels (m : Labels) : Labels := kmap (String "@") m.

Lemma at_key_inv k : at_key k → ∃ k', k = String "@" k'.
Proof.
  unfold at_key. destruct k as [|c k]; [done|]. rewrite starts_with_char.
  intros <-%bool_decide_eq_true. by exists k.
Qed.

Lemma at_key_cons k : at_key (String "@" k).
Proof. unfold at_key. by rewrite starts_with_char, bool_decide_eq_true_2. Qed.

#[local] Instance at_inj : Inj (=) (=) (String "@").
Proof. by intros ? ? [= ->]. Qed.

Lemma at_labels_lookup m k : at_labels m !! String "@" k = m !! k.
Proof. exact (lookup_kmap (String "@") m k). Qed.

Lemma at_labels_only m : only_at (at_labels m).
Proof.
  intros k Hk. destruct (at_labels m !! k) as [v|] eqn:E; [|done].
  apply lookup_kmap_Some in E as (k' & -> & _); [|apply _]. destruct Hk. apply at_key_cons.
Qed.

Section Ops.
Variables (previous : option Labels) (cur computed : Labels).
Hypothesis Hprev : no_at (default ∅ previous).
Hypothesis Hcur : no_at cur.

Definition all_ops : list (string * option string) :=
  (own_ops previous cur ++ computed_ops computed)%list.

Lemma own_ops_NoDup : NoDup (own_ops previous cur).*1.
Proof.
  destruct previous as [prev|]; simpl.
  - pose proof (sent_keys_NoDup prev cur) as Hn. induction Hn as [|k l Hk _ IH]; [constructor|].
    cbn [omap list_omap]. case_decide; [done|]. cbn [fmap list_fmap fst]. constructor; [|done].
    intros ([k' v] & -> & (k2 & Hk2 & E)%list_elem_of_omap)%list_elem_of_fmap.
    by case_decide; simplify_eq.
  - rewrite <- list_fmap_compose. apply (NoDup_fst_hash_iter cur).
Qed.

Lemma all_ops_NoDup : NoDup all_ops.*1.
Proof.
  unfold all_ops. rewrite fmap_app. apply NoDup_app. split_and!; [apply own_ops_NoDup| |].
  - intros k ([k' v] & -> & [-> Hne]%elem_of_own_ops)%list_elem_of_fmap
      ([k2 v2] & E & (k3 & x & -> & _)%elem_of_computed_ops)%list_elem_of_fmap. simpl in E. subst k'.
    apply Hne. by rewrite (Hprev _ (at_key_cons k3)), (Hcur _ (at_key_cons k3)).
  - unfold computed_ops. rewrite <- list_fmap_compose.
    change (fst ∘ prod_map (String "@") Some) with (String "@" ∘ @fst string string).
    rewrite (list_fmap_compose fst (String "@")). apply NoDup_fmap_2; [apply _|].
    apply (NoDup_fst_hash_iter computed).
Qed.

Lemma all_ops_apply ops stale :
  ops ≡ₚ all_ops → only_at stale →
  foldl apply_op (default ∅ previous ∪ stale) ops = cur ∪ (at_labels computed ∪ stale).
Proof.
  intros Hp Hstale. assert (Hn : NoDup ops.*1) by (rewrite Hp; apply all_ops_NoDup).
  assert (Hin : ∀ k v, (k, v) ∈ ops ↔ (k, v) ∈ own_ops previous cur ∨ (k, v) ∈ computed_ops computed)
    by (intros k v; rewrite Hp; apply elem_of_app).
  assert (Hout : ∀ k, (∀ v, (k, v) ∉ ops) → k ∉ ops.*1)
    by (intros k Hk ([k' v] & -> & Hv)%list_elem_of_fmap; by apply (Hk v)).
  apply map_eq. intros k. destruct (decide (at_key k)) as [Hk|Hk].
  - destruct (at_key_inv k Hk) as [k' ->]. rewrite lookup_union_r by (by apply Hcur).
    destruct (computed !! k') as [x|] eqn:Ex.
    + rewrite (apply_ops_in ops _ _ (Some x)) by (done || (apply Hin; right; apply elem_of_computed_ops; eauto)).
      symmetry. apply lookup_union_Some_l. by rewrite at_labels_lookup.
    + rewrite apply_ops_other.
      * rewrite (lookup_union_r (default ∅ previous)) by (by apply Hprev).
        by rewrite lookup_union_r by (by rewrite at_labels_lookup).
      * apply Hout. intros v [[-> Hne]%elem_of_own_ops|(k2 & x & [= ->] & _ & ?)%elem_of_computed_ops]%Hin.
        -- apply Hne. by rewrite (Hprev _ Hk), (Hcur _ Hk).
        -- congruence.
  - rewrite lookup_union_l by (rewrite lookup_union_l by (by apply Hstale); by apply at_labels_only).
    destruct (decide (default ∅ previous !! k = cur !! k)) as [E|Hne].
    + rewrite apply_ops_other.
      * rewrite lookup_union_l by (by apply Hstale). done.
      * apply Hout. intros v [[-> Hne]%elem_of_own_ops|(k2 & x & -> & _)%elem_of_computed_ops]%Hin; [done|].
        destruct Hk. apply at_key_cons.
    + apply apply_ops_in; [done|]. apply Hin. left. by apply elem_of_own_ops.
Qed.
End Ops.

(** ** The header of a record *)

(** The index grows, and by the names of the labels only. *)
Lemma make_header_index (P : string → Prop) meta ct previous li :
  Forall P (names li) → meta_computed_labels meta = ∅ →
  (∀ k, is_Some (default ∅ previous !! k) ∨ is_Some (meta_labels meta !! k) → P k) →
  Forall P (names (make_record_header_value meta ct previous li).2).
Proof.
  intros Hli Hc Hk. unfold make_record_header_value, build_label_delta. rewrite Hc.
  set (own := match previous with Some prev => _ | None => _ end).
  assert (Hown : own = op_text <$> own_ops previous (meta_labels meta)).
  { subst own. destruct previous; [apply changed_labels_ops|apply hash_iter_ops]. }
  assert (hash_iter (∅ : Labels) = []) as ->.
  { apply Permutation_nil_r. by rewrite (hash_iter_perm ∅), map_to_list_empty. }
  cbn [fmap list_fmap]. rewrite app_nil_r.
  pose proof (push_deltas_names P own li Hli) as Hn. destruct (push_deltas own li). apply Hn.
  rewrite Hown. apply Forall_fmap, Forall_forall. intros [k v] [-> Hne]%elem_of_own_ops. apply Hk.
  simpl. destruct (default ∅ previous !! k), (meta_labels meta !! k); naive_solver.
Qed.

(** What the header of a record can carry. *)
Record meta_ok (meta : RecordMeta) : Prop := {
  mo_length : is_u64 (meta_content_length meta);
  mo_type : tidy (meta_content_type meta) = true;
  mo_type_comma : lacks "," (meta_content_type meta) = true;
  mo_type_set : meta_content_type meta ≠ EmptyString;
  mo_keys : no_at (meta_labels meta);
  mo_values : map_Forall (λ _, value_ok) (meta_labels meta);
  mo_computed : map_Forall (λ _, value_ok) (meta_computed_labels meta)
}.

Lemma build_label_delta_spec meta previous li :
  li_ok li →
  let '(text, li') := build_label_delta meta previous li in
  li_ok li' ∧ names li `prefix_of` names li' ∧
  ∃ ds ops, text = join_with "," (show_delta <$> ds) ∧ Forall2 (denotes (names li')) ds ops ∧
    ops ≡ₚ all_ops previous (meta_labels meta) (meta_computed_labels meta).
Proof.
  intros Hok. unfold build_label_delta.
  set (own := match previous with Some prev => _ | None => _ end).
  assert (own = op_text <$> own_ops previous (meta_labels meta)) as ->.
  { subst own. destruct previous; [apply changed_labels_ops|apply hash_iter_ops]. }
  change (λ k, String "@" k) with (String "@"). rewrite hash_iter_ops, <- fmap_app.
  fold (computed_ops (meta_computed_labels meta)).
  fold (all_ops previous (meta_labels meta) (meta_computed_labels meta)).
  set (ops := all_ops _ _ _). pose proof (push_deltas_spec ops li Hok) as Hpush.
  destruct (push_deltas (op_text <$> ops) li) as [ds li']. destruct Hpush as (Hok' & Hpre & Hds).
  split_and!; [done|done|].
  destruct (Permutation_Forall2 (Permutation_sym (merge_sort_Permutation idx_le ds)) Hds)
    as (ops' & Hp & Hds'). by exists (merge_sort idx_le ds), ops'.
Qed.

Lemma all_ops_ok meta previous :
  meta_ok meta → Forall op_ok (all_ops previous (meta_labels meta) (meta_computed_labels meta)).
Proof.
  intros Hm. apply Forall_forall. intros [k v] [Hin|Hin]%elem_of_app.
  - apply elem_of_own_ops in Hin as [-> _]. unfold op_ok. simpl.
    destruct (meta_labels meta !! k) eqn:E; [|done]. by apply (mo_values _ Hm k).
  - apply elem_of_computed_ops in Hin as (k' & x & -> & -> & Hx). by apply (mo_computed _ Hm k').
Qed.

(** The label names the reader of the header has: those the writer collected, and
    perhaps more; no header when there are none. *)
Definition names_seen (li : LabelIndex) (label_names : option (list string)) : Prop :=
  match label_names with
  | Some ns => names li `prefix_of` ns ∧ Z.of_nat (length ns) ≤ u64_max
  | None => names li = []
  end.

Lemma apply_delta_seen li label_names ds ops base :
  names_seen li label_names → Forall2 (denotes (names li)) ds ops → Forall op_ok ops → ds ≠ [] →
  apply_label_delta (join_with "," (show_delta <$> ds)) base label_names = Ok (foldl apply_op base ops).
Proof.
  intros Hns Hds Hops Hne. unfold apply_label_delta. destruct label_names as [ns|]; simpl in Hns.
  - destruct Hns as [Hpre Hlen]. rewrite (parse_deltas ns ds ops); [done| |done|done].
    eapply Forall2_impl; [exact Hds|]. intros d op. by apply denotes_prefix.
  - destruct Hds as [|d op ds ops (_ & Hd & _) _]; [done|]. by rewrite Hns, lookup_nil in Hd.
Qed.

(** The writer's and the reader's previous record of an entry agree, up to computed
    labels [stale] that only the reader remembers. *)
Definition in_step (written : option (string * Labels)) (read : option RecordHeader) (stale : Labels)
    : Prop :=
  only_at stale ∧
  match written, read with
  | None, None => stale = ∅
  | Some (ct, ls), Some h => content_type h = ct ∧ labels h = ls ∪ stale ∧ no_at ls
  | _, _ => False
  end.

Definition sent_type (meta : RecordMeta) (written : option (string * Labels)) : string :=
  match (fst <$> written) with
  | Some prev => if decide (prev = meta_content_type meta) then EmptyString else meta_content_type meta
  | None => meta_content_type meta
  end.

Lemma sent_type_tidy meta written :
  meta_ok meta → tidy (sent_type meta written) = true ∧ lacks "," (sent_type meta written) = true.
Proof.
  intros Hm. unfold sent_type. destruct (fst <$> written); [case_decide|];
    (done || (split; [apply (mo_type _ Hm)|apply (mo_type_comma _ Hm)])).
Qed.

Lemma read_type meta written read stale :
  meta_ok meta → in_step written read stale →
  (if decide (sent_type meta written = EmptyString)
   then from_option content_type "application/octet-stream" read
   else sent_type meta written) = meta_content_type meta.
Proof.
  intros Hm [_ Hin]. unfold sent_type.
  destruct written as [[ct ls]|], read as [h|]; try done; simpl.
  - destruct Hin as (<- & _). pose proof (mo_type_set _ Hm). repeat case_decide; congruence.
  - by rewrite decide_False by apply (mo_type_set _ Hm).
Qed.

Lemma read_labels meta written read stale ops :
  meta_ok meta → in_step written read stale →
  ops ≡ₚ all_ops (snd <$> written) (meta_labels meta) (meta_computed_labels meta) →
  foldl apply_op (from_option labels ∅ read) ops =
    meta_labels meta ∪ (at_labels (meta_computed_labels meta) ∪ stale).
Proof.
  intros Hm [Hst Hin] Hp. rewrite <- (all_ops_apply (snd <$> written) _ _) with (ops := ops); try done.
  - f_equal. destruct written as [[ct ls]|], read as [h|]; try done; simpl.
    + by destruct Hin as (_ & -> & _).
    + subst stale. by rewrite (left_id_L ∅ (∪)).
  - destruct written as [[ct ls]|]; simpl; [|by intros k _; rewrite lookup_empty].
    destruct read as [h|]; [|done]. apply Hin.
  - apply (mo_keys _ Hm).
Qed.

(** The parts of a header line. *)
Definition line (len : Z) (ct delta : string) : string :=
  let has_labels := negb (bool_decide (delta = EmptyString)) in
  join_with ","
    ([show len] ++ (if negb (bool_decide (ct = EmptyString)) || has_labels then [ct] else [])
     ++ (if has_labels then [delta] else []))%list.

Lemma show_no_comma z : lacks "," (show z) = true.
Proof. apply (lacks_class numeric); [done|apply show_numeric]. Qed.

Lemma parse_line len ct delta read label_names :
  is_u64 len → tidy ct = true → lacks "," ct = true →
  parse_record_header_with_defaults (line len ct delta) read label_names =
    if decide (ct = EmptyString ∧ delta = EmptyString) then
      prev ← ok_or UnprocessableEntity read; Ok (mkRecordHeader len (content_type prev) (labels prev))
    else
      ls ← (if decide (delta = EmptyString) then Ok (from_option labels ∅ read)
            else apply_label_delta delta (from_option labels ∅ read) label_names);
      Ok (mkRecordHeader len (if decide (ct = EmptyString)
                              then from_option content_type "application/octet-stream" read else ct) ls).
Proof.
  intros Hlen Ht Hc. pose proof (show_no_comma len) as Hs.
  assert (Hshow : trim (show len) = show len) by apply trim_tidy, tidy_plain, show_plain.
  unfold parse_record_header_with_defaults, line.
  destruct (decide (delta = EmptyString)) as [->|Hd].
  - rewrite (bool_decide_eq_true_2 (EmptyString = EmptyString)) by done.
    cbn [negb app]. rewrite orb_false_r. destruct (decide (ct = EmptyString)) as [->|Hct].
    + rewrite bool_decide_eq_true_2, decide_True by done. cbn [negb app join_with].
      rewrite split_once_none by done. by rewrite Hshow, parse_u64_show.
    + rewrite decide_False, bool_decide_eq_false_2 by naive_solver. cbn [negb app].
      rewrite join_with_cons, split_once_app by done. rewrite Hshow, parse_u64_show by done. simpl.
      rewrite split_once_none by done. rewrite trim_tidy by done. by rewrite decide_False.
  - rewrite decide_False, (bool_decide_eq_false_2 (delta = _)) by naive_solver.
    cbn [negb]. rewrite orb_true_r. cbn [app]. rewrite !join_with_cons, split_once_app by done.
    rewrite Hshow, parse_u64_show by done. cbn [ok_or mbind outcome_bind join_with].
    rewrite split_once_app by done. by rewrite trim_tidy.
Qed.

Lemma line_visible len ct delta :
  tidy ct = true → tidy delta = true → all_chars visible (line len ct delta) = true.
Proof.
  intros [Hc _]%tidy_iff [Hd _]%tidy_iff.
  assert (Hs : all_chars visible (show len) = true) by (eapply all_chars_impl, show_plain; apply plain_visible).
  assert (Hj : ∀ l, Forall (λ w, all_chars visible w = true) l → all_chars visible (join_with "," l) = true).
  { intros l Hl. induction Hl as [|w l Hw Hl IH]; [done|]. destruct l as [|w' l]; [done|].
    rewrite join_with_cons, all_chars_app, Hw. exact IH. }
  apply Hj. destruct (negb _ || negb _), (negb _); by repeat constructor.
Qed.

Lemma deltas_empty ds : join_with "," (show_delta <$> ds) = EmptyString ↔ ds = [].
Proof.
  split; [|by intros ->]. destruct ds as [|d ds]; [done|].
  destruct (join_deltas_head d ds) as (c & s & -> & _). done.
Qed.

(** The header line made for a record, read against the header of the previous
    record of its entry, gives back the record's content length and type, its labels,
    and its computed labels under their [@] names; computed labels of earlier records
    that the reader still has ([stale]) stay. *)
Lemma record_header_roundtrip meta written li :
  li_ok li → meta_ok meta →
  let '(o, li') := make_record_header_value meta (fst <$> written) (snd <$> written) li in
  li_ok li' ∧ names li `prefix_of` names li' ∧
  ∃ v raw, o = Ok v ∧ header_to_str v = Some raw ∧
    ∀ read stale label_names, in_step written read stale → names_seen li' label_names →
      parse_record_header_with_defaults raw read label_names =
        Ok (mkRecordHeader (meta_content_length meta) (meta_content_type meta)
              (meta_labels meta ∪ (at_labels (meta_computed_labels meta) ∪ stale))).
Proof.
  intros Hok Hm. unfold make_record_header_value.
  pose proof (build_label_delta_spec meta (snd <$> written) li Hok) as Hb.
  destruct (build_label_delta meta (snd <$> written) li) as [delta li'].
  destruct Hb as (Hok' & Hpre & ds & ops & Edelta & Hds & Hops). split_and!; [done|done|].
  assert (Hopok : Forall op_ok ops) by (rewrite Hops; by apply all_ops_ok).
  destruct (sent_type_tidy meta written Hm) as [Ht Hc].
  destruct (header_visible (line (meta_content_length meta) (sent_type meta written) delta)) as (v & Hv & Hs).
  { apply line_visible; [done|]. rewrite Edelta. by eapply join_deltas_tidy. }
  exists v, (line (meta_content_length meta) (sent_type meta written) delta).
  split_and!; [change (unwrap (header_from_str (line (meta_content_length meta) (sent_type meta written) delta)) = Ok v); by rewrite Hv|done|].
  intros read stale label_names Hin Hns. rewrite parse_line by (done || apply (mo_length _ Hm)).
  rewrite <- (read_type meta written read stale Hm Hin), <- (read_labels meta written read stale ops Hm Hin Hops).
  destruct (decide (delta = EmptyString)) as [E|E].
  - rewrite Edelta in E. apply deltas_empty in E as ->. apply Forall2_nil_inv_l in Hds as ->. simpl.
    case_decide as Hct; [|done]. destruct Hct as [Hct _]. rewrite Hct, decide_True by done.
    destruct Hin as [_ Hin]. destruct read as [h|]; [done|]. destruct written as [[]|]; [done|].
    by destruct (mo_type_set _ Hm).
  - rewrite decide_False by naive_solver. rewrite Edelta.
    rewrite (apply_delta_seen li' label_names ds ops); try done. intros ->. by apply E.
Qed.
End Codec.
