(* ===== verification/BatchResponse.v ===== *)
(** * BatchResponse: the response to a batched read
    (api/http/io/read.rs)

    The records of a query are collected until a limit of the batch is reached,
    their entries are put in the order of their first records, and the headers of
    the response are made. *)

From stdpp Require Import prelude gmap strings sorting.
From Stdlib Require Import Ascii ZArith Lia.
From S2P Require Import Prelude Collections Proto Text Split Batch Condition Filters.
Open Scope Z_scope.
Local Open Scope string_scope.
Local Open Scope Z_scope.

(** The record behind a reader: its entry, timestamp and metadata. *)
Record Incoming := mkIncoming {
  in_entry : string;
  in_ts : Z;
  in_meta : RecordMeta
}.

Section Response.
Context `{HashIter} `{Http}.

(** [BatchedRecord] without the reader. *)
Record BatchedRecord := mkBatched {
  br_index : Z;
  br_ts : Z;
  br_value : HeaderValue
}.

(** The local variables of [fetch_and_response_batched_records]. *)
Record Batching := mkBatching {
  b_entries : list string;
  b_indices : gmap string Z;
  b_records : list BatchedRecord;
  b_prev : gmap string (string * Labels);
  b_labels : LabelIndex;
  b_header_size : Z;
  b_body_size : Z;
  b_start : option Z
}.
Definition batching_new : Batching := mkBatching [] ∅ [] ∅ label_index_default 0 0 None.

Definition calculate_header_size (records : list BatchedRecord) (start_ts : Z) : outcome Z :=
  foldl (λ acc r,
    n ← acc;
    v ← unwrap (header_to_str (br_value r));
    Ok (n + Z.of_nat (String.length (make_batched_header_name (br_index r) (u64_sub (br_ts r) start_ts)))
          + Z.of_nat (String.length v) + 2)) (Ok 0) records.

(** [entry_indices.entry(name).or_insert_with(...)]. *)
Definition entry_slot (entry : string) (b : Batching) : Z * list string * gmap string Z :=
  match b_indices b !! entry with
  | Some i => (i, b_entries b, b_indices b)
  | None =>
      let i := Z.of_nat (length (b_entries b)) in
      (i, (b_entries b ++ [entry])%list, <[entry := i]> (b_indices b))
  end.

(** The body of the loop for a record. *)
Definition add_reader (b : Batching) (r : Incoming) : outcome Batching :=
  let start := match b_start b with Some c => c `min` in_ts r | None => in_ts r end in
  let '(i, entries, indices) := entry_slot (in_entry r) b in
  let prev := b_prev b !! in_entry r in
  let '(o, li) := make_record_header_value (in_meta r) (fst <$> prev) (snd <$> prev) (b_labels b) in
  value ← o;
  let body := u64_add (b_body_size b) (meta_content_length (in_meta r)) in
  let records := (b_records b ++ [mkBatched i (in_ts r) value])%list in
  size ← calculate_header_size records start;
  Ok (mkBatching entries indices records
        (<[in_entry r := (meta_content_type (in_meta r), meta_labels (in_meta r))]> (b_prev b))
        li size body (Some start)).

(** One chunk of the query stream: true when the last record was seen. *)
Fixpoint add_readers (b : Batching) (rs : list (Incoming + ErrorCode)) : outcome (Batching * bool) :=
  match rs with
  | [] => Ok (b, false)
  | inl r :: rs' => b' ← add_reader b r; add_readers b' rs'
  | inr e :: _ =>
      if decide (b_records b = []) then Err e
      else if decide (e = NoContent) then Ok (b, true)
      else Err e
  end.

(** What the loop gets from the stream, and whether the batch timed out by then:
    a chunk of readers, or nothing within the timeout of a record. *)
Inductive received := Chunk (rs : list (Incoming + ErrorCode)) (elapsed : bool) | Nothing (elapsed : bool).

Definition limits_hit (io : IoConfig) (empty_body : bool) (b : Batching) : bool :=
  bool_decide (b_header_size b > batch_max_metadata_size io)
  || (negb empty_body && bool_decide (b_body_size b > batch_max_size io))
  || bool_decide (Z.of_nat (length (b_records b)) >= batch_max_records io).

(** The loop; it waits for more when the events do not end it. *)
Fixpoint fetch_loop (io : IoConfig) (empty_body : bool) (b : Batching) (events : list received)
    : option (outcome (Batching * bool)) :=
  match events with
  | [] => None
  | Nothing elapsed :: events' =>
      if elapsed || negb (bool_decide (b_records b = [])) then Some (Ok (b, false))
      else fetch_loop io empty_body b events'
  | Chunk rs elapsed :: events' =>
      match add_readers b rs with
      | Ok (b', last) =>
          if last || limits_hit io empty_body b' || elapsed then Some (Ok (b', last))
          else fetch_loop io empty_body b' events'
      | Err e => Some (Err e)
      | Panic => Some Panic
      end
  end.

(** ** Assembling the headers *)

Definition first_ts_by_entry (records : list BatchedRecord) : gmap Z Z :=
  foldl (λ m r, <[br_index r := from_option (Z.min (br_ts r)) (br_ts r) (m !! br_index r)]> m) ∅ records.

Definition entry_le (first : gmap Z Z) (x y : Z * string) : Prop :=
  let tx := default u64_max (first !! x.1) in
  let ty := default u64_max (first !! y.1) in
  tx < ty ∨ tx = ty ∧ str_le x.2 y.2.
#[export] Instance entry_le_dec first : RelDecision (entry_le first).
Proof. intros x y. unfold entry_le. apply _. Defined.

Definition enumerate {A} (l : list A) : list (Z * A) := imap (λ i x, (Z.of_nat i, x)) l.

(** The entries in the order of their first records. *)
Definition order_entries (b : Batching) : list (Z * string) :=
  merge_sort (entry_le (first_ts_by_entry (b_records b))) (enumerate (b_entries b)).

Definition remapped_indices (ordered : list (Z * string)) : gmap Z Z :=
  foldl (λ m x, <[x.2.1 := x.1]> m) ∅ (enumerate ordered).

Definition remap (indices : gmap Z Z) (r : BatchedRecord) : outcome BatchedRecord :=
  i ← unwrap (indices !! br_index r); Ok (mkBatched i (br_ts r) (br_value r)).

Definition record_le (x y : BatchedRecord) : Prop :=
  br_index x < br_index y ∨ br_index x = br_index y ∧ br_ts x ≤ br_ts y.
#[export] Instance record_le_dec : RelDecision record_le.
Proof. intros x y. unfold record_le. apply _. Defined.

(** [HeaderMap::insert]: the value replaces those of the name. *)
Fixpoint header_insert (name : string) (v : HeaderValue) (hs : list (string * HeaderValue))
    : list (string * HeaderValue) :=
  match hs with
  | [] => [(name, v)]
  | (n, w) :: hs' => if decide (n = name) then (n, v) :: hs' else (n, w) :: header_insert name v hs'
  end.

Definition insert_record_headers (start_ts : Z) (records : list BatchedRecord) (hs : list (string * HeaderValue))
    : list (string * HeaderValue) :=
  foldl (λ hs r, header_insert (make_batched_header_name (br_index r) (u64_sub (br_ts r) start_ts))
                   (br_value r) hs) hs records.

(** The headers of the response, made from what was collected. *)
Definition response_headers (b : Batching) (last : bool) : outcome (list (string * HeaderValue)) :=
  let ordered := order_entries b in
  records ← collect (remap (remapped_indices ordered)) (b_records b);
  let records := merge_sort record_le records in
  let start_ts := default 0 (b_start b) in
  entries ← make_entries_header ordered.*2;
  start ← unwrap (header_from_str (show start_ts));
  label_header ← as_header (b_labels b);
  let hs := header_insert START_TS_HEADER start (header_insert ENTRIES_HEADER entries []) in
  let hs := match label_header with Some v => header_insert LABELS_HEADER v hs | None => hs end in
  let hs := insert_record_headers start_ts records hs in
  len ← unwrap (header_from_str (show (b_body_size b)));
  ct ← unwrap (header_from_str "application/octet-stream");
  flag ← unwrap (header_from_str (if last then "true" else "false"));
  Ok (header_insert "x-reduct-last" flag
        (header_insert "content-type" ct (header_insert "content-length" len hs))).

(** [fetch_and_response_batched_records]: [query_gone] is the answer of the second
    lookup of the query, [egress] the check of the rate limit. *)
Definition fetch_and_response_batched_records (io : IoConfig) (empty_body query_gone : bool)
    (egress : Z → outcome ()) (events : list received)
    : option (outcome (list (string * HeaderValue))) :=
  o ← fetch_loop io empty_body batching_new events;
  Some ('(b, last) ← o;
        if decide (b_records b = [] ∧ query_gone = true) then Err NoContent
        else
          _ ← (if empty_body then Ok tt else egress (b_body_size b));
          response_headers b last).
End Response.
