(* ===== verification/BatchRoundtrip.v ===== *)
(** * BatchRoundtrip: a reader of the response gets the records of the batch

    The headers are made in the order in which the records arrive, each against
    the previous record of its entry; they are read entry by entry in the order of
    time.  When the records of each entry arrive in the order of time, the two
    agree, and the response carries every record. *)

From stdpp Require Import prelude gmap strings sorting.
From Stdlib Require Import Ascii ZArith Lia.
From S2P Require Import Prelude Collections Proto Text Split Batch BatchCodec Condition Filters BatchResponse.
Open Scope Z_scope.
Local Open Scope string_scope.
Local Open Scope list_scope.
Local Open Scope Z_scope.

Section Roundtrip.
Context `{HashIter} `{Http} `{!HashIterLaws} `{!HttpLaws}.

(** A record that a batch can carry. *)
Record incoming_ok (r : Incoming) : Prop := {
  io_entry : name_ok (in_entry r);
  io_ts : is_u64 (in_ts r);
  io_meta : meta_ok (in_meta r);
  io_computed : meta_computed_labels (in_meta r) = ∅;
  io_labels : ∀ k, is_Some (meta_labels (in_meta r) !! k) → name_ok k
}.

(** What a reader of the response is to get for it. *)
Definition header_of (m : RecordMeta) : RecordHeader :=
  mkRecordHeader (meta_content_length m) (meta_content_type m) (meta_labels m).
Definition delivered (r : Incoming) : EntryRecordHeader :=
  mkEntryRecord (in_entry r) (in_ts r) (header_of (in_meta r)).

(** ** Collecting *)

(** A record of the batch: where its entry is, the record its header was made
    against, and the header. *)
Record Sent := mkSent {
  s_in : Incoming;
  s_prev : option (string * Labels);
  s_index : Z;
  s_value : HeaderValue;
  s_raw : string
}.
Implicit Types (x : Sent) (X : list Sent) (b : Batching).

Definition meta_pair x : string * Labels :=
  (meta_content_type (in_meta (s_in x)), meta_labels (in_meta (s_in x))).

Definition of_entry (e : string) X : list Sent := filter (λ x, in_entry (s_in x) = e) X.

(** The headers of an entry are made each against the one before. *)
Fixpoint chain (p : option (string * Labels)) X : Prop :=
  match X with
  | [] => True
  | x :: X' => s_prev x = p ∧ chain (Some (meta_pair x)) X'
  end.

Definition last_pair (p : option (string * Labels)) X : option (string * Labels) :=
  match last X with Some x => Some (meta_pair x) | None => p end.

Lemma chain_snoc p X x : chain p X → s_prev x = last_pair p X → chain p (X ++ [x]).
Proof.
  revert p. induction X as [|y X IH]; intros p Hc Hx; [done|]. destruct Hc as [Hy Hc]. split; [done|].
  apply IH; [done|]. rewrite Hx. unfold last_pair. rewrite last_cons. by destruct (last X).
Qed.

(** Read with the right previous header, the line of a record gives its header. *)
Definition readable (li : LabelIndex) x : Prop :=
  header_to_str (s_value x) = Some (s_raw x) ∧
  ∀ read label_names, in_step (s_prev x) read ∅ → names_seen li label_names →
    parse_record_header_with_defaults (s_raw x) read label_names = Ok (header_of (in_meta (s_in x))).

Lemma names_seen_prefix li li' label_names :
  names li `prefix_of` names li' → names_seen li' label_names → names_seen li label_names.
Proof.
  intros Hp. destruct label_names as [ns|]; simpl.
  - intros [? ?]. split; [by etrans|done].
  - intros E. rewrite E in Hp. destruct Hp as [l Hl]. by destruct (names li).
Qed.

Lemma readable_prefix li li' x : names li `prefix_of` names li' → readable li x → readable li' x.
Proof.
  intros Hp [Hs Hr]. split; [done|]. intros read ln Hin Hns. apply Hr; [done|]. by eapply names_seen_prefix.
Qed.

Definition batched_of x : BatchedRecord := mkBatched (s_index x) (in_ts (s_in x)) (s_value x).

(** The state after the records [X]. *)
Record collected b X : Prop := {
  co_records : b_records b = batched_of <$> X;
  co_ok : Forall (λ x, incoming_ok (s_in x)) X;
  co_nodup : NoDup (b_entries b);
  co_indices : ∀ e i, b_indices b !! e = Some i → 0 ≤ i ∧ b_entries b !! Z.to_nat i = Some e;
  co_known : ∀ e, e ∈ b_entries b → is_Some (b_indices b !! e);
  co_names : Forall name_ok (b_entries b);
  co_index : Forall (λ x, 0 ≤ s_index x ∧ b_entries b !! Z.to_nat (s_index x) = Some (in_entry (s_in x))) X;
  co_start : Forall (λ x, ∃ m, b_start b = Some m ∧ m ≤ in_ts (s_in x)) X;
  co_start_ok : from_option is_u64 True (b_start b);
  co_li : li_ok (b_labels b);
  co_labels : Forall name_ok (names (b_labels b));
  co_chain : ∀ e, chain None (of_entry e X);
  co_prev : ∀ e, b_prev b !! e = last_pair None (of_entry e X);
  co_readable : Forall (readable (b_labels b)) X
}.

Lemma collected_new : collected batching_new [].
Proof.
  split; try done; try by constructor.
  intros e He. by apply elem_of_nil in He.
Qed.

Lemma header_size_total X start :
  Forall (λ x, header_to_str (s_value x) = Some (s_raw x)) X →
  ∃ n, calculate_header_size (batched_of <$> X) start = Ok n.
Proof.
  intros HX. unfold calculate_header_size. generalize 0. induction HX as [|x X Hx _ IH]; intros n; [by eexists|].
  cbn [fmap list_fmap foldl]. cbn [mbind outcome_bind batched_of br_value]. rewrite Hx.
  cbn [unwrap mbind outcome_bind]. apply IH.
Qed.

Lemma entry_slot_spec b X e :
  collected b X → name_ok e →
  let '(i, es, ix) := entry_slot e b in
  NoDup es ∧ (∀ e i, ix !! e = Some i → 0 ≤ i ∧ es !! Z.to_nat i = Some e) ∧
  (∀ e, e ∈ es → is_Some (ix !! e)) ∧ Forall name_ok es ∧
  0 ≤ i ∧ es !! Z.to_nat i = Some e ∧ b_entries b `prefix_of` es.
Proof.
  intros Hc He. unfold entry_slot. destruct (b_indices b !! e) as [i|] eqn:E.
  - destruct (co_indices _ _ Hc e i E). split_and!; try apply Hc; try done.
  - assert (Hnew : (b_entries b ++ [e])%list !! length (b_entries b) = Some e)
      by (by rewrite lookup_app_r, Nat.sub_diag).
    rewrite Nat2Z.id. split_and!; [| | | |lia|done|by eexists].
    + apply NoDup_app. split_and!; [apply Hc| |apply NoDup_singleton].
      intros e' He' ->%list_elem_of_singleton. destruct (co_known _ _ Hc e He') as [j Hj]. congruence.
    + intros e' j [[<- <-]|[_ Hj]]%lookup_insert_Some; [rewrite Nat2Z.id; split; [lia|done]|].
      destruct (co_indices _ _ Hc e' j Hj). split; [done|]. by apply lookup_app_l_Some.
    + intros e' [He'| ->%list_elem_of_singleton]%elem_of_app.
      * apply lookup_insert_is_Some. destruct (decide (e = e')); [by left|right].
        split; [done|]. by apply (co_known _ _ Hc).
      * rewrite lookup_insert_eq. by eexists.
    + apply Forall_app. split; [apply Hc|by apply Forall_singleton].
Qed.

Lemma of_entry_snoc e X x :
  of_entry e (X ++ [x]) =
    if decide (in_entry (s_in x) = e) then (of_entry e X ++ [x])%list else of_entry e X.
Proof.
  unfold of_entry. rewrite filter_app. cbn [filter list_filter].
  case_decide; [done|by rewrite app_nil_r].
Qed.

(** What a header is made against can be read. *)
Lemma prev_in_step b X e :
  collected b X →
  ∃ read, in_step (b_prev b !! e) read ∅ ∧ no_at (default ∅ (snd <$> (b_prev b !! e))) ∧
    ∀ k, is_Some (default ∅ (snd <$> (b_prev b !! e)) !! k) → name_ok k.
Proof.
  intros Hc. rewrite (co_prev _ _ Hc). unfold last_pair.
  destruct (last (of_entry e X)) as [x|] eqn:El.
  - assert (Hx : x ∈ X).
    { apply last_Some in El as [l El]. apply (list_elem_of_filter (λ x, in_entry (s_in x) = e)).
      fold (of_entry e X). rewrite El. apply elem_of_app. right. left. }
    pose proof (co_ok _ _ Hc) as Hok. rewrite Forall_forall in Hok. specialize (Hok x Hx). simpl.
    pose proof (mo_keys _ (io_meta _ Hok)). exists (Some (header_of (in_meta (s_in x)))).
    split_and!; [|done|apply (io_labels _ Hok)]. split; [by intros k _; rewrite lookup_empty|].
    split_and!; [done| |done]. simpl. by rewrite (right_id_L ∅ (∪)).
  - exists None. simpl. split_and!; [|by intros k _; rewrite lookup_empty|].
    + split; [by intros k _; rewrite lookup_empty|done].
    + intros k Hk. rewrite lookup_empty in Hk. by destruct Hk.
Qed.

Lemma add_reader_collected b X r :
  collected b X → incoming_ok r →
  ∃ b' x, add_reader b r = Ok b' ∧ s_in x = r ∧ collected b' (X ++ [x]).
Proof.
  intros Hc Hr. unfold add_reader.
  set (start := match b_start b with Some c => c `min` in_ts r | None => in_ts r end).
  pose proof (entry_slot_spec b X (in_entry r) Hc (io_entry _ Hr)) as Hslot.
  destruct (entry_slot (in_entry r) b) as [[i es] ix].
  destruct Hslot as (Hnd & Hix & Hkn & Hnm & Hi & Hes & Hpre).
  pose proof (record_header_roundtrip (in_meta r) (b_prev b !! in_entry r) (b_labels b)
    (co_li _ _ Hc) (io_meta _ Hr)) as Hmake.
  pose proof (make_header_index name_ok (in_meta r) (fst <$> (b_prev b !! in_entry r))
    (snd <$> (b_prev b !! in_entry r)) (b_labels b) (co_labels _ _ Hc) (io_computed _ Hr)) as Hnames.
  destruct (make_record_header_value _ _ _ _) as [o li].
  destruct Hmake as (Hli & Hlpre & v & raw & -> & Hraw & Hparse).
  destruct (prev_in_step b X (in_entry r) Hc) as (_ & _ & _ & Hprevnames).
  set (x := mkSent r (b_prev b !! in_entry r) i v raw).
  assert (Hx : readable li x).
  { split; [done|]. intros read ln Hin Hns. simpl in *. rewrite (Hparse read ∅ ln Hin Hns).
    rewrite (io_computed _ Hr). unfold at_labels. rewrite kmap_empty, !(right_id_L ∅ (∪)). done. }
  assert (Hread : Forall (readable li) (X ++ [x])).
  { apply Forall_app. split; [|by apply Forall_singleton]. eapply Forall_impl; [apply (co_readable _ _ Hc)|].
    intros y. by apply readable_prefix. }
  assert (Hrecs : (b_records b ++ [mkBatched i (in_ts r) v])%list = batched_of <$> (X ++ [x]))
    by (rewrite fmap_app, (co_records _ _ Hc); done).
  cbn [mbind outcome_bind]. rewrite Hrecs.
  destruct (header_size_total (X ++ [x]) start) as [n ->].
  { eapply Forall_impl; [exact Hread|]. by intros y [? _]. }
  cbn [mbind outcome_bind]. eexists _, x. split_and!; [done|done|].
  assert (Hstart : is_u64 start ∧ start ≤ in_ts r ∧ ∀ m, b_start b = Some m → start ≤ m).
  { pose proof (co_start_ok _ _ Hc) as Hs. pose proof (io_ts _ Hr). subst start.
    destruct (b_start b) as [m|]; simpl in Hs; split_and!; try done; try lia; try u64_lia.
    intros m' [= <-]. lia. }
  split; cbn [b_records b_entries b_indices b_start b_labels b_prev]; try done.
  - apply Forall_app. split; [apply (co_ok _ _ Hc)|by apply Forall_singleton].
  - apply Forall_app. split; [|by apply Forall_singleton]. eapply Forall_impl; [apply (co_index _ _ Hc)|].
    intros y [? Hy]. split; [done|]. destruct Hpre as [l ->]. by apply lookup_app_l_Some.
  - apply Forall_app. split; [|apply Forall_singleton; exists start; simpl; split; [done|apply (proj1 (proj2 Hstart))]].
    eapply Forall_impl; [apply (co_start _ _ Hc)|]. intros y (m & Hm & ?). exists start.
    split; [done|]. destruct Hstart as (? & ? & Hs). specialize (Hs m Hm). lia.
  - apply Hstart.
  - apply Hnames. intros k [Hk|Hk]; [by apply Hprevnames|by apply (io_labels _ Hr)].
  - intros e. rewrite of_entry_snoc. case_decide as E; [|apply (co_chain _ _ Hc)].
    apply chain_snoc; [apply (co_chain _ _ Hc)|]. rewrite <- (co_prev _ _ Hc e). simpl in E. by subst e.
  - intros e. rewrite of_entry_snoc. case_decide as E.
    + subst e. simpl. rewrite lookup_insert_eq. unfold last_pair. by rewrite last_snoc.
    + rewrite lookup_insert_ne by done. apply (co_prev _ _ Hc).
Qed.

Lemma add_readers_collected b X rs :
  collected b X → Forall incoming_ok rs →
  ∃ b' Y, add_readers b (inl <$> rs) = Ok (b', false) ∧ s_in <$> Y = rs ∧ collected b' (X ++ Y).
Proof.
  intros Hc Hrs. revert b X Hc. induction Hrs as [|r rs Hr _ IH]; intros b X Hc.
  { exists b, []. by rewrite app_nil_r. }
  destruct (add_reader_collected b X r Hc Hr) as (b1 & x & E & Hx & Hc1).
  destruct (IH b1 _ Hc1) as (b2 & Y & E2 & HY & Hc2). exists b2, (x :: Y).
  cbn [fmap list_fmap add_readers]. rewrite E. cbn [mbind outcome_bind]. split_and!; [done| |].
  - rewrite Hx. by f_equal.
  - by rewrite <- app_assoc in Hc2.
Qed.

(** ** Renumbering the entries *)

Lemma fold_insert_lookup {A} (f g : A → Z) (l : list A) (m : gmap Z Z) y :
  NoDup (f <$> l) → y ∈ l → foldl (λ m y, <[f y := g y]> m) m l !! f y = Some (g y).
Proof.
  assert (Hother : ∀ l (m : gmap Z Z) k, k ∉ f <$> l → foldl (λ m y, <[f y := g y]> m) m l !! k = m !! k).
  { clear. induction l as [|z l IH]; intros m k Hk; [done|]. cbn [fmap list_fmap foldl] in *.
    apply not_elem_of_cons in Hk as [Hne Hk]. rewrite IH by done. by rewrite lookup_insert_ne. }
  revert m. induction l as [|z l IH]; intros m Hn Hy; [by apply elem_of_nil in Hy|].
  cbn [fmap list_fmap foldl] in *. apply NoDup_cons in Hn as [Hz Hn].
  apply elem_of_cons in Hy as [->|Hy]; [|by apply IH]. rewrite Hother by done. by rewrite lookup_insert_eq.
Qed.

Lemma elem_of_enumerate {A} (l : list A) i y : (i, y) ∈ enumerate l ↔ 0 ≤ i ∧ l !! Z.to_nat i = Some y.
Proof.
  unfold enumerate. rewrite list_elem_of_lookup. split.
  - intros [j Hj]. rewrite list_lookup_imap in Hj. destruct (l !! j) eqn:E; [|done]. simplify_eq/=.
    rewrite Nat2Z.id. split; [lia|done].
  - intros [Hi Hy]. exists (Z.to_nat i). rewrite list_lookup_imap, Hy. simpl. by rewrite Z2Nat.id.
Qed.

Lemma enumerate_NoDup {A} (l : list A) : NoDup (enumerate l).*1.
Proof.
  apply NoDup_alt. intros i j x Hi Hj. rewrite list_lookup_fmap in Hi, Hj. unfold enumerate in *.
  rewrite list_lookup_imap in Hi, Hj. destruct (l !! i), (l !! j); simplify_eq/=. lia.
Qed.

Lemma enumerate_snd {A} (l : list A) : (enumerate l).*2 = l.
Proof.
  apply list_eq. intros i. unfold enumerate. rewrite list_lookup_fmap, list_lookup_imap. by destruct (l !! i).
Qed.

(** An entry keeps its records under its new number. *)
Lemma renumber ordered es i e :
  ordered ≡ₚ enumerate es → 0 ≤ i → es !! Z.to_nat i = Some e →
  ∃ j, remapped_indices ordered !! i = Some j ∧ 0 ≤ j ∧ ordered.*2 !! Z.to_nat j = Some e.
Proof.
  intros Hp Hi He. assert (Hin : (i, e) ∈ ordered) by (rewrite Hp; by apply elem_of_enumerate).
  apply list_elem_of_lookup in Hin as [j Hj]. exists (Z.of_nat j). split_and!; [|lia|].
  - unfold remapped_indices.
    apply (fold_insert_lookup (λ x : Z * (Z * string), x.2.1) fst (enumerate ordered) ∅ (Z.of_nat j, (i, e))).
    + change (λ x : Z * (Z * string), x.2.1) with (@fst Z string ∘ @snd Z (Z * string)).
      rewrite list_fmap_compose, enumerate_snd, Hp. apply enumerate_NoDup.
    + apply elem_of_enumerate. rewrite Nat2Z.id. split; [lia|done].
  - by rewrite Nat2Z.id, list_lookup_fmap, Hj.
Qed.

(** ** Header maps *)

(** [into_iter] of a map with one value for each name, in any order. *)
Definition iterates (hm : HeaderMap) (hs : list (string * HeaderValue)) : Prop :=
  hm ≡ₚ (prod_map Some id <$> hs).

Lemma header_get_nodup hs name v :
  NoDup hs.*1 → (name, v) ∈ hs → header_get name (prod_map Some id <$> hs) = Some v.
Proof.
  induction hs as [|[n w] hs IH]; intros Hn Hin; [by apply elem_of_nil in Hin|].
  cbn [fmap list_fmap fst] in Hn. apply NoDup_cons in Hn as [Hnew Hn].
  cbn [fmap list_fmap prod_map fst snd header_get]. apply elem_of_cons in Hin as [[= <- <-]|Hin].
  - by rewrite decide_True.
  - rewrite decide_False; [by apply IH|]. intros ->. apply Hnew, list_elem_of_fmap. by exists (name, v).
Qed.

Lemma header_get_none hs name : name ∉ hs.*1 → header_get name (prod_map Some id <$> hs) = None.
Proof.
  induction hs as [|[n w] hs IH]; intros Hn; [done|]. cbn [fmap list_fmap fst] in Hn.
  apply not_elem_of_cons in Hn as [Hne Hn]. cbn [fmap list_fmap prod_map fst snd header_get].
  rewrite decide_False by done. by apply IH.
Qed.

Lemma iterates_get hm hs name v :
  iterates hm hs → NoDup hs.*1 → (name, v) ∈ hs → header_get name hm = Some v.
Proof.
  intros Hit Hn Hin. destruct (Permutation_map_inv _ _ Hit) as (hs' & -> & Hp).
  apply header_get_nodup; [by rewrite <- Hp|by rewrite <- Hp].
Qed.

Lemma iterates_get_none hm hs name : iterates hm hs → name ∉ hs.*1 → header_get name hm = None.
Proof.
  intros Hit Hn. destruct (Permutation_map_inv _ _ Hit) as (hs' & -> & Hp).
  apply header_get_none. by rewrite <- Hp.
Qed.

Lemma header_insert_new name v hs : name ∉ hs.*1 → header_insert name v hs = hs ++ [(name, v)].
Proof.
  induction hs as [|[n w] hs IH]; intros Hn; [done|]. cbn [fmap list_fmap fst] in Hn.
  apply not_elem_of_cons in Hn as [Hne Hn]. cbn [header_insert]. rewrite decide_False by done. by rewrite IH.
Qed.

Lemma collect_fmap {A B C} (f : B → outcome C) (g : A → B) (h : A → C) (l : list A) :
  Forall (λ y, f (g y) = Ok (h y)) l → collect f (g <$> l) = Ok (h <$> l).
Proof.
  induction 1 as [|y l Hy _ IH]; [done|]. cbn [fmap list_fmap collect]. rewrite Hy. simpl. by rewrite IH.
Qed.

(** ** Reading the headers of an entry in their order *)

Section Loop.
Variables (entries : list string) (start : Z) (label_names : option (list string)) (li : LabelIndex)
  (num : Sent → Z).
Hypothesis Hseen : names_seen li label_names.

Definition key_of x : Z * Z * HeaderValue := (num x, u64_sub (in_ts (s_in x)) start, s_value x).

Definition parsable x : Prop :=
  incoming_ok (s_in x) ∧ readable li x ∧ entries !! Z.to_nat (num x) = Some (in_entry (s_in x)) ∧
  is_u64 start ∧ start ≤ in_ts (s_in x).

Lemma of_entry_cons e x X :
  of_entry e (x :: X) = if decide (in_entry (s_in x) = e) then x :: of_entry e X else of_entry e X.
Proof. unfold of_entry. by rewrite filter_cons. Qed.

Lemma parse_loop_delivers X last :
  Forall parsable X →
  (∀ e, ∃ p, in_step p (last !! e) ∅ ∧ chain p (of_entry e X)) →
  parse_batch_loop entries start label_names last (key_of <$> X) = Ok (delivered ∘ s_in <$> X).
Proof.
  intros HX. revert last. induction HX as [|x X Hx _ IH]; intros last Hchain; [done|].
  destruct Hx as (Hok & [Hraw Hread] & Hentry & Hst & Hle). cbn [fmap list_fmap parse_batch_loop key_of].
  rewrite Hentry. cbn [ok_or mbind outcome_bind]. unfold to_str. rewrite Hraw. cbn [ok_or mbind outcome_bind].
  destruct (Hchain (in_entry (s_in x))) as (p & Hp & Hc). rewrite of_entry_cons, decide_True in Hc by done.
  destruct Hc as [Hprev Hc]. rewrite Hread by (done || by rewrite Hprev). cbn [mbind outcome_bind].
  rewrite IH.
  - pose proof (io_ts _ Hok). rewrite u64_sub_small by u64_lia.
    rewrite u64_add_small by u64_lia. rewrite Zplus_minus. done.
  - intros e. destruct (decide (in_entry (s_in x) = e)) as [<-|Hne].
    + exists (Some (meta_pair x)). rewrite lookup_insert_eq. split; [|done].
      split; [by intros k _; rewrite lookup_empty|]. split_and!; [done| |apply (io_meta _ Hok)].
      simpl. by rewrite (right_id_L ∅ (∪)).
    + rewrite lookup_insert_ne by done. specialize (Hchain e). rewrite of_entry_cons, decide_False in Hchain by done.
      done.
Qed.
End Loop.

(** ** The response *)

Section Assemble.
Variables (b : Batching) (X : list Sent) (last_flag : bool).
Hypothesis Hc : collected b X.
Hypothesis HX : X ≠ [].
Hypothesis Hlabels : Z.of_nat (length (names (b_labels b))) ≤ u64_max.
Hypothesis Hentries : Z.of_nat (length (b_entries b)) ≤ u64_max.
Hypothesis Hasc : ∀ e, StronglySorted (λ x y, in_ts (s_in x) < in_ts (s_in y)) (of_entry e X).

Definition ordered : list (Z * string) := order_entries b.
Definition num x : Z := default 0 (remapped_indices ordered !! s_index x).
Definition start : Z := default 0 (b_start b).
Definition delta x : Z := u64_sub (in_ts (s_in x)) start.
Definition header x : string * HeaderValue := (make_batched_header_name (num x) (delta x), s_value x).

Lemma ordered_perm : ordered ≡ₚ enumerate (b_entries b).
Proof. apply merge_sort_Permutation. Qed.

Lemma ordered_entries : ordered.*2 ≡ₚ b_entries b.
Proof. rewrite ordered_perm. by rewrite enumerate_snd. Qed.

Lemma num_spec x :
  x ∈ X → remapped_indices ordered !! s_index x = Some (num x) ∧
    ordered.*2 !! Z.to_nat (num x) = Some (in_entry (s_in x)) ∧ is_u64 (num x).
Proof.
  intros Hx. pose proof (co_index _ _ Hc) as Hi. rewrite Forall_forall in Hi. destruct (Hi x Hx) as [H0i He].
  destruct (renumber ordered _ _ _ ordered_perm H0i He) as (j & Hj & H0j & Hej).
  unfold num. rewrite Hj. simpl. split_and!; [done|done|].
  apply lookup_lt_Some in Hej. rewrite (Permutation_length ordered_entries) in Hej. u64_lia.
Qed.

Lemma start_spec x : x ∈ X → is_u64 start ∧ start ≤ in_ts (s_in x) ∧ is_u64 (delta x).
Proof.
  intros Hx. pose proof (co_start _ _ Hc) as Hs. rewrite Forall_forall in Hs.
  destruct (Hs x Hx) as (m & Hm & Hle). pose proof (co_start_ok _ _ Hc) as Hok.
  unfold delta, start. rewrite Hm in *. simpl in *. split_and!; [done|done|apply u64_sub_range].
Qed.

Lemma remap_all :
  collect (remap (remapped_indices ordered)) (b_records b) =
    Ok ((λ x, mkBatched (num x) (in_ts (s_in x)) (s_value x)) <$> X).
Proof.
  rewrite (co_records _ _ Hc). apply collect_fmap, Forall_forall. intros x Hx.
  unfold remap, batched_of. cbn [br_index br_ts br_value]. by rewrite (proj1 (num_spec x Hx)).
Qed.

(** Two records of the batch do not share a header name. *)
Lemma same_name x y :
  x ∈ X → y ∈ X → (header x).1 = (header y).1 →
  in_entry (s_in x) = in_entry (s_in y) ∧ in_ts (s_in x) = in_ts (s_in y).
Proof.
  intros Hx Hy Heq. destruct (num_spec x Hx) as (_ & Hex & Hnx), (num_spec y Hy) as (_ & Hey & Hny).
  destruct (start_spec x Hx) as (Hs & Hsx & Hdx), (start_spec y Hy) as (_ & Hsy & Hdy).
  pose proof (header_name_roundtrip _ _ Hnx Hdx) as Px.
  pose proof (header_name_roundtrip _ _ Hny Hdy) as Py. simpl in Heq. rewrite Heq, Py in Px.
  injection Px as En Ed. rewrite En in Hey. split; [congruence|].
  pose proof (co_ok _ _ Hc) as Hok. rewrite Forall_forall in Hok.
  pose proof (io_ts _ (Hok x Hx)). pose proof (io_ts _ (Hok y Hy)).
  unfold delta in Ed. rewrite !u64_sub_small in Ed by u64_lia. lia.
Qed.

Lemma headers_NoDup Y :
  (∀ x, x ∈ Y → x ∈ X) →
  (∀ e, StronglySorted (λ x y, in_ts (s_in x) < in_ts (s_in y)) (of_entry e Y)) →
  NoDup (header <$> Y).*1.
Proof.
  induction Y as [|x Y IH]; intros HY Hs; [constructor|].
  cbn [fmap list_fmap]. constructor.
  - intros (h & Eh & (y & -> & Hy)%list_elem_of_fmap)%list_elem_of_fmap.
    destruct (same_name x y) as [Ee Et]; [apply HY; left|apply HY; by right|done|].
    specialize (Hs (in_entry (s_in x))). rewrite of_entry_cons, decide_True in Hs by done.
    apply StronglySorted_inv in Hs as [_ Hall]. rewrite Forall_forall in Hall.
    specialize (Hall y). rewrite Et in Hall.
    assert (in_ts (s_in y) < in_ts (s_in y)); [|lia]. apply Hall. unfold of_entry.
    by apply list_elem_of_filter.
  - apply IH; [intros y Hy; apply HY; by right|]. intros e. specialize (Hs e).
    rewrite of_entry_cons in Hs. case_decide; [by apply StronglySorted_inv in Hs as [? _]|done].
Qed.

Lemma insert_all rs hs :
  NoDup (hs.*1 ++ ((λ r, make_batched_header_name (br_index r) (u64_sub (br_ts r) start)) <$> rs)) →
  insert_record_headers start rs hs =
    hs ++ ((λ r, (make_batched_header_name (br_index r) (u64_sub (br_ts r) start), br_value r)) <$> rs).
Proof.
  revert hs. induction rs as [|r rs IH]; intros hs Hn; [by rewrite app_nil_r|].
  cbn [insert_record_headers foldl fmap list_fmap] in *. rewrite cons_middle, app_assoc in Hn.
  rewrite header_insert_new.
  - change (insert_record_headers start rs (hs ++ [(make_batched_header_name (br_index r)
      (u64_sub (br_ts r) start), br_value r)]) = hs ++ (make_batched_header_name (br_index r)
      (u64_sub (br_ts r) start), br_value r) :: ((λ r, (make_batched_header_name (br_index r)
      (u64_sub (br_ts r) start), br_value r)) <$> rs)).
    rewrite IH; [by rewrite <- app_assoc|]. by rewrite fmap_app.
  - apply NoDup_app in Hn as (Hn & _ & _). apply NoDup_app in Hn as (_ & Hd & _).
    intros Hin. apply (Hd _ Hin). left.
Qed.

Definition sorted_records : list BatchedRecord :=
  merge_sort record_le ((λ x, mkBatched (num x) (in_ts (s_in x)) (s_value x)) <$> X).
Definition record_headers : list (string * HeaderValue) :=
  (λ r, (make_batched_header_name (br_index r) (u64_sub (br_ts r) start), br_value r)) <$> sorted_records.

Lemma record_headers_perm : record_headers ≡ₚ (header <$> X).
Proof.
  unfold record_headers, sorted_records. rewrite merge_sort_Permutation, <- list_fmap_compose. done.
Qed.

Lemma record_headers_batched h : h ∈ record_headers → batched h.1 = true.
Proof.
  rewrite record_headers_perm. intros (x & -> & Hx)%list_elem_of_fmap.
  apply header_name_batched. apply (start_spec x Hx).
Qed.

(** The other headers, before and after those of the records. *)
Definition front (ev sv : HeaderValue) (lv : option HeaderValue) : list (string * HeaderValue) :=
  [(ENTRIES_HEADER, ev); (START_TS_HEADER, sv)] ++ match lv with Some v => [(LABELS_HEADER, v)] | None => [] end.
Definition back (cl ct fl : HeaderValue) : list (string * HeaderValue) :=
  [("content-length", cl); ("content-type", ct); ("x-reduct-last", fl)].

Lemma fixed_names ev sv lv cl ct fl :
  NoDup ((front ev sv lv).*1 ++ (back cl ct fl).*1) ∧
  Forall (λ n, batched n = false) ((front ev sv lv).*1 ++ (back cl ct fl).*1).
Proof.
  destruct lv; split; try (by repeat constructor); apply (bool_decide_unpack _); by vm_compute.
Qed.

Lemma response_names ev sv lv cl ct fl :
  NoDup (front ev sv lv ++ record_headers ++ back cl ct fl).*1.
Proof.
  destruct (fixed_names ev sv lv cl ct fl) as [Hn Hf]. rewrite !fmap_app.
  rewrite (Permutation_app_comm record_headers.*1), app_assoc. apply NoDup_app. split_and!; [done| |].
  - intros n Hin (h & -> & Hh)%list_elem_of_fmap. rewrite Forall_forall in Hf. specialize (Hf _ Hin).
    simpl in Hf. rewrite (record_headers_batched h Hh) in Hf. done.
  - rewrite record_headers_perm. by apply headers_NoDup.
Qed.

(** The values the headers are made of, as they are read. *)
Definition told (v : HeaderValue) (s : string) : Prop := header_to_str v = Some s.

Lemma show_header z : ∃ v, unwrap (header_from_str (show z)) = Ok v ∧ told v (show z).
Proof.
  destruct (header_visible (show z)) as (v & Hv & E).
  - eapply all_chars_impl, show_plain. apply plain_visible.
  - exists v. by rewrite Hv.
Qed.

Lemma label_header :
  ∃ lv, as_header (b_labels b) = Ok lv ∧
    match lv with
    | Some v => parse_labels_header v = Ok (names (b_labels b))
    | None => names (b_labels b) = []
    end.
Proof.
  destruct (decide (names (b_labels b) = [])) as [E|E].
  - exists None. unfold as_header. by rewrite E.
  - destruct (labels_header_roundtrip (b_labels b) E (co_labels _ _ Hc)) as (v & ? & ?). by exists (Some v).
Qed.

Lemma insert_back hs cl ct fl :
  NoDup (hs.*1 ++ (back cl ct fl).*1) →
  header_insert "x-reduct-last" fl (header_insert "content-type" ct (header_insert "content-length" cl hs)) =
    hs ++ back cl ct fl.
Proof.
  intros (_ & Hd & _)%NoDup_app.
  assert (Hn : ∀ n, n ∈ (back cl ct fl).*1 → n ∉ hs.*1) by (intros n Hn Hin; by apply (Hd n)).
  rewrite (header_insert_new "content-length") by (apply Hn; set_solver).
  rewrite (header_insert_new "content-type") by
    (rewrite fmap_app; apply not_elem_of_app; split; [apply Hn; set_solver|set_solver]).
  rewrite (header_insert_new "x-reduct-last") by
    (rewrite !fmap_app, !not_elem_of_app; split_and!; [apply Hn; set_solver|set_solver|set_solver]).
  by rewrite <- !app_assoc.
Qed.

Lemma response_shape :
  ∃ ev sv lv cl ct fl,
    response_headers b last_flag = Ok (front ev sv lv ++ record_headers ++ back cl ct fl) ∧
    parse_entries_header ev = Ok ordered.*2 ∧ told sv (show start) ∧
    match lv with
    | Some v => parse_labels_header v = Ok (names (b_labels b))
    | None => names (b_labels b) = []
    end.
Proof.
  destruct (entries_header_roundtrip ordered.*2) as (ev & Hev & Pev).
  { intros E. pose proof ordered_entries as Hp. rewrite E in Hp. apply Permutation_nil_l in Hp.
    destruct X as [|x X']; [done|]. pose proof (co_index _ _ Hc) as Hi. apply Forall_cons in Hi as [[_ Hi] _].
    by rewrite <- Hp, lookup_nil in Hi. }
  { rewrite ordered_entries. apply (co_names _ _ Hc). }
  destruct (show_header start) as (sv & Hsv & Psv), label_header as (lv & Hlv & Plv).
  destruct (show_header (b_body_size b)) as (cl & Hcl & _).
  destruct (header_text "application/octet-stream") as (ct & Hct & _); [done|].
  destruct (header_text (if last_flag then "true" else "false")) as (fl & Hfl & _); [by destruct last_flag|].
  exists ev, sv, lv, cl, ct, fl. split_and!; try done.
  pose proof (response_names ev sv lv cl ct fl) as Hn. rewrite !fmap_app in Hn.
  unfold response_headers. fold ordered. rewrite remap_all. cbn [mbind outcome_bind].
  fold sorted_records. fold start. rewrite Hev, Hsv, Hlv, Hcl, Hct, Hfl. cbn [mbind outcome_bind].
  set (hs := match lv with Some v => _ | None => _ end).
  assert (Hhs : hs = front ev sv lv) by (subst hs; destruct lv; reflexivity). clearbody hs. subst hs.
  rewrite insert_all.
  2:{ rewrite app_assoc in Hn. apply NoDup_app in Hn as (Hn & _ & _). revert Hn.
      unfold record_headers. rewrite <- list_fmap_compose. done. }
  fold record_headers. f_equal. rewrite insert_back; [by rewrite <- app_assoc|].
  by rewrite fmap_app, <- app_assoc.
Qed.

Abbreviation key := (key_of start num).

Lemma named_headers ev sv lv cl ct fl hm :
  iterates hm (front ev sv lv ++ record_headers ++ back cl ct fl) →
  omap (λ '(name, value), name' ← name; if batched name' then Some (name', value) else None) hm
    ≡ₚ (header <$> X).
Proof.
  intros Hit. unfold iterates in Hit. rewrite Hit, <- record_headers_perm.
  assert (Hf : ∀ hs : list (string * HeaderValue),
    omap (λ '(name, value), name' ← name; if batched name' then Some (name', value) else None)
      (prod_map Some id <$> hs) = filter (λ h, batched h.1 = true) hs).
  { induction hs as [|[n v] hs IH]; [done|]. cbn [fmap list_fmap prod_map fst snd omap list_omap].
    cbn [mbind option_bind id]. rewrite filter_cons. cbn [fst].
    destruct (batched n) eqn:E; [rewrite decide_True by done|rewrite decide_False by done]; by rewrite <- IH. }
  rewrite Hf, !filter_app. destruct (fixed_names ev sv lv cl ct fl) as [_ Hfix].
  rewrite Forall_forall in Hfix.
  rewrite (filter_none _ (front ev sv lv)), (filter_none _ (back cl ct fl)), app_nil_r; simpl.
  - by rewrite filter_all by apply record_headers_batched.
  - intros h Hh Hb. rewrite Hfix in Hb; [done|]. apply elem_of_app. right. by apply list_elem_of_fmap_2.
  - intros h Hh Hb. rewrite Hfix in Hb; [done|]. apply elem_of_app. left. by apply list_elem_of_fmap_2.
Qed.

(** Sorted by entry and time, the records of an entry are in the order in which
    they arrived. *)
Lemma sorted_of_entry Y e :
  Y ≡ₚ X → StronglySorted key_le (key <$> Y) → of_entry e Y = of_entry e X.
Proof.
  intros Hp Hs. apply (sorted_perm_eq (λ x, in_ts (s_in x))); [unfold of_entry; by rewrite Hp| |apply Hasc].
  assert (Hin : ∀ y, y ∈ Y → y ∈ X) by (intros y; by rewrite Hp). clear Hp.
  induction Y as [|x Y IH]; [constructor|]. cbn [fmap list_fmap] in Hs.
  apply StronglySorted_inv in Hs as [Hs Hall]. rewrite of_entry_cons.
  assert (IHY : StronglySorted (λ x y, in_ts (s_in x) ≤ in_ts (s_in y)) (of_entry e Y))
    by (apply IH; [done|intros y Hy; apply Hin; by right]).
  case_decide as E; [|done]. constructor; [done|]. apply Forall_forall.
  intros y [Ey Hy]%list_elem_of_filter. rewrite Forall_forall in Hall.
  specialize (Hall (key y) (list_elem_of_fmap_2 _ _ _ Hy)).
  assert (Hx : x ∈ X) by (apply Hin; left). assert (Hy' : y ∈ X) by (apply Hin; by right).
  assert (En : num x = num y).
  { destruct (num_spec x Hx) as (_ & Hex & Hnx), (num_spec y Hy') as (_ & Hey & Hny).
    rewrite E in Hex. rewrite Ey in Hey. assert (Hnd : NoDup ordered.*2) by (rewrite ordered_entries; apply Hc).
    pose proof (NoDup_lookup _ _ _ _ Hnd Hex Hey). u64_lia. }
  destruct (start_spec x Hx) as (? & ? & _), (start_spec y Hy') as (_ & ? & _).
  pose proof (co_ok _ _ Hc) as Hok. rewrite Forall_forall in Hok.
  pose proof (io_ts _ (Hok x Hx)). pose proof (io_ts _ (Hok y Hy')).
  destruct Hall as [Hlt|[_ Hle]]; simpl in *; [lia|]. rewrite !u64_sub_small in Hle by u64_lia. lia.
Qed.

Lemma sorted_headers ev sv lv cl ct fl hm :
  iterates hm (front ev sv lv ++ record_headers ++ back cl ct fl) →
  ∃ Y, sort_headers_by_entry_and_time hm = Ok (key <$> Y) ∧ Y ≡ₚ X ∧ ∀ e, of_entry e Y = of_entry e X.
Proof.
  intros Hit. unfold sort_headers_by_entry_and_time.
  destruct (Permutation_map_inv _ _ (named_headers ev sv lv cl ct fl hm Hit)) as (X1 & E1 & Hp1).
  rewrite E1. change (map header X1) with (header <$> X1).
  rewrite (collect_fmap _ header key).
  2:{ apply Forall_forall. intros x Hx. rewrite <- Hp1 in Hx. destruct (num_spec x Hx) as (_ & _ & Hn).
      destruct (start_spec x Hx) as (_ & _ & Hd). cbn [header]. by rewrite header_name_roundtrip. }
  cbn [mbind outcome_bind].
  destruct (Permutation_map_inv _ _ (merge_sort_Permutation key_le (key <$> X1))) as (X2 & E2 & Hp2).
  assert (E3 : merge_sort key_le (key <$> X1) = key <$> X2) by exact E2.
  exists X2. split; [by rewrite E3|]. assert (Hp : X2 ≡ₚ X) by (by rewrite <- Hp2, Hp1). split; [done|].
  intros e. apply sorted_of_entry; [done|]. rewrite <- E3.
  apply StronglySorted_merge_sort.
  - intros [[i d] v] [[i2 d2] v2] [[i3 d3] v3]. unfold key_le. simpl. lia.
  - intros [[i d] v] [[i2 d2] v2]. unfold key_le. simpl. lia.
Qed.

Lemma no_label_header ev sv cl ct fl :
  LABELS_HEADER ∉ (front ev sv None ++ record_headers ++ back cl ct fl).*1.
Proof.
  rewrite !fmap_app, !not_elem_of_app. split_and!.
  - apply (bool_decide_unpack _). by vm_compute.
  - intros (h & Eh & Hh)%list_elem_of_fmap. pose proof (record_headers_batched h Hh) as Hb.
    rewrite <- Eh in Hb. by vm_compute in Hb.
  - apply (bool_decide_unpack _). by vm_compute.
Qed.

Lemma response_read hm hs :
  response_headers b last_flag = Ok hs → iterates hm hs →
  ∃ l, parse_batched_headers hm = Ok l ∧ l ≡ₚ delivered <$> (s_in <$> X).
Proof.
  intros E Hit. destruct response_shape as (ev & sv & lv & cl & ct & fl & E' & Pev & Psv & Plv).
  assert (hs = front ev sv lv ++ record_headers ++ back cl ct fl) as -> by congruence. pose proof (response_names ev sv lv cl ct fl) as Hn.
  assert (Hget : ∀ n v, (n, v) ∈ front ev sv lv → header_get n hm = Some v).
  { intros n v Hin. apply (iterates_get _ _ _ _ Hit Hn). apply elem_of_app. by left. }
  unfold parse_batched_headers, parse_entries. rewrite (Hget ENTRIES_HEADER ev) by set_solver. rewrite Pev.
  cbn [mbind outcome_bind]. unfold parse_start_timestamp. rewrite (Hget START_TS_HEADER sv) by set_solver.
  cbn [ok_or mbind outcome_bind]. unfold to_str. rewrite Psv. cbn [ok_or mbind outcome_bind].
  assert (∃ x, x ∈ X) as [x0 Hx0] by (destruct X as [|x X']; [done|exists x; left]).
  assert (Hstart : is_u64 start) by apply (start_spec x0 Hx0).
  rewrite parse_u64_show by done. cbn [ok_or mbind outcome_bind].
  assert (Hln : ∃ ln, parse_labels hm = Ok ln ∧ names_seen (b_labels b) ln).
  { unfold parse_labels. destruct lv as [v|].
    - exists (Some (names (b_labels b))). rewrite (Hget LABELS_HEADER v) by set_solver. by rewrite Plv.
    - exists None. by rewrite (iterates_get_none _ _ LABELS_HEADER Hit) by apply no_label_header. }
  destruct Hln as (ln & -> & Hseen). cbn [mbind outcome_bind].
  destruct (sorted_headers ev sv lv cl ct fl hm Hit) as (Y & -> & Hp & Hof). cbn [mbind outcome_bind].
  exists (delivered ∘ s_in <$> Y). split; [|by rewrite list_fmap_compose, Hp].
  apply (parse_loop_delivers _ _ _ (b_labels b)); [done| |].
  - apply Forall_forall. intros x Hx. rewrite Hp in Hx. pose proof (co_ok _ _ Hc) as Hok.
    pose proof (co_readable _ _ Hc) as Hr. rewrite Forall_forall in Hok, Hr.
    destruct (num_spec x Hx) as (_ & ? & _), (start_spec x Hx) as (? & ? & _). by split_and!; auto.
  - intros e. exists None. rewrite lookup_empty, Hof. split; [|apply (co_chain _ _ Hc)].
    split; [by intros k _; rewrite lookup_empty|done].
Qed.
End Assemble.

(** ** The whole handler *)

Definition chunk_records (rs : list (Incoming + ErrorCode)) : list Incoming :=
  omap (λ r, match r with inl r => Some r | inr _ => None end) rs.

(** The records the query sends. *)
Definition stream (events : list received) : list Incoming :=
  events ≫= λ e, match e with Chunk rs _ => chunk_records rs | Nothing _ => [] end.

(** Records a batch can carry, those of each entry in the order of time. *)
Definition stream_ok (rs : list Incoming) : Prop :=
  Forall incoming_ok rs ∧
  ∀ e, StronglySorted (λ r1 r2, in_ts r1 < in_ts r2) (filter (λ r, in_entry r = e) rs).

Lemma chunk_collected b X rs :
  collected b X → Forall incoming_ok (chunk_records rs) →
  match add_readers b rs with
  | Ok (b', last) => ∃ Y, collected b' (X ++ Y) ∧
      if (last : bool) then (s_in <$> Y) `prefix_of` chunk_records rs else s_in <$> Y = chunk_records rs
  | Err _ => True
  | Panic => False
  end.
Proof.
  revert b X. induction rs as [|[r|e] rs IH]; intros b X Hc Hrs.
  - exists []. by rewrite app_nil_r.
  - apply Forall_cons in Hrs as [Hr Hrs]. cbn [add_readers].
    destruct (add_reader_collected b X r Hc Hr) as (b1 & x & -> & Hx & Hc1). cbn [mbind outcome_bind].
    specialize (IH b1 _ Hc1 Hrs). destruct (add_readers b1 rs) as [[b2 last]| |]; [|done|done].
    destruct IH as (Y & Hc2 & HY). exists (x :: Y). rewrite <- app_assoc in Hc2. split; [done|].
    change (chunk_records (inl r :: rs)) with (r :: chunk_records rs). rewrite fmap_cons, Hx.
    destruct last; [by apply prefix_cons|by f_equal].
  - cbn [add_readers]. case_decide; [done|]. case_decide; [|done].
    exists []. rewrite app_nil_r. split; [done|apply prefix_nil].
Qed.

Lemma loop_collected io empty_body events b X :
  collected b X → Forall incoming_ok (stream events) →
  match fetch_loop io empty_body b events with
  | Some (Ok (b', last)) => ∃ Y, collected b' (X ++ Y) ∧ (s_in <$> Y) `prefix_of` stream events
  | Some Panic => False
  | _ => True
  end.
Proof.
  revert b X. induction events as [|[rs el|el] events IH]; intros b X Hc Hok; [done| |].
  - cbn [stream mbind list_bind] in Hok. fold (stream events) in Hok. apply Forall_app in Hok as [Hrs Hok].
    cbn [fetch_loop]. pose proof (chunk_collected b X rs Hc Hrs) as Hchunk.
    destruct (add_readers b rs) as [[b1 last]| |]; [|done|done]. destruct Hchunk as (Y & Hc1 & HY).
    assert (Hpre : (s_in <$> Y) `prefix_of` chunk_records rs) by (destruct last; [done|by rewrite HY]).
    destruct (last || limits_hit io empty_body b1 || el) eqn:El.
    + exists Y. split; [done|]. etrans; [exact Hpre|]. by apply prefix_app_r.
    + destruct last; [done|]. specialize (IH b1 _ Hc1 Hok).
      destruct (fetch_loop io empty_body b1 events) as [[[b2 last2]| |]|]; try done.
      destruct IH as (Y2 & Hc2 & HY2). exists (Y ++ Y2). rewrite <- app_assoc in Hc2. split; [done|].
      rewrite fmap_app, HY. by apply prefix_app.
  - cbn [fetch_loop]. destruct (el || _); [|by apply IH]. exists []. rewrite app_nil_r.
    split; [done|apply prefix_nil].
Qed.


(** A computed label outlives its record.  The writer compares a record with
    the stored labels of the previous one only, so nothing unsets a computed label
    that the next record does not have, and the reader attributes it to that record
    too. *)
Theorem computed_label_outlives_its_record m1 m2 li label_names :
  li_ok li → meta_ok m1 → meta_ok m2 → meta_computed_labels m2 = ∅ →
  let '(o1, li1) := make_record_header_value m1 None None li in
  let '(o2, li2) := make_record_header_value m2 (Some (meta_content_type m1)) (Some (meta_labels m1)) li1 in
  names_seen li2 label_names →
  ∃ h1, (v ← o1; raw ← to_str v; parse_record_header_with_defaults raw None label_names) = Ok h1 ∧
    (v ← o2; raw ← to_str v; parse_record_header_with_defaults raw (Some h1) label_names) =
      Ok (mkRecordHeader (meta_content_length m2) (meta_content_type m2)
            (meta_labels m2 ∪ at_labels (meta_computed_labels m1))).
Proof.
  intros Hli H1m H2m Hc2. pose proof (record_header_roundtrip m1 None li Hli H1m) as R1. simpl in R1.
  destruct (make_record_header_value m1 None None li) as [o1 li1].
  destruct R1 as (Hli1 & _ & v1 & raw1 & -> & E1 & P1).
  pose proof (record_header_roundtrip m2 (Some (meta_content_type m1, meta_labels m1)) li1 Hli1 H2m) as R2.
  simpl in R2. destruct (make_record_header_value m2 _ _ li1) as [o2 li2].
  destruct R2 as (_ & Hpre & v2 & raw2 & -> & E2 & P2). intros Hns.
  set (h1 := mkRecordHeader (meta_content_length m1) (meta_content_type m1)
               (meta_labels m1 ∪ at_labels (meta_computed_labels m1))).
  exists h1. unfold to_str. cbn [mbind outcome_bind]. rewrite E1, E2. cbn [ok_or mbind outcome_bind]. split.
  - rewrite (P1 None ∅).
    + by rewrite (right_id_L ∅ (∪)).
    + split; [by intros k _; rewrite lookup_empty|done].
    + by eapply names_seen_prefix.
  - rewrite (P2 (Some h1) (at_labels (meta_computed_labels m1))); [| |done].
    + rewrite Hc2. unfold at_labels at 1. by rewrite kmap_empty, (left_id_L ∅ (∪)).
    + split; [apply at_labels_only|]. split_and!; [done|done|apply (mo_keys _ H1m)].
Qed.
End Roundtrip.

(** ** Witnesses *)
Section Witnesses.
Existing Instance std_order.
Existing Instance std_order_laws.

(** Headers that hold visible text and nothing else. *)
Local Instance plain_http : Http := {|
  HeaderValue := string;
  header_from_str s := if all_chars visible s then Some s else None;
  header_to_str := Some
|}.
Local Instance plain_http_laws : HttpLaws.
Proof. intros s Hs. exists s. simpl. by rewrite Hs. Qed.

Definition sample (entry : string) (ts : Z) (ct value : string) : Incoming :=
  mkIncoming entry ts (mkMeta 7 ct {["k" := value]} ∅).

Lemma sample_ok entry ts ct value :
  name_ok entry → is_u64 ts → tidy ct = true → lacks "," ct = true → ct ≠ EmptyString → value_ok value →
  incoming_ok (sample entry ts ct value).
Proof.
  intros He Hts Ht Hl Hne Hv. split; [done|done| |done|].
  - split; cbn [sample in_meta meta_content_length meta_content_type meta_labels meta_computed_labels];
      try done; try u64_lia.
    + intros k Hk. apply lookup_singleton_ne. intros <-. by vm_compute in Hk.
    + by apply map_Forall_singleton.
  - intros k [v Hk]. cbn in Hk. by apply lookup_singleton_Some in Hk as [<- _].
Qed.

Definition sample_events : list received :=
  [Chunk [inl (sample "b" 20 "text/plain" "x,y"); inl (sample "a" 10 "text/plain" "1")] false;
   Chunk [inl (sample "b" 30 "text/plain" "z"); inr NoContent] false].
Definition sample_io : IoConfig := mkIoConfig 8000000 100 8000 5000000 1000000 60000000 None.

Lemma sample_stream_ok : stream_ok (stream sample_events).
Proof.
  split.
  - change (stream sample_events) with
      [sample "b" 20 "text/plain" "x,y"; sample "a" 10 "text/plain" "1"; sample "b" 30 "text/plain" "z"].
    repeat (apply Forall_cons; split); [| | |constructor];
      (apply sample_ok; [by split_and!|u64_lia|done|done|done|by split_and!]).
  - intros e. unfold sample_events. simpl. rewrite !filter_cons. cbn [in_entry in_ts sample].
    repeat case_decide; simplify_eq; repeat constructor; simpl; try lia.
Qed.

Lemma sample_fetched :
  match fetch_loop sample_io false batching_new sample_events with
  | Some (Ok (b, true)) =>
      (length (b_records b), length (b_entries b), length (names (b_labels b))) = (3, 2, 1)%nat
  | _ => False
  end.
Proof. by vm_compute. Qed.


Definition scored : RecordMeta := mkMeta 7 "text/plain" {["k" := "v"]} {["score" := "9"]}.
Definition unscored : RecordMeta := mkMeta 8 "text/plain" {["k" := "v"]} ∅.

Lemma scored_ok : meta_ok scored ∧ meta_ok unscored.
Proof.
  assert (Hk : no_at {["k" := "v"]})
    by (intros k Hk; apply lookup_singleton_ne; intros <-; by vm_compute in Hk).
  split; split; try done; try u64_lia; by apply map_Forall_singleton.
Qed.

Lemma computed_label_outlives_its_record_witness :
  let '(o1, li1) := make_record_header_value scored None None label_index_default in
  let '(o2, li2) := make_record_header_value unscored (Some "text/plain") (Some {["k" := "v"]}) li1 in
  ∃ h1, (v ← o1; raw ← to_str v; parse_record_header_with_defaults raw None (Some ["k"; "@score"])) = Ok h1 ∧
    (v ← o2; raw ← to_str v; parse_record_header_with_defaults raw (Some h1) (Some ["k"; "@score"])) =
      Ok (mkRecordHeader 8 "text/plain" ({["k" := "v"]} ∪ at_labels {["score" := "9"]})).
Proof.
  destruct scored_ok as [H1 H2].
  pose proof (computed_label_outlives_its_record scored unscored label_index_default (Some ["k"; "@score"])
    li_ok_default H1 H2 eq_refl) as Hl.
  cbn [scored unscored meta_content_type meta_labels meta_content_length meta_computed_labels] in Hl.
  fold scored unscored in Hl.
  assert (Hn : names (make_record_header_value unscored (Some "text/plain") (Some {["k" := "v"]})
                        (make_record_header_value scored None None label_index_default).2).2 = ["k"; "@score"])
    by (vm_compute; reflexivity).
  destruct (make_record_header_value scored None None label_index_default) as [o1 li1]. cbn [snd] in Hn.
  destruct (make_record_header_value unscored (Some "text/plain") (Some {["k" := "v"]}) li1) as [o2 li2].
  cbn [snd] in Hn. apply Hl. simpl. rewrite Hn. split; [done|simpl; u64_lia].
Defined.

(** The percent sign is not escaped, though it introduces an escape. *)
Example percent_sign_is_not_escaped :
  encode_entry_name "%41" = "%41" ∧ decode_entry_name (encode_entry_name "%41") = Ok "A" ∧
  decode_entry_name (encode_entry_name "100%") = Err UnprocessableEntity.
Proof. by vm_compute. Qed.

(** A value that begins with a quote is sent bare and read as a quoted one. *)
Example leading_quote_is_not_read_back :
  let '(o, li) := make_record_header_value (mkMeta 7 "text/plain" {["k" := String quote "v"]} ∅) None None
                    label_index_default in
  (raw ← o; parse_record_header_with_defaults raw None (Some (names li))) = Err UnprocessableEntity.
Proof. by vm_compute. Qed.
End Witnesses.
