(* ===== verification/BatchV1.v ===== *)
(** * BatchV1: batched requests of version 1, as a replication makes them
    (replication/remote_bucket/client_wrapper.rs)

    Every record has a header of its own, named after its timestamp, and the contents
    follow each other in the body.  What the client writes is read back by the parser of
    the header, which is in the file of the protocol. *)

From stdpp Require Import prelude gmap strings sorting.
From Stdlib Require Import Ascii ZArith Lia.
From S2P Require Import Prelude Collections Text Split Batch BatchCodec BatchResponse BatchRoundtrip.
Open Scope Z_scope.

Definition DEFAULT_CONTENT_TYPE : string := "application/octet-stream".

Section V1.
Context `{HashIter} `{Http}.

(** ** Writing headers (client_wrapper.rs) *)

(** A record to send: its metadata, and its content in the chunks it is read in. *)
Record OutRecord := mkOut {
  or_timestamp : Z;
  or_meta : RecordMeta;
  or_chunks : list (list Z)
}.

Definition label_text (kv : string * string) : string := kv.1 +:+ String "=" (format_value kv.2).

(** The value of the header of a record, in [build_headers]. *)
Definition header_value (update_only : bool) (r : OutRecord) : string :=
  let meta := or_meta r in
  let fixed := if update_only then ["0"; EmptyString] else [show (meta_content_length meta); meta_content_type meta] in
  let ls := if decide (meta_labels meta = ∅) then []
            else [join_with "," (merge_sort str_le (label_text <$> hash_iter (meta_labels meta)))] in
  join_with "," (fixed ++ ls).

Definition time_header_name (ts : Z) : string := TIME_PREFIX +:+ show ts.

Definition body_length (records : list OutRecord) : Z :=
  foldl (λ acc r, u64_add acc (meta_content_length (or_meta r))) 0 records.

Fixpoint insert_time_headers (update_only : bool) (records : list OutRecord) (hs : list (string * HeaderValue))
    : outcome (list (string * HeaderValue)) :=
  match records with
  | [] => Ok hs
  | r :: records' =>
      v ← unwrap (header_from_str (header_value update_only r));
      insert_time_headers update_only records' (header_insert (time_header_name (or_timestamp r)) v hs)
  end.

(** [BucketWrapper::build_headers]. *)
Definition build_headers (records : list OutRecord) (update_only : bool) : outcome (list (string * HeaderValue)) :=
  let len := if update_only then 0 else body_length records in
  ct ← unwrap (header_from_str DEFAULT_CONTENT_TYPE);
  cl ← unwrap (header_from_str (show len));
  insert_time_headers update_only records (header_insert "content-length" cl (header_insert "content-type" ct [])).

(** [sort_by_timestamp]: the latest first. *)
Definition later (r r' : OutRecord) : Prop := or_timestamp r' ≤ or_timestamp r.
#[export] Instance later_dec : RelDecision later.
Proof. intros r r'. unfold later. apply _. Defined.

(** [prepare_batch_to_write]: the headers, and the chunks of the body, for which the
    records are taken from the end. *)
Definition prepare_batch_to_write (records : list OutRecord) : outcome (list (string * HeaderValue) * list (list Z)) :=
  let records := merge_sort later records in
  hs ← build_headers records false;
  Ok (hs, concat (or_chunks <$> reverse records)).
End V1.

(** ** Labels *)

(** A label that can travel: the name has no equals sign, no white space at its ends and
    no comma at its start; the value is empty or one that version 2 can send. *)
Definition label_ok (kv : string * string) : Prop :=
  tidy kv.1 = true ∧ lacks "=" kv.1 = true ∧ (∃ c k, kv.1 = String c k ∧ c ≠ ","%char) ∧
  (kv.2 = EmptyString ∨ value_ok kv.2).

Definition label_op (kv : string * string) : string * option string :=
  (kv.1, if decide (kv.2 = EmptyString) then None else Some kv.2).

Lemma label_op_text kv : label_text kv = kv.1 +:+ String "=" (op_text (label_op kv)).2.
Proof. unfold label_text, label_op, op_text. by case_decide as E; [rewrite E|]. Qed.

Lemma label_op_value kv : default EmptyString (label_op kv).2 = kv.2.
Proof. unfold label_op. by case_decide. Qed.

Lemma label_op_ok kv : label_ok kv → op_ok (label_op kv).
Proof. intros (_ & _ & _ & Hv). unfold label_op, op_ok. case_decide; [done|]. simpl. by destruct Hv. Qed.

(** One turn of the loop reads a label the way version 2 does. *)
Lemma labels_loop_step fuel kv value v rest ls :
  label_ok kv → split_value value = Ok (v, rest) →
  labels_loop (S (S fuel)) (kv.1 +:+ String "=" value) ls = labels_loop (S fuel) rest (<[kv.1 := v]> ls).
Proof.
  intros (Ht & He & _ & _) Hs. cbn [labels_loop]. rewrite split_once_app by done.
  rewrite (trim_tidy kv.1) by done. unfold split_value in Hs.
  destruct (starts_with value (String quote "")).
  - destruct (split_once quote (drop_str 1 value)) as [[v' rest']|]; [|done]. simpl in Hs. by inversion Hs; subst.
  - destruct (split_once "," value) as [[v' rest']|]; inversion Hs; subst; [done|]. by simpl.
Qed.

Lemma label_text_tidy kv : label_ok kv → tidy (label_text kv) = true ∧ ∃ c s, label_text kv = String c s ∧ c ≠ ","%char.
Proof.
  intros (Ht & _ & (c & k & Hk & Hc) & Hv). split.
  - unfold label_text. apply tidy_app; [done| |by rewrite Hk|done].
    change (String "=" (format_value kv.2)) with ("=" +:+ format_value kv.2).
    destruct Hv as [->|Hv]; [done|]. destruct (format_value_tidy _ Hv). by apply tidy_app.
  - unfold label_text. rewrite Hk. by eexists _, _.
Qed.

Lemma join_labels_tidy kvs :
  Forall label_ok kvs → kvs ≠ [] →
  tidy (join_with "," (label_text <$> kvs)) = true ∧ ∃ c s, join_with "," (label_text <$> kvs) = String c s ∧ c ≠ ","%char.
Proof.
  intros Hall. induction Hall as [|kv kvs Hkv Hkvs IH]; [done|]. intros _.
  destruct (label_text_tidy kv Hkv) as (Ht & c & s & Hs & Hc).
  destruct kvs as [|kv' kvs]; [simpl; eauto|]. destruct (IH ltac:(done)) as (Ht' & c' & s' & Hs' & Hc').
  rewrite !fmap_cons in *. rewrite join_with_cons. split.
  - apply tidy_app; [done| |by rewrite Hs|done].
    change (String "," ?x) with ("," +:+ x). apply tidy_app; [done|done|done|by rewrite Hs'].
  - rewrite Hs. by eexists _, _.
Qed.

Lemma append_after a c b d : (a +:+ String c b) +:+ d = a +:+ String c (b +:+ d).
Proof.
  induction a as [|x a IH]; [done|].
  change ((String x a +:+ String c b) +:+ d) with (String x ((a +:+ String c b) +:+ d)).
  change (String x a +:+ ?y) with (String x (a +:+ y)). by rewrite IH.
Qed.

Lemma labels_loop_spec kvs fuel ls :
  Forall label_ok kvs → (length kvs < fuel)%nat →
  labels_loop fuel (join_with "," (label_text <$> kvs)) ls = Ok (foldl (λ m kv, <[kv.1 := kv.2]> m) ls kvs).
Proof.
  intros Hall. revert fuel ls. induction Hall as [|kv kvs Hkv Hkvs IH]; intros fuel ls Hf.
  { by destruct fuel; [lia|]. }
  destruct fuel as [|[|fuel]]; simpl in Hf; [lia|lia|].
  destruct kvs as [|kv' kvs].
  - cbn [fmap list_fmap join_with]. rewrite label_op_text.
    rewrite (labels_loop_step fuel kv _ kv.2 EmptyString); [done|done|].
    rewrite split_value_last by (by apply label_op_ok). by rewrite label_op_value.
  - rewrite !fmap_cons, join_with_cons, <-fmap_cons, label_op_text.
    destruct (join_labels_tidy (kv' :: kvs) Hkvs ltac:(done)) as (Ht & c & s & Hs & Hc).
    rewrite append_after.
    rewrite (labels_loop_step fuel kv _ kv.2 (join_with "," (label_text <$> kv' :: kvs))); [|done|].
    + rewrite IH by (simpl in *; lia). done.
    + rewrite (split_value_more (label_op kv) _ c s) by (try done; by apply label_op_ok). by rewrite label_op_value.
Qed.

Lemma foldl_insert_union {V} (m : gmap string V) (kvs : list (string * V)) :
  NoDup kvs.*1 → foldl (λ m kv, <[kv.1 := kv.2]> m) m kvs = list_to_map kvs ∪ m.
Proof.
  revert m. induction kvs as [|[k v] kvs IH]; intros m Hnd; [simpl; by rewrite (left_id_L ∅ (∪))|].
  apply NoDup_cons in Hnd as [Hk Hnd]. simpl. rewrite IH by done.
  rewrite <-insert_union_r by (by apply not_elem_of_list_to_map_1). by rewrite insert_union_l.
Qed.

Section Headers.
Context `{HashIter} `{Http} `{!HashIterLaws} `{!HttpLaws}.

(** The labels of a record in the order they are sent. *)
Lemma sent_labels (ls : Labels) :
  ∃ kvs, merge_sort str_le (label_text <$> hash_iter ls) = label_text <$> kvs ∧ kvs ≡ₚ map_to_list ls.
Proof.
  destruct (Permutation_map_inv label_text (hash_iter ls) (l1 := merge_sort str_le (label_text <$> hash_iter ls)))
    as (kvs & Hk & Hp); [apply merge_sort_Permutation|].
  exists kvs. split; [done|]. rewrite <-Hp. apply hash_iter_perm.
Qed.

Lemma labels_read_back (ls : Labels) kvs :
  map_Forall (λ k v, label_ok (k, v)) ls → kvs ≡ₚ map_to_list ls →
  let text := join_with "," (label_text <$> kvs) in labels_loop (S (String.length text)) text ∅ = Ok ls.
Proof.
  intros Hok Hp text.
  assert (Forall label_ok kvs) as Hall.
  { apply Forall_forall. intros [k v] Hin. rewrite Hp in Hin. apply elem_of_map_to_list in Hin. by apply Hok. }
  subst text. rewrite labels_loop_spec; [|done|].
  - f_equal. rewrite foldl_insert_union by (rewrite Hp; apply NoDup_fst_map_to_list).
    rewrite (right_id_L ∅ (∪)). rewrite <-(list_to_map_to_list ls). apply list_to_map_proper; [|done].
    rewrite Hp. apply NoDup_fst_map_to_list.
  - destruct (join_length (label_text <$> kvs)) as [Hl|(w & Hw & ->)]; [rewrite length_fmap in Hl; lia|].
    apply list_elem_of_fmap in Hw as (kv & Hkv & Hin). rewrite Forall_forall in Hall.
    destruct (label_text_tidy kv (Hall kv Hin)) as (_ & c & s & Hs & _). by rewrite Hs in Hkv.
Qed.

(** What the header of a record can carry. *)
Record out_ok (r : OutRecord) : Prop := {
  oo_timestamp : is_u64 (or_timestamp r);
  oo_length : is_u64 (meta_content_length (or_meta r));
  oo_type : tidy (meta_content_type (or_meta r)) = true;
  oo_type_comma : lacks "," (meta_content_type (or_meta r)) = true;
  oo_type_set : meta_content_type (or_meta r) ≠ EmptyString;
  oo_labels : map_Forall (λ k v, label_ok (k, v)) (meta_labels (or_meta r))
}.

Definition read_header (r : OutRecord) : RecordHeader :=
  mkRecordHeader (meta_content_length (or_meta r)) (meta_content_type (or_meta r)) (meta_labels (or_meta r)).

Lemma parse_two_parts len ct rest labels_text ls :
  is_u64 len → tidy ct = true → lacks "," ct = true → ct ≠ EmptyString →
  (rest = EmptyString ∧ labels_text = DEFAULT_CONTENT_TYPE ∨ rest = String "," labels_text) →
  labels_loop (S (String.length labels_text)) labels_text ∅ = Ok ls →
  parse_batched_header (show len +:+ String "," (ct +:+ rest)) = Ok (mkRecordHeader len ct ls).
Proof.
  intros Hl Ht Hc Hne Hrest Hls. unfold parse_batched_header. fold DEFAULT_CONTENT_TYPE.
  rewrite split_once_app by (by apply (lacks_class numeric), show_numeric).
  cbn [ok_or mbind outcome_bind]. rewrite (trim_tidy (show len)) by (apply tidy_plain, show_plain).
  rewrite parse_u64_show by done. cbn [ok_or mbind outcome_bind].
  assert (default (ct +:+ rest, DEFAULT_CONTENT_TYPE) (split_once "," (ct +:+ rest)) = (ct, labels_text)) as ->.
  { destruct Hrest as [[-> ->]| ->]; [rewrite string_app_nil_r, split_once_none by done|rewrite split_once_app by done]; done. }
  rewrite decide_False, Hls by done. cbn [mbind outcome_bind]. by rewrite trim_tidy.
Qed.

Lemma header_value_read r :
  out_ok r → all_chars visible (header_value false r) = true ∧ parse_batched_header (header_value false r) = Ok (read_header r).
Proof.
  intros Hok. destruct Hok as [_ Hlen Ht Hc Hne Hls]. unfold header_value, read_header.
  set (len := meta_content_length _) in *. set (ct := meta_content_type _) in *. set (ls := meta_labels _) in *.
  assert (all_chars visible (show len) = true) as Hvl by (eapply all_chars_impl, show_plain; apply plain_visible).
  assert (all_chars visible ct = true) as Hvt by (by apply tidy_iff in Ht as [? _]).
  case_decide as Hnil.
  - cbn [app join_with]. split.
    + rewrite all_chars_app, Hvl. simpl. by rewrite Hvt.
    + rewrite <-(string_app_nil_r ct) at 1. rewrite Hnil. by eapply parse_two_parts; eauto.
  - destruct (sent_labels ls) as (kvs & -> & Hp). cbn [app join_with].
    assert (kvs ≠ []) as Hk. { intros ->. apply Permutation_nil_l in Hp. symmetry in Hp. by apply map_to_list_empty_iff in Hp. }
    split.
    + destruct (join_labels_tidy kvs) as [[Hv _]%tidy_iff _]; [|done|].
      { apply Forall_forall. intros [k v] Hin. rewrite Hp in Hin. apply elem_of_map_to_list in Hin. by apply Hls. }
      rewrite all_chars_app, Hvl. simpl. rewrite all_chars_app, Hvt. simpl. done.
    + eapply parse_two_parts; [done|done|done|done|by right|]. by apply labels_read_back.
Qed.
End Headers.
