(* ===== verification/WriteBatched.v ===== *)
(** * WriteBatched: the handler of batched writes (api/http/entry/write_batched.rs)

    The headers say which records follow and how long they are; the body, which arrives
    in chunks of any size, is cut into their contents. *)

From stdpp Require Import prelude gmap strings sorting.
From Stdlib Require Import Ascii ZArith Lia.
From S2P Require Import Prelude Collections Text Split Batch BatchCodec BatchResponse BatchRoundtrip BatchV1.
Open Scope Z_scope.

(** ** Operations *)

(** What the stream of the body yields; a timeout breaks it, too. *)
Inductive StreamItem : Type := Chunk (bytes : list Z) | Broken.

(** The closure [read_chunk] of [receive_body_and_write_records]: the chunk, what is
    still expected, and the rest of the stream. *)
Definition read_chunk (total_content_len : Z) (stream : list StreamItem) : outcome (list Z * Z * list StreamItem) :=
  if decide (total_content_len = 0) then Ok ([], total_content_len, stream)
  else
    match stream with
    | Chunk data_chunk :: stream' => Ok (data_chunk, total_content_len - Z.of_nat (length data_chunk), stream')
    | Broken :: _ | [] => Err BadRequest
    end.

(** [write_chunk]: the part of the chunk the writer of the record gets, the bytes
    written, and the rest if the record is complete. *)
Definition write_chunk (chunk : list Z) (written content_size : Z) : list Z * Z * option (list Z) :=
  let to_write := u64_sub content_size written in
  let written := u64_add written (Z.of_nat (length chunk)) in
  if decide (Z.of_nat (length chunk) < to_write) then (chunk, written, None)
  else (take (Z.to_nat to_write) chunk, written, Some (drop (Z.to_nat to_write) chunk)).

Section Receive.
(** The answer of the writer of a record to a chunk, and of the replications to a record. *)
Variable send_timeout : Z → list Z → outcome ().
Variable notify_replication_write : Z → outcome ().

(** A record under way: what its writer got. *)
Record Received := mkReceived { rc_time : Z; rc_chunks : list (list Z); rc_complete : bool }.

(** The inner loop: [None] as long as it is running, and else the record as far as it got
    with the rest of the chunk, what is expected and the rest of the stream. *)
Fixpoint write_loop (fuel : nat) (time content_size : Z) (written : Z) (chunk : list Z) (total : Z)
    (stream : list StreamItem) (got : list (list Z)) : option (list (list Z) * outcome (list Z * Z * list StreamItem)) :=
  match fuel with
  | O => None
  | S fuel =>
      let '(part, written, rest) := write_chunk chunk written content_size in
      match send_timeout time part with
      | Ok _ =>
          match rest with
          | None =>
              match read_chunk total stream with
              | Ok (chunk, total, stream) => write_loop fuel time content_size written chunk total stream (got ++ [part])
              | Err e => Some (got ++ [part], Err e)
              | Panic => Some (got ++ [part], Panic)
              end
          | Some rest => Some (got ++ [part], Ok (rest, total, stream))
          end
      | Err e => Some (got, Err e)
      | Panic => Some (got, Panic)
      end
  end.

(** [receive_body_and_write_records]: the records in the order of their headers.  [fuel]
    bounds the turns of the inner loop. *)
Fixpoint receive (fuel : nat) (headers : list (Z * RecordHeader)) (chunk : list Z) (total : Z)
    (stream : list StreamItem) : option (list Received * outcome ()) :=
  match headers with
  | [] => Some ([], Ok tt)
  | (time, header) :: headers' =>
      match (if decide (chunk = []) then read_chunk total stream else Ok (chunk, total, stream)) with
      | Ok (chunk, total, stream) =>
          match write_loop fuel time (content_length header) 0 chunk total stream [] with
          | Some (got, Ok (rest, total, stream)) =>
              match notify_replication_write time with
              | Ok _ =>
                  match receive fuel headers' rest total stream with
                  | Some (records, r) => Some (mkReceived time got true :: records, r)
                  | None => None
                  end
              | Err e => Some ([mkReceived time got true], Err e)
              | Panic => Some ([mkReceived time got true], Panic)
              end
          | Some (got, Err e) => Some ([mkReceived time got false], Err e)
          | Some (got, Panic) => Some ([mkReceived time got false], Panic)
          | None => None
          end
      | Err e => Some ([], Err e)
      | Panic => Some ([], Panic)
      end
  end.
End Receive.

Section Handler.
Context `{HashIter} `{Http}.

(** [parse_content_length_from_header] (api/http/entry/common.rs). *)
Definition parse_content_length_from_header (headers : HeaderMap) : outcome Z :=
  value ← match header_get "content-length" headers with
          | Some v => Ok v
          | None => ok_or UnprocessableEntity (header_get "x-reduct-content-length" headers)
          end;
  text ← to_str value;
  ok_or UnprocessableEntity (parse_u64 text).

(** [check_and_get_content_length]. *)
Definition total_length (timed_headers : list (Z * RecordHeader)) : Z :=
  foldl (λ acc h, u64_add acc (content_length h.2)) 0 timed_headers.

Definition check_and_get_content_length (headers : HeaderMap) (timed_headers : list (Z * RecordHeader)) : outcome Z :=
  let total := total_length timed_headers in
  if decide (is_Some (header_get "content-length" headers) ∨ is_Some (header_get "x-reduct-content-length" headers)) then
    len ← parse_content_length_from_header headers;
    if decide (total ≠ len) then Err UnprocessableEntity else Ok total
  else Ok total.

(** [as i64]. *)
Definition as_i64 (n : Z) : Z := if decide (n < two64 / 2) then n else n - two64.

(** [write_batched_records], after the permissions are checked: the headers, the rate
    limit, and the body.  What [begin_write] answers goes into the error map, and the
    content of a refused record is read all the same. *)
Definition read_headers (headers : HeaderMap) : outcome (list (Z * RecordHeader)) :=
  record_headers ← sort_headers_by_time headers;
  collect (λ h : Z * HeaderValue,
    raw ← to_str h.2; header ← parse_batched_header raw; Ok (h.1, header)) record_headers.

Definition write_batched_records (fuel : nat) (send_timeout : Z → list Z → outcome ())
    (notify : Z → outcome ()) (check_ingress : Z → outcome ()) (headers : HeaderMap) (stream : list StreamItem)
    : option (list (Z * RecordHeader) * list Received * outcome ()) :=
  match (timed ← read_headers headers;
         len ← check_and_get_content_length headers timed;
         _ ← check_ingress len;
         Ok (timed, len)) with
  | Ok (timed, len) =>
      match receive send_timeout notify fuel timed [] (as_i64 len) stream with
      | Some (records, r) => Some (timed, records, r)
      | None => None
      end
  | Err e => Some ([], [], Err e)
  | Panic => Some ([], [], Panic)
  end.
End Handler.

(** ** The body is cut into the records *)

Definition bytes_of (stream : list StreamItem) : list Z :=
  mjoin ((λ i, match i with Chunk c => c | Broken => [] end) <$> stream).
Definition unbroken (stream : list StreamItem) : Prop := Forall (λ i, i ≠ Broken) stream.

Section Cut.
Variable send_timeout : Z → list Z → outcome ().
Variable notify : Z → outcome ().
Hypothesis writers_accept : ∀ t c, send_timeout t c = Ok tt.
Hypothesis notified : ∀ t, notify t = Ok tt.

(** The bytes at hand and those to come are enough for the record. *)
Lemma write_loop_cuts fuel time size written chunk stream got :
  unbroken stream → (length stream < fuel)%nat → 0 ≤ written ≤ size → size < two64 →
  Z.of_nat (length chunk) + Z.of_nat (length (bytes_of stream)) < two64 / 2 →
  size - written ≤ Z.of_nat (length chunk) + Z.of_nat (length (bytes_of stream)) →
  ∃ parts rest stream', let n := Z.to_nat (size - written) in
    write_loop send_timeout fuel time size written chunk (Z.of_nat (length (bytes_of stream))) stream got =
      Some (got ++ parts, Ok (rest, Z.of_nat (length (bytes_of stream')), stream')) ∧
    mjoin parts = take n (chunk ++ bytes_of stream) ∧ rest ++ bytes_of stream' = drop n (chunk ++ bytes_of stream) ∧
    unbroken stream' ∧ (length stream' ≤ length stream)%nat.
Proof.
  revert written chunk stream got. induction fuel as [|fuel IH]; intros written chunk stream got Hu Hf Hw Hs Hb He; [lia|].
  cbn [write_loop]. unfold write_chunk. rewrite u64_sub_small by lia.
  destruct (decide (Z.of_nat (length chunk) < size - written)) as [Hlt|Hge]; rewrite writers_accept.
  - destruct stream as [|[c|] stream]; [cbn in He; lia| |by inversion Hu].
    assert (bytes_of (Chunk c :: stream) = c ++ bytes_of stream) as Hc by done. rewrite Hc, length_app in *.
    unfold read_chunk. rewrite decide_False by lia.
    replace (Z.of_nat (length c + length (bytes_of stream)) - Z.of_nat (length c)) with (Z.of_nat (length (bytes_of stream))) by lia.
    rewrite u64_add_small by lia. apply Forall_cons in Hu as [_ Hu].
    destruct (IH (written + Z.of_nat (length chunk)) c stream (got ++ [chunk])) as (parts & rest & stream' & -> & Hp & Hr & Hu' & Hl);
      [done|simpl in Hf; lia|lia|lia|lia|lia|].
    replace (Z.to_nat (size - (written + Z.of_nat (length chunk)))) with (Z.to_nat (size - written) - length chunk)%nat in Hp, Hr by lia.
    exists (chunk :: parts), rest, stream'. rewrite <-(assoc_L (++)). split_and!; [done| | |done|simpl; lia].
    + rewrite take_app_ge by lia. change (mjoin (chunk :: parts)) with (chunk ++ mjoin parts). by rewrite Hp.
    + by rewrite Hr, (drop_app_ge chunk) by lia.
  - eexists [take (Z.to_nat (size - written)) chunk], (drop (Z.to_nat (size - written)) chunk), stream.
    split_and!; [done| | |done|lia].
    + simpl. rewrite app_nil_r, take_app_le by lia. done.
    + rewrite drop_app_le by lia. done.
Qed.

(** The contents of records of the given lengths, one after the other. *)
Fixpoint contents (headers : list (Z * RecordHeader)) (body : list Z) : list (Z * list Z) :=
  match headers with
  | [] => []
  | (time, h) :: headers' =>
      let n := Z.to_nat (content_length h) in (time, take n body) :: contents headers' (drop n body)
  end.

Definition sum_lengths (headers : list (Z * RecordHeader)) : Z := foldr (λ h acc, content_length h.2 + acc) 0 headers.

Lemma sum_lengths_nonneg headers : Forall (λ h, is_u64 (content_length h.2)) headers → 0 ≤ sum_lengths headers.
Proof. induction 1 as [|h headers Hh _ IH]; simpl; [lia|]. u64_lia. Qed.

Lemma receive_cuts fuel headers chunk stream :
  unbroken stream → (length stream < fuel)%nat → Forall (λ h, is_u64 (content_length h.2)) headers →
  Z.of_nat (length chunk) + Z.of_nat (length (bytes_of stream)) < two64 / 2 →
  sum_lengths headers ≤ Z.of_nat (length chunk) + Z.of_nat (length (bytes_of stream)) →
  ∃ records, receive send_timeout notify fuel headers chunk (Z.of_nat (length (bytes_of stream))) stream = Some (records, Ok tt) ∧
    (λ r, (rc_time r, mjoin (rc_chunks r))) <$> records = contents headers (chunk ++ bytes_of stream) ∧
    Forall (λ r, rc_complete r = true) records.
Proof.
  intros Hu Hf Hh. revert chunk stream Hu Hf. induction Hh as [|[time h] headers Hh Hhs IH]; intros chunk stream Hu Hf Hb Hsum.
  { exists []. split_and!; [done|done|constructor]. }
  cbn [receive sum_lengths foldr snd] in *. fold (sum_lengths headers) in *.
  pose proof (sum_lengths_nonneg headers Hhs).
  assert (∃ chunk1 stream1, (if decide (chunk = []) then read_chunk (Z.of_nat (length (bytes_of stream))) stream
     else Ok (chunk, Z.of_nat (length (bytes_of stream)), stream)) = Ok (chunk1, Z.of_nat (length (bytes_of stream1)), stream1) ∧
     chunk1 ++ bytes_of stream1 = chunk ++ bytes_of stream ∧ unbroken stream1 ∧ (length stream1 ≤ length stream)%nat)
    as (chunk1 & stream1 & -> & Heq & Hu1 & Hl1).
  { case_decide as Hc; [|by exists chunk, stream]. subst chunk. unfold read_chunk. case_decide as Hz; [by exists [], stream|].
    destruct stream as [|[c|] stream]; [by cbn in Hz| |by inversion Hu].
    exists c, stream. apply Forall_cons in Hu as [_ Hu].
    assert (bytes_of (Chunk c :: stream) = c ++ bytes_of stream) as Hc by done. rewrite Hc, length_app.
    split_and!; [|done|done|simpl; lia]. do 3 f_equal. lia. }
  pose proof (f_equal length Heq) as Hleq. rewrite !length_app in Hleq.
  destruct (write_loop_cuts fuel time (content_length h) 0 chunk1 stream1 []) as (parts & rest & stream2 & -> & Hp & Hr & Hu2 & Hl2);
    [done|lia|u64_lia|u64_lia|lia|lia|].
  cbn [app]. rewrite notified. rewrite Z.sub_0_r, Heq in Hp, Hr.
  pose proof (f_equal length Hr) as Hlr. rewrite length_app, length_drop, length_app in Hlr.
  destruct (IH rest stream2) as (records & -> & Hrec & Hall); [done|lia|lia|simpl in Hh; u64_lia|].
  exists (mkReceived time parts true :: records). split_and!; [done| |by constructor].
  rewrite fmap_cons, Hrec, Hr. cbn [rc_time rc_chunks contents]. by rewrite Hp.
Qed.
End Cut.
