(* ===== verification/WriteRoundtrip.v ===== *)
(** * WriteRoundtrip: a batch sent by a replication arrives

    The headers and the body that the client of a replication makes are read back by the
    handler of batched writes as the same records. *)

From stdpp Require Import prelude gmap strings sorting.
From Stdlib Require Import Ascii ZArith Lia.
From S2P Require Import Prelude Collections Text Split Batch BatchCodec BatchResponse BatchRoundtrip BatchV1 WriteBatched.
Open Scope Z_scope.

(** ** Order of the records *)

(** The records in the order of the body. *)
Definition in_order (records : list OutRecord) : list OutRecord := reverse (merge_sort later records).

Definition earlier (r r' : OutRecord) : Prop := or_timestamp r ≤ or_timestamp r'.

Lemma StronglySorted_reverse {A} (R : relation A) l : StronglySorted R l → StronglySorted (flip R) (reverse l).
Proof.
  induction 1 as [|x l Hl IH Hx]; [constructor|]. rewrite reverse_cons.
  apply StronglySorted_app_2; [|done|repeat constructor].
  intros y z Hy Hz%list_elem_of_singleton. subst z. rewrite elem_of_reverse in Hy.
  rewrite Forall_forall in Hx. by apply Hx.
Qed.

Lemma in_order_perm records : in_order records ≡ₚ records.
Proof. unfold in_order. rewrite reverse_Permutation. apply merge_sort_Permutation. Qed.

Lemma in_order_sorted records : StronglySorted earlier (in_order records).
Proof.
  apply (StronglySorted_reverse later), StronglySorted_merge_sort; [|intros r r'; unfold later; lia].
  intros r1 r2 r3. unfold later. lia.
Qed.

Lemma same_timestamp records r r' :
  NoDup (or_timestamp <$> records) → r ∈ records → r' ∈ records → or_timestamp r = or_timestamp r' → r = r'.
Proof.
  intros Hnd [i Hi]%list_elem_of_lookup [j Hj]%list_elem_of_lookup Heq.
  assert (i = j) as ->; [|congruence].
  eapply NoDup_lookup; [done| |]; rewrite list_lookup_fmap; [by rewrite Hi|rewrite Hj; simpl; by rewrite Heq].
Qed.

(** Records with different timestamps have one order. *)
Lemma in_order_unique records l :
  NoDup (or_timestamp <$> records) → l ≡ₚ records → StronglySorted earlier l → l = in_order records.
Proof.
  intros Hnd Hp Hs. eapply StronglySorted_unique_strong; [|exact Hs|apply in_order_sorted|].
  - intros r1 r2 Hr1 Hr2 H12 H21. rewrite Hp in Hr1. rewrite in_order_perm in Hr2.
    eapply same_timestamp; [done|done|done|]. unfold earlier in *. lia.
  - by rewrite in_order_perm.
Qed.

(** The sum of the lengths does not depend on the order. *)
Lemma fold_u64_sum {A} (f : A → Z) l acc :
  foldl (λ acc x, u64_add acc (f x)) (u64_wrap acc) l = u64_wrap (acc + foldr (λ x s, f x + s) 0 l).
Proof.
  revert acc. induction l as [|x l IH]; intros acc; simpl; [f_equal; lia|].
  rewrite u64_add_wrap_l, IH. f_equal. lia.
Qed.

Lemma sum_perm {A} (f : A → Z) l l' : l ≡ₚ l' → foldr (λ x s, f x + s) 0 l = foldr (λ x s, f x + s) 0 l'.
Proof. induction 1; simpl; lia. Qed.

Definition sum_body (records : list OutRecord) : Z := foldr (λ r s, meta_content_length (or_meta r) + s) 0 records.

Lemma body_length_sum records : body_length records = u64_wrap (sum_body records).
Proof. apply (fold_u64_sum (λ r, meta_content_length (or_meta r)) records 0). Qed.

Lemma total_length_sum headers : total_length headers = u64_wrap (sum_lengths headers).
Proof. apply (fold_u64_sum (λ h : Z * RecordHeader, content_length h.2) headers 0). Qed.

(** ** Headers *)

Lemma time_header_name_inj t t' : is_u64 t → is_u64 t' → time_header_name t = time_header_name t' → t = t'.
Proof.
  intros Ht Ht' Heq. unfold time_header_name in Heq.
  apply (f_equal (drop_str (String.length TIME_PREFIX))) in Heq. rewrite !drop_str_app in Heq.
  apply (f_equal parse_u64) in Heq. rewrite !parse_u64_show in Heq by done. by injection Heq.
Qed.

Section Headers.
Context `{HashIter} `{Http} `{!HashIterLaws} `{!HttpLaws}.

(** The header of a record and its value. *)
Definition time_header (rv : OutRecord * HeaderValue) : string * HeaderValue :=
  (time_header_name (or_timestamp rv.1), rv.2).
Definition carries (rv : OutRecord * HeaderValue) : Prop := to_str rv.2 = Ok (header_value false rv.1).

Lemma insert_time_headers_spec records hs :
  Forall out_ok records → NoDup (or_timestamp <$> records) →
  Forall (λ r, time_header_name (or_timestamp r) ∉ hs.*1) records →
  ∃ L, L.*1 = records ∧ Forall carries L ∧
    insert_time_headers false records hs = Ok (hs ++ (time_header <$> L)).
Proof.
  intros Hok. revert hs. induction Hok as [|r records Hr Hok IH]; intros hs Hnd Hnew.
  { exists []. simpl. rewrite app_nil_r. by split_and!. }
  apply NoDup_cons in Hnd as [Hin Hnd]. apply Forall_cons in Hnew as [Hn Hnew].
  destruct (header_text (header_value false r)) as (v & Hv & Hs); [by apply header_value_read|].
  cbn [insert_time_headers]. rewrite Hv. cbn [mbind outcome_bind]. rewrite header_insert_new by done.
  destruct (IH (hs ++ [(time_header_name (or_timestamp r), v)])) as (L & HL & Hc & ->); [done| |].
  - rewrite Forall_forall in Hnew, Hok |- *. intros r' Hr'. rewrite fmap_app, not_elem_of_app. split; [by apply Hnew|].
    intros Heq%list_elem_of_singleton. apply time_header_name_inj in Heq; [|apply Hok, Hr'|apply Hr].
    apply Hin, list_elem_of_fmap. by exists r'.
  - exists ((r, v) :: L). rewrite fmap_cons, HL. split_and!; [done|by constructor|].
    by rewrite fmap_cons, <-(assoc_L (++)).
Qed.

Definition fixed_headers (ct cl : HeaderValue) : list (string * HeaderValue) := [("content-type", ct); ("content-length", cl)].

Lemma build_headers_spec records :
  Forall out_ok records → NoDup (or_timestamp <$> records) →
  ∃ ct cl L, L.*1 = records ∧ Forall carries L ∧ to_str cl = Ok (show (body_length records)) ∧
    build_headers records false = Ok (fixed_headers ct cl ++ (time_header <$> L)).
Proof.
  intros Hok Hnd. unfold build_headers.
  destruct (header_text DEFAULT_CONTENT_TYPE eq_refl) as (ct & -> & _). cbn [mbind outcome_bind].
  destruct (header_text (show (body_length records))) as (cl & -> & Hcl);
    [eapply all_chars_impl, show_plain; apply plain_visible|]. cbn [mbind outcome_bind].
  destruct (insert_time_headers_spec records (fixed_headers ct cl)) as (L & HL & Hc & Hi); [done|done| |].
  - apply Forall_true. intros r. simpl. rewrite !not_elem_of_cons. split_and!; [done|done|apply not_elem_of_nil].
  - exists ct, cl, L. by split_and!.
Qed.

(** Reading the time headers of a map, whatever its order and the other headers in it. *)
Definition time_headers (hm : HeaderMap) : list (string * HeaderValue) :=
  omap (λ '(name, value), name' ← name; if starts_with name' TIME_PREFIX then Some (drop_str 14 name', value) else None) hm.
Definition time_text (rv : OutRecord * HeaderValue) : string * HeaderValue := (show (or_timestamp rv.1), rv.2).
Definition timed_value (rv : OutRecord * HeaderValue) : Z * HeaderValue := (or_timestamp rv.1, rv.2).

Lemma time_headers_perm hm hs L :
  iterates hm (hs ++ (time_header <$> L)) →
  Forall (λ h : string * HeaderValue, starts_with h.1 TIME_PREFIX = false) hs →
  time_headers hm ≡ₚ (time_text <$> L).
Proof.
  intros Hit Hhs. unfold time_headers. rewrite Hit. rewrite fmap_app, omap_app.
  replace (omap _ (prod_map Some id <$> hs)) with (@nil (string * HeaderValue)).
  - rewrite (left_id_L [] (++)). clear. induction L as [|rv L IH]; [done|]. rewrite !fmap_cons.
    cbn -[starts_with TIME_PREFIX drop_str]. unfold time_header_name at 1 2.
    rewrite starts_with_app. change 14%nat with (String.length TIME_PREFIX). rewrite drop_str_app. cbn. f_equiv. exact IH.
  - symmetry. clear -Hhs. induction Hhs as [|[n v] hs Hh _ IH]; [done|]. rewrite fmap_cons.
    cbn -[starts_with TIME_PREFIX drop_str]. simpl in Hh. rewrite Hh. exact IH.
Qed.

Lemma sort_headers_spec hm L :
  Forall (λ rv : OutRecord * HeaderValue, is_u64 (or_timestamp rv.1)) L → time_headers hm ≡ₚ (time_text <$> L) →
  ∃ L', L' ≡ₚ L ∧ StronglySorted earlier L'.*1 ∧ sort_headers_by_time hm = Ok (timed_value <$> L').
Proof.
  intros Hu Hp. destruct (Permutation_map_inv _ _ Hp) as (L1 & Hnamed & HL1).
  assert (sort_headers_by_time hm = Ok (merge_sort time_le (timed_value <$> L1))) as ->.
  { change (sort_headers_by_time hm) with
      (parsed ← collect (λ '(ts, value), ts ← ok_or UnprocessableEntity (parse_u64 ts); Ok (ts, value)) (time_headers hm);
       Ok (merge_sort time_le parsed)). rewrite Hnamed. change (map ?f ?l) with (f <$> l).
    erewrite (collect_fmap _ time_text timed_value); [done|]. rewrite <-HL1. eapply Forall_impl; [exact Hu|].
    intros rv Hrv. simpl. by rewrite parse_u64_show. }
  destruct (Permutation_map_inv timed_value L1 (l1 := merge_sort time_le (timed_value <$> L1))) as (L2 & HL2 & Hp2);
    [apply merge_sort_Permutation|].
  exists L2. split_and!; [by rewrite <-Hp2, HL1| |by rewrite HL2].
  assert (StronglySorted time_le (timed_value <$> L2)) as Hs.
  { change (?f <$> L2) with (map f L2). rewrite <-HL2. apply StronglySorted_merge_sort; [|intros x y; unfold time_le; lia].
    intros x y z. unfold time_le. lia. }
  clear -Hs. induction L2 as [|rv L IH]; [constructor|]. rewrite !fmap_cons in *. inversion_clear Hs as [|? ? Hs' Hf].
  constructor; [by apply IH|]. rewrite !Forall_fmap in *. eapply Forall_impl; [exact Hf|]. done.
Qed.

(** The handler reads the headers of the records in the order of the body. *)
Lemma read_headers_spec hm hs L records :
  iterates hm (hs ++ (time_header <$> L)) →
  Forall (λ h : string * HeaderValue, starts_with h.1 TIME_PREFIX = false) hs →
  L.*1 ≡ₚ records → Forall carries L → Forall out_ok records → NoDup (or_timestamp <$> records) →
  read_headers hm = Ok ((λ r, (or_timestamp r, read_header r)) <$> in_order records).
Proof.
  intros Hit Hhs HL Hc Hok Hnd.
  assert (Forall out_ok L.*1) as Hok' by (by rewrite HL).
  destruct (sort_headers_spec hm L) as (L' & HL' & Hs & Hsort).
  { rewrite Forall_fmap in Hok'. eapply Forall_impl; [exact Hok'|]. intros rv Hrv. apply Hrv. }
  { by eapply time_headers_perm. }
  unfold read_headers. rewrite Hsort. cbn [mbind outcome_bind].
  rewrite <-(in_order_unique records L'.*1); [|done|by rewrite HL', HL|done].
  rewrite <-list_fmap_compose. apply collect_fmap. rewrite HL'. rewrite Forall_fmap in Hok'.
  assert (Forall (λ rv, carries rv ∧ out_ok rv.1) L) as Hboth by (by apply Forall_and).
  eapply Forall_impl; [exact Hboth|]. intros rv [Hrv Hr]. cbn [compose timed_value fst snd].
  unfold carries in Hrv. rewrite Hrv. cbn [mbind outcome_bind]. by rewrite (proj2 (header_value_read _ Hr)).
Qed.
End Headers.

(** The contents of the records are where the lengths say. *)
Lemma contents_of_records records :
  Forall (λ r, Z.of_nat (length (mjoin (or_chunks r))) = meta_content_length (or_meta r)) records →
  contents ((λ r, (or_timestamp r, read_header r)) <$> records) (mjoin (concat (or_chunks <$> records))) =
  (λ r, (or_timestamp r, mjoin (or_chunks r))) <$> records.
Proof.
  induction 1 as [|r records Hr _ IH]; [done|]. rewrite !fmap_cons. cbn [concat contents content_length read_header].
  rewrite join_app. replace (Z.to_nat (meta_content_length (or_meta r))) with (length (mjoin (or_chunks r))) by lia.
  by rewrite take_app_length, drop_app_length, IH.
Qed.

Lemma sum_lengths_read records :
  sum_lengths ((λ r, (or_timestamp r, read_header r)) <$> records) = sum_body records.
Proof. induction records as [|r records IH]; [done|]. rewrite fmap_cons. unfold sum_lengths, sum_body in *. simpl. by rewrite IH. Qed.

Lemma body_bytes records :
  Forall (λ r, Z.of_nat (length (mjoin (or_chunks r))) = meta_content_length (or_meta r)) records →
  Z.of_nat (length (mjoin (concat (or_chunks <$> records)))) = sum_body records.
Proof. induction 1 as [|r records Hr _ IH]; [done|]. rewrite fmap_cons. cbn [concat]. rewrite join_app, length_app. unfold sum_body in *. simpl. lia. Qed.

(** ** Properties *)

Lemma content_length_checked `{Http} hm cl timed n :
  header_get "content-length" hm = Some cl → to_str cl = Ok (show n) → total_length timed = n → is_u64 n →
  check_and_get_content_length hm timed = Ok n.
Proof.
  intros Hget Hcl Ht Hn. unfold check_and_get_content_length, parse_content_length_from_header.
  rewrite Hget, decide_True by (left; eauto). cbn [mbind outcome_bind]. rewrite Hcl. cbn [mbind outcome_bind].
  rewrite parse_u64_show by done. cbn [ok_or mbind outcome_bind]. by rewrite Ht, decide_False by auto.
Qed.

Lemma timed_u64 records :
  Forall out_ok records →
  Forall (λ h, is_u64 (content_length h.2)) ((λ r, (or_timestamp r, read_header r)) <$> in_order records).
Proof.
  intros Hok. rewrite Forall_fmap. rewrite <-(in_order_perm records) in Hok.
  eapply Forall_impl; [exact Hok|]. intros r Hr. apply Hr.
Qed.

(** C19: A batch that a replication sends arrives.  For records with different timestamps
    whose metadata fit into headers and that are as long as they say, the client makes
    headers and a body, and from them, however the body is cut into chunks, in whatever
    order the headers are iterated and whatever other headers are sent along, the handler
    gets every record in the order of time, with its length, content type and labels, and
    every writer gets the content of its record, all of it and nothing else. *)
Theorem replicated_batch_arrives `{HashIter} `{Http} `{!HashIterLaws} `{!HttpLaws} (records : list OutRecord) :
  Forall out_ok records → NoDup (or_timestamp <$> records) → sum_body records < two64 / 2 →
  Forall (λ r, Z.of_nat (length (mjoin (or_chunks r))) = meta_content_length (or_meta r)) records →
  ∃ hs chunks, prepare_batch_to_write records = Ok (hs, chunks) ∧
    ∀ hm extra stream fuel send_timeout notify check_ingress,
      iterates hm (hs ++ extra) → NoDup (hs ++ extra).*1 →
      Forall (λ h, starts_with h.1 TIME_PREFIX = false) extra →
      unbroken stream → bytes_of stream = mjoin chunks → (length stream < fuel)%nat →
      (∀ t c, send_timeout t c = Ok tt) → (∀ t, notify t = Ok tt) → (∀ n, check_ingress n = Ok tt) →
      ∃ received,
        write_batched_records fuel send_timeout notify check_ingress hm stream =
          Some ((λ r, (or_timestamp r, read_header r)) <$> in_order records, received, Ok tt) ∧
        (λ r, (rc_time r, mjoin (rc_chunks r))) <$> received =
          (λ r, (or_timestamp r, mjoin (or_chunks r))) <$> in_order records ∧
        Forall (λ r, rc_complete r = true) received.
Proof.
  intros Hok Hnd Hsum Hlen. set (sorted := merge_sort later records).
  assert (sorted ≡ₚ records) as Hp by apply merge_sort_Permutation.
  destruct (build_headers_spec sorted) as (ct & cl & L & HL & Hc & Hcl & Hb); [by rewrite Hp|by rewrite Hp|].
  exists (fixed_headers ct cl ++ (time_header <$> L)), (concat (or_chunks <$> in_order records)).
  split; [unfold prepare_batch_to_write; fold sorted; by rewrite Hb|].
  intros hm extra stream fuel send_timeout notify check_ingress Hit Hnames Hext Hu Hbytes Hf Hsend Hnot Hin.
  set (timed := (λ r, (or_timestamp r, read_header r)) <$> in_order records).
  assert (read_headers hm = Ok timed) as Hrd.
  { apply (read_headers_spec hm (fixed_headers ct cl ++ extra) L); try done; [| |by rewrite HL].
    - unfold iterates. rewrite Hit. apply Permutation_map. rewrite <-!(assoc_L (++)). f_equiv. apply Permutation_app_comm.
    - apply Forall_app_2; [by repeat constructor|done]. }
  assert (header_get "content-length" hm = Some cl) as Hget by (by eapply iterates_get; [done|done|set_solver]).
  assert (Forall (λ h, is_u64 (content_length h.2)) timed) as Hu64 by (by apply timed_u64).
  pose proof (sum_lengths_nonneg timed Hu64) as Hpos. pose proof (sum_lengths_read (in_order records)) as Hsr. fold timed in Hsr.
  assert (sum_body (in_order records) = sum_body records) as Hperm by (apply sum_perm, in_order_perm).
  assert (sum_body sorted = sum_body records) as Hperm' by (by apply sum_perm).
  assert (two64 / 2 < two64) by done.
  assert (check_and_get_content_length hm timed = Ok (sum_body records)) as Hchk.
  { apply (content_length_checked _ cl); [done| | |split; lia].
    - by rewrite Hcl, body_length_sum, Hperm', u64_wrap_small by (split; lia).
    - rewrite total_length_sum, Hsr, Hperm. apply u64_wrap_small. split; lia. }
  assert (Z.of_nat (length (bytes_of stream)) = sum_body records) as Hbl.
  { rewrite Hbytes, <-Hperm. apply body_bytes. by rewrite in_order_perm. }
  destruct (receive_cuts send_timeout notify Hsend Hnot fuel timed [] stream) as (received & Hrec & Hcont & Hall);
    [done|done|done|simpl; lia|simpl; lia|].
  exists received. unfold write_batched_records. rewrite Hrd. cbn [mbind outcome_bind]. rewrite Hchk. cbn [mbind outcome_bind].
  rewrite Hin. cbn [mbind outcome_bind]. unfold as_i64. rewrite decide_True by lia. rewrite Hbl in Hrec. rewrite Hrec.
  split_and!; [done| |done]. rewrite Hcont. cbn [app]. rewrite Hbytes. apply contents_of_records. by rewrite in_order_perm.
Qed.

(** The inner loop does not end when no byte is expected any more and the record is not
    complete. *)
Lemma write_loop_spins send_timeout fuel time size stream got :
  (∀ t c, send_timeout t c = Ok tt) → 0 < size < two64 →
  write_loop send_timeout fuel time size 0 [] 0 stream got = None.
Proof.
  intros Hs Hsz. revert got. induction fuel as [|fuel IH]; intros got; [done|].
  cbn [write_loop]. unfold write_chunk. rewrite u64_sub_small by lia. rewrite decide_True by (simpl; lia).
  rewrite Hs. unfold read_chunk. rewrite decide_True by done. apply IH.
Qed.

(** Lengths that add up to 2^64 keep a request from ending.  The handler adds them up
    with wrap-around and checks the sum, zero, against the content length; then it waits
    for the content of the first record without expecting any bytes, and hands empty
    chunks to its writer as long as the writer takes them. *)
Theorem wrapped_lengths_never_end `{HashIter} `{Http} (hm : HeaderMap) (time : Z) (h : RecordHeader)
  (rest : list (Z * RecordHeader)) stream fuel send_timeout notify check_ingress :
  read_headers hm = Ok ((time, h) :: rest) → is_u64 (content_length h) → 0 < content_length h →
  check_and_get_content_length hm ((time, h) :: rest) = Ok 0 → check_ingress 0 = Ok tt →
  (∀ t c, send_timeout t c = Ok tt) →
  write_batched_records fuel send_timeout notify check_ingress hm stream = None.
Proof.
  intros Hrd Hu Hpos Hchk Hin Hs. unfold write_batched_records. rewrite Hrd. cbn [mbind outcome_bind].
  rewrite Hchk. cbn [mbind outcome_bind]. rewrite Hin. cbn [mbind outcome_bind].
  change (as_i64 0) with 0. cbn [receive]. rewrite decide_True by done. unfold read_chunk. rewrite decide_True by done.
  rewrite write_loop_spins by (try done; u64_lia). done.
Qed.

(** ** Witnesses *)

#[local] Existing Instances std_order std_order_laws plain_http plain_http_laws.

Definition late_record : OutRecord := mkOut 20 (mkMeta 3 "text/plain" {["a" := "x,y"]} ∅) [[1]; [2; 3]].
Definition early_record : OutRecord := mkOut 10 (mkMeta 1 "image/png" ∅ ∅) [[4]].
Definition sent_records : list OutRecord := [late_record; early_record].

Lemma sent_records_ok : Forall out_ok sent_records.
Proof.
  apply Forall_cons; split; [|apply Forall_cons; split; [|constructor]]; split; try done; try u64_lia.
  simpl. apply map_Forall_singleton. unfold label_ok, value_ok. simpl.
  split_and!; [done|done|by exists "a"%char, EmptyString|]. right. by split_and!.
Qed.

Lemma replicated_batch_arrives_witness :
  ∃ hs chunks, prepare_batch_to_write sent_records = Ok (hs, chunks) ∧
    ∃ received, write_batched_records 3 (λ _ _, Ok tt) (λ _, Ok tt) (λ _, Ok tt) (prod_map Some id <$> hs)
        [Chunk [4; 1]; Chunk [2; 3]] =
        Some ([(10, read_header early_record); (20, read_header late_record)], received, Ok tt) ∧
      (λ r, (rc_time r, mjoin (rc_chunks r))) <$> received = [(10, [4]); (20, [1; 2; 3])].
Proof.
  destruct (replicated_batch_arrives sent_records) as (hs & chunks & Hp & Hall).
  - exact sent_records_ok.
  - repeat constructor; set_solver.
  - done.
  - by repeat constructor.
  - exists hs, chunks. split; [done|]. vm_compute in Hp. injection Hp as <- <-.
    destruct (Hall (prod_map Some id <$> [("content-type", "application/octet-stream"); ("content-length", "4");
        ("x-reduct-time-20", header_value false late_record); ("x-reduct-time-10", header_value false early_record)])
      [] [Chunk [4; 1]; Chunk [2; 3]] 3%nat (λ _ _, Ok tt) (λ _, Ok tt) (λ _, Ok tt))
      as (received & Hw & Hr & _);
      [unfold iterates; vm_compute; reflexivity|by apply (bool_decide_unpack _)|constructor
      |by constructor; [|constructor]|done|simpl; lia|done|done|done|].
    exists received. by split.
Defined.

Definition wrapping : HeaderMap :=
  [(Some "content-length", "0"); (Some "x-reduct-time-1", "9223372036854775808,"); (Some "x-reduct-time-2", "9223372036854775808,")].

Lemma wrapped_lengths_never_end_witness :
  write_batched_records 1000 (λ _ _, Ok tt) (λ _, Ok tt) (λ _, Ok tt) wrapping [] = None.
Proof.
  apply (wrapped_lengths_never_end wrapping 1 (mkRecordHeader 9223372036854775808 DEFAULT_CONTENT_TYPE ∅)
    [(2, mkRecordHeader 9223372036854775808 DEFAULT_CONTENT_TYPE ∅)]); try done.
Defined.
