(* ===== verification/ReplicationLoss.v ===== *)
(** * ReplicationLoss: transactions that are lost or counted without being sent

    Three places of the replication where the remote bucket does not get a record
    although its transaction leaves the log, or the record is counted as replicated. *)

From stdpp Require Import prelude gmap strings sorting.
From Stdlib Require Import Ascii ZArith Lia.
From S2P Require Import Prelude Collections Text Split Filters TransactionLog Batch BatchCodec BatchResponse BatchRoundtrip.
From S2P Require Import BatchV1 WriteBatched WriteRoundtrip Replication ReplicationRefine ReplicationPass.
Open Scope Z_scope.

(** ** A record that was written and updated *)

Section Duplicate.
Context `{HashIter} `{Http} `{!HashIterLaws} `{!HttpLaws}.

Lemma sort_twice (o : OutRecord) : merge_sort later [o; o] = [o; o].
Proof. by destruct (Permutation_length_2_inv (symmetry (merge_sort_Permutation later [o; o]))). Qed.

(** The client sends one header for both copies of the record, and the length of both. *)
Lemma duplicate_headers (o : OutRecord) :
  out_ok o →
  ∃ ct cl v, build_headers [o; o] false = Ok (fixed_headers ct cl ++ [time_header (o, v)]) ∧ carries (o, v) ∧
    to_str cl = Ok (show (body_length [o; o])).
Proof.
  intros Ho. unfold build_headers.
  destruct (header_text DEFAULT_CONTENT_TYPE eq_refl) as (ct & -> & _). cbn [mbind outcome_bind].
  destruct (header_text (show (body_length [o; o]))) as (cl & -> & Hcl);
    [eapply all_chars_impl, show_plain; apply plain_visible|]. cbn [mbind outcome_bind].
  destruct (header_text (header_value false o)) as (v & Hv & Hs); [by apply header_value_read|].
  exists ct, cl, v. split_and!; [|done|done]. cbn [insert_time_headers]. rewrite Hv. cbn [mbind outcome_bind].
  change (header_insert "content-length" cl (header_insert "content-type" ct [])) with (fixed_headers ct cl).
  rewrite (header_insert_new _ v (fixed_headers ct cl)).
  - cbn [fixed_headers app header_insert]. rewrite !(decide_False (P := _ = time_header_name _)) by done.
    by rewrite decide_True by done.
  - simpl. rewrite !not_elem_of_cons. split_and!; [done|done|apply not_elem_of_nil].
Qed.

(** What the handler of the other server answers to a batch. *)
Definition handler_answer (out : SyncRecord → OutRecord) (records : list SyncRecord) : Result ErrorRecordMap :=
  match prepare_batch_to_write (out <$> records) with
  | Ok (hs, chunks) =>
      match write_batched_records (S (length chunks)) (λ _ _, Ok tt) (λ _, Ok tt) (λ _, Ok tt)
              (prod_map Some id <$> hs) (Chunk <$> chunks) with
      | Some (_, _, Ok _) => Done ∅
      | Some (_, _, Err e) => Failed e
      | _ => Failed InternalServerError
      end
  | _ => Failed InternalServerError
  end.

Lemma duplicate_refused (out : SyncRecord → OutRecord) (r : SyncRecord) :
  let len := meta_content_length (or_meta (out r)) in
  out_ok (out r) → 0 < len → len + len < two64 → handler_answer out [r; r] = Failed UnprocessableEntity.
Proof.
  intros len Ho Hpos Hlt. unfold handler_answer, prepare_batch_to_write. cbn [fmap list_fmap]. rewrite sort_twice.
  destruct (duplicate_headers (out r) Ho) as (ct & cl & v & -> & Hc & Hcl). cbn [mbind outcome_bind].
  set (hm := prod_map Some id <$> _). unfold write_batched_records.
  rewrite (read_headers_spec hm (fixed_headers ct cl) [(out r, v)] [out r]);
    [|by unfold iterates|by repeat constructor|done|by constructor|by constructor|repeat constructor; set_solver].
  cbn [mbind outcome_bind]. set (timed := _ <$> in_order [out r]).
  assert (total_length timed = len) as Ht.
  { rewrite total_length_sum. subst timed. rewrite sum_lengths_read. unfold sum_body.
    rewrite (sum_perm (λ r, meta_content_length (or_meta r)) _ _ (in_order_perm [out r])). simpl. fold len. rewrite u64_wrap_small; [lia|split; lia]. }
  unfold check_and_get_content_length, parse_content_length_from_header.
  assert (header_get "content-length" hm = Some cl) as -> by done.
  rewrite decide_True by (left; eauto). cbn [mbind outcome_bind]. rewrite Hcl. cbn [mbind outcome_bind].
  rewrite body_length_sum. unfold sum_body. cbn [foldr]. fold len. rewrite Z.add_0_r.
  rewrite u64_wrap_small, parse_u64_show by (split; lia). cbn [ok_or mbind outcome_bind].
  rewrite Ht, decide_True by lia. done.
Qed.
End Duplicate.

(** C39: A record that was written and then updated before it was sent is lost.  Its batch
    has it twice: the remote bucket does not have the record yet and refuses the update,
    so the record joins the records to write, where it is already.  The client sums up the
    length of both copies but names the record in one header, the handler of the other
    server refuses the batch for that, and as this is no error of the connection the
    sender removes both transactions from the log. *)
Theorem written_and_updated_record_is_lost `{HashIter} `{Http} `{!HashIterLaws} `{!HttpLaws}
  (out : SyncRecord → OutRecord) (net : Net) (b : PreparedBatch) (s : Sender) (r : SyncRecord) (ts : Z)
  (res : Result ErrorRecordMap) (em : ErrorRecordMap) (log : TransactionLog) :
  let len := meta_content_length (or_meta (out r)) in
  out_ok (out r) → 0 < len → len + len < two64 →
  pb_batch b = [(r, TxWriteRecord ts); (r, TxUpdateRecord ts)] →
  rb_state (sn_bucket s) = Available res → sn_logs s !! pb_entry b = Some log →
  net_update net [r] = Done em → is_Some (em !! sr_timestamp r) → net_write net = handler_answer out →
  let '(c, active, s') := send_batch net b s in
  active = true ∧ c = pb_counter b ++ [(Failed UnprocessableEntity, 2, 0)] ∧
  sn_calls s' = sn_calls s ++ [CallUpdate (pb_dst b) [r]; CallWrite (pb_dst b) [r; r]] ∧
  sn_logs s' = <[pb_entry b := (pop_front log (pb_processed b)).2]> (sn_logs s).
Proof.
  intros len Ho Hpos Hlt Hb Hst Hlog Hu Hem Hw.
  assert (available_write_batch net (pb_dst b) (pb_batch b) =
    (Available (Failed UnprocessableEntity), [CallUpdate (pb_dst b) [r]; CallWrite (pb_dst b) [r; r]])) as Hcall.
  { rewrite Hb. unfold available_write_batch.
    assert (records_of true [(r, TxWriteRecord ts); (r, TxUpdateRecord ts)] = [r]) as -> by done.
    assert (records_of false [(r, TxWriteRecord ts); (r, TxUpdateRecord ts)] = [r]) as -> by done.
    rewrite decide_False, Hu by done. unfold write_records. change (reverse [r]) with [r].
    rewrite filter_cons_True, filter_nil by done. cbn [app]. rewrite decide_False by done.
    by rewrite Hw, duplicate_refused. }
  unfold send_batch, remote_write_batch, state_write_batch. rewrite Hst, Hcall.
  cbn [last_result is_available rb_is_active]. rewrite Hlog. unfold account. rewrite Hb. by split_and!.
Qed.

(** ** A remote bucket that waits *)

(** A batch is counted as replicated although nothing was sent.  As long as the
    remote bucket waits after a failed connection, it answers with success, and the sender
    counts all the records and their bytes, as often as the batch is tried; the
    transactions stay in the log, and will be counted again when they are sent. *)
Theorem waiting_counts_unsent_records (net : Net) (b : PreparedBatch) (s : Sender) (init_time : Z)
  (res : Result ErrorRecordMap) :
  rb_state (sn_bucket s) = Unavailable init_time res → net_instant net - init_time ≤ UNAVAILABLE_TIMEOUT →
  Z.of_nat (length (pb_batch b)) < two64 →
  let '(c, active, s') := send_batch net b s in
  sn_calls s' = sn_calls s ∧ sn_logs s' = sn_logs s ∧ active = false ∧
  ∃ bytes, c = pb_counter b ++ [(Done tt, Z.of_nat (length (pb_batch b)), bytes)].
Proof.
  intros Hst Hwait Hlen. unfold send_batch, remote_write_batch, state_write_batch. rewrite Hst.
  assert (0 ≤ UNAVAILABLE_TIMEOUT) by done. rewrite decide_False by lia. simpl. rewrite app_nil_r.
  split_and!; [done|done|done|]. eexists. rewrite map_size_empty. rewrite u64_sub_small by lia.
  by rewrite Z.sub_0_r.
Qed.

(** ** A log that is full *)

Definition call_records (c : RemoteCall) : list SyncRecord :=
  match c with CallUpdate _ records | CallWrite _ records => records end.

Lemma write_records_from net dst to_write to_update em st calls c r :
  write_records net dst to_write to_update em = (st, calls) → c ∈ calls → r ∈ call_records c →
  r ∈ to_write ∨ r ∈ to_update.
Proof.
  unfold write_records. set (all := to_write ++ _). case_decide; intros [= <- <-] Hc Hr; [by apply elem_of_nil in Hc|].
  apply list_elem_of_singleton in Hc as ->. simpl in Hr. subst all.
  rewrite elem_of_app, list_elem_of_filter, elem_of_reverse in Hr. naive_solver.
Qed.

Lemma available_from net dst records st calls c r :
  available_write_batch net dst records = (st, calls) → c ∈ calls → r ∈ call_records c → ∃ t, (r, t) ∈ records.
Proof.
  intros Hw Hc Hr.
  assert (r ∈ records_of true records ∨ r ∈ records_of false records) as [Hin|Hin];
    [|apply elem_of_records_of in Hin as (t & ? & _); eauto..].
  revert Hw. unfold available_write_batch. generalize (records_of true records), (records_of false records).
  intros to_write to_update. case_decide; [intros Hw; by eapply write_records_from|].
  assert (∀ em, (let '(st, calls') := write_records net dst to_write to_update em in
    (st, [CallUpdate dst to_update] ++ calls')) = (st, calls) → r ∈ to_write ∨ r ∈ to_update) as Hboth.
  { intros em. destruct (write_records _ _ _ _ em) as [st' calls'] eqn:Hwr. intros [= <- <-].
    apply elem_of_cons in Hc as [->|Hc]; [by right|]. by eapply write_records_from. }
  destruct (net_update net to_update) as [em|e]; [by apply Hboth|].
  destruct e; try apply Hboth; intros [= _ <-]; apply list_elem_of_singleton in Hc as ->; by right.
Qed.

Lemma remote_from net dst records bucket res bucket' calls c r :
  remote_write_batch net dst records bucket = (res, bucket', calls) → c ∈ calls → r ∈ call_records c →
  ∃ t, (r, t) ∈ records.
Proof.
  unfold remote_write_batch. destruct (state_write_batch _ _ _ _) as [st calls'] eqn:Hst. intros [= _ _ <-] Hc Hr.
  unfold state_write_batch, connect_and_write in Hst.
  destruct (rb_state bucket) as [?|?|init ?]; [| |case_decide];
    try (destruct (get_or_create_bucket net)); try (by eapply available_from);
    inversion Hst; subst calls'; by apply elem_of_nil in Hc.
Qed.

Lemma read_all_inv storage e txs r t : (r, t) ∈ read_all storage e txs → t ∈ txs ∧ read_record storage e t = Done r.
Proof.
  unfold read_all. rewrite list_elem_of_omap. intros (t' & Hin & Heq).
  destruct (read_record storage e t') eqn:Hr; simplify_eq. done.
Qed.

Lemma append_full n log r q t :
  tlog_rep log n r q → tx_valid t → S (length q) = n → ∃ r', tlog_rep (append_all log [t]) n r' (tail (q ++ [t])).
Proof.
  intros Hr Ht Hfull. destruct (push_back_rep log n r q t Hr Ht) as (log' & r' & Hp & Hr'). revert Hp Hr'.
  unfold spec_push. rewrite decide_True by (rewrite length_app; simpl; lia). cbn [fst snd]. intros Hp Hr'.
  cbn [append_all]. rewrite Hp. by exists r'.
Qed.

(** A transaction is lost without being sent when the log overflows while a batch is
    under way.  The log is full and a record is written: the log drops its oldest
    transaction, which is in the batch.  When the batch is sent the sender removes as many
    transactions as the batch has, counted from the new front, and so one that no request
    carried. *)
Theorem overflow_while_sending_drops_unsent (n : nat) (w : World) (settings : Settings) (io : IoConfig) (s : Sender)
  (Q : gmap string (list Transaction)) (e : string) (q : list Transaction) (t : Transaction) (b : PreparedBatch)
  (c : list Counted) (s' : Sender) :
  logs_rep n (sn_logs s) Q → Q !! e = Some q → S (length q) = n → w_appended w e = [t] → tx_valid t →
  prepare_batch (sn_logs s) (w_storage w) settings io e = PrepareBatch b → (pb_processed b < length q)%nat →
  send_prepared w b s = (c, true, s') →
  ∃ calls, sn_calls s' = sn_calls s ++ calls ∧
    logs_rep n (sn_logs s') (<[e := drop (S (pb_processed b)) q ++ [t]]> Q) ∧
    ∀ call r, call ∈ calls → r ∈ call_records call →
      ∃ t', t' ∈ take (pb_processed b) q ∧ read_record (w_storage w) e t' = Done r.
Proof.
  intros Hr Hq Hfull Happ Ht Hp Hk Hs. pose proof (prepare_batch_names _ _ _ _ _ _ Hp) as [He Hd].
  destruct (logs_rep_lookup _ _ _ _ _ Hr Hq) as (log & r0 & Hlog & Hrep).
  pose proof (prepare_batch_inv _ _ _ _ _ _ Hp) as (log0 & txs & Hlog0 & Hf & _ & Hb).
  rewrite Hlog in Hlog0. injection Hlog0 as <-. rewrite (front_rep _ _ _ _ _ Hrep) in Hf. injection Hf as <-.
  destruct (gather_spec (w_storage w) (batch_max_size io) e (take (Z.to_nat (batch_max_records io)) q) 0
    (mkPreparedBatch e (destination_entry_name (dst_prefix settings) e) [] ∅ [] 0)) as (k & Hkl & _ & Hproc & Hbatch).
  fold (gather_batch (w_storage w) settings io e (take (Z.to_nat (batch_max_records io)) q)) in Hproc, Hbatch.
  rewrite <-Hb in Hproc, Hbatch. simpl in Hproc, Hbatch. rewrite length_take in Hkl.
  rewrite take_take, Nat.min_l, <-Hproc in Hbatch by lia.
  destruct (append_full n log r0 q t Hrep Ht Hfull) as [r1 Hr1].
  destruct (pop_front_rep _ _ _ _ (pb_processed b) Hr1) as (l' & r2 & Hpop & Hr2).
  revert Hs. unfold send_prepared, send_batch, append_to. rewrite He, Hlog, Happ. cbn [sn_logs sn_bucket sn_calls].
  destruct (remote_write_batch _ _ _ _) as [[res bucket] calls] eqn:Hcall. rewrite lookup_insert_eq, Hpop.
  intros Hs. injection Hs as _ Hact Hs'. rewrite Hact in Hs'. rewrite <-Hs'. cbn [sn_logs sn_calls snd].
  exists calls. split_and!; [done| |].
  - rewrite insert_insert_eq. apply map_Forall2_insert_2; [|done]. exists r2.
    replace (drop (S (pb_processed b)) q ++ [t]) with (drop (pb_processed b) (tail (q ++ [t]))); [done|].
    destruct q as [|t0 q]; simpl in *; [lia|]. apply drop_app_le. lia.
  - intros call r Hin Hcr. destruct (remote_from _ _ _ _ _ _ _ _ _ Hcall Hin Hcr) as [t' Ht'].
    rewrite Hbatch in Ht'. apply read_all_inv in Ht' as [? ?]. by exists t'.
Qed.

(** ** Witnesses *)

#[local] Existing Instances std_order std_order_laws plain_http plain_http_laws.

Definition lost_record : SyncRecord := mkSyncRecord 20 3.
Definition lost_out (r : SyncRecord) : OutRecord := late_record.
Definition lost_net : Net :=
  mkNet (Done tt) (Done tt) (Done tt) (λ _, Done {[20 := NotFound]}) (handler_answer lost_out) 0 0.
Definition lost_batch : PreparedBatch :=
  mkPreparedBatch "a" "a" [(lost_record, TxWriteRecord 20); (lost_record, TxUpdateRecord 20)] {[20 := 3]} [] 2.
Definition lost_sender : Sender :=
  mkSender {["a" := demo_log [TxWriteRecord 20; TxUpdateRecord 20]]} (mkRemoteBucket (Available (Done ∅)) true) [].

Lemma written_and_updated_record_is_lost_witness :
  let '(c, active, s') := send_batch lost_net lost_batch lost_sender in
  active = true ∧ sn_calls s' = [CallUpdate "a" [lost_record]; CallWrite "a" [lost_record; lost_record]] ∧
  TransactionLog.front (default (demo_log []) (sn_logs s' !! "a")) 10 = Ok [].
Proof.
  pose proof (written_and_updated_record_is_lost lost_out lost_net lost_batch lost_sender lost_record 20 (Done ∅)
    {[20 := NotFound]} (demo_log [TxWriteRecord 20; TxUpdateRecord 20])) as Hl.
  destruct (send_batch lost_net lost_batch lost_sender) as [[c active] s'].
  destruct Hl as (-> & _ & -> & Hlogs); [exact (proj1 (proj1 (Forall_cons _ _ _) sent_records_ok))|by eauto..|].
  split_and!; [done|done|]. rewrite Hlogs. by vm_compute.
Defined.

Definition waiting_sender : Sender :=
  mkSender {["a" := demo_log [TxWriteRecord 20]]} (mkRemoteBucket (Unavailable 0 (Failed ConnectionError)) false) [].

Lemma waiting_counts_unsent_records_witness :
  let '(c, active, s') := send_batch answering lost_batch waiting_sender in
  sn_calls s' = [] ∧ active = false ∧ ∃ bytes, c = [(Done tt, 2, bytes)].
Proof.
  pose proof (waiting_counts_unsent_records answering lost_batch waiting_sender 0 (Failed ConnectionError)
    eq_refl ltac:(done) ltac:(done)) as Hw.
  destruct (send_batch answering lost_batch waiting_sender) as [[c active] s'].
  destruct Hw as (-> & _ & -> & bytes & ->). split_and!; [done|done|by exists bytes].
Defined.

Definition full_queue : list Transaction := TxWriteRecord <$> [1; 2; 3; 4; 5; 6; 7].
Definition full_sender : Sender :=
  mkSender {["a" := demo_log full_queue]} (mkRemoteBucket (Available (Done ∅)) true) [].

Lemma full_sender_rep : logs_rep 8 (sn_logs full_sender) {["a" := full_queue]}.
Proof.
  apply map_Forall2_singleton, demo_log_rep; [|simpl; lia].
  unfold full_queue. rewrite Forall_fmap. repeat (apply Forall_cons; split; [unfold tx_valid; simpl; u64_lia|]). apply Forall_nil_2.
Qed.

(** The third transaction is gone; the requests carried the first two. *)
Lemma overflow_while_sending_drops_unsent_witness :
  ∃ b c s', send_prepared (demo_world [TxWriteRecord 8]) b full_sender = (c, true, s') ∧
    logs_rep 8 (sn_logs s') {["a" := TxWriteRecord <$> [4; 5; 6; 7; 8]]}.
Proof.
  destruct (prepare_batch (sn_logs full_sender) (w_storage (demo_world [TxWriteRecord 8])) demo_settings demo_io "a") as [| |b] eqn:Hp;
    [by vm_compute in Hp..|].
  assert (pb_processed b = 2%nat) as Hk by (vm_compute in Hp; by injection Hp as <-).
  destruct (send_prepared (demo_world [TxWriteRecord 8]) b full_sender) as [[c active] s'] eqn:Hs.
  assert (active = true) as -> by (vm_compute in Hp; injection Hp as <-; vm_compute in Hs; by injection Hs as _ <- _).
  exists b, c, s'. split; [done|].
  destruct (overflow_while_sending_drops_unsent 8 (demo_world [TxWriteRecord 8]) demo_settings demo_io full_sender
    {["a" := full_queue]} "a" full_queue (TxWriteRecord 8) b c s') as (calls & _ & Hr & _);
    [exact full_sender_rep|done|done|done|unfold tx_valid; simpl; u64_lia|exact Hp|rewrite Hk; simpl; lia|exact Hs|].
  rewrite Hk in Hr. by rewrite insert_singleton_eq in Hr.
Defined.
